(* ===== verification/_CoqProject ===== *)
-Q . S2P
Prelude.v
Trie.v
PageId.v
Update.v
TrieSpec.v
TriePos.v
PathProof.v
MultiProof.v
MultiProofCorrect.v
PageDiff.v
Wal.v
Bitbox.v
BitboxSync.v
Delta.v
Overlay.v
PageWalker.v
PagePaths.v
PageLeaves.v
PageWalkerCorrect.v
PageBuild.v
PageAdvance.v
PageWalk.v
PageDiffs.v
PageWalkSpec.v
PageRegion.v
PageCache.v
Worker.v
WorkerJoin.v
WorkerLoop.v
WorkerBatches.v
WorkerCorrect.v
WorkerShards.v
WorkerUpdate.v
Meta.v
Seglog.v
SeglogFiles.v
SeglogCorrect.v
SeglogSpec.v
Rollback.v
Store.v
StoreCorrect.v
StoreSpec.v
