(* ===== verification/Prelude.v ===== *)
(** * NOMT: a verification development of the Nearly Optimal Merkle Trie

    NOMT is a key-value store that authenticates its contents by a binary merkle trie
    over 256-bit key paths.  The sources under [src/] are a core crate with the trie,
    its proofs and the verification of proofs ([core]), and the database ([nomt]) that
    keeps the trie in pages of 126 nodes, updates it with parallel workers, and stores
    the pages in a hash table with a write-ahead log ([bitbox]), the values in a B-tree
    ([beatree]), and the reverse deltas of the last commits in a segmented log
    ([seglog], [rollback]).  Overlays chain commits that are still in memory.

    ** The embedding

    Definitions are translated function by function.  A function that can only panic
    returns an [option], with [None] for the panic; one with a [Result] returns an
    [outcome].  Mutable state is a record that is passed on; state that several owners
    share is a heap ([Overlay.v], [PageRegion.v], the bucket placeholders of
    [BitboxSync.v]) or a list whose order is left open (the pending operations of the
    workers).  Bytes are [Byte.byte], machine integers are [Z] or [nat] with the wrapping
    or the check of the source written out.  Files are their bytes; a crash keeps what
    was synced and some part of the rest, as each theorem on crashes says.

    ** The files, and what their theorems show

    The trie and its proofs, [core/src]:
    - [Trie.v]: [trie.rs] and [hasher.rs].  The hasher is the class [NodeHasher], with the
      obligations that the trait documents as [NodeHasherLaws]; [BinaryHasher] is the
      instance over any 32-byte hash.  The trie of a set of pairs is [trie_at].
    - [Update.v]: [update.rs].  [build_trie_correct]: the left-frontier algorithm
      computes the commitment of the compact trie and visits exactly its nodes.
    - [PageId.v]: [page.rs] and [page_id.rs].  Decoding, the order of page ids and the
      iterator along a key are right; [encode] differs from what [decode] reads, and at
      the greatest depth it maps different ids to the same bytes.
    - [TriePos.v]: [trie_pos.rs].  Every movement keeps the cached node index; distinct
      positions have distinct slots.
    - [TrieSpec.v]: paths, the pairs below a prefix, and applying operations to a set.
    - [PathProof.v]: [proof/path_proof.rs].  A proof that verifies against the root of a
      trie shows a path of it, unless two of the preimages that were hashed collide;
      honest proofs verify; [verify_update] computes the root of the updated set, and
      rejects what is out of order.
    - [MultiProof.v], [MultiProofCorrect.v]: [proof/multi_proof.rs].  Soundness,
      completeness for the multi-proof of ordered path proofs, the answers to queries;
      and the wrong root that [verify_update] computes for every proof of one path with
      internal siblings that do not read the same backwards.

    The pages of the trie, [nomt/src/merkle], [page_cache.rs], [page_region.rs]:
    - [PageDiff.v]: [page_diff.rs] and the field of elided children.
    - [PageWalker.v]: [merkle/page_walker.rs] and [merkle/page_set.rs].
    - [PagePaths.v], [PageLeaves.v], [PageWalkerCorrect.v], [PageBuild.v],
      [PageAdvance.v], [PageWalk.v], [PageDiffs.v], [PageWalkSpec.v]: the proof that a
      walk computes the nodes of the edited set ([page_walk_correct]), with the slots it
      changed in the diffs, but for the case of [cleared_slot_lost].
    - [PageRegion.v]: [page_region.rs], the write passes of [rw_pass_cell/mod.rs] and the
      division into shards.  The interface [Region] with [RegionLaws] is proved for page
      regions and for shards; passes of a split exclude each other, the last one to be
      consumed yields the parent, and the shards divide the pages below the root.
    - [PageCache.v]: [page_cache.rs].  The cache refines a map that may forget pages
      below the fixed levels; the LRU cache is the interface [LruCache], [LruLaws].
    - [Worker.v]: [merkle/worker.rs], the shared state and [join] of [merkle/mod.rs],
      [core/src/witness.rs].  [WorkerLoop.v]: the pipelined loop is equivalent to
      handling one batch after the other.  [WorkerBatches.v], [WorkerCorrect.v],
      [WorkerShards.v], [WorkerUpdate.v]: the parallel update computes the root and the
      pages of the updated trie ([parallel_update_correct]); a key that is the greatest
      of its shard is not handled ([greatest_key_skipped]).  [WorkerJoin.v]: what the
      witness has, in the order in which the outputs of the workers arrive.

    The stores, [nomt/src/bitbox], [overlay.rs], [seglog], [rollback], [store]:
    - [Wal.v]: [bitbox/wal].  Reading back what was written.
    - [Bitbox.v], [BitboxSync.v]: [bitbox/mod.rs], [meta_map.rs], [ht_file.rs].  Loading
      finds the page of an id; preparing a sync keeps the table consistent; a committed
      sync survives crashes in the writeout of its pages and in its recovery, and one that
      was not committed leaves no trace if the log it left is empty or has its first page
      and whole pages ([sync_crash_recovery]), while another torn log cannot be opened
      ([wal_torn_unreadable]); allocation may loop for a number of buckets that is a
      multiple of five ([allocate_never_returns]).
    - [Delta.v]: [rollback/delta.rs].
    - [Overlay.v]: [overlay.rs] and the sessions and commits of [lib.rs].  Every
      look-up through a chain of live overlays, under every interleaving of the
      operations, gives what the chain committed last.
    - [Meta.v]: [store/meta.rs].
    - [Seglog.v], [SeglogFiles.v], [SeglogCorrect.v], [SeglogSpec.v]: [seglog].  The log
      refines a list of records with consecutive ids; opening gives back the live
      records, also after a crash that tore the payload of a record, while a torn header
      makes it fail ([seglog_torn_header]).
    - [Rollback.v], [Store.v], [StoreCorrect.v], [StoreSpec.v]: [rollback/mod.rs],
      [store/mod.rs], [store/sync.rs] and [Nomt::rollback].  Rolling back restores the
      values of the earlier commit, across restarts and crashes just before or after the
      manifest is written, as long as it leaves a delta or goes back to the beginning
      ([rollback_refinement]); a rollback of the whole of a pruned log leaves a store that
      cannot be opened ([rollback_all_unopenable]).

    ** Fuel and bounds

    Loops of the source that are not structural take fuel that is bounded by the data:
    the length of the slice for a binary search, the number of nodes of a page for
    [count_leaves], the depth 256 of a position for climbing, the number of buckets or a
    given number of steps for probing.  Where a loop may run forever the model says so
    ([allocate_never_returns]); the loop of a worker takes a schedule, and the theorem
    says for which schedules it ends.

    ** Interfaces and hypotheses

    The hash function, the page pool, the LRU cache, the memory mappings and the result
    of a seek are arguments.  The seeks of [parallel_update_correct] find the terminal of
    each key in the old trie, with the pages on the path to it in the page set
    ([seek_ok], [pages_ready]); the witness instantiates them.  Pages from the pool hold
    arbitrary bytes.

    ** Not modelled

    The B-tree of values ([beatree]) is a map in [Store.v].  The seeker
    ([merkle/seek.rs]), the warm-up of workers and the prepopulation of the page cache
    are asynchronous I/O around the operations that are modelled; so are the I/O
    back ends ([io]), the thread pools, locks and metrics, the worker that collects the
    reverse deltas, and the memory ordering of the passes.  The fault-injecting file
    system, the torture tests, the fuzzers, the examples and the benchmarks are harnesses
    around the database. *)

From stdpp Require Export prelude gmap sorting.
From Stdlib Require Export Strings.Byte ZArith Lia.

#[global] Set Default Goal Selector "!".

(** ** Outcomes

    A Rust function of the program ends in one of three ways: a value, an error
    value of its [Result] type, or a panic (a failed assertion, an index out of
    bounds, an [unwrap] of [None]).  Functions that can only panic return an
    [option], [None] being the panic; functions that return a [Result] return an
    [outcome]. *)

Inductive outcome (E A : Type) : Type :=
| Ok (a : A)
| Err (e : E)
| Panic.
Arguments Ok {E A} a.
Arguments Err {E A} e.
Arguments Panic {E A}.

Declare Scope nomt_scope.
Delimit Scope nomt_scope with nomt.
Open Scope nomt_scope.

Definition obind {E A B} (m : outcome E A) (k : A → outcome E B) : outcome E B :=
  match m with
  | Ok a => k a
  | Err e => Err e
  | Panic => Panic
  end.

(** An assertion or an unwrap inside a fallible function. *)
Definition or_panic {E A} (o : option A) : outcome E A :=
  match o with Some a => Ok a | None => Panic end.

Notation "'let!' x := m 'in' k" := (obind m (λ x, k))
  (at level 10, x pattern, m at level 100, k at level 200,
   format "'let!'  x  :=  m  'in' '//' k") : nomt_scope.
Notation "'let?' x := m 'in' k" := (mbind (M := option) (λ x, k) m)
  (at level 10, x pattern, m at level 100, k at level 200,
   format "'let?'  x  :=  m  'in' '//' k") : nomt_scope.

(** [assert c; k] of a function that can only panic. *)
Definition oassert (c : bool) : option () := if c then Some () else None.

Definition is_ok {E A} (m : outcome E A) : bool :=
  match m with Ok _ => true | _ => false end.

Lemma obind_Ok {E A B} (m : outcome E A) (k : A → outcome E B) b :
  obind m k = Ok b ↔ ∃ a, m = Ok a ∧ k a = Ok b.
Proof. destruct m; simpl; naive_solver. Qed.

(** ** Automation *)

Create HintDb nomt discriminated.

(** Split every hypothesis that is a conjunction or an existential and use the
    equations it gives. *)
Ltac inv_all :=
  repeat match goal with
  | H : _ ∧ _ |- _ => destruct H
  | H : ∃ _, _ |- _ => destruct H
  | H : obind _ _ = Ok _ |- _ => apply obind_Ok in H
  | H : mbind _ _ = Some _ |- _ => apply bind_Some in H
  | H : or_panic ?o = Ok _ |- _ => destruct o eqn:?; simpl in H
  end; simplify_eq/=.

(** Case analysis on every boolean test of the goal, with the test as an
    arithmetic fact. *)
Ltac bool_cases :=
  repeat match goal with
  | |- context [Nat.eqb ?a ?b] => destruct (Nat.eqb_spec a b)
  | |- context [Nat.leb ?a ?b] => destruct (Nat.leb_spec a b)
  | |- context [Nat.ltb ?a ?b] => destruct (Nat.ltb_spec a b)
  end.

(** ** Bytes and bits

    [u8] is the byte of the Standard Library, so that arrays of bytes need no
    range side conditions.  Bits are listed most significant first, the [Msb0]
    order of the [bitvec] crate in which every key path of the program is read. *)

Abbreviation u8 := Byte.byte (only parsing).

#[global] Instance byte_eq_dec : EqDecision Byte.byte := Byte.byte_eq_dec.
#[global] Instance byte_countable : Countable Byte.byte :=
  inj_countable Byte.to_N Byte.of_N Byte.of_to_N.

Definition byte_bits (b : u8) : list bool :=
  match Byte.to_bits b with
  | (b0, (b1, (b2, (b3, (b4, (b5, (b6, b7))))))) => [b7; b6; b5; b4; b3; b2; b1; b0]
  end.

(** [view_bits::<Msb0>()] *)
Definition view_bits (bs : list u8) : list bool := bs ≫= byte_bits.

Definition byte_val (b : u8) : nat := N.to_nat (Byte.to_N b).

(** [as u8]: the value is wrapped to eight bits. *)
Definition byte_of_nat (n : nat) : u8 :=
  match Byte.of_N (N.of_nat n mod 256) with Some b => b | None => x00 end.
Definition byte_of_Z (z : Z) : u8 :=
  match Byte.of_N (Z.to_N (z mod 256)) with Some b => b | None => x00 end.
Definition byte_Z (b : u8) : Z := Z.of_N (Byte.to_N b).

(** [load_be] of the [bitvec] crate: the bits read as a big-endian integer. *)
Definition load_be (bits : list bool) : nat :=
  foldl (λ acc (b : bool), 2 * acc + (if b then 1 else 0)) 0 bits.

Definition all_bytes : list u8 :=
  omap (λ n, Byte.of_N (N.of_nat n)) (seq 0 256).

Lemma all_bytes_complete b : b ∈ all_bytes.
Proof.
  apply list_elem_of_omap. exists (byte_val b). split.
  - apply elem_of_seq. destruct b; vm_compute; lia.
  - destruct b; reflexivity.
Qed.

(** A property of one or two bytes that evaluates to [true] everywhere holds. *)
Lemma byte_forall (P : u8 → bool) :
  forallb P all_bytes = true → ∀ b, P b = true.
Proof.
  intros H b. rewrite forallb_forall in H. apply H, list_elem_of_In, all_bytes_complete.
Qed.

Lemma byte_forall2 (P : u8 → u8 → bool) :
  forallb (λ a, forallb (P a) all_bytes) all_bytes = true → ∀ a b, P a b = true.
Proof.
  intros H a. apply byte_forall. revert a. by apply byte_forall.
Qed.

Lemma length_byte_bits b : length (byte_bits b) = 8.
Proof. by destruct b. Qed.

Lemma length_view_bits bs : length (view_bits bs) = 8 * length bs.
Proof.
  induction bs as [|b bs IH]; [done|].
  unfold view_bits in *. rewrite bind_cons, length_app, length_byte_bits, IH. simpl. lia.
Qed.

Lemma view_bits_app a b : view_bits (a ++ b) = view_bits a ++ view_bits b.
Proof. apply bind_app. Qed.

Lemma byte_bits_inj a b : byte_bits a = byte_bits b → a = b.
Proof.
  unfold byte_bits. intros H.
  rewrite <-(Byte.of_bits_to_bits a), <-(Byte.of_bits_to_bits b).
  destruct (Byte.to_bits a) as (?&?&?&?&?&?&?&?), (Byte.to_bits b) as (?&?&?&?&?&?&?&?).
  by simplify_eq.
Qed.

Lemma view_bits_inj a b : view_bits a = view_bits b → a = b.
Proof.
  revert b. induction a as [|x a IH]; intros [|y b] H.
  - done.
  - apply (f_equal length) in H. rewrite !length_view_bits in H. simpl in H. lia.
  - apply (f_equal length) in H. rewrite !length_view_bits in H. simpl in H. lia.
  - unfold view_bits in *. rewrite !bind_cons in H.
    apply app_inj_1 in H; [|by rewrite !length_byte_bits].
    destruct H as [Hx%byte_bits_inj Ha%IH]. congruence.
Qed.

(** ** Lexicographic comparison

    [Ord] of arrays, vectors and bit slices: element by element, a proper prefix
    being smaller. *)

Fixpoint lex_compare {A} (cmp : A → A → comparison) (xs ys : list A) : comparison :=
  match xs, ys with
  | [], [] => Eq
  | [], _ :: _ => Lt
  | _ :: _, [] => Gt
  | x :: xs', y :: ys' =>
      match cmp x y with Eq => lex_compare cmp xs' ys' | c => c end
  end.

Definition bool_compare (a b : bool) : comparison :=
  match a, b with
  | false, true => Lt
  | true, false => Gt
  | _, _ => Eq
  end.

Definition byte_compare (a b : u8) : comparison := N.compare (Byte.to_N a) (Byte.to_N b).

(** [Ord for BitSlice<u8, Msb0>] and [Ord for [u8; N]] *)
Definition bits_compare : list bool → list bool → comparison := lex_compare bool_compare.
Definition bytes_compare : list u8 → list u8 → comparison := lex_compare byte_compare.

Definition bits_lt (a b : list bool) : Prop := bits_compare a b = Lt.
Definition bytes_lt (a b : list u8) : Prop := bytes_compare a b = Lt.
Definition bytes_ltb (a b : list u8) : bool :=
  match bytes_compare a b with Lt => true | _ => false end.
Definition bits_ltb (a b : list bool) : bool :=
  match bits_compare a b with Lt => true | _ => false end.

#[global] Instance bytes_lt_dec a b : Decision (bytes_lt a b).
Proof. unfold bytes_lt. destruct (bytes_compare a b); (by left) || (by right). Defined.
#[global] Instance bits_lt_dec a b : Decision (bits_lt a b).
Proof. unfold bits_lt. destruct (bits_compare a b); (by left) || (by right). Defined.
#[global] Instance comparison_eq_dec : EqDecision comparison.
Proof. solve_decision. Defined.

Lemma lex_compare_app {A} (cmp : A → A → comparison) p xs ys :
  (∀ x, cmp x x = Eq) →
  lex_compare cmp (p ++ xs) (p ++ ys) = lex_compare cmp xs ys.
Proof. intros Hr. induction p as [|x p IH]; simpl; [done|]. by rewrite Hr. Qed.

Lemma lex_compare_refl {A} (cmp : A → A → comparison) xs :
  (∀ x, cmp x x = Eq) → lex_compare cmp xs xs = Eq.
Proof. intros Hr. induction xs as [|x p IH]; simpl; [done|]. by rewrite Hr. Qed.

Lemma lex_compare_eq {A} (cmp : A → A → comparison) xs ys :
  (∀ x y, cmp x y = Eq → x = y) → lex_compare cmp xs ys = Eq → xs = ys.
Proof.
  intros Hc. revert ys. induction xs as [|x xs IH]; intros [|y ys]; simpl; try done.
  destruct (cmp x y) eqn:E; try done. intros ?. f_equal; auto.
Qed.

Lemma lex_compare_antisym {A} (cmp : A → A → comparison) xs ys :
  (∀ x y, cmp y x = CompOpp (cmp x y)) →
  lex_compare cmp ys xs = CompOpp (lex_compare cmp xs ys).
Proof.
  intros Hc. revert ys. induction xs as [|x xs IH]; intros [|y ys]; simpl; try done.
  rewrite Hc. destruct (cmp x y) eqn:E; simpl; auto.
Qed.

Lemma lex_compare_trans {A} (cmp : A → A → comparison) xs ys zs :
  (∀ x y, cmp x y = Eq → x = y) →
  (∀ x y z, cmp x y = Lt → cmp y z = Lt → cmp x z = Lt) →
  (∀ x, cmp x x = Eq) →
  lex_compare cmp xs ys = Lt → lex_compare cmp ys zs = Lt → lex_compare cmp xs zs = Lt.
Proof.
  intros He Ht Hr. revert ys zs.
  induction xs as [|x xs IH]; intros [|y ys] [|z zs]; simpl; try done.
  destruct (cmp x y) eqn:E1, (cmp y z) eqn:E2; try done.
  - apply He in E1, E2. subst. rewrite Hr. eauto.
  - apply He in E1. subst. by rewrite E2.
  - apply He in E2. subst. by rewrite E1.
  - by rewrite (Ht _ _ _ E1 E2).
Qed.

Lemma bool_compare_refl b : bool_compare b b = Eq.
Proof. by destruct b. Qed.
Lemma bool_compare_eq a b : bool_compare a b = Eq → a = b.
Proof. by destruct a, b. Qed.
Lemma byte_compare_refl b : byte_compare b b = Eq.
Proof. apply N.compare_refl. Qed.
Lemma byte_compare_eq a b : byte_compare a b = Eq → a = b.
Proof.
  unfold byte_compare. intros H%N.compare_eq.
  apply (f_equal Byte.of_N) in H. rewrite !Byte.of_to_N in H. congruence.
Qed.

#[export] Hint Resolve bool_compare_refl bool_compare_eq byte_compare_refl byte_compare_eq : nomt.

Lemma bytes_compare_antisym a b : bytes_compare b a = CompOpp (bytes_compare a b).
Proof. apply lex_compare_antisym. intros x y. apply N.compare_antisym. Qed.

Lemma bytes_compare_eq a b : bytes_compare a b = Eq → a = b.
Proof. apply lex_compare_eq. auto with nomt. Qed.

Lemma bytes_compare_refl a : bytes_compare a a = Eq.
Proof. apply lex_compare_refl. auto with nomt. Qed.

Lemma bits_compare_refl a : bits_compare a a = Eq.
Proof. apply lex_compare_refl. auto with nomt. Qed.

Lemma bits_compare_eq a b : bits_compare a b = Eq → a = b.
Proof. apply lex_compare_eq. auto with nomt. Qed.

Lemma bits_compare_app p a b : bits_compare (p ++ a) (p ++ b) = bits_compare a b.
Proof. apply lex_compare_app. auto with nomt. Qed.

Lemma bits_compare_antisym a b : bits_compare b a = CompOpp (bits_compare a b).
Proof. apply lex_compare_antisym. by intros [] []. Qed.

#[global] Instance bits_lt_trans : Transitive bits_lt.
Proof.
  intros a b c. apply lex_compare_trans; auto with nomt.
  by intros [] [] [].
Qed.

#[global] Instance bits_lt_irrefl : Irreflexive bits_lt.
Proof. intros a H. unfold bits_lt in H. by rewrite bits_compare_refl in H. Qed.

(** Comparing byte arrays of one length is comparing their bits. *)
Lemma byte_compare_bits a b : byte_compare a b = bits_compare (byte_bits a) (byte_bits b).
Proof.
  revert a b.
  assert (H := byte_forall2
    (λ a b, bool_decide (byte_compare a b = bits_compare (byte_bits a) (byte_bits b)))).
  intros a b. eapply bool_decide_eq_true_1. apply H. vm_compute. reflexivity.
Qed.

Lemma bits_compare_app_same_length a b x y :
  length a = length b →
  bits_compare (a ++ x) (b ++ y) =
    match bits_compare a b with Eq => bits_compare x y | c => c end.
Proof.
  unfold bits_compare. revert b.
  induction a as [|h a IH]; intros [|k b] Hl; simpl in *; try lia; [done|].
  destruct (bool_compare h k); [apply IH; lia|done|done].
Qed.

Lemma bytes_compare_bits a b :
  length a = length b → bytes_compare a b = bits_compare (view_bits a) (view_bits b).
Proof.
  revert b. induction a as [|x a IH]; intros [|y b] Hl; simpl in Hl; try lia; [done|].
  unfold view_bits. rewrite !bind_cons.
  rewrite bits_compare_app_same_length by (by rewrite !length_byte_bits).
  unfold bytes_compare, view_bits in *. simpl. rewrite byte_compare_bits.
  destruct (bits_compare _ _); [apply IH; lia|done|done].
Qed.

Lemma bytes_lt_bits a b :
  length a = length b → bytes_lt a b ↔ bits_lt (view_bits a) (view_bits b).
Proof. intros H. unfold bytes_lt, bits_lt. by rewrite bytes_compare_bits. Qed.

#[global] Instance bytes_lt_trans : Transitive bytes_lt.
Proof.
  intros a b c. apply lex_compare_trans; auto with nomt.
  intros x y z. unfold byte_compare. rewrite !N.compare_lt_iff. lia.
Qed.

#[global] Instance bytes_lt_irrefl : Irreflexive bytes_lt.
Proof.
  intros a H. unfold bytes_lt, bytes_compare in H.
  rewrite lex_compare_refl in H; [done|]. auto with nomt.
Qed.

(** ** Iterators and common prefixes *)

(** [Iterator::take_while] *)
Fixpoint take_while {A} (f : A → bool) (l : list A) : list A :=
  match l with
  | [] => []
  | x :: l' => if f x then x :: take_while f l' else []
  end.

(** The number of leading positions at which two bit strings agree, the form in
    which [update::shared_bits] and [path_proof::shared_bits] compute it. *)
Definition common_prefix_len (a b : list bool) : nat :=
  length (take_while (λ p : bool * bool, Bool.eqb p.1 p.2) (zip a b)).

Lemma common_prefix_len_cons x y a b :
  common_prefix_len (x :: a) (y :: b) =
    if Bool.eqb x y then S (common_prefix_len a b) else 0.
Proof. unfold common_prefix_len. simpl. by destruct (Bool.eqb x y). Qed.

Lemma common_prefix_len_app p a b :
  common_prefix_len (p ++ a) (p ++ b) = length p + common_prefix_len a b.
Proof.
  induction p as [|x p IH]; [done|]. simpl app.
  rewrite common_prefix_len_cons, Bool.eqb_reflx, IH. done.
Qed.

Lemma common_prefix_len_diverge p x y a b :
  x ≠ y → common_prefix_len (p ++ x :: a) (p ++ y :: b) = length p.
Proof.
  intros Hxy. rewrite common_prefix_len_app, common_prefix_len_cons.
  destruct x, y; simpl; try done; lia.
Qed.

Lemma common_prefix_len_comm a b : common_prefix_len a b = common_prefix_len b a.
Proof.
  revert b. induction a as [|x a IH]; intros [|y b]; try done.
  rewrite !common_prefix_len_cons, IH. by destruct x, y.
Qed.

(** What the common prefix length means: agreement below it, and above it an end
    or a disagreement. *)
Lemma common_prefix_len_split a b :
  ∃ p a' b', a = p ++ a' ∧ b = p ++ b' ∧ length p = common_prefix_len a b ∧
    match a', b' with x :: _, y :: _ => x ≠ y | _, _ => True end.
Proof.
  revert b. induction a as [|x a IH]; intros b.
  { exists [], [], b. done. }
  destruct b as [|y b].
  { exists [], (x :: a), []. done. }
  rewrite common_prefix_len_cons. destruct (Bool.eqb x y) eqn:E.
  - apply Bool.eqb_true_iff in E as ->. destruct (IH b) as (p & a' & b' & -> & -> & Hl & Hd).
    exists (y :: p), a', b'. simpl. split_and!; auto.
  - exists [], (x :: a), (y :: b). apply Bool.eqb_false_iff in E. done.
Qed.

Lemma common_prefix_len_le a b :
  common_prefix_len a b ≤ length a ∧ common_prefix_len a b ≤ length b.
Proof.
  destruct (common_prefix_len_split a b) as (p & a' & b' & Ha & Hb & <- & _).
  rewrite Ha, Hb, !length_app. lia.
Qed.

(** Divergence of two bit strings of one length. *)
Lemma bits_lt_split a b :
  length a = length b → bits_lt a b →
  ∃ p a' b', a = p ++ false :: a' ∧ b = p ++ true :: b' ∧
    common_prefix_len a b = length p.
Proof.
  intros Hl Hlt.
  destruct (common_prefix_len_split a b) as (p & a' & b' & -> & -> & Hp & Hd).
  rewrite !length_app in Hl. unfold bits_lt in Hlt. rewrite bits_compare_app in Hlt.
  destruct a' as [|x a'], b' as [|y b']; simpl in *; try lia; try done.
  exists p, a', b'. destruct x, y; try done.
Qed.

(** Extending two ordered strings keeps their order, unless one continues the other. *)
Lemma bits_lt_extend a b s s' :
  bits_lt a b → ¬ a `prefix_of` b → bits_lt (a ++ s) (b ++ s').
Proof.
  unfold bits_lt, bits_compare. revert b. induction a as [|x a IH]; intros b Hlt Hp.
  { destruct Hp. apply prefix_nil. }
  destruct b as [|y b]; [done|]. simpl in *.
  destruct (bool_compare x y) eqn:E; [|done|done].
  apply bool_compare_eq in E. subst y. apply IH; [done|]. intros Hp'. apply Hp.
  by apply prefix_cons.
Qed.

Lemma bytes_ltb_lt a b : bytes_ltb a b = true ↔ bytes_lt a b.
Proof. unfold bytes_ltb, bytes_lt. by destruct (bytes_compare a b). Qed.

Lemma bits_ltb_lt a b : bits_ltb a b = true ↔ bits_lt a b.
Proof. unfold bits_ltb, bits_lt. by destruct (bits_compare a b). Qed.

Lemma length_snoc {A} (l : list A) x : length (l ++ [x]) = S (length l).
Proof. rewrite length_app. simpl. lia. Qed.

Lemma prefix_take {A} (p l : list A) : p `prefix_of` l → take (length p) l = p.
Proof. intros [k ->]. by rewrite take_app_length. Qed.

Lemma prefix_snoc_lookup {A} (p l : list A) x :
  p `prefix_of` l → l !! length p = Some x → (p ++ [x]) `prefix_of` l.
Proof.
  intros [k ->] Hx. rewrite lookup_app_r, Nat.sub_diag in Hx by lia.
  destruct k as [|y k]; simplify_eq/=. exists k. by rewrite <-app_assoc.
Qed.

Lemma prefix_snoc_inv {A} (p l : list A) x :
  (p ++ [x]) `prefix_of` l → p `prefix_of` l ∧ l !! length p = Some x.
Proof.
  intros [k ->]. rewrite <-app_assoc. split; [by eexists|].
  by rewrite lookup_app_r, Nat.sub_diag by lia.
Qed.

Lemma prefix_full {A} (p l : list A) : p `prefix_of` l → length p = length l → p = l.
Proof.
  intros [k ->] Hl. rewrite length_app in Hl. destruct k; [by rewrite app_nil_r|].
  simpl in Hl. lia.
Qed.

Lemma prefix_proper {A} (p q : list A) :
  p `prefix_of` q → p = q ∨ ∃ d, (p ++ [d]) `prefix_of` q.
Proof.
  intros [[|d s] ->]; [left; by rewrite app_nil_r|right]. exists d, s. by rewrite <-app_assoc.
Qed.

Lemma prefix_between Q a x b :
  Q `prefix_of` a → Q `prefix_of` b → bits_lt a x → bits_lt x b → Q `prefix_of` x.
Proof.
  unfold bits_lt, bits_compare. revert a x b.
  induction Q as [|q Q IH]; intros a x b [sa ->] [sb ->] Hax Hxb; [apply prefix_nil|].
  destruct x as [|y x]; [done|]. simpl in *.
  assert (q = y) as <- by (by destruct q, y).
  rewrite bool_compare_refl in Hax, Hxb. apply prefix_cons.
  eapply (IH (Q ++ sa) x (Q ++ sb)); [by eexists..|done|done].
Qed.

Lemma StronglySorted_sublist {A} (R : A → A → Prop) l k :
  k `sublist_of` l → StronglySorted R l → StronglySorted R k.
Proof.
  induction 1 as [|x k l Hs IH|x k l Hs IH]; intros Hl; [done| |].
  - apply StronglySorted_inv in Hl as [Hl Hx]. constructor; [by apply IH|].
    rewrite list.Forall_forall in *. intros y Hy. apply Hx. by eapply elem_of_sublist.
  - apply StronglySorted_inv in Hl as [Hl _]. by apply IH.
Qed.

Lemma StronglySorted_snoc {A} (R : A → A → Prop) l x :
  StronglySorted R l → Forall (λ y, R y x) l → StronglySorted R (l ++ [x]).
Proof.
  induction 1 as [|y l Hs IH Hy]; intros Hf; simpl; [constructor; constructor|].
  apply list.Forall_cons in Hf as [Hyx Hf]. constructor; [auto|]. apply Forall_app. split; [done|]. by constructor.
Qed.

(** ** Filters *)

Lemma filter_none {A} (P : A → Prop) `{∀ x, Decision (P x)} l :
  Forall (λ x, ¬ P x) l → filter P l = [].
Proof.
  induction 1 as [|x l Hx Hl IH]; [done|]. rewrite filter_cons. by case_decide.
Qed.

Lemma filter_all {A} (P : A → Prop) `{∀ x, Decision (P x)} l :
  Forall P l → filter P l = l.
Proof.
  induction 1 as [|x l Hx Hl IH]; [done|]. rewrite filter_cons.
  case_decide; [by rewrite IH|done].
Qed.

Lemma filter_ext_in {A} (P Q : A → Prop) `{∀ x, Decision (P x)} `{∀ x, Decision (Q x)} l :
  Forall (λ x, P x ↔ Q x) l → filter P l = filter Q l.
Proof.
  induction 1 as [|x l Hx Hl IH]; [done|]. rewrite !filter_cons, IH.
  repeat case_decide; naive_solver.
Qed.

Lemma filter_fmap {A B} (f : A → B) (P : B → Prop) `{∀ x, Decision (P x)} (l : list A) :
  filter P (f <$> l) = f <$> filter (λ x, P (f x)) l.
Proof.
  induction l as [|x l IH]; [done|]. rewrite fmap_cons, !filter_cons, IH. by case_decide.
Qed.

Lemma Forall_filter_mono {A} (P Q : A → Prop) `{∀ x, Decision (Q x)} l :
  Forall P l → Forall P (filter Q l).
Proof. rewrite !list.Forall_forall. intros HP x [_ ?]%list_elem_of_filter. auto. Qed.

(** ** Slices and [slice::binary_search_by] *)

(** [&l[a..b]]: a panic when the range is out of order or out of bounds. *)
Definition slice {A} (l : list A) (a b : nat) : option (list A) :=
  if (a <=? b) && (b <=? length l) then Some (take (b - a) (drop a l)) else None.

(** [&l[a..]] *)
Definition slice_from {A} (l : list A) (a : nat) : option (list A) :=
  if a <=? length l then Some (drop a l) else None.

Lemma slice_Some {A} (l : list A) a b :
  a ≤ b → b ≤ length l → slice l a b = Some (take (b - a) (drop a l)).
Proof.
  intros H1 H2. unfold slice. by rewrite (proj2 (Nat.leb_le _ _) H1), (proj2 (Nat.leb_le _ _) H2).
Qed.

Lemma slice_from_Some {A} (l : list A) a :
  a ≤ length l → slice_from l a = Some (drop a l).
Proof. intros H. unfold slice_from. by rewrite (proj2 (Nat.leb_le _ _) H). Qed.

(** [l[a..b].copy_from_slice(src)]: a panic when the range is out of bounds or the
    lengths differ. *)
Definition copy_from_slice {A} (l : list A) (a b : nat) (src : list A) : option (list A) :=
  if (a <=? b) && (b <=? length l) && (b - a =? length src)
  then Some (take a l ++ src ++ drop b l) else None.

Lemma copy_from_slice_Some {A} (l : list A) a b src :
  a ≤ b → b ≤ length l → length src = b - a →
  copy_from_slice l a b src = Some (take a l ++ src ++ drop b l).
Proof.
  intros Ha Hb Hs. unfold copy_from_slice.
  rewrite (proj2 (Nat.leb_le _ _) Ha), (proj2 (Nat.leb_le _ _) Hb). simpl.
  by rewrite Hs, Nat.eqb_refl.
Qed.

Lemma copy_from_slice_inv {A} (l : list A) a b src r :
  copy_from_slice l a b src = Some r →
  a ≤ b ∧ b ≤ length l ∧ length src = b - a ∧ r = take a l ++ src ++ drop b l.
Proof.
  unfold copy_from_slice. destruct (Nat.leb_spec a b), (Nat.leb_spec b (length l)),
    (Nat.eqb_spec (b - a) (length src)); naive_solver.
Qed.

Lemma copy_from_slice_lookup {A} (l : list A) a b src r i :
  copy_from_slice l a b src = Some r →
  r !! i = if (a <=? i) && (i <? b) then src !! (i - a) else l !! i.
Proof.
  intros (Ha & Hb & Hs & ->)%copy_from_slice_inv.
  destruct (Nat.leb_spec a i); simpl.
  - rewrite lookup_app_r by (rewrite length_take; lia). rewrite length_take, Nat.min_l by lia.
    destruct (Nat.ltb_spec i b).
    + by rewrite lookup_app_l by lia.
    + rewrite lookup_app_r, lookup_drop by lia. f_equal. lia.
  - by rewrite lookup_app_l, lookup_take_lt by (rewrite ?length_take; lia).
Qed.

Lemma copy_from_slice_length {A} (l : list A) a b src r :
  copy_from_slice l a b src = Some r → length r = length l.
Proof.
  intros (Ha & Hb & Hs & ->)%copy_from_slice_inv.
  rewrite !length_app, length_take, length_drop. lia.
Qed.

(** The result of [binary_search_by]: [Ok i] is [inl i], [Err i] is [inr i].  The
    loop halves [size]; [fuel] is the length of the slice. *)
Fixpoint binary_search_loop {A} (f : A → comparison) (l : list A) (fuel base size : nat) : nat :=
  match fuel with
  | 0 => base
  | S fuel' =>
      if size <=? 1 then base
      else
        let half := size / 2 in
        let mid := base + half in
        let base' :=
          match l !! mid with
          | Some x => match f x with Gt => base | _ => mid end
          | None => base
          end in
        binary_search_loop f l fuel' base' (size - half)
  end.

Definition binary_search_by {A} (f : A → comparison) (l : list A) : nat + nat :=
  match l with
  | [] => inr 0
  | _ =>
      let base := binary_search_loop f l (length l) 0 (length l) in
      match l !! base with
      | Some x =>
          match f x with
          | Eq => inl base
          | Lt => inr (base + 1)
          | Gt => inr base
          end
      | None => inr base
      end
  end.

(** The order a slice must have for the search to be meaningful: first the
    elements that compare [Lt], then those that compare [Eq], then [Gt]. *)
Definition search_sorted {A} (f : A → comparison) (l : list A) : Prop :=
  ∀ i j x y, i < j → l !! i = Some x → l !! j = Some y →
    (f y = Lt → f x = Lt) ∧ (f x = Gt → f y = Gt).

Lemma binary_search_loop_spec {A} (f : A → comparison) (l : list A) fuel base size :
  search_sorted f l →
  1 ≤ size → size ≤ fuel + 1 → base + size ≤ length l →
  (∀ i x, base + size ≤ i → l !! i = Some x → f x = Gt) →
  (base ≠ 0 → ∀ x, l !! base = Some x → f x ≠ Gt) →
  let b := binary_search_loop f l fuel base size in
  b < length l ∧ (∀ i x, b < i → l !! i = Some x → f x = Gt) ∧
  (b ≠ 0 → ∀ x, l !! b = Some x → f x ≠ Gt).
Proof.
  intros Hs. revert base size.
  induction fuel as [|fuel IH]; intros base size H1 Hf Hb Hhi Hlo;
    cbn [binary_search_loop].
  { split_and!; [lia| |done]. intros i x Hi. apply Hhi. lia. }
  destruct (Nat.leb_spec size 1) as [Hsz|Hsz].
  { split_and!; [lia| |done]. intros i x Hi. apply Hhi. lia. }
  assert (Hhalf : 1 ≤ size / 2 ∧ 2 * (size / 2) ≤ size).
  { split; [apply Nat.div_le_lower_bound; lia|apply Nat.Div0.mul_div_le]. }
  destruct (lookup_lt_is_Some_2 l (base + size / 2)) as [x Hx]; [lia|].
  rewrite Hx. destruct (f x) eqn:E; apply IH; try lia.
  - intros i y Hi. apply Hhi. lia.
  - intros _ y Hy. simplify_eq. congruence.
  - intros i y Hi. apply Hhi. lia.
  - intros _ y Hy. simplify_eq. congruence.
  - intros i y Hi Hy. destruct (decide (i = base + size / 2)) as [->|]; [congruence|].
    eapply (proj2 (Hs (base + size / 2) i x y ltac:(lia) Hx Hy)). done.
  - done.
Qed.

Lemma binary_search_by_spec {A} (f : A → comparison) (l : list A) :
  search_sorted f l →
  match binary_search_by f l with
  | inl i => ∃ x, l !! i = Some x ∧ f x = Eq
  | inr i => i ≤ length l ∧ (∀ j x, j < i → l !! j = Some x → f x = Lt) ∧
             (∀ j x, i ≤ j → l !! j = Some x → f x = Gt)
  end.
Proof.
  intros Hs. unfold binary_search_by. destruct l as [|x0 l0]; [simpl; naive_solver lia|].
  set (l := x0 :: l0) in *.
  pose proof (binary_search_loop_spec f l (length l) 0 (length l) Hs) as Hb.
  destruct Hb as (Hb & Hhi & Hlo); [subst l; simpl; lia|lia|lia| |done|].
  { intros i x Hi Hx. apply lookup_lt_Some in Hx. lia. }
  set (b := binary_search_loop f l (length l) 0 (length l)) in *. cbv zeta.
  destruct (lookup_lt_is_Some_2 l b Hb) as [x Hx]. rewrite Hx.
  destruct (f x) eqn:E; [eauto| |]; split_and!; try lia.
  - intros j y Hj Hy. destruct (decide (j = b)) as [->|]; [congruence|].
    eapply (proj1 (Hs j b y x ltac:(lia) Hy Hx)). done.
  - intros j y Hj. apply Hhi. lia.
  - intros j y Hj Hy. destruct (decide (b = 0)); [lia|]. destruct (Hlo n x Hx). done.
  - intros j y Hj Hy. destruct (decide (j = b)) as [->|]; [congruence|]. apply Hhi with j; auto. lia.
Qed.

(** The search with a comparison that can panic: every element it looks at must be
    comparable. *)
Fixpoint try_binary_search_loop {A} (f : A → option comparison) (l : list A)
    (fuel base size : nat) : option nat :=
  match fuel with
  | 0 => Some base
  | S fuel' =>
      if size <=? 1 then Some base
      else
        let half := size / 2 in
        let mid := base + half in
        let? base' :=
          match l !! mid with
          | Some x => let? c := f x in Some (match c with Gt => base | _ => mid end)
          | None => Some base
          end in
        try_binary_search_loop f l fuel' base' (size - half)
  end.

Definition try_binary_search_by {A} (f : A → option comparison) (l : list A) : option (nat + nat) :=
  match l with
  | [] => Some (inr 0)
  | _ =>
      let? base := try_binary_search_loop f l (length l) 0 (length l) in
      match l !! base with
      | Some x =>
          let? c := f x in
          Some (match c with
                | Eq => inl base
                | Lt => inr (base + 1)
                | Gt => inr base
                end)
      | None => Some (inr base)
      end
  end.

Lemma try_binary_search_loop_some {A} (f : A → option comparison) l fuel base size r d :
  try_binary_search_loop f l fuel base size = Some r →
  binary_search_loop (λ x, default d (f x)) l fuel base size = r.
Proof.
  revert base size. induction fuel as [|fuel IH]; intros base size;
    cbn [try_binary_search_loop binary_search_loop]; [by intros [= ->]|].
  destruct (size <=? 1); [by intros [= ->]|]. cbv zeta.
  destruct (l !! (base + size / 2)) as [x|]; cbn [mbind option_bind]; [|apply IH].
  destruct (f x) as [c|]; cbn [mbind option_bind default from_option id]; [|done].
  destruct c; apply IH.
Qed.

Lemma try_binary_search_by_some {A} (f : A → option comparison) l r d :
  try_binary_search_by f l = Some r → binary_search_by (λ x, default d (f x)) l = r.
Proof.
  unfold try_binary_search_by, binary_search_by. destruct l as [|x0 l0]; [by intros [= ->]|].
  set (l := x0 :: l0).
  destruct (try_binary_search_loop f l (length l) 0 (length l)) as [b|] eqn:E; [|done].
  rewrite (try_binary_search_loop_some _ _ _ _ _ _ d E). simpl.
  destruct (l !! b) as [x|]; simpl; [|by intros [= ->]].
  destruct (f x); simpl; [by intros [= ->]|done].
Qed.

Lemma try_binary_search_loop_total {A} (f : A → option comparison) (g : A → comparison) l fuel base size :
  (∀ x, x ∈ l → f x = Some (g x)) →
  try_binary_search_loop f l fuel base size = Some (binary_search_loop g l fuel base size).
Proof.
  intros Hf. revert base size. induction fuel as [|fuel IH]; intros base size;
    cbn [try_binary_search_loop binary_search_loop]; [done|].
  destruct (size <=? 1); [done|]. cbv zeta.
  destruct (l !! (base + size / 2)) as [x|] eqn:E; cbn [mbind option_bind]; [|apply IH].
  rewrite (Hf x) by (by eapply list_elem_of_lookup_2). cbn [mbind option_bind]. apply IH.
Qed.

Lemma try_binary_search_by_total {A} (f : A → option comparison) (g : A → comparison) l :
  (∀ x, x ∈ l → f x = Some (g x)) → try_binary_search_by f l = Some (binary_search_by g l).
Proof.
  intros Hf. unfold try_binary_search_by, binary_search_by. destruct l as [|x0 l0]; [done|].
  rewrite (try_binary_search_loop_total f g) by done. simpl.
  destruct ((x0 :: l0) !! _) as [x|] eqn:E; [|done].
  by rewrite (Hf x) by (by eapply list_elem_of_lookup_2).
Qed.

Lemma try_binary_search_by_fmap {A B} (f : B → option comparison) (h : A → B) l :
  try_binary_search_by f (h <$> l) = try_binary_search_by (λ x, f (h x)) l.
Proof.
  assert (Hloop : ∀ fuel base size, try_binary_search_loop f (h <$> l) fuel base size =
            try_binary_search_loop (λ x, f (h x)) l fuel base size).
  { induction fuel as [|fuel IH]; intros base size; cbn [try_binary_search_loop]; [done|].
    destruct (size <=? 1); [done|]. cbv zeta. rewrite list_lookup_fmap.
    destruct (l !! (base + size / 2)) as [x|]; cbn [fmap option_fmap option_map mbind option_bind];
      [|apply IH].
    destruct (f (h x)); cbn [mbind option_bind]; [apply IH|done]. }
  unfold try_binary_search_by. destruct l as [|x0 l0]; [done|].
  rewrite length_fmap. change (h <$> x0 :: l0) with (h x0 :: (h <$> l0)) at 1.
  cbv iota. rewrite Hloop.
  destruct (try_binary_search_loop _ (x0 :: l0) _ _ _) as [b|]; cbn [mbind option_bind]; [|done].
  rewrite list_lookup_fmap. by destruct ((x0 :: l0) !! b).
Qed.

(** Close a decidable goal on closed terms by evaluating its decision procedure. *)
Ltac by_compute := refine (bool_decide_unpack _ _); vm_compute; exact I.

(** ** Machine integers and their byte representations

    Unsigned integers are [Z] values in range; operations wrap where the source's do. *)

Definition wrap (w : Z) (z : Z) : Z := (z mod 2 ^ w)%Z.

Definition is_u64 (z : Z) : Prop := (0 ≤ z < 2 ^ 64)%Z.
Definition is_u32 (z : Z) : Prop := (0 ≤ z < 2 ^ 32)%Z.

(** [to_le_bytes] of an [8 * n]-bit integer and [from_le_bytes]. *)
Fixpoint to_le_bytes (n : nat) (z : Z) : list u8 :=
  match n with
  | 0 => []
  | S n' => byte_of_Z z :: to_le_bytes n' (z / 256)%Z
  end.

Fixpoint from_le_bytes (bs : list u8) : Z :=
  match bs with
  | [] => 0
  | b :: bs' => (byte_Z b + 256 * from_le_bytes bs')%Z
  end.

(** [to_be_bytes] and [from_be_bytes] *)
Definition to_be_bytes (n : nat) (z : Z) : list u8 := rev (to_le_bytes n z).
Definition from_be_bytes (bs : list u8) : Z := from_le_bytes (rev bs).

Lemma byte_Z_range b : (0 ≤ byte_Z b < 256)%Z.
Proof. unfold byte_Z. pose proof (Byte.to_N_bounded b). lia. Qed.

Lemma byte_Z_of_Z z : byte_Z (byte_of_Z z) = (z mod 256)%Z.
Proof.
  unfold byte_Z, byte_of_Z.
  assert (Hr : (0 ≤ z mod 256 < 256)%Z) by (apply Z.mod_pos_bound; lia).
  destruct (Byte.of_N (Z.to_N (z mod 256))) as [b|] eqn:E.
  - apply Byte.to_of_N in E. rewrite E. lia.
  - apply Byte.of_N_None_iff in E. lia.
Qed.

Lemma byte_of_Z_byte b : byte_of_Z (byte_Z b) = b.
Proof.
  unfold byte_of_Z. rewrite Z.mod_small by apply byte_Z_range.
  unfold byte_Z. rewrite N2Z.id. by rewrite Byte.of_to_N.
Qed.

Lemma byte_Z_inj a b : byte_Z a = byte_Z b → a = b.
Proof. intros H. rewrite <-(byte_of_Z_byte a), <-(byte_of_Z_byte b). by rewrite H. Qed.

Lemma length_to_le_bytes n z : length (to_le_bytes n z) = n.
Proof. revert z. induction n; simpl; auto. Qed.

Lemma from_to_le_bytes n z : from_le_bytes (to_le_bytes n z) = (z mod 256 ^ Z.of_nat n)%Z.
Proof.
  revert z. induction n as [|n IH]; intros z.
  { simpl. by rewrite Z.mod_1_r. }
  cbn [to_le_bytes from_le_bytes]. rewrite byte_Z_of_Z, IH, Nat2Z.inj_succ, Z.pow_succ_r by lia.
  rewrite Z.rem_mul_r by lia. lia.
Qed.

Lemma to_from_le_bytes bs : to_le_bytes (length bs) (from_le_bytes bs) = bs.
Proof.
  induction bs as [|b bs IH]; [done|]. cbn [length to_le_bytes from_le_bytes].
  pose proof (byte_Z_range b). f_equal.
  - apply byte_Z_inj. rewrite byte_Z_of_Z, Z.mul_comm, Z.mod_add, Z.mod_small by lia. done.
  - rewrite Z.mul_comm, Z.div_add, Z.div_small by lia. done.
Qed.

Lemma from_le_bytes_range bs : (0 ≤ from_le_bytes bs < 256 ^ Z.of_nat (length bs))%Z.
Proof.
  induction bs as [|b bs IH]; [simpl; lia|].
  cbn [length from_le_bytes]. rewrite Nat2Z.inj_succ, Z.pow_succ_r by lia.
  pose proof (byte_Z_range b). lia.
Qed.

Lemma from_le_bytes_inj a b :
  length a = length b → from_le_bytes a = from_le_bytes b → a = b.
Proof.
  intros Hl H. rewrite <-(to_from_le_bytes a), <-(to_from_le_bytes b). by rewrite Hl, H.
Qed.

Lemma to_le_bytes_inj n x y :
  (0 ≤ x < 256 ^ Z.of_nat n)%Z → (0 ≤ y < 256 ^ Z.of_nat n)%Z →
  to_le_bytes n x = to_le_bytes n y → x = y.
Proof.
  intros Hx Hy H. apply (f_equal from_le_bytes) in H.
  by rewrite !from_to_le_bytes, !Z.mod_small in H.
Qed.

Lemma from_le_bytes_app a b :
  from_le_bytes (a ++ b) = (from_le_bytes a + 256 ^ Z.of_nat (length a) * from_le_bytes b)%Z.
Proof.
  induction a as [|x a IH]; [simpl; lia|]. cbn [app from_le_bytes length].
  rewrite IH, Nat2Z.inj_succ, Z.pow_succ_r by lia. lia.
Qed.

Lemma from_be_bytes_zeros n bs : from_be_bytes (replicate n x00 ++ bs) = from_be_bytes bs.
Proof.
  induction n as [|n IH]; [done|]. unfold from_be_bytes in *. simpl.
  rewrite from_le_bytes_app, IH. change (from_le_bytes [x00]) with 0%Z. lia.
Qed.

Lemma length_to_be_bytes n z : length (to_be_bytes n z) = n.
Proof. unfold to_be_bytes. by rewrite length_rev, length_to_le_bytes. Qed.

Lemma from_to_be_bytes n z : from_be_bytes (to_be_bytes n z) = (z mod 256 ^ Z.of_nat n)%Z.
Proof. unfold to_be_bytes, from_be_bytes. by rewrite rev_involutive, from_to_le_bytes. Qed.

Lemma to_from_be_bytes bs : to_be_bytes (length bs) (from_be_bytes bs) = bs.
Proof.
  unfold to_be_bytes, from_be_bytes. rewrite <-(length_rev bs), to_from_le_bytes.
  apply rev_involutive.
Qed.

Lemma from_be_bytes_range bs : (0 ≤ from_be_bytes bs < 256 ^ Z.of_nat (length bs))%Z.
Proof. unfold from_be_bytes. rewrite <-(length_rev bs). apply from_le_bytes_range. Qed.

(** ** Bits written into byte arrays *)

Definition byte_of_bits (bits : list bool) : u8 := byte_of_nat (load_be bits).

(** [n] bytes from [8 * n] bits. *)
Fixpoint bytes_of_bits (n : nat) (bits : list bool) : list u8 :=
  match n with
  | 0 => []
  | S n' => byte_of_bits (take 8 bits) :: bytes_of_bits n' (drop 8 bits)
  end.

(** [view_bits_mut::<Msb0>().set(i, b)] *)
Definition set_bit (bs : list u8) (i : nat) (b : bool) : list u8 :=
  alter (λ x, byte_of_bits (<[i mod 8 := b]> (byte_bits x))) (i / 8) bs.

Lemma byte_bits_of_bits bits : length bits = 8 → byte_bits (byte_of_bits bits) = bits.
Proof.
  intros Hl. do 8 (destruct bits as [|[] bits]; [done| |]).
  all: by destruct bits.
Qed.

Lemma length_bytes_of_bits n bits : length (bytes_of_bits n bits) = n.
Proof. revert bits. induction n; simpl; auto. Qed.

Lemma view_bytes_of_bits n bits :
  length bits = 8 * n → view_bits (bytes_of_bits n bits) = bits.
Proof.
  revert bits. induction n as [|n IH]; intros bits Hl.
  { by destruct bits. }
  unfold view_bits in *. simpl bytes_of_bits. rewrite bind_cons, IH by (rewrite length_drop; lia).
  rewrite byte_bits_of_bits by (rewrite length_take; lia). apply take_drop.
Qed.

Lemma bytes_of_view_bits bs : bytes_of_bits (length bs) (view_bits bs) = bs.
Proof.
  apply view_bits_inj. by rewrite view_bytes_of_bits by apply length_view_bits.
Qed.

Lemma view_set_bit bs i b :
  i < 8 * length bs → view_bits (set_bit bs i b) = <[i := b]> (view_bits bs).
Proof.
  revert i. induction bs as [|x bs IH]; intros i Hi; simpl in Hi; [lia|].
  unfold view_bits, set_bit in *. rewrite bind_cons.
  destruct (decide (i < 8)) as [Hlt|Hge].
  - rewrite Nat.div_small, Nat.mod_small by lia. simpl alter. rewrite bind_cons.
    rewrite byte_bits_of_bits by (rewrite length_insert, length_byte_bits; done).
    by rewrite insert_app_l by (rewrite length_byte_bits; lia).
  - assert (Hdiv : i / 8 = S ((i - 8) / 8) ∧ i mod 8 = (i - 8) mod 8).
    { replace i with ((i - 8) + 1 * 8) at 1 3 by lia.
      rewrite Nat.div_add, Nat.Div0.mod_add by lia. lia. }
    destruct Hdiv as [-> ->]. set (f := λ y : u8, byte_of_bits _).
    change (alter f (S ((i - 8) / 8)) (x :: bs)) with (x :: alter f ((i - 8) / 8) bs).
    rewrite bind_cons. subst f. rewrite IH by lia.
    replace i with (length (byte_bits x) + (i - 8)) at 2 by (rewrite length_byte_bits; lia).
    by rewrite insert_app_r.
Qed.

Lemma length_set_bit bs i b : length (set_bit bs i b) = length bs.
Proof. apply length_alter. Qed.

(** ** Bit strings as integers *)

Definition bits_Z (bits : list bool) : Z :=
  foldl (λ acc b, 2 * acc + Z.b2z b)%Z 0%Z bits.

Lemma bits_Z_foldl bits acc :
  foldl (λ acc b, 2 * acc + Z.b2z b)%Z acc bits =
    (acc * 2 ^ Z.of_nat (length bits) + bits_Z bits)%Z.
Proof.
  unfold bits_Z. revert acc. induction bits as [|b bits IH]; intros acc; [simpl; lia|].
  cbn [foldl length]. rewrite IH, (IH (2 * 0 + Z.b2z b)%Z).
  rewrite Nat2Z.inj_succ, Z.pow_succ_r by lia. lia.
Qed.

Lemma bits_Z_app a b :
  bits_Z (a ++ b) = (bits_Z a * 2 ^ Z.of_nat (length b) + bits_Z b)%Z.
Proof. unfold bits_Z at 1. by rewrite foldl_app, bits_Z_foldl. Qed.

Lemma bits_Z_range bits : (0 ≤ bits_Z bits < 2 ^ Z.of_nat (length bits))%Z.
Proof.
  induction bits as [|b bits IH] using rev_ind; [done|].
  rewrite bits_Z_app, length_snoc, Nat2Z.inj_succ, Z.pow_succ_r by lia.
  change (2 ^ Z.of_nat (length [b]))%Z with 2%Z. destruct b; unfold bits_Z at 2 4; simpl; lia.
Qed.

Lemma bits_Z_zeros n : bits_Z (replicate n false) = 0%Z.
Proof.
  induction n as [|n IH]; [done|]. change (replicate (S n) false) with ([false] ++ replicate n false).
  by rewrite bits_Z_app, IH.
Qed.

Lemma bits_Z_load_be bits : Z.of_nat (load_be bits) = bits_Z bits.
Proof.
  induction bits as [|b bits IH] using rev_ind; [done|]. unfold load_be, bits_Z in *.
  rewrite !foldl_snoc. rewrite <-IH. destruct b; simpl; lia.
Qed.

Lemma bits_Z_byte b : bits_Z (byte_bits b) = byte_Z b.
Proof.
  pose proof (byte_forall (λ b, bool_decide (bits_Z (byte_bits b) = byte_Z b))) as Hb.
  eapply bool_decide_eq_true_1. apply Hb. vm_compute. reflexivity.
Qed.

Lemma from_be_bytes_cons b bs :
  from_be_bytes (b :: bs) = (byte_Z b * 256 ^ Z.of_nat (length bs) + from_be_bytes bs)%Z.
Proof.
  unfold from_be_bytes. simpl. rewrite from_le_bytes_app, length_rev.
  cbn [from_le_bytes]. lia.
Qed.

Lemma bits_Z_view bs : bits_Z (view_bits bs) = from_be_bytes bs.
Proof.
  induction bs as [|b bs IH]; [done|]. change (view_bits (b :: bs)) with (byte_bits b ++ view_bits bs).
  rewrite bits_Z_app, bits_Z_byte, IH, from_be_bytes_cons, length_view_bits. do 2 f_equal.
  rewrite Nat2Z.inj_mul, Z.pow_mul_r by lia. done.
Qed.
