(* ===== verification/Trie.v ===== *)
(** * The trie schema and its hashers

    Models [core/src/trie.rs] and [core/src/hasher.rs]: nodes, node kinds, the
    [NodeHasher] trait (the class [NodeHasher]) and its documented obligations
    (the class [NodeHasherLaws]), and [BinaryHasher], the hasher that labels
    nodes by their most significant bit.

    The second half is the abstract specification the proofs and the updates of
    the other files are measured against: the compact binary trie of a sorted set
    of key/value pairs ([trie_at]), its commitment ([node_of]) and lookups in it. *)

From S2P Require Import Prelude.

(** ** [trie.rs] *)

Abbreviation Node := (list u8) (only parsing).
Abbreviation KeyPath := (list u8) (only parsing).
Abbreviation ValueHash := (list u8) (only parsing).

Definition TERMINATOR : Node := replicate 32 x00.

Inductive NodeKind := Terminator | Leaf | Internal.

Record InternalData := { left : Node; right : Node }.
Record LeafData := { key_path : KeyPath; value_hash : ValueHash }.

#[global] Instance NodeKind_eq_dec : EqDecision NodeKind.
Proof. solve_decision. Defined.
#[global] Instance InternalData_eq_dec : EqDecision InternalData.
Proof. solve_decision. Defined.
#[global] Instance LeafData_eq_dec : EqDecision LeafData.
Proof. solve_decision. Defined.

(** ** [hasher.rs]: the traits *)

Class NodeHasher := {
  hash_leaf : LeafData → Node;
  hash_internal : InternalData → Node;
  node_kind : Node → NodeKind;
}.

(** What the documentation of the trait asks of an implementation: leaf and
    internal hashes are labelled as such, and no hash is the reserved terminator. *)
Class NodeHasherLaws `{NodeHasher} : Prop := {
  node_kind_leaf d : node_kind (hash_leaf d) = Leaf;
  node_kind_internal d : node_kind (hash_internal d) = Internal;
  node_kind_terminator : node_kind TERMINATOR = Terminator;
}.

Section kinds.
Context `{NodeHasher}.

Definition is_leaf (hash : Node) : bool := bool_decide (node_kind hash = Leaf).
Definition is_internal (hash : Node) : bool := bool_decide (node_kind hash = Internal).
Definition is_terminator (hash : Node) : bool := bool_decide (node_kind hash = Terminator).
End kinds.

(** [BinaryHash]: a hash of byte strings, with the default specialisation to two
    32-byte inputs. *)
Class BinaryHash := { hash : list u8 → Node }.

Section binary_hasher.
Context `{BinaryHash}.

Definition hash2_32_concat (left right : list u8) : Node :=
  let buf := replicate 64 x00 in
  let buf := left ++ drop 32 buf in
  let buf := take 32 buf ++ right in
  hash buf.

Definition node_kind_by_msb (node : Node) : NodeKind :=
  if bool_decide (byte_Z (nth 0 node x00) ≫ 7 = 1)%Z then Leaf
  else if bool_decide (node = TERMINATOR) then Terminator
  else Internal.

Definition set_msb (node : Node) : Node :=
  match node with
  | [] => []
  | b :: node' => byte_of_Z (Z.lor (byte_Z b) 128) :: node'
  end.

Definition unset_msb (node : Node) : Node :=
  match node with
  | [] => []
  | b :: node' => byte_of_Z (Z.land (byte_Z b) 127) :: node'
  end.

#[global] Instance BinaryHasher : NodeHasher := {|
  hash_leaf d := set_msb (hash2_32_concat (key_path d) (value_hash d));
  hash_internal d := unset_msb (hash2_32_concat (left d) (right d));
  node_kind := node_kind_by_msb;
|}.

Definition hash_value (value : list u8) : ValueHash := hash value.
End binary_hasher.

(** What the comments of [hasher.rs] ask of the wrapped hash: it yields 32 bytes,
    and never the all-zero value once the label bit is cleared. *)
Class BinaryHashLaws `{BinaryHash} : Prop := {
  length_hash x : length (hash x) = 32;
  hash_not_zero x : unset_msb (hash x) ≠ TERMINATOR;
}.

Lemma set_msb_bit b : (byte_Z (byte_of_Z (Z.lor (byte_Z b) 128)) ≫ 7 = 1)%Z.
Proof.
  revert b. assert (H := byte_forall
    (λ b, bool_decide (byte_Z (byte_of_Z (Z.lor (byte_Z b) 128)) ≫ 7 = 1)%Z)).
  intros b. eapply bool_decide_eq_true_1. apply H. vm_compute. reflexivity.
Qed.

Lemma unset_msb_bit b : (byte_Z (byte_of_Z (Z.land (byte_Z b) 127)) ≫ 7 ≠ 1)%Z.
Proof.
  revert b. assert (H := byte_forall
    (λ b, bool_decide (byte_Z (byte_of_Z (Z.land (byte_Z b) 127)) ≫ 7 ≠ 1)%Z)).
  intros b. eapply bool_decide_eq_true_1. apply H. vm_compute. reflexivity.
Qed.

#[global] Instance BinaryHasherLaws `{BinaryHashLaws} : NodeHasherLaws.
Proof.
  split.
  - intros d. simpl. unfold node_kind_by_msb.
    pose proof (length_hash (take 32 (key_path d ++ drop 32 (replicate 64 x00)) ++ value_hash d)) as Hl.
    unfold hash2_32_concat. destruct (hash _) as [|b h]; [done|]. simpl.
    by rewrite bool_decide_eq_true_2 by apply set_msb_bit.
  - intros d. simpl. unfold node_kind_by_msb, hash2_32_concat.
    set (x := take 32 (left d ++ drop 32 (replicate 64 x00)) ++ right d).
    pose proof (hash_not_zero x) as Hz. pose proof (length_hash x) as Hl.
    rewrite (bool_decide_eq_false_2 (unset_msb _ = _)) by done.
    destruct (hash x) as [|b h]; [done|]. simpl.
    by rewrite bool_decide_eq_false_2 by apply unset_msb_bit.
  - reflexivity.
Qed.

(** ** The specification: the compact trie of a set of pairs

    A sub-trie without a value is a terminator, a sub-trie with one value is that
    leaf, every other sub-trie is an internal node over the sub-tries of the two
    values of the next key bit. *)

Inductive trie :=
| TTerminator
| TLeaf (d : LeafData)
| TInternal (l r : trie).

Definition bit_at (d : nat) (k : KeyPath) : bool := default false (view_bits k !! d).

Abbreviation ops_t := (list (KeyPath * ValueHash)) (only parsing).

Definition side (b : bool) (d : nat) (ops : ops_t) : ops_t :=
  filter (λ kv, bit_at d kv.1 = b) ops.

Fixpoint trie_of (fuel d : nat) (ops : ops_t) : trie :=
  match ops with
  | [] => TTerminator
  | [(k, v)] => TLeaf {| key_path := k; value_hash := v |}
  | _ =>
      match fuel with
      | 0 => TTerminator
      | S fuel' =>
          TInternal (trie_of fuel' (S d) (side false d ops))
                    (trie_of fuel' (S d) (side true d ops))
      end
  end.

(** Keys have 256 bits, so that [256 - d] levels below depth [d] are enough. *)
Definition trie_at (d : nat) (ops : ops_t) : trie := trie_of (256 - d) d ops.

Section commitment.
Context `{NodeHasher}.

Fixpoint node_of (t : trie) : Node :=
  match t with
  | TTerminator => TERMINATOR
  | TLeaf d => hash_leaf d
  | TInternal l r => hash_internal {| left := node_of l; right := node_of r |}
  end.

(** Everything that is hashed. *)
Inductive preimage :=
| PreLeaf (d : LeafData)
| PreInternal (d : InternalData).

Definition hash_preimage (p : preimage) : Node :=
  match p with
  | PreLeaf d => hash_leaf d
  | PreInternal d => hash_internal d
  end.

Fixpoint preimages (t : trie) : list preimage :=
  match t with
  | TTerminator => []
  | TLeaf d => [PreLeaf d]
  | TInternal l r =>
      PreInternal {| left := node_of l; right := node_of r |} :: preimages l ++ preimages r
  end.

(** No two of the listed preimages have one hash.  The security of a proof rests
    on this for the finitely many preimages a verifier and a trie hash. *)
Definition collision_free (ps : list preimage) : Prop :=
  ∀ x y, x ∈ ps → y ∈ ps → hash_preimage x = hash_preimage y → x = y.

#[global] Instance preimage_eq_dec : EqDecision preimage.
Proof. solve_decision. Defined.

(** Decided with every hash computed once. *)
#[global] Instance collision_free_dec ps : Decision (collision_free ps).
Proof.
  refine (let hs := (λ x, (hash_preimage x, x)) <$> ps in
          cast_if (decide (Forall (λ hx, Forall (λ hy, hx.1 = hy.1 → hx.2 = hy.2) hs) hs)));
    subst hs; unfold collision_free.
  - intros x y Hx Hy. rewrite Forall_fmap, list.Forall_forall in f. specialize (f x Hx).
    simpl in f. rewrite Forall_fmap, list.Forall_forall in f. by apply f.
  - intros Hc. apply n. apply Forall_fmap, list.Forall_forall. intros x Hx.
    apply Forall_fmap, list.Forall_forall. intros y Hy. simpl. by apply Hc.
Defined.
End commitment.

(** The leaf a lookup path ends in. *)
Fixpoint trie_walk (t : trie) (bits : list bool) : option LeafData :=
  match t, bits with
  | TTerminator, _ => None
  | TLeaf d, _ => Some d
  | TInternal l r, false :: bits' => trie_walk l bits'
  | TInternal l r, true :: bits' => trie_walk r bits'
  | TInternal _ _, [] => None
  end.

(** The value a trie assigns to a key. *)
Definition trie_get (t : trie) (k : KeyPath) : option ValueHash :=
  match trie_walk t (view_bits k) with
  | Some d => if bool_decide (key_path d = k) then Some (value_hash d) else None
  | None => None
  end.

(** The value a list of pairs assigns to a key. *)
Fixpoint assoc {V} (ops : list (KeyPath * V)) (k : KeyPath) : option V :=
  match ops with
  | [] => None
  | (k', v) :: ops' => if bool_decide (k' = k) then Some v else assoc ops' k
  end.

(** ** Well-formed blocks of pairs

    A block is a list of pairs, strictly ascending by key, whose keys have 32
    bytes and share the bit prefix [P]: the content of the sub-trie at [P]. *)

Definition key_sorted {V} (ops : list (KeyPath * V)) : Prop :=
  StronglySorted (λ x y, bytes_lt x.1 y.1) ops.

Definition in_block {V} (P : list bool) (kv : KeyPath * V) : Prop :=
  length kv.1 = 32 ∧ P `prefix_of` view_bits kv.1.

Definition block {V} (P : list bool) (ops : list (KeyPath * V)) : Prop :=
  key_sorted ops ∧ Forall (in_block P) ops.

Lemma in_block_bit {V} P (kv : KeyPath * V) :
  in_block P kv → length P < 256 →
  ∃ s, view_bits kv.1 = P ++ bit_at (length P) kv.1 :: s.
Proof.
  intros [Hl [s Hs]] HP. unfold bit_at. rewrite Hs.
  pose proof (length_view_bits kv.1) as Hv. rewrite Hs, length_app, Hl in Hv.
  destruct s as [|b s]; simpl in Hv; [lia|].
  exists s. by rewrite lookup_app_r, Nat.sub_diag by lia.
Qed.

Lemma in_block_snoc {V} P b (kv : KeyPath * V) :
  length P < 256 → in_block (P ++ [b]) kv ↔ in_block P kv ∧ bit_at (length P) kv.1 = b.
Proof.
  intros HP. split.
  - intros [Hl Hp%prefix_snoc_inv]. destruct Hp as [Hp Hb].
    split; [done|]. unfold bit_at. by rewrite Hb.
  - intros [Hk Hb]. destruct (in_block_bit _ _ Hk HP) as [s Hs]. destruct Hk as [Hl _].
    split; [done|]. rewrite Hs, Hb. exists s. by rewrite <-app_assoc.
Qed.

Lemma in_block_lt {V} P (x y : KeyPath * V) :
  length P < 256 → in_block P x → in_block P y → bytes_lt x.1 y.1 →
  bit_at (length P) x.1 = true → bit_at (length P) y.1 = true.
Proof.
  intros HP Hx Hy Hlt Hb.
  destruct (in_block_bit _ _ Hx HP) as [s Hs], (in_block_bit _ _ Hy HP) as [s' Hs'].
  apply bytes_lt_bits in Hlt; [|destruct Hx, Hy; congruence].
  unfold bits_lt in Hlt. rewrite Hs, Hs', bits_compare_app, Hb in Hlt.
  by destruct (bit_at _ y.1).
Qed.

Lemma key_sorted_filter {V} (Q : KeyPath * V → Prop) `{∀ x, Decision (Q x)} ops :
  key_sorted ops → key_sorted (filter Q ops).
Proof.
  induction 1 as [|x ops Hs IH Hx]; [constructor|]. rewrite filter_cons.
  case_decide; [|done]. constructor; [done|].
  apply list.Forall_forall. intros y [_ Hy]%list_elem_of_filter.
  by apply (proj1 (list.Forall_forall _ _) Hx).
Qed.

Lemma block_filter {V} P (Q : KeyPath * V → Prop) `{∀ x, Decision (Q x)} ops :
  block P ops → block P (filter Q ops).
Proof. intros [Hs Hb]. split; [by apply key_sorted_filter|by apply Forall_filter_mono]. Qed.

Lemma block_cons {V} P (x : KeyPath * V) ops :
  block P (x :: ops) ↔
    in_block P x ∧ Forall (λ y, bytes_lt x.1 y.1) ops ∧ block P ops.
Proof.
  unfold block, key_sorted. split.
  - intros [Hs Hb]. inversion Hs; inversion Hb; subst. auto.
  - intros (? & ? & ? & ?). split; constructor; auto.
Qed.

Lemma block_side P b ops :
  block P ops → length P < 256 → block (P ++ [b]) (side b (length P) ops).
Proof.
  intros [Hs Hb] HP. split; [by apply key_sorted_filter|].
  apply list.Forall_forall. intros kv [Hkv Hin]%list_elem_of_filter.
  apply in_block_snoc; [done|]. split; [|done].
  by apply (proj1 (list.Forall_forall _ _) Hb).
Qed.

Lemma block_split P ops :
  block P ops → length P < 256 →
  ops = side false (length P) ops ++ side true (length P) ops.
Proof.
  intros Hb HP. induction ops as [|x ops IH]; [done|].
  apply block_cons in Hb as (Hx & Hlt & Hb). specialize (IH Hb).
  unfold side in *. rewrite !filter_cons.
  destruct (bit_at (length P) x.1) eqn:E; repeat case_decide; try congruence.
  - assert (Hall : Forall (λ y, bit_at (length P) y.1 = true) ops).
    { destruct Hb as [_ Hb]. rewrite list.Forall_forall in Hb, Hlt |- *.
      intros y Hy. eapply (in_block_lt P x y); auto. }
    rewrite (filter_all _ ops Hall), (filter_none _ ops); [done|].
    eapply Forall_impl; [exact Hall|]. by intros y ->.
  - simpl. by rewrite <-IH.
Qed.

Lemma block_full P (ops : ops_t) : block P ops → length P = 256 → length ops ≤ 1.
Proof.
  intros Hb HP. destruct ops as [|x [|y ops]]; simpl; try lia.
  apply block_cons in Hb as ([Hx Hpx] & Hlt & [Hy Hpy]%block_cons).
  exfalso. apply list.Forall_cons in Hlt as [Hlt _]. destruct Hy as [Hly Hpy'].
  apply prefix_full in Hpx, Hpy'; [|rewrite length_view_bits; lia..].
  subst P. apply view_bits_inj in Hpy'. rewrite Hpy' in Hlt. destruct (irreflexivity bytes_lt _ Hlt).
Qed.

Lemma block_nil_prefix {V} (ops : list (KeyPath * V)) :
  key_sorted ops → Forall (λ kv, length kv.1 = 32) ops → block [] ops.
Proof.
  intros Hs Hl. split; [done|]. eapply Forall_impl; [exact Hl|].
  intros kv ?. split; [done|]. apply prefix_nil.
Qed.

(** ** Unfolding the trie of a block *)

(** The trie over one more level: what compaction makes of two sub-tries. *)
Definition compact (l r : trie) : trie :=
  match l, r with
  | TTerminator, TTerminator => TTerminator
  | TLeaf d, TTerminator => TLeaf d
  | TTerminator, TLeaf d => TLeaf d
  | _, _ => TInternal l r
  end.

Lemma trie_at_nil d : trie_at d [] = TTerminator.
Proof. unfold trie_at. by destruct (256 - d). Qed.

Lemma trie_at_single d k v : trie_at d [(k, v)] = TLeaf {| key_path := k; value_hash := v |}.
Proof. unfold trie_at. by destruct (256 - d). Qed.

Lemma trie_at_many d ops :
  2 ≤ length ops → d < 256 →
  trie_at d ops = TInternal (trie_at (S d) (side false d ops)) (trie_at (S d) (side true d ops)).
Proof.
  intros Hl Hd. unfold trie_at. destruct ops as [|[k v] [|y ops]]; simpl in Hl; try lia.
  replace (256 - d) with (S (256 - S d)) by lia. done.
Qed.

Lemma trie_at_internal_inv d ops :
  2 ≤ length ops → d < 256 → ∃ l r, trie_at d ops = TInternal l r.
Proof. intros Hl Hd. rewrite trie_at_many by done. eauto. Qed.

Lemma block_many_depth P (ops : ops_t) : block P ops → 2 ≤ length ops → length P < 256.
Proof.
  intros Hb Hl. destruct (decide (length P < 256)); [done|].
  destruct ops as [|x ops]; simpl in Hl; [lia|].
  pose proof Hb as ([Hx Hp] & _ & _)%block_cons.
  apply prefix_length in Hp. rewrite length_view_bits, Hx in Hp.
  pose proof (block_full _ _ Hb ltac:(lia)). simpl in *. lia.
Qed.

(** [trie_at] satisfies the recursive equation of the specification at every
    depth, compaction included. *)
Lemma trie_at_compact P ops :
  block P ops → length P < 256 →
  trie_at (length P) ops =
    compact (trie_at (S (length P)) (side false (length P) ops))
            (trie_at (S (length P)) (side true (length P) ops)).
Proof.
  intros Hb HP.
  pose proof (block_split _ _ Hb HP) as Hsplit.
  pose proof (block_side _ false _ Hb HP) as Hb0.
  pose proof (block_side _ true _ Hb HP) as Hb1.
  destruct (decide (2 ≤ length ops)) as [Hl|Hl].
  - rewrite (trie_at_many _ ops) by done.
    apply (f_equal length) in Hsplit. rewrite length_app in Hsplit.
    destruct (side false (length P) ops) as [|[k0 v0] [|y0 s0]] eqn:E0;
      destruct (side true (length P) ops) as [|[k1 v1] [|y1 s1]] eqn:E1;
      simpl in Hsplit; try lia; rewrite ?trie_at_nil, ?trie_at_single; try done.
    all: first
      [ destruct (trie_at_internal_inv (S (length P)) ((k0, v0) :: y0 :: s0)) as (? & ? & ->);
          [simpl; lia|apply block_many_depth in Hb0; [|simpl; lia];
                      rewrite length_app in Hb0; simpl in Hb0; lia|done]
      | destruct (trie_at_internal_inv (S (length P)) ((k1, v1) :: y1 :: s1)) as (? & ? & ->);
          [simpl; lia|apply block_many_depth in Hb1; [|simpl; lia];
                      rewrite length_app in Hb1; simpl in Hb1; lia|done] ].
  - destruct ops as [|[k v] [|y ops]]; simpl in Hl; try lia.
    + unfold side. simpl. by rewrite !trie_at_nil.
    + rewrite trie_at_single. unfold side. rewrite !filter_cons, !filter_nil. simpl.
      destruct (bit_at _ k); repeat case_decide; try done; by rewrite ?trie_at_nil, ?trie_at_single.
Qed.

(** ** Lookups in the trie of a block *)

Lemma assoc_not_in {V} (ops : list (KeyPath * V)) k :
  Forall (λ kv, kv.1 ≠ k) ops → assoc ops k = None.
Proof.
  induction 1 as [|[k' v] ops Hk Hf IH]; [done|]. simpl.
  by rewrite bool_decide_eq_false_2.
Qed.

Lemma assoc_app {V} (o1 o2 : list (KeyPath * V)) k :
  assoc (o1 ++ o2) k = match assoc o1 k with Some v => Some v | None => assoc o2 k end.
Proof.
  induction o1 as [|[k' v] o1 IH]; [done|]. simpl. by case_bool_decide.
Qed.

Lemma assoc_side_other b d (ops : ops_t) k :
  bit_at d k ≠ b → assoc (side b d ops) k = None.
Proof.
  intros Hb. apply assoc_not_in. apply list.Forall_forall.
  intros kv [Hkv _]%list_elem_of_filter. naive_solver.
Qed.

Lemma trie_at_get_block P (ops : ops_t) k :
  block P ops → in_block P (k, ()) →
  match trie_walk (trie_at (length P) ops) (drop (length P) (view_bits k)) with
  | Some d => if bool_decide (key_path d = k) then Some (value_hash d) else None
  | None => None
  end = assoc ops k.
Proof.
  remember (256 - length P) as n eqn:Hn. revert P ops Hn.
  induction n as [n IH] using lt_wf_ind; intros P ops Hn Hb Hk.
  destruct (decide (2 ≤ length ops)) as [Hl|Hl].
  - pose proof (block_many_depth _ _ Hb Hl) as HP.
    destruct (in_block_bit _ _ Hk HP) as [s Hs]. simpl in Hs.
    rewrite trie_at_many by done. rewrite Hs, drop_app_length.
    rewrite (block_split _ _ Hb HP) at 3. rewrite assoc_app.
    assert (Hdrop : drop (length P + 1) (view_bits k) = s).
    { rewrite Hs, drop_app_ge, Nat.add_comm, Nat.add_sub by lia. done. }
    assert (Hrec : ∀ b, bit_at (length P) k = b →
      match trie_walk (trie_at (S (length P)) (side b (length P) ops)) s with
      | Some d => if bool_decide (key_path d = k) then Some (value_hash d) else None
      | None => None
      end = assoc (side b (length P) ops) k).
    { intros b Hbk. rewrite <-Hdrop.
      assert (S (length P) = length (P ++ [b])) as -> by (rewrite length_app; simpl; lia).
      assert (length P + 1 = length (P ++ [b])) as -> by (rewrite length_app; simpl; lia).
      eapply IH; [|reflexivity|by apply block_side|by apply in_block_snoc].
      rewrite length_app. simpl. lia. }
    destruct (bit_at (length P) k) eqn:E; simpl.
    + rewrite (assoc_side_other false) by congruence. by apply Hrec.
    + rewrite Hrec by done. rewrite (assoc_side_other true) by congruence.
      by destruct (assoc _ _).
  - destruct ops as [|[k' v] [|y ops]]; simpl in Hl; try lia.
    + by rewrite trie_at_nil.
    + rewrite trie_at_single. simpl. done.
Qed.

Lemma trie_at_get (ops : ops_t) k :
  block [] ops → length k = 32 → trie_get (trie_at 0 ops) k = assoc ops k.
Proof.
  intros Hb Hk. pose proof (trie_at_get_block [] ops k Hb) as Hget.
  simpl in Hget. unfold trie_get. apply Hget. split; [done|]. apply prefix_nil.
Qed.

(** ** An executable instance

    A small 32-byte digest, for evaluating the definitions on concrete inputs: a
    fixed non-zero first byte, a 24-bit accumulator, then zeros.  Everything proved is
    generic in the hasher; the instance shows that its laws can be met. *)

Definition toy_accumulate (x : list u8) : Z :=
  foldl (λ acc b, Z.land (acc * 33 + byte_Z b + 1) 16777215)%Z 5%Z x.

Definition toy_hash (x : list u8) : Node :=
  let acc := toy_accumulate x in
  [x01; byte_of_Z acc; byte_of_Z (Z.shiftr acc 8); byte_of_Z (Z.shiftr acc 16)]
    ++ replicate 28 x00.

#[global] Instance ToyHash : BinaryHash := {| hash := toy_hash |}.

#[global] Instance ToyHashLaws : BinaryHashLaws.
Proof. split; intros x; [done|]. by unfold hash, ToyHash, toy_hash, unset_msb. Qed.

(** A key whose first byte is [b] and whose other bytes are zero. *)
Definition toy_key (b : u8) : KeyPath := b :: replicate 31 x00.
