(* ===== verification/PageId.v ===== *)
(** * Page identifiers

    Models [core/src/page.rs] and [core/src/page_id.rs]: the tree of pages with
    branching factor 64 and depth 42, its identifiers, their fixed-width encoding
    and decoding, the depth-first order, the key range of a page, and the iterator
    of the pages along a key path. *)

From S2P Require Import Prelude Trie.

Open Scope Z_scope.

(** [page.rs] *)
Definition DEPTH : nat := 6.
Definition NODES_PER_PAGE : nat := Nat.pow 2 (DEPTH + 1) - 2.

Definition HIGHEST_ENCODED_42 : Z := from_be_bytes
  [x10; x41; x04; x10; x41; x04; x10; x41; x04; x10; x41; x04; x10; x41; x04; x10; x41; x04;
   x10; x41; x04; x10; x41; x04; x10; x41; x04; x10; x41; x04; x10; x40].

Definition MAX_PAGE_DEPTH : nat := 42.

(** An [ArrayVec<u8, 42>] of child indices. *)
Record PageId := { path : list Z }.

#[global] Instance PageId_eq_dec : EqDecision PageId.
Proof. solve_decision. Defined.

Definition ROOT_PAGE_ID : PageId := {| path := [] |}.
Definition MAX_CHILD_INDEX : Z := 2 ^ Z.of_nat DEPTH - 1.
Definition NUM_CHILDREN : Z := MAX_CHILD_INDEX + 1.

(** [ChildPageIndex::new]: an index above 63 is refused. *)
Definition ChildPageIndex_new (index : Z) : option Z :=
  if MAX_CHILD_INDEX <? index then None else Some index.

Inductive InvalidPageIdBytes := invalid_page_id_bytes.
Inductive ChildPageIdError := PageIdOverflow.

(** [ArrayVec::push] panics on a full array. *)
Definition push (p : list Z) (x : Z) : option (list Z) :=
  if (length p <? MAX_PAGE_DEPTH)%nat then Some (p ++ [x]) else None.

Definition bit_len (z : Z) : Z := if z =? 0 then 0 else Z.log2 z + 1.

(** The loop of [decode] over the low sextets; the state is the remaining integer
    and the limbs found so far, least significant first. *)
Fixpoint decode_loop (n : nat) (uint : Z) (path : list Z) : option (Z * list Z) :=
  match n with
  | O => Some (uint, path)
  | S n' =>
      let uint := wrap 256 (uint - 1) in
      let x := Z.land uint 63 in
      let? path := push path x in
      decode_loop n' (uint ≫ Z.of_nat DEPTH) path
  end.

Definition decode (bytes : list u8) : outcome InvalidPageIdBytes PageId :=
  let uint := from_be_bytes bytes in
  if HIGHEST_ENCODED_42 <? uint then Err invalid_page_id_bytes
  else
    let leading_zeros := 256 - bit_len uint in
    let bit_count := 256 - leading_zeros in
    let sextets := (bit_count + 5) / 6 in
    if bit_count =? 0 then Ok ROOT_PAGE_ID
    else
      let! (uint, path) := or_panic (decode_loop (Z.to_nat (sextets - 1)) uint []) in
      let! path :=
        or_panic
          (if wrap 8 uint =? 0 then Some path
           else
             let uint := wrap 256 (uint - 1) in
             push path (wrap 8 uint)) in
      Ok {| path := rev path |}.

(** [child_index_at_level] *)
Definition child_index_at_level (p : PageId) (depth : nat) : option Z := path p !! depth.

(** The two branches of [encode] run the same loop, on 64 and on 256 bits. *)
Definition encode_loop (w : Z) (path : list Z) : Z :=
  foldl (λ word limb, wrap w (wrap w (word + (limb + 1)) ≪ 6)) 0 path.

Definition encode (p : PageId) : list u8 :=
  if (length (path p) <? 10)%nat then
    let word := encode_loop 64 (path p) in
    replicate 24 x00 ++ to_be_bytes 8 word
  else
    to_be_bytes 32 (encode_loop 256 (path p)).

Definition length_dependent_encoding (p : PageId) : list Z := path p.

Definition depth (p : PageId) : nat := length (path p).

Definition child_page_id (p : PageId) (child_index : Z) : outcome ChildPageIdError PageId :=
  if (MAX_PAGE_DEPTH <=? length (path p))%nat then Err PageIdOverflow
  else
    let! path := or_panic (push (path p) child_index) in
    Ok {| path := path |}.

Definition parent_page_id (p : PageId) : PageId :=
  if bool_decide (p = ROOT_PAGE_ID) then ROOT_PAGE_ID
  else {| path := take (length (path p) - 1) (path p) |}.

Definition is_descendant_of (p other : PageId) : bool :=
  bool_decide (path other `prefix_of` path p).

(** The loop pushes 63 until the path is full. *)
Definition max_descendant (p : PageId) : PageId :=
  {| path := path p ++ replicate (MAX_PAGE_DEPTH - length (path p)) MAX_CHILD_INDEX |}.

(** The last six of the eight bits of a child index. *)
Definition child_bits (child_index : Z) : list bool := drop 2 (byte_bits (byte_of_Z child_index)).

Definition page_bits (p : PageId) : list bool := path p ≫= child_bits.

Definition min_key_path (p : PageId) : KeyPath :=
  bytes_of_bits 32 (page_bits p ++ replicate (256 - 6 * length (path p)) false).

Definition max_key_path (p : PageId) : KeyPath :=
  bytes_of_bits 32 (page_bits p ++ replicate (256 - 6 * length (path p)) true).

(** [Ord for PageId]: derived, hence the lexicographic order of the paths. *)
Definition page_compare (p q : PageId) : comparison := lex_compare Z.compare (path p) (path q).
Definition page_le (p q : PageId) : bool :=
  match page_compare p q with Gt => false | _ => true end.
Definition page_lt (p q : PageId) : bool :=
  match page_compare p q with Lt => true | _ => false end.

(** ** The iterator of pages along a key path *)

Record PageIdsIterator := { key_path : Z; page_id : option PageId }.

Definition PageIdsIterator_new (k : KeyPath) : PageIdsIterator :=
  {| key_path := from_be_bytes k; page_id := Some ROOT_PAGE_ID |}.

(** [next]: the item and the iterator afterwards; the outer option is the panic of
    the unwrap. *)
Definition PageIdsIterator_next (it : PageIdsIterator) : option (option PageId * PageIdsIterator) :=
  match page_id it with
  | None => Some (None, it)
  | Some prev =>
      let? child_index := ChildPageIndex_new ((key_path it ≫ 248) ≫ 2) in
      Some (Some prev,
            {| key_path := wrap 256 (key_path it ≪ 6);
               page_id := match child_page_id prev child_index with
                          | Ok p => Some p
                          | _ => None
                          end |})
  end.

(** The first [n] items. *)
Fixpoint PageIdsIterator_take (n : nat) (it : PageIdsIterator) : option (list PageId) :=
  match n with
  | O => Some []
  | S n' =>
      let? (item, it) := PageIdsIterator_next it in
      match item with
      | None => Some []
      | Some p => let? ps := PageIdsIterator_take n' it in Some (p :: ps)
      end
  end.

(** ** Validity *)

Definition valid (p : PageId) : Prop :=
  (length (path p) ≤ MAX_PAGE_DEPTH)%nat ∧ Forall (λ x, 0 ≤ x < 64) (path p).

(** The representation the module documentation describes: shift by six bits, add
    the child index, add one. *)
Definition documented_encoding (p : PageId) : Z :=
  foldl (λ acc limb, acc * 64 + limb + 1) 0 (path p).

(** ** The documented representation is bijective base 64 *)

Definition encode_digits (l : list Z) : Z := foldl (λ acc limb, acc * 64 + limb + 1) 0 l.

Abbreviation digits := (Forall (λ x, 0 ≤ x < 64)).

(** The number of pages of depth below [n]: the least representation of depth [n]. *)
Fixpoint repunit (n : nat) : Z :=
  match n with O => 0 | S n' => 64 * repunit n' + 1 end.

Lemma encode_digits_snoc l x : encode_digits (l ++ [x]) = encode_digits l * 64 + x + 1.
Proof. unfold encode_digits. by rewrite foldl_snoc. Qed.

Lemma repunit_pow n : 63 * repunit n = 64 ^ Z.of_nat n - 1.
Proof.
  induction n as [|n IH]; [done|]. cbn [repunit].
  rewrite Nat2Z.inj_succ, Z.pow_succ_r by lia. lia.
Qed.

Lemma repunit_mono m n : (m ≤ n)%nat → repunit m ≤ repunit n.
Proof.
  induction 1 as [|n _ IH]; [done|]. cbn [repunit].
  pose proof (repunit_pow n). pose proof (Z.pow_pos_nonneg 64 (Z.of_nat n) ltac:(lia) ltac:(lia)). lia.
Qed.

Lemma encode_digits_range l :
  digits l → repunit (length l) ≤ encode_digits l ≤ 64 * repunit (length l).
Proof.
  induction l as [|x l IH] using rev_ind; [done|].
  intros [Hl Hx]%Forall_app. rewrite list.Forall_singleton in Hx.
  rewrite encode_digits_snoc, length_snoc. cbn [repunit]. specialize (IH Hl). lia.
Qed.

Lemma encode_digits_inj l1 l2 :
  digits l1 → digits l2 → encode_digits l1 = encode_digits l2 → l1 = l2.
Proof.
  revert l2. induction l1 as [|x l1 IH] using rev_ind; intros l2 H1 H2 Heq.
  - destruct l2 as [|y l2 _] using rev_ind; [done|]. apply Forall_app in H2 as [H2 Hy].
    rewrite list.Forall_singleton in Hy. apply encode_digits_range in H2.
    rewrite encode_digits_snoc in Heq. change (encode_digits []) with 0 in Heq.
    pose proof (repunit_mono 0 (length l2) ltac:(lia)). simpl in *. lia.
  - apply Forall_app in H1 as [H1 Hx]. rewrite list.Forall_singleton in Hx.
    rewrite encode_digits_snoc in Heq. destruct l2 as [|y l2 _] using rev_ind.
    { change (encode_digits []) with 0 in Heq. apply encode_digits_range in H1.
      pose proof (repunit_mono 0 (length l1) ltac:(lia)). simpl in *. lia. }
    apply Forall_app in H2 as [H2 Hy]. rewrite list.Forall_singleton in Hy.
    rewrite encode_digits_snoc in Heq.
    assert (x = y ∧ encode_digits l1 = encode_digits l2) as [-> ?] by lia.
    f_equal. auto.
Qed.

Lemma encode_digits_surj u : 0 ≤ u → ∃ l, digits l ∧ encode_digits l = u.
Proof.
  induction u as [u IH] using (well_founded_induction (Z.lt_wf 0)). intros Hu.
  destruct (decide (u = 0)) as [->|Hne]; [by exists []|].
  pose proof (Z.div_mod (u - 1) 64 ltac:(lia)) as Hdm.
  pose proof (Z.mod_pos_bound (u - 1) 64 ltac:(lia)) as Hm.
  destruct (IH ((u - 1) / 64)) as (l & Hl & He); [lia|lia|].
  exists (l ++ [(u - 1) `mod` 64]). rewrite encode_digits_snoc, He. split; [|lia].
  apply Forall_app. split; [done|]. by rewrite list.Forall_singleton.
Qed.

Lemma highest_encoded : HIGHEST_ENCODED_42 = 64 * repunit 42.
Proof. vm_compute. reflexivity. Qed.

Lemma encode_digits_depth l :
  digits l → encode_digits l ≤ HIGHEST_ENCODED_42 → (length l ≤ 42)%nat.
Proof.
  intros Hl Hu. apply encode_digits_range in Hl. rewrite highest_encoded in Hu.
  destruct (decide (length l ≤ 42)%nat) as [|Hn]; [done|].
  pose proof (repunit_mono 43 (length l) ltac:(lia)) as Hm. cbn [repunit] in Hm, Hu. lia.
Qed.

(** ** Decoding *)

Lemma encode_digits_bound l :
  digits l → (length l ≤ 42)%nat → 0 ≤ encode_digits l ≤ HIGHEST_ENCODED_42.
Proof.
  intros Hl Hn. apply encode_digits_range in Hl. rewrite highest_encoded.
  pose proof (repunit_mono (length l) 42 Hn). pose proof (repunit_mono 0 (length l) ltac:(lia)).
  simpl in *. lia.
Qed.

Lemma highest_lt_256 : HIGHEST_ENCODED_42 < 2 ^ 256.
Proof. reflexivity. Qed.

Lemma wrap_small w z : 0 ≤ z < 2 ^ w → wrap w z = z.
Proof. intros Hz. unfold wrap. by apply Z.mod_small. Qed.

Lemma decode_loop_spec d l acc :
  digits (l ++ d) → (length (l ++ d) ≤ 42)%nat → (length acc + length d ≤ 42)%nat →
  decode_loop (length d) (encode_digits (l ++ d)) acc = Some (encode_digits l, acc ++ rev d).
Proof.
  revert acc. induction d as [|x d IH] using rev_ind; intros acc Hd Hn Ha.
  { by rewrite !app_nil_r. }
  rewrite app_assoc in Hd, Hn |- *. rewrite length_snoc in Hn, Ha |- *.
  pose proof (encode_digits_bound _ Hd ltac:(rewrite length_snoc; lia)) as Hb.
  pose proof highest_lt_256 as Hh.
  apply Forall_app in Hd as [Hd Hx]. rewrite list.Forall_singleton in Hx.
  pose proof (encode_digits_bound _ Hd ltac:(lia)) as Hb'.
  rewrite encode_digits_snoc in Hb |- *. cbn [decode_loop].
  rewrite wrap_small by lia.
  change 63 with (Z.ones 6). change (Z.of_nat DEPTH) with 6.
  rewrite Z.land_ones, Z.shiftr_div_pow2 by lia. change (2 ^ 6) with 64.
  assert (Hq : encode_digits (l ++ d) * 64 + x + 1 - 1 = x + encode_digits (l ++ d) * 64) by lia.
  rewrite Hq, Z.mod_add, Z.mod_small, Z.div_add, Z.div_small, Z.add_0_l by lia.
  unfold push. rewrite (proj2 (Nat.ltb_lt _ _)) by (unfold MAX_PAGE_DEPTH; lia). simpl.
  rewrite IH; [|done|lia|rewrite length_snoc; lia].
  by rewrite rev_app_distr, <-app_assoc.
Qed.

(** The number of sextets is the depth, or one more. *)
Lemma sextets_depth l :
  digits l → l ≠ [] → let s := (256 - (256 - bit_len (encode_digits l)) + 5) / 6 in
  s - 1 = Z.of_nat (length l) ∨ s = Z.of_nat (length l).
Proof.
  intros Hl Hne s. pose proof (encode_digits_range _ Hl) as Hr.
  set (u := encode_digits l) in *. set (n := Z.of_nat (length l)) in *.
  pose proof (repunit_pow (length l)) as Hp. fold n in Hp.
  assert (Hn : 1 ≤ n) by (destruct l; [done|]; subst n; simpl; lia).
  assert (Hpos : 1 ≤ u).
  { pose proof (repunit_mono 1 (length l) ltac:(lia)) as Hm. change (repunit 1) with 1 in Hm. lia. }
  assert (Hs : s = (Z.log2 u + 6) / 6).
  { unfold s, bit_len. rewrite (proj2 (Z.eqb_neq u 0)) by lia. f_equal. lia. }
  pose proof (Z.log2_spec u ltac:(lia)) as [Hlo Hhi].
  assert (Hlog : 6 * (n - 1) ≤ Z.log2 u < 6 * n + 1 ∨ Z.log2 u < 6 * (n + 1) ∧ 6 * (n - 1) ≤ Z.log2 u).
  { right. split.
    - apply Z.log2_lt_pow2; [lia|]. rewrite Z.pow_mul_r by lia. change (2 ^ 6) with 64.
      rewrite Z.pow_add_r by lia. lia.
    - apply Z.log2_le_pow2; [lia|]. rewrite Z.pow_mul_r by lia. change (2 ^ 6) with 64.
      replace n with (n - 1 + 1) in Hp by lia. rewrite Z.pow_add_r in Hp by lia. lia. }
  rewrite Hs. pose proof (Z.div_mod (Z.log2 u + 6) 6 ltac:(lia)).
  pose proof (Z.mod_pos_bound (Z.log2 u + 6) 6 ltac:(lia)). lia.
Qed.

Lemma decode_digits bytes l :
  digits l → (length l ≤ 42)%nat → from_be_bytes bytes = encode_digits l →
  decode bytes = Ok {| path := l |}.
Proof.
  intros Hl Hn Hu. unfold decode. rewrite Hu. cbv zeta.
  pose proof (encode_digits_bound l Hl Hn) as Hb. rewrite (proj2 (Z.ltb_ge _ _)) by lia.
  destruct (decide (l = [])) as [->|Hne]; [done|].
  pose proof (sextets_depth l Hl Hne) as Hs. cbv zeta in Hs.
  assert (H1 : 1 ≤ encode_digits l).
  { pose proof (encode_digits_range _ Hl) as Hr. destruct l; [done|].
    pose proof (repunit_mono 1 (length (z :: l)) ltac:(simpl; lia)) as Hm.
    change (repunit 1) with 1 in Hm. lia. }
  rewrite (proj2 (Z.eqb_neq (256 - (256 - bit_len (encode_digits l))) 0)).
  2: { unfold bit_len. rewrite (proj2 (Z.eqb_neq _ 0)) by lia.
       pose proof (Z.log2_nonneg (encode_digits l)). lia. }
  set (s := (256 - (256 - bit_len (encode_digits l)) + 5) / 6) in *.
  destruct Hs as [Hs|Hs].
  - assert (Hd : decode_loop (length l) (encode_digits l) [] = Some (0, rev l))
      by (by apply (decode_loop_spec l [] [])).
    rewrite Hs, Nat2Z.id, Hd. simpl. by rewrite rev_involutive.
  - destruct l as [|x l]; [done|].
    replace (Z.to_nat (s - 1)) with (length l) by (rewrite Hs; simpl; lia).
    assert (Hd : decode_loop (length l) (encode_digits (x :: l)) [] =
                 Some (0 * 64 + x + 1, rev l))
      by (apply (decode_loop_spec l [x] []); [done|done|simpl in *; lia]).
    rewrite Hd. apply list.Forall_cons in Hl as [Hx _].
    cbn [or_panic obind]. rewrite wrap_small by lia.
    rewrite (proj2 (Z.eqb_neq _ 0)) by lia. rewrite (wrap_small 256) by lia.
    rewrite wrap_small by lia. unfold push. simpl in Hn.
    rewrite (proj2 (Nat.ltb_lt _ _)) by (rewrite length_rev; unfold MAX_PAGE_DEPTH; lia).
    simpl. rewrite rev_app_distr, rev_involutive. simpl. do 3 f_equal. lia.
Qed.

(** ** Encoding *)

Lemma encode_loop_spec w l : 0 ≤ w → encode_loop w l = wrap w (64 * encode_digits l).
Proof.
  intros Hw. induction l as [|x l IH] using rev_ind.
  { unfold wrap. by rewrite Z.mod_0_l by (apply Z.pow_nonzero; lia). }
  unfold encode_loop in *. rewrite foldl_snoc, IH, encode_digits_snoc. unfold wrap.
  assert (2 ^ w ≠ 0) by (apply Z.pow_nonzero; lia).
  rewrite Z.shiftl_mul_pow2 by lia. rewrite Z.add_mod_idemp_l by lia.
  rewrite Z.mul_mod_idemp_l by lia. f_equal. lia.
Qed.

Lemma encode_uint l :
  digits l → from_be_bytes (encode {| path := l |}) = wrap 256 (64 * encode_digits l).
Proof.
  intros Hl. unfold encode. cbn [path]. case_match eqn:Hlen.
  - apply Nat.ltb_lt in Hlen. rewrite (from_be_bytes_zeros 24), from_to_be_bytes.
    rewrite encode_loop_spec by lia. change (256 ^ Z.of_nat 8) with (2 ^ 64).
    pose proof (encode_digits_range l Hl) as Hr. pose proof (repunit_mono (length l) 9 ltac:(lia)) as Hm.
    pose proof (repunit_mono 0 (length l) ltac:(lia)).
    change (repunit 9) with 285942833483841 in Hm. change (repunit 0) with 0 in *.
    assert (0 ≤ 64 * encode_digits l < 2 ^ 64) by lia.
    rewrite (wrap_small 64), Z.mod_small, wrap_small by lia. done.
  - rewrite from_to_be_bytes, encode_loop_spec by lia.
    change (256 ^ Z.of_nat 32) with (2 ^ 256). unfold wrap. by rewrite Z.mod_mod.
Qed.

Lemma encode_uint_41 l :
  digits l → (length l ≤ 41)%nat →
  from_be_bytes (encode {| path := l |}) = 64 * encode_digits l.
Proof.
  intros Hl Hn. rewrite encode_uint by done. apply wrap_small.
  apply encode_digits_range in Hl. pose proof (repunit_mono (length l) 41 Hn) as Hm.
  pose proof (repunit_mono 0 (length l) ltac:(lia)). change (repunit 0) with 0 in *.
  assert (64 * (64 * repunit 41) < 2 ^ 256) by reflexivity. lia.
Qed.

(** ** Theorems: encodings *)

(** C24: [decode] inverts the documented representation, on every input.  A 32-byte
    string above the representation of the last page of layer 42 is refused; every
    other one decodes, without a panic, to a valid page id whose documented
    representation it is; and the documented representation of every valid page
    id decodes to that id, so that the two are inverse bijections. *)
Theorem decode_correct (bytes : list u8) :
  length bytes = 32%nat →
  (HIGHEST_ENCODED_42 < from_be_bytes bytes → decode bytes = Err invalid_page_id_bytes) ∧
  (from_be_bytes bytes ≤ HIGHEST_ENCODED_42 →
     ∃ p, decode bytes = Ok p ∧ valid p ∧ documented_encoding p = from_be_bytes bytes) ∧
  (∀ p, valid p → documented_encoding p = from_be_bytes bytes → decode bytes = Ok p).
Proof.
  intros Hl. split_and!.
  - intros Hu. unfold decode. by rewrite (proj2 (Z.ltb_lt _ _)).
  - intros Hu. destruct (encode_digits_surj (from_be_bytes bytes)) as (l & Hd & He).
    { by apply from_be_bytes_range. }
    assert (length l ≤ 42)%nat by (apply encode_digits_depth; [done|lia]).
    exists {| path := l |}. split; [by apply decode_digits|]. done.
  - intros [l] [Hn Hd] He. by apply decode_digits.
Qed.

Lemma length_encode (p : PageId) : length (encode p) = 32%nat.
Proof.
  unfold encode. destruct (_ <? _)%nat; [rewrite length_app|]; by rewrite length_to_be_bytes.
Qed.

Lemma encode_inj_41 (p q : PageId) :
  valid p → valid q → (depth p ≤ 41)%nat → (depth q ≤ 41)%nat → encode p = encode q → p = q.
Proof.
  destruct p as [p], q as [q]. intros [_ Hp] [_ Hq] Hnp Hnq He%(f_equal from_be_bytes). simpl in *.
  rewrite !encode_uint_41 in He by done. f_equal. apply encode_digits_inj; [done|done|lia].
Qed.

(** [encode] is injective on the page ids of depth at most 41, and what it
    computes is 64 times the documented representation, as a 32-byte big-endian
    integer: the loop shifts after it adds instead of before. *)
Theorem encode_correct_41 (p q : PageId) :
  valid p → valid q → (depth p ≤ 41)%nat → (depth q ≤ 41)%nat →
  from_be_bytes (encode p) = 64 * documented_encoding p ∧
  (encode p = encode q → p = q).
Proof.
  intros Hvp Hvq Hnp Hnq. split; [|by apply encode_inj_41].
  destruct p as [p], Hvp as [_ Hp]. by apply encode_uint_41.
Qed.

(** C28: [encode] does not produce what [decode] reads, against the documentation
    of the module.  For every valid page id of depth 1 to 41, decoding its encoding
    succeeds with a different page id or fails; it never returns the id. *)
Theorem encode_decode_differ (p : PageId) :
  valid p → p ≠ ROOT_PAGE_ID → (depth p ≤ 41)%nat → decode (encode p) ≠ Ok p.
Proof.
  destruct p as [l]. intros [Hn Hl] Hroot Hd Heq. simpl in *.
  pose proof (encode_uint_41 l Hl Hd) as Hu.
  pose proof (encode_digits_range l Hl) as Hr.
  assert (1 ≤ repunit (length l)) as Hpos.
  { destruct l; [done|]. apply (repunit_mono 1). simpl. lia. }
  destruct (decide (HIGHEST_ENCODED_42 < from_be_bytes (encode {| path := l |}))) as [Hh|Hh].
  { unfold decode in Heq. by rewrite (proj2 (Z.ltb_lt _ _)) in Heq. }
  destruct (encode_digits_surj (64 * encode_digits l)) as (l' & Hl' & He'); [lia|].
  assert (length l' ≤ 42)%nat by (apply encode_digits_depth; [done|lia]).
  rewrite (decode_digits _ l') in Heq by (done || lia). simplify_eq. lia.
Qed.


(** ** The depth-first order *)

Lemma lex_le_max q n :
  digits q → (length q ≤ n)%nat → lex_compare Z.compare q (replicate n MAX_CHILD_INDEX) ≠ Gt.
Proof.
  revert n. induction q as [|y q IH]; intros n Hq Hn; [by destruct n|].
  destruct n as [|n]; simpl in Hn; [lia|]. apply list.Forall_cons in Hq as [Hy Hq].
  cbn [replicate lex_compare]. change MAX_CHILD_INDEX with 63 at 1.
  destruct (Z.compare_spec y 63); [apply IH; [done|lia]|done|lia].
Qed.

Lemma lex_interval p q n :
  digits q → (length q ≤ length p + n)%nat →
  (lex_compare Z.compare p q ≠ Gt ∧
   lex_compare Z.compare q (p ++ replicate n MAX_CHILD_INDEX) ≠ Gt) ↔ p `prefix_of` q.
Proof.
  revert q. induction p as [|x p IH]; intros q Hq Hn.
  - split; [intros _; apply prefix_nil|]. intros _. split; [by destruct q|].
    by apply lex_le_max.
  - destruct q as [|y q]; simpl in *.
    { split; [by intros [? _]|]. by intros ?%prefix_nil_not. }
    apply list.Forall_cons in Hq as [Hy Hq]. rewrite (Z.compare_antisym x y).
    destruct (Z.compare_spec x y) as [->|Hlt|Hlt]; simpl.
    + rewrite IH by (done || lia). split; [apply prefix_cons|apply prefix_cons_inv_2].
    + split; [by intros [_ ?]|]. intros ?%prefix_cons_inv_1. lia.
    + split; [by intros [? _]|]. intros ?%prefix_cons_inv_1. lia.
Qed.

Lemma descendant_between (p q : PageId) :
  valid p → valid q →
  is_descendant_of q p = page_le p q && page_le q (max_descendant p).
Proof.
  destruct p as [p], q as [q]. intros [Hp _] [Hq Hdq].
  unfold is_descendant_of, page_le, page_compare, max_descendant, MAX_PAGE_DEPTH in *. simpl in *.
  pose proof (lex_interval p q (42 - length p) Hdq ltac:(lia)) as Hi.
  apply eq_true_iff_eq. rewrite bool_decide_eq_true, <-Hi, andb_true_iff.
  repeat case_match; naive_solver.
Qed.

(** Sub-trees of pages are intervals of the order.  For valid page ids, [q] is
    a descendant of [p] exactly if [p ≤ q ≤ max_descendant p] in the order of page
    ids: the documented property that lets the code refer to sub-trees with
    ordering statements. *)
Theorem descendant_interval (p q : PageId) :
  valid p → valid q →
  is_descendant_of q p = page_le p q && page_le q (max_descendant p).
Proof. apply descendant_between. Qed.

(** ** The keys of a page *)

Lemma length_child_bits x : length (child_bits x) = 6%nat.
Proof. unfold child_bits. by rewrite length_drop, length_byte_bits. Qed.

Lemma length_page_bits p : length (page_bits p) = (6 * length (path p))%nat.
Proof.
  destruct p as [l]. unfold page_bits. cbn [path].
  induction l as [|x l IH]; [done|]. rewrite bind_cons, length_app, IH, length_child_bits. simpl. lia.
Qed.

Lemma bits_interval B s m :
  length s = (length B + m)%nat →
  (bits_compare (B ++ replicate m false) s ≠ Gt ∧ bits_compare s (B ++ replicate m true) ≠ Gt) ↔
  B `prefix_of` s.
Proof.
  unfold bits_compare. revert s. induction B as [|b B IH]; intros s Hl.
  - split; [intros _; apply prefix_nil|]. intros _. simpl in *. subst m.
    induction s as [|b s [IH1 IH2]]; [done|]. destruct b; simpl; done.
  - destruct s as [|c s]; simpl in Hl; [lia|]. simpl.
    destruct b, c; simpl;
      try (split; [by intros [? ?]|]; by intros ?%prefix_cons_inv_1).
    all: rewrite IH by lia; split; [apply prefix_cons|apply prefix_cons_inv_2].
Qed.

Lemma key_range p k :
  (length (path p) ≤ 42)%nat → length k = 32%nat →
  (bytes_compare (min_key_path p) k ≠ Gt ∧ bytes_compare k (max_key_path p) ≠ Gt) ↔
  page_bits p `prefix_of` view_bits k.
Proof.
  intros Hp Hk. unfold min_key_path, max_key_path.
  assert (Hlen : ∀ b, length (page_bits p ++ replicate (256 - 6 * length (path p)) b) = (8 * 32)%nat).
  { intros b. rewrite length_app, length_replicate, length_page_bits. lia. }
  rewrite !bytes_compare_bits by (rewrite ?length_bytes_of_bits; lia).
  rewrite !view_bytes_of_bits by done. apply bits_interval.
  rewrite length_view_bits, length_page_bits. lia.
Qed.

(** ** The iterator *)

(** The child index in the [j]-th group of six bits of a key, and the page reached
    after [i] groups. *)
Definition sextet (k : KeyPath) (j : nat) : Z :=
  bits_Z (take 6 (drop (6 * j) (view_bits k))).
Definition page_at (k : KeyPath) (i : nat) : PageId := {| path := sextet k <$> seq 0 i |}.

Lemma child_bits_Z s : length s = 6%nat → child_bits (bits_Z s) = s.
Proof.
  intros Hl. do 6 (destruct s as [|[] s]; simpl in Hl; try lia);
    destruct s; simpl in Hl; try lia; vm_compute; reflexivity.
Qed.

Lemma sextet_range k j : 0 ≤ sextet k j < 64.
Proof.
  unfold sextet. pose proof (bits_Z_range (take 6 (drop (6 * j) (view_bits k)))) as Hr.
  rewrite length_take in Hr.
  assert (2 ^ Z.of_nat (6 `min` length (drop (6 * j) (view_bits k))) ≤ 2 ^ 6); [|lia].
  apply Z.pow_le_mono_r; lia.
Qed.

Lemma page_at_valid k i : (i ≤ 42)%nat → valid (page_at k i).
Proof.
  intros Hi. split; simpl; [by rewrite length_fmap, length_seq|].
  apply Forall_fmap, list.Forall_forall. intros j _. apply sextet_range.
Qed.

Lemma page_at_succ k i : page_at k (S i) = {| path := path (page_at k i) ++ [sextet k i] |}.
Proof. unfold page_at. cbn [path]. by rewrite seq_S, fmap_app. Qed.

Lemma page_bits_at k i :
  length k = 32%nat → (i ≤ 42)%nat → page_bits (page_at k i) = take (6 * i) (view_bits k).
Proof.
  intros Hk. induction i as [|i IH]; intros Hi; [done|].
  rewrite page_at_succ. unfold page_bits in *. cbn [path]. rewrite bind_app, IH by lia.
  change ([sextet k i] ≫= child_bits) with (child_bits (sextet k i) ++ []).
  unfold sextet. rewrite app_nil_r, child_bits_Z.
  - rewrite (take_take_drop (view_bits k) (6 * i) 6). f_equal. lia.
  - rewrite length_take, length_drop, length_view_bits. lia.
Qed.

(** The iterator's integer, as the bits that are still to come. *)
Definition iterator_bits (k : KeyPath) (i : nat) : list bool :=
  drop (6 * i) (view_bits k) ++ replicate (6 * i) false.

Lemma next_shift s rest :
  length s = 6%nat → length (s ++ rest) = 256%nat →
  (bits_Z (s ++ rest) ≫ 248) ≫ 2 = bits_Z s ∧
  wrap 256 (bits_Z (s ++ rest) ≪ 6) = bits_Z (rest ++ replicate 6 false).
Proof.
  intros Hs Hl. rewrite length_app in Hl. pose proof (bits_Z_range s) as Hrs.
  pose proof (bits_Z_range rest) as Hr. rewrite Hs in Hrs.
  assert (length rest = 250%nat) as Hlr by lia. rewrite Hlr in Hr.
  rewrite !bits_Z_app, bits_Z_zeros, length_replicate, Hlr.
  change (Z.of_nat 250) with 250 in *. change (Z.of_nat 6) with 6 in *. split.
  - rewrite Z.shiftr_shiftr by lia. rewrite Z.shiftr_div_pow2 by lia.
    change (248 + 2) with 250. rewrite Z.div_add_l, Z.div_small by lia. lia.
  - unfold wrap. rewrite Z.shiftl_mul_pow2 by lia.
    replace ((bits_Z s * 2 ^ 250 + bits_Z rest) * 2 ^ 6)
      with (bits_Z rest * 2 ^ 6 + bits_Z s * 2 ^ 256) by lia.
    rewrite Z.mod_add, Z.mod_small by lia. lia.
Qed.

Lemma iterator_bits_step k i :
  length k = 32%nat → (i < 42)%nat →
  ∃ rest, iterator_bits k i = take 6 (drop (6 * i) (view_bits k)) ++ rest ∧
    rest ++ replicate 6 false = iterator_bits k (S i).
Proof.
  intros Hk Hi. exists (drop (6 * S i) (view_bits k) ++ replicate (6 * i) false).
  unfold iterator_bits. split.
  - rewrite app_assoc. f_equal. replace (6 * S i)%nat with (6 * i + 6)%nat by lia.
    by rewrite <-drop_drop, take_drop.
  - rewrite <-app_assoc. f_equal. rewrite <-replicate_add. f_equal. lia.
Qed.

Lemma PageIdsIterator_next_spec k i :
  length k = 32%nat → (i < 42)%nat →
  PageIdsIterator_next {| key_path := bits_Z (iterator_bits k i); page_id := Some (page_at k i) |} =
    Some (Some (page_at k i),
          {| key_path := bits_Z (iterator_bits k (S i)); page_id := Some (page_at k (S i)) |}).
Proof.
  intros Hk Hi. destruct (iterator_bits_step k i Hk Hi) as (rest & Heq & Heq').
  assert (H6 : length (take 6 (drop (6 * i) (view_bits k))) = 6%nat)
    by (rewrite length_take, length_drop, length_view_bits; lia).
  destruct (next_shift _ rest H6) as [Hx Hkp].
  { rewrite <-Heq. unfold iterator_bits. rewrite length_app, length_drop, length_replicate.
    rewrite length_view_bits. lia. }
  unfold PageIdsIterator_next. cbn [page_id key_path]. rewrite Heq, Hx, Hkp, Heq'.
  fold (sextet k i). pose proof (sextet_range k i) as Hr.
  unfold ChildPageIndex_new. rewrite (proj2 (Z.ltb_ge _ _)) by (change MAX_CHILD_INDEX with 63; lia).
  cbn [mbind option_bind]. unfold child_page_id, push.
  assert (Hl : length (path (page_at k i)) = i) by (simpl; by rewrite length_fmap, length_seq).
  rewrite Hl, (proj2 (Nat.leb_gt _ _)), (proj2 (Nat.ltb_lt _ _)) by (unfold MAX_PAGE_DEPTH; lia).
  cbn [or_panic obind]. by rewrite page_at_succ.
Qed.

Lemma PageIdsIterator_last k :
  length k = 32%nat →
  ∃ kp, PageIdsIterator_next {| key_path := bits_Z (iterator_bits k 42); page_id := Some (page_at k 42) |} =
    Some (Some (page_at k 42), {| key_path := kp; page_id := None |}).
Proof.
  intros Hk. unfold PageIdsIterator_next. cbn [page_id key_path].
  set (L := iterator_bits k 42).
  assert (Hl : length L = 256%nat).
  { unfold L, iterator_bits. rewrite length_app, length_drop, length_replicate, length_view_bits. lia. }
  destruct (next_shift (take 6 L) (drop 6 L)) as [Hx _];
    [rewrite length_take; lia|by rewrite take_drop|].
  rewrite take_drop in Hx. rewrite Hx. pose proof (bits_Z_range (take 6 L)) as Hr.
  rewrite length_take, Hl in Hr. change (2 ^ Z.of_nat (6 `min` 256)) with 64 in Hr.
  unfold ChildPageIndex_new. rewrite (proj2 (Z.ltb_ge _ _)) by (change MAX_CHILD_INDEX with 63; lia).
  cbn [mbind option_bind]. unfold child_page_id.
  rewrite (proj2 (Nat.leb_le _ _)) by (unfold page_at; cbn [path]; by rewrite length_fmap, length_seq).
  by eexists.
Qed.

Lemma PageIdsIterator_take_some n it p it' :
  PageIdsIterator_next it = Some (Some p, it') →
  PageIdsIterator_take (S n) it = (let? ps := PageIdsIterator_take n it' in Some (p :: ps)).
Proof. intros Hn. cbn [PageIdsIterator_take]. by rewrite Hn. Qed.

Lemma PageIdsIterator_take_spec k m i :
  length k = 32%nat → (i + m = 42)%nat →
  PageIdsIterator_take (S (S m)) {| key_path := bits_Z (iterator_bits k i); page_id := Some (page_at k i) |} =
    Some (page_at k <$> seq i (S m)).
Proof.
  intros Hk. revert i. induction m as [|m IH]; intros i Hi.
  - assert (i = 42%nat) as -> by lia. destruct (PageIdsIterator_last k Hk) as [kp Hn].
    by rewrite (PageIdsIterator_take_some _ _ _ _ Hn).
  - rewrite (PageIdsIterator_take_some _ _ _ _ (PageIdsIterator_next_spec k i Hk ltac:(lia))).
    by rewrite IH by lia.
Qed.

Lemma child_bits_inj x y : 0 ≤ x < 64 → 0 ≤ y < 64 → child_bits x = child_bits y → x = y.
Proof.
  intros Hx Hy Heq.
  assert (Hb : ∀ z, 0 ≤ z < 64 → bits_Z (child_bits z) = z).
  { intros z Hz. rewrite <-(Z2Nat.id z) by lia.
    assert (Hall : Forall (λ n, bits_Z (child_bits (Z.of_nat n)) = Z.of_nat n) (seq 0 64)) by by_compute.
    rewrite list.Forall_forall in Hall. apply Hall. apply elem_of_seq. lia. }
  rewrite <-(Hb x), <-(Hb y), Heq; done.
Qed.

Lemma page_bits_inj p q :
  valid p → valid q → length (path p) = length (path q) → page_bits p = page_bits q → p = q.
Proof.
  destruct p as [p], q as [q]. intros [_ Hp] [_ Hq]. unfold page_bits. cbn [path] in *.
  revert q Hq. induction p as [|x p IH]; intros [|y q] Hq Hl Heq; simpl in Hl; try lia; [done|].
  apply list.Forall_cons in Hp as [Hx Hp]. apply list.Forall_cons in Hq as [Hy Hq].
  rewrite !bind_cons in Heq. apply app_inj_1 in Heq as [Hxy Heq]; [|by rewrite !length_child_bits].
  apply child_bits_inj in Hxy; [|done..]. injection (IH Hp q Hq ltac:(lia) Heq) as ->. by subst.
Qed.

(** C25: the iterator yields exactly the pages a key can land in.  For every key
    path it yields 43 pages and then ends, without a panic; the [i]-th is valid and
    at depth [i]; and a valid page is among them exactly if the key lies between
    the page's [min_key_path] and [max_key_path]. *)
Theorem page_ids_iterator_correct (k : KeyPath) :
  length k = 32%nat →
  ∃ ps, PageIdsIterator_take 44 (PageIdsIterator_new k) = Some ps ∧ length ps = 43%nat ∧
    (∀ i p, ps !! i = Some p → valid p ∧ depth p = i) ∧
    ∀ p, valid p →
      p ∈ ps ↔ bytes_compare (min_key_path p) k ≠ Gt ∧ bytes_compare k (max_key_path p) ≠ Gt.
Proof.
  intros Hk. exists (page_at k <$> seq 0 43). split_and!.
  - pose proof (PageIdsIterator_take_spec k 42 0 Hk eq_refl) as Ht.
    unfold iterator_bits in Ht. rewrite Nat.mul_0_r, drop_0 in Ht. simpl replicate in Ht.
    rewrite app_nil_r, bits_Z_view in Ht. exact Ht.
  - done.
  - intros i p (j & -> & [-> Hj]%lookup_seq)%list_lookup_fmap_Some_1.
    split; [by apply page_at_valid; lia|]. unfold depth. simpl. by rewrite length_fmap, length_seq.
  - intros p Hp. rewrite key_range by (done || apply Hp). split.
    + intros (i & -> & [_ Hi]%elem_of_seq)%list_elem_of_fmap.
      rewrite page_bits_at by (done || lia). exists (drop (6 * i) (view_bits k)). by rewrite take_drop.
    + intros Hpre. apply list_elem_of_fmap. exists (length (path p)).
      pose proof Hp as [Hl _]. unfold MAX_PAGE_DEPTH in Hl. split; [|apply elem_of_seq; lia].
      apply page_bits_inj; [done|by apply page_at_valid| |].
      * unfold page_at. cbn [path]. by rewrite length_fmap, length_seq.
      * rewrite page_bits_at by done. rewrite <-length_page_bits. by rewrite prefix_take.
Qed.

(** ** The theorems at work *)

Definition sample_page : PageId := {| path := [3; 17; 0; 63] |}.

#[global] Instance valid_dec p : Decision (valid p).
Proof. unfold valid. apply _. Defined.

Lemma decode_correct_witness :
  decode (to_be_bytes 32 (documented_encoding sample_page)) = Ok sample_page.
Proof.
  assert (Hl : length (to_be_bytes 32 (documented_encoding sample_page)) = 32%nat) by reflexivity.
  destruct (decode_correct _ Hl) as (_ & _ & Hdec).
  apply Hdec; by_compute.
Defined.

Lemma encode_correct_41_witness :
  from_be_bytes (encode sample_page) = 64 * documented_encoding sample_page.
Proof.
  assert (Hv : valid sample_page) by by_compute.
  assert (Hr : valid ROOT_PAGE_ID) by by_compute.
  assert (H1 : (depth sample_page ≤ 41)%nat) by by_compute.
  assert (H2 : (depth ROOT_PAGE_ID ≤ 41)%nat) by by_compute.
  exact (proj1 (encode_correct_41 _ _ Hv Hr H1 H2)).
Defined.

Lemma encode_decode_differ_witness : decode (encode sample_page) ≠ Ok sample_page.
Proof.
  assert (Hv : valid sample_page) by by_compute.
  assert (Hr : sample_page ≠ ROOT_PAGE_ID) by discriminate.
  assert (Hd : (depth sample_page ≤ 41)%nat) by by_compute.
  exact (encode_decode_differ _ Hv Hr Hd).
Defined.

Lemma descendant_interval_witness :
  is_descendant_of sample_page (parent_page_id sample_page) =
    page_le (parent_page_id sample_page) sample_page &&
    page_le sample_page (max_descendant (parent_page_id sample_page)).
Proof.
  assert (Hp : valid (parent_page_id sample_page)) by by_compute.
  assert (Hv : valid sample_page) by by_compute.
  exact (descendant_interval _ _ Hp Hv).
Defined.

Lemma page_ids_iterator_correct_witness :
  ∃ ps, PageIdsIterator_take 44 (PageIdsIterator_new (toy_key x5a)) = Some ps ∧
    length ps = 43%nat.
Proof.
  assert (Hk : length (toy_key x5a) = 32%nat) by reflexivity.
  destruct (page_ids_iterator_correct _ Hk) as (ps & Hps & Hl & _).
  exists ps. exact (conj Hps Hl).
Defined.
