(* ===== verification/Update.v ===== *)
(** * Building and updating sub-tries

    Models [core/src/update.rs]: splicing a prior leaf into a list of operations
    ([leaf_ops_spliced]) and the left-frontier algorithm that builds the compact
    sub-trie of an ordered list of pairs ([build_trie]), with the sequence of
    [WriteNode] commands it sends to its visitor.

    The main results: [build_trie] never panics on ordered distinct keys, it
    returns the commitment of the trie the specification assigns to the pairs, and
    the commands it emits visit that trie in post-order. *)

From S2P Require Import Prelude Trie.

Definition shared_bits (a b : list bool) : nat := common_prefix_len a b.

(** ** [leaf_ops_spliced] *)

Definition leaf_ops_spliced (leaf : option LeafData)
    (ops : list (KeyPath * option ValueHash)) : list (KeyPath * ValueHash) :=
  let splice_index :=
    leaf ≫= λ leaf,
      match binary_search_by (λ x : KeyPath * option ValueHash,
                                bytes_compare x.1 (key_path leaf)) ops with
      | inl _ => None
      | inr i => Some i
      end in
  let preserve_value : option (KeyPath * option ValueHash) :=
    match splice_index, leaf with
    | Some _, Some leaf => Some (key_path leaf, Some (value_hash leaf))
    | _, _ => None
    end in
  let splice_index := default 0 splice_index in
  omap (λ '(k, o), (λ value, (k, value)) <$> o)
    (take splice_index ops ++ option_list preserve_value ++ drop splice_index ops).

(** ** The commands of the visitor *)

Inductive WriteNode :=
| WLeaf (up : bool) (down : list bool) (leaf_data : LeafData) (node : Node)
| WInternal (internal_data : InternalData) (node : Node)
| WTerminator.

Definition write_up (w : WriteNode) : bool :=
  match w with
  | WLeaf up _ _ _ => up
  | WInternal _ _ => true
  | WTerminator => false
  end.

Definition write_down (w : WriteNode) : list bool :=
  match w with
  | WLeaf _ down _ _ => down
  | _ => []
  end.

Definition write_node (w : WriteNode) : Node :=
  match w with
  | WLeaf _ _ _ node => node
  | WInternal _ node => node
  | WTerminator => TERMINATOR
  end.

(** ** [build_trie] *)

Section build.
Context `{NodeHasher}.

(** The left frontier: computed nodes with their layers, the last pushed first. *)
Abbreviation frontier := (list (Node * nat)) (only parsing).

(** One iteration of the loop over [hash_up_layers]: from [last_node] at [layer]
    to its parent. *)
Definition hash_up_one (bit : bool) (st : nat * Node * frontier) :
    nat * Node * frontier * WriteNode :=
  let '(layer, last_node, pending_siblings) := st in
  let layer := layer - 1 in
  let '(sibling, pending_siblings) :=
    match pending_siblings with
    | (n, l) :: rest => if l =? layer + 1 then (n, rest) else (TERMINATOR, pending_siblings)
    | [] => (TERMINATOR, pending_siblings)
    end in
  let internal_data :=
    if bit then {| left := sibling; right := last_node |}
    else {| left := last_node; right := sibling |} in
  let last_node := hash_internal internal_data in
  (layer, last_node, pending_siblings, WInternal internal_data last_node).

Fixpoint hash_up (bits : list bool) (st : nat * Node * frontier) :
    nat * Node * frontier * list WriteNode :=
  match bits with
  | [] => (st, [])
  | bit :: bits' =>
      let '(st', w) := hash_up_one bit st in
      let '(st'', ws) := hash_up bits' st' in
      (st'', w :: ws)
  end.

Definition common_after_prefix (skip : nat) (k1 k2 : KeyPath) : option nat :=
  let? x := slice_from (view_bits k1) skip in
  let? y := slice_from (view_bits k2) skip in
  Some (shared_bits x y).

(** [n.as_ref().map(|(k, _)| common_after_prefix(k, &this_key))] *)
Definition neighbour (skip : nat) (n : option KeyPath) (this_key : KeyPath) :
    option (option nat) :=
  match n with
  | None => Some None
  | Some k => let? m := common_after_prefix skip k this_key in Some (Some m)
  end.

(** The depth of the leaf and the number of layers to hash up. *)
Definition leaf_depth_and_up (n1 n2 : option nat) : nat * nat :=
  match n1, n2 with
  | None, None => (0, 0)
  | None, Some n2 => (n2 + 1, 0)
  | Some n1, None => (n1 + 1, n1 + 1)
  | Some n1, Some n2 => (n1 `max` n2 + 1, n1 - n2)
  end.

(** The body of the [while] loop for [b], with its neighbours [a] and [c]. *)
Definition build_step (skip : nat) (a : option KeyPath) (b : KeyPath * ValueHash)
    (c : option KeyPath) (pending_siblings : frontier) :
    option (frontier * list WriteNode) :=
  let '(this_key, this_val) := b in
  let? n1 := neighbour skip a this_key in
  let? n2 := neighbour skip c this_key in
  let leaf_data := {| key_path := this_key; value_hash := this_val |} in
  let leaf := hash_leaf leaf_data in
  let '(leaf_depth, hash_up_layers) := leaf_depth_and_up n1 n2 in
  let layer := leaf_depth in
  let down_start := skip + default 0 n1 in
  let leaf_end_bit := skip + leaf_depth in
  let? down := slice (view_bits this_key) down_start leaf_end_bit in
  let? path := slice (view_bits this_key) skip leaf_end_bit in
  let w := WLeaf (bool_decide (is_Some n1)) down leaf_data leaf in
  let '(layer, last_node, pending_siblings, ws) :=
    hash_up (take hash_up_layers (rev path)) (layer, leaf, pending_siblings) in
  Some ((last_node, layer) :: pending_siblings, w :: ws).

(** The [while] loop over [ops]; [c] is the item the iterator yields after them. *)
Fixpoint build_loop (skip : nat) (a : option KeyPath) (ops : ops_t) (c : option KeyPath)
    (pending_siblings : frontier) : option (frontier * list WriteNode) :=
  match ops with
  | [] => Some (pending_siblings, [])
  | b :: rest =>
      let next := match rest with [] => c | (k, _) :: _ => Some k end in
      let? (pending_siblings, ws) := build_step skip a b next pending_siblings in
      let? (pending_siblings, ws') := build_loop skip (Some b.1) rest c pending_siblings in
      Some (pending_siblings, ws ++ ws')
  end.

(** The root and the commands sent to the visitor; [None] is a panic. *)
Definition build_trie (skip : nat) (ops : ops_t) : option (Node * list WriteNode) :=
  match ops with
  | [] => Some (TERMINATOR, [WTerminator])
  | [(k, v)] =>
      let leaf_data := {| key_path := k; value_hash := v |} in
      let leaf := hash_leaf leaf_data in
      Some (leaf, [WLeaf false [] leaf_data leaf])
  | _ =>
      let? (pending_siblings, ws) := build_loop skip None ops None [] in
      Some (default TERMINATOR (fst <$> head pending_siblings), ws)
  end.

(** ** What the visitor sees

    The position of the visitor before and after a command, as the comment of
    [build_trie] prescribes and the tests of the module ([Visited]) implement. *)

Definition visit (key : list bool) (control : WriteNode) : list bool :=
  take (length key - (if write_up control then 1 else 0)) key ++ write_down control.

Fixpoint visited (key : list bool) (ws : list WriteNode) :
    list bool * list (list bool * Node) :=
  match ws with
  | [] => (key, [])
  | w :: ws' =>
      let key := visit key w in
      let '(key', vs) := visited key ws' in
      (key', (key, write_node w) :: vs)
  end.

(** The nodes of a trie at [P], children before parents, left before right;
    terminators below the root are implicit. *)
Fixpoint postorder (P : list bool) (t : trie) : list (list bool * Node) :=
  match t with
  | TTerminator => []
  | TLeaf d => [(P, hash_leaf d)]
  | TInternal l r =>
      postorder (P ++ [false]) l ++ postorder (P ++ [true]) r ++ [(P, node_of t)]
  end.

(** The commands for a trie that is reached by the movement [up], [down]: its first
    leaf is reached from where the visitor stands, a right sub-trie next to a left
    one from the root of the left one. *)
Fixpoint commands (up : bool) (down : list bool) (t : trie) : list WriteNode :=
  match t with
  | TTerminator => []
  | TLeaf d => [WLeaf up down d (hash_leaf d)]
  | TInternal l r =>
      commands up (down ++ [false]) l ++
      match l with
      | TTerminator => commands up (down ++ [true]) r
      | _ => commands true [true] r
      end ++
      [WInternal {| left := node_of l; right := node_of r |} (node_of t)]
  end.
End build.

(** ** Correctness of [build_trie] *)

Section build_lemmas.
Context `{NodeHasher}.

Lemma hash_up_app b1 b2 st :
  hash_up (b1 ++ b2) st =
    let '(st', ws) := hash_up b1 st in
    let '(st'', ws') := hash_up b2 st' in
    (st'', ws ++ ws').
Proof.
  revert st. induction b1 as [|b b1 IH]; intros st; cbn -[hash_up_one].
  { by destruct (hash_up b2 st) as [[[??]?]?]. }
  destruct (hash_up_one b st) as [st' w]. rewrite IH.
  destruct (hash_up b1 st') as [st'' ws]. by destruct (hash_up b2 st'') as [??].
Qed.

Lemma build_loop_app skip a o1 o2 c S k2 :
  fst <$> head o2 = Some k2 →
  build_loop skip a (o1 ++ o2) c S =
    let? (S1, w1) := build_loop skip a o1 (Some k2) S in
    let? (S2, w2) := build_loop skip (from_option (Some ∘ fst) a (last o1)) o2 c S1 in
    Some (S2, w1 ++ w2).
Proof.
  intros Hk. revert a S. induction o1 as [|b o1 IH]; intros a S.
  { simpl. by destruct (build_loop skip a o2 c S) as [[??]|]. }
  simpl app. cbn [build_loop].
  assert (match o1 ++ o2 with [] => c | (k, _) :: _ => Some k end =
          match o1 with [] => Some k2 | (k, _) :: _ => Some k end) as ->.
  { destruct o1 as [|[??]?]; [|done]. destruct o2 as [|[??]?]; simplify_eq/=. done. }
  destruct (build_step skip a b _ S) as [[S1 w1]|]; simpl; [|done].
  rewrite IH. rewrite last_cons.
  destruct (build_loop skip (Some b.1) o1 (Some k2) S1) as [[S2 w2]|]; simpl; [|done].
  destruct (last o1); simpl;
    destruct (build_loop skip _ o2 c S2) as [[S3 w3]|]; simpl; by rewrite ?app_assoc.
Qed.

Lemma common_after_prefix_diverge {V W} skip P b (x : KeyPath * V) (y : KeyPath * W) :
  skip ≤ length P → in_block (P ++ [b]) x → in_block (P ++ [negb b]) y →
  common_after_prefix skip x.1 y.1 = Some (length P - skip).
Proof.
  intros HP [Hx [s Hs]] [Hy [s' Hs']]. unfold common_after_prefix.
  rewrite !slice_from_Some by (rewrite length_view_bits; pose proof (length_view_bits x.1) as Hv;
    rewrite Hs, !length_app in Hv; lia).
  simpl. rewrite Hs, Hs', <-!app_assoc. simpl. f_equal. unfold shared_bits.
  rewrite !drop_app_le by lia.
  rewrite common_prefix_len_diverge; [by rewrite length_drop|by destruct b].
Qed.

(** The frontier entries of a block lie at or above the block's layer. *)
Definition frontier_le (d : nat) (F : list (Node * nat)) : Prop :=
  Forall (λ nl, nl.2 ≤ d) F.

(** Hashing up one layer from a block: the sibling is the pending left node of
    layer [d + 1], or a terminator. *)
Lemma hash_up_one_pending d n left_node F :
  hash_up_one true (S d, n, (left_node, S d) :: F) =
    let i := {| left := left_node; right := n |} in
    (d, hash_internal i, F, WInternal i (hash_internal i)).
Proof.
  unfold hash_up_one. replace (S d - 1) with d by lia.
  by rewrite (proj2 (Nat.eqb_eq (S d) (d + 1))) by lia.
Qed.

Lemma hash_up_one_terminator bit d n F :
  frontier_le d F →
  hash_up_one bit (S d, n, F) =
    let i := if bit then {| left := TERMINATOR; right := n |}
             else {| left := n; right := TERMINATOR |} in
    (d, hash_internal i, F, WInternal i (hash_internal i)).
Proof.
  intros HF. unfold hash_up_one. replace (S d - 1) with d by lia.
  destruct F as [|[n' l] F]; [done|]. inversion HF; subst. simpl in *.
  by rewrite (proj2 (Nat.eqb_neq l (d + 1))) by lia.
Qed.

Lemma drop_snoc_rev {A} (P : list A) b e :
  e ≤ length P → rev (drop e (P ++ [b])) = b :: rev (drop e P).
Proof. intros He. rewrite drop_app_le by done. by rewrite rev_app_distr. Qed.

Lemma visited_app key w1 w2 :
  visited key (w1 ++ w2) =
    let '(key1, v1) := visited key w1 in
    let '(key2, v2) := visited key1 w2 in
    (key2, v1 ++ v2).
Proof.
  revert key. induction w1 as [|w w1 IH]; intros key; simpl.
  { by destruct (visited key w2). }
  rewrite IH. destruct (visited _ w1) as [k1 v1]. by destruct (visited k1 w2).
Qed.

Lemma hash_up_layer bits d n F :
  (hash_up bits (d, n, F)).1.1.1 = d - length bits.
Proof.
  revert d n F. induction bits as [|b bits IH]; intros d n F; [simpl; lia|].
  cbn [hash_up]. destruct (hash_up_one b (d, n, F)) as [[[d' n'] F'] w] eqn:E.
  assert (d' = d - 1) as ->.
  { unfold hash_up_one in E. by destruct F as [|[??]?]; [|destruct (_ =? _)]; simplify_eq. }
  specialize (IH (d - 1) n' F').
  destruct (hash_up bits (d - 1, n', F')) as [[[??]?]?]. simpl in *. lia.
Qed.

(** The layer the node of a processed key is left at: just below the point where
    the next key diverges, or the root. *)
Definition end_layer (m2 : option nat) : nat :=
  match m2 with Some n => n + 1 | None => 0 end.

(** Processing one key of a block that consists of it alone. *)
Lemma build_step_single skip a k v c F m1 m2 d P :
  in_block P (k, v) → length P = skip + d →
  neighbour skip a k = Some m1 → neighbour skip c k = Some m2 →
  (leaf_depth_and_up m1 m2).1 = d →
  let leaf := {| key_path := k; value_hash := v |} in
  let '(layer, node, F', us) :=
    hash_up (rev (drop (skip + end_layer m2) P)) (d, hash_leaf leaf, F) in
  build_step skip a (k, v) c F =
    Some ((node, end_layer m2) :: F',
          WLeaf (bool_decide (is_Some m1)) (drop (skip + default 0 m1) P) leaf (hash_leaf leaf)
            :: us).
Proof.
  intros [Hk Hp] HP H1 H2 Hd leaf. simpl in Hk, Hp.
  unfold build_step. rewrite H1, H2. simpl.
  destruct (leaf_depth_and_up m1 m2) as [ld hul] eqn:El. simpl in Hd. subst ld.
  apply prefix_take in Hp as Ht. apply prefix_length in Hp as Hpl.
  rewrite HP in Ht, Hpl.
  assert (Hm1 : default 0 m1 ≤ d ∧ d - hul = end_layer m2 ∧ hul ≤ d).
  { destruct m1, m2; simplify_eq/=; lia. }
  destruct Hm1 as (Hm1 & HE & Hle).
  rewrite !slice_Some by lia. simpl.
  rewrite <-!skipn_firstn_comm, Ht.
  assert (take hul (rev (drop skip P)) = rev (drop (skip + end_layer m2) P)) as ->.
  { rewrite firstn_rev, length_drop, HP, skipn_skipn. do 2 f_equal. lia. }
  pose proof (hash_up_layer (rev (drop (skip + end_layer m2) P)) d (hash_leaf leaf) F) as HL.
  fold leaf. destruct (hash_up _ _) as [[[layer node] F'] us]. simpl in *.
  rewrite length_rev, length_drop, HP in HL. subst layer.
  replace (d - (skip + d - (skip + end_layer m2))) with (end_layer m2) by lia. done.
Qed.

(** Where the visitor stands before a block: at the root of the sub-trie, or one
    layer below the point where the previous key and the block diverge. *)
Definition stands_before (skip : nat) (P : list bool) (m1 : option nat) (pos : list bool) : Prop :=
  match m1 with
  | None => pos = take skip P
  | Some m => length pos = skip + m + 1 ∧ take (skip + m) pos = take (skip + m) P
  end.

(** What the loop does on a block at layer [d]: it computes the commitment of the
    block's trie, visiting its nodes in post-order, and then hashes up to the
    layer where the next key takes over. *)
Definition loop_spec (skip : nat) (P : list bool) (d : nat) (ks : ops_t)
    (a c : option KeyPath) (m1 m2 : option nat) (F : list (Node * nat)) : Prop :=
  ∃ ws,
    (let '(_, node, F', us) :=
       hash_up (rev (drop (skip + end_layer m2) P)) (d, node_of (trie_at (length P) ks), F) in
     build_loop skip a ks c F = Some ((node, end_layer m2) :: F', ws ++ us)) ∧
    ws = commands (bool_decide (is_Some m1)) (drop (skip + default 0 m1) P) (trie_at (length P) ks) ∧
    ∀ pos, stands_before skip P m1 pos →
      visited pos ws = (P, postorder P (trie_at (length P) ks)).

Lemma build_loop_single skip P d kv a c m1 m2 F :
  in_block P kv → length P = skip + d →
  neighbour skip a kv.1 = Some m1 → neighbour skip c kv.1 = Some m2 →
  (leaf_depth_and_up m1 m2).1 = d →
  loop_spec skip P d [kv] a c m1 m2 F.
Proof.
  destruct kv as [k v]. intros Hk HP H1 H2 Hd. unfold loop_spec.
  pose proof (build_step_single skip a k v c F m1 m2 d P Hk HP H1 H2 Hd) as Hs.
  rewrite trie_at_single. cbn [node_of postorder].
  set (leaf := {| key_path := k; value_hash := v |}) in *.
  exists [WLeaf (bool_decide (is_Some m1)) (drop (skip + default 0 m1) P) leaf (hash_leaf leaf)].
  split.
  - cbv zeta in Hs. destruct (hash_up _ _) as [[[layer node] F'] us].
    cbn [build_loop]. rewrite Hs. simpl. by rewrite app_nil_r.
  - split; [done|]. intros pos Hpos. simpl. unfold visit. simpl.
    destruct m1 as [m|]; simpl in *.
    + destruct Hpos as [Hl Ht].
      replace (length pos - 1) with (skip + m) by lia. rewrite Ht, take_drop. done.
    + rewrite Nat.sub_0_r, firstn_all, Hpos, Nat.add_0_r, take_drop. done.
Qed.

(** From the layer of a child block to the layer of its parent. *)
Lemma hash_up_child b P e d n F1 i F2 :
  e ≤ length P →
  hash_up_one b (S d, n, F1) = (d, hash_internal i, F2, WInternal i (hash_internal i)) →
  hash_up (rev (drop e (P ++ [b]))) (S d, n, F1) =
    let '(st, us) := hash_up (rev (drop e P)) (d, hash_internal i, F2) in
    (st, WInternal i (hash_internal i) :: us).
Proof. intros He Hi. rewrite drop_snoc_rev by done. cbn [hash_up]. by rewrite Hi. Qed.

Lemma visited_snoc_internal pos ws P b vs i :
  visited pos ws = (P ++ [b], vs) →
  visited pos (ws ++ [WInternal i (hash_internal i)]) = (P, vs ++ [(P, hash_internal i)]).
Proof.
  intros Hv. rewrite visited_app, Hv. simpl. unfold visit. simpl.
  rewrite length_app. simpl. replace (length P + 1 - 1) with (length P) by lia.
  by rewrite take_app_length, app_nil_r.
Qed.

Lemma stands_before_snoc skip P d m1 b pos :
  length P = skip + d → match m1 with Some m => m < d | None => True end →
  stands_before skip P m1 pos → stands_before skip (P ++ [b]) m1 pos.
Proof.
  intros HP Hm. destruct m1 as [m|]; simpl.
  - intros [??]. split; [done|]. by rewrite take_app_le by lia.
  - intros ->. by rewrite take_app_le by lia.
Qed.

(** All keys of a block on one side. *)
Lemma loop_spec_one_side b skip P d ks a c m1 m2 F :
  length P = skip + d → skip + end_layer m2 ≤ length P →
  match m1 with Some m => m < d | None => True end →
  frontier_le d F → 2 ≤ length ks → length P < 256 →
  side b (length P) ks = ks → side (negb b) (length P) ks = [] →
  loop_spec skip (P ++ [b]) (S d) ks a c m1 m2 F →
  loop_spec skip P d ks a c m1 m2 F.
Proof.
  intros HP HE Hm HF Hl HP256 Hs1 Hs2 (ws & Hrun & Hcmd & Hvis).
  assert (Hlen : length (P ++ [b]) = S (length P)) by (rewrite length_app; simpl; lia).
  rewrite Hlen in Hrun, Hcmd, Hvis. unfold loop_spec. rewrite trie_at_many by done.
  set (t := trie_at (S (length P)) ks) in *.
  assert (Ht : ∀ b', trie_at (S (length P)) (side b' (length P) ks) =
                    if Bool.eqb b b' then t else TTerminator).
  { intros b'. destruct b, b'; simpl in *; rewrite ?Hs1, ?Hs2, ?trie_at_nil; done. }
  rewrite !Ht. set (i := if b then {| left := TERMINATOR; right := node_of t |}
                         else {| left := node_of t; right := TERMINATOR |}).
  exists (ws ++ [WInternal i (hash_internal i)]).
  assert (Hn : node_of (TInternal (if Bool.eqb b false then t else TTerminator)
                          (if Bool.eqb b true then t else TTerminator)) = hash_internal i).
  { subst i. by destruct b. }
  split.
  - rewrite Hn. rewrite (hash_up_child _ _ _ _ _ _ i F) in Hrun;
      [|done|by rewrite hash_up_one_terminator by done].
    destruct (hash_up _ _) as [[[layer node] F'] us]. by rewrite <-app_assoc.
  - split.
    { rewrite Hcmd, drop_app_le by (destruct m1; simpl in *; lia). subst i. destruct b; simpl; [done|by destruct t]. }
    intros pos Hpos. cbn [postorder]. rewrite Hn.
    rewrite (visited_snoc_internal _ _ P b (postorder (P ++ [b]) t)).
    + rewrite app_assoc. do 2 f_equal. destruct b; simpl; by rewrite ?app_nil_r.
    + apply Hvis. by eapply stands_before_snoc.
Qed.

(** Keys on both sides: the left block leaves its root on the frontier, the right
    block picks it up. *)
Lemma loop_spec_two_sides skip P d ks k0 k1 a c m1 m2 F :
  length P = skip + d → skip + end_layer m2 ≤ length P →
  match m1 with Some m => m < d | None => True end →
  2 ≤ length ks → length P < 256 →
  let ks0 := side false (length P) ks in
  let ks1 := side true (length P) ks in
  ks = ks0 ++ ks1 → last ks0 = Some k0 → head ks1 = Some k1 →
  trie_at (S (length P)) ks0 ≠ TTerminator →
  loop_spec skip (P ++ [false]) (S d) ks0 a (Some k1.1) m1 (Some d) F →
  (∀ n, loop_spec skip (P ++ [true]) (S d) ks1 (Some k0.1) c (Some d) m2 ((n, S d) :: F)) →
  loop_spec skip P d ks a c m1 m2 F.
Proof.
  intros HP HE Hm Hl HP256 ks0 ks1 Hsplit Hk0 Hk1 Hne (ws0 & Hrun0 & Hcmd0 & Hvis0) Hspec1.
  assert (Hlen : ∀ b, length (P ++ [b]) = S (length P))
    by (intros; rewrite length_app; simpl; lia).
  set (n0 := node_of (trie_at (S (length P)) ks0)).
  destruct (Hspec1 n0) as (ws1 & Hrun1 & Hcmd1 & Hvis1).
  rewrite Hlen in *. unfold loop_spec. rewrite trie_at_many by done. fold ks0 ks1.
  cbn [end_layer] in Hrun0. rewrite drop_ge in Hrun0 by (rewrite Hlen; lia).
  cbn [rev hash_up] in Hrun0. replace (d + 1) with (S d) in Hrun0 by lia. fold n0 in Hrun0.
  set (n1 := node_of (trie_at (S (length P)) ks1)) in *.
  set (i := {| left := n0; right := n1 |}).
  exists (ws0 ++ ws1 ++ [WInternal i (hash_internal i)]). split.
  - rewrite (hash_up_child _ _ _ _ _ _ i F) in Hrun1;
      [|done|by rewrite hash_up_one_pending].
    cbn [node_of]. fold n0 n1 i. destruct (hash_up _ _) as [[[layer node] F'] us].
    rewrite Hsplit, (build_loop_app _ _ _ _ _ _ k1.1) by (by rewrite Hk1).
    rewrite Hrun0, Hk0. simpl. rewrite Hrun1. simpl. by rewrite app_nil_r, <-!app_assoc.
  - split.
    { rewrite Hcmd0, Hcmd1, !drop_app_le by (destruct m1; simpl in *; lia).
      rewrite (bool_decide_eq_true_2 (is_Some (Some d))), (drop_ge P (skip + default 0 (Some d)))
        by (simpl; lia || done).
      cbn [commands]. fold ks0 ks1. by destruct (trie_at (S (length P)) ks0). }
    intros pos Hpos. cbn [postorder node_of]. fold n0 n1 i.
    rewrite visited_app, Hvis0 by (by eapply stands_before_snoc).
    rewrite (visited_snoc_internal _ _ P true (postorder (P ++ [true]) (trie_at (S (length P)) ks1))).
    + done.
    + apply Hvis1. simpl. rewrite Hlen. split; [lia|].
      rewrite !take_app_le by lia. done.
Qed.

Lemma trie_at_not_terminator P ks : block P ks → ks ≠ [] → trie_at (length P) ks ≠ TTerminator.
Proof.
  intros Hb Hne. destruct ks as [|[k v] [|y ks]]; [done|by rewrite trie_at_single|].
  rewrite trie_at_many; [done|simpl; lia|]. eapply block_many_depth; [exact Hb|simpl; lia].
Qed.

Lemma build_loop_block skip P d ks a c m1 m2 F :
  block P ks → ks ≠ [] → length P = skip + d →
  (∀ kv, head ks = Some kv → neighbour skip a kv.1 = Some m1) →
  (∀ kv, last ks = Some kv → neighbour skip c kv.1 = Some m2) →
  (leaf_depth_and_up m1 m2).1 ≤ d →
  (length ks = 1 → (leaf_depth_and_up m1 m2).1 = d) →
  frontier_le d F →
  loop_spec skip P d ks a c m1 m2 F.
Proof.
  remember (256 - length P) as n eqn:Hn. revert P d ks a c m1 m2 F Hn.
  induction n as [n IH] using lt_wf_ind.
  intros P d ks a c m1 m2 F Hn Hb Hne HP H1 H2 Hd Hd1 HF.
  destruct (decide (2 ≤ length ks)) as [Hl|Hl].
  2: { destruct ks as [|kv [|? ?]]; simpl in Hl; try lia; [done|].
       apply build_loop_single; auto. by apply block_cons in Hb as [? _]. }
  pose proof (block_many_depth _ _ Hb Hl) as HP256.
  pose proof (block_split _ _ Hb HP256) as Hsplit.
  pose proof (block_side _ false _ Hb HP256) as Hb0.
  pose proof (block_side _ true _ Hb HP256) as Hb1.
  assert (HE : skip + end_layer m2 ≤ length P) by (destruct m1, m2; simpl in *; lia).
  assert (Hm : match m1 with Some m => m < d | None => True end)
    by (destruct m1, m2; simpl in *; lia).
  assert (Hlen : ∀ b, length (P ++ [b]) = S (length P))
    by (intros; rewrite length_app; simpl; lia).
  assert (HF' : frontier_le (S d) F) by (eapply Forall_impl; [exact HF|simpl; lia]).
  destruct (last (side false (length P) ks)) as [k0|] eqn:E0;
    [destruct (head (side true (length P) ks)) as [k1|] eqn:E1|].
  - assert (Hk0 : in_block (P ++ [false]) k0).
    { destruct Hb0 as [_ Hb0]. rewrite list.Forall_forall in Hb0. apply Hb0.
      by apply last_Some_elem_of. }
    assert (Hk1 : in_block (P ++ [true]) k1).
    { destruct Hb1 as [_ Hb1]. rewrite list.Forall_forall in Hb1. apply Hb1.
      by apply head_Some_elem_of. }
    apply (loop_spec_two_sides skip P d ks k0 k1); auto.
    + rewrite <-(Hlen false). apply trie_at_not_terminator; [done|]. by intros Hnil; rewrite Hnil in E0.
    + eapply IH; [|reflexivity|..]; rewrite ?Hlen; try lia; try done.
      * by intros Hnil; rewrite Hnil in E0.
      * intros kv Hkv. apply H1. rewrite Hsplit. by rewrite head_app, Hkv.
      * intros kv Hkv. rewrite E0 in Hkv. injection Hkv as <-. simpl.
        rewrite (common_after_prefix_diverge _ P true) by (done || lia).
        simpl. do 2 f_equal. lia.
      * destruct m1; simpl in *; lia.
      * destruct m1; simpl in *; lia.
    + intros n0. eapply IH; [|reflexivity|..]; rewrite ?Hlen; try lia; try done.
      * by intros Hnil; rewrite Hnil in E1.
      * intros kv Hkv. rewrite E1 in Hkv. injection Hkv as <-. simpl.
        rewrite (common_after_prefix_diverge _ P false) by (done || lia).
        simpl. do 2 f_equal. lia.
      * intros kv Hkv. apply H2. rewrite Hsplit. by rewrite last_app, Hkv.
      * destruct m2; simpl in *; lia.
      * destruct m2; simpl in *; lia.
      * constructor; [simpl; lia|done].
  - apply head_None in E1.
    assert (Hs : side false (length P) ks = ks)
      by (rewrite E1, app_nil_r in Hsplit; by symmetry).
    apply (loop_spec_one_side false); auto.
    eapply IH; [|reflexivity|..]; rewrite ?Hlen; try lia; try done.
    by rewrite Hs in Hb0.
  - apply last_None in E0.
    assert (Hs : side true (length P) ks = ks)
      by (rewrite E0 in Hsplit; by symmetry).
    apply (loop_spec_one_side true); auto.
    eapply IH; [|reflexivity|..]; rewrite ?Hlen; try lia; try done.
    by rewrite Hs in Hb1.
Qed.
End build_lemmas.

(** ** Correctness of [leaf_ops_spliced] *)

(** The effect of an update on the value of a key: an operation of the list
    decides, the prior leaf otherwise. *)
Definition leaf_value (leaf : option LeafData) (k : KeyPath) : option ValueHash :=
  match leaf with
  | Some d => if bool_decide (key_path d = k) then Some (value_hash d) else None
  | None => None
  end.

Definition leaf_in_block (P : list bool) (leaf : option LeafData) : Prop :=
  match leaf with Some d => in_block P (key_path d, ()) | None => True end.

Lemma key_sorted_search {V} (ops : list (KeyPath * V)) k :
  key_sorted ops → search_sorted (λ x : KeyPath * V, bytes_compare x.1 k) ops.
Proof.
  intros Hs i j x y Hij Hx Hy.
  assert (Hlt : bytes_lt x.1 y.1).
  { revert i j Hij Hx Hy. induction Hs as [|z ops Hs IH Hz]; intros i j Hij Hx Hy; [done|].
    destruct i as [|i], j as [|j]; simplify_eq/=; try lia.
    - eapply (proj1 (list.Forall_forall _ _) Hz), list_elem_of_lookup_2, Hy.
    - eapply IH; [|done..]. lia. }
  split; intros Hc.
  - by apply (transitivity (R := bytes_lt) Hlt).
  - rewrite bytes_compare_antisym in Hc |- *.
    destruct (bytes_compare k x.1) eqn:E; try done.
    by rewrite (transitivity (R := bytes_lt) (x := k) (y := x.1) (z := y.1) E Hlt).
Qed.

Lemma key_sorted_app {V} (o1 o2 : list (KeyPath * V)) :
  key_sorted (o1 ++ o2) ↔
    key_sorted o1 ∧ key_sorted o2 ∧ ∀ x y, x ∈ o1 → y ∈ o2 → bytes_lt x.1 y.1.
Proof.
  unfold key_sorted. induction o1 as [|z o1 IH]; simpl.
  { split; [|tauto]. intros ?. split_and!; [constructor|done|].
    intros x y Hx. by apply elem_of_nil in Hx. }
  split.
  - intros Hs. inversion Hs as [|? ? Hs' Hz]; subst. apply IH in Hs' as (? & ? & Hx).
    rewrite Forall_app in Hz. destruct Hz as [Hz1 Hz2].
    split_and!; [by constructor|done|]. rewrite list.Forall_forall in Hz2. set_solver.
  - intros (Hs1 & Hs2 & Hx). inversion Hs1; subst. constructor.
    + apply IH. split_and!; auto. set_solver.
    + rewrite Forall_app. split; [done|]. rewrite list.Forall_forall. set_solver.
Qed.

Lemma key_sorted_omap {V W} (f : V → option W) (ops : list (KeyPath * V)) :
  key_sorted ops →
  key_sorted (omap (λ '(k, o), (λ value, (k, value)) <$> f o) ops).
Proof.
  unfold key_sorted. induction 1 as [|[k o] ops Hs IH Hx]; [constructor|]. simpl.
  destruct (f o) as [v|]; simpl; [|done]. constructor; [done|].
  apply list.Forall_forall. rewrite list.Forall_forall in Hx. intros [k' v'] Hin.
  apply list_elem_of_omap in Hin as ([k2 o2] & Hin & Heq).
  destruct (f o2); simplify_eq/=. by apply (Hx (k', o2)).
Qed.

(** The list the splice works on: the operations, with the prior leaf in its place
    unless its key is operated on. *)
Definition spliced (leaf : option LeafData) (ops : list (KeyPath * option ValueHash)) :
    list (KeyPath * option ValueHash) :=
  match leaf with
  | None => ops
  | Some d =>
      match binary_search_by (λ x : KeyPath * option ValueHash,
                                bytes_compare x.1 (key_path d)) ops with
      | inl _ => ops
      | inr i => take i ops ++ [(key_path d, Some (value_hash d))] ++ drop i ops
      end
  end.

Lemma leaf_ops_spliced_unfold leaf ops :
  leaf_ops_spliced leaf ops =
    omap (λ '(k, o), (λ value, (k, value)) <$> o) (spliced leaf ops).
Proof.
  unfold leaf_ops_spliced, spliced. destruct leaf as [d|]; simpl; [|done].
  destruct (binary_search_by _ ops); simpl; done.
Qed.

Lemma spliced_block P leaf ops :
  block P ops → leaf_in_block P leaf → block P (spliced leaf ops).
Proof.
  intros [Hs Hb] Hleaf. unfold spliced. destruct leaf as [d|]; [|done].
  pose proof (binary_search_by_spec _ ops (key_sorted_search ops (key_path d) Hs)) as Hbs.
  destruct (binary_search_by _ ops) as [i|i]; [done|].
  destruct Hbs as (Hi & Hlo & Hhi).
  pose proof Hs as Hs'. rewrite <-(take_drop i ops) in Hs'.
  apply key_sorted_app in Hs' as (Hs1 & Hs2 & Hx).
  assert (Hd1 : ∀ x, x ∈ take i ops → bytes_lt x.1 (key_path d)).
  { intros x [j Hj]%list_elem_of_lookup. apply lookup_take_Some in Hj as [Hj ?]. by apply (Hlo j). }
  assert (Hd2 : ∀ x, x ∈ drop i ops → bytes_lt (key_path d) x.1).
  { intros x [j Hj]%list_elem_of_lookup. rewrite lookup_drop in Hj. unfold bytes_lt.
    rewrite bytes_compare_antisym, (Hhi (i + j)); [done|lia|done]. }
  split.
  - apply key_sorted_app. split_and!; [done| |].
    + simpl. constructor; [done|]. by apply list.Forall_forall.
    + intros x y Hx1 Hy1. simpl in Hy1. apply elem_of_cons in Hy1 as [->|Hy1]; auto.
  - rewrite <-(take_drop i ops) in Hb. apply Forall_app in Hb as [Hb1 Hb2].
    apply Forall_app. split; [done|]. constructor; [|done]. apply Hleaf.
Qed.

Lemma assoc_spliced leaf ops k :
  key_sorted ops →
  assoc (spliced leaf ops) k =
    match assoc ops k with
    | Some o => Some o
    | None => match leaf_value leaf k with Some v => Some (Some v) | None => None end
    end.
Proof.
  intros Hs. unfold spliced. destruct leaf as [d|]; simpl; [|by destruct (assoc ops k)].
  pose proof (binary_search_by_spec _ ops (key_sorted_search ops (key_path d) Hs)) as Hbs.
  assert (Hin : ∀ (l : list (KeyPath * option ValueHash)) x, x ∈ l → assoc l x.1 ≠ None).
  { intros l x. induction l as [|[k' v'] l IH]; [by intros ?%elem_of_nil|].
    intros [->|Hx]%elem_of_cons; simpl; case_bool_decide; auto. }
  destruct (binary_search_by _ ops) as [i|i].
  - destruct Hbs as (x & Hx & Hc). apply bytes_compare_eq in Hc.
    case_bool_decide as Hk; [|by destruct (assoc ops k)].
    apply list_elem_of_lookup_2, Hin in Hx. rewrite Hc, Hk in Hx.
    by destruct (assoc ops k).
  - destruct Hbs as (Hi & Hlo & Hhi).
    rewrite <-(take_drop i ops) at 3. rewrite !assoc_app. simpl.
    destruct (assoc (take i ops) k) eqn:E; [done|].
    case_bool_decide as Hk; [|by destruct (assoc (drop i ops) k)]. subst k.
    rewrite (assoc_not_in (drop i ops)); [done|].
    apply list.Forall_forall. intros x [j Hj]%list_elem_of_lookup Heq.
    rewrite lookup_drop in Hj. apply Hhi in Hj; [|lia].
    by rewrite Heq, bytes_compare_refl in Hj.
Qed.

Lemma block_omap {V W} P (f : V → option W) (ops : list (KeyPath * V)) :
  block P ops → block P (omap (λ '(k, o), (λ value, (k, value)) <$> f o) ops).
Proof.
  intros [Hs Hb]. split; [by apply key_sorted_omap|].
  apply list.Forall_forall. rewrite list.Forall_forall in Hb. intros [k v] Hin.
  apply list_elem_of_omap in Hin as ([k2 o2] & Hin & Heq).
  destruct (f o2); simplify_eq/=. by apply (Hb (k, o2)).
Qed.

Lemma assoc_omap {V W} (f : V → option W) (ops : list (KeyPath * V)) k :
  key_sorted ops →
  assoc (omap (λ '(k, o), (λ value, (k, value)) <$> f o) ops) k = assoc ops k ≫= f.
Proof.
  unfold key_sorted. induction 1 as [|[k' o] ops Hs IH Hx]; [done|]. csimpl.
  destruct (f o) as [v|] eqn:E; csimpl.
  - by case_bool_decide.
  - rewrite IH. case_bool_decide as Hk; [|done]. subst k'. simpl.
    rewrite assoc_not_in; [done|]. eapply Forall_impl; [exact Hx|].
    intros y Hy Heq. simpl in Hy. rewrite Heq in Hy. destruct (irreflexivity bytes_lt _ Hy).
Qed.

Lemma leaf_ops_spliced_block P leaf ops :
  block P ops → leaf_in_block P leaf → block P (leaf_ops_spliced leaf ops).
Proof.
  intros Hb Hl. rewrite leaf_ops_spliced_unfold.
  by apply (block_omap P (λ o : option ValueHash, o)), spliced_block.
Qed.

Lemma leaf_ops_spliced_assoc P leaf ops k :
  block P ops → leaf_in_block P leaf →
  assoc (leaf_ops_spliced leaf ops) k =
    match assoc ops k with Some o => o | None => leaf_value leaf k end.
Proof.
  intros Hb Hl. rewrite leaf_ops_spliced_unfold.
  rewrite (assoc_omap (λ o : option ValueHash, o)) by (by destruct (spliced_block P leaf ops)).
  rewrite assoc_spliced by apply Hb.
  destruct (assoc ops k); [done|]. by destruct (leaf_value leaf k).
Qed.

Section build_spec.
Context `{NodeHasher}.

Lemma build_trie_spec (P : list bool) (ops : ops_t) :
  block P ops →
  ∃ ws, build_trie (length P) ops = Some (node_of (trie_at (length P) ops), ws) ∧
    visited P ws = (P, match ops with
                       | [] => [(P, TERMINATOR)]
                       | _ => postorder P (trie_at (length P) ops)
                       end) ∧
    ws = match ops with
         | [] => [WTerminator]
         | _ => commands false [] (trie_at (length P) ops)
         end.
Proof.
  intros Hb. destruct ops as [|[k v] [|y ops]].
  - exists [WTerminator]. rewrite trie_at_nil. simpl. unfold visit. simpl.
    rewrite Nat.sub_0_r, firstn_all, app_nil_r. done.
  - eexists. rewrite trie_at_single. split; [done|]. simpl. unfold visit. simpl.
    rewrite Nat.sub_0_r, firstn_all, app_nil_r. done.
  - destruct (build_loop_block (length P) P 0 ((k, v) :: y :: ops) None None None None [])
      as (ws & Hrun & Hcmd & Hvis); try done; try (simpl; lia); [constructor|].
    rewrite drop_ge in Hrun by (simpl; lia). cbn [rev hash_up end_layer] in Hrun.
    exists ws. cbn [build_trie]. rewrite Hrun. simpl. rewrite app_nil_r.
    split_and!; [done| |].
    + apply Hvis. simpl. by rewrite firstn_all.
    + rewrite Hcmd. simpl default. by rewrite Nat.add_0_r, drop_all.
Qed.

(** ** The theorems *)

(** C5: [build_trie] returns the commitment of the reference trie and visits it
    in post-order.  On pairs in strictly ascending key order that share their
    first [skip] bits, [build_trie] does not panic, its result is the commitment
    of the compact trie the specification assigns to the pairs below that
    prefix, and replaying its commands from the root of the sub-trie visits
    exactly the nodes of that trie, children before parents, ending at the root
    (an empty sub-trie is one visited terminator). *)
Theorem build_trie_correct (P : list bool) (ops : ops_t) :
  block P ops →
  ∃ ws, build_trie (length P) ops = Some (node_of (trie_at (length P) ops), ws) ∧
    visited P ws = (P, match ops with
                       | [] => [(P, TERMINATOR)]
                       | _ => postorder P (trie_at (length P) ops)
                       end).
Proof. intros Hb. destruct (build_trie_spec P ops Hb) as (ws & ? & ? & _). by exists ws. Qed.
End build_spec.

(** C10: [leaf_ops_spliced] combines the operations below a prefix with the leaf
    that was there before.  The result is a well-formed block for [build_trie]: it
    stays sorted, below the prefix, and holds for every key the written value if the
    key is operated on, the prior leaf's value if it is not, and nothing for
    deleted keys. *)
Theorem leaf_ops_spliced_correct P leaf ops :
  block P ops → leaf_in_block P leaf →
  block P (leaf_ops_spliced leaf ops) ∧
  ∀ k, assoc (leaf_ops_spliced leaf ops) k =
         match assoc ops k with Some o => o | None => leaf_value leaf k end.
Proof.
  intros Hb Hl. split; [by apply leaf_ops_spliced_block|].
  intros k. by eapply leaf_ops_spliced_assoc.
Qed.

Definition sample_ops : ops_t :=
  [(toy_key x10, toy_key x01); (toy_key x20, toy_key x02); (toy_key x40, toy_key x03);
   (toy_key xa0, toy_key x04); (toy_key xb0, toy_key x05)].

Lemma build_trie_correct_witness :
  block [] sample_ops ∧
  ∃ ws, build_trie (length (@nil bool)) sample_ops =
          Some (node_of (trie_at (length (@nil bool)) sample_ops), ws).
Proof.
  assert (Hb : block [] sample_ops) by by_compute.
  split; [exact Hb|].
  destruct (build_trie_correct [] sample_ops Hb) as (ws & Hrun & _).
  exists ws. exact Hrun.
Defined.

Definition sample_leaf : option LeafData :=
  Some {| key_path := toy_key x30; value_hash := toy_key x0a |}.
Definition sample_changes : list (KeyPath * option ValueHash) :=
  [(toy_key x10, Some (toy_key x01)); (toy_key x20, None); (toy_key x3f, Some (toy_key x02))].

Lemma leaf_ops_spliced_correct_witness :
  block [false; false] (leaf_ops_spliced sample_leaf sample_changes) ∧
  assoc (leaf_ops_spliced sample_leaf sample_changes) (toy_key x30) = Some (toy_key x0a).
Proof.
  assert (Hb : block [false; false] sample_changes) by by_compute.
  assert (Hl : leaf_in_block [false; false] sample_leaf) by by_compute.
  destruct (leaf_ops_spliced_correct _ _ _ Hb Hl) as [H1 H2].
  split; [exact H1|]. rewrite H2. by_compute.
Defined.
