(* ===== verification/TrieSpec.v ===== *)
(** * Paths in tries and updates of key-value sets

    The part of the specification the proof components share: descending a trie
    along a path while collecting siblings, the pairs below a prefix, and the effect
    of a list of operations on a set of pairs. *)

From S2P Require Import Prelude Trie Update.

(** ** Descending *)

Section descend.
Context `{NodeHasher}.

(** The sub-trie at the end of a path, with the siblings met on the way, the
    topmost first. *)
Fixpoint descend (t : trie) (p : list bool) {struct p} : option (trie * list Node) :=
  match p with
  | [] => Some (t, [])
  | b :: p' =>
      match t with
      | TInternal l r =>
          let? (t', ss) := descend (if b then r else l) p' in
          Some (t', node_of (if b then l else r) :: ss)
      | _ => None
      end
  end.

Definition terminal_trie (leaf : option LeafData) : trie :=
  match leaf with Some d => TLeaf d | None => TTerminator end.

(** The path of a key down to its terminal, with the siblings along it. *)
Fixpoint path_to (t : trie) (bits : list bool) {struct bits} :
    list bool * option LeafData * list Node :=
  match t, bits with
  | TInternal l r, b :: bits' =>
      let '(p, leaf, ss) := path_to (if b then r else l) bits' in
      (b :: p, leaf, node_of (if b then l else r) :: ss)
  | TLeaf d, _ => ([], Some d, [])
  | _, _ => ([], None, [])
  end.

Lemma descend_walk t p t' ss s :
  descend t p = Some (t', ss) → trie_walk t (p ++ s) = trie_walk t' s.
Proof.
  revert t ss. induction p as [|b p IH]; intros t ss Hd; simpl in *; [by simplify_eq|].
  destruct t as [| |l r]; try done.
  destruct (descend (if b then r else l) p) as [[t2 ss2]|] eqn:E; simplify_eq/=.
  destruct b; eauto.
Qed.

Lemma descend_length t p t' ss : descend t p = Some (t', ss) → length ss = length p.
Proof.
  revert t ss. induction p as [|b p IH]; intros t ss Hd; simpl in *; [by simplify_eq|].
  destruct t as [| |l r]; try done.
  destruct (descend (if b then r else l) p) as [[t2 ss2]|] eqn:E; simplify_eq/=. f_equal. eauto.
Qed.

Lemma descend_app t p q t' ss :
  descend t p = Some (t', ss) →
  descend t (p ++ q) = (let? (t'', ss') := descend t' q in Some (t'', ss ++ ss')).
Proof.
  revert t ss. induction p as [|b p IH]; intros t ss Hd; simpl in *.
  { simplify_eq/=. by destruct (descend t' q) as [[]|]. }
  destruct t as [| |l r]; try done.
  destruct (descend (if b then r else l) p) as [[t2 ss2]|] eqn:E; simplify_eq/=.
  rewrite (IH _ _ E). by destruct (descend t' q) as [[]|].
Qed.

(** Two paths of a trie that end in terminals are not prefixes of one another. *)
Lemma descend_terminal_prefix t p q leaf ss x :
  descend t p = Some (terminal_trie leaf, ss) → descend t (p ++ q) = Some x → q = [].
Proof.
  revert t ss x. induction p as [|b p IH]; intros t ss x Hp Hq; simpl in *.
  - simplify_eq. destruct q as [|b q]; [done|]. simpl in Hq. by destruct leaf.
  - destruct t as [| |l r]; try done.
    destruct (descend (if b then r else l) p) as [[t2 ss2]|] eqn:E; simplify_eq/=.
    destruct (descend (if b then r else l) (p ++ q)) eqn:E2; simplify_eq/=. eauto.
Qed.
End descend.

(** ** The pairs below a prefix *)

Definition under {V} (P : list bool) (kvs : list (KeyPath * V)) : list (KeyPath * V) :=
  filter (λ kv, P `prefix_of` view_bits kv.1) kvs.

Lemma under_block {V} P (kvs : list (KeyPath * V)) : block [] kvs → block P (under P kvs).
Proof.
  intros [Hs Hb]. split; [by apply key_sorted_filter|].
  apply list.Forall_forall. intros kv [Hp Hin]%list_elem_of_filter.
  rewrite list.Forall_forall in Hb. split; [by apply Hb|done].
Qed.

Lemma under_nil (kvs : ops_t) : under [] kvs = kvs.
Proof. apply filter_all, list.Forall_forall. intros kv _. apply prefix_nil. Qed.

Lemma filter_filter_and {A} (P Q : A → Prop) `{∀ x, Decision (P x), ∀ x, Decision (Q x)} (l : list A) :
  filter P (filter Q l) = filter (λ x, P x ∧ Q x) l.
Proof.
  induction l as [|x l IH]; [done|]. rewrite !filter_cons.
  repeat case_decide; rewrite ?filter_cons; repeat case_decide; naive_solver congruence.
Qed.

Lemma side_under P b (kvs : ops_t) :
  block [] kvs → length P < 256 →
  side b (length P) (under P kvs) = under (P ++ [b]) kvs.
Proof.
  intros [_ Hb] HP. unfold side, under. rewrite filter_filter_and.
  apply filter_ext_in, list.Forall_forall. intros kv Hkv. rewrite list.Forall_forall in Hb.
  destruct (Hb _ Hkv) as [Hl _].
  pose proof (in_block_snoc P b kv HP) as Hiff. unfold in_block in Hiff. naive_solver.
Qed.

(** The trie of a set at a prefix, one level at a time. *)
Lemma trie_at_under P (kvs : ops_t) :
  block [] kvs → length P < 256 →
  trie_at (length P) (under P kvs) =
    compact (trie_at (S (length P)) (under (P ++ [false]) kvs))
            (trie_at (S (length P)) (under (P ++ [true]) kvs)).
Proof.
  intros Hb HP. rewrite (trie_at_compact P) by (by try apply under_block).
  by rewrite !side_under.
Qed.

Lemma assoc_filter {V} (Q : KeyPath → Prop) `{∀ k, Decision (Q k)} (kvs : list (KeyPath * V)) k :
  assoc (filter (λ kv, Q kv.1) kvs) k = if bool_decide (Q k) then assoc kvs k else None.
Proof.
  induction kvs as [|[k' v] kvs IH]; simpl; [by case_bool_decide|].
  rewrite filter_cons. simpl. case_decide; simpl; rewrite IH;
    repeat case_bool_decide; naive_solver.
Qed.

Lemma assoc_under {V} P (kvs : list (KeyPath * V)) k :
  assoc (under P kvs) k = if bool_decide (P `prefix_of` view_bits k) then assoc kvs k else None.
Proof. exact (assoc_filter (λ k, P `prefix_of` view_bits k) kvs k). Qed.

(** ** Sorted lists of pairs are determined by their lookups *)

Lemma assoc_Some_in {V} (kvs : list (KeyPath * V)) k v : assoc kvs k = Some v → (k, v) ∈ kvs.
Proof.
  induction kvs as [|[k' v'] kvs IH]; simpl; [done|].
  case_bool_decide; intros ?; simplify_eq; [apply list_elem_of_here|].
  apply list_elem_of_further. auto.
Qed.

Lemma assoc_in {V} (kvs : list (KeyPath * V)) k v :
  key_sorted kvs → (k, v) ∈ kvs → assoc kvs k = Some v.
Proof.
  unfold key_sorted. induction 1 as [|[k' v'] kvs Hs IH Hx]; [by intros ?%elem_of_nil|].
  intros [Heq|Hin]%elem_of_cons; simpl; simplify_eq.
  - by rewrite bool_decide_eq_true_2.
  - rewrite bool_decide_eq_false_2; [auto|]. intros ->.
    rewrite list.Forall_forall in Hx. apply Hx in Hin. destruct (irreflexivity bytes_lt _ Hin).
Qed.

Lemma block_ext {V} P (l1 l2 : list (KeyPath * V)) :
  block P l1 → block P l2 → (∀ k, length k = 32 → assoc l1 k = assoc l2 k) → l1 = l2.
Proof.
  revert l2. induction l1 as [|[k1 v1] l1 IH]; intros l2 H1 H2 Ha.
  - destruct l2 as [|[k v] l2]; [done|]. apply block_cons in H2 as ([Hl _] & _).
    specialize (Ha k Hl). simpl in Ha. by rewrite bool_decide_eq_true_2 in Ha.
  - destruct l2 as [|[k2 v2] l2].
    { apply block_cons in H1 as ([Hl _] & _).
      specialize (Ha k1 Hl). simpl in Ha. by rewrite bool_decide_eq_true_2 in Ha. }
    pose proof H1 as ([Hl1 _] & Hlt1 & Hb1)%block_cons.
    pose proof H2 as ([Hl2 _] & Hlt2 & Hb2)%block_cons.
    simpl in Hl1, Hl2. rewrite list.Forall_forall in Hlt1, Hlt2.
    assert (k1 = k2) as <-.
    { pose proof (Ha k1 Hl1) as E1. simpl in E1. rewrite bool_decide_eq_true_2 in E1 by done.
      case_bool_decide as Hk; [done|]. symmetry in E1. apply assoc_Some_in, Hlt2 in E1.
      pose proof (Ha k2 Hl2) as E2. simpl in E2.
      rewrite (bool_decide_eq_true_2 (k2 = k2)) in E2 by done.
      case_bool_decide as Hk'; [done|]. apply assoc_Some_in, Hlt1 in E2.
      simpl in *. destruct (irreflexivity bytes_lt _ (transitivity E1 E2)). }
    assert (v1 = v2) as <-.
    { specialize (Ha k1 Hl1). simpl in Ha. rewrite bool_decide_eq_true_2 in Ha by done. congruence. }
    f_equal. apply IH; [done|done|]. intros k Hk. specialize (Ha k Hk). simpl in Ha.
    case_bool_decide; [|done]. subst k.
    rewrite !assoc_not_in; [done|..]; apply list.Forall_forall; intros y Hy Heq.
    + apply Hlt2 in Hy. simpl in Hy. rewrite Heq in Hy. destruct (irreflexivity bytes_lt _ Hy).
    + apply Hlt1 in Hy. simpl in Hy. rewrite Heq in Hy. destruct (irreflexivity bytes_lt _ Hy).
Qed.

(** ** Updating a set of pairs *)

(** Write or delete one key. *)
Fixpoint set_key (kvs : ops_t) (k : KeyPath) (o : option ValueHash) : ops_t :=
  match kvs with
  | [] => (λ v, (k, v)) <$> option_list o
  | (k', v') :: kvs' =>
      match bytes_compare k' k with
      | Lt => (k', v') :: set_key kvs' k o
      | Eq => ((λ v, (k, v)) <$> option_list o) ++ kvs'
      | Gt => ((λ v, (k, v)) <$> option_list o) ++ kvs
      end
  end.

Definition apply_ops (kvs : ops_t) (ops : list (KeyPath * option ValueHash)) : ops_t :=
  foldl (λ kvs '(k, o), set_key kvs k o) kvs ops.

Lemma set_key_lower kvs k o k0 :
  Forall (λ y, bytes_lt k0 y.1) kvs → bytes_lt k0 k →
  Forall (λ y : KeyPath * ValueHash, bytes_lt k0 y.1) (set_key kvs k o).
Proof.
  intros Hf Hk. induction Hf as [|[k' v'] kvs Hx Hf IH]; simpl.
  { destruct o; simpl; repeat constructor; done. }
  destruct (bytes_compare k' k); [..|by constructor|]; destruct o; simpl; repeat constructor; done.
Qed.

Lemma set_key_block kvs k o : block [] kvs → length k = 32 → block [] (set_key kvs k o).
Proof.
  intros Hb Hk.
  assert (Hnew : ∀ rest : ops_t, block [] rest → Forall (λ y, bytes_lt k y.1) rest →
            block [] (((λ v, (k, v)) <$> option_list o) ++ rest)).
  { intros rest Hr Hlt. destruct o; simpl; [|done]. apply block_cons.
    split_and!; auto. split; [done|apply prefix_nil]. }
  induction kvs as [|[k' v'] kvs IH]; simpl.
  { specialize (Hnew []). rewrite app_nil_r in Hnew. apply Hnew; [|constructor]. split; constructor. }
  pose proof Hb as (Hin & Hlt & Hb')%block_cons.
  destruct (bytes_compare k' k) eqn:E.
  - apply bytes_compare_eq in E. subst. auto.
  - apply block_cons. split_and!; auto. by apply set_key_lower.
  - apply Hnew; [done|].
    assert (Hkk : bytes_lt k k') by (unfold bytes_lt; by rewrite bytes_compare_antisym, E).
    constructor; [done|]. eapply Forall_impl; [exact Hlt|].
    intros y Hy. by eapply (transitivity (R := bytes_lt)).
Qed.

Lemma assoc_set_key kvs k o k0 :
  block [] kvs →
  assoc (set_key kvs k o) k0 = if bool_decide (k = k0) then o else assoc kvs k0.
Proof.
  assert (Hnew : ∀ rest, assoc (((λ v, (k, v)) <$> option_list o) ++ rest) k0 =
    if bool_decide (k = k0) then (match o with Some v => Some v | None => assoc rest k0 end)
    else assoc rest k0).
  { intros rest. destruct o; simpl; case_bool_decide; done. }
  assert (Hno : ∀ rest : ops_t, Forall (λ y, bytes_lt k y.1) rest → assoc rest k = None).
  { intros rest Hf. apply assoc_not_in. eapply Forall_impl; [exact Hf|].
    intros y Hy <-. destruct (irreflexivity bytes_lt _ Hy). }
  induction kvs as [|[k' v'] kvs IH]; intros Hb; simpl.
  { specialize (Hnew []). rewrite app_nil_r in Hnew. rewrite Hnew.
    case_bool_decide; [by destruct o|done]. }
  pose proof Hb as (Hin & Hlt & Hb')%block_cons.
  destruct (bytes_compare k' k) eqn:E.
  - apply bytes_compare_eq in E. subst k'. rewrite Hnew. case_bool_decide; [|done].
    subst. rewrite Hno by done. by destruct o.
  - simpl. rewrite IH by done. repeat case_bool_decide; subst; try done.
    rewrite bytes_compare_refl in E. done.
  - rewrite Hnew. case_bool_decide; [|done]. subst.
    rewrite Hno; [by destruct o|].
    assert (Hkk : bytes_lt k0 k') by (unfold bytes_lt; by rewrite bytes_compare_antisym, E).
    constructor; [done|]. eapply Forall_impl; [exact Hlt|].
    intros y Hy. by eapply (transitivity (R := bytes_lt)).
Qed.

Lemma apply_ops_block kvs ops :
  block [] kvs → Forall (λ op, length op.1 = 32) ops → block [] (apply_ops kvs ops).
Proof.
  intros Hb Hf. revert kvs Hb. induction Hf as [|[k o] ops Hk Hf IH]; intros kvs Hb; [done|].
  simpl. apply IH. by apply set_key_block.
Qed.

Lemma assoc_rev {V} (ops : list (KeyPath * V)) k :
  key_sorted ops → assoc (rev ops) k = assoc ops k.
Proof.
  unfold key_sorted. induction 1 as [|[k' v] ops Hs IH Hx]; [done|]. simpl.
  rewrite assoc_app, IH. simpl. case_bool_decide as Hk; [|by destruct (assoc ops k)]. subst k'.
  rewrite assoc_not_in; [done|]. eapply Forall_impl; [exact Hx|].
  intros y Hy Heq. simpl in Hy. rewrite Heq in Hy. destruct (irreflexivity bytes_lt _ Hy).
Qed.

(** The operations decide, the last one on a key first. *)
Lemma assoc_apply_ops kvs ops k :
  block [] kvs → Forall (λ op, length op.1 = 32) ops →
  assoc (apply_ops kvs ops) k =
    match assoc (rev ops) k with Some o => o | None => assoc kvs k end.
Proof.
  intros Hb Hf. revert kvs Hb. induction Hf as [|[k' o] ops Hk Hf IH]; intros kvs Hb; [done|].
  simpl. rewrite IH by (by apply set_key_block). rewrite assoc_set_key by done.
  rewrite assoc_app. destruct (assoc (rev ops) k); [done|]. simpl. by case_bool_decide.
Qed.

(** ** Descending the trie of a set *)

Definition leaf_pairs (leaf : option LeafData) : ops_t :=
  match leaf with Some d => [(key_path d, value_hash d)] | None => [] end.

Lemma trie_at_terminal P ops leaf :
  block P ops → trie_at (length P) ops = terminal_trie leaf → ops = leaf_pairs leaf.
Proof.
  intros Hb Ht. destruct ops as [|[k v] [|y ops]].
  - rewrite trie_at_nil in Ht. by destruct leaf.
  - rewrite trie_at_single in Ht. destruct leaf; by simplify_eq/=.
  - rewrite trie_at_many in Ht; [by destruct leaf|simpl; lia|].
    eapply block_many_depth; [exact Hb|simpl; lia].
Qed.

Section descend_under.
Context `{NodeHasher} (kvs : ops_t) (Hkvs : block [] kvs).

Lemma descend_depth_fuel fuel d ops p x : descend (trie_of fuel d ops) p = Some x → length p ≤ fuel.
Proof.
  revert d ops p x. induction fuel as [|fuel IH]; intros d ops [|b p] x Hd; simpl in *; try lia;
    destruct ops as [|[k v] [|y ops]]; try done.
  destruct (descend (if b then _ else _) p) as [[t2 ss2]|] eqn:E; [|done].
  assert (length p ≤ fuel); [|lia]. destruct b; eauto.
Qed.

Lemma descend_depth d ops p x : descend (trie_at d ops) p = Some x → length p ≤ 256 - d.
Proof. unfold trie_at. apply descend_depth_fuel. Qed.

(** The two sub-tries of an internal node. *)
Lemma trie_at_under_internal P l r :
  trie_at (length P) (under P kvs) = TInternal l r →
  length P < 256 ∧ ∀ b, (if b : bool then r else l) =
    trie_at (length (P ++ [b])) (under (P ++ [b]) kvs).
Proof.
  intros Ht. pose proof (under_block P _ Hkvs) as Hb.
  assert (2 ≤ length (under P kvs)) as Hl.
  { destruct (under P kvs) as [|[k v] [|y ops]]; simpl; try lia.
    - by rewrite trie_at_nil in Ht.
    - by rewrite trie_at_single in Ht. }
  pose proof (block_many_depth _ _ Hb Hl) as HP. split; [done|].
  rewrite trie_at_many, !side_under in Ht by done. intros b. rewrite length_snoc.
  destruct b; by simplify_eq.
Qed.

Lemma descend_under P p t' ss :
  descend (trie_at (length P) (under P kvs)) p = Some (t', ss) →
  t' = trie_at (length (P ++ p)) (under (P ++ p) kvs).
Proof.
  revert P ss. induction p as [|b p IH]; intros P ss Hd; simpl in Hd.
  - rewrite app_nil_r. by simplify_eq.
  - destruct (trie_at (length P) (under P kvs)) as [| |l r] eqn:E; try done.
    destruct (trie_at_under_internal _ _ _ E) as [HP Hsub].
    rewrite (Hsub b) in Hd.
    destruct (descend _ p) as [[t2 ss2]|] eqn:E2; simplify_eq/=.
    rewrite cons_middle, app_assoc. by eapply IH.
Qed.

Lemma descend_terminal_under p leaf ss :
  descend (trie_at 0 kvs) p = Some (terminal_trie leaf, ss) →
  length p ≤ 256 ∧ under p kvs = leaf_pairs leaf.
Proof.
  intros Hd. split; [by apply (descend_depth 0) in Hd|].
  pose proof (descend_under [] p (terminal_trie leaf) ss) as Hu.
  rewrite under_nil in Hu. cbn [length app] in Hu. specialize (Hu Hd).
  eapply trie_at_terminal; [by apply under_block|]. by symmetry.
Qed.

Lemma leaf_pairs_in_block p leaf ss :
  descend (trie_at 0 kvs) p = Some (terminal_trie leaf, ss) → leaf_in_block p leaf.
Proof.
  intros [_ Hu]%descend_terminal_under. pose proof (under_block p _ Hkvs) as [_ Hb].
  rewrite Hu in Hb. destruct leaf; [|done]. by apply list.Forall_cons in Hb as [Hb _].
Qed.

(** The truth about a key below a terminal is the terminal. *)
Lemma descend_terminal_assoc p leaf ss k :
  descend (trie_at 0 kvs) p = Some (terminal_trie leaf, ss) →
  p `prefix_of` view_bits k → assoc kvs k = leaf_value leaf k.
Proof.
  intros [_ Hu]%descend_terminal_under Hp. pose proof (assoc_under p kvs k) as Ha.
  rewrite bool_decide_eq_true_2 in Ha by done. rewrite <-Ha, Hu. by destruct leaf.
Qed.
End descend_under.
