(* ===== verification/TriePos.v ===== *)
(** * Positions in the paged trie

    Models [core/src/trie_pos.rs]: a position is a bit path of up to 256 bits
    together with the index of its node in the page that stores it.  The
    representation invariant ties the cached index to the path; every movement
    preserves it, and the page a position reports is the one the iterator of
    [PageId.v] reaches along the same bits. *)

From S2P Require Import Prelude Trie PageId Update.

Open Scope nat_scope.

(** The bits of [path] after [depth] are irrelevant. *)
Record TriePosition := mk_pos {
  pos_path : list u8;
  pos_depth : nat;
  node_index : nat;
}.

#[global] Instance TriePosition_eq_dec : EqDecision TriePosition.
Proof. solve_decision. Defined.

(** [new] *)
Definition new : TriePosition := mk_pos (replicate 32 x00) 0 0.

(** [last_page_path]: panics at depth 0. *)
Definition last_page_path (path : list u8) (depth : nat) : option (list bool) :=
  if depth =? 0 then None
  else
    let prev_page_end := ((depth - 1) / DEPTH) * DEPTH in
    slice (view_bits path) prev_page_end depth.

(** [node_index] *)
Definition path_node_index (page_path : list bool) : nat :=
  let depth := DEPTH `min` length page_path in
  if depth =? 0 then 0
  else 2 ^ depth - 2 + load_be (take depth page_path).

(** [bottom_node_index]: [node_index as u8 - 62], a panic below 62. *)
Definition bottom_node_index (node_index : nat) : option nat :=
  let n := node_index mod 256 in
  if n <? 62 then None else Some (n - 62).

Definition sibling_node_index (node_index : nat) : nat :=
  if node_index mod 2 =? 0 then node_index + 1 else node_index - 1.

(** [parent_node_index]: a panic for the two nodes of the first layer. *)
Definition parent_node_index (node_index : nat) : option nat :=
  if node_index <? 2 then None else Some ((node_index - 2) / 2).

Definition from_path_and_depth (path : KeyPath) (depth : nat) : option TriePosition :=
  let? _ := oassert (negb (depth =? 0)) in
  let? _ := oassert (depth <=? 256) in
  let? page_path := last_page_path path depth in
  Some (mk_pos path depth (path_node_index page_path)).

Definition from_bitslice (slice : list bool) : option TriePosition :=
  let? _ := oassert (length slice <=? 256) in
  let path := bytes_of_bits 32 (slice ++ drop (length slice) (view_bits (replicate 32 x00))) in
  from_path_and_depth path (length slice).

Definition is_root (p : TriePosition) : bool := pos_depth p =? 0.

(** [depth], [raw_path] are the projections; [path] is the relevant bits. *)
Definition path (p : TriePosition) : list bool := take (pos_depth p) (view_bits (pos_path p)).

(** [PartialEq for TriePosition] *)
Definition pos_eqb (p q : TriePosition) : bool := bool_decide (path p = path q).

Definition depth_in_page (p : TriePosition) : nat :=
  if pos_depth p =? 0 then 0
  else pos_depth p - ((pos_depth p - 1) / DEPTH) * DEPTH.

(** [ChildNodeIndices]: the index of the left child. *)
Definition child_left (left : nat) : nat := left.
Definition child_right (left : nat) : nat := left + 1.
Definition in_next_page (left : nat) : bool := left =? 0.

Definition child_node_indices (p : TriePosition) : option nat :=
  let depth := depth_in_page p in
  if (depth =? 0) || (DEPTH - 1 <? depth) then None
  else Some (node_index p * 2 + 2).

Definition down (bit : bool) (p : TriePosition) : option TriePosition :=
  let? _ := oassert (negb (pos_depth p =? 256)) in
  let? node_index :=
    if pos_depth p mod DEPTH =? 0 then Some (if bit then 1 else 0)
    else
      let? children := child_node_indices p in
      Some (if bit then child_right children else child_left children) in
  Some (mk_pos (set_bit (pos_path p) (pos_depth p) bit) (pos_depth p + 1) node_index).

(** [for _ in 0..d { node_index = parent_node_index(node_index) }] *)
Fixpoint parents (d : nat) (node_index : nat) : option nat :=
  match d with
  | 0 => Some node_index
  | S d' => let? i := parent_node_index node_index in parents d' i
  end.

Definition up (d : nat) (p : TriePosition) : option TriePosition :=
  let prev_depth := pos_depth p in
  if prev_depth <? d then None
  else
    let new_depth := prev_depth - d in
    if new_depth =? 0 then Some new
    else
      let prev_page_depth := (prev_depth + DEPTH - 1) / DEPTH in
      let new_page_depth := (new_depth + DEPTH - 1) / DEPTH in
      if prev_page_depth =? new_page_depth then
        let? i := parents d (node_index p) in
        Some (mk_pos (pos_path p) new_depth i)
      else
        let? page_path := last_page_path (pos_path p) new_depth in
        Some (mk_pos (pos_path p) new_depth (path_node_index page_path)).

Definition sibling (p : TriePosition) : option TriePosition :=
  let? _ := oassert (negb (pos_depth p =? 0)) in
  let i := pos_depth p - 1 in
  let? b := view_bits (pos_path p) !! i in
  Some (mk_pos (set_bit (pos_path p) i (negb b)) (pos_depth p) (sibling_node_index (node_index p))).

Definition peek_last_bit (p : TriePosition) : option bool :=
  let? _ := oassert (negb (pos_depth p =? 0)) in
  view_bits (pos_path p) !! (pos_depth p - 1).

(** The loop of [page_id] over the chunks of six bits: [inl] is the early return. *)
Fixpoint page_id_loop (fuel i : nat) (bits : list bool) (depth : nat) (page : PageId) :
    option PageId :=
  match fuel with
  | 0 => Some page
  | S fuel' =>
      if length bits <? DEPTH then Some page
      else if (i + 1) * DEPTH =? depth then Some page
      else
        let? child_index := ChildPageIndex_new (Z.of_nat (load_be (take DEPTH bits))) in
        match child_page_id page child_index with
        | Ok page' => page_id_loop fuel' (i + 1) (drop DEPTH bits) depth page'
        | _ => None
        end
  end.

(** The outer option is the panic, the inner one is the root's [None]. *)
Definition page_id (p : TriePosition) : option (option PageId) :=
  if is_root p then Some None
  else
    let? page := page_id_loop (pos_depth p) 0 (path p) (pos_depth p) ROOT_PAGE_ID in
    Some (Some page).

Definition child_page_index (p : TriePosition) : option Z :=
  let? _ := oassert (62 <=? node_index p) in
  let? n := bottom_node_index (node_index p) in
  ChildPageIndex_new (Z.of_nat n).

Definition sibling_child_page_index (p : TriePosition) : option Z :=
  let? n := bottom_node_index (sibling_node_index (node_index p)) in
  ChildPageIndex_new (Z.of_nat n).

Definition sibling_index (p : TriePosition) : nat := sibling_node_index (node_index p).

(** [self.node_index & !1 == 0] *)
Definition is_first_layer_in_page (p : TriePosition) : bool :=
  (Z.land (Z.of_nat (node_index p)) (Z.lnot 1) =? 0)%Z.

Definition shared_depth (p q : TriePosition) : nat := shared_bits (path p) (path q).

(** [starts_with] *)
Definition subtrie_contains (p : TriePosition) (k : KeyPath) : bool :=
  bool_decide (path p `prefix_of` view_bits k).

(** ** The representation invariant

    The bits of a path in its last page, and the index of its node there; the cached
    index of a position is the one its path determines. *)

Definition page_suffix (bits : list bool) : list bool :=
  drop (((length bits - 1) / DEPTH) * DEPTH) bits.

Definition index_of_path (bits : list bool) : nat :=
  match bits with [] => 0 | _ => path_node_index (page_suffix bits) end.

Definition pos_ok (p : TriePosition) : Prop :=
  length (pos_path p) = 32 ∧ pos_depth p ≤ 256 ∧ node_index p = index_of_path (path p).

(** ** Bits and node indices *)

Lemma load_be_snoc bits b : load_be (bits ++ [b]) = 2 * load_be bits + (if b then 1 else 0).
Proof. unfold load_be. by rewrite foldl_snoc. Qed.

Lemma load_be_lt bits : load_be bits < 2 ^ length bits.
Proof.
  induction bits as [|b bits IH] using rev_ind; [apply Nat.lt_0_1|].
  rewrite load_be_snoc, length_snoc, Nat.pow_succ_r'. destruct b; lia.
Qed.

Lemma load_be_inj a b : length a = length b → load_be a = load_be b → a = b.
Proof.
  revert b. induction a as [|x a IH] using rev_ind; intros b Hl Heq; [by destruct b|].
  destruct b as [|y b _] using rev_ind; rewrite ?length_snoc in Hl; [done|].
  rewrite !load_be_snoc in Heq.
  assert (x = y ∧ load_be a = load_be b) as [-> ?] by (destruct x, y; lia).
  f_equal. apply IH; [lia|done].
Qed.

Lemma path_node_index_eq pp :
  1 ≤ length pp ≤ 6 → path_node_index pp = 2 ^ length pp - 2 + load_be pp.
Proof.
  intros Hl. unfold path_node_index, DEPTH. rewrite (Nat.min_r 6) by lia.
  rewrite (proj2 (Nat.eqb_neq _ 0)) by lia. by rewrite firstn_all.
Qed.

Lemma page_suffix_length bits :
  bits ≠ [] → length (page_suffix bits) = length bits - ((length bits - 1) / 6) * 6 ∧
  1 ≤ length (page_suffix bits) ≤ 6.
Proof.
  intros Hne. unfold page_suffix, DEPTH. rewrite length_drop.
  assert (length bits ≠ 0) by (by destruct bits).
  pose proof (Nat.div_mod (length bits - 1) 6 ltac:(lia)).
  pose proof (Nat.mod_upper_bound (length bits - 1) 6 ltac:(lia)). lia.
Qed.

Lemma page_suffix_snoc bits b :
  page_suffix (bits ++ [b]) =
    if length bits mod 6 =? 0 then [b] else page_suffix bits ++ [b].
Proof.
  unfold page_suffix, DEPTH. rewrite length_snoc. cbn [Nat.sub]. rewrite Nat.sub_0_r.
  pose proof (Nat.div_mod (length bits) 6 ltac:(lia)) as Hdm.
  pose proof (Nat.mod_upper_bound (length bits) 6 ltac:(lia)) as Hm.
  destruct (Nat.eqb_spec (length bits mod 6) 0) as [He|He].
  - rewrite drop_app_ge by lia. by replace (_ - _) with 0 by lia.
  - rewrite drop_app_le by lia. do 2 f_equal. f_equal.
    apply (Nat.div_unique _ _ _ (length bits mod 6 - 1)); lia.
Qed.

Lemma index_of_path_snoc bits b :
  index_of_path (bits ++ [b]) =
    (if length bits mod 6 =? 0 then 0 else 2 * index_of_path bits + 2) + (if b then 1 else 0).
Proof.
  assert (Hi : ∀ l, l ≠ [] → index_of_path l = path_node_index (page_suffix l)) by (by intros []).
  rewrite Hi by (by destruct bits). rewrite page_suffix_snoc.
  destruct (Nat.eqb_spec (length bits mod 6) 0) as [He|He]; [by destruct b|].
  assert (Hne : bits ≠ []) by (by intros ->).
  destruct (page_suffix_length bits Hne) as [Hl Hr]. rewrite (Hi bits Hne).
  assert (length (page_suffix bits) ≤ 5).
  { pose proof (Nat.div_mod (length bits) 6 ltac:(lia)).
    pose proof (Nat.mod_upper_bound (length bits) 6 ltac:(lia)).
    assert ((length bits - 1) / 6 = length bits / 6); [|lia].
    symmetry. apply (Nat.div_unique _ _ _ (length bits mod 6 - 1)); lia. }
  rewrite !path_node_index_eq by (rewrite ?length_snoc; lia).
  rewrite length_snoc, load_be_snoc, Nat.pow_succ_r'.
  pose proof (Nat.pow_le_mono_r 2 1 (length (page_suffix bits)) ltac:(lia) ltac:(lia)) as Hp.
  rewrite Nat.pow_1_r in Hp. destruct b; lia.
Qed.

Lemma index_of_path_lt bits : index_of_path bits < NODES_PER_PAGE.
Proof.
  change NODES_PER_PAGE with 126. destruct bits as [|b bits]; [simpl; lia|]. unfold index_of_path.
  destruct (page_suffix_length (b :: bits)) as [_ Hl]; [done|].
  rewrite path_node_index_eq by done. pose proof (load_be_lt (page_suffix (b :: bits))).
  pose proof (Nat.pow_le_mono_r 2 _ 6 ltac:(lia) (proj2 Hl)) as Hp. change (2 ^ 6) with 64 in Hp.
  lia.
Qed.

(** ** Movements *)

Lemma length_path p : pos_ok p → length (path p) = pos_depth p.
Proof. intros (Hl & Hd & _). unfold path. rewrite length_take, length_view_bits. lia. Qed.

Lemma last_page_path_spec bs d :
  length bs = 32 → 0 < d ≤ 256 →
  last_page_path bs d = Some (page_suffix (take d (view_bits bs))).
Proof.
  intros Hl Hd. unfold last_page_path. rewrite (proj2 (Nat.eqb_neq _ 0)) by lia.
  assert (Ht : length (take d (view_bits bs)) = d) by (rewrite length_take, length_view_bits; lia).
  pose proof (Nat.div_mod (d - 1) 6 ltac:(lia)).
  unfold page_suffix, DEPTH. rewrite Ht.
  rewrite slice_Some by (rewrite ?length_view_bits; lia). by rewrite firstn_skipn_comm, Nat.add_sub_assoc,
    Nat.add_comm, Nat.add_sub by lia.
Qed.

Lemma index_suffix bits : bits ≠ [] → index_of_path bits = path_node_index (page_suffix bits).
Proof. by destruct bits. Qed.

Lemma pos_ok_at bs d :
  length bs = 32 → 0 < d ≤ 256 →
  pos_ok (mk_pos bs d (path_node_index (page_suffix (take d (view_bits bs))))).
Proof.
  intros Hl Hd. split_and!; simpl; [done|lia|]. unfold path. simpl.
  rewrite index_suffix; [done|]. intros Hnil%(f_equal length).
  rewrite length_take, length_view_bits in Hnil. simpl in Hnil. lia.
Qed.

Lemma depth_in_page_spec p :
  pos_ok p → pos_depth p ≠ 0 → depth_in_page p = length (page_suffix (path p)).
Proof.
  intros Hp Hd. unfold depth_in_page. rewrite (proj2 (Nat.eqb_neq _ 0)) by done.
  pose proof (length_path p Hp) as Hl.
  destruct (page_suffix_length (path p)) as [-> _]; [|by rewrite Hl].
  intros Hn. rewrite Hn in Hl. simpl in Hl. lia.
Qed.

Lemma path_set_bit p b :
  pos_ok p → pos_depth p < 256 →
  take (pos_depth p + 1) (view_bits (set_bit (pos_path p) (pos_depth p) b)) = path p ++ [b].
Proof.
  intros (Hl & _ & _) Hd. rewrite view_set_bit by lia.
  assert (Hv : length (view_bits (pos_path p)) = 256) by (rewrite length_view_bits; lia).
  rewrite Nat.add_1_r, (take_S_r _ _ b).
  - unfold path. by rewrite take_insert_ge by lia.
  - by rewrite list_lookup_insert_eq by lia.
Qed.

Lemma down_spec b p :
  pos_ok p → pos_depth p < 256 →
  ∃ q, down b p = Some q ∧ pos_ok q ∧ path q = path p ++ [b].
Proof.
  intros Hp Hd. pose proof (length_path p Hp) as Hlp. pose proof Hp as (Hl & _ & Hi).
  assert (Hidx : (if pos_depth p mod DEPTH =? 0 then Some (if b then 1 else 0)
    else let? children := child_node_indices p in
         Some (if b then child_right children else child_left children)) =
    Some (index_of_path (path p ++ [b]))).
  { rewrite index_of_path_snoc, Hlp. unfold DEPTH.
    destruct (Nat.eqb_spec (pos_depth p mod 6) 0) as [He|He]; [by destruct b|].
    assert (pos_depth p ≠ 0) by (by intros E; rewrite E in He).
    unfold child_node_indices. rewrite depth_in_page_spec by done.
    assert (Hne : path p ≠ []) by (intros Hn; rewrite Hn in Hlp; simpl in Hlp; lia).
    destruct (page_suffix_length _ Hne) as [Hs Hr]. rewrite Hlp in Hs.
    assert ((pos_depth p - 1) / 6 = pos_depth p / 6) as Hq.
    { symmetry. apply (Nat.div_unique _ _ _ (pos_depth p mod 6 - 1));
        pose proof (Nat.div_mod (pos_depth p) 6 ltac:(lia));
        pose proof (Nat.mod_upper_bound (pos_depth p) 6 ltac:(lia)); lia. }
    pose proof (Nat.div_mod (pos_depth p) 6 ltac:(lia)).
    pose proof (Nat.mod_upper_bound (pos_depth p) 6 ltac:(lia)).
    rewrite (proj2 (Nat.eqb_neq (length _) 0)), (proj2 (Nat.ltb_ge _ _)) by (unfold DEPTH; lia).
    simpl. rewrite Hi. unfold child_left, child_right. f_equal. destruct b; lia. }
  unfold down. rewrite (proj2 (Nat.eqb_neq _ 256)) by lia. simpl oassert. cbn [mbind option_bind].
  rewrite Hidx. cbn [mbind option_bind].
  eexists. split; [done|]. unfold pos_ok, path. simpl.
  rewrite path_set_bit, length_set_bit by done. split_and!; [done|lia|done..].
Qed.

Lemma parent_index bits b :
  length bits mod 6 ≠ 0 → parent_node_index (index_of_path (bits ++ [b])) = Some (index_of_path bits).
Proof.
  intros Hm. rewrite index_of_path_snoc, (proj2 (Nat.eqb_neq _ 0)) by done.
  unfold parent_node_index. rewrite (proj2 (Nat.ltb_ge _ _)) by lia. f_equal.
  symmetry. apply (Nat.div_unique _ _ _ (if b then 1 else 0)); destruct b; lia.
Qed.

(** Going up inside one page. *)
Lemma parents_index n bits :
  n < length (page_suffix bits) → parents n (index_of_path bits) =
    Some (index_of_path (take (length bits - n) bits)).
Proof.
  revert bits. induction n as [|n IH]; intros bits Hn; simpl.
  { by rewrite Nat.sub_0_r, firstn_all. }
  destruct bits as [|b bits _] using rev_ind; [simpl in Hn; lia|].
  rewrite page_suffix_snoc in Hn. destruct (Nat.eqb_spec (length bits mod 6) 0) as [He|He].
  { simpl in Hn. lia. }
  rewrite length_snoc in Hn |- *. rewrite parent_index by done. simpl.
  rewrite IH by lia. rewrite take_app_le by lia. done.
Qed.

Lemma take_path p n : n ≤ pos_depth p → take n (path p) = take n (view_bits (pos_path p)).
Proof. intros Hn. unfold path. rewrite take_take. f_equal. lia. Qed.

Lemma up_spec n p :
  pos_ok p → n ≤ pos_depth p →
  ∃ q, up n p = Some q ∧ pos_ok q ∧ path q = take (pos_depth p - n) (path p).
Proof.
  intros Hp Hn. pose proof Hp as (Hl & Hd & Hi). pose proof (length_path p Hp) as Hlp.
  unfold up. rewrite (proj2 (Nat.ltb_ge _ _)) by lia.
  destruct (Nat.eqb_spec (pos_depth p - n) 0) as [He|He].
  { exists new. rewrite He. split_and!; [done| |done]. split_and!; [done|simpl; lia|done]. }
  rewrite take_path by lia.
  assert (Hne : path p ≠ []) by (intros Hnil; rewrite Hnil in Hlp; simpl in Hlp; lia).
  destruct (page_suffix_length _ Hne) as [Hs _]. rewrite Hlp in Hs.
  unfold DEPTH.
  destruct (Nat.eqb_spec ((pos_depth p + 6 - 1) / 6) ((pos_depth p - n + 6 - 1) / 6)) as [Hq|Hq].
  - assert (Hin : n < length (page_suffix (path p))).
    { replace (pos_depth p + 6 - 1) with (pos_depth p - 1 + 1 * 6) in Hq by lia.
      replace (pos_depth p - n + 6 - 1) with (pos_depth p - n - 1 + 1 * 6) in Hq by lia.
      rewrite !Nat.div_add in Hq by lia.
      pose proof (Nat.div_mod (pos_depth p - n - 1) 6 ltac:(lia)).
      pose proof (Nat.div_mod (pos_depth p - 1) 6 ltac:(lia)). lia. }
    rewrite Hi, parents_index, Hlp, take_path by (done || lia). simpl. eexists.
    split; [done|]. split; [|done]. split_and!; simpl; [done|lia|done].
  - rewrite last_page_path_spec by (done || lia). simpl. eexists.
    split; [done|]. split; [|done]. apply pos_ok_at; [done|lia].
Qed.

Lemma sibling_index_path l b :
  sibling_node_index (index_of_path (l ++ [b])) = index_of_path (l ++ [negb b]).
Proof.
  rewrite !index_of_path_snoc. unfold sibling_node_index.
  set (base := if length l mod 6 =? 0 then 0 else 2 * index_of_path l + 2).
  assert (Hb : base = 2 * (base / 2)).
  { unfold base. case_match; [done|]. replace (2 * index_of_path l + 2) with ((index_of_path l + 1) * 2) by lia.
    rewrite Nat.div_mul by lia. lia. }
  rewrite Hb. destruct b; simpl negb; cbv iota.
  - rewrite Nat.add_comm, Nat.mul_comm, Nat.Div0.mod_add. simpl. lia.
  - rewrite Nat.add_0_r, Nat.mul_comm, Nat.Div0.mod_mul. simpl. lia.
Qed.

Lemma sibling_spec p l b :
  pos_ok p → path p = l ++ [b] →
  ∃ q, sibling p = Some q ∧ pos_ok q ∧ path q = l ++ [negb b].
Proof.
  intros Hp Hpath. pose proof Hp as (Hl & Hd & Hi). pose proof (length_path p Hp) as Hlp.
  rewrite Hpath, length_snoc in Hlp. unfold sibling.
  rewrite (proj2 (Nat.eqb_neq _ 0)) by lia. simpl oassert. cbn [mbind option_bind].
  assert (Hdl : pos_depth p - 1 = length l) by lia. rewrite Hdl.
  assert (Hb : view_bits (pos_path p) !! length l = Some b).
  { rewrite <-(lookup_take_lt _ (pos_depth p)) by lia. fold (path p). rewrite Hpath.
    by apply list_lookup_middle. }
  rewrite Hb. cbn [mbind option_bind]. eexists. split; [done|].
  assert (Hq : take (pos_depth p) (view_bits (set_bit (pos_path p) (length l) (negb b))) = l ++ [negb b]).
  { assert (Hv : length (view_bits (pos_path p)) = 256) by (rewrite length_view_bits; lia).
    rewrite view_set_bit, <-Hlp by lia. rewrite (take_S_r _ _ (negb b)).
    - rewrite take_insert_ge by lia. f_equal. rewrite <-(take_path p) by lia.
      by rewrite Hpath, take_app_length.
    - by rewrite list_lookup_insert_eq by lia. }
  split; [|done]. split_and!; simpl; [by rewrite length_set_bit|done|].
  unfold path. simpl. by rewrite Hq, Hi, Hpath, sibling_index_path.
Qed.

(** ** Pages *)

Lemma page_id_loop_spec k d fuel i :
  length k = 32 → 6 * i < d ≤ 256 → (d - 1) / 6 < fuel + i →
  page_id_loop fuel i (drop (6 * i) (take d (view_bits k))) d (page_at k i) =
    Some (page_at k ((d - 1) / 6)).
Proof.
  intros Hk. revert i. induction fuel as [|fuel IH]; intros i Hi Hf;
    pose proof (Nat.div_mod (d - 1) 6 ltac:(lia)) as Hdm;
    pose proof (Nat.mod_upper_bound (d - 1) 6 ltac:(lia)) as Hmod; [lia|].
  cbn [page_id_loop]. unfold DEPTH.
  assert (Hl : length (drop (6 * i) (take d (view_bits k))) = d - 6 * i)
    by (rewrite length_drop, length_take, length_view_bits; lia).
  rewrite Hl. destruct (Nat.ltb_spec (d - 6 * i) 6); [do 2 f_equal; lia|].
  destruct (Nat.eqb_spec ((i + 1) * 6) d); [do 2 f_equal; lia|].
  assert (Hs : Z.of_nat (load_be (take 6 (drop (6 * i) (take d (view_bits k))))) = sextet k i).
  { rewrite bits_Z_load_be. unfold sextet. f_equal.
    rewrite skipn_firstn_comm, take_take. f_equal. lia. }
  rewrite Hs. pose proof (sextet_range k i) as Hr. unfold ChildPageIndex_new.
  rewrite (proj2 (Z.ltb_ge _ _)) by (change MAX_CHILD_INDEX with 63%Z; lia).
  cbn [mbind option_bind]. unfold child_page_id, push.
  assert (Hpl : length (PageId.path (page_at k i)) = i) by (simpl; by rewrite length_fmap, length_seq).
  rewrite Hpl, (proj2 (Nat.leb_gt _ _)), (proj2 (Nat.ltb_lt _ _)) by (unfold MAX_PAGE_DEPTH; lia).
  cbn [or_panic obind]. rewrite <-page_at_succ, drop_drop, Nat.add_1_r.
  replace (6 * i + 6) with (6 * S i) by lia. apply IH; lia.
Qed.

Lemma page_id_spec p :
  pos_ok p → pos_depth p ≠ 0 →
  page_id p = Some (Some (page_at (pos_path p) ((pos_depth p - 1) / 6))).
Proof.
  intros (Hl & Hd & _) Hne. unfold page_id, is_root, path.
  rewrite (proj2 (Nat.eqb_neq _ 0)) by done.
  pose proof (page_id_loop_spec (pos_path p) (pos_depth p) (pos_depth p) 0 Hl ltac:(lia)) as Hloop.
  change (page_at (pos_path p) 0) with ROOT_PAGE_ID in Hloop.
  rewrite Nat.mul_0_r, drop_0 in Hloop. rewrite Hloop; [done|].
  pose proof (Nat.div_lt (pos_depth p) 6 ltac:(lia) ltac:(lia)).
  pose proof (Nat.Div0.div_le_mono (pos_depth p - 1) (pos_depth p) 6 ltac:(lia)). lia.
Qed.

(** The path of a position is the bits of its page followed by those of its node. *)
Lemma path_page_suffix p :
  pos_ok p → pos_depth p ≠ 0 →
  path p = page_bits (page_at (pos_path p) ((pos_depth p - 1) / 6)) ++ page_suffix (path p).
Proof.
  intros Hp Hne. pose proof (length_path p Hp) as Hlp. destruct Hp as (Hl & Hd & _).
  pose proof (Nat.div_mod (pos_depth p - 1) 6 ltac:(lia)).
  rewrite page_bits_at by (done || lia). unfold page_suffix, DEPTH. rewrite Hlp.
  rewrite <-(take_path p) by lia. by rewrite Nat.mul_comm, take_drop.
Qed.

Lemma index_of_suffix_inj a b :
  a ≠ [] → b ≠ [] → index_of_path a = index_of_path b → page_suffix a = page_suffix b.
Proof.
  intros Ha Hb. rewrite !index_suffix by done.
  destruct (page_suffix_length a Ha) as [_ Hla], (page_suffix_length b Hb) as [_ Hlb].
  rewrite !path_node_index_eq by done. intros Heq.
  pose proof (load_be_lt (page_suffix a)) as Hba. pose proof (load_be_lt (page_suffix b)) as Hbb.
  set (m := length (page_suffix a)) in *. set (n := length (page_suffix b)) in *.
  assert (2 ≤ 2 ^ m) by (apply (Nat.pow_le_mono_r 2 1); lia).
  assert (2 ≤ 2 ^ n) by (apply (Nat.pow_le_mono_r 2 1); lia).
  assert (m = n) as Hmn.
  { destruct (Nat.lt_trichotomy m n) as [Hlt|[|Hlt]]; [|done|].
    - pose proof (Nat.pow_le_mono_r 2 (S m) n ltac:(lia) Hlt) as Hp. rewrite Nat.pow_succ_r' in Hp. lia.
    - pose proof (Nat.pow_le_mono_r 2 (S n) m ltac:(lia) Hlt) as Hp. rewrite Nat.pow_succ_r' in Hp. lia. }
  rewrite Hmn in *. apply load_be_inj; [done|lia].
Qed.

Lemma page_at_ext k k' i :
  length k = 32 → length k' = 32 → i ≤ 42 →
  take (6 * i) (view_bits k) = take (6 * i) (view_bits k') → page_at k i = page_at k' i.
Proof.
  intros Hk Hk' Hi Ht. apply page_bits_inj; [by apply page_at_valid..| |by rewrite !page_bits_at].
  unfold page_at. cbn [PageId.path]. by rewrite !length_fmap.
Qed.

Lemma down_path_app p q b :
  pos_ok p → pos_depth p < 256 → down b p = Some q → pos_ok q ∧ path q = path p ++ [b].
Proof. intros Hp Hd Hq. destruct (down_spec b p Hp Hd) as (? & ? & ?). by simplify_eq. Qed.

(** At the last layer of a page, the bits of the node are the child index. *)
Lemma child_page_index_spec p :
  pos_ok p → depth_in_page p = 6 →
  ∃ m, pos_depth p = 6 * S m ∧ m < 42 ∧ child_page_index p = Some (sextet (pos_path p) m).
Proof.
  intros Hp H6. pose proof Hp as (Hl & Hd & Hi). pose proof (length_path p Hp) as Hlp.
  assert (Hne : pos_depth p ≠ 0) by (intros E; unfold depth_in_page in H6; by rewrite E in H6).
  assert (Hnil : path p ≠ []) by (intros E; rewrite E in Hlp; simpl in Hlp; lia).
  rewrite depth_in_page_spec in H6 by done.
  destruct (page_suffix_length _ Hnil) as [Hs _]. rewrite Hlp, H6 in Hs.
  exists ((pos_depth p - 1) / 6). split_and!; [lia|lia|].
  assert (Hsuf : Z.of_nat (load_be (page_suffix (path p))) = sextet (pos_path p) ((pos_depth p - 1) / 6)).
  { rewrite bits_Z_load_be. unfold sextet, page_suffix, path, DEPTH. f_equal.
    rewrite length_take, length_view_bits, Hl, Nat.min_l by lia.
    rewrite skipn_firstn_comm. rewrite (Nat.mul_comm 6). f_equal. lia. }
  rewrite (index_suffix _ Hnil), path_node_index_eq, H6 in Hi by lia.
  pose proof (load_be_lt (page_suffix (path p))) as Hb. rewrite H6 in Hb.
  change (2 ^ 6) with 64 in Hi, Hb.
  unfold child_page_index, bottom_node_index. rewrite Hi, (proj2 (Nat.leb_le _ _)) by lia.
  simpl oassert. cbn [mbind option_bind]. rewrite Nat.mod_small by lia.
  rewrite (proj2 (Nat.ltb_ge _ _)) by lia. cbn [mbind option_bind].
  replace (64 - 2 + load_be (page_suffix (path p)) - 62) with (load_be (page_suffix (path p))) by lia.
  rewrite Hsuf. unfold ChildPageIndex_new. pose proof (sextet_range (pos_path p) ((pos_depth p - 1) / 6)).
  by rewrite (proj2 (Z.ltb_ge _ _)) by (change MAX_CHILD_INDEX with 63%Z; lia).
Qed.

(** ** Theorems *)

(** C26: positions move like bit paths and stay well-formed.  From a well-formed
    position above depth 256, [down] appends the bit to the path; [up] by at most the
    depth drops that many bits; [sibling] of a position below the root flips the
    last bit.  None of them panics, and each result again caches the node index its
    path determines, which is below the number of nodes of a page. *)
Theorem moves_correct (p : TriePosition) :
  pos_ok p →
  node_index p < NODES_PER_PAGE ∧
  (∀ b, pos_depth p < 256 → ∃ q, down b p = Some q ∧ pos_ok q ∧ path q = path p ++ [b]) ∧
  (∀ n, n ≤ pos_depth p →
     ∃ q, up n p = Some q ∧ pos_ok q ∧ path q = take (pos_depth p - n) (path p)) ∧
  (∀ l b, path p = l ++ [b] → ∃ q, sibling p = Some q ∧ pos_ok q ∧ path q = l ++ [negb b]).
Proof.
  intros Hp. split_and!.
  - destruct Hp as (_ & _ & ->). apply index_of_path_lt.
  - intros b Hd. by apply down_spec.
  - intros n Hn. by apply up_spec.
  - intros l b Hl. by apply sibling_spec.
Qed.

(** A position reports the page the page iterator reaches along its path.  For
    a well-formed position below the root, [page_id] does not panic and returns the
    valid page at depth [(depth - 1) / 6] of the position's key path, whose bits are
    the position's path without its last, at most six, bits; the root has no page. *)
Theorem page_id_correct (p : TriePosition) :
  pos_ok p →
  (pos_depth p = 0 → page_id p = Some None) ∧
  (pos_depth p ≠ 0 → ∃ page, page_id p = Some (Some page) ∧ valid page ∧
     PageId.depth page = (pos_depth p - 1) / 6 ∧
     path p = page_bits page ++ page_suffix (path p) ∧
     1 ≤ length (page_suffix (path p)) ≤ 6).
Proof.
  intros Hp. split.
  - intros He. unfold page_id, is_root. by rewrite He.
  - intros Hne. eexists. split; [by apply page_id_spec|].
    pose proof (length_path p Hp) as Hlp. pose proof Hp as (Hl & Hd & _).
    pose proof (Nat.div_mod (pos_depth p - 1) 6 ltac:(lia)). split_and!.
    + apply page_at_valid. lia.
    + unfold PageId.depth. simpl. by rewrite length_fmap, length_seq.
    + by apply path_page_suffix.
    + apply page_suffix_length. intros Hn. rewrite Hn in Hlp. simpl in Hlp. lia.
    + apply page_suffix_length. intros Hn. rewrite Hn in Hlp. simpl in Hlp. lia.
Qed.

(** C27: the slot of a node is unique.  Two well-formed positions below the root
    with the same page and the same node index have the same path, so that no two
    trie nodes share a place in the paged storage. *)
Theorem slot_unique (p q : TriePosition) :
  pos_ok p → pos_ok q → pos_depth p ≠ 0 → pos_depth q ≠ 0 →
  page_id p = page_id q → node_index p = node_index q → path p = path q.
Proof.
  intros Hp Hq Hdp Hdq Hpage Hidx. rewrite !page_id_spec in Hpage by done.
  assert (Hne : ∀ r, pos_ok r → pos_depth r ≠ 0 → path r ≠ []).
  { intros r Hr Hd Hn. pose proof (length_path r Hr) as Hlr. rewrite Hn in Hlr. simpl in Hlr. lia. }
  pose proof Hp as (_ & _ & Hip). pose proof Hq as (_ & _ & Hiq). rewrite Hip, Hiq in Hidx.
  apply index_of_suffix_inj in Hidx; [|by apply Hne..].
  rewrite (path_page_suffix p Hp Hdp), (path_page_suffix q Hq Hdq), Hidx. congruence.
Qed.

(** The child page of a bottom-layer node is the page of its children.  For a
    well-formed position at the last layer of its page, [child_page_index] does not
    panic, and the child of the position's page with that index is the page of both
    positions below it. *)
Theorem child_page_correct (p q : TriePosition) (b : bool) :
  pos_ok p → depth_in_page p = 6 → down b p = Some q →
  ∃ i page page', child_page_index p = Some i ∧ page_id p = Some (Some page) ∧
    page_id q = Some (Some page') ∧ child_page_id page i = Ok page'.
Proof.
  intros Hp H6 Hq. destruct (child_page_index_spec p Hp H6) as (m & Hm & Hlt & Hci).
  destruct (down_path_app p q b Hp ltac:(lia) Hq) as [Hqok Hqpath].
  pose proof (length_path q Hqok) as Hlq. rewrite Hqpath, length_snoc, (length_path p Hp) in Hlq.
  pose proof Hp as (Hl & _ & _). pose proof Hqok as (Hl' & Hd' & _).
  exists (sextet (pos_path p) m), (page_at (pos_path p) m), (page_at (pos_path q) (S m)).
  split_and!; [done|..].
  - rewrite page_id_spec by (done || lia). do 3 f_equal.
    symmetry. apply (Nat.div_unique _ _ _ 5); lia.
  - rewrite page_id_spec by (done || lia). do 3 f_equal.
    symmetry. apply (Nat.div_unique _ _ _ 0); lia.
  - rewrite (page_at_ext (pos_path q) (pos_path p) (S m)); [|done|done|lia|].
    + unfold child_page_id, push.
      assert (Hpl : length (PageId.path (page_at (pos_path p) m)) = m)
        by (simpl; by rewrite length_fmap, length_seq).
      rewrite Hpl, (proj2 (Nat.leb_gt _ _)), (proj2 (Nat.ltb_lt _ _)) by (unfold MAX_PAGE_DEPTH; lia).
      cbn [or_panic obind]. by rewrite page_at_succ.
    + rewrite <-Hm, <-(take_path q) by lia.
      rewrite Hqpath, <-(length_path p Hp), take_app_length. unfold path.
      by rewrite length_take, length_view_bits, Nat.min_l by lia.
Qed.

(** ** The theorems at work *)

(** Seven steps down from the root, into a second page. *)
Definition sample_pos : TriePosition :=
  default new (from_path_and_depth (toy_key x5a) 6).
Definition sample_pos_below : TriePosition := default new (down true sample_pos).

#[global] Instance pos_ok_dec p : Decision (pos_ok p).
Proof. unfold pos_ok. apply _. Defined.

Lemma moves_correct_witness :
  ∃ q, down true sample_pos = Some q ∧ pos_ok q ∧ path q = path sample_pos ++ [true].
Proof.
  assert (Hp : pos_ok sample_pos) by by_compute.
  destruct (moves_correct sample_pos Hp) as (_ & Hdown & _).
  apply Hdown. by_compute.
Defined.

Lemma page_id_correct_witness :
  ∃ page, page_id sample_pos_below = Some (Some page) ∧ PageId.depth page = 1.
Proof.
  assert (Hp : pos_ok sample_pos_below) by by_compute.
  assert (Hd : pos_depth sample_pos_below ≠ 0) by by_compute.
  destruct (page_id_correct sample_pos_below Hp) as [_ Hpage].
  destruct (Hpage Hd) as (page & H1 & _ & H2 & _). exists page.
  split; [exact H1|]. rewrite H2. vm_compute. reflexivity.
Defined.

Lemma slot_unique_witness :
  path sample_pos_below = path (default new (from_bitslice (path sample_pos_below))).
Proof.
  assert (Hp : pos_ok sample_pos_below) by by_compute.
  assert (Hq : pos_ok (default new (from_bitslice (path sample_pos_below)))) by by_compute.
  apply (slot_unique _ _ Hp Hq); by_compute.
Defined.

Lemma child_page_correct_witness :
  ∃ i page page', child_page_index sample_pos = Some i ∧ page_id sample_pos = Some (Some page) ∧
    page_id sample_pos_below = Some (Some page') ∧ child_page_id page i = Ok page'.
Proof.
  assert (Hp : pos_ok sample_pos) by by_compute.
  assert (H6 : depth_in_page sample_pos = 6) by by_compute.
  assert (Hd : down true sample_pos = Some sample_pos_below) by by_compute.
  exact (child_page_correct _ _ _ Hp H6 Hd).
Defined.
