(* ===== verification/PathProof.v ===== *)
(** * Path proofs and the verification of updates

    Models [core/src/proof/path_proof.rs].  A path proof is a terminal node with
    the siblings along a path; verifying it hashes up to the root.  Verified proofs
    answer membership queries, and a set of them in order determines the root of
    the trie after an update ([verify_update]).

    The theorems relate all of this to the specification of [Trie.v]: a proof that
    verifies against the commitment of a trie describes a path of that very trie
    (unless two of the finitely many hashed preimages collide), honest proofs
    verify, membership answers are the truth about the key-value set, and the root
    [verify_update] returns is the commitment of the updated set. *)

From S2P Require Import Prelude PageId TriePos Trie Update TrieSpec.

Inductive PathProofTerminal :=
| TermLeaf (d : LeafData)
| TermTerminator (p : TriePosition).

Definition terminal_path (t : PathProofTerminal) : list bool :=
  match t with
  | TermLeaf leaf_data => view_bits (Trie.key_path leaf_data)
  | TermTerminator key_path => TriePos.path key_path
  end.

Definition as_leaf_option (t : PathProofTerminal) : option LeafData :=
  match t with
  | TermLeaf leaf_data => Some leaf_data
  | TermTerminator _ => None
  end.

Record PathProof := { terminal : PathProofTerminal; siblings : list Node }.

Inductive PathProofVerificationError := TooManySiblings | RootMismatch.

Inductive KeyOutOfScope := key_out_of_scope.

Record VerifiedPathProof := {
  vp_key_path : list bool;
  vp_terminal : option LeafData;
  vp_siblings : list Node;
  vp_root : Node;
}.

Inductive VerifyUpdateError :=
| UpdPathsOutOfOrder
| UpdOpsOutOfOrder
| UpdOpOutOfScope
| UpdPathWithoutOps
| UpdRootMismatch.

Record PathUpdate := {
  inner : VerifiedPathProof;
  ops : list (KeyPath * option ValueHash);
}.

Section path_proof.
Context `{NodeHasher}.

Definition terminal_node (t : PathProofTerminal) : Node :=
  match t with
  | TermLeaf leaf_data => hash_leaf leaf_data
  | TermTerminator _ => TERMINATOR
  end.

(** [siblings] in ascending order from the last bit of [path]. *)
Definition hash_path (node : Node) (path : list bool) (siblings : list Node) : Node :=
  foldl (λ node '(bit, sibling),
           hash_internal
             (if (bit : bool) then {| left := sibling; right := node |}
              else {| left := node; right := sibling |}))
        node (zip (rev path) siblings).

Definition verify (self : PathProof) (key_path : list bool) (root : Node) :
    outcome PathProofVerificationError VerifiedPathProof :=
  if length key_path `min` 256 <? length (siblings self) then Err TooManySiblings
  else
    let relevant_path := take (length (siblings self)) key_path in
    let cur_node := terminal_node (terminal self) in
    let new_root := hash_path cur_node relevant_path (rev (siblings self)) in
    if bool_decide (new_root = root) then
      Ok {| vp_key_path := relevant_path;
            vp_terminal := as_leaf_option (terminal self);
            vp_siblings := siblings self;
            vp_root := root |}
    else Err RootMismatch.

Definition in_scope (self : VerifiedPathProof) (key_path : KeyPath) : outcome KeyOutOfScope () :=
  let this_path := vp_key_path self in
  let! other_path := or_panic (slice (view_bits key_path) 0 (length (vp_key_path self))) in
  if bool_decide (this_path = other_path) then Ok () else Err key_out_of_scope.

Definition confirm_value (self : VerifiedPathProof) (expected_leaf : LeafData) :
    outcome KeyOutOfScope bool :=
  let! _ := in_scope self (Trie.key_path expected_leaf) in
  Ok (bool_decide (vp_terminal self = Some expected_leaf)).

Definition confirm_nonexistence (self : VerifiedPathProof) (key_path : KeyPath) :
    outcome KeyOutOfScope bool :=
  let! _ := in_scope self key_path in
  Ok (match vp_terminal self with
      | None => true
      | Some d => bool_decide (Trie.key_path d ≠ key_path)
      end).

(** ** [verify_update] *)

(** The inner loop of the checks, over the operations of one path. *)
Fixpoint check_ops (path : list bool) (prev : option KeyPath)
    (ops : list (KeyPath * option ValueHash)) : outcome VerifyUpdateError () :=
  match ops with
  | [] => Ok ()
  | (key, _) :: ops' =>
      if match prev with Some p => negb (bytes_ltb p key) | None => false end
      then Err UpdOpsOutOfOrder
      else if negb (bool_decide (path `prefix_of` view_bits key)) then Err UpdOpOutOfScope
      else check_ops path (Some key) ops'
  end.

Fixpoint check_paths (prev_root : Node) (prev : option (list bool)) (paths : list PathUpdate) :
    outcome VerifyUpdateError () :=
  match paths with
  | [] => Ok ()
  | path :: paths' =>
      if negb (bool_decide (vp_root (inner path) = prev_root)) then Err UpdRootMismatch
      else if match prev with
              | Some p => negb (bits_ltb p (vp_key_path (inner path)))
              | None => false
              end
      then Err UpdPathsOutOfOrder
      else if bool_decide (ops path = []) then Err UpdPathWithoutOps
      else
        let! _ := check_ops (vp_key_path (inner path)) None (ops path) in
        check_paths prev_root (Some (vp_key_path (inner path))) paths'
  end.

(** Combining a node with its sibling, relocating a lone leaf upwards. *)
Definition compact_node (bit : bool) (cur_node sibling : Node) : Node :=
  match node_kind cur_node, node_kind sibling with
  | Terminator, Terminator => cur_node
  | Leaf, Terminator => cur_node
  | Terminator, Leaf => sibling
  | _, _ =>
      hash_internal
        (if bit then {| left := sibling; right := cur_node |}
         else {| left := cur_node; right := sibling |})
  end.

(** One iteration of the loop over the siblings of a path. *)
Definition compact_up_one (bs : bool * Node) (st : Node * nat * list (Node * nat)) :
    Node * nat * list (Node * nat) :=
  let '(bit, sibling) := bs in
  let '(cur_node, cur_layer, pending_siblings) := st in
  let '(sibling, pending_siblings) :=
    match pending_siblings with
    | (n, l) :: rest => if l =? cur_layer then (n, rest) else (sibling, pending_siblings)
    | [] => (sibling, pending_siblings)
    end in
  (compact_node bit cur_node sibling, cur_layer - 1, pending_siblings).

Definition compact_up (bss : list (bool * Node)) (st : Node * nat * list (Node * nat)) :=
  foldl (λ st bs, compact_up_one bs st) st bss.

(** The body of the loop over the paths; [next] is the following path. *)
Definition update_step (path : PathUpdate) (next : option (list bool))
    (pending_siblings : list (Node * nat)) : option (list (Node * nat)) :=
  let leaf := vp_terminal (inner path) in
  let skip := length (vp_key_path (inner path)) in
  let? up_layers :=
    match next with
    | None => Some skip
    | Some p =>
        let n := shared_bits p (vp_key_path (inner path)) in
        if skip <? n + 1 then None else Some (skip - (n + 1))
    end in
  let ops := leaf_ops_spliced leaf (ops path) in
  let? (sub_root, _) := build_trie skip ops in
  let end_layer := skip - up_layers in
  let '(cur_node, _, pending_siblings) :=
    compact_up (zip (take up_layers (rev (vp_key_path (inner path))))
                    (rev (vp_siblings (inner path))))
               (sub_root, skip, pending_siblings) in
  Some ((cur_node, end_layer) :: pending_siblings).

(** The loop over the paths; [next] is the path that follows them. *)
Fixpoint update_loop (paths : list PathUpdate) (next : option (list bool))
    (pending_siblings : list (Node * nat)) : option (list (Node * nat)) :=
  match paths with
  | [] => Some pending_siblings
  | path :: rest =>
      let n := match rest with [] => next | p :: _ => Some (vp_key_path (inner p)) end in
      let? pending_siblings := update_step path n pending_siblings in
      update_loop rest next pending_siblings
  end.

Definition verify_update (prev_root : Node) (paths : list PathUpdate) :
    outcome VerifyUpdateError Node :=
  if bool_decide (paths = []) then Ok prev_root
  else
    let! _ := check_paths prev_root None paths in
    let! pending_siblings := or_panic (update_loop paths None []) in
    or_panic (fst <$> head pending_siblings).
End path_proof.

(** ** Hashing along a path *)

Section hash_path.
Context `{NodeHasher}.

Lemma collision_free_mono ps qs : qs ⊆ ps → collision_free ps → collision_free qs.
Proof. intros Hsub Hcf x y Hx Hy. apply Hcf; by apply Hsub. Qed.

Definition pair_node (b : bool) (node sibling : Node) : InternalData :=
  if b then {| left := sibling; right := node |} else {| left := node; right := sibling |}.

Lemma hash_path_cons node b p s ss :
  length p = length ss →
  hash_path node (b :: p) (rev ss ++ [s]) =
    hash_internal (pair_node b (hash_path node p (rev ss)) s).
Proof.
  intros Hl. unfold hash_path. simpl.
  rewrite zip_with_app by (by rewrite !length_rev). by rewrite foldl_app.
Qed.

(** The internal nodes a verification hashes, from the top. *)
Fixpoint path_preimages (node : Node) (p : list bool) (ss : list Node) : list preimage :=
  match p, ss with
  | b :: p', s :: ss' =>
      PreInternal (pair_node b (hash_path node p' (rev ss')) s) :: path_preimages node p' ss'
  | _, _ => []
  end.

Lemma hash_path_descend t p t' ss :
  descend t p = Some (t', ss) → hash_path (node_of t') p (rev ss) = node_of t.
Proof.
  revert t ss. induction p as [|b p IH]; intros t ss Hd; simpl in Hd; [by simplify_eq|].
  destruct t as [| |l r]; try done.
  destruct (descend (if b then r else l) p) as [[t2 ss2]|] eqn:E; simplify_eq/=.
  rewrite (hash_path_cons _ b p _ ss2) by (symmetry; by eapply descend_length).
  rewrite (IH _ _ E). by destruct b.
Qed.

Context `{!NodeHasherLaws}.

(** Which trie a node commits to, by its kind. *)
Lemma node_of_terminal t leaf :
  collision_free (preimages t ++ preimages (terminal_trie leaf)) →
  node_of (terminal_trie leaf) = node_of t → t = terminal_trie leaf.
Proof.
  intros Hcf Heq. pose proof (f_equal node_kind Heq) as Hk.
  destruct t as [|d|l r], leaf as [d'|]; simpl in *;
    rewrite ?node_kind_leaf, ?node_kind_internal, ?node_kind_terminator in Hk; try done.
  assert (PreLeaf d = PreLeaf d') as [= ->]; [|done].
  apply Hcf; [set_solver..|done].
Qed.

Lemma hash_path_inv node p ss t :
  length p = length ss →
  collision_free (preimages t ++ path_preimages node p ss) →
  hash_path node p (rev ss) = node_of t →
  ∃ t', descend t p = Some (t', ss) ∧ node_of t' = node ∧ preimages t' ⊆ preimages t.
Proof.
  revert ss t. induction p as [|b p IH]; intros [|s ss] t Hl Hcf Heq; simplify_eq/=; [by eexists|].
  rewrite hash_path_cons in Heq by done.
  pose proof (f_equal node_kind Heq) as Hk. rewrite node_kind_internal in Hk.
  destruct t as [|d|l r]; simpl in Hk;
    rewrite ?node_kind_terminator, ?node_kind_leaf in Hk; try done.
  set (x := hash_path _ p (rev ss)) in *.
  assert (Hp : PreInternal (pair_node b x s) =
               PreInternal {| left := node_of l; right := node_of r |}).
  { apply Hcf; [set_solver..|done]. }
  assert (Hx : x = node_of (if b then r else l) ∧ s = node_of (if b then l else r)).
  { destruct b; simpl in Hp; by simplify_eq. }
  destruct Hx as [Hx ->]. destruct (IH ss (if b then r else l) Hl) as (t' & -> & Hn & Hsub); [|done|].
  - eapply collision_free_mono; [|exact Hcf]. simpl. destruct b; set_solver.
  - exists t'. split_and!; [done|done|]. simpl. destruct b; set_solver.
Qed.

Lemma hash_path_sound leaf p ss t :
  length p = length ss →
  collision_free (preimages t ++ preimages (terminal_trie leaf) ++
                  path_preimages (node_of (terminal_trie leaf)) p ss) →
  hash_path (node_of (terminal_trie leaf)) p (rev ss) = node_of t →
  descend t p = Some (terminal_trie leaf, ss).
Proof.
  intros Hl Hcf Heq. destruct (hash_path_inv (node_of (terminal_trie leaf)) p ss t Hl)
    as (t' & Hd & Hn & Hsub); [|done|].
  { eapply collision_free_mono; [|exact Hcf]. set_solver. }
  rewrite Hd. rewrite (node_of_terminal t' leaf); [done| |done].
  eapply collision_free_mono; [|exact Hcf]. set_solver.
Qed.
End hash_path.

(** ** What a verified proof knows *)

Section verified.
Context `{NodeHasherLaws}.

(** A verified proof is true of a trie: its path is a path of the trie, ending in
    its terminal, with its siblings. *)
Definition true_path (t : trie) (v : VerifiedPathProof) : Prop :=
  descend t (vp_key_path v) = Some (terminal_trie (vp_terminal v), vp_siblings v) ∧
  vp_root v = node_of t.

(** Everything hashed when a proof is verified along a key. *)
Definition proof_preimages (pp : PathProof) (key : list bool) : list preimage :=
  preimages (terminal_trie (as_leaf_option (terminal pp))) ++
  path_preimages (terminal_node (terminal pp)) (take (length (siblings pp)) key) (siblings pp).

Lemma terminal_node_of t : terminal_node t = node_of (terminal_trie (as_leaf_option t)).
Proof. by destruct t. Qed.

Lemma verify_true_path pp key t v :
  collision_free (preimages t ++ proof_preimages pp key) →
  verify pp key (node_of t) = Ok v → true_path t v ∧ vp_key_path v `prefix_of` key.
Proof.
  intros Hcf. unfold verify. case_match eqn:Hlen; [done|]. apply Nat.ltb_ge in Hlen.
  case_bool_decide as Heq; [|done]. intros [= <-].
  split; [|exists (drop (length (siblings pp)) key); simpl; by rewrite take_drop].
  unfold proof_preimages in Hcf. rewrite terminal_node_of in Hcf, Heq.
  split; [|done]. cbn [vp_key_path vp_terminal vp_siblings].
  apply hash_path_sound; [rewrite length_take; lia|done..].
Qed.

Lemma in_scope_spec v k :
  length (vp_key_path v) ≤ 8 * length k →
  in_scope v k = if bool_decide (vp_key_path v `prefix_of` view_bits k)
                 then Ok () else Err key_out_of_scope.
Proof.
  intros Hl. unfold in_scope. rewrite slice_Some by (rewrite ?length_view_bits; lia). simpl.
  rewrite drop_0, Nat.sub_0_r. case_bool_decide as H1; case_bool_decide as H2; try done.
  - destruct H2. exists (drop (length (vp_key_path v)) (view_bits k)).
    rewrite H1 at 1. by rewrite take_drop.
  - destruct H1. by rewrite prefix_take.
Qed.

Context (kvs : ops_t) (Hkvs : block [] kvs).

Lemma true_path_depth v : true_path (trie_at 0 kvs) v → length (vp_key_path v) ≤ 256.
Proof. intros [Hd _]. by eapply descend_terminal_under. Qed.

Lemma true_path_assoc v k :
  true_path (trie_at 0 kvs) v → vp_key_path v `prefix_of` view_bits k →
  assoc kvs k = leaf_value (vp_terminal v) k.
Proof. intros [Hd _]. by eapply descend_terminal_assoc. Qed.

(** C6: a path proof that verifies against the root of a trie tells the truth
    about it.  If [verify] accepts against the commitment of a trie [t], and no
    two of the preimages of [t] and of the verification collide, then the
    verified path is a path of [t], it ends in the claimed leaf or terminator, the
    siblings are the siblings of [t] along it, and it is a prefix of the key. *)
Theorem verify_sound (pp : PathProof) (key : list bool) (t : trie) (v : VerifiedPathProof) :
  collision_free (preimages t ++ proof_preimages pp key) →
  verify pp key (node_of t) = Ok v →
  true_path t v ∧ vp_key_path v `prefix_of` key.
Proof. apply verify_true_path. Qed.

(** C20: honest proofs verify.  For every path of a trie that ends in a leaf or a
    terminator, the proof made of that terminal and the siblings along the path
    is accepted against the commitment of the trie, for every key path it is a
    prefix of, and the result holds the path, the terminal and the siblings. *)
Theorem verify_complete (t : trie) (p key : list bool) (term : PathProofTerminal)
    (ss : list Node) :
  descend t p = Some (terminal_trie (as_leaf_option term), ss) →
  p `prefix_of` key → length p ≤ 256 →
  verify {| terminal := term; siblings := ss |} key (node_of t) =
    Ok {| vp_key_path := p; vp_terminal := as_leaf_option term;
          vp_siblings := ss; vp_root := node_of t |}.
Proof.
  intros Hd Hp Hl. unfold verify. simpl.
  pose proof (descend_length _ _ _ _ Hd) as Hs. rewrite Hs.
  pose proof (prefix_length _ _ Hp) as Hpl.
  rewrite (proj2 (Nat.ltb_ge _ _)) by lia. rewrite prefix_take by done.
  rewrite terminal_node_of, (hash_path_descend _ _ _ _ Hd).
  by rewrite bool_decide_eq_true_2.
Qed.

(** Membership answers are the truth.  For a verified proof that is true of
    the trie of a set of pairs, [confirm_value] answers whether the set maps the
    key of the expected leaf to its value, for every key in the scope of the
    proof, and reports a key out of scope otherwise. *)
Theorem confirm_value_correct (v : VerifiedPathProof) (expected : LeafData) :
  true_path (trie_at 0 kvs) v → length (key_path expected) = 32 →
  confirm_value v expected =
    if bool_decide (vp_key_path v `prefix_of` view_bits (key_path expected))
    then Ok (bool_decide (assoc kvs (key_path expected) = Some (value_hash expected)))
    else Err key_out_of_scope.
Proof.
  intros Hv Hl. pose proof (true_path_depth v Hv) as Hd. unfold confirm_value.
  rewrite in_scope_spec by lia. case_bool_decide as Hp; [|done]. simpl. f_equal.
  rewrite (true_path_assoc v _ Hv Hp). apply bool_decide_ext.
  destruct (vp_terminal v) as [[k h]|], expected as [k' h']; simpl; [|naive_solver].
  case_bool_decide; naive_solver.
Qed.

(** Non-membership answers are the truth.  For a verified proof that is true
    of the trie of a set of pairs, [confirm_nonexistence] answers whether the
    set has no value for the key, for every key in the scope of the proof, and
    reports a key out of scope otherwise. *)
Theorem confirm_nonexistence_correct (v : VerifiedPathProof) (k : KeyPath) :
  true_path (trie_at 0 kvs) v → length k = 32 →
  confirm_nonexistence v k =
    if bool_decide (vp_key_path v `prefix_of` view_bits k)
    then Ok (bool_decide (assoc kvs k = None))
    else Err key_out_of_scope.
Proof.
  intros Hv Hl. pose proof (true_path_depth v Hv) as Hd. unfold confirm_nonexistence.
  rewrite in_scope_spec by lia. case_bool_decide as Hp; [|done]. simpl. f_equal.
  rewrite (true_path_assoc v _ Hv Hp).
  destruct (vp_terminal v) as [[k' h]|]; simpl; [|done].
  apply bool_decide_ext. case_bool_decide; naive_solver.
Qed.
End verified.

(** ** The correctness of [verify_update]

    The loop is a left frontier, as the one of [build_trie]: the paths below a
    prefix [P] are processed as a block, which leaves one pending node.  The
    induction is over the trie the paths were proved against. *)

Section update_lemmas.
Context `{NodeHasherLaws}.

Lemma compact_node_trie b t1 t2 :
  compact_node b (node_of t1) (node_of t2) =
    node_of (if b then compact t2 t1 else compact t1 t2).
Proof.
  unfold compact_node.
  destruct b, t1, t2; simpl;
    by rewrite ?node_kind_leaf, ?node_kind_internal, ?node_kind_terminator.
Qed.

Definition upath (u : PathUpdate) : list bool := vp_key_path (inner u).

(** The layer up to which a path is hashed. *)
Definition next_layer (next : option (list bool)) (p : list bool) : nat :=
  match next with None => 0 | Some q => S (shared_bits q p) end.

(** Hashing up from the end of [P] to layer [e], and leaving the node pending. *)
Definition run_up (P : list bool) (ss : list Node) (e : nat) (st : Node * nat * list (Node * nat)) :=
  compact_up (zip (take (length P - e) (rev P)) (rev ss)) st.

Definition finish (e : nat) (st : Node * nat * list (Node * nat)) : list (Node * nat) :=
  let '(n, _, F) := st in (n, e) :: F.

Lemma run_up_snoc P b ss s e st :
  e ≤ length P → run_up (P ++ [b]) (ss ++ [s]) e st = run_up P ss e (compact_up_one (b, s) st).
Proof.
  intros He. unfold run_up, compact_up. rewrite length_snoc, !rev_app_distr.
  by replace (S (length P) - e) with (S (length P - e)) by lia.
Qed.

Lemma run_up_here P ss e st : length P ≤ e → run_up P ss e st = st.
Proof. intros He. unfold run_up. by replace (length P - e) with 0 by lia. Qed.

Lemma compact_up_one_pending d b n s s' F :
  compact_up_one (b, s) (n, S d, (s', S d) :: F) = (compact_node b n s', d, F).
Proof. simpl. by rewrite Nat.eqb_refl, Nat.sub_0_r. Qed.

Lemma compact_up_one_other d b n s F :
  frontier_le d F → compact_up_one (b, s) (n, S d, F) = (compact_node b n s, d, F).
Proof.
  intros HF. destruct F as [|[n' l] F]; simpl; [by rewrite Nat.sub_0_r|].
  apply list.Forall_cons in HF as [Hl _]. simpl in Hl.
  rewrite (proj2 (Nat.eqb_neq _ _)) by lia. by rewrite Nat.sub_0_r.
Qed.

Lemma update_loop_app p0 q p1 next F :
  update_loop (p0 ++ q :: p1) next F =
    update_loop p0 (Some (upath q)) F ≫= update_loop (q :: p1) next.
Proof.
  revert F. induction p0 as [|u p0 IH]; intros F; [done|].
  cbn [app update_loop].
  assert (Hn : match p0 ++ q :: p1 with [] => next | p :: _ => Some (vp_key_path (inner p)) end =
    match p0 with [] => Some (upath q) | p :: _ => Some (vp_key_path (inner p)) end)
    by (by destruct p0).
  rewrite Hn. destruct (update_step _ _ F) as [F'|]; [|done]. apply IH.
Qed.

Lemma descend_snoc t P l r ss b :
  descend t P = Some (TInternal l r, ss) →
  descend t (P ++ [b]) =
    Some (if b then r else l, ss ++ [node_of (if b then l else r)]).
Proof.
  revert t ss. induction P as [|c P IH]; intros t ss Hd; simpl in *; [by simplify_eq/=|].
  destruct t as [| |l' r']; try done.
  destruct (descend (if c then r' else l') P) as [[t2 ss2]|] eqn:E; simplify_eq/=.
  by rewrite (IH _ _ E).
Qed.

(** The paths below [P] split by their next bit. *)
Lemma paths_split P paths :
  StronglySorted (λ u v, bits_lt (upath u) (upath v)) paths →
  Forall (λ u, P `prefix_of` upath u ∧ upath u ≠ P) paths →
  ∃ p0 p1, paths = p0 ++ p1 ∧ Forall (λ u, P ++ [false] `prefix_of` upath u) p0 ∧
    Forall (λ u, P ++ [true] `prefix_of` upath u) p1.
Proof.
  induction 1 as [|u paths Hs IH Hlt]; intros Hf; [by exists [], []|].
  apply list.Forall_cons in Hf as [[[[|b s] Hu] Hne] Hf].
  { by rewrite app_nil_r in Hu. }
  destruct (IH Hf) as (p0 & p1 & -> & Hp0 & Hp1).
  destruct b; [|exists (u :: p0), p1; split_and!; [done|constructor; [|done]|done];
                exists s; by rewrite Hu, <-app_assoc].
  exists [], (u :: p1). destruct p0 as [|v p0].
  - split_and!; [done|constructor|]. constructor; [|done].
    exists s. by rewrite Hu, <-app_assoc.
  - exfalso. apply list.Forall_cons in Hp0 as [[s' Hv] _]. apply list.Forall_cons in Hlt as [Hlt _].
    unfold bits_lt in Hlt. by rewrite Hu, Hv, <-app_assoc, bits_compare_app in Hlt.
Qed.

Lemma next_layer_sides P q p :
  P ++ [true] `prefix_of` q → P ++ [false] `prefix_of` p →
  next_layer (Some q) p = S (length P).
Proof.
  intros [s ->] [s' ->]. simpl. unfold shared_bits. rewrite <-!app_assoc. simpl.
  by rewrite common_prefix_len_diverge.
Qed.
End update_lemmas.

Section update_block.
Context `{NodeHasherLaws} (kvs new : ops_t) (Hkvs : block [] kvs) (Hnew : block [] new).

Definition good_path (u : PathUpdate) : Prop :=
  descend (trie_at 0 kvs) (upath u) =
    Some (terminal_trie (vp_terminal (inner u)), vp_siblings (inner u)) ∧
  block (upath u) (ops u).

Definition good_below (P : list bool) (u : PathUpdate) : Prop :=
  good_path u ∧ P `prefix_of` upath u.

(** Below [P], [new] is the set with the operations of [paths] applied. *)
Definition updates_at (P : list bool) (paths : list PathUpdate) : Prop :=
  ∀ k, length k = 32 → P `prefix_of` view_bits k →
    assoc new k = match assoc (paths ≫= ops) k with Some o => o | None => assoc kvs k end.

Lemma assoc_ops_outside P paths k :
  Forall (good_below P) paths → ¬ P `prefix_of` view_bits k → assoc (paths ≫= ops) k = None.
Proof.
  intros Hf Hk. apply assoc_not_in, list.Forall_forall. intros [k' o] Hin Heq. simpl in Heq. subst k'.
  apply list_elem_of_bind in Hin as (u & Hin & Hu).
  rewrite list.Forall_forall in Hf. destruct (Hf _ Hu) as [[_ [_ Hb]] HP].
  rewrite list.Forall_forall in Hb. destruct (Hb _ Hin) as [_ Hp]. simpl in Hp.
  apply Hk. by etrans.
Qed.

Lemma not_both_sides P b (k : list bool) :
  P ++ [b] `prefix_of` k → ¬ P ++ [negb b] `prefix_of` k.
Proof.
  intros [s ->] [s' Hs']. rewrite <-!app_assoc in Hs'. simplify_list_eq. by destruct b.
Qed.

Lemma updates_at_sides P p0 p1 :
  Forall (good_below (P ++ [false])) p0 → Forall (good_below (P ++ [true])) p1 →
  updates_at P (p0 ++ p1) → updates_at (P ++ [false]) p0 ∧ updates_at (P ++ [true]) p1.
Proof.
  intros Hp0 Hp1 Hu.
  assert (HP : ∀ b k, P ++ [b] `prefix_of` view_bits k → P `prefix_of` view_bits k).
  { intros b k Hk. etrans; [by apply prefix_app_r|exact Hk]. }
  split; intros k Hl Hk; rewrite (Hu k Hl (HP _ _ Hk)), bind_app, assoc_app.
  - rewrite (assoc_ops_outside _ _ k Hp1) by (by apply (not_both_sides _ false)).
    by destruct (assoc (p0 ≫= ops) k).
  - by rewrite (assoc_ops_outside _ _ k Hp0) by (by apply (not_both_sides _ true)).
Qed.

Lemma updates_at_none P : updates_at P [] → under P new = under P kvs.
Proof.
  intros Hu. apply (block_ext P); [by apply under_block..|].
  intros k Hl. rewrite !assoc_under. case_bool_decide; [|done]. by rewrite Hu.
Qed.

(** A terminal: the operations of its path rebuild the sub-trie. *)
Lemma updates_at_terminal u :
  good_path u → updates_at (upath u) [u] →
  leaf_ops_spliced (vp_terminal (inner u)) (ops u) = under (upath u) new.
Proof.
  intros [Hd Hb] Hu. pose proof (leaf_pairs_in_block kvs Hkvs _ _ _ Hd) as Hl.
  pose proof (leaf_ops_spliced_block _ _ _ Hb Hl) as Hsp.
  apply (block_ext (upath u)); [done|by apply under_block|].
  intros k Hk. rewrite assoc_under. case_bool_decide as Hp.
  - rewrite (leaf_ops_spliced_assoc (upath u)), Hu by done. simpl. rewrite app_nil_r.
    destruct (assoc (ops u) k); [done|]. by rewrite (descend_terminal_assoc kvs Hkvs _ _ _ _ Hd).
  - apply assoc_not_in. destruct Hsp as [_ Hf]. eapply Forall_impl; [exact Hf|].
    intros kv [_ Hkv] <-. done.
Qed.

Lemma update_step_terminal u next F :
  good_path u → updates_at (upath u) [u] → next_layer next (upath u) ≤ length (upath u) →
  update_step u next F =
    Some (finish (next_layer next (upath u))
            (run_up (upath u) (vp_siblings (inner u)) (next_layer next (upath u))
               (node_of (trie_at (length (upath u)) (under (upath u) new)),
                length (upath u), F))).
Proof.
  intros Hg Hu He. unfold update_step. fold (upath u).
  assert (Hup : match next with
    | None => Some (length (upath u))
    | Some p => if length (upath u) <? shared_bits p (upath u) + 1 then None
                else Some (length (upath u) - (shared_bits p (upath u) + 1))
    end = Some (length (upath u) - next_layer next (upath u))).
  { destruct next as [q|]; simpl in *; [|by rewrite Nat.sub_0_r].
    rewrite (proj2 (Nat.ltb_ge _ _)) by lia. by rewrite Nat.add_1_r. }
  cbv zeta. rewrite Hup. simpl.
  rewrite updates_at_terminal by done.
  destruct (build_trie_spec (upath u) (under (upath u) new)) as (ws & -> & _);
    [by apply under_block|]. simpl.
  replace (length (upath u) - (length (upath u) - next_layer next (upath u)))
    with (next_layer next (upath u)) by lia.
  unfold run_up. by destruct (compact_up _ _) as [[n d] F'].
Qed.

Definition sorted_paths (paths : list PathUpdate) : Prop :=
  StronglySorted (λ u v, bits_lt (upath u) (upath v)) paths.

(** What the loop does to the paths below [P]. *)
Definition group_spec (P : list bool) (ss : list Node) (paths : list PathUpdate) : Prop :=
  ∀ next e F,
    Forall (λ u, next_layer next (upath u) = e) paths → e ≤ length P →
    frontier_le (length P) F →
    update_loop paths next F =
      Some (finish e (run_up P ss e
        (node_of (trie_at (length P) (under P new)), length P, F))).

Lemma group_terminal P leaf ss paths :
  descend (trie_at 0 kvs) P = Some (terminal_trie leaf, ss) →
  paths ≠ [] → Forall (good_below P) paths → sorted_paths paths → updates_at P paths →
  group_spec P ss paths.
Proof.
  intros Hd Hne Hf Hs Hu next e F Hnl He HF.
  assert (Hall : ∀ u, good_below P u → upath u = P).
  { intros u [[Hu' _] [s Hs']]. rewrite Hs' in Hu' |- *.
    apply (descend_terminal_prefix _ _ _ _ _ _ Hd) in Hu'. subst s. by rewrite app_nil_r. }
  destruct paths as [|u [|v paths]]; [done| |].
  - apply list.Forall_cons in Hf as [Hg _]. apply list.Forall_cons in Hnl as [<- _].
    pose proof (Hall u Hg) as <-. destruct Hg as [Hg _].
    cbn [update_loop]. rewrite update_step_terminal by done. simpl.
    destruct Hg as [Hd' _]. rewrite Hd in Hd'. by simplify_eq.
  - exfalso. inversion Hf as [|? ? Hg1 Hf']; subst. inversion Hf' as [|? ? Hg2 _]; subst.
    inversion Hs as [|? ? _ Hlt]; subst. apply list.Forall_cons in Hlt as [Hlt _].
    rewrite (Hall _ Hg1), (Hall _ Hg2) in Hlt. destruct (irreflexivity bits_lt _ Hlt).
Qed.

(** Both sides have paths: the first leaves its node pending, the second uses it. *)
Lemma group_two_sides P l r ss p0 p1 :
  length P < 256 → p0 ≠ [] → p1 ≠ [] →
  Forall (good_below (P ++ [false])) p0 → Forall (good_below (P ++ [true])) p1 →
  group_spec (P ++ [false]) (ss ++ [node_of r]) p0 →
  group_spec (P ++ [true]) (ss ++ [node_of l]) p1 →
  group_spec P ss (p0 ++ p1).
Proof.
  intros HP Hn0 Hn1 Hf0 Hf1 Hg0 Hg1 next e F Hnl He HF.
  apply Forall_app in Hnl as [Hnl0 Hnl1].
  destruct p1 as [|q p1]; [done|]. rewrite update_loop_app.
  rewrite (Hg0 (Some (upath q)) (S (length P)) F).
  - rewrite run_up_here by (by rewrite length_snoc). cbn [finish mbind option_bind].
    rewrite (Hg1 next e); [|done|..].
    + rewrite run_up_snoc by done. rewrite length_snoc, compact_up_one_pending.
      rewrite compact_node_trie, !length_snoc. by rewrite <-trie_at_under.
    + rewrite length_snoc. lia.
    + rewrite length_snoc. constructor; [simpl; lia|].
      eapply Forall_impl; [exact HF|]. simpl. lia.
  - eapply Forall_impl; [exact Hf0|]. intros u [_ Hu]. apply next_layer_sides; [|done].
    by apply list.Forall_cons in Hf1 as [[_ ?] _].
  - by rewrite length_snoc.
  - rewrite length_snoc. eapply Forall_impl; [exact HF|]. simpl. lia.
Qed.

(** One side has paths: the sibling is the unchanged other side. *)
Lemma group_one_side P b ss s paths :
  length P < 256 →
  s = node_of (trie_at (S (length P)) (under (P ++ [negb b]) new)) →
  group_spec (P ++ [b]) (ss ++ [s]) paths → group_spec P ss paths.
Proof.
  intros HP -> Hg next e F Hnl He HF.
  rewrite (Hg next e F); [|done|rewrite length_snoc; lia|].
  - rewrite run_up_snoc by done. rewrite length_snoc, compact_up_one_other by done.
    rewrite compact_node_trie, (trie_at_under P) by done. by destruct b.
  - rewrite length_snoc. eapply Forall_impl; [exact HF|]. simpl. lia.
Qed.

Lemma update_loop_group t P ss paths :
  descend (trie_at 0 kvs) P = Some (t, ss) →
  paths ≠ [] → Forall (good_below P) paths → sorted_paths paths → updates_at P paths →
  group_spec P ss paths.
Proof.
  revert P ss paths.
  induction t as [|d|l IHl r IHr]; intros P ss paths Hd Hne Hf Hs Hu.
  - by apply (group_terminal P None).
  - by apply (group_terminal P (Some d)).
  - pose proof (descend_under kvs Hkvs [] P (TInternal l r) ss) as Ht.
    rewrite under_nil in Ht. cbn [length app] in Ht. specialize (Ht Hd).
    destruct (trie_at_under_internal kvs Hkvs _ _ _ (eq_sym Ht)) as [HP Hsub].
    destruct (paths_split P paths Hs) as (p0 & p1 & -> & Hp0 & Hp1).
    { eapply Forall_impl; [exact Hf|]. intros u [[Hdu _] Hpu]. split; [done|]. intros Heq.
      rewrite Heq, Hd in Hdu. by destruct (vp_terminal (inner u)). }
    apply Forall_app in Hf as [Hf0 Hf1].
    apply StronglySorted_app in Hs as (_ & Hs0 & Hs1).
    assert (Hg0 : Forall (good_below (P ++ [false])) p0).
    { apply Forall_and. split; [|done]. eapply Forall_impl; [exact Hf0|]. by intros u []. }
    assert (Hg1 : Forall (good_below (P ++ [true])) p1).
    { apply Forall_and. split; [|done]. eapply Forall_impl; [exact Hf1|]. by intros u []. }
    destruct (updates_at_sides _ _ _ Hg0 Hg1 Hu) as [Hu0 Hu1].
    pose proof (descend_snoc _ _ _ _ _ false Hd) as Hd0.
    pose proof (descend_snoc _ _ _ _ _ true Hd) as Hd1. simpl in Hd0, Hd1.
    destruct (decide (p0 = [])) as [->|Hne0]; [|destruct (decide (p1 = [])) as [->|Hne1]].
    + simpl in Hne |- *. apply (group_one_side P true ss (node_of l)); [done| |by apply IHr].
      cbn [negb]. rewrite (updates_at_none _ Hu0), <-(length_snoc P false). by rewrite <-(Hsub false).
    + rewrite app_nil_r. apply (group_one_side P false ss (node_of r)); [done| |by apply IHl].
      cbn [negb]. rewrite (updates_at_none _ Hu1), <-(length_snoc P true). by rewrite <-(Hsub true).
    + apply (group_two_sides P l r); auto.
Qed.

(** The whole loop. *)
Lemma update_loop_all paths :
  paths ≠ [] → Forall good_path paths → sorted_paths paths → updates_at [] paths →
  update_loop paths None [] = Some [(node_of (trie_at 0 new), 0)].
Proof.
  intros Hne Hf Hs Hu.
  rewrite (update_loop_group (trie_at 0 kvs) [] [] paths eq_refl Hne) with (e := 0); try done.
  - simpl. by rewrite under_nil.
  - eapply Forall_impl; [exact Hf|]. intros u Hg. split; [done|]. apply prefix_nil.
  - by apply Forall_true.
  - constructor.
Qed.
End update_block.

(** ** The checks of [verify_update] *)

Section checks.

(** What the checks demand of the paths of an update. *)
Definition update_wf (prev_root : Node) (paths : list PathUpdate) : Prop :=
  Forall (λ u, vp_root (inner u) = prev_root) paths ∧
  sorted_paths paths ∧
  Forall (λ u, ops u ≠ [] ∧ key_sorted (ops u) ∧
               Forall (λ kv, upath u `prefix_of` view_bits kv.1) (ops u)) paths.

Lemma check_ops_spec path prev ops :
  check_ops path prev ops = Ok () ↔
    Forall (λ kv, from_option (λ p, bytes_lt p kv.1) True prev) ops ∧ key_sorted ops ∧
    Forall (λ kv : KeyPath * option ValueHash, path `prefix_of` view_bits kv.1) ops.
Proof.
  unfold key_sorted. revert prev. induction ops as [|[k o] ops IH]; intros prev.
  { split; [|done]. intros _. repeat constructor. }
  cbn [check_ops]. rewrite !list.Forall_cons, StronglySorted_cons. simpl. split.
  - intros Hc. destruct (match prev with Some p => _ | None => false end) eqn:E; [done|].
    case_bool_decide as Hp; [|done]. simpl in Hc. apply IH in Hc as (Hlt & Hs & Hf).
    split_and!; try done; destruct prev as [p|]; simpl in *; try done.
    + apply negb_false_iff, bytes_ltb_lt in E. done.
    + apply negb_false_iff, bytes_ltb_lt in E. eapply Forall_impl; [exact Hlt|].
      intros kv Hkv. by eapply (transitivity (R := bytes_lt)).
    + by apply Forall_true.
  - intros ([Hk _] & [Hs Hlt] & [Hp Hf]).
    assert (match prev with Some p => negb (bytes_ltb p k) | None => false end = false) as ->.
    { destruct prev as [p|]; [|done]. simpl in Hk. apply bytes_ltb_lt in Hk. by rewrite Hk. }
    rewrite bool_decide_eq_true_2 by done. simpl. by apply IH.
Qed.

Lemma check_ops_total path prev ops : check_ops path prev ops ≠ Panic.
Proof.
  revert prev. induction ops as [|[k o] ops IH]; intros prev; simpl; [done|].
  by repeat case_match.
Qed.

Lemma check_paths_spec root prev paths :
  check_paths root prev paths = Ok () ↔
    Forall (λ u, from_option (λ p, bits_lt p (upath u)) True prev) paths ∧
    update_wf root paths.
Proof.
  unfold update_wf, sorted_paths. revert prev. induction paths as [|u paths IH]; intros prev.
  { split; [|done]. intros _. repeat constructor. }
  cbn [check_paths]. fold (upath u). rewrite !list.Forall_cons, StronglySorted_cons. split.
  - intros Hc. case_bool_decide as Hr; [|done]. simpl in Hc.
    destruct (match prev with Some p => _ | None => false end) eqn:E; [done|].
    case_bool_decide as Hne; [done|]. apply obind_Ok in Hc as ([] & Ho & Hc).
    apply check_ops_spec in Ho as (_ & Hos & Hof). apply IH in Hc as (Hlt & Hroot & Hs & Hf).
    split_and!; try done; destruct prev as [p|]; simpl in *; try done.
    + apply negb_false_iff, bits_ltb_lt in E. done.
    + apply negb_false_iff, bits_ltb_lt in E. eapply Forall_impl; [exact Hlt|].
      intros kv Hkv. by eapply (transitivity (R := bits_lt)).
    + by apply Forall_true.
  - intros ([Hk _] & [Hr Hroot] & [Hs Hlt] & (Hne & Hos & Hof) & Hf).
    rewrite bool_decide_eq_true_2 by done. simpl.
    assert (match prev with Some p => negb (bits_ltb p (upath u)) | None => false end = false) as ->.
    { destruct prev as [p|]; [|done]. simpl in Hk. apply bits_ltb_lt in Hk. by rewrite Hk. }
    rewrite bool_decide_eq_false_2 by done.
    rewrite (proj2 (check_ops_spec (upath u) None (ops u))); [|by split; [apply Forall_true|]].
    simpl. by apply IH.
Qed.

Lemma check_paths_total root prev paths : check_paths root prev paths ≠ Panic.
Proof.
  revert prev. induction paths as [|u paths IH]; intros prev; simpl; [done|].
  pose proof (check_ops_total (vp_key_path (inner u)) None (ops u)) as Ht.
  repeat case_match; try done; destruct (check_ops _ None _); simpl; naive_solver.
Qed.
End checks.

(** ** The theorems on updates *)

Section update_theorems.
Context `{NodeHasherLaws}.

(** A verified proof obtained from [verify] against the commitment of [t], without
    a collision among what [t] and the verification hash. *)
Definition verified_against (t : trie) (v : VerifiedPathProof) : Prop :=
  ∃ pp key, verify pp key (node_of t) = Ok v ∧
    collision_free (preimages t ++ proof_preimages pp key).

Lemma paths_ops_sorted kvs paths :
  block [] kvs → Forall (good_path kvs) paths → sorted_paths paths → key_sorted (paths ≫= ops).
Proof.
  intros Hkvs Hf. unfold sorted_paths.
  induction 1 as [|u paths Hs IH Hlt]; [constructor|]. apply list.Forall_cons in Hf as [[Hd Hb] Hf].
  rewrite bind_cons. apply key_sorted_app. split_and!; [apply Hb|by apply IH|].
  intros x y Hx (v & Hy & Hv)%list_elem_of_bind.
  rewrite list.Forall_forall in Hf, Hlt. destruct (Hf _ Hv) as [Hdv [_ Hbv]].
  destruct Hb as [_ Hb]. rewrite list.Forall_forall in Hb, Hbv.
  destruct (Hb _ Hx) as [Hlx [sx Hsx]], (Hbv _ Hy) as [Hly [sy Hsy]].
  apply bytes_lt_bits; [congruence|]. rewrite Hsx, Hsy.
  apply bits_lt_extend; [by apply Hlt|]. intros [q Hq]. rewrite Hq in Hdv.
  apply (descend_terminal_prefix _ _ _ _ _ _ Hd) in Hdv. subst q. rewrite app_nil_r in Hq.
  specialize (Hlt _ Hv). simpl in Hlt. rewrite Hq in Hlt. destruct (irreflexivity bits_lt _ Hlt).
Qed.

(** C3: the root computed by [verify_update] is the root of the updated set.
    Let the paths be verified against the root of the trie of a set of pairs,
    without a hash collision, and pass the checks of [verify_update] (ascending
    paths, each with ascending operations in its scope).  Then [verify_update]
    does not fail and does not panic, and returns the commitment of the trie of
    the set with all the operations applied, although it has seen no more of the
    trie than the paths. *)
Theorem verify_update_correct (kvs : ops_t) (paths : list PathUpdate) :
  block [] kvs →
  Forall (λ u, verified_against (trie_at 0 kvs) (inner u)) paths →
  Forall (λ u, Forall (λ kv, length kv.1 = 32) (ops u)) paths →
  update_wf (node_of (trie_at 0 kvs)) paths →
  verify_update (node_of (trie_at 0 kvs)) paths =
    Ok (node_of (trie_at 0 (apply_ops kvs (paths ≫= ops)))).
Proof.
  intros Hkvs Hv Hl Hwf. unfold verify_update. case_bool_decide as Hne; [by subst|].
  rewrite (proj2 (check_paths_spec _ None _)); [|by split; [apply Forall_true|]]. simpl.
  destruct Hwf as (_ & Hs & Hops).
  assert (Hg : Forall (good_path kvs) paths).
  { rewrite list.Forall_forall in Hv, Hl, Hops |- *. intros u Hu.
    destruct (Hv u Hu) as (pp & key & Hver & Hcf), (Hops u Hu) as (_ & Hos & Hof).
    destruct (verify_true_path _ _ _ _ Hcf Hver) as [[Hd _] _].
    split; [done|]. split; [done|]. apply Forall_and. auto. }
  pose proof (paths_ops_sorted _ _ Hkvs Hg Hs) as Hsorted.
  assert (Hlen : Forall (λ op, length op.1 = 32) (paths ≫= ops)).
  { apply list.Forall_forall. intros x (u & Hx & Hu)%list_elem_of_bind.
    rewrite list.Forall_forall in Hl. specialize (Hl _ Hu). rewrite list.Forall_forall in Hl. auto. }
  rewrite (update_loop_all kvs (apply_ops kvs (paths ≫= ops))); try done.
  - by apply apply_ops_block.
  - intros k Hk _. rewrite assoc_apply_ops by done. by rewrite assoc_rev.
Qed.

(** C23: [verify_update] rejects ill-formed updates with an error.  If some path
    was verified against another root, or the paths are not strictly ascending, or
    a path has no operations, or the operations of a path are not strictly
    ascending or leave the scope of the path, then [verify_update] returns an error
    value: it neither panics nor returns a root. *)
Theorem verify_update_rejects (prev_root : Node) (paths : list PathUpdate) :
  ¬ update_wf prev_root paths → ∃ e, verify_update prev_root paths = Err e.
Proof.
  intros Hwf. unfold verify_update. case_bool_decide as Hne.
  { destruct Hwf. subst. repeat constructor. }
  pose proof (check_paths_spec prev_root None paths) as Hspec.
  pose proof (check_paths_total prev_root None paths) as Ht.
  destruct (check_paths _ None paths) as [[]|e|]; simpl; [|by eexists|done].
  destruct Hwf. by apply Hspec.
Qed.
End update_theorems.

(** ** The theorems at work *)

Abbreviation sample_trie := (trie_at 0 sample_ops) (only parsing).

Definition sample_proof (b : u8) : PathProof :=
  let '(p, leaf, ss) := path_to sample_trie (view_bits (toy_key b)) in
  {| terminal := match leaf with
                 | Some d => TermLeaf d
                 | None => TermTerminator (default TriePos.new (TriePos.from_bitslice p))
                 end;
     siblings := ss |}.

Definition sample_verified (b : u8) : VerifiedPathProof :=
  let '(p, leaf, ss) := path_to sample_trie (view_bits (toy_key b)) in
  {| vp_key_path := p; vp_terminal := leaf; vp_siblings := ss; vp_root := node_of sample_trie |}.

Definition sample_update : list PathUpdate :=
  [ {| inner := sample_verified x20; ops := [(toy_key x20, None); (toy_key x30, Some (toy_key x07))] |};
    {| inner := sample_verified xc0; ops := [(toy_key xc0, Some (toy_key x08))] |} ].

Lemma verify_sound_witness :
  true_path sample_trie (sample_verified x20) ∧
  vp_key_path (sample_verified x20) `prefix_of` view_bits (toy_key x20).
Proof.
  assert (Hcf : collision_free
    (preimages sample_trie ++ proof_preimages (sample_proof x20) (view_bits (toy_key x20))))
    by by_compute.
  assert (Hv : verify (sample_proof x20) (view_bits (toy_key x20)) (node_of sample_trie) =
               Ok (sample_verified x20)) by (vm_compute; reflexivity).
  exact (verify_sound _ _ _ _ Hcf Hv).
Defined.

Lemma verify_complete_witness :
  verify {| terminal := terminal (sample_proof xc0); siblings := siblings (sample_proof xc0) |}
         (view_bits (toy_key xc0)) (node_of sample_trie) =
  Ok {| vp_key_path := [true; true]; vp_terminal := as_leaf_option (terminal (sample_proof xc0));
        vp_siblings := siblings (sample_proof xc0); vp_root := node_of sample_trie |}.
Proof.
  assert (Hd : descend sample_trie [true; true] =
    Some (terminal_trie (as_leaf_option (terminal (sample_proof xc0))),
          siblings (sample_proof xc0))) by (vm_compute; reflexivity).
  assert (Hp : [true; true] `prefix_of` view_bits (toy_key xc0)) by by_compute.
  assert (Hl : length [true; true] ≤ 256) by (simpl; lia).
  exact (verify_complete _ _ _ _ _ Hd Hp Hl).
Defined.

Lemma sample_true_path b :
  descend sample_trie (vp_key_path (sample_verified b)) =
    Some (terminal_trie (vp_terminal (sample_verified b)), vp_siblings (sample_verified b)) →
  true_path (trie_at 0 sample_ops) (sample_verified b).
Proof.
  intros Hd. split; [exact Hd|].
  unfold sample_verified. by destruct (path_to _ _) as [[p leaf] ss].
Qed.

Lemma confirm_value_correct_witness :
  confirm_value (sample_verified x20) {| key_path := toy_key x20; value_hash := toy_key x02 |} =
    if bool_decide (vp_key_path (sample_verified x20) `prefix_of`
                    view_bits (key_path {| key_path := toy_key x20; value_hash := toy_key x02 |}))
    then Ok (bool_decide (assoc sample_ops
               (key_path {| key_path := toy_key x20; value_hash := toy_key x02 |}) =
               Some (value_hash {| key_path := toy_key x20; value_hash := toy_key x02 |})))
    else Err key_out_of_scope.
Proof.
  assert (Hb : block [] sample_ops) by by_compute.
  assert (Ht : true_path (trie_at 0 sample_ops) (sample_verified x20))
    by (apply sample_true_path; vm_compute; reflexivity).
  exact (confirm_value_correct sample_ops Hb _
           {| key_path := toy_key x20; value_hash := toy_key x02 |} Ht eq_refl).
Defined.

Lemma confirm_nonexistence_correct_witness :
  confirm_nonexistence (sample_verified xc0) (toy_key xc0) =
    if bool_decide (vp_key_path (sample_verified xc0) `prefix_of` view_bits (toy_key xc0))
    then Ok (bool_decide (assoc sample_ops (toy_key xc0) = None))
    else Err key_out_of_scope.
Proof.
  assert (Hb : block [] sample_ops) by by_compute.
  assert (Ht : true_path (trie_at 0 sample_ops) (sample_verified xc0))
    by (apply sample_true_path; vm_compute; reflexivity).
  exact (confirm_nonexistence_correct sample_ops Hb _ (toy_key xc0) Ht eq_refl).
Defined.

#[global] Instance update_wf_dec root paths : Decision (update_wf root paths).
Proof. unfold update_wf, sorted_paths, key_sorted. apply _. Defined.

Lemma verify_update_correct_witness :
  verify_update (node_of (trie_at 0 sample_ops)) sample_update =
    Ok (node_of (trie_at 0 (apply_ops sample_ops (sample_update ≫= ops)))).
Proof.
  assert (Hb : block [] sample_ops) by by_compute.
  assert (Hv : Forall (λ u, verified_against (trie_at 0 sample_ops) (inner u)) sample_update).
  { repeat constructor.
    - exists (sample_proof x20), (view_bits (toy_key x20)).
      split; [vm_compute; reflexivity|by_compute].
    - exists (sample_proof xc0), (view_bits (toy_key xc0)).
      split; [vm_compute; reflexivity|by_compute]. }
  assert (Hl : Forall (λ u, Forall (λ kv : KeyPath * option ValueHash, length kv.1 = 32) (ops u))
                 sample_update) by by_compute.
  assert (Hwf : update_wf (node_of (trie_at 0 sample_ops)) sample_update) by by_compute.
  exact (verify_update_correct sample_ops sample_update Hb Hv Hl Hwf).
Defined.

Lemma verify_update_rejects_witness :
  ¬ update_wf TERMINATOR sample_update ∧ ∃ e, verify_update TERMINATOR sample_update = Err e.
Proof.
  assert (Hwf : ¬ update_wf TERMINATOR sample_update) by by_compute.
  split; [exact Hwf|]. exact (verify_update_rejects TERMINATOR sample_update Hwf).
Defined.
