(* ===== verification/MultiProof.v ===== *)
(** * Multi-proofs

    Models [core/src/proof/multi_proof.rs]: the bisection of ordered path proofs
    into one proof with the minimal siblings, its verification, the queries of a
    verified multi-proof, and the verification of updates against it.

    Panics of the source (slices and indices out of bounds, failed assertions, and
    subtractions below zero, which panic in the slice they feed) are [None]. *)

From S2P Require Import Prelude PageId TriePos Trie Update TrieSpec PathProof.

Record MultiPathProof := { mp_terminal : PathProofTerminal; mp_depth : nat }.
Record MultiProof := { mp_paths : list MultiPathProof; mp_siblings : list Node }.

(** ** [from_path_proofs] *)

Record PathProofRange := { lower : nat; upper : nat; path_bit_index : nat }.

Inductive PathProofRangeStep :=
| Bisect (left right : PathProofRange)
| Advance (sibling : Node) (self : PathProofRange).

(** The outer option is the panic. *)
Definition prove_unique_path_remainder (self : PathProofRange) (path_proofs : list PathProof) :
    option (option (MultiPathProof * list Node)) :=
  let? _ := oassert (1 <=? upper self) in
  if negb (lower self =? upper self - 1) then Some None
  else
    let? path_proof := path_proofs !! lower self in
    let unique_siblings := drop (path_bit_index self) (siblings path_proof) in
    Some (Some ({| mp_terminal := terminal path_proof;
                   mp_depth := path_bit_index self + length unique_siblings |},
                unique_siblings)).

(** The comparison of the bisections: the bit of a terminal's path at [i]. *)
Definition side_of_bit (i : nat) (t : PathProofTerminal) : option comparison :=
  let? bit := terminal_path t !! i in
  Some (if (bit : bool) then Gt else Lt).

Definition unwrap_err {A B} (r : A + B) : option B :=
  match r with inl _ => None | inr b => Some b end.

Definition range_step (self : PathProofRange) (path_proofs : list PathProof) :
    option PathProofRangeStep :=
  let? p_lower := path_proofs !! lower self in
  let? _ := oassert (1 <=? upper self) in
  let? p_upper := path_proofs !! (upper self - 1) in
  let? b_lower := terminal_path (terminal p_lower) !! path_bit_index self in
  let? b_upper := terminal_path (terminal p_upper) !! path_bit_index self in
  if negb (Bool.eqb b_lower b_upper) then
    let? s := slice path_proofs (lower self) (upper self) in
    let? r := try_binary_search_by (λ p, side_of_bit (path_bit_index self) (terminal p)) s in
    let? i := unwrap_err r in
    let mid := lower self + i in
    Some (Bisect
            {| path_bit_index := path_bit_index self + 1; lower := lower self; upper := mid |}
            {| path_bit_index := path_bit_index self + 1; lower := mid; upper := upper self |})
  else
    let? sibling := siblings p_lower !! path_bit_index self in
    Some (Advance sibling
            {| path_bit_index := path_bit_index self + 1;
               lower := lower self; upper := upper self |}).

(** The loop of [from_path_proofs], with its local variables as arguments. *)
Fixpoint from_path_proofs_loop (fuel : nat) (path_proofs : list PathProof)
    (proof_range : PathProofRange) (stack : list PathProofRange) (common_siblings : list Node)
    (paths : list MultiPathProof) (siblings : list Node) : option MultiProof :=
  match fuel with
  | 0 => None
  | S fuel' =>
      let? unique := prove_unique_path_remainder proof_range path_proofs in
      match unique with
      | Some (sub_path_proof, unique_siblings) =>
          let paths := paths ++ [sub_path_proof] in
          let siblings := siblings ++ unique_siblings in
          let? _ := oassert (bool_decide (common_siblings = [])) in
          match stack with
          | v :: stack => from_path_proofs_loop fuel' path_proofs v stack common_siblings paths siblings
          | [] => Some {| mp_paths := paths; mp_siblings := siblings |}
          end
      | None =>
          let? step := range_step proof_range path_proofs in
          match step with
          | Bisect left right =>
              from_path_proofs_loop fuel' path_proofs left (right :: stack) []
                paths (siblings ++ common_siblings)
          | Advance sibling proof_range =>
              from_path_proofs_loop fuel' path_proofs proof_range stack
                (common_siblings ++ [sibling]) paths siblings
          end
      end
  end.

(** Every bisection advances over at most 256 bits, and there is one bisection less
    than there are paths. *)
Definition from_path_proofs (path_proofs : list PathProof) : option MultiProof :=
  if bool_decide (path_proofs = []) then Some {| mp_paths := []; mp_siblings := [] |}
  else
    from_path_proofs_loop (258 * length path_proofs) path_proofs
      {| path_bit_index := 0; lower := 0; upper := length path_proofs |} [] [] [] [].

(** ** Verification *)

Inductive MultiProofVerificationError :=
| MultiRootMismatch
| MultiPathsOutOfOrder
| MultiTooManySiblings.

Record VerifiedMultiPath := {
  vm_terminal : PathProofTerminal;
  vm_depth : nat;
  unique_siblings : nat * nat;
}.

Record VerifiedBisection := { start_depth : nat; common_siblings : nat * nat }.

Record VerifiedMultiProof := {
  vmp_inner : list VerifiedMultiPath;
  bisections : list VerifiedBisection;
  vmp_siblings : list Node;
  vmp_root : Node;
}.

Section multi_proof.
Context `{NodeHasher}.

(** The result, and the two vectors the source appends to. *)
Definition range_result : Type :=
  Node * nat * list VerifiedMultiPath * list VerifiedBisection.

(** The terminal case of [verify_range]. *)
Definition verify_terminal (start_depth : nat) (terminal_path' : MultiPathProof)
    (siblings : list Node) (sibling_offset : nat) : option range_result :=
  if mp_depth terminal_path' <? start_depth then None
  else
    let unique_len := mp_depth terminal_path' - start_depth in
    let? bits := slice (terminal_path (mp_terminal terminal_path')) start_depth
                       (start_depth + unique_len) in
    let? ss := slice siblings 0 unique_len in
    let node := hash_path (terminal_node (mp_terminal terminal_path')) bits (rev ss) in
    Some (node, unique_len,
          [{| vm_terminal := mp_terminal terminal_path'; vm_depth := mp_depth terminal_path';
              unique_siblings := (sibling_offset, sibling_offset + unique_len) |}], []).

(** The recursion goes at least one bit deeper at every level, and panics beyond the
    256 bits of the paths: 257 levels are enough. *)
Fixpoint verify_range (fuel : nat) (start_depth : nat) (paths : list MultiPathProof)
    (siblings : list Node) (sibling_offset : nat) : option range_result :=
  match paths with
  | [] =>
      Some (TERMINATOR, 0,
            [{| vm_terminal := TermTerminator TriePos.new; vm_depth := 0;
                unique_siblings := (0, 0) |}], [])
  | [terminal_path'] => verify_terminal start_depth terminal_path' siblings sibling_offset
  | start_path :: _ =>
      match fuel with
      | 0 => None
      | S fuel' =>
          let? end_path := last paths in
          let? start_bits := slice_from (terminal_path (mp_terminal start_path)) start_depth in
          let? end_bits := slice_from (terminal_path (mp_terminal end_path)) start_depth in
          let common_bits := shared_bits start_bits end_bits in
          let common_len := start_depth + common_bits in
          let uncommon_start_len := common_len + 1 in
          let? r := try_binary_search_by
                      (λ p, side_of_bit (uncommon_start_len - 1) (mp_terminal p)) paths in
          let? bisect_idx := unwrap_err r in
          let bisection :=
            if 0 <? common_bits
            then [{| start_depth := start_depth;
                     common_siblings := (sibling_offset, sibling_offset + common_bits) |}]
            else [] in
          let? left_siblings := slice_from siblings common_bits in
          let? (left_node, left_used, vpl, vbl) :=
            verify_range fuel' uncommon_start_len (take bisect_idx paths) left_siblings
              (sibling_offset + common_bits) in
          let? right_siblings := slice_from siblings (common_bits + left_used) in
          let? (right_node, right_used, vpr, vbr) :=
            verify_range fuel' uncommon_start_len (drop bisect_idx paths) right_siblings
              (sibling_offset + common_bits + left_used) in
          let total_siblings_used := common_bits + left_used + right_used in
          let? bits := slice (terminal_path (mp_terminal start_path)) start_depth common_len in
          let? ss := slice siblings 0 common_bits in
          let node := hash_path (hash_internal {| left := left_node; right := right_node |})
                                bits (rev ss) in
          Some (node, total_siblings_used, vpl ++ vpr, bisection ++ vbl ++ vbr)
      end
  end.

(** The loop over the paths that checks their order. *)
Fixpoint paths_ordered (paths : list MultiPathProof) : bool :=
  match paths with
  | p :: ((q :: _) as rest) =>
      bits_ltb (terminal_path (mp_terminal p)) (terminal_path (mp_terminal q)) && paths_ordered rest
  | _ => true
  end.

Definition verify_multi_proof (multi_proof : MultiProof) (root : Node) :
    outcome MultiProofVerificationError VerifiedMultiProof :=
  if negb (paths_ordered (mp_paths multi_proof)) then Err MultiPathsOutOfOrder
  else
    let! (new_root, siblings_used, verified_paths, verified_bisections) :=
      or_panic (verify_range 257 0 (mp_paths multi_proof) (mp_siblings multi_proof) 0) in
    if negb (bool_decide (root = new_root)) then Err MultiRootMismatch
    else if negb (siblings_used =? length (mp_siblings multi_proof)) then Err MultiTooManySiblings
    else
      Ok {| vmp_inner := verified_paths; bisections := verified_bisections;
            vmp_siblings := mp_siblings multi_proof; vmp_root := root |}.
End multi_proof.

(** ** Queries *)

Section queries.

(** [v.terminal.path()[..v.depth]] *)
Definition vm_path (v : VerifiedMultiPath) : option (list bool) :=
  slice (terminal_path (vm_terminal v)) 0 (vm_depth v).

Definition compare_terminal (key_path : KeyPath) (v : VerifiedMultiPath) : option comparison :=
  let? p := vm_path v in
  let? k := slice (view_bits key_path) 0 (vm_depth v) in
  Some (bits_compare p k).

Definition find_index_for (self : VerifiedMultiProof) (key_path : KeyPath) :
    outcome KeyOutOfScope nat :=
  let! search_result := or_panic (try_binary_search_by (compare_terminal key_path) (vmp_inner self)) in
  match search_result with
  | inl i => Ok i
  | inr _ => Err key_out_of_scope
  end.

Definition confirm_nonexistence_inner (self : VerifiedMultiProof) (key_path : KeyPath) (index : nat) :
    option bool :=
  let? v := vmp_inner self !! index in
  Some (match vm_terminal v with
        | TermTerminator _ => true
        | TermLeaf leaf_data => bool_decide (Trie.key_path leaf_data ≠ key_path)
        end).

Definition confirm_value_inner (self : VerifiedMultiProof) (expected_leaf : LeafData) (index : nat) :
    option bool :=
  let? v := vmp_inner self !! index in
  Some (match vm_terminal v with
        | TermTerminator _ => false
        | TermLeaf leaf_data => bool_decide (leaf_data = expected_leaf)
        end).

Definition multi_confirm_nonexistence (self : VerifiedMultiProof) (key_path : KeyPath) :
    outcome KeyOutOfScope bool :=
  let! index := find_index_for self key_path in
  or_panic (confirm_nonexistence_inner self key_path index).

Definition multi_confirm_value (self : VerifiedMultiProof) (expected_leaf : LeafData) :
    outcome KeyOutOfScope bool :=
  let! index := find_index_for self (Trie.key_path expected_leaf) in
  or_panic (confirm_value_inner self expected_leaf index).

(** [path.terminal.path()[..depth] == key_path.view_bits()[..depth]] *)
Definition terminal_contains (terminal : VerifiedMultiPath) (key_path : KeyPath) : option bool :=
  let? k := slice (view_bits key_path) 0 (vm_depth terminal) in
  let? p := vm_path terminal in
  Some (bool_decide (k = p)).

Definition confirm_nonexistence_with_index (self : VerifiedMultiProof) (key_path : KeyPath)
    (index : nat) : outcome KeyOutOfScope bool :=
  let! path := or_panic (vmp_inner self !! index) in
  let! in_scope := or_panic (terminal_contains path key_path) in
  if in_scope then or_panic (confirm_nonexistence_inner self key_path index)
  else Err key_out_of_scope.

Definition confirm_value_with_index (self : VerifiedMultiProof) (expected_leaf : LeafData)
    (index : nat) : outcome KeyOutOfScope bool :=
  let! path := or_panic (vmp_inner self !! index) in
  let! in_scope := or_panic (terminal_contains path (Trie.key_path expected_leaf)) in
  if in_scope then or_panic (confirm_value_inner self expected_leaf index)
  else Err key_out_of_scope.
End queries.

(** ** [CommonSiblings] *)

Record CommonSiblings := {
  bisection_stack : list VerifiedBisection;
  stack : list (nat * Node);
  taken_siblings : nat;
  terminal_index : nat;
  bisection_index : nat;
}.

Definition CommonSiblings_new : CommonSiblings :=
  {| bisection_stack := []; stack := []; taken_siblings := 0;
     terminal_index := 0; bisection_index := 0 |}.

Fixpoint pop_while {A} (f : A → bool) (l : list A) : list A :=
  match l with
  | x :: l' => if f x then pop_while f l' else l
  | [] => []
  end.

(** The stacks have their top at the head. *)
Definition pop_to (self : CommonSiblings) (depth : nat) : CommonSiblings :=
  {| bisection_stack := pop_while (λ b, depth <=? start_depth b) (bisection_stack self);
     stack := pop_while (λ dn, depth <=? fst dn) (stack self);
     taken_siblings := taken_siblings self;
     terminal_index := terminal_index self;
     bisection_index := bisection_index self |}.

Definition extend (self : CommonSiblings) (start_depth end_ : nat) (siblings : list Node)
    (reverse : bool) : option CommonSiblings :=
  let? s := slice siblings (taken_siblings self) end_ in
  let s := if reverse then rev s else s in
  Some {| bisection_stack := bisection_stack self;
          stack := rev (imap (λ i sibling, (start_depth + i, sibling)) s) ++ stack self;
          taken_siblings := end_;
          terminal_index := terminal_index self;
          bisection_index := bisection_index self |}.

(** The loop of [advance] over the bisections before a terminal. *)
Fixpoint advance_loop (fuel : nat) (self : CommonSiblings) (proof : VerifiedMultiProof)
    (next_terminal : VerifiedMultiPath) (prune : bool) : option CommonSiblings :=
  if (unique_siblings next_terminal).1 =? taken_siblings self then Some self
  else
    match fuel with
    | 0 => None
    | S fuel' =>
        let? next_bisection := bisections proof !! bisection_index self in
        let? _ := oassert ((common_siblings next_bisection).1 =? taken_siblings self) in
        let self :=
          {| bisection_stack := bisection_stack self; stack := stack self;
             taken_siblings := taken_siblings self; terminal_index := terminal_index self;
             bisection_index := bisection_index self + 1 |} in
        let self := if prune then pop_to self (start_depth next_bisection) else self in
        let? self := extend self (start_depth next_bisection + 1) (common_siblings next_bisection).2
                            (vmp_siblings proof) false in
        let self :=
          {| bisection_stack := next_bisection :: bisection_stack self; stack := stack self;
             taken_siblings := taken_siblings self; terminal_index := terminal_index self;
             bisection_index := bisection_index self |} in
        advance_loop fuel' self proof next_terminal false
    end.

Definition advance (self : CommonSiblings) (proof : VerifiedMultiProof) : option CommonSiblings :=
  let? next_terminal := vmp_inner proof !! terminal_index self in
  let? self := advance_loop (S (length (bisections proof))) self proof next_terminal true in
  let terminal_n := (unique_siblings next_terminal).2 - (unique_siblings next_terminal).1 in
  let? _ := oassert (terminal_n <=? vm_depth next_terminal) in
  let? self := extend self (vm_depth next_terminal - terminal_n + 1)
                      (unique_siblings next_terminal).2 (vmp_siblings proof) true in
  Some {| bisection_stack := bisection_stack self; stack := stack self;
          taken_siblings := taken_siblings self; terminal_index := terminal_index self + 1;
          bisection_index := bisection_index self |}.

Definition pop_if_at_depth (self : CommonSiblings) (depth : nat) : option Node * CommonSiblings :=
  match stack self with
  | (d, n) :: rest =>
      if d =? depth then
        (Some n, {| bisection_stack := bisection_stack self; stack := rest;
                    taken_siblings := taken_siblings self; terminal_index := terminal_index self;
                    bisection_index := bisection_index self |})
      else (None, self)
  | [] => (None, self)
  end.

(** ** [verify_update] *)

Inductive MultiVerifyUpdateError :=
| MultiOpsOutOfOrder
| MultiOpOutOfScope
| MultiUpdRootMismatch
| PathPrefixOfAnother.

Section multi_update.
Context `{NodeHasher}.

(** The loop of [hash_and_compact_terminal] over the bits of the terminal's path. *)
Fixpoint compact_terminal (bits : list bool) (cur_node : Node) (cur_layer : nat)
    (pending_siblings : list (Node * nat)) (common : CommonSiblings) :
    option (Node * list (Node * nat) * CommonSiblings) :=
  match bits with
  | [] => Some (cur_node, pending_siblings, common)
  | bit :: bits' =>
      let? (sibling, pending_siblings, common) :=
        match pending_siblings with
        | (n, l) :: rest =>
            if l =? cur_layer then Some (n, rest, (pop_if_at_depth common cur_layer).2)
            else
              let '(sibling, common) := pop_if_at_depth common cur_layer in
              let? sibling := sibling in Some (sibling, pending_siblings, common)
        | [] =>
            let '(sibling, common) := pop_if_at_depth common cur_layer in
            let? sibling := sibling in Some (sibling, pending_siblings, common)
        end in
      compact_terminal bits' (compact_node bit cur_node sibling) (cur_layer - 1)
        pending_siblings common
  end.

Definition hash_and_compact_terminal (pending_siblings : list (Node * nat))
    (terminal : VerifiedMultiPath) (next_terminal : option VerifiedMultiPath)
    (common : CommonSiblings) (ops : list (KeyPath * option ValueHash)) :
    outcome MultiVerifyUpdateError (list (Node * nat) * CommonSiblings) :=
  let leaf := as_leaf_option (vm_terminal terminal) in
  let skip := vm_depth terminal in
  let! up_layers :=
    match next_terminal with
    | Some next_terminal =>
        let n := shared_bits (terminal_path (vm_terminal terminal))
                             (terminal_path (vm_terminal next_terminal)) in
        if n =? skip then Err PathPrefixOfAnother
        else if skip <? n + 1 then Panic
        else Ok (skip - (n + 1))
    | None => Ok skip
    end in
  let ops := leaf_ops_spliced leaf ops in
  let! (sub_root, _) := or_panic (build_trie skip ops) in
  let end_layer := skip - up_layers in
  let! path := or_panic (vm_path terminal) in
  let! (cur_node, pending_siblings, common) :=
    or_panic (compact_terminal (take up_layers (rev path)) sub_root skip pending_siblings common) in
  Ok ((cur_node, end_layer) :: pending_siblings, common).

Definition ingest_state : Type := list (Node * nat) * CommonSiblings.

(** [common_siblings.advance] and [hash_and_compact_terminal] for one terminal. *)
Definition ingest (proof : VerifiedMultiProof) (st : ingest_state) (index : nat)
    (next_terminal : option VerifiedMultiPath) (ops : list (KeyPath * option ValueHash)) :
    outcome MultiVerifyUpdateError ingest_state :=
  let '(pending_siblings, common) := st in
  let! terminal := or_panic (vmp_inner proof !! index) in
  let! common := or_panic (advance common proof) in
  hash_and_compact_terminal pending_siblings terminal next_terminal common ops.

(** The terminals [start .. start + n], none of which but [updated] has operations. *)
Fixpoint ingest_range (proof : VerifiedMultiProof) (st : ingest_state) (start n : nat)
    (updated : nat) (working_ops : list (KeyPath * option ValueHash)) :
    outcome MultiVerifyUpdateError ingest_state :=
  match n with
  | 0 => Ok st
  | S n' =>
      let! st := ingest proof st start (vmp_inner proof !! (start + 1))
                        (if start =? updated then working_ops else []) in
      ingest_range proof st (start + 1) n' updated working_ops
  end.

(** The search for the terminal of a key, from an index on. *)
Fixpoint find_terminal (inner : list VerifiedMultiPath) (index : nat) (key : KeyPath) :
    outcome MultiVerifyUpdateError nat :=
  match inner with
  | [] => Err MultiOpOutOfScope
  | v :: inner' =>
      let! c := or_panic (terminal_contains v key) in
      if (c : bool) then Ok index else find_terminal inner' (index + 1) key
  end.

Record update_state := {
  us_st : ingest_state;
  last_key : option KeyPath;
  last_terminal_index : option nat;
  next_pending_terminal_index : option nat;
  working_ops : list (KeyPath * option ValueHash);
}.

(** One operation. *)
Definition update_op (proof : VerifiedMultiProof) (us : update_state)
    (op : KeyPath * option ValueHash) : outcome MultiVerifyUpdateError update_state :=
  let key := op.1 in
  if match last_key us with Some k => negb (bytes_ltb k key) | None => false end
  then Err MultiOpsOutOfOrder
  else
    let from := default 0 (last_terminal_index us) in
    let! next_terminal_index := find_terminal (drop from (vmp_inner proof)) from key in
    match last_terminal_index us with
    | Some updated_index =>
        if updated_index =? next_terminal_index then
          Ok {| us_st := us_st us; last_key := Some key;
                last_terminal_index := Some next_terminal_index;
                next_pending_terminal_index := next_pending_terminal_index us;
                working_ops := working_ops us ++ [op] |}
        else
          let start := default 0 (next_pending_terminal_index us) in
          let! st := ingest_range proof (us_st us) start (updated_index - start) updated_index [] in
          let! st := ingest proof st updated_index (vmp_inner proof !! (updated_index + 1))
                            (working_ops us) in
          Ok {| us_st := st; last_key := Some key;
                last_terminal_index := Some next_terminal_index;
                next_pending_terminal_index := Some (updated_index + 1);
                working_ops := [op] |}
    | None =>
        Ok {| us_st := us_st us; last_key := Some key;
              last_terminal_index := Some next_terminal_index;
              next_pending_terminal_index := next_pending_terminal_index us;
              working_ops := working_ops us ++ [op] |}
    end.

Fixpoint update_ops (proof : VerifiedMultiProof) (us : update_state)
    (ops : list (KeyPath * option ValueHash)) : outcome MultiVerifyUpdateError update_state :=
  match ops with
  | [] => Ok us
  | op :: ops' => let! us := update_op proof us op in update_ops proof us ops'
  end.

Definition verify_multi_proof_update (proof : VerifiedMultiProof)
    (ops : list (KeyPath * option ValueHash)) : outcome MultiVerifyUpdateError Node :=
  let! us := update_ops proof
    {| us_st := ([], CommonSiblings_new); last_key := None; last_terminal_index := None;
       next_pending_terminal_index := None; working_ops := [] |} ops in
  let updated_terminal_index := default 0 (last_terminal_index us) in
  let start := default 0 (next_pending_terminal_index us) in
  let! (pending_siblings, _) :=
    ingest_range proof (us_st us) start (length (vmp_inner proof) - start)
      updated_terminal_index (working_ops us) in
  Ok (default (vmp_root proof) (fst <$> head pending_siblings)).
End multi_update.
