(* ===== verification/MultiProofCorrect.v ===== *)
(** * The correctness of multi-proofs

    A multi-proof that verifies against the commitment of a trie describes paths of
    that trie (without a collision among the hashed preimages); the multi-proof
    assembled from honest, ordered path proofs verifies; and the answers of a
    verified multi-proof are the truth.  For the update of a multi-proof of one path the
    file shows that it combines the siblings in the wrong order, so that the root it
    returns is not the root of the trie. *)

From S2P Require Import Prelude PageId TriePos Trie Update TrieSpec PathProof MultiProof.

(** ** Ordered lists of paths *)

Section ordered.
Context {A : Type} (f : A → list bool).

Definition psorted (l : list A) : Prop := StronglySorted (λ a b, bits_lt (f a) (f b)) l.

Definition bit_side (i : nat) (a : A) : option comparison :=
  let? bit := f a !! i in Some (if (bit : bool) then Gt else Lt).

Lemma psorted_last l e x : psorted l → last l = Some e → x ∈ l → x = e ∨ bits_lt (f x) (f e).
Proof.
  unfold psorted. induction 1 as [|y l Hs IH Hy]; [done|]. intros Hl Hx.
  destruct l as [|z l]; [simpl in Hl; simplify_eq; set_solver|].
  change (last (z :: l) = Some e) in Hl. apply elem_of_cons in Hx as [->|Hx]; [|by apply IH].
  right. rewrite list.Forall_forall in Hy. apply Hy. by apply last_Some_elem_of.
Qed.

(** What the first and the last path share, all share. *)
Lemma psorted_share Q s l e :
  psorted (s :: l) → last (s :: l) = Some e → Q `prefix_of` f s → Q `prefix_of` f e →
  Forall (λ a, Q `prefix_of` f a) (s :: l).
Proof.
  intros Hs Hl HQs HQe. apply list.Forall_forall. intros x Hx.
  destruct (psorted_last _ _ _ Hs Hl Hx) as [->|Hxe]; [done|].
  apply elem_of_cons in Hx as [->|Hx]; [done|].
  apply StronglySorted_inv in Hs as [_ Hs]. rewrite list.Forall_forall in Hs.
  eapply prefix_between; [exact HQs|exact HQe|by apply Hs|done].
Qed.

Lemma psorted_search Q l :
  psorted l → Forall (λ a, Q `prefix_of` f a) l →
  search_sorted (λ a, default Lt (bit_side (length Q) a)) l.
Proof.
  intros Hs HQ i j x y Hij Hx Hy. unfold bit_side.
  assert (Hlt : bits_lt (f x) (f y)).
  { revert i j Hij Hx Hy. unfold psorted in Hs. induction Hs as [|z l Hs IH Hz]; [done|].
    intros [|i] [|j] Hij Hx Hy; simpl in *; simplify_eq; try lia.
    - rewrite list.Forall_forall in Hz. apply Hz. by eapply list_elem_of_lookup_2.
    - apply list.Forall_cons in HQ as [_ HQ]. eapply (IH HQ i j); [lia|done..]. }
  rewrite list.Forall_forall in HQ.
  destruct (HQ x) as [sx Hsx]; [by eapply list_elem_of_lookup_2|].
  destruct (HQ y) as [sy Hsy]; [by eapply list_elem_of_lookup_2|].
  unfold bits_lt in Hlt. rewrite Hsx, Hsy, bits_compare_app in Hlt. rewrite Hsx, Hsy.
  rewrite !lookup_app_r, !Nat.sub_diag by done.
  destruct sx as [|[] sx], sy as [|[] sy]; done.
Qed.

(** The bisection of a block of paths that share [Q]. *)
Lemma bisect_spec Q l r :
  psorted l → Forall (λ a, Q `prefix_of` f a) l →
  try_binary_search_by (bit_side (length Q)) l = Some r →
  ∃ i, r = inr i ∧ i ≤ length l ∧
    Forall (λ a, f a = Q ∨ Q ++ [false] `prefix_of` f a) (take i l) ∧
    Forall (λ a, Q ++ [true] `prefix_of` f a) (drop i l).
Proof.
  intros Hs HQ Hr. apply (try_binary_search_by_some _ _ _ Lt) in Hr.
  pose proof (binary_search_by_spec _ _ (psorted_search _ _ Hs HQ)) as Hb. rewrite Hr in Hb.
  assert (Hside : ∀ a, a ∈ l → match default Lt (bit_side (length Q) a) with
    | Lt => f a = Q ∨ Q ++ [false] `prefix_of` f a
    | Eq => False
    | Gt => Q ++ [true] `prefix_of` f a end).
  { intros a Ha. rewrite list.Forall_forall in HQ. destruct (HQ a Ha) as [s Hsa].
    unfold bit_side. rewrite Hsa, lookup_app_r, Nat.sub_diag by done.
    destruct s as [|[] s]; simpl.
    - left. by rewrite app_nil_r.
    - exists s. by rewrite <-app_assoc.
    - right. exists s. by rewrite <-app_assoc. }
  destruct r as [i|i].
  - destruct Hb as (x & Hx & Heq). specialize (Hside x). rewrite Heq in Hside.
    destruct Hside. by eapply list_elem_of_lookup_2.
  - destruct Hb as (Hi & Hlo & Hhi). exists i. split_and!; [done|done|..].
    + apply list.Forall_forall. intros a [j Hj]%list_elem_of_lookup.
      apply lookup_take_Some in Hj as [Hj Hji]. specialize (Hside a).
      rewrite (Hlo j a) in Hside by done. apply Hside. by eapply list_elem_of_lookup_2.
    + apply list.Forall_forall. intros a [j Hj]%list_elem_of_lookup.
      rewrite lookup_drop in Hj. specialize (Hside a).
      rewrite (Hhi (i + j) a) in Hside by (done || lia). apply Hside. by eapply list_elem_of_lookup_2.
Qed.

(** It does not panic when every path is longer than what is shared. *)
Lemma bisect_total Q l :
  psorted l → Forall (λ a, Q `prefix_of` f a ∧ f a ≠ Q) l →
  ∃ i, try_binary_search_by (bit_side (length Q)) l = Some (inr i) ∧ i ≤ length l ∧
    Forall (λ a, Q ++ [false] `prefix_of` f a) (take i l) ∧
    Forall (λ a, Q ++ [true] `prefix_of` f a) (drop i l).
Proof.
  intros Hs HQ.
  assert (Hdef : ∀ a, a ∈ l → bit_side (length Q) a = Some (default Lt (bit_side (length Q) a))).
  { intros a Ha. rewrite list.Forall_forall in HQ. destruct (HQ a Ha) as [[s Hsa] Hne].
    unfold bit_side. rewrite Hsa, lookup_app_r, Nat.sub_diag by done.
    destruct s as [|[] s]; simpl; [|done..]. by rewrite app_nil_r in Hsa. }
  pose proof (try_binary_search_by_total _ _ _ Hdef) as Ht.
  assert (HQ' : Forall (λ a, Q `prefix_of` f a) l)
    by (eapply Forall_impl; [exact HQ|]; by intros a []).
  destruct (bisect_spec Q l _ Hs HQ' Ht) as (i & Hi & Hle & Hlo & Hhi).
  exists i. rewrite Ht, Hi. split_and!; [done|done| |done].
  apply list.Forall_forall. intros a Ha. rewrite list.Forall_forall in HQ, Hlo.
  destruct (Hlo a Ha) as [Heq|]; [|done].
  destruct (HQ a) as [_ []]; [|done]. by eapply elem_of_take in Ha as (j & Ha%list_elem_of_lookup_2 & _).
Qed.
End ordered.

(** ** Soundness of the verification *)

Definition tpath (m : MultiPathProof) : list bool := terminal_path (mp_terminal m).
Definition vpath (v : VerifiedMultiPath) : list bool :=
  take (vm_depth v) (terminal_path (vm_terminal v)).

Section sound.
Context `{NodeHasherLaws}.

Definition bisect_index (i : nat) (paths : list MultiPathProof) : nat :=
  match try_binary_search_by (bit_side tpath i) paths with Some (inr i) => i | _ => 0 end.

(** Everything [verify_range] hashes. *)
Fixpoint range_preimages (fuel sd : nat) (paths : list MultiPathProof) (siblings : list Node)
    (off : nat) : list preimage :=
  match paths with
  | [] => []
  | [m] =>
      preimages (terminal_trie (as_leaf_option (mp_terminal m))) ++
      path_preimages (terminal_node (mp_terminal m)) (take (mp_depth m - sd) (drop sd (tpath m)))
        (take (mp_depth m - sd) siblings)
  | start :: _ =>
      match fuel with
      | 0 => []
      | S fuel' =>
          let c := shared_bits (drop sd (tpath start)) (drop sd (tpath (default start (last paths)))) in
          let idx := bisect_index (sd + c) paths in
          match verify_range fuel' (sd + c + 1) (take idx paths) (drop c siblings) (off + c) with
          | Some (ln, lu, _, _) =>
              match verify_range fuel' (sd + c + 1) (drop idx paths) (drop (c + lu) siblings)
                      (off + c + lu) with
              | Some (rn, _, _, _) =>
                  let i := {| left := ln; right := rn |} in
                  PreInternal i ::
                  path_preimages (hash_internal i) (take c (drop sd (tpath start))) (take c siblings) ++
                  range_preimages fuel' (sd + c + 1) (take idx paths) (drop c siblings) (off + c) ++
                  range_preimages fuel' (sd + c + 1) (drop idx paths) (drop (c + lu) siblings)
                    (off + c + lu)
              | None => []
              end
          | None => []
          end
      end
  end.

Lemma slice_from_inv {A} (l : list A) a r : slice_from l a = Some r → a ≤ length l ∧ r = drop a l.
Proof. unfold slice_from. case_match eqn:E; [|done]. apply Nat.leb_le in E. by intros [= <-]. Qed.

Lemma slice_inv {A} (l : list A) a b r :
  slice l a b = Some r → a ≤ b ∧ b ≤ length l ∧ r = take (b - a) (drop a l).
Proof.
  unfold slice. case_match eqn:E; [|done]. apply andb_prop in E as [E1%Nat.leb_le E2%Nat.leb_le].
  by intros [= <-].
Qed.

Lemma verify_terminal_inv sd m siblings off node used vps vbs :
  verify_terminal sd m siblings off = Some (node, used, vps, vbs) →
  sd ≤ mp_depth m ∧ mp_depth m ≤ length (tpath m) ∧ used = mp_depth m - sd ∧
  used ≤ length siblings ∧
  node = hash_path (terminal_node (mp_terminal m)) (take used (drop sd (tpath m)))
           (rev (take used siblings)) ∧
  vps = [{| vm_terminal := mp_terminal m; vm_depth := mp_depth m; unique_siblings := (off, off + used) |}].
Proof.
  unfold verify_terminal. case_match eqn:Hd; [done|]. apply Nat.ltb_ge in Hd. cbv zeta.
  destruct (slice (terminal_path _) _ _) as [bits|] eqn:Hb; [|done]. cbn [mbind option_bind].
  destruct (slice siblings _ _) as [ss|] eqn:Hs; [|done]. cbn [mbind option_bind].
  intros [= <- <- <- <-]. apply slice_inv in Hb as (_ & Hb & ->), Hs as (_ & Hs & ->).
  unfold tpath. rewrite drop_0, Nat.sub_0_r.
  replace (sd + (mp_depth m - sd) - sd) with (mp_depth m - sd) by lia. split_and!; auto; lia.
Qed.

(** The parts of a successful bisection. *)
Lemma verify_range_inv fuel sd s m l siblings off node used vps vbs :
  let paths := s :: m :: l in
  let c := shared_bits (drop sd (tpath s)) (drop sd (tpath (default s (last paths)))) in
  let idx := bisect_index (sd + c) paths in
  verify_range fuel sd paths siblings off = Some (node, used, vps, vbs) →
  ∃ fuel' ln lu vpl vbl rn ru vpr vbr,
    fuel = S fuel' ∧ sd ≤ length (tpath s) ∧ c ≤ length siblings ∧
    try_binary_search_by (bit_side tpath (sd + c)) paths = Some (inr idx) ∧
    verify_range fuel' (sd + c + 1) (take idx paths) (drop c siblings) (off + c) = Some (ln, lu, vpl, vbl) ∧
    verify_range fuel' (sd + c + 1) (drop idx paths) (drop (c + lu) siblings) (off + c + lu) =
      Some (rn, ru, vpr, vbr) ∧
    node = hash_path (hash_internal {| left := ln; right := rn |}) (take c (drop sd (tpath s)))
             (rev (take c siblings)) ∧
    used = c + lu + ru ∧ vps = vpl ++ vpr.
Proof.
  intros paths c idx Hv. destruct fuel as [|fuel']; [done|]. exists fuel'.
  destruct (last paths) as [e|] eqn:He; [|by apply last_None in He].
  unfold paths in Hv. cbn [verify_range] in Hv. fold paths in Hv. fold (tpath s) in Hv.
  rewrite He in Hv. cbn [mbind option_bind] in Hv. fold (tpath e) in Hv.
  destruct (slice_from (tpath s) sd) as [sb|] eqn:Hsb; [|done].
  destruct (slice_from (tpath e) sd) as [eb|] eqn:Heb; [|done].
  apply slice_from_inv in Hsb as [Hsb ->], Heb as [Heb ->].
  subst c idx. simpl default in *. cbv zeta in Hv. cbn [mbind option_bind] in Hv.
  set (c := shared_bits (drop sd (tpath s)) (drop sd (tpath e))) in *.
  rewrite Nat.add_sub in Hv. unfold bisect_index.
  change (λ p, side_of_bit (sd + c) (mp_terminal p)) with (bit_side tpath (sd + c)) in Hv.
  destruct (try_binary_search_by (bit_side tpath (sd + c)) paths) as [[i|i]|] eqn:Hi; try done.
  cbn [mbind option_bind unwrap_err] in Hv.
  destruct (slice_from siblings c) as [ls|] eqn:Hls; [|done]. cbn [mbind option_bind] in Hv.
  apply slice_from_inv in Hls as [Hls ->].
  destruct (verify_range fuel' _ (take i paths) _ _) as [[[[ln lu] vpl] vbl]|] eqn:Hl; [|done].
  cbn [mbind option_bind] in Hv.
  destruct (slice_from siblings (c + lu)) as [rs|] eqn:Hrs; [|done]. cbn [mbind option_bind] in Hv.
  apply slice_from_inv in Hrs as [Hrs ->].
  destruct (verify_range fuel' _ (drop i paths) _ _) as [[[[rn ru] vpr] vbr]|] eqn:Hr; [|done].
  cbn [mbind option_bind] in Hv.
  destruct (slice (tpath s) sd (sd + c)) as [bits|] eqn:Hb; [|done]. cbn [mbind option_bind] in Hv.
  destruct (slice siblings 0 c) as [ss|] eqn:Hss; [|done]. cbn [mbind option_bind] in Hv.
  apply slice_inv in Hb as (_ & _ & ->), Hss as (_ & _ & ->). simplify_eq.
  exists ln, lu, vpl, vbl, rn, ru, vpr, vbr. rewrite drop_0, Nat.sub_0_r.
  replace (sd + c - sd) with c by lia. split_and!; done.
Qed.

(** A verified terminal is true of the trie [t] at [P]. *)
Definition true_terminal (t : trie) (P : list bool) (v : VerifiedMultiPath) : Prop :=
  vm_depth v ≤ length (terminal_path (vm_terminal v)) ∧ P `prefix_of` vpath v ∧
  ∃ ss, descend t (drop (length P) (vpath v)) =
          Some (terminal_trie (as_leaf_option (vm_terminal v)), ss).

(** Ascending, and none a prefix of another. *)
Definition apart (v w : VerifiedMultiPath) : Prop :=
  bits_lt (vpath v) (vpath w) ∧ ¬ vpath v `prefix_of` vpath w.

Lemma verify_range_single fuel sd m siblings off :
  verify_range fuel sd [m] siblings off = verify_terminal sd m siblings off.
Proof. by destruct fuel. Qed.

Lemma verify_range_short fuel sd s l siblings off :
  length (tpath s) < sd → verify_range fuel sd (s :: l) siblings off = None.
Proof.
  intros Hs. destruct l as [|m l].
  - rewrite verify_range_single. unfold verify_terminal, slice. fold (tpath s). case_match eqn:Hd; [done|]. cbv zeta.
    rewrite (proj2 (Nat.leb_gt _ (length (tpath s)))) by lia. by rewrite andb_false_r.
  - destruct fuel as [|fuel]; [done|]. cbn [verify_range].
    destruct (last (s :: m :: l)) as [e|]; cbn [mbind option_bind]; [|done].
    assert (slice_from (tpath s) sd = None) as Hn
      by (unfold slice_from; by rewrite (proj2 (Nat.leb_gt _ _))).
    unfold tpath in Hn. by rewrite Hn.
Qed.

(** The two sides of a bisection that verified. *)
Lemma bisection_sides P s m l e a b p i :
  let paths := s :: m :: l in
  let Q := P ++ p in
  psorted tpath paths → last paths = Some e →
  tpath s = Q ++ a → tpath e = Q ++ b → (∀ x a' b', a = x :: a' → b ≠ x :: b') →
  a ≠ [] →
  Forall (λ x, tpath x = Q ∨ Q ++ [false] `prefix_of` tpath x) (take i paths) →
  Forall (λ x, Q ++ [true] `prefix_of` tpath x) (drop i paths) →
  take i paths ≠ [] ∧ drop i paths ≠ [] ∧
  Forall (λ x, Q ++ [false] `prefix_of` tpath x) (take i paths).
Proof.
  intros paths Q Hs He Hsa Heb Hne Ha Hlo Hhi.
  assert (Hbit : ∀ y z c, Q ++ [c] `prefix_of` Q ++ y → Q ++ [c] `prefix_of` Q ++ z →
            (∃ y' z', y = c :: y' ∧ z = c :: z')).
  { intros y z c [u Hu] [w Hw]. rewrite <-app_assoc in Hu, Hw. simplify_list_eq. by eexists _, _. }
  assert (Hei : e ∈ paths) by (by apply last_Some_elem_of).
  assert (Hi : i ≠ 0).
  { intros ->. rewrite drop_0, list.Forall_forall in Hhi.
    destruct (Hbit a b true) as (a' & b' & Ea & Eb).
    - rewrite <-Hsa. apply Hhi. apply list_elem_of_here.
    - rewrite <-Heb. by apply Hhi.
    - by apply (Hne true a' b'). }
  destruct i as [|i]; [done|].
  assert (Hlo' : Forall (λ x, Q ++ [false] `prefix_of` tpath x) (take (S i) paths)).
  { apply list.Forall_forall. intros x Hx. rewrite list.Forall_forall in Hlo.
    destruct (Hlo x Hx) as [Hxq|]; [|done]. exfalso.
    simpl in Hx. apply elem_of_cons in Hx as [->|Hx].
    { rewrite Hsa in Hxq. rewrite <-(app_nil_r Q) in Hxq at 2. by simplify_list_eq. }
    apply StronglySorted_inv in Hs as [_ Hs]. rewrite list.Forall_forall in Hs.
    apply elem_of_take in Hx as (j & Hx%list_elem_of_lookup_2 & _). specialize (Hs x Hx).
    unfold bits_lt in Hs. rewrite Hsa, Hxq, <-(app_nil_r Q), <-app_assoc, bits_compare_app in Hs.
    by destruct a. }
  split_and!; [done| |done]. intros Hnil.
  rewrite <-(take_drop (S i) paths), Hnil, app_nil_r in Hei. rewrite list.Forall_forall in Hlo'.
  destruct (Hbit a b false) as (a' & b' & Ea & Eb).
  - rewrite <-Hsa. apply Hlo'. apply list_elem_of_here.
  - rewrite <-Heb. by apply Hlo'.
  - by apply (Hne false a' b').
Qed.

Lemma psorted_sub {A} (f : A → list bool) (l : list A) i :
  psorted f l → psorted f (take i l) ∧ psorted f (drop i l).
Proof.
  intros Hs. unfold psorted in *. rewrite <-(take_drop i l) in Hs.
  apply StronglySorted_app in Hs as (_ & H1 & H2). done.
Qed.

Lemma true_terminal_below t l r P p (b : bool) ss v :
  descend t p = Some (TInternal l r, ss) →
  true_terminal (if b then r else l) ((P ++ p) ++ [b]) v → true_terminal t P v.
Proof.
  intros Hd (Hl & [w Hw] & ss' & Hd'). split; [done|].
  rewrite Hw, drop_app_length in Hd'. rewrite Hw, <-!app_assoc.
  split; [by eexists|]. rewrite drop_app_length, (descend_app _ _ _ _ _ Hd). simpl.
  destruct b; rewrite Hd'; simpl; by eexists.
Qed.

Lemma apart_sides t1 t2 Q v w :
  true_terminal t1 (Q ++ [false]) v → true_terminal t2 (Q ++ [true]) w → apart v w.
Proof.
  intros (_ & [a Ha] & _) (_ & [b Hb] & _). unfold apart, bits_lt.
  rewrite Ha, Hb, <-!app_assoc, bits_compare_app. split; [done|].
  intros [c Hc]. rewrite <-!app_assoc in Hc. by simplify_list_eq.
Qed.

Lemma verify_terminal_sound fuel P m siblings off node used vps vbs t :
  P `prefix_of` tpath m →
  verify_terminal (length P) m siblings off = Some (node, used, vps, vbs) →
  collision_free (preimages t ++ range_preimages fuel (length P) [m] siblings off) →
  node = node_of t → Forall (true_terminal t P) vps ∧ StronglySorted apart vps.
Proof.
  intros [w Hw] (H1 & H2 & -> & H3 & -> & ->)%verify_terminal_inv Hcf Hn.
  split; [|repeat constructor]. constructor; [|constructor].
  split; [done|]. unfold vpath. simpl. fold (tpath m).
  split; [exists (take (mp_depth m - length P) w); by rewrite Hw, take_app_ge by lia|].
  exists (take (mp_depth m - length P) siblings).
  replace (range_preimages fuel (length P) [m] siblings off) with
    (range_preimages 0 (length P) [m] siblings off) in Hcf by (by destruct fuel).
  simpl in Hcf. rewrite skipn_firstn_comm. rewrite terminal_node_of in Hcf, Hn.
  apply hash_path_sound; [rewrite !length_take, length_drop; lia|done|done].
Qed.

(** A bisection that verified, with its sides as blocks below a common prefix. *)
Lemma verify_range_bisect fuel P s m l siblings off node used vps vbs :
  let paths := s :: m :: l in
  psorted tpath paths → Forall (λ x, P `prefix_of` tpath x) paths →
  verify_range fuel (length P) paths siblings off = Some (node, used, vps, vbs) →
  ∃ fuel' p idx ln lu vpl vbl rn ru vpr vbr,
    let i := {| left := ln; right := rn |} in
    let sl := drop (length p) siblings in
    let sr := drop (length p + lu) siblings in
    fuel = S fuel' ∧ length p ≤ length siblings ∧ take idx paths ≠ [] ∧ drop idx paths ≠ [] ∧
    Forall (λ x, (P ++ p) ++ [false] `prefix_of` tpath x) (take idx paths) ∧
    Forall (λ x, (P ++ p) ++ [true] `prefix_of` tpath x) (drop idx paths) ∧
    verify_range fuel' (length ((P ++ p) ++ [false])) (take idx paths) sl (off + length p) =
      Some (ln, lu, vpl, vbl) ∧
    verify_range fuel' (length ((P ++ p) ++ [true])) (drop idx paths) sr (off + length p + lu) =
      Some (rn, ru, vpr, vbr) ∧
    node = hash_path (hash_internal i) p (rev (take (length p) siblings)) ∧ vps = vpl ++ vpr ∧
    range_preimages fuel (length P) paths siblings off =
      PreInternal i :: path_preimages (hash_internal i) p (take (length p) siblings) ++
      range_preimages fuel' (length ((P ++ p) ++ [false])) (take idx paths) sl (off + length p) ++
      range_preimages fuel' (length ((P ++ p) ++ [true])) (drop idx paths) sr (off + length p + lu).
Proof.
  intros paths Hs HP Hv.
  pose proof Hv as (fuel' & ln & lu & vpl & vbl & rn & ru & vpr & vbr & -> & _ & Hc &
    Hbis & Hl & Hr & -> & _ & ->)%verify_range_inv. fold paths in Hc, Hbis, Hl, Hr.
  destruct (last paths) as [e|] eqn:He; [|by apply last_None in He].
  pose proof (last_Some_elem_of _ _ He) as Hein. rewrite list.Forall_forall in HP.
  destruct (HP s ltac:(apply list_elem_of_here)) as [S HS], (HP e Hein) as [E HE].
  destruct (common_prefix_len_split S E) as (p & a & b & Ha & Hb & Hp & Hdiff).
  assert (Hcm : shared_bits (drop (length P) (tpath s)) (drop (length P) (tpath e)) = length p)
    by (by rewrite HS, HE, !drop_app_length).
  assert (HsQ : tpath s = (P ++ p) ++ a) by (by rewrite HS, Ha, app_assoc).
  assert (HeQ : tpath e = (P ++ p) ++ b) by (by rewrite HE, Hb, app_assoc).
  assert (HQ : Forall (λ x, P ++ p `prefix_of` tpath x) paths)
    by (apply (psorted_share tpath _ _ _ e); [done|done|by eexists..]).
  simpl default in *. rewrite Hcm in *. rewrite <-length_app in *.
  set (idx := bisect_index (length (P ++ p)) paths) in *.
  destruct (bisect_spec tpath _ _ _ Hs HQ Hbis) as (i & [= <-] & Hi & Hlo & Hhi).
  assert (Hane : a ≠ []).
  { intros ->. destruct (decide (idx = 0)) as [E0|E0].
    - rewrite E0, drop_0, list.Forall_forall in Hhi. destruct (Hhi s (list_elem_of_here _ _)) as [w Hw].
      rewrite HsQ, <-!app_assoc in Hw. by simplify_list_eq.
    - destruct idx as [|j]; [done|]. simpl take in Hl.
      rewrite verify_range_short in Hl; [done|]. rewrite HsQ, app_nil_r. lia. }
  destruct (bisection_sides P s m l e a b p idx) as (Hnl & Hnr & Hlo'); try done.
  { intros x a' b' -> ->. done. }
  assert (Hsn : ∀ x, length ((P ++ p) ++ [x]) = length (P ++ p) + 1)
    by (intros x; by rewrite length_snoc, Nat.add_1_r).
  exists fuel', p, idx, ln, lu, vpl, vbl, rn, ru, vpr, vbr. rewrite !Hsn.
  split_and!; try done.
  { change (last (m :: l)) with (last paths). rewrite He. simpl default.
    by rewrite Hcm, HS, drop_app_length, Ha, take_app_length. }
  unfold paths. cbn [range_preimages]. fold paths. rewrite He. simpl default.
  rewrite Hcm, <-length_app. fold idx. rewrite Hl, Hr, HS, drop_app_length, Ha. by rewrite take_app_length.
Qed.

Lemma verify_range_sound fuel P paths siblings off node used vps vbs t :
  psorted tpath paths → paths ≠ [] → Forall (λ m, P `prefix_of` tpath m) paths →
  verify_range fuel (length P) paths siblings off = Some (node, used, vps, vbs) →
  collision_free (preimages t ++ range_preimages fuel (length P) paths siblings off) →
  node = node_of t →
  Forall (true_terminal t P) vps ∧ StronglySorted apart vps.
Proof.
  revert P paths siblings off node used vps vbs t.
  induction fuel as [|fuel IH]; intros P paths siblings off node used vps vbs t Hs Hne HP Hv Hcf Hn;
    (destruct paths as [|s [|m l]]; [done| |]).
  1, 3: rewrite verify_range_single in Hv; apply list.Forall_cons in HP as [HP _];
        by eapply verify_terminal_sound.
  { done. }
  destruct (verify_range_bisect _ _ _ _ _ _ _ _ _ _ _ Hs HP Hv) as (fuel' & p & idx & ln & lu & vpl &
    vbl & rn & ru & vpr & vbr & [= <-] & Hc & Hnl & Hnr & Hlo & Hhi & Hl & Hr & Hnode & -> & Hpre).
  rewrite Hpre in Hcf. rewrite Hnode in Hn.
  destruct (hash_path_inv (hash_internal {| left := ln; right := rn |}) p (take (length p) siblings) t)
    as (t' & Hd & Hnt & Hsub); [rewrite length_take; lia| |done|].
  { eapply collision_free_mono; [|exact Hcf]. set_solver. }
  pose proof (f_equal node_kind Hnt) as Hk. rewrite node_kind_internal in Hk.
  destruct t' as [|d|tl tr]; simpl in Hk; rewrite ?node_kind_terminator, ?node_kind_leaf in Hk; try done.
  simpl in Hsub.
  assert (PreInternal {| left := node_of tl; right := node_of tr |} =
          PreInternal {| left := ln; right := rn |}) as [= Hln Hrn].
  { apply Hcf; [set_solver..|done]. }
  destruct (psorted_sub tpath _ idx Hs) as [Hs1 Hs2].
  destruct (IH _ _ _ _ _ _ _ _ tl Hs1 Hnl Hlo Hl) as [HL1 HL2]; [|done|].
  { eapply collision_free_mono; [|exact Hcf]. set_solver. }
  destruct (IH _ _ _ _ _ _ _ _ tr Hs2 Hnr Hhi Hr) as [HR1 HR2]; [|done|].
  { eapply collision_free_mono; [|exact Hcf]. set_solver. }
  split.
  - apply Forall_app. split; (eapply Forall_impl; [eassumption|]); intros v Hv'.
    + by apply (true_terminal_below t tl tr P p false _ _ Hd).
    + by apply (true_terminal_below t tl tr P p true _ _ Hd).
  - apply StronglySorted_app. split_and!; [|done|done]. intros v w Hvv Hww.
    rewrite list.Forall_forall in HL1, HR1. eapply apart_sides; [by apply HL1|by apply HR1].
Qed.
End sound.

(** ** Queries of a true multi-proof *)

Section multi_queries.
Context `{NodeHasherLaws}.

(** A verified multi-proof is true of a trie: its paths are ascending paths of the
    trie, none a prefix of another, ending in its terminals. *)
Definition true_multi (t : trie) (v : VerifiedMultiProof) : Prop :=
  Forall (true_terminal t []) (vmp_inner v) ∧ StronglySorted apart (vmp_inner v) ∧
  vmp_root v = node_of t.

Lemma paths_ordered_psorted paths : paths_ordered paths = true → psorted tpath paths.
Proof.
  unfold psorted. intros Ho. apply Sorted_StronglySorted.
  { intros a b c. by apply (transitivity (R := bits_lt)). }
  induction paths as [|p [|q paths] IH]; [constructor|by repeat constructor|].
  cbn [paths_ordered] in Ho. apply andb_prop in Ho as [Hlt%bits_ltb_lt Ho].
  constructor; [by apply IH|]. by constructor.
Qed.

(** Comparing a path with the bits of a key it covers. *)
Definition cmp_prefix (K p : list bool) : comparison := bits_compare p (take (length p) K).

Lemma cmp_prefix_lt K p s : length p ≤ length K → cmp_prefix K p = Lt → bits_lt (p ++ s) K.
Proof.
  intros Hl Hc. rewrite <-(take_drop (length p) K). apply bits_lt_extend; [done|].
  intros Hp%prefix_full; [|rewrite length_take; lia].
  unfold cmp_prefix in Hc. rewrite <-Hp, bits_compare_refl in Hc. done.
Qed.

Lemma cmp_prefix_gt K p s : length p ≤ length K → cmp_prefix K p = Gt → bits_lt K (p ++ s).
Proof.
  intros Hl Hc. rewrite <-(take_drop (length p) K).
  apply bits_lt_extend; [unfold bits_lt, cmp_prefix in *; by rewrite bits_compare_antisym, Hc|].
  intros Hp%prefix_full; [|rewrite length_take; lia].
  unfold cmp_prefix in Hc. rewrite Hp, bits_compare_refl in Hc. done.
Qed.

Lemma cmp_prefix_eq K p : cmp_prefix K p = Eq ↔ p `prefix_of` K.
Proof.
  unfold cmp_prefix. split.
  - intros Hp%bits_compare_eq. exists (drop (length p) K). rewrite Hp at 1. by rewrite take_drop.
  - intros Hp. by rewrite (prefix_take p K Hp), bits_compare_refl.
Qed.

Lemma cmp_prefix_mono K x y :
  length x ≤ length K → length y ≤ length K → bits_lt x y → ¬ x `prefix_of` y →
  (cmp_prefix K y = Lt → cmp_prefix K x = Lt) ∧ (cmp_prefix K x = Gt → cmp_prefix K y = Gt).
Proof.
  intros Hx Hy Hlt Hnp.
  assert (Hirr : ∀ a b, bits_lt a b → bits_lt b a → False).
  { intros a b H1 H2. destruct (irreflexivity bits_lt _ (transitivity H1 H2)). }
  split; intros Hc.
  - pose proof (cmp_prefix_lt K y [] Hy Hc) as Hyk. rewrite app_nil_r in Hyk.
    destruct (cmp_prefix K x) eqn:E; [|done|]; exfalso.
    + apply cmp_prefix_eq in E as [s Hs].
      pose proof (bits_lt_extend x y s [] Hlt Hnp) as Hext. rewrite app_nil_r, <-Hs in Hext.
      by eapply Hirr.
    + pose proof (cmp_prefix_gt K x [] Hx E) as Hkx. rewrite app_nil_r in Hkx.
      eapply Hirr; [exact Hlt|]. by eapply (transitivity (R := bits_lt)).
  - pose proof (cmp_prefix_gt K x [] Hx Hc) as Hkx. rewrite app_nil_r in Hkx.
    destruct (cmp_prefix K y) eqn:E; [| |done]; exfalso.
    + apply cmp_prefix_eq in E as [s Hs].
      pose proof (bits_lt_extend x y [] s Hlt Hnp) as Hext. rewrite app_nil_r, <-Hs in Hext.
      by eapply Hirr.
    + pose proof (cmp_prefix_lt K y [] Hy E) as Hyk. rewrite app_nil_r in Hyk.
      eapply Hirr; [exact Hlt|]. by eapply (transitivity (R := bits_lt)).
Qed.

Context (kvs : ops_t) (Hkvs : block [] kvs) (v : VerifiedMultiProof).
Context (Hv : true_multi (trie_at 0 kvs) v).

Lemma true_multi_terminal w :
  w ∈ vmp_inner v →
  vm_path w = Some (vpath w) ∧ length (vpath w) = vm_depth w ∧ vm_depth w ≤ 256 ∧
  ∃ ss, descend (trie_at 0 kvs) (vpath w) = Some (terminal_trie (as_leaf_option (vm_terminal w)), ss).
Proof.
  intros Hw. destruct Hv as (Hf & _ & _). rewrite list.Forall_forall in Hf.
  destruct (Hf w Hw) as (Hl & _ & ss & Hd). simpl in Hd. rewrite drop_0 in Hd.
  assert (Hlen : length (vpath w) = vm_depth w) by (unfold vpath; rewrite length_take; lia).
  split_and!; [|done| |by eexists].
  - unfold vm_path. rewrite slice_Some by lia. by rewrite drop_0, Nat.sub_0_r.
  - apply descend_terminal_under in Hd as [Hd _]; [|done]. lia.
Qed.

Lemma compare_terminal_spec k w :
  length k = 32 → w ∈ vmp_inner v →
  compare_terminal k w = Some (cmp_prefix (view_bits k) (vpath w)).
Proof.
  intros Hk Hw. destruct (true_multi_terminal w Hw) as (Hp & Hl & Hd & _).
  unfold compare_terminal. rewrite Hp. cbn [mbind option_bind].
  rewrite slice_Some by (rewrite ?length_view_bits; lia). cbn [mbind option_bind].
  unfold cmp_prefix. by rewrite drop_0, Nat.sub_0_r, Hl.
Qed.

Lemma find_index_for_spec k :
  length k = 32 →
  match find_index_for v k with
  | Ok i => ∃ w, vmp_inner v !! i = Some w ∧ vpath w `prefix_of` view_bits k
  | Err _ => Forall (λ w, ¬ vpath w `prefix_of` view_bits k) (vmp_inner v)
  | Panic => False
  end.
Proof.
  intros Hk. unfold find_index_for.
  rewrite (try_binary_search_by_total _ (λ w, cmp_prefix (view_bits k) (vpath w)))
    by (intros w Hw; by apply compare_terminal_spec).
  assert (Hss : search_sorted (λ w, cmp_prefix (view_bits k) (vpath w)) (vmp_inner v)).
  { intros i j x y Hij Hx Hy. destruct Hv as (_ & Hs & _).
    destruct (true_multi_terminal x) as (_ & Hlx & Hdx & _); [by eapply list_elem_of_lookup_2|].
    destruct (true_multi_terminal y) as (_ & Hly & Hdy & _); [by eapply list_elem_of_lookup_2|].
    assert (apart x y) as [Hlt Hnp].
    { clear -Hs Hij Hx Hy. revert i j Hij Hx Hy. induction Hs as [|z l Hs IH Hz]; [done|].
      intros [|i] [|j] Hij Hx Hy; simpl in *; simplify_eq; try lia.
      - rewrite list.Forall_forall in Hz. apply Hz. by eapply list_elem_of_lookup_2.
      - eapply (IH i j); [lia|done..]. }
    apply cmp_prefix_mono; [rewrite length_view_bits; lia..|done|done]. }
  pose proof (binary_search_by_spec _ _ Hss) as Hb. simpl or_panic. cbn [obind].
  destruct (binary_search_by _ _) as [i|i].
  - destruct Hb as (w & Hw & Hc). exists w. split; [done|]. by apply cmp_prefix_eq.
  - destruct Hb as (Hi & Hlo & Hhi). apply list.Forall_forall.
    intros w [j Hj]%list_elem_of_lookup Hp%cmp_prefix_eq.
    destruct (decide (j < i)) as [Hji|Hji]; [by rewrite (Hlo j w) in Hp|].
    rewrite (Hhi j w) in Hp; [done|lia|done].
Qed.

Lemma find_index_for_scope k :
  length k = 32 →
  if bool_decide (Exists (λ w, vpath w `prefix_of` view_bits k) (vmp_inner v))
  then ∃ i w, find_index_for v k = Ok i ∧ vmp_inner v !! i = Some w ∧
         assoc kvs k = leaf_value (as_leaf_option (vm_terminal w)) k
  else find_index_for v k = Err key_out_of_scope.
Proof.
  intros Hk. pose proof (find_index_for_spec k Hk) as Hf.
  destruct (find_index_for v k) as [i|[]|]; [| |done]; case_bool_decide as He.
  - destruct Hf as (w & Hw & Hp). exists i, w. split_and!; [done|done|].
    destruct (true_multi_terminal w) as (_ & _ & _ & ss & Hd); [by eapply list_elem_of_lookup_2|].
    by eapply descend_terminal_assoc.
  - destruct He. destruct Hf as (w & Hw & Hp). apply Exists_exists. exists w.
    split; [by eapply list_elem_of_lookup_2|done].
  - apply Exists_exists in He as (w & Hw & Hp). rewrite list.Forall_forall in Hf. by destruct (Hf w Hw).
  - done.
Qed.
End multi_queries.

(** ** Honest proofs *)

Section complete.
Context `{NodeHasher} (t0 : trie).

Definition fpath (pp : PathProof) : list bool := terminal_path (terminal pp).
Definition ppath (pp : PathProof) : list bool := take (length (siblings pp)) (fpath pp).

(** An honest path proof: the path of the trie down to the terminal, with its
    siblings; a terminator names its own position. *)
Definition honest (pp : PathProof) : Prop :=
  descend t0 (ppath pp) = Some (terminal_trie (as_leaf_option (terminal pp)), siblings pp) ∧
  length (fpath pp) ≤ 256 ∧
  match terminal pp with TermLeaf _ => True | TermTerminator _ => ppath pp = fpath pp end.

Definition honest_below (P : list bool) (pp : PathProof) : Prop :=
  honest pp ∧ P `prefix_of` ppath pp.

Definition to_multi (pp : PathProof) : MultiPathProof :=
  {| mp_terminal := terminal pp; mp_depth := length (siblings pp) |}.

Lemma honest_length pp : honest pp → length (ppath pp) = length (siblings pp).
Proof. intros [Hd _]. symmetry. by eapply descend_length. Qed.

Lemma ppath_fpath pp : ppath pp `prefix_of` fpath pp.
Proof. exists (drop (length (siblings pp)) (fpath pp)). unfold ppath. by rewrite take_drop. Qed.

Lemma honest_same a b : honest a → honest b → ppath a = ppath b → fpath a = fpath b.
Proof.
  intros (Ha & _ & Hta) (Hb & _ & Htb) Heq. rewrite Heq, Hb in Ha. unfold fpath in *.
  destruct (terminal a) as [d|], (terminal b) as [d'|]; simplify_eq/=; congruence.
Qed.

Lemma prefix_weaken {A} (P Q : list A) l : P ++ Q `prefix_of` l → P `prefix_of` l.
Proof. intros Hl. etrans; [|exact Hl]. by apply prefix_app_r. Qed.

Lemma snoc_lookup {A} (P l : list A) x : P ++ [x] `prefix_of` l → l !! length P = Some x.
Proof. intros [s ->]. rewrite <-app_assoc. by apply list_lookup_middle. Qed.

(** A proof below an internal node goes on past it. *)
Lemma honest_next P l r ss pp :
  descend t0 P = Some (TInternal l r, ss) → honest_below P pp →
  ∃ b, P ++ [b] `prefix_of` ppath pp.
Proof.
  intros Hd [(Hh & _) [s Hs]]. destruct s as [|b s].
  - rewrite app_nil_r in Hs. rewrite Hs, Hd in Hh. by destruct (as_leaf_option (terminal pp)).
  - exists b, s. by rewrite Hs, <-app_assoc.
Qed.

Lemma honest_bit P b b' pp :
  P ++ [b] `prefix_of` ppath pp → P ++ [b'] `prefix_of` fpath pp → b = b'.
Proof.
  intros Hb Hb'. assert (Hbf : P ++ [b] `prefix_of` fpath pp) by (etrans; [exact Hb|apply ppath_fpath]).
  apply snoc_lookup in Hbf, Hb'. congruence.
Qed.

Lemma honest_order P s e b b' :
  s = e ∨ bits_lt (fpath s) (fpath e) →
  P ++ [b] `prefix_of` ppath s → P ++ [b'] `prefix_of` ppath e →
  b = b' ∨ b = false ∧ b' = true.
Proof.
  intros [->|Hlt] Hb Hb'; [left; apply snoc_lookup in Hb, Hb'; congruence|].
  destruct (transitivity Hb (ppath_fpath s)) as [x Hx], (transitivity Hb' (ppath_fpath e)) as [y Hy].
  unfold bits_lt in Hlt. rewrite Hx, Hy, <-!app_assoc, bits_compare_app in Hlt.
  destruct b, b'; simpl in Hlt; auto; done.
Qed.

(** Below a terminal there is one proof. *)
Lemma honest_terminal leaf P ss s m g :
  descend t0 P = Some (terminal_trie leaf, ss) →
  Forall (honest_below P) (s :: m :: g) → ¬ psorted fpath (s :: m :: g).
Proof.
  intros Hd Hf Hs. apply list.Forall_cons in Hf as [[Hs1 [w Hw]] Hf].
  apply list.Forall_cons in Hf as [[Hm1 [w' Hw']] _].
  assert (Hsm : ppath s = ppath m).
  { pose proof Hs1 as [E1 _]. pose proof Hm1 as [E2 _]. rewrite Hw in E1. rewrite Hw' in E2.
    apply (descend_terminal_prefix _ _ _ _ _ _ Hd) in E1, E2. congruence. }
  apply StronglySorted_inv in Hs as [_ Hs]. apply list.Forall_cons in Hs as [Hs _].
  rewrite (honest_same s m Hs1 Hm1 Hsm) in Hs. destruct (irreflexivity bits_lt _ Hs).
Qed.

(** Where the proofs of a block part. *)
Lemma honest_bisect t P ss s m g e :
  let gs := s :: m :: g in
  descend t0 P = Some (t, ss) → Forall (honest_below P) gs → psorted fpath gs →
  last gs = Some e →
  ∃ C l r sc, descend t C = Some (TInternal l r, sc) ∧ Forall (honest_below (P ++ C)) gs ∧
    (P ++ C) ++ [false] `prefix_of` ppath s ∧ (P ++ C) ++ [true] `prefix_of` ppath e.
Proof.
  intros gs. revert P ss. induction t as [|d|l IHl r IHr]; intros P ss Hd Hf Hs He.
  - destruct (honest_terminal None P ss s m g Hd Hf Hs).
  - destruct (honest_terminal (Some d) P ss s m g Hd Hf Hs).
  - pose proof (last_Some_elem_of _ _ He) as Hein. pose proof Hf as Hf'. rewrite list.Forall_forall in Hf'.
    destruct (honest_next P l r ss s Hd (Hf' _ (list_elem_of_here _ _))) as [b Hb].
    destruct (honest_next P l r ss e Hd (Hf' _ Hein)) as [b' Hb'].
    destruct (honest_order P s e b b') as [<-|[-> ->]]; [|done|done| |].
    { by apply (psorted_last fpath gs); [|..|apply list_elem_of_here]. }
    + assert (Hall : Forall (honest_below (P ++ [b])) gs).
      { assert (Hsh : Forall (λ a, P ++ [b] `prefix_of` fpath a) gs).
        { apply (psorted_share fpath _ _ _ e); [done|done|..];
            (etrans; [|apply ppath_fpath]); done. }
        rewrite list.Forall_forall in Hsh |- *. intros x Hx. destruct (Hf' x Hx) as [Hh Hp].
        split; [done|]. destruct (honest_next P l r ss x Hd (conj Hh Hp)) as [c Hc].
        by rewrite (honest_bit P c b x) in Hc by auto. }
      pose proof (descend_snoc _ _ _ _ _ b Hd) as Hd'.
      assert (Hrec : ∃ C l' r' sc, descend (if b then r else l) C = Some (TInternal l' r', sc) ∧
        Forall (honest_below ((P ++ [b]) ++ C)) gs ∧ ((P ++ [b]) ++ C) ++ [false] `prefix_of` ppath s ∧
        ((P ++ [b]) ++ C) ++ [true] `prefix_of` ppath e) by (destruct b; eauto).
      destruct Hrec as (C & l' & r' & sc & HC & Hrest). rewrite <-app_assoc in Hrest.
      exists (b :: C), l', r'. eexists. split; [|exact Hrest]. simpl. by rewrite HC.
    + exists [], l, r, []. by rewrite app_nil_r.
Qed.

Lemma prove_unique_none r pps :
  lower r + 1 < upper r → prove_unique_path_remainder r pps = Some None.
Proof.
  intros Hr. unfold prove_unique_path_remainder.
  rewrite (proj2 (Nat.leb_le 1 _)), (proj2 (Nat.eqb_neq _ _)) by lia. done.
Qed.

(** The loop of [from_path_proofs] over the bits all proofs of a range share. *)
Lemma loop_advance pps lo hi s e sc k fuel stack common paths sibs :
  pps !! lo = Some s → pps !! (hi - 1) = Some e → lo + 1 < hi →
  (∀ i, k ≤ i < k + length sc → ∃ b, fpath s !! i = Some b ∧ fpath e !! i = Some b) →
  sc `prefix_of` drop k (siblings s) →
  from_path_proofs_loop (length sc + fuel) pps {| lower := lo; upper := hi; path_bit_index := k |}
    stack common paths sibs =
  from_path_proofs_loop fuel pps {| lower := lo; upper := hi; path_bit_index := k + length sc |}
    stack (common ++ sc) paths sibs.
Proof.
  intros Hs He Hlo. revert k common. induction sc as [|x sc IH]; intros k common Hbits Hsc.
  { simpl. by rewrite Nat.add_0_r, app_nil_r. }
  assert (Hx : siblings s !! k = Some x).
  { destruct Hsc as [w Hw]. rewrite <-(Nat.add_0_r k), <-lookup_drop, Hw. done. }
  destruct (Hbits k) as (b & Hbs & Hbe); [simpl; lia|].
  change (length (x :: sc) + fuel) with (S (length sc + fuel)). cbn [from_path_proofs_loop].
  rewrite prove_unique_none by done. cbn [mbind option_bind].
  assert (Hstep : range_step {| lower := lo; upper := hi; path_bit_index := k |} pps =
    Some (Advance x {| lower := lo; upper := hi; path_bit_index := k + 1 |})).
  { unfold range_step. cbn [lower upper path_bit_index]. rewrite Hs, (proj2 (Nat.leb_le 1 hi)), He by lia.
    simpl. fold (fpath s) (fpath e). rewrite Hbs, Hbe. simpl. rewrite eqb_reflx. simpl.
    by rewrite Hx. }
  rewrite Hstep. cbn [mbind option_bind]. rewrite IH.
  - rewrite <-app_assoc. simpl. do 2 f_equal. lia.
  - intros i Hi. apply Hbits. simpl. lia.
  - destruct Hsc as [w Hw]. exists w. rewrite <-drop_drop, Hw. done.
Qed.

(** The step that bisects a range. *)
Lemma loop_bisect pps pre gs post s e Q :
  pps = pre ++ gs ++ post → head gs = Some s → last gs = Some e → 2 ≤ length gs →
  psorted fpath gs → Forall (honest_below Q) gs →
  Q ++ [false] `prefix_of` ppath s → Q ++ [true] `prefix_of` ppath e →
  Forall (λ a, fpath a ≠ Q) gs →
  ∃ i, try_binary_search_by (bit_side fpath (length Q)) gs = Some (inr i) ∧
    0 < i < length gs ∧
    Forall (λ a, Q ++ [false] `prefix_of` fpath a) (take i gs) ∧
    Forall (λ a, Q ++ [true] `prefix_of` fpath a) (drop i gs) ∧
    ∀ fuel stack common paths sibs,
    from_path_proofs_loop (S fuel) pps
      {| lower := length pre; upper := length pre + length gs; path_bit_index := length Q |}
      stack common paths sibs =
    from_path_proofs_loop fuel pps
      {| lower := length pre; upper := length pre + i; path_bit_index := length Q + 1 |}
      ({| lower := length pre + i; upper := length pre + length gs; path_bit_index := length Q + 1 |}
         :: stack) [] paths (sibs ++ common).
Proof.
  intros Hpps Hhd Hlast Hlen Hs Hf HQs HQe Hne.
  pose proof (transitivity HQs (ppath_fpath s)) as Hfs. pose proof (transitivity HQe (ppath_fpath e)) as Hfe.
  pose proof (snoc_lookup _ _ _ Hfs) as Hbs. pose proof (snoc_lookup _ _ _ Hfe) as Hbe.
  destruct (bisect_total fpath Q gs Hs) as (i & Hi & Hil & Hlo & Hhi).
  { rewrite list.Forall_forall in Hf, Hne |- *. intros x Hx. split; [|by apply Hne].
    etrans; [apply (Hf x Hx)|apply ppath_fpath]. }
  assert (Hi0 : 0 < i < length gs).
  { split.
    - destruct i; [|lia]. rewrite drop_0, list.Forall_forall in Hhi. destruct gs; [done|].
      simplify_eq/=. pose proof (snoc_lookup _ _ _ (Hhi s (list_elem_of_here _ _))). congruence.
    - destruct (decide (i = length gs)) as [E|]; [|lia]. rewrite E, firstn_all, list.Forall_forall in Hlo.
      pose proof (snoc_lookup _ _ _ (Hlo e (last_Some_elem_of _ _ Hlast))). congruence. }
  exists i. split_and!; try done; try lia. intros fuel stack common paths sibs.
  assert (H1 : pps !! length pre = Some s).
  { rewrite Hpps, lookup_app_r, Nat.sub_diag by lia. destruct gs; [done|]. by simplify_eq/=. }
  assert (H2 : pps !! (length pre + length gs - 1) = Some e).
  { rewrite Hpps, lookup_app_r, lookup_app_l by lia. rewrite last_lookup in Hlast.
    replace (length pre + length gs - 1 - length pre) with (pred (length gs)) by lia. done. }
  assert (H3 : slice pps (length pre) (length pre + length gs) = Some gs).
  { rewrite slice_Some by (rewrite ?Hpps, ?length_app; lia). rewrite Hpps, drop_app_length.
    replace (length pre + length gs - length pre) with (length gs) by lia. by rewrite take_app_length. }
  cbn [from_path_proofs_loop]. rewrite prove_unique_none by (simpl; lia). cbn [mbind option_bind].
  unfold range_step. cbn [lower upper path_bit_index].
  rewrite H1, (proj2 (Nat.leb_le 1 _)), H2, H3 by lia. cbn [mbind option_bind oassert].
  fold (fpath s) (fpath e). rewrite Hbs, Hbe. cbn [mbind option_bind Bool.eqb negb].
  change (λ p, side_of_bit (length Q) (terminal p)) with (bit_side fpath (length Q)).
  by rewrite Hi.
Qed.

(** The verification of a bisection from the verifications of its sides. *)
Lemma verify_bisection P C s m g e a b i sc sl sr rest off vf ln rn vpl vbl vpr vbr :
  let gs := s :: m :: g in
  last gs = Some e → fpath s = (P ++ C) ++ false :: a → fpath e = (P ++ C) ++ true :: b →
  length sc = length C →
  try_binary_search_by (bit_side fpath (length (P ++ C))) gs = Some (inr i) →
  verify_range vf (length (P ++ C) + 1) (to_multi <$> take i gs) (sl ++ sr ++ rest) (off + length C) =
    Some (ln, length sl, vpl, vbl) →
  verify_range vf (length (P ++ C) + 1) (to_multi <$> drop i gs) (sr ++ rest)
    (off + length C + length sl) = Some (rn, length sr, vpr, vbr) →
  ∃ vbs, verify_range (S vf) (length P) (to_multi <$> gs) (sc ++ sl ++ sr ++ rest) off =
    Some (hash_path (hash_internal {| left := ln; right := rn |}) C (rev sc),
          length (sc ++ sl ++ sr), vpl ++ vpr, vbs).
Proof.
  intros gs He Hs Hel Hsc Hi Hl Hr.
  rewrite fmap_take in Hl. rewrite fmap_drop in Hr. set (ms := to_multi <$> gs) in *.
  assert (Hlast : last ms = Some (to_multi e)) by (unfold ms; by rewrite fmap_last, He).
  assert (Hbis : try_binary_search_by (bit_side tpath (length (P ++ C))) ms = Some (inr i))
    by (unfold ms; by rewrite try_binary_search_by_fmap).
  assert (Hms : ms = to_multi s :: to_multi m :: (to_multi <$> g)) by done.
  rewrite Hms. cbn [verify_range]. rewrite <-Hms, Hlast. cbn [mbind option_bind].
  change (terminal_path (mp_terminal (to_multi s))) with (fpath s).
  change (terminal_path (mp_terminal (to_multi e))) with (fpath e).
  rewrite Hs, Hel, <-!app_assoc. rewrite !slice_from_Some by (rewrite !length_app; lia).
  cbn [mbind option_bind]. rewrite !drop_app_length.
  assert (Hc : shared_bits (C ++ false :: a) (C ++ true :: b) = length C)
    by (unfold shared_bits; by rewrite common_prefix_len_diverge).
  rewrite Hc. cbv zeta. rewrite Nat.add_sub, <-length_app.
  change (λ p, side_of_bit (length (P ++ C)) (mp_terminal p)) with (bit_side tpath (length (P ++ C))).
  rewrite Hbis. cbn [mbind option_bind unwrap_err].
  rewrite slice_from_Some, <-Hsc, drop_app_length by (rewrite !length_app; lia). cbn [mbind option_bind].
  rewrite Hsc, Hl. cbn [mbind option_bind].
  rewrite slice_from_Some by (rewrite !length_app; lia). cbn [mbind option_bind].
  rewrite <-(drop_drop _ (length sl) (length C)), <-Hsc, drop_app_length, drop_app_length.
  rewrite Hsc, Hr.
  cbn [mbind option_bind]. rewrite length_app.
  rewrite (slice_Some (P ++ C ++ false :: a)) by (rewrite ?length_app; simpl; lia).
  replace (length P + length C - length P) with (length C) by lia.
  rewrite drop_app_length, take_app_length. cbn [mbind option_bind].
  rewrite slice_Some by (rewrite ?length_app; lia). cbn [mbind option_bind].
  rewrite drop_0, Nat.sub_0_r, <-Hsc, take_app_length. eexists. do 4 f_equal.
  rewrite !length_app. lia.
Qed.

(** What is left of the loop when a range is done. *)
Definition finish_loop (fuel : nat) (pps : list PathProof) (stack : list PathProofRange)
    (paths : list MultiPathProof) (sibs : list Node) : option MultiProof :=
  match stack with
  | [] => Some {| mp_paths := paths; mp_siblings := sibs |}
  | v :: stack => from_path_proofs_loop fuel pps v stack [] paths sibs
  end.

(** A block of proofs below [P]: what it contributes, and that it verifies. *)
Definition group_ok (pps : list PathProof) (lo : nat) (P : list bool) (t : trie)
    (gs : list PathProof) (sibs : list Node) (k : nat) : Prop :=
  k + 257 ≤ 258 * length gs ∧
  (∀ fuel stack paths sibs',
     from_path_proofs_loop (k + fuel) pps
       {| lower := lo; upper := lo + length gs; path_bit_index := length P |} stack [] paths sibs' =
     finish_loop fuel pps stack (paths ++ (to_multi <$> gs)) (sibs' ++ sibs)) ∧
  (∀ vf rest off, 257 ≤ length P + vf → ∃ vps vbs,
     verify_range vf (length P) (to_multi <$> gs) (sibs ++ rest) off =
       Some (node_of t, length sibs, vps, vbs) ∧
     (λ v, (vm_terminal v, vm_depth v)) <$> vps = (λ pp, (terminal pp, length (siblings pp))) <$> gs).

Lemma descend_split P t ss w x sibs :
  descend t0 P = Some (t, ss) → descend t0 (P ++ w) = Some (x, sibs) →
  ∃ ss', descend t w = Some (x, ss') ∧ sibs = ss ++ ss'.
Proof.
  intros Hd Hw. rewrite (descend_app _ _ _ _ _ Hd) in Hw.
  destruct (descend t w) as [[x' ss']|]; simplify_eq/=. by eexists.
Qed.

Lemma group_single pps lo P t ss s :
  descend t0 P = Some (t, ss) → honest_below P s → pps !! lo = Some s →
  group_ok pps lo P t [s] (drop (length P) (siblings s)) 1.
Proof.
  intros Hd [Hh [w Hw]] Hlo. pose proof (honest_length s Hh) as Hlen. pose proof Hh as (Hds & _ & _).
  rewrite Hw in Hds. destruct (descend_split _ _ _ _ _ _ Hd Hds) as (ss' & Hdw & Hsib).
  pose proof (descend_length _ _ _ _ Hd) as HlP. pose proof (descend_length _ _ _ _ Hdw) as Hlw.
  assert (Hdrop : drop (length P) (siblings s) = ss') by (by rewrite Hsib, <-HlP, drop_app_length).
  assert (Hsl : length (siblings s) = length P + length ss') by (rewrite Hsib, length_app; lia).
  rewrite Hdrop. split_and!; [simpl; lia| |].
  - intros fuel stack paths sibs'. simpl Nat.add. cbn [from_path_proofs_loop].
    unfold prove_unique_path_remainder. cbn [lower upper path_bit_index length].
    rewrite (proj2 (Nat.leb_le 1 _)), Nat.add_sub, Nat.eqb_refl, Hlo by lia. simpl.
    rewrite Hdrop, <-Hsl. by destruct stack.
  - intros vf rest off _. simpl fmap. rewrite verify_range_single. unfold verify_terminal. simpl.
    rewrite Hsl, (proj2 (Nat.ltb_ge _ _)) by lia.
    replace (length P + length ss' - length P) with (length ss') by lia.
    assert (Hbits : take (length ss') (drop (length P) (fpath s)) = w).
    { replace (length ss') with (length (siblings s) - length P) by lia.
      rewrite <-skipn_firstn_comm. fold (ppath s). by rewrite Hw, drop_app_length. }
    assert (Hfl : length P + length ss' ≤ length (fpath s))
      by (rewrite <-Hsl, <-Hlen; apply prefix_length, ppath_fpath).
    fold (fpath s). rewrite !slice_Some by (rewrite ?length_app; lia). cbn [mbind option_bind].
    replace (length P + length ss' - length P) with (length ss') by lia.
    rewrite Hbits, drop_0, Nat.sub_0_r, take_app_length, terminal_node_of.
    rewrite (hash_path_descend _ _ _ _ Hdw). by eexists _, _.
Qed.

(** The proofs of one side of a bisection. *)
Lemma honest_side Q l r ss b gs :
  descend t0 Q = Some (TInternal l r, ss) → Forall (honest_below Q) gs →
  Forall (λ a, Q ++ [b] `prefix_of` fpath a) gs → Forall (honest_below (Q ++ [b])) gs.
Proof.
  intros Hd Hf Hb. rewrite list.Forall_forall in Hf, Hb |- *. intros x Hx.
  destruct (Hf x Hx) as [Hh Hp]. split; [done|].
  destruct (honest_next Q l r ss x Hd (conj Hh Hp)) as [c Hc].
  by rewrite (honest_bit Q c b x) in Hc by auto.
Qed.

(** The steps of the loop from a block to its two sides. *)
Lemma loop_to_sides pps pre s m g post e P C sc :
  let gs := s :: m :: g in
  let Q := P ++ C in
  pps = pre ++ gs ++ post → last gs = Some e → psorted fpath gs → Forall (honest_below Q) gs →
  Q ++ [false] `prefix_of` ppath s → Q ++ [true] `prefix_of` ppath e →
  length sc = length C → sc `prefix_of` drop (length P) (siblings s) →
  Forall (λ a, fpath a ≠ Q) gs →
  ∃ i, try_binary_search_by (bit_side fpath (length Q)) gs = Some (inr i) ∧ 0 < i < length gs ∧
    Forall (λ a, Q ++ [false] `prefix_of` fpath a) (take i gs) ∧
    Forall (λ a, Q ++ [true] `prefix_of` fpath a) (drop i gs) ∧
    ∀ fuel stack paths sibs',
      from_path_proofs_loop (length sc + S fuel) pps
        {| lower := length pre; upper := length pre + length gs; path_bit_index := length P |}
        stack [] paths sibs' =
      from_path_proofs_loop fuel pps
        {| lower := length pre; upper := length pre + i; path_bit_index := length Q + 1 |}
        ({| lower := length pre + i; upper := length pre + length gs; path_bit_index := length Q + 1 |}
           :: stack) [] paths (sibs' ++ sc).
Proof.
  intros gs Q Hpps He Hs HfQ HQs HQe Hsc Hpre Hne.
  destruct (loop_bisect pps pre gs post s e Q Hpps eq_refl He ltac:(simpl; lia) Hs HfQ HQs HQe Hne)
    as (i & Hi & Hil & Hlo & Hhi & Hloop).
  exists i. split_and!; try done; try lia. intros fuel stack paths sibs'.
  destruct (transitivity HQs (ppath_fpath s)) as [x Hx], (transitivity HQe (ppath_fpath e)) as [y Hy].
  rewrite (loop_advance pps _ _ s e); [|..|done].
  - rewrite Hsc, <-(length_app P C). apply Hloop.
  - rewrite Hpps. by apply (list_lookup_middle pre (m :: g ++ post)).
  - rewrite Hpps, lookup_app_r, lookup_app_l by (simpl; lia). rewrite last_lookup in He.
    rewrite <-He. f_equal. simpl. lia.
  - simpl. lia.
  - intros j Hj. rewrite Hsc, <-length_app in Hj. fold Q in Hj.
    destruct (lookup_lt_is_Some_2 Q j) as [b Hb]; [lia|]. exists b.
    rewrite Hx, Hy, <-!app_assoc. by rewrite !lookup_app_l by lia.
Qed.

Lemma group_join pps pre s m g post e P C t l r sc i sl sr kl kr :
  let gs := s :: m :: g in
  let Q := P ++ C in
  pps = pre ++ gs ++ post → last gs = Some e → length P ≤ 256 → length C ≤ 256 →
  descend t C = Some (TInternal l r, sc) → 0 < i < length gs →
  (∃ a b, fpath s = Q ++ false :: a ∧ fpath e = Q ++ true :: b) →
  try_binary_search_by (bit_side fpath (length Q)) gs = Some (inr i) →
  (∀ fuel stack paths sibs',
      from_path_proofs_loop (length sc + S fuel) pps
        {| lower := length pre; upper := length pre + length gs; path_bit_index := length P |}
        stack [] paths sibs' =
      from_path_proofs_loop fuel pps
        {| lower := length pre; upper := length pre + i; path_bit_index := length Q + 1 |}
        ({| lower := length pre + i; upper := length pre + length gs; path_bit_index := length Q + 1 |}
           :: stack) [] paths (sibs' ++ sc)) →
  group_ok pps (length pre) (Q ++ [false]) l (take i gs) sl kl →
  group_ok pps (length pre + i) (Q ++ [true]) r (drop i gs) sr kr →
  group_ok pps (length pre) P t gs (sc ++ sl ++ sr) (length sc + S (kl + kr)).
Proof.
  intros gs Q Hpps He HP HCl HC Hi (a & b & Ha & Hb) Hbis Hloop (Hkl & Hgl & Hvl) (Hkr & Hgr & Hvr).
  pose proof (descend_length _ _ _ _ HC) as Hsc.
  rewrite length_take in Hkl, Hgl. rewrite length_drop in Hkr, Hgr.
  rewrite Nat.min_l in Hkl, Hgl by lia. rewrite !length_snoc in Hgl, Hgr, Hvl, Hvr.
  replace (length pre + i + (length gs - i)) with (length pre + length gs) in Hgr by lia.
  split_and!; [lia| |].
  - intros fuel stack paths sibs'.
    replace (length sc + S (kl + kr) + fuel) with (length sc + S (kl + (kr + fuel))) by lia.
    rewrite Hloop, Nat.add_1_r, Hgl. cbn [finish_loop]. rewrite Hgr.
    rewrite <-!app_assoc, <-fmap_app, take_drop. done.
  - intros [|vf] rest off Hvf; [lia|].
    destruct (Hvl vf (sr ++ rest) (off + length C)) as (vpl & vbl & Hl & Hml).
    { unfold Q. rewrite length_app. lia. }
    destruct (Hvr vf rest (off + length C + length sl)) as (vpr & vbr & Hr & Hmr).
    { unfold Q. rewrite length_app. lia. }
    rewrite <-Nat.add_1_r in Hl, Hr.
    destruct (verify_bisection P C s m g e a b i sc sl sr rest off vf _ _ vpl vbl vpr vbr
                He Ha Hb Hsc Hbis Hl Hr) as (vbs & Hv).
    fold gs in Hv. rewrite <-!app_assoc. eexists _, vbs. rewrite Hv. split.
    + do 4 f_equal. by apply (hash_path_descend t C (TInternal l r)).
    + by rewrite fmap_app, Hml, Hmr, <-fmap_app, take_drop.
Qed.

Lemma multi_group pps n pre gs post P t ss :
  length gs ≤ n → gs ≠ [] → pps = pre ++ gs ++ post → descend t0 P = Some (t, ss) →
  Forall (honest_below P) gs → psorted fpath gs →
  ∃ sibs k, group_ok pps (length pre) P t gs sibs k.
Proof.
  revert pre gs post P t ss. induction n as [|n IH]; intros pre gs post P t ss Hn Hne Hpps Hd Hf Hs.
  { destruct gs; simpl in Hn; [done|lia]. }
  destruct gs as [|s [|m g]]; [done| |].
  { apply list.Forall_cons in Hf as [Hf _]. eexists _, _. apply (group_single _ _ _ _ ss); [done|done|].
    rewrite Hpps. by apply (list_lookup_middle pre post). }
  set (gs := s :: m :: g) in *. destruct (last gs) as [e|] eqn:He; [|by apply last_None in He].
  destruct (honest_bisect _ _ _ _ _ _ _ Hd Hf Hs He) as (C & l & r & sc & HC & HfQ & HQs & HQe).
  fold gs in HfQ. set (Q := P ++ C) in *.
  assert (HdQ : descend t0 Q = Some (TInternal l r, ss ++ sc)).
  { unfold Q. by rewrite (descend_app _ _ _ _ _ Hd), HC. }
  pose proof (descend_length _ _ _ _ Hd) as HlP.
  pose proof (list_elem_of_here s (m :: g)) as Hsin. fold gs in Hsin.
  assert (Hpre : sc `prefix_of` drop (length P) (siblings s)).
  { rewrite list.Forall_forall in HfQ. destruct (HfQ s Hsin) as [[Hds _] [w Hw]]. rewrite Hw in Hds.
    destruct (descend_split _ _ _ _ _ _ HdQ Hds) as (ss' & _ & ->). exists ss'.
    by rewrite <-app_assoc, <-HlP, drop_app_length. }
  assert (HneQ : Forall (λ a, fpath a ≠ Q) gs).
  { rewrite list.Forall_forall in HfQ |- *. intros x Hx Heq.
    destruct (honest_next Q l r _ x HdQ (HfQ x Hx)) as [c Hc].
    apply prefix_length in Hc. pose proof (prefix_length _ _ (ppath_fpath x)) as Hpl.
    rewrite Heq in Hpl. rewrite length_snoc in Hc. lia. }
  destruct (loop_to_sides pps pre s m g post e P C sc Hpps He Hs HfQ HQs HQe
              (descend_length _ _ _ _ HC) Hpre HneQ) as (i & Hbis & Hi & Hlo & Hhi & Hloop).
  fold gs Q in Hbis, Hi, Hlo, Hhi, Hloop. destruct (psorted_sub fpath gs i Hs) as [Hs1 Hs2].
  assert (Hf1 : Forall (honest_below Q) (take i gs)) by (by apply Forall_take).
  assert (Hf2 : Forall (honest_below Q) (drop i gs)) by (by apply Forall_drop).
  pose proof (honest_side _ _ _ _ false _ HdQ Hf1 Hlo) as Hb1.
  pose proof (honest_side _ _ _ _ true _ HdQ Hf2 Hhi) as Hb2.
  pose proof (descend_snoc _ _ _ _ _ false HdQ) as Hd1.
  pose proof (descend_snoc _ _ _ _ _ true HdQ) as Hd2. simpl in Hd1, Hd2.
  destruct (IH pre (take i gs) (drop i gs ++ post) (Q ++ [false]) l ((ss ++ sc) ++ [node_of r])) as (sl & kl & HL);
    [rewrite length_take; lia| |by rewrite (app_assoc (take i gs)), take_drop|
     exact Hd1|done|done|].
  { intros Hnil%(f_equal length). rewrite length_take in Hnil. cbn [length] in Hnil. lia. }
  destruct (IH (pre ++ take i gs) (drop i gs) post (Q ++ [true]) r ((ss ++ sc) ++ [node_of l])) as (sr & kr & HR);
    [rewrite length_drop; lia| |by rewrite <-app_assoc, (app_assoc (take i gs)), take_drop|
     exact Hd2|done|done|].
  { intros Hnil%(f_equal length). rewrite length_drop in Hnil. change (length []) with 0 in Hnil. lia. }
  rewrite length_app, length_take, Nat.min_l in HR by lia.
  assert (Hlen : length Q ≤ 256).
  { rewrite list.Forall_forall in HfQ. destruct (HfQ s Hsin) as [(_ & H256 & _) Hp].
    apply prefix_length in Hp. pose proof (prefix_length _ _ (ppath_fpath s)). lia. }
  unfold Q in Hlen. rewrite length_app in Hlen. eexists _, _.
  destruct (transitivity HQs (ppath_fpath s)) as [x Hx], (transitivity HQe (ppath_fpath e)) as [y Hy].
  rewrite <-app_assoc in Hx, Hy.
  eapply (group_join pps pre s m g post e P C t l r sc i sl sr kl kr); try done; try lia.
  by exists x, y.
Qed.
End complete.

(** ** Theorems *)

Section multi_theorems.
Context `{NodeHasherLaws}.

Lemma psorted_paths_ordered paths : psorted tpath paths → paths_ordered paths = true.
Proof.
  unfold psorted. induction 1 as [|p paths Hs IH Hp]; [done|]. destruct paths as [|q paths]; [done|].
  cbn [paths_ordered]. apply list.Forall_cons in Hp as [Hp _]. apply andb_true_intro.
  split; [by apply bits_ltb_lt|done].
Qed.

Lemma verify_multi_proof_inv mp root v :
  verify_multi_proof mp root = Ok v →
  psorted tpath (mp_paths mp) ∧ vmp_root v = root ∧ ∃ vbs,
    verify_range 257 0 (mp_paths mp) (mp_siblings mp) 0 =
      Some (root, length (mp_siblings mp), vmp_inner v, vbs).
Proof.
  unfold verify_multi_proof. destruct (paths_ordered _) eqn:Ho; [|done]. cbn [negb].
  destruct (verify_range _ _ _ _ _) as [[[[n u] vp] vb]|] eqn:Hv; [|done]. cbn [or_panic obind].
  case_bool_decide as Hr; [|done]. cbn [negb].
  destruct (Nat.eqb_spec u (length (mp_siblings mp))); [|done]. intros [= <-]. subst. simpl.
  split_and!; [by apply paths_ordered_psorted|done|by eexists].
Qed.

Lemma verify_multi_true (mp : MultiProof) (t : trie) (v : VerifiedMultiProof) :
  collision_free (preimages t ++ range_preimages 257 0 (mp_paths mp) (mp_siblings mp) 0) →
  verify_multi_proof mp (node_of t) = Ok v → true_multi t v.
Proof.
  intros Hcf (Hs & Hroot & vbs & Hv)%verify_multi_proof_inv. unfold true_multi.
  destruct (mp_paths mp) as [|m ps] eqn:E.
  - cbn [verify_range] in Hv. injection Hv as Hn _ <- _.
    assert (t = TTerminator) as ->.
    { apply (node_of_terminal t None); [|done]. eapply collision_free_mono; [|exact Hcf]. set_solver. }
    split_and!; [|repeat constructor|done]. constructor; [|constructor].
    split_and!; [simpl; lia|done|by eexists].
  - destruct (verify_range_sound 257 [] (m :: ps) (mp_siblings mp) 0 _ _ _ _ t Hs ltac:(done)
      ltac:(apply list.Forall_forall; intros; apply prefix_nil) Hv Hcf eq_refl) as [H1 H2]. done.
Qed.

(** C7: a multi-proof that verifies against the root of a trie tells the truth
    about it.  If [verify] accepts against the commitment of a trie [t], and no two
    of the preimages of [t] and of the verification collide, then every verified
    path is a path of [t] that ends in its terminal, and the paths are ascending
    with none a prefix of another; so is the single empty path of an empty
    multi-proof.  This holds for every multi-proof, however it was made. *)
Theorem multi_verify_sound (mp : MultiProof) (t : trie) (v : VerifiedMultiProof) :
  collision_free (preimages t ++ range_preimages 257 0 (mp_paths mp) (mp_siblings mp) 0) →
  verify_multi_proof mp (node_of t) = Ok v → true_multi t v.
Proof. apply verify_multi_true. Qed.

(** C21: the answers of a verified multi-proof are the truth.  For a multi-proof
    that is true of the trie of a set of pairs, the binary search of
    [find_index_for] never panics and finds a path covering the key whenever there
    is one, and then [confirm_value] and [confirm_nonexistence] answer whether the
    set has that value, or no value, for the key; otherwise both report a key out of
    scope. *)
Theorem multi_confirm_correct (kvs : ops_t) (v : VerifiedMultiProof) (expected : LeafData) :
  block [] kvs → true_multi (trie_at 0 kvs) v → length (key_path expected) = 32 →
  if bool_decide (Exists (λ w, vpath w `prefix_of` view_bits (key_path expected)) (vmp_inner v))
  then multi_confirm_value v expected =
         Ok (bool_decide (assoc kvs (key_path expected) = Some (value_hash expected))) ∧
       multi_confirm_nonexistence v (key_path expected) =
         Ok (bool_decide (assoc kvs (key_path expected) = None))
  else multi_confirm_value v expected = Err key_out_of_scope ∧
       multi_confirm_nonexistence v (key_path expected) = Err key_out_of_scope.
Proof.
  intros Hkvs Hv Hk. pose proof (find_index_for_scope kvs Hkvs v Hv _ Hk) as Hf.
  unfold multi_confirm_value, multi_confirm_nonexistence.
  case_bool_decide; [|by rewrite Hf]. destruct Hf as (i & w & Hi & Hw & Ha).
  rewrite Hi. cbn [obind]. unfold confirm_value_inner, confirm_nonexistence_inner. rewrite Hw, Ha. simpl.
  split; f_equal; (destruct (vm_terminal w) as [[k h]|]; simpl; [|done]);
    apply bool_decide_ext; destruct expected as [k' h']; simpl; case_bool_decide; naive_solver.
Qed.

(** C11: the multi-proof of honest path proofs verifies.  For path proofs of a trie
    in ascending order of their terminals' paths, [from_path_proofs] does not panic
    (its assertion that no common siblings are left over holds, and the loop ends),
    and [verify] accepts the result against the commitment of the trie, using every
    sibling, with one verified path per path proof, in order and with its terminal
    and depth. *)
Theorem multi_proof_complete (t : trie) (pps : list PathProof) :
  pps ≠ [] → Forall (honest t) pps → psorted fpath pps →
  ∃ mp v, from_path_proofs pps = Some mp ∧ verify_multi_proof mp (node_of t) = Ok v ∧
    vmp_root v = node_of t ∧
    (λ w, (vm_terminal w, vm_depth w)) <$> vmp_inner v =
      (λ pp, (terminal pp, length (siblings pp))) <$> pps.
Proof.
  intros Hne Hf Hs.
  destruct (multi_group t pps (length pps) [] pps [] [] t []) as (sibs & k & Hk & Hgen & Hver); try done.
  { by rewrite app_nil_r. }
  { eapply Forall_impl; [exact Hf|]. intros pp Hpp. split; [done|apply prefix_nil]. }
  destruct (Hver 257 [] 0) as (vps & vbs & Hv & Hmap); [simpl; lia|].
  rewrite app_nil_r in Hv.
  exists {| mp_paths := to_multi <$> pps; mp_siblings := sibs |}. eexists. split_and!.
  - unfold from_path_proofs. rewrite bool_decide_eq_false_2 by done.
    specialize (Hgen (258 * length pps - k) [] [] []).
    replace (k + (258 * length pps - k)) with (258 * length pps) in Hgen by lia. exact Hgen.
  - unfold verify_multi_proof. cbn [mp_paths mp_siblings].
    rewrite psorted_paths_ordered.
    + cbn [negb]. change (length []) with 0 in Hv. rewrite Hv. cbn [or_panic obind].
      rewrite bool_decide_eq_true_2, Nat.eqb_refl by done. reflexivity.
    + clear -Hs. unfold psorted in *. induction Hs as [|pp l Hs IH Hl]; [constructor|].
      simpl. constructor; [done|]. by apply Forall_fmap.
  - done.
  - done.
Qed.
End multi_theorems.

(** ** The update of a multi-proof of one path *)

Section single_update.
Context `{NodeHasher}.

(** Combining a node with the siblings of a path, from the last bit up. *)
Definition compact_path (node : Node) (path : list bool) (siblings : list Node) : Node :=
  foldl (λ node '(bit, sibling), compact_node bit node sibling) node (zip (rev path) siblings).

Definition single (m : MultiPathProof) (ss : list Node) : MultiProof := {| mp_paths := [m]; mp_siblings := ss |}.

Definition single_verified (m : MultiPathProof) (ss : list Node) (root : Node) : VerifiedMultiProof :=
  {| vmp_inner := [{| vm_terminal := mp_terminal m; vm_depth := mp_depth m; unique_siblings := (0, mp_depth m) |}];
     bisections := []; vmp_siblings := ss; vmp_root := root |}.

Definition single_path (m : MultiPathProof) : list bool := take (mp_depth m) (terminal_path (mp_terminal m)).

Lemma verify_single m ss root v :
  verify_multi_proof (single m ss) root = Ok v →
  v = single_verified m ss root ∧ length (single_path m) = mp_depth m ∧ length ss = mp_depth m ∧
  root = hash_path (terminal_node (mp_terminal m)) (single_path m) (rev ss).
Proof.
  unfold verify_multi_proof, single. cbn [mp_paths mp_siblings paths_ordered negb verify_range]. unfold verify_terminal.
  destruct (Nat.ltb_spec (mp_depth m) 0); [lia|]. rewrite Nat.sub_0_r, !Nat.add_0_l. unfold slice.
  rewrite !drop_0, !Nat.sub_0_r. destruct (Nat.leb_spec 0 (mp_depth m)), (Nat.leb_spec (mp_depth m) (length (terminal_path (mp_terminal m)))),
    (Nat.leb_spec (mp_depth m) (length ss)); cbn [andb mbind option_bind or_panic obind]; try done.
  destruct (bool_decide (root = _)) eqn:Er; cbn [negb]; [apply bool_decide_eq_true in Er|done].
  destruct (Nat.eqb_spec (mp_depth m) (length ss)) as [El|]; cbn [negb]; [|done].
  intros [= <-]. unfold single_path. split_and!; [done|rewrite length_take; lia|done|].
  by rewrite Er, (take_ge ss) by lia.
Qed.

(** The stack of siblings, the deepest on top. *)
Fixpoint layers (ss : list Node) : list (nat * Node) :=
  match ss with [] => [] | s :: ss' => (S (length ss'), s) :: layers ss' end.

Lemma layers_rev ss : rev (imap (λ i sibling, (1 + i, sibling)) (rev ss)) = layers ss.
Proof.
  induction ss as [|s ss IH]; [done|]. cbn [rev layers]. rewrite imap_app, rev_app_distr, IH. cbn. by rewrite length_rev, Nat.add_0_r.
Qed.

Lemma compact_terminal_layers bits ss node bi ta te bx :
  length bits = length ss →
  ∃ common, compact_terminal bits node (length ss) []
      {| bisection_stack := bi; stack := layers ss; taken_siblings := ta; terminal_index := te; bisection_index := bx |} =
    Some (foldl (λ node '(bit, sibling), compact_node bit node sibling) node (zip bits ss), [], common).
Proof.
  revert ss node. induction bits as [|b bits IH]; intros [|s ss] node Hl; cbn [length] in Hl; try lia; [by eexists|].
  cbn [compact_terminal layers length]. unfold pop_if_at_depth. cbn [stack]. rewrite Nat.eqb_refl.
  cbn [mbind option_bind bisection_stack taken_siblings terminal_index bisection_index Nat.sub]. rewrite Nat.sub_0_r.
  apply IH. lia.
Qed.

Lemma build_terminal (m : MultiPathProof) skip :
  ∃ ws, build_trie skip (leaf_ops_spliced (as_leaf_option (mp_terminal m)) []) = Some (terminal_node (mp_terminal m), ws).
Proof. destruct (mp_terminal m) as [[k v]|p]; by eexists. Qed.

Lemma advance_single m ss root :
  length ss = mp_depth m →
  advance CommonSiblings_new (single_verified m ss root) =
    Some {| bisection_stack := []; stack := layers ss; taken_siblings := mp_depth m; terminal_index := 1; bisection_index := 0 |}.
Proof.
  intros Hs. unfold advance, single_verified, CommonSiblings_new. cbn [vmp_inner terminal_index lookup list_lookup mbind option_bind bisections length].
  unfold advance_loop at 1. cbn [unique_siblings fst snd taken_siblings Nat.eqb]. cbv beta iota. cbn [vm_depth vmp_siblings].
  rewrite Nat.sub_0_r, Nat.leb_refl, Nat.sub_diag. cbn [oassert mbind option_bind Nat.add].
  unfold extend. cbn [taken_siblings bisection_stack stack terminal_index bisection_index]. rewrite slice_Some by lia. cbn [mbind option_bind].
  by rewrite drop_0, Nat.sub_0_r, take_ge, layers_rev, app_nil_r by lia.
Qed.

(** The update without operations combines the siblings in the order of the proof, from the
    top, with the layers from the bottom. *)
Lemma single_update m ss root :
  length (single_path m) = mp_depth m → length ss = mp_depth m →
  verify_multi_proof_update (single_verified m ss root) [] =
    Ok (compact_path (terminal_node (mp_terminal m)) (single_path m) ss).
Proof.
  intros Hp Hs. unfold verify_multi_proof_update. cbn [update_ops obind us_st next_pending_terminal_index last_terminal_index working_ops default].
  cbn [single_verified vmp_inner length Nat.sub ingest_range]. unfold ingest. cbn [lookup list_lookup or_panic obind Nat.eqb Nat.add].
  rewrite advance_single by done. cbn [or_panic obind].
  unfold hash_and_compact_terminal. cbn [single_verified vmp_inner vmp_root lookup list_lookup or_panic obind vm_terminal vm_depth].
  destruct (build_terminal m (mp_depth m)) as (ws & ->). cbn [or_panic obind].
  unfold vm_path. cbn [vm_terminal vm_depth]. rewrite Nat.sub_diag.
  unfold single_path in *. rewrite length_take in Hp. rewrite slice_Some by lia.
  cbn [or_panic obind]. rewrite drop_0, Nat.sub_0_r, take_ge by (rewrite length_rev, length_take; lia).
  destruct (compact_terminal_layers (rev (take (mp_depth m) (terminal_path (mp_terminal m)))) ss (terminal_node (mp_terminal m)) [] (mp_depth m) 1 0)
    as (common & Ec); [rewrite length_rev, length_take; lia|].
  rewrite Hs in Ec. rewrite Ec. cbn [or_panic obind head fmap option_fmap option_map fst default]. done.
Qed.

(** Siblings that are internal nodes are hashed. *)
Lemma compact_path_internal node path ss :
  Forall (λ s, node_kind s = Internal) ss → compact_path node path ss = hash_path node path ss.
Proof.
  unfold compact_path, hash_path. generalize (rev path). intros bits Hi. revert bits node.
  induction Hi as [|s ss Hs _ IH]; intros [|b bits] node; try done. cbn [zip zip_with foldl]. rewrite IH. f_equal.
  unfold compact_node. rewrite Hs. by destruct (node_kind node).
Qed.

(** Two lists of siblings that hash to the same root. *)
Lemma hash_path_inj node p ss ss' :
  length ss = length p → length ss' = length p →
  collision_free (path_preimages node p ss ++ path_preimages node p ss') →
  hash_path node p (rev ss) = hash_path node p (rev ss') → ss = ss'.
Proof.
  revert ss ss'. induction p as [|b p IH]; intros [|s ss] [|s' ss'] Hl Hl' Hcf He; cbn [length] in *; try lia; [done|].
  cbn [rev] in He. rewrite !hash_path_cons in He by lia. cbn [path_preimages] in Hcf.
  assert (E : pair_node b (hash_path node p (rev ss)) s = pair_node b (hash_path node p (rev ss')) s').
  { assert (EP : PreInternal (pair_node b (hash_path node p (rev ss)) s) = PreInternal (pair_node b (hash_path node p (rev ss')) s')).
    { apply Hcf; [set_solver|set_solver|exact He]. }
    by injection EP. }
  assert (hash_path node p (rev ss) = hash_path node p (rev ss') ∧ s = s') as [E1 <-] by (by destruct b; injection E as ? ?).
  f_equal. apply IH; [lia|lia| |done]. eapply collision_free_mono; [|exact Hcf]. set_solver.
Qed.

(** C30: the update of a verified multi-proof returns a wrong root.  Take any multi-proof of
    one path that [verify] accepts, whose siblings are internal nodes and do not read the
    same backwards, and let no two of the preimages of the two ways to combine them
    collide.  Then the update with no operations at all returns a root that is not the
    one the proof was verified against, although nothing changes: it is the root for the
    siblings in the reverse order. *)
Theorem multi_update_wrong_root (m : MultiPathProof) (ss : list Node) (root : Node) (v : VerifiedMultiProof) :
  verify_multi_proof (single m ss) root = Ok v →
  Forall (λ s, node_kind s = Internal) ss → ss ≠ rev ss →
  collision_free (path_preimages (terminal_node (mp_terminal m)) (single_path m) ss ++
                  path_preimages (terminal_node (mp_terminal m)) (single_path m) (rev ss)) →
  ∃ root', verify_multi_proof_update v [] = Ok root' ∧ root' ≠ root ∧
    root = hash_path (terminal_node (mp_terminal m)) (single_path m) (rev ss) ∧
    root' = hash_path (terminal_node (mp_terminal m)) (single_path m) ss.
Proof.
  intros Hv Hi Hne Hcf. destruct (verify_single m ss root v Hv) as (-> & Hp & Hs & ->). eexists.
  rewrite single_update by done. split; [done|]. rewrite compact_path_internal by done. split_and!; [|done|done].
  intros He. apply Hne. eapply (hash_path_inj (terminal_node (mp_terminal m)) (single_path m)); [lia|rewrite length_rev; lia|done|].
  by rewrite rev_involutive.
Qed.
End single_update.

(** ** The theorems at work *)

Definition sample_proofs : list PathProof := [sample_proof x20; sample_proof xa0; sample_proof xc0].

Lemma sample_proofs_honest : Forall (honest sample_trie) sample_proofs.
Proof.
  unfold sample_proofs. repeat apply Forall_cons_2; [..|apply Forall_nil_2];
    (split; [vm_compute; reflexivity|]); (split; [by_compute|]); vm_compute; exact I || reflexivity.
Qed.

Lemma sample_proofs_sorted : psorted fpath sample_proofs.
Proof. unfold psorted. by_compute. Qed.

Definition sample_multi : MultiProof :=
  default {| mp_paths := []; mp_siblings := [] |} (from_path_proofs sample_proofs).

Definition sample_multi_verified : VerifiedMultiProof :=
  match verify_multi_proof sample_multi (node_of sample_trie) with
  | Ok v => v
  | _ => {| vmp_inner := []; bisections := []; vmp_siblings := []; vmp_root := [] |}
  end.

Lemma multi_proof_complete_witness :
  ∃ mp v, from_path_proofs sample_proofs = Some mp ∧
    verify_multi_proof mp (node_of sample_trie) = Ok v ∧ vmp_root v = node_of sample_trie ∧
    (λ w, (vm_terminal w, vm_depth w)) <$> vmp_inner v =
      (λ pp, (terminal pp, length (siblings pp))) <$> sample_proofs.
Proof.
  assert (Hne : sample_proofs ≠ []) by discriminate.
  exact (multi_proof_complete _ _ Hne sample_proofs_honest sample_proofs_sorted).
Defined.

Lemma multi_verify_sound_witness : true_multi sample_trie sample_multi_verified.
Proof.
  assert (Hcf : collision_free (preimages sample_trie ++
    range_preimages 257 0 (mp_paths sample_multi) (mp_siblings sample_multi) 0)) by by_compute.
  assert (Hv : verify_multi_proof sample_multi (node_of sample_trie) = Ok sample_multi_verified)
    by (vm_compute; reflexivity).
  exact (multi_verify_sound _ _ _ Hcf Hv).
Defined.

Lemma sample_true_multi : true_multi sample_trie sample_multi_verified.
Proof. apply (verify_multi_true sample_multi); [by_compute|vm_compute; reflexivity]. Qed.

Lemma multi_confirm_correct_witness :
  if bool_decide (Exists (λ w, vpath w `prefix_of` view_bits (key_path
       {| key_path := toy_key xc1; value_hash := toy_key x01 |})) (vmp_inner sample_multi_verified))
  then multi_confirm_value sample_multi_verified
         {| key_path := toy_key xc1; value_hash := toy_key x01 |} = Ok false ∧
       multi_confirm_nonexistence sample_multi_verified (toy_key xc1) = Ok true
  else False.
Proof.
  assert (Hb : block [] sample_ops) by by_compute.
  pose proof (multi_confirm_correct sample_ops sample_multi_verified
    {| key_path := toy_key xc1; value_hash := toy_key x01 |} Hb sample_true_multi eq_refl) as Hc.
  assert (He : bool_decide (Exists (λ w, vpath w `prefix_of` view_bits (key_path
       {| key_path := toy_key xc1; value_hash := toy_key x01 |})) (vmp_inner sample_multi_verified)) = true)
    by (vm_compute; reflexivity).
  rewrite He in Hc |- *. destruct Hc as [H1 H2]. cbn [key_path] in H1, H2.
  split; [rewrite H1|rewrite H2]; vm_compute; reflexivity.
Defined.

(** A leaf with two siblings that are internal nodes, and the honest multi-proof of its path. *)
Definition two_trie : trie :=
  trie_at 0 [(toy_key x00, toy_key x01); (toy_key x40, toy_key x02); (toy_key x60, toy_key x03);
             (toy_key x80, toy_key x04); (toy_key xc0, toy_key x05)].
Definition two_path : MultiPathProof :=
  {| mp_terminal := TermLeaf {| key_path := toy_key x00; value_hash := toy_key x01 |}; mp_depth := 2 |}.
Definition two_siblings : list Node := (path_to two_trie (view_bits (toy_key x00))).2.

Lemma multi_update_wrong_root_witness :
  ∃ v root', verify_multi_proof (single two_path two_siblings) (node_of two_trie) = Ok v ∧
    verify_multi_proof_update v [] = Ok root' ∧ root' ≠ node_of two_trie.
Proof.
  assert (Hv : verify_multi_proof (single two_path two_siblings) (node_of two_trie) =
    Ok (single_verified two_path two_siblings (node_of two_trie))) by (vm_compute; reflexivity).
  destruct (multi_update_wrong_root two_path two_siblings (node_of two_trie) _ Hv) as (root' & Hu & Hne & _).
  - by_compute.
  - by_compute.
  - by_compute.
  - exists (single_verified two_path two_siblings (node_of two_trie)), root'. split_and!; [exact Hv|exact Hu|exact Hne].
Defined.
