(* ===== verification/PageDiff.v ===== *)
(** * Page diffs

    Models [nomt/src/page_diff.rs]: the 128-bit field that records which of the 126
    nodes of a page have changed, with a flag for cleared pages, its packing of the
    changed nodes and their application to another copy of the page; and
    [ElidedChildren] of [nomt/src/merkle/mod.rs], the field that records which child
    pages are not stored. *)

From S2P Require Import Prelude PageId.

#[local] Open Scope nat_scope.

(** ** Machine words *)

(** [u64::trailing_zeros], which is 64 for zero: [fuel] is the width. *)
Fixpoint trailing_zeros (fuel : nat) (z : Z) : nat :=
  match fuel with
  | 0 => 0
  | S fuel' => if Z.odd z then 0 else S (trailing_zeros fuel' (z / 2))
  end.

(** The set bits of a 64-bit word, in ascending order. *)
Definition ones (z : Z) : list nat := filter (λ i, Z.testbit z (Z.of_nat i)) (seq 0 64).

(** [u64::count_ones] *)
Definition count_ones (z : Z) : nat := length (ones z).

(** ** The type and its operations *)

Definition CLEAR_BIT : Z := Z.shiftl 1 63.

(** [changed_nodes: [u64; 2]] *)
Record PageDiff := { word0 : Z; word1 : Z }.

#[global] Instance PageDiff_eq_dec : EqDecision PageDiff.
Proof. solve_decision. Defined.

Definition default_diff : PageDiff := {| word0 := 0; word1 := 0 |}.

(** [self.changed_nodes[word]] and its assignment, with the bounds check. *)
Definition get_word (self : PageDiff) (word : nat) : option Z :=
  match word with 0 => Some (word0 self) | 1 => Some (word1 self) | _ => None end.
Definition put_word (self : PageDiff) (word : nat) (z : Z) : option PageDiff :=
  match word with
  | 0 => Some {| word0 := z; word1 := word1 self |}
  | 1 => Some {| word0 := word0 self; word1 := z |}
  | _ => None
  end.

Definition set_changed (self : PageDiff) (slot_index : nat) : option PageDiff :=
  let? _ := oassert (slot_index <? NODES_PER_PAGE) in
  let word := slot_index / 64 in
  let index := slot_index mod 64 in
  let mask := Z.shiftl 1 (Z.of_nat index) in
  let? w := get_word self word in
  let? self := put_word self word (Z.lor w mask) in
  put_word self 1 (Z.land (word1 self) (Z.lnot CLEAR_BIT)).

Definition changed (self : PageDiff) (slot_index : nat) : option bool :=
  let word := slot_index / 64 in
  let index := slot_index mod 64 in
  let mask := Z.shiftl 1 (Z.of_nat index) in
  let? w := get_word self word in
  Some (Z.land w mask =? mask)%Z.

(** The argument is a [[u8; 16]]; the outer option is the panic. *)
Definition diff_from_bytes (bytes : list u8) : option (option PageDiff) :=
  let? b0 := slice bytes 0 8 in
  let? b1 := slice bytes 8 16 in
  let diff := {| word0 := from_le_bytes b0; word1 := from_le_bytes b1 |} in
  let? c126 := changed diff 126 in
  let? c127 := changed diff 127 in
  Some (if c126 || c127 then None else Some diff).

Definition set_cleared (self : PageDiff) : PageDiff :=
  {| word0 := word0 self; word1 := Z.lor (word1 self) CLEAR_BIT |}.

Definition cleared (self : PageDiff) : bool :=
  (Z.land (word1 self) CLEAR_BIT =? CLEAR_BIT)%Z.

Definition assert_not_cleared (self : PageDiff) : option () :=
  oassert (Z.land (word1 self) (Z.shiftl 1 63) =? 0)%Z.

(** [FastIterOnes::next]: the item and the new state. *)
Definition fast_iter_ones_next (self : Z) : option (nat * Z) :=
  match trailing_zeros 64 self with
  | 64 => None
  | x => Some (x, Z.land self (Z.lnot (Z.shiftl 1 (Z.of_nat x))))
  end.

(** All items of the iterator: a word has at most 64. *)
Fixpoint fast_iter_ones (fuel : nat) (self : Z) : list nat :=
  match fuel with
  | 0 => []
  | S fuel' =>
      match fast_iter_ones_next self with
      | None => []
      | Some (x, self) => x :: fast_iter_ones fuel' self
      end
  end.

Definition iter_ones (self : PageDiff) : option (list nat) :=
  let? _ := assert_not_cleared self in
  Some (fast_iter_ones 65 (word0 self) ++ ((λ i, i + 64) <$> fast_iter_ones 65 (word1 self))).

Definition diff_count (self : PageDiff) : nat :=
  count_ones (word0 self) + count_ones (word1 self).

Definition pack_changed_nodes (self : PageDiff) (page : list u8) : option (list (list u8)) :=
  let? _ := assert_not_cleared self in
  let? indices := iter_ones self in
  mapM (λ node_index,
          let start := node_index * 32 in
          let end_ := start + 32 in
          slice page start end_) indices.

(** [page[start..end].copy_from_slice(node)] for every pair. *)
Fixpoint copy_nodes (pairs : list (nat * list u8)) (page : list u8) : option (list u8) :=
  match pairs with
  | [] => Some page
  | (node_index, node) :: pairs =>
      let start := node_index * 32 in
      let end_ := start + 32 in
      let? page := copy_from_slice page start end_ node in
      copy_nodes pairs page
  end.

Definition unpack_changed_nodes (self : PageDiff) (nodes : list (list u8)) (page : list u8) :
    option (list u8) :=
  let? _ := oassert (diff_count self =? length nodes) in
  let? indices := iter_ones self in
  copy_nodes (zip indices nodes) page.

Definition diff_as_bytes (self : PageDiff) : list u8 :=
  to_le_bytes 8 (word0 self) ++ to_le_bytes 8 (word1 self).

Definition diff_join (self diff : PageDiff) : PageDiff :=
  {| word0 := Z.lor (word0 self) (word0 diff); word1 := Z.lor (word1 self) (word1 diff) |}.

(** ** Elided children *)

Record ElidedChildren := { elided : Z }.

#[global] Instance ElidedChildren_eq_dec : EqDecision ElidedChildren.
Proof. solve_decision. Defined.

Definition ElidedChildren_new : ElidedChildren := {| elided := 0 |}.

Definition elided_from_bytes (raw : list u8) : ElidedChildren := {| elided := from_le_bytes raw |}.

Definition elided_to_bytes (self : ElidedChildren) : list u8 := to_le_bytes 8 (elided self).

(** A child page index is below 64, so that the shifts do not overflow. *)
Definition set_elide (self : ElidedChildren) (child_page_index : nat) (elide : bool) : ElidedChildren :=
  let shift := Z.of_nat child_page_index in
  if elide then {| elided := Z.lor (elided self) (Z.shiftl 1 shift) |}
  else {| elided := Z.land (elided self) (Z.lnot (Z.shiftl 1 shift)) |}.

Definition is_elided (self : ElidedChildren) (child_page_index : nat) : bool :=
  (Z.land (Z.shiftr (elided self) (Z.of_nat child_page_index)) 1 =? 1)%Z.

(** ** The diff as a set of slots *)

(** The words are 64-bit values. *)
Definition diff_ok (d : PageDiff) : Prop :=
  (0 ≤ word0 d < 2 ^ 64)%Z ∧ (0 ≤ word1 d < 2 ^ 64)%Z.

(** Bit [i] of the field. *)
Definition slot_bit (d : PageDiff) (i : nat) : bool :=
  if i <? 64 then Z.testbit (word0 d) (Z.of_nat i)
  else Z.testbit (word1 d) (Z.of_nat (i - 64)).

(** A diff of slots only: the flag and the reserved bit are unset. *)
Definition slots_only (d : PageDiff) : Prop :=
  diff_ok d ∧ slot_bit d 126 = false ∧ slot_bit d 127 = false.

Lemma land_mask w i :
  (Z.land w (Z.shiftl 1 (Z.of_nat i)) =? Z.shiftl 1 (Z.of_nat i))%Z = Z.testbit w (Z.of_nat i).
Proof.
  rewrite Z.shiftl_1_l. destruct (Z.testbit w (Z.of_nat i)) eqn:E.
  - apply Z.eqb_eq, Z.bits_inj'. intros n Hn. rewrite Z.land_spec, Z.pow2_bits_eqb by lia.
    destruct (Z.eqb_spec (Z.of_nat i) n) as [<-|]; [by rewrite E|by rewrite andb_false_r].
  - apply Z.eqb_neq. intros H. apply (f_equal (λ z, Z.testbit z (Z.of_nat i))) in H.
    rewrite Z.land_spec, Z.pow2_bits_true, E in H by lia. done.
Qed.

Lemma land_mask_0 w i :
  (Z.land w (Z.shiftl 1 (Z.of_nat i)) =? 0)%Z = negb (Z.testbit w (Z.of_nat i)).
Proof.
  rewrite Z.shiftl_1_l. destruct (Z.testbit w (Z.of_nat i)) eqn:E.
  - apply Z.eqb_neq. intros H. apply (f_equal (λ z, Z.testbit z (Z.of_nat i))) in H.
    rewrite Z.land_spec, Z.pow2_bits_true, E, Z.bits_0 in H by lia. done.
  - apply Z.eqb_eq, Z.bits_inj'. intros n Hn.
    rewrite Z.land_spec, Z.pow2_bits_eqb, Z.bits_0 by lia.
    destruct (Z.eqb_spec (Z.of_nat i) n) as [<-|]; [by rewrite E|by rewrite andb_false_r].
Qed.

Lemma slot_word i : i < 128 → (i / 64 = 0 ∧ i < 64 ∧ i mod 64 = i) ∨ (i / 64 = 1 ∧ 64 ≤ i ∧ i mod 64 = i - 64).
Proof.
  intros Hi. destruct (decide (i < 64)) as [Hl|Hl].
  - left. rewrite Nat.div_small, Nat.mod_small by lia. lia.
  - right. assert (i / 64 = 1) as Hq.
    { apply Nat.le_antisymm; [apply Nat.lt_succ_r, Nat.Div0.div_lt_upper_bound; lia|].
      apply Nat.div_le_lower_bound; lia. }
    split_and!; [done|lia|]. pose proof (Nat.div_mod_eq i 64). lia.
Qed.

Lemma changed_spec d i : i < 128 → changed d i = Some (slot_bit d i).
Proof.
  intros Hi. unfold changed, slot_bit.
  destruct (slot_word i Hi) as [(-> & Hl & ->)|(-> & Hl & ->)]; simpl; rewrite land_mask; bool_cases;
    try lia; done.
Qed.

Lemma cleared_spec d : cleared d = slot_bit d 127.
Proof. unfold cleared, CLEAR_BIT. apply (land_mask (word1 d) 63). Qed.

Lemma assert_not_cleared_spec d :
  assert_not_cleared d = if slot_bit d 127 then None else Some ().
Proof.
  unfold assert_not_cleared. change (Z.shiftl 1 63) with (Z.shiftl 1 (Z.of_nat 63)).
  rewrite land_mask_0. change (slot_bit d 127) with (Z.testbit (word1 d) (Z.of_nat 63)).
  by destruct (Z.testbit _ (Z.of_nat 63)).
Qed.

Lemma trailing_zeros_spec n z :
  trailing_zeros n z ≤ n ∧
  (∀ i, i < trailing_zeros n z → Z.testbit z (Z.of_nat i) = false) ∧
  (trailing_zeros n z < n → Z.testbit z (Z.of_nat (trailing_zeros n z)) = true).
Proof.
  revert z. induction n as [|n IH]; intros z; simpl; [split_and!; intros; lia|].
  rewrite <-Z.bit0_odd. destruct (Z.testbit z 0) eqn:E.
  { split_and!; [lia|intros; lia|done]. }
  destruct (IH (z / 2)%Z) as (Hle & Hz & Ho).
  assert (Hs : ∀ i, Z.testbit z (Z.of_nat (S i)) = Z.testbit (z / 2) (Z.of_nat i)).
  { intros i. rewrite Nat2Z.inj_succ, Z.div2_bits by lia. done. }
  split_and!; [lia| |].
  - intros [|i] Hi; [done|]. rewrite Hs. apply Hz. lia.
  - intros Hi. rewrite Hs. apply Ho. lia.
Qed.

Lemma clear_bit_spec z x i :
  Z.testbit (Z.land z (Z.lnot (Z.shiftl 1 (Z.of_nat x)))) (Z.of_nat i) =
    Z.testbit z (Z.of_nat i) && negb (x =? i).
Proof.
  rewrite Z.land_spec, Z.lnot_spec, Z.shiftl_1_l, Z.pow2_bits_eqb by lia.
  f_equal. f_equal. destruct (Nat.eqb_spec x i); [apply Z.eqb_eq|apply Z.eqb_neq]; lia.
Qed.

Lemma seq_split a b c : a ≤ b → b ≤ c → seq a (c - a) = seq a (b - a) ++ seq b (c - b).
Proof.
  intros Hab Hbc. replace (c - a) with ((b - a) + (c - b)) by lia. rewrite seq_app.
  do 2 f_equal. lia.
Qed.

Lemma fast_iter_ones_from fuel z k :
  k ≤ 64 → 64 - k < fuel → (∀ i, i < k → Z.testbit z (Z.of_nat i) = false) →
  fast_iter_ones fuel z = filter (λ i, Z.testbit z (Z.of_nat i)) (seq k (64 - k)).
Proof.
  revert z k. induction fuel as [|fuel IH]; intros z k Hk Hf Hlow; [lia|].
  cbn [fast_iter_ones]. unfold fast_iter_ones_next.
  destruct (trailing_zeros_spec 64 z) as (Hle & Hz & Ho).
  set (x := trailing_zeros 64 z) in *.
  assert (Hn : ∀ a n, a + n ≤ x → filter (λ i, Z.testbit z (Z.of_nat i)) (seq a n) = []).
  { intros a n Han. apply filter_none, list.Forall_forall. intros i [? ?]%elem_of_seq.
    rewrite Hz by lia. auto. }
  destruct (decide (x = 64)) as [Hx|Hx].
  { rewrite Hx, Hn by lia. done. }
  assert (Hkx : k ≤ x).
  { destruct (decide (k ≤ x)); [done|]. rewrite Hlow in Ho by lia. by specialize (Ho ltac:(lia)). }
  trans (x :: fast_iter_ones fuel (Z.land z (Z.lnot (Z.shiftl 1 (Z.of_nat x))))).
  { do 64 (destruct x as [|x]; [done|]). lia. }
  rewrite (seq_split k x 64) by lia. rewrite filter_app, Hn by lia. simpl app.
  replace (64 - x) with (S (64 - S x)) by lia. cbn [seq]. rewrite filter_cons_True by (rewrite Ho by lia; done).
  f_equal. rewrite (IH _ (S x)) by
    (lia || (intros i Hi; rewrite clear_bit_spec; destruct (Nat.eqb_spec x i);
             [by rewrite andb_false_r|by rewrite Hz by lia])).
  apply filter_ext_in. rewrite list.Forall_forall. intros i [? ?]%elem_of_seq. rewrite clear_bit_spec.
  destruct (Nat.eqb_spec x i); [lia|]. by rewrite andb_true_r.
Qed.

Lemma fast_iter_ones_ones z : fast_iter_ones 65 z = ones z.
Proof. apply (fast_iter_ones_from 65 z 0); lia. Qed.

Definition changed_slots (d : PageDiff) : list nat := filter (λ i, slot_bit d i) (seq 0 NODES_PER_PAGE).

Lemma iter_ones_spec d : slots_only d → iter_ones d = Some (changed_slots d).
Proof.
  intros (_ & H126 & H127). unfold iter_ones. rewrite assert_not_cleared_spec, H127.
  cbn [mbind option_bind]. rewrite !fast_iter_ones_ones. f_equal.
  trans (filter (λ i, slot_bit d i) (seq 0 128)).
  - rewrite (eq_refl : seq 0 128 = seq 0 64 ++ seq 64 64), filter_app. apply (f_equal2 app).
    + apply filter_ext_in, list.Forall_forall. intros i [? ?]%elem_of_seq.
      unfold slot_bit. bool_cases; [done|lia].
    + rewrite (eq_refl : seq 64 64 = (λ i, i + 64) <$> seq 0 64), filter_fmap.
      unfold ones. apply (f_equal (fmap _)). apply filter_ext_in, list.Forall_forall. intros i [? ?]%elem_of_seq.
      unfold slot_bit. bool_cases; [lia|]. by rewrite Nat.add_sub.
  - rewrite (eq_refl : seq 0 128 = seq 0 126 ++ [126; 127]), filter_app.
    rewrite !filter_cons_False by (rewrite ?H126, ?H127; auto). apply app_nil_r.
Qed.

(** ** Packing and applying the changed nodes *)

(** The node in slot [i] of a page, and the rest of the page. *)
Definition page_slot (page : list u8) (i : nat) : list u8 := take 32 (drop (i * 32) page).
Definition page_tail (page : list u8) : list u8 := drop (NODES_PER_PAGE * 32) page.

Lemma page_slot_lookup page i k :
  page_slot page i !! k = if k <? 32 then page !! (i * 32 + k) else None.
Proof.
  unfold page_slot. destruct (Nat.ltb_spec k 32).
  - by rewrite lookup_take_lt, lookup_drop by lia.
  - apply lookup_take_ge. lia.
Qed.

Lemma page_ext p q :
  length p = length q → (∀ i, i < NODES_PER_PAGE → page_slot p i = page_slot q i) →
  page_tail p = page_tail q → p = q.
Proof.
  intros Hl Hs Ht. apply list_eq. intros m.
  destruct (decide (m < NODES_PER_PAGE * 32)) as [Hm|Hm].
  - pose proof (Nat.div_mod_eq m 32). pose proof (Nat.mod_upper_bound m 32).
    specialize (Hs (m / 32)). apply (f_equal (λ l, l !! (m mod 32))) in Hs.
    + rewrite !page_slot_lookup in Hs. destruct (Nat.ltb_spec (m mod 32) 32); [|lia].
      by replace (m / 32 * 32 + m mod 32) with m in Hs by lia.
    + apply Nat.Div0.div_lt_upper_bound. lia.
  - apply (f_equal (λ l, l !! (m - NODES_PER_PAGE * 32))) in Ht. unfold page_tail in Ht.
    rewrite !lookup_drop in Ht.
    by replace (NODES_PER_PAGE * 32 + (m - NODES_PER_PAGE * 32)) with m in Ht by lia.
Qed.

Lemma copy_nodes_spec (f : nat → list u8) idxs page :
  (∀ i, i < NODES_PER_PAGE → length (f i) = 32) → Forall (λ i, i < NODES_PER_PAGE) idxs →
  NODES_PER_PAGE * 32 ≤ length page →
  ∃ r, copy_nodes ((λ i, (i, f i)) <$> idxs) page = Some r ∧ length r = length page ∧
    (∀ i, i < NODES_PER_PAGE → page_slot r i = if decide (i ∈ idxs) then f i else page_slot page i) ∧
    page_tail r = page_tail page.
Proof.
  intros Hf Hi. revert page. induction Hi as [|i idxs Hi Hix IH]; intros page Hp; cbn [fmap list_fmap copy_nodes].
  { exists page. split_and!; auto. }
  rewrite copy_from_slice_Some by (rewrite ?Hf; lia). cbn [mbind option_bind].
  set (page' := take _ page ++ _ ++ _).
  assert (Hc : copy_from_slice page (i * 32) (i * 32 + 32) (f i) = Some page').
  { apply copy_from_slice_Some; rewrite ?Hf; lia. }
  pose proof (copy_from_slice_length _ _ _ _ _ Hc) as Hl.
  destruct (IH page' ltac:(lia)) as (r & -> & Hr & Hs & Ht).
  exists r. split_and!; [done|congruence| |].
  - intros j Hj. rewrite Hs by done. destruct (decide (j ∈ idxs)).
    { rewrite decide_True by (by right). done. }
    destruct (decide (j = i)) as [->|Hne].
    + rewrite decide_True by left. apply list_eq. intros k. rewrite page_slot_lookup.
      rewrite (copy_from_slice_lookup _ _ _ _ _ _ Hc). destruct (Nat.ltb_spec k 32).
      * rewrite (proj2 (Nat.leb_le _ _)), (proj2 (Nat.ltb_lt _ _)) by lia. simpl. f_equal. lia.
      * symmetry. apply lookup_ge_None_2. rewrite Hf; lia.
    + rewrite decide_False by (rewrite elem_of_cons; tauto). apply list_eq. intros k. rewrite !page_slot_lookup.
      destruct (Nat.ltb_spec k 32); [|done]. rewrite (copy_from_slice_lookup _ _ _ _ _ _ Hc).
      destruct (Nat.leb_spec (i * 32) (j * 32 + k)), (Nat.ltb_spec (j * 32 + k) (i * 32 + 32));
        simpl; try done. lia.
  - rewrite Ht. unfold page_tail. apply list_eq. intros k. rewrite !lookup_drop.
    rewrite (copy_from_slice_lookup _ _ _ _ _ _ Hc).
    destruct (Nat.ltb_spec (NODES_PER_PAGE * 32 + k) (i * 32 + 32)); [lia|]. by rewrite andb_false_r.
Qed.

Lemma changed_slots_bound d : Forall (λ i, i < NODES_PER_PAGE) (changed_slots d).
Proof. apply list.Forall_forall. intros i [_ [_ ?]%elem_of_seq]%list_elem_of_filter. done. Qed.

Lemma elem_of_changed_slots d i : i < NODES_PER_PAGE → i ∈ changed_slots d ↔ slot_bit d i = true.
Proof.
  intros Hi. unfold changed_slots. rewrite list_elem_of_filter, elem_of_seq, Is_true_true. split; [tauto|]. split; [done|lia].
Qed.

Lemma diff_count_spec d : slots_only d → diff_count d = length (changed_slots d).
Proof.
  intros Hd. pose proof (iter_ones_spec d Hd) as H. unfold iter_ones in H.
  rewrite !fast_iter_ones_ones in H. destruct (assert_not_cleared d); [|done].
  cbn [mbind option_bind] in H. apply (inj Some) in H. by rewrite <-H, length_app, length_fmap.
Qed.

Lemma pack_spec d p :
  slots_only d → NODES_PER_PAGE * 32 ≤ length p →
  pack_changed_nodes d p = Some (page_slot p <$> changed_slots d).
Proof.
  intros Hd Hp. unfold pack_changed_nodes. rewrite assert_not_cleared_spec, iter_ones_spec by done.
  destruct Hd as (_ & _ & ->). cbn [mbind option_bind]. apply mapM_Some_2.
  apply Forall2_fmap_r, Forall_Forall2_diag. eapply list.Forall_impl; [apply changed_slots_bound|].
  cbv beta. intros i Hi. unfold page_slot. rewrite slice_Some by lia. f_equal. f_equal. lia.
Qed.

Lemma zip_fmap_r {A B} (f : A → B) l : zip l (f <$> l) = (λ x, (x, f x)) <$> l.
Proof. induction l as [|x l IH]; [done|]. rewrite !fmap_cons, <-IH. done. Qed.

(** Applying the changed nodes of [p] to a page [q]. *)
Lemma unpack_spec d p q :
  slots_only d → NODES_PER_PAGE * 32 ≤ length p → NODES_PER_PAGE * 32 ≤ length q →
  ∃ r, unpack_changed_nodes d (page_slot p <$> changed_slots d) q = Some r ∧
    length r = length q ∧
    (∀ i, i < NODES_PER_PAGE → page_slot r i = if slot_bit d i then page_slot p i else page_slot q i) ∧
    page_tail r = page_tail q.
Proof.
  intros Hd Hp Hq. unfold unpack_changed_nodes.
  rewrite length_fmap, <-diff_count_spec, Nat.eqb_refl, iter_ones_spec by done.
  cbn [oassert mbind option_bind]. rewrite zip_fmap_r.
  destruct (copy_nodes_spec (page_slot p) (changed_slots d) q) as (r & Hr & Hl & Hs & Ht); try done.
  { intros i Hi. unfold page_slot. rewrite length_take, length_drop. lia. }
  { apply changed_slots_bound. }
  exists r. split_and!; try done. intros i Hi. rewrite Hs by done.
  destruct (slot_bit d i) eqn:E.
  - rewrite decide_True; [done|]. by apply elem_of_changed_slots.
  - rewrite decide_False; [done|]. rewrite elem_of_changed_slots by done. congruence.
Qed.

(** Where the pages differ in changed slots only, the result is the packed page. *)
Lemma unpack_exact d p q :
  slots_only d → NODES_PER_PAGE * 32 ≤ length p → length p = length q →
  (∀ i, i < NODES_PER_PAGE → slot_bit d i = false → page_slot p i = page_slot q i) →
  page_tail p = page_tail q →
  unpack_changed_nodes d (page_slot p <$> changed_slots d) q = Some p.
Proof.
  intros Hd Hp Hl Hs Ht.
  destruct (unpack_spec d p q) as (r & -> & Hlr & Hsr & Htr); try done; [lia|]. f_equal.
  apply page_ext; [congruence| |congruence]. intros i Hi. rewrite Hsr by done.
  destruct (slot_bit d i) eqn:E; [done|]. symmetry. auto.
Qed.

Lemma set_changed_spec d i :
  i < NODES_PER_PAGE →
  ∃ d', set_changed d i = Some d' ∧
    ∀ j, j < 128 → slot_bit d' j = negb (j =? 127) && ((j =? i) || slot_bit d j).
Proof.
  intros Hi. unfold set_changed. rewrite (proj2 (Nat.ltb_lt _ _) Hi). unfold NODES_PER_PAGE, DEPTH in Hi.
  simpl in Hi.
  assert (Hlor : ∀ w k j, Z.testbit (Z.lor w (Z.shiftl 1 (Z.of_nat k))) (Z.of_nat j) =
                   Z.testbit w (Z.of_nat j) || (k =? j)).
  { intros w k j. rewrite Z.lor_spec, Z.shiftl_1_l, Z.pow2_bits_eqb by lia. f_equal.
    destruct (Nat.eqb_spec k j); [apply Z.eqb_eq|apply Z.eqb_neq]; lia. }
  assert (Hclr : ∀ w j, Z.testbit (Z.land w (Z.lnot CLEAR_BIT)) (Z.of_nat j) =
                   Z.testbit w (Z.of_nat j) && negb (63 =? j)).
  { intros w j. apply (clear_bit_spec w 63). }
  destruct (slot_word i ltac:(lia)) as [(-> & Hl & ->)|(-> & Hl & ->)];
    cbn [oassert mbind option_bind get_word put_word word0 word1];
    eexists; (split; [done|]); intros j Hj; unfold slot_bit; cbn [word0 word1];
    rewrite ?Hclr, ?Hlor; bool_cases; try lia;
    rewrite ?Hclr, ?Hlor; cbn [negb andb orb]; rewrite ?andb_false_r, ?andb_true_r, ?orb_false_r;
    try done; bool_cases; try lia; cbn [negb andb orb]; rewrite ?orb_true_r, ?orb_false_r, ?andb_true_r; done.
Qed.

Lemma diff_codec d :
  diff_ok d →
  length (diff_as_bytes d) = 16 ∧
  diff_from_bytes (diff_as_bytes d) =
    Some (if slot_bit d 126 || slot_bit d 127 then None else Some d).
Proof.
  intros [H0 H1]. unfold diff_as_bytes.
  split; [by rewrite length_app, !length_to_le_bytes|]. unfold diff_from_bytes.
  rewrite !slice_Some by (rewrite ?length_app, ?length_to_le_bytes; lia).
  cbn [mbind option_bind]. rewrite drop_0.
  rewrite take_app_length', drop_app_length' by (by rewrite length_to_le_bytes).
  rewrite take_ge by (by rewrite length_to_le_bytes).
  rewrite !from_to_le_bytes, !Z.mod_small by done. rewrite !changed_spec by lia.
  by destruct d.
Qed.

(** The changed nodes of a page carry exactly the change.  For a diff without
    the flag and the reserved bit, and pages [p] and [q] of one length that hold the
    126 nodes, packing the changed nodes of [p] and applying them to [q] does not
    panic, writes every changed slot and nothing else, and gives [p] itself whenever
    [p] and [q] differ in changed slots only. *)
Theorem pack_unpack_correct (d : PageDiff) (p q : list u8) :
  slots_only d → length p = length q → NODES_PER_PAGE * 32 ≤ length p →
  ∃ nodes r, pack_changed_nodes d p = Some nodes ∧ length nodes = diff_count d ∧
    unpack_changed_nodes d nodes q = Some r ∧ length r = length q ∧
    (∀ i, i < NODES_PER_PAGE → page_slot r i = if slot_bit d i then page_slot p i else page_slot q i) ∧
    page_tail r = page_tail q ∧
    ((∀ i, i < NODES_PER_PAGE → slot_bit d i = false → page_slot p i = page_slot q i) →
     page_tail p = page_tail q → r = p).
Proof.
  intros Hd Hl Hp. exists (page_slot p <$> changed_slots d).
  destruct (unpack_spec d p q) as (r & Hr & Hlr & Hs & Ht); [done|done|lia|].
  exists r. split_and!; auto using pack_spec.
  - by rewrite length_fmap, diff_count_spec.
  - intros Heq Htl. pose proof (unpack_exact d p q Hd Hp Hl Heq Htl). congruence.
Qed.

(** A page diff is a set of slots with a flag.  A fresh diff is empty; marking a
    slot below 126 adds it and drops the flag, and any other slot is a panic; [set_cleared]
    raises the flag; [join] is the union; and the byte representation, of 16 bytes,
    reads back as the diff exactly if the flag and the reserved bit are unset. *)
Theorem page_diff_set_correct (d e : PageDiff) (i : nat) :
  diff_ok d →
  (i < 128 → changed default_diff i = Some false) ∧
  (if i <? NODES_PER_PAGE
   then ∃ d', set_changed d i = Some d' ∧ cleared d' = false ∧ changed d' i = Some true ∧
          ∀ j, j < 127 → j ≠ i → changed d' j = changed d j
   else set_changed d i = None) ∧
  cleared (set_cleared d) = true ∧
  (∀ j, j < 127 → changed (set_cleared d) j = changed d j) ∧
  (i < 128 → changed (diff_join d e) i = Some (slot_bit d i || slot_bit e i)) ∧
  length (diff_as_bytes d) = 16 ∧
  (diff_from_bytes (diff_as_bytes d) = Some (Some d) ↔ slot_bit d 126 = false ∧ cleared d = false).
Proof.
  intros Hd. destruct (diff_codec d Hd) as [Hlen Hcod].
  assert (Hcl : ∀ j, j < 128 → slot_bit (set_cleared d) j = slot_bit d j || (j =? 127)).
  { intros j Hj. unfold slot_bit, set_cleared, CLEAR_BIT. cbn [word0 word1].
    rewrite Z.lor_spec, Z.shiftl_1_l, Z.pow2_bits_eqb by lia.
    destruct (Nat.ltb_spec j 64), (Nat.eqb_spec j 127); rewrite ?orb_false_r; try lia; try done.
    - f_equal. apply Z.eqb_eq. lia.
    - rewrite (proj2 (Z.eqb_neq _ _)) by lia. by rewrite orb_false_r. }
  split_and!; try done.
  - intros Hi. rewrite changed_spec by done. unfold slot_bit. bool_cases; by rewrite Z.bits_0.
  - destruct (Nat.ltb_spec i NODES_PER_PAGE) as [Hi|Hi].
    + destruct (set_changed_spec d i Hi) as (d' & -> & Hb). exists d'.
      unfold NODES_PER_PAGE, DEPTH in Hi. simpl in Hi.
      split_and!; [done|by rewrite cleared_spec, Hb by lia| |].
      * rewrite changed_spec, Hb, Nat.eqb_refl by lia. bool_cases; [lia|done].
      * intros j Hj Hne. rewrite !changed_spec, Hb by lia. bool_cases; done || lia.
    + unfold set_changed. rewrite (proj2 (Nat.ltb_ge _ _)) by done. done.
  - rewrite cleared_spec, Hcl by lia. apply orb_true_r.
  - intros j Hj. rewrite !changed_spec, Hcl by lia. bool_cases; [lia|]. by rewrite orb_false_r.
  - intros Hi. rewrite changed_spec by done. unfold slot_bit, diff_join. cbn [word0 word1].
    bool_cases; by rewrite Z.lor_spec.
  - rewrite Hcod, cleared_spec. destruct (slot_bit d 126), (slot_bit d 127); simpl; naive_solver.
Qed.

(** ** The theorems at work *)

Definition sample_diff : PageDiff := {| word0 := 5; word1 := 1 |}.

Lemma pack_unpack_correct_witness :
  ∃ nodes r,
    pack_changed_nodes sample_diff (replicate 4096 x01) = Some nodes ∧ length nodes = 3 ∧
    unpack_changed_nodes sample_diff nodes (replicate 4096 x00) = Some r ∧
    page_slot r 2 = replicate 32 x01 ∧ page_slot r 3 = replicate 32 x00.
Proof.
  destruct (pack_unpack_correct sample_diff (replicate 4096 x01) (replicate 4096 x00))
    as (nodes & r & H1 & H2 & H3 & _ & H4 & _).
  - repeat split; (done || lia).
  - reflexivity.
  - vm_compute. lia.
  - exists nodes, r. split_and!; [exact H1|rewrite H2; vm_compute; reflexivity|exact H3| |].
    + rewrite H4 by (vm_compute; lia). vm_compute. reflexivity.
    + rewrite H4 by (vm_compute; lia). vm_compute. reflexivity.
Defined.

Lemma page_diff_set_correct_witness :
  diff_ok sample_diff ∧ changed (set_cleared sample_diff) 2 = Some true ∧
  diff_from_bytes (diff_as_bytes sample_diff) = Some (Some sample_diff).
Proof.
  assert (Hd : diff_ok sample_diff) by (split; simpl; lia).
  destruct (page_diff_set_correct sample_diff default_diff 7 Hd) as (_ & _ & _ & Hc & _ & _ & Hb).
  split_and!; [exact Hd|rewrite Hc by lia; vm_compute; reflexivity|].
  apply Hb. vm_compute. split; reflexivity.
Defined.
