(* ===== verification/Wal.v ===== *)
(** * The write-ahead log of the page store

    Models [nomt/src/bitbox/wal]: the builder that serialises the changes of a sync
    into a growable memory mapping, and the reader that recovery runs over the file.

    The mapping is an argument of the model: [mremap_ok n] and [mmap_ok n] say
    whether the operating system can resize the mapping to [n] bytes, or map [n]
    fresh bytes.  A write outside of the mapping is the error [OutOfBounds], which
    the source does not check for. *)

From S2P Require Import Prelude PageId PageDiff.

#[local] Open Scope nat_scope.

Definition PAGE_SIZE : nat := 4096.

Definition WAL_ENTRY_TAG_START : u8 := x01.
Definition WAL_ENTRY_TAG_END : u8 := x02.
Definition WAL_ENTRY_TAG_CLEAR : u8 := x03.
Definition WAL_ENTRY_TAG_UPDATE : u8 := x04.

(** ** The builder *)

Definition MAX_SIZE : Z := Z.shiftl 1 37.

(** [mem] is the part of the mapping that was ever written; the rest is zero. *)
Record WalBlobBuilder := { mem : list u8; mmap_size : Z; cur : nat }.

Inductive MemoryFault := OutOfBounds.

Section builder.
Context (mremap_ok mmap_ok : Z → bool).

Definition with_initial_size (size : Z) : option WalBlobBuilder :=
  if mmap_ok size then Some {| mem := []; mmap_size := size; cur := 0 |} else None.

Definition WalBlobBuilder_new : option WalBlobBuilder := with_initial_size (Z.shiftl 1 30).

(** The doubling of [grow]: 38 rounds take any positive size beyond [MAX_SIZE]. *)
Fixpoint grow_loop (fuel : nat) (new_size min_new_size : Z) : option Z :=
  if ((new_size <? min_new_size) && (new_size <? MAX_SIZE))%Z then
    match fuel with
    | 0 => None
    | S fuel' => grow_loop fuel' (Z.min (new_size * 2) (2 ^ 64 - 1)) min_new_size
    end
  else Some new_size.

(** [None]: the size limit, or the system has no memory. *)
Definition grow (self : WalBlobBuilder) (min_new_size : Z) : option WalBlobBuilder :=
  if (MAX_SIZE <=? mmap_size self)%Z then None
  else
    let? new_size := grow_loop 38 (mmap_size self) min_new_size in
    let new_size := Z.min new_size MAX_SIZE in
    if negb (new_size mod Z.of_nat PAGE_SIZE =? 0)%Z then None
    else if mremap_ok new_size then
      Some {| mem := mem self; mmap_size := new_size; cur := cur self |}
    else if mmap_ok new_size then
      Some {| mem := mem self; mmap_size := new_size; cur := cur self |}
    else None.

Definition write (self : WalBlobBuilder) (bytes : list u8) : outcome MemoryFault WalBlobBuilder :=
  let pos := cur self in
  let new_cur := cur self + length bytes in
  if (2 ^ 64 <=? Z.of_nat new_cur)%Z then Panic
  else
    let! self :=
      if (mmap_size self <=? Z.of_nat new_cur)%Z then or_panic (grow self (Z.of_nat new_cur))
      else Ok self in
    if (mmap_size self <? Z.of_nat new_cur)%Z then Err OutOfBounds
    else Ok {| mem := take pos (mem self) ++ bytes ++ drop new_cur (mem self);
               mmap_size := mmap_size self; cur := new_cur |}.

Definition write_byte (self : WalBlobBuilder) (byte : u8) : outcome MemoryFault WalBlobBuilder :=
  write self [byte].

Definition write_clear (self : WalBlobBuilder) (bucket_index : Z) :
    outcome MemoryFault WalBlobBuilder :=
  let! self := write_byte self WAL_ENTRY_TAG_CLEAR in
  write self (to_le_bytes 8 bucket_index).

Fixpoint write_all (self : WalBlobBuilder) (changed : list (list u8)) :
    outcome MemoryFault WalBlobBuilder :=
  match changed with
  | [] => Ok self
  | node :: changed => let! self := write self node in write_all self changed
  end.

Definition write_update (self : WalBlobBuilder) (page_id : list u8) (page_diff : PageDiff)
    (changed : list (list u8)) (elided_children : ElidedChildren) (bucket_index : Z) :
    outcome MemoryFault WalBlobBuilder :=
  let! self := write_byte self WAL_ENTRY_TAG_UPDATE in
  let! self := write self page_id in
  let! self := write self (diff_as_bytes page_diff) in
  let! self := write_all self changed in
  let! self := write self (elided_to_bytes elided_children) in
  write self (to_le_bytes 8 bucket_index).

Definition reset (self : WalBlobBuilder) (sync_seqn : Z) : outcome MemoryFault WalBlobBuilder :=
  let self := {| mem := mem self; mmap_size := mmap_size self; cur := 0 |} in
  let! self := write_byte self WAL_ENTRY_TAG_START in
  write self (to_le_bytes 4 sync_seqn).

Definition finalize (self : WalBlobBuilder) : outcome MemoryFault WalBlobBuilder :=
  let! self := write_byte self WAL_ENTRY_TAG_END in
  let len := (cur self + PAGE_SIZE - 1) / PAGE_SIZE * PAGE_SIZE in
  let count := len - cur self in
  if (mmap_size self <? Z.of_nat len)%Z then Err OutOfBounds
  else Ok {| mem := take (cur self) (mem self) ++ replicate count x00 ++ drop len (mem self);
             mmap_size := mmap_size self; cur := len |}.

Definition as_slice (self : WalBlobBuilder) : list u8 := take (cur self) (mem self).
End builder.

(** ** The reader *)

Inductive WalEntry :=
| Update (page_id : list u8) (page_diff : PageDiff) (changed_nodes : list (list u8))
    (elided_children : ElidedChildren) (bucket : Z)
| Clear (bucket : Z).

#[global] Instance WalEntry_eq_dec : EqDecision WalEntry.
Proof. solve_decision. Defined.

Inductive WalError :=
| NotPageMultiple
| UnexpectedEnd
| InvalidPageDiff
| UnknownTag (tag : u8)
| UnexpectedStartTag (tag : u8).

Record WalBlobReader := { wal : list u8; offset : nat; sync_seqn : Z }.

Definition with_offset (self : WalBlobReader) (offset' : nat) : WalBlobReader :=
  {| wal := wal self; offset := offset'; sync_seqn := sync_seqn self |}.

Definition read_byte (self : WalBlobReader) : outcome WalError (u8 * WalBlobReader) :=
  if length (wal self) <=? offset self then Err UnexpectedEnd
  else
    let! byte := or_panic (wal self !! offset self) in
    Ok (byte, with_offset self (offset self + 1)).

Definition read_buf (n : nat) (self : WalBlobReader) : outcome WalError (list u8 * WalBlobReader) :=
  if length (wal self) <? offset self + n then Err UnexpectedEnd
  else
    let! array := or_panic (slice (wal self) (offset self) (offset self + n)) in
    Ok (array, with_offset self (offset self + n)).

Definition read_u64 (self : WalBlobReader) : outcome WalError (Z * WalBlobReader) :=
  let! (buf, self) := read_buf 8 self in Ok (from_le_bytes buf, self).

Definition read_u32 (self : WalBlobReader) : outcome WalError (Z * WalBlobReader) :=
  let! (buf, self) := read_buf 4 self in Ok (from_le_bytes buf, self).

Definition read_start (self : WalBlobReader) : outcome WalError WalBlobReader :=
  let! (entry_tag, self) := read_byte self in
  if bool_decide (entry_tag = WAL_ENTRY_TAG_START) then
    let! (seqn, self) := read_u32 self in
    Ok {| wal := wal self; offset := offset self; sync_seqn := seqn |}
  else Err (UnexpectedStartTag entry_tag).

(** The loop of [new] over the pages of the file, up to the first short read. *)
Fixpoint read_pages (fuel pn : nat) (file : list u8) : list u8 :=
  match fuel with
  | 0 => []
  | S fuel' =>
      match slice file (pn * PAGE_SIZE) (pn * PAGE_SIZE + PAGE_SIZE) with
      | Some page => page ++ read_pages fuel' (pn + 1) file
      | None => []
      end
  end.

Definition WalBlobReader_new (file : list u8) : outcome WalError WalBlobReader :=
  if negb (length file mod PAGE_SIZE =? 0) then Err NotPageMultiple
  else
    let wal := read_pages (S (length file / PAGE_SIZE)) 0 file in
    read_start {| wal := wal; offset := 0; sync_seqn := 0 |}.

(** [n] times [read_buf::<32>] *)
Fixpoint read_nodes (n : nat) (self : WalBlobReader) :
    outcome WalError (list (list u8) * WalBlobReader) :=
  match n with
  | 0 => Ok ([], self)
  | S n' =>
      let! (node, self) := read_buf 32 self in
      let! (nodes, self) := read_nodes n' self in
      Ok (node :: nodes, self)
  end.

Definition read_entry (self : WalBlobReader) : outcome WalError (option WalEntry * WalBlobReader) :=
  let! (entry_tag, self) := read_byte self in
  if bool_decide (entry_tag = WAL_ENTRY_TAG_END) then Ok (None, self)
  else if bool_decide (entry_tag = WAL_ENTRY_TAG_CLEAR) then
    let! (bucket, self) := read_u64 self in
    Ok (Some (Clear bucket), self)
  else if bool_decide (entry_tag = WAL_ENTRY_TAG_UPDATE) then
    let! (page_id, self) := read_buf 32 self in
    let! (page_diff, self) := read_buf 16 self in
    let! page_diff := or_panic (diff_from_bytes page_diff) in
    let! page_diff := match page_diff with Some d => Ok d | None => Err InvalidPageDiff end in
    let changed_count := diff_count page_diff in
    let! (changed_nodes, self) := read_nodes changed_count self in
    let! (elided_children, self) := read_buf 8 self in
    let elided_children := elided_from_bytes elided_children in
    let! (bucket, self) := read_u64 self in
    Ok (Some (Update page_id page_diff changed_nodes elided_children bucket), self)
  else Err (UnknownTag entry_tag).

(** The entries up to the end marker, as recovery reads them: every entry takes at
    least one byte. *)
Fixpoint read_entries (fuel : nat) (self : WalBlobReader) : outcome WalError (list WalEntry) :=
  match fuel with
  | 0 => Panic
  | S fuel' =>
      let! (entry, self) := read_entry self in
      match entry with
      | None => Ok []
      | Some entry => let! entries := read_entries fuel' self in Ok (entry :: entries)
      end
  end.

(** ** The format *)

Definition entry_bytes (e : WalEntry) : list u8 :=
  match e with
  | Update page_id page_diff changed_nodes elided_children bucket =>
      [WAL_ENTRY_TAG_UPDATE] ++ page_id ++ diff_as_bytes page_diff ++ concat changed_nodes ++
      elided_to_bytes elided_children ++ to_le_bytes 8 bucket
  | Clear bucket => [WAL_ENTRY_TAG_CLEAR] ++ to_le_bytes 8 bucket
  end.

Definition wal_header (seqn : Z) : list u8 := [WAL_ENTRY_TAG_START] ++ to_le_bytes 4 seqn.

(** The values an entry can have: the page id and the nodes are 32 bytes long, and
    there is one node for every changed slot. *)
Definition entry_ok (e : WalEntry) : Prop :=
  match e with
  | Update page_id page_diff changed_nodes elided_children bucket =>
      length page_id = 32 ∧ slots_only page_diff ∧ length changed_nodes = diff_count page_diff ∧
      Forall (λ n, length n = 32) changed_nodes ∧ is_u64 (elided elided_children) ∧ is_u64 bucket
  | Clear bucket => is_u64 bucket
  end.

(** ** Writing *)

Section writing.
Context (mremap_ok mmap_ok : Z → bool).

(** The system can provide every mapping the builder asks for. *)
Hypothesis memory_available :
  ∀ n, (0 < n ≤ MAX_SIZE)%Z → mremap_ok n || mmap_ok n = true.

Definition builder_ok (b : WalBlobBuilder) : Prop :=
  (Z.of_nat PAGE_SIZE ≤ mmap_size b ≤ MAX_SIZE)%Z ∧
  (mmap_size b mod Z.of_nat PAGE_SIZE = 0)%Z ∧
  cur b ≤ length (mem b) ∧ (Z.of_nat (length (mem b)) ≤ mmap_size b)%Z.

(** The step of the builder [m] appends [bytes] to the blob of [b]. *)
Definition wrote (b : WalBlobBuilder) (m : outcome MemoryFault WalBlobBuilder) (bytes : list u8) : Prop :=
  ∃ b', m = Ok b' ∧ builder_ok b' ∧ as_slice b' = as_slice b ++ bytes.

Definition fits (b : WalBlobBuilder) (bytes : list u8) : Prop :=
  (Z.of_nat (length (as_slice b) + length bytes) < MAX_SIZE)%Z.

Lemma length_as_slice b : builder_ok b → length (as_slice b) = cur b.
Proof. intros (_ & _ & ? & _). unfold as_slice. rewrite length_take. lia. Qed.

Lemma grow_loop_spec fuel n m :
  (0 < n < 2 * MAX_SIZE)%Z → (n mod Z.of_nat PAGE_SIZE = 0)%Z → (m ≤ MAX_SIZE)%Z →
  (MAX_SIZE ≤ n * 2 ^ Z.of_nat fuel)%Z →
  ∃ s, grow_loop fuel n m = Some s ∧ (m ≤ s)%Z ∧ (n ≤ s)%Z ∧ (s mod Z.of_nat PAGE_SIZE = 0)%Z.
Proof.
  revert n. induction fuel as [|fuel IH]; intros n Hn Hp Hm Hf; cbn [grow_loop].
  - destruct (Z.ltb_spec n m), (Z.ltb_spec n MAX_SIZE); simpl; try (exists n; split_and!; (done || lia)).
  - destruct (Z.ltb_spec n m), (Z.ltb_spec n MAX_SIZE); simpl; try (exists n; split_and!; (done || lia)).
    assert (MAX_SIZE = 2 ^ 37)%Z as HM by done. rewrite Z.min_l by lia.
    destruct (IH (n * 2)%Z) as (s & -> & ? & ? & ?); try lia.
    + rewrite Z.mul_mod, Hp by done. done.
    + rewrite Nat2Z.inj_succ, Z.pow_succ_r in Hf by lia. lia.
    + exists s. split_and!; (done || lia).
Qed.

Lemma grow_spec b n :
  builder_ok b → (mmap_size b ≤ n < MAX_SIZE)%Z →
  ∃ b', grow mremap_ok mmap_ok b n = Some b' ∧ builder_ok b' ∧ mem b' = mem b ∧ cur b' = cur b ∧
    (n ≤ mmap_size b')%Z.
Proof.
  intros (Hs & Hp & Hc & Hl) Hn. unfold grow. rewrite (proj2 (Z.leb_gt _ _)) by lia.
  assert (MAX_SIZE = 2 ^ 37)%Z as HM by done.
  assert (Z.of_nat PAGE_SIZE = 4096)%Z as HP by done.
  destruct (grow_loop_spec 38 (mmap_size b) n) as (s & -> & H1 & H2 & H3); try (done || lia).
  cbn [mbind option_bind]. cbv zeta.
  assert (Hm : (Z.min s MAX_SIZE mod Z.of_nat PAGE_SIZE = 0)%Z).
  { destruct (Z.min_spec s MAX_SIZE) as [[_ ->]|[_ ->]]; [done|]. by vm_compute. }
  rewrite Hm. simpl negb. cbv iota. pose proof (memory_available (Z.min s MAX_SIZE) ltac:(lia)) as Ha.
  destruct (mremap_ok (Z.min s MAX_SIZE)); [|rewrite orb_false_l in Ha; rewrite Ha];
    eexists; (split; [reflexivity|]); repeat split; simpl; (done || lia).
Qed.

Lemma write_wrote b bytes :
  builder_ok b → fits b bytes → wrote b (write mremap_ok mmap_ok b bytes) bytes.
Proof.
  intros Hb Hf. unfold fits in Hf. rewrite length_as_slice in Hf by done.
  assert (MAX_SIZE = 2 ^ 37)%Z as HM by done. unfold write.
  rewrite (proj2 (Z.leb_gt _ _)) by lia.
  set (n := Z.of_nat (cur b + length bytes)) in *.
  assert (∃ b', (if (mmap_size b <=? n)%Z then or_panic (grow mremap_ok mmap_ok b n) else Ok b) = Ok (E := MemoryFault) b'
     ∧ builder_ok b' ∧ mem b' = mem b ∧ cur b' = cur b ∧ (n ≤ mmap_size b')%Z) as (b' & -> & Hb' & Hmem & Hcur & Hn).
  { destruct (Z.leb_spec (mmap_size b) n).
    - destruct (grow_spec b n) as (b' & -> & ?); [done|lia|]. by exists b'.
    - exists b. split_and!; (done || lia). }
  cbn [obind]. rewrite (proj2 (Z.ltb_ge _ _)) by done. subst n. rewrite <-Hcur in Hn |- *.
  destruct Hb' as (Hs & Hp & Hc & Hl). eexists. split; [reflexivity|].
  unfold as_slice, builder_ok. cbn [mem cur mmap_size].
  rewrite !length_app, length_take, length_drop. split_and!; try done; try lia.
  rewrite <-Hmem, app_assoc, take_app_le by (rewrite length_app, length_take; lia).
  rewrite take_ge by (rewrite length_app, length_take; lia). by rewrite Hcur.
Qed.

Lemma wrote_bind b m k bs1 bs2 :
  wrote b m bs1 →
  (∀ b', builder_ok b' → as_slice b' = as_slice b ++ bs1 → wrote b' (k b') bs2) →
  wrote b (obind m k) (bs1 ++ bs2).
Proof.
  intros (b' & -> & Hb' & Hs) Hk. destruct (Hk b' Hb' Hs) as (b'' & H & Hb'' & Hs'').
  exists b''. split_and!; [done|done|]. by rewrite Hs'', Hs, app_assoc.
Qed.

Lemma fits_app b bs1 bs2 b' :
  fits b (bs1 ++ bs2) → as_slice b' = as_slice b ++ bs1 → fits b bs1 ∧ fits b' bs2.
Proof. unfold fits. rewrite length_app. intros H ->. rewrite length_app. lia. Qed.

Lemma write_bind_wrote b bs1 bs2 k :
  builder_ok b → fits b (bs1 ++ bs2) →
  (∀ b', builder_ok b' → fits b' bs2 → wrote b' (k b') bs2) →
  wrote b (obind (write mremap_ok mmap_ok b bs1) k) (bs1 ++ bs2).
Proof.
  intros Hb Hf Hk. apply wrote_bind.
  - apply write_wrote; [done|]. unfold fits in *. rewrite length_app in Hf. lia.
  - intros b' Hb' Hs. apply Hk; [done|]. by eapply fits_app.
Qed.

Lemma write_all_wrote b nodes :
  builder_ok b → fits b (concat nodes) → wrote b (write_all mremap_ok mmap_ok b nodes) (concat nodes).
Proof.
  revert b. induction nodes as [|node nodes IH]; intros b Hb Hf; cbn [write_all concat].
  - exists b. by rewrite app_nil_r.
  - apply write_bind_wrote; [done|done|]. auto.
Qed.

(** Writing one entry: the two calls recovery's counterpart makes. *)
Definition write_entry (b : WalBlobBuilder) (e : WalEntry) : outcome MemoryFault WalBlobBuilder :=
  match e with
  | Update page_id page_diff changed_nodes elided_children bucket =>
      write_update mremap_ok mmap_ok b page_id page_diff changed_nodes elided_children bucket
  | Clear bucket => write_clear mremap_ok mmap_ok b bucket
  end.

Fixpoint write_entries (b : WalBlobBuilder) (es : list WalEntry) : outcome MemoryFault WalBlobBuilder :=
  match es with
  | [] => Ok b
  | e :: es => let! b := write_entry b e in write_entries b es
  end.

Lemma write_entry_wrote b e :
  builder_ok b → fits b (entry_bytes e) → wrote b (write_entry b e) (entry_bytes e).
Proof.
  intros Hb Hf. destruct e as [page_id diff nodes el bucket|bucket]; cbn [entry_bytes write_entry] in *.
  - unfold write_update, write_byte. do 3 (apply write_bind_wrote; [done|done|]; clear dependent b; intros b Hb Hf).
    apply wrote_bind.
    { apply write_all_wrote; [done|]. unfold fits in *. rewrite length_app in Hf. lia. }
    intros b' Hb' Hs. pose proof (fits_app _ _ _ _ Hf Hs) as [_ Hf'].
    apply write_bind_wrote; [done|done|]. intros. by apply write_wrote.
  - unfold write_clear, write_byte. apply write_bind_wrote; [done|done|]. intros. by apply write_wrote.
Qed.

Lemma write_entries_wrote b es :
  builder_ok b → fits b (es ≫= entry_bytes) → wrote b (write_entries b es) (es ≫= entry_bytes).
Proof.
  revert b. induction es as [|e es IH]; intros b Hb Hf.
  - exists b. by rewrite app_nil_r.
  - rewrite bind_cons in *. cbn [write_entries]. apply wrote_bind.
    + apply write_entry_wrote; [done|]. unfold fits in *. rewrite length_app in Hf. lia.
    + intros b' Hb' Hs. apply IH; [done|]. by eapply fits_app.
Qed.

Lemma reset_wrote b seqn :
  builder_ok b →
  ∃ b', reset mremap_ok mmap_ok b seqn = Ok b' ∧ builder_ok b' ∧ as_slice b' = wal_header seqn.
Proof.
  intros (? & ? & ? & ?). unfold reset, write_byte, wal_header.
  set (b0 := {| mem := mem b; mmap_size := mmap_size b; cur := 0 |}).
  assert (builder_ok b0) as Hb0 by (repeat split; simpl; (done || lia)).
  apply (write_bind_wrote b0 [WAL_ENTRY_TAG_START] (to_le_bytes 4 seqn)); [done| |].
  - unfold fits, as_slice. rewrite length_app, length_to_le_bytes. done.
  - intros. by apply write_wrote.
Qed.

Lemma round_up_spec n :
  let len := (n + PAGE_SIZE - 1) / PAGE_SIZE * PAGE_SIZE in
  n ≤ len ∧ len mod PAGE_SIZE = 0 ∧ len < n + PAGE_SIZE.
Proof.
  set (P := PAGE_SIZE). assert (P = 4096) as HP by done. clearbody P. cbv zeta.
  pose proof (Nat.div_mod_eq (n + P - 1) P). pose proof (Nat.mod_upper_bound (n + P - 1) P ltac:(lia)).
  split_and!; [lia|by rewrite Nat.Div0.mod_mul|lia].
Qed.

Lemma finalize_wrote b :
  builder_ok b → fits b [WAL_ENTRY_TAG_END] →
  ∃ b' n, finalize mremap_ok mmap_ok b = Ok b' ∧ builder_ok b' ∧
    as_slice b' = as_slice b ++ [WAL_ENTRY_TAG_END] ++ replicate n x00 ∧
    length (as_slice b') mod PAGE_SIZE = 0.
Proof.
  intros Hb Hf. unfold finalize, write_byte.
  destruct (write_wrote b [WAL_ENTRY_TAG_END] Hb Hf) as (b1 & -> & Hb1 & Hs1). cbn [obind].
  pose proof (round_up_spec (cur b1)) as (Hr1 & Hr2 & Hr3). cbv zeta in Hr1, Hr2, Hr3.
  set (len := (cur b1 + PAGE_SIZE - 1) / PAGE_SIZE * PAGE_SIZE) in *.
  pose proof Hb1 as (Hs & Hp & Hc & Hl).
  assert (Hlen : (Z.of_nat len ≤ mmap_size b1)%Z).
  { apply Z.mod_divide in Hp as [k Hk]; [|done]. apply Nat.Div0.mod_divides in Hr2 as [j Hj].
    rewrite Hk in *. rewrite Hj, Nat2Z.inj_mul in *.
    assert (Z.of_nat PAGE_SIZE = 4096)%Z as HP by done. rewrite HP in *.
    assert (PAGE_SIZE = 4096) as HP' by done. rewrite HP' in *. nia. }
  rewrite (proj2 (Z.ltb_ge _ _)) by done.
  eexists _, (len - cur b1). split; [reflexivity|]. unfold as_slice, builder_ok. cbn [mem cur mmap_size].
  assert (Ht : take len (take (cur b1) (mem b1) ++ replicate (len - cur b1) x00 ++ drop len (mem b1)) =
               as_slice b1 ++ replicate (len - cur b1) x00).
  { rewrite app_assoc, take_app_length'; [done|]. rewrite length_app, length_take, length_replicate. lia. }
  rewrite Ht, Hs1, <-app_assoc, !length_app, length_take, length_replicate, length_drop.
  split_and!; try done; try lia.
  pose proof (length_as_slice b1 Hb1) as Hc1. rewrite Hs1, length_app in Hc1.
  by replace (_ + _) with len by (simpl in *; lia).
Qed.
End writing.

(** ** Reading *)

(** The reader has [bs] ahead of it. *)
Definition ahead (r : WalBlobReader) (bs : list u8) : Prop :=
  offset r ≤ length (wal r) ∧ drop (offset r) (wal r) = bs.

Lemma ahead_length r bs : ahead r bs → length (wal r) = offset r + length bs.
Proof. intros [? <-]. rewrite length_drop. lia. Qed.

Lemma ahead_advance r bs rest :
  ahead r (bs ++ rest) → ahead (with_offset r (offset r + length bs)) rest.
Proof.
  intros H. pose proof (ahead_length r _ H) as Hl. rewrite length_app in Hl.
  destruct H as [_ H]. split; cbn [offset wal with_offset]; [lia|].
  rewrite <-drop_drop, H. apply drop_app_length.
Qed.

Lemma read_byte_ahead r b rest :
  ahead r (b :: rest) →
  read_byte r = Ok (b, with_offset r (offset r + 1)) ∧ ahead (with_offset r (offset r + 1)) rest.
Proof.
  intros H. split; [|by apply (ahead_advance r [b])].
  pose proof (ahead_length r _ H) as Hl. unfold read_byte.
  rewrite (proj2 (Nat.leb_gt _ _)) by (simpl in Hl; lia).
  destruct H as [_ H]. apply (f_equal (λ l, l !! 0)) in H.
  rewrite lookup_drop, Nat.add_0_r in H. by rewrite H.
Qed.

Lemma read_buf_ahead n r bs rest :
  ahead r (bs ++ rest) → length bs = n →
  read_buf n r = Ok (bs, with_offset r (offset r + n)) ∧ ahead (with_offset r (offset r + n)) rest.
Proof.
  intros H <-. split; [|by apply ahead_advance].
  pose proof (ahead_length r _ H) as Hl. rewrite length_app in Hl. unfold read_buf.
  rewrite (proj2 (Nat.ltb_ge _ _)) by lia. rewrite slice_Some by lia.
  destruct H as [_ ->]. rewrite Nat.add_comm, Nat.add_sub. cbn [or_panic obind].
  by rewrite take_app_length.
Qed.

Lemma read_u64_ahead r z rest :
  ahead r (to_le_bytes 8 z ++ rest) → is_u64 z →
  read_u64 r = Ok (z, with_offset r (offset r + 8)) ∧ ahead (with_offset r (offset r + 8)) rest.
Proof.
  intros H Hz. unfold read_u64.
  destruct (read_buf_ahead 8 r _ _ H) as [-> ?]; [apply length_to_le_bytes|].
  cbn [obind]. rewrite from_to_le_bytes, Z.mod_small by done. done.
Qed.

Lemma read_nodes_ahead nodes r rest :
  ahead r (concat nodes ++ rest) → Forall (λ n, length n = 32) nodes →
  ∃ r', read_nodes (length nodes) r = Ok (nodes, r') ∧ ahead r' rest ∧
    wal r' = wal r ∧ sync_seqn r' = sync_seqn r.
Proof.
  intros H Hn. revert r H. induction Hn as [|node nodes Hnode Hn IH]; intros r H.
  { exists r. done. }
  cbn [concat length read_nodes] in *. rewrite <-app_assoc in H.
  destruct (read_buf_ahead 32 r _ _ H Hnode) as [-> H1]. cbn [obind].
  destruct (IH _ H1) as (r' & -> & ?). by exists r'.
Qed.

Lemma read_entry_ahead r e rest :
  ahead r (entry_bytes e ++ rest) → entry_ok e →
  ∃ r', read_entry r = Ok (Some e, r') ∧ ahead r' rest ∧ wal r' = wal r ∧ sync_seqn r' = sync_seqn r.
Proof.
  intros H He. destruct e as [page_id diff nodes el bucket|bucket];
    cbn [entry_bytes entry_ok] in *; rewrite <-!app_assoc in H; cbn [app] in H;
    destruct (read_byte_ahead r _ _ H) as [Hb H1]; unfold read_entry; rewrite Hb; cbn [obind];
    repeat (first [rewrite bool_decide_eq_false_2 by done|rewrite bool_decide_eq_true_2 by done]).
  - destruct He as (Hid & Hd & Hlen & Hn & Hel & Hbk).
    destruct (diff_codec diff (proj1 Hd)) as [Hdl Hdc]. destruct Hd as (Hdok & H126 & H127).
    rewrite H126, H127 in Hdc. cbn [orb] in Hdc.
    destruct (read_buf_ahead 32 _ _ _ H1 Hid) as [-> H2]. cbn [obind].
    destruct (read_buf_ahead 16 _ _ _ H2 Hdl) as [-> H3]. cbn [obind].
    rewrite Hdc. cbn [or_panic obind]. rewrite <-Hlen.
    destruct (read_nodes_ahead nodes _ _ H3 Hn) as (r4 & -> & H4 & Hw & Hq). cbn [obind].
    destruct (read_buf_ahead 8 _ _ _ H4) as [-> H5]; [apply length_to_le_bytes|]. cbn [obind].
    destruct (read_u64_ahead _ _ _ H5 Hbk) as [-> H6]. cbn [obind].
    eexists. split; [|split; [exact H6|done]]. do 3 f_equal.
    unfold elided_from_bytes, elided_to_bytes. rewrite from_to_le_bytes, Z.mod_small by done. by destruct el.
  - destruct (read_u64_ahead _ _ _ H1 He) as [-> H2]. cbn [obind].
    eexists. split; [reflexivity|]. done.
Qed.

Lemma read_entries_ahead es r rest fuel :
  ahead r ((es ≫= entry_bytes) ++ WAL_ENTRY_TAG_END :: rest) → Forall entry_ok es → length es < fuel →
  read_entries fuel r = Ok es.
Proof.
  intros H He. revert r H fuel. induction He as [|e es He Hes IH]; intros r H [|fuel] Hf;
    cbn [length] in Hf; try lia; cbn [read_entries].
  - destruct (read_byte_ahead r _ _ H) as [Hb _]. unfold read_entry. rewrite Hb. done.
  - rewrite bind_cons, <-app_assoc in H.
    destruct (read_entry_ahead r e _ H He) as (r' & -> & H' & _). cbn [obind].
    rewrite (IH r' H') by lia. done.
Qed.

Lemma read_pages_spec fuel pn file :
  length file mod PAGE_SIZE = 0 → length file ≤ (pn + fuel) * PAGE_SIZE →
  read_pages fuel pn file = drop (pn * PAGE_SIZE) file.
Proof.
  intros Hm. revert pn. induction fuel as [|fuel IH]; intros pn Hf; cbn [read_pages].
  { symmetry. apply drop_ge. lia. }
  apply Nat.Div0.mod_divides in Hm as [k Hk]. unfold slice.
  rewrite (proj2 (Nat.leb_le (pn * PAGE_SIZE) _)) by lia. cbn [andb].
  destruct (Nat.leb_spec (pn * PAGE_SIZE + PAGE_SIZE) (length file)) as [Hle|Hgt].
  - rewrite IH by lia. rewrite Nat.add_comm, Nat.add_sub, (Nat.mul_add_distr_r pn 1), Nat.mul_1_l.
    rewrite <-drop_drop, take_drop. done.
  - symmetry. apply drop_ge. assert (PAGE_SIZE = 4096) as HP by done. rewrite HP in *. nia.
Qed.

Lemma reader_new_ahead file seqn rest :
  file = wal_header seqn ++ rest → is_u32 seqn → length file mod PAGE_SIZE = 0 →
  ∃ r, WalBlobReader_new file = Ok r ∧ wal r = file ∧ sync_seqn r = seqn ∧ ahead r rest.
Proof.
  intros Hf Hq Hm. unfold WalBlobReader_new. rewrite Hm, Nat.eqb_refl. cbn [negb].
  rewrite read_pages_spec; [|done|].
  2:{ pose proof (Nat.div_mod_eq (length file) PAGE_SIZE). lia. }
  unfold read_start. set (r := {| wal := drop (0 * PAGE_SIZE) file; offset := 0; sync_seqn := 0 |}).
  assert (H : ahead r (WAL_ENTRY_TAG_START :: to_le_bytes 4 seqn ++ rest)).
  { subst r. unfold ahead. cbn [wal offset]. rewrite Nat.mul_0_l, !drop_0, Hf. split; [lia|done]. }
  destruct (read_byte_ahead r _ _ H) as [-> H1]. cbn [obind].
  rewrite bool_decide_eq_true_2 by done. unfold read_u32.
  destruct (read_buf_ahead 4 _ _ _ H1) as [-> H2]; [apply length_to_le_bytes|]. cbn [obind].
  eexists. split; [reflexivity|]. split_and!; [done| |exact H2].
  cbn [sync_seqn]. by rewrite from_to_le_bytes, Z.mod_small.
Qed.

(** ** Reading arbitrary files *)

(** The step does not panic, and moves forward over the same bytes by at least [k]. *)
Definition advances {A} (k : nat) (r : WalBlobReader) (m : outcome WalError (A * WalBlobReader)) : Prop :=
  match m with
  | Ok (_, r') => wal r' = wal r ∧ offset r + k ≤ offset r' ≤ length (wal r)
  | Err _ => True
  | Panic => False
  end.

Lemma advances_bind {A B} j k r (m : outcome WalError (A * WalBlobReader))
    (f : A * WalBlobReader → outcome WalError (B * WalBlobReader)) :
  advances j r m →
  (∀ a r', m = Ok (a, r') → advances k r' (f (a, r'))) → advances (j + k) r (obind m f).
Proof.
  intros Hm Hf. destruct m as [[a r']| |]; [|done|done]. simpl in *.
  specialize (Hf a r' eq_refl). destruct (f (a, r')) as [[b r'']| |]; [|done|done].
  destruct Hm as [Hw ?], Hf as [Hw' ?]. simpl. rewrite Hw', Hw in *. split; [done|lia].
Qed.

Lemma advances_ret {A} (a : A) r : offset r ≤ length (wal r) → advances 0 r (Ok (a, r)).
Proof. simpl. split; [done|lia]. Qed.

Lemma advances_ok {A} k r (m : outcome WalError (A * WalBlobReader)) a r' :
  advances k r m → m = Ok (a, r') → offset r' ≤ length (wal r').
Proof. intros H ->. destruct H as [-> ?]. lia. Qed.

Lemma read_byte_advances r : offset r ≤ length (wal r) → advances 1 r (read_byte r).
Proof.
  intros Hr. unfold read_byte. destruct (Nat.leb_spec (length (wal r)) (offset r)); [done|].
  destruct (lookup_lt_is_Some_2 (wal r) (offset r)) as [b ->]; [done|]. simpl. split; [done|lia].
Qed.

Lemma read_buf_advances n r : offset r ≤ length (wal r) → advances n r (read_buf n r).
Proof.
  intros Hr. unfold read_buf. destruct (Nat.ltb_spec (length (wal r)) (offset r + n)); [done|].
  rewrite slice_Some by lia. simpl. split; [done|lia].
Qed.

Lemma read_buf_length n r bs r' : read_buf n r = Ok (bs, r') → length bs = n.
Proof.
  unfold read_buf. destruct (Nat.ltb_spec (length (wal r)) (offset r + n)); [done|].
  rewrite slice_Some by lia. intros [= <- _]. rewrite length_take, length_drop. lia.
Qed.

Lemma read_u64_advances r : offset r ≤ length (wal r) → advances 8 r (read_u64 r).
Proof.
  intros Hr. apply (advances_bind 8 0); [by apply read_buf_advances|].
  intros a r' E. apply advances_ret. eapply advances_ok; [|exact E]. by apply read_buf_advances.
Qed.

Lemma read_nodes_advances n r : offset r ≤ length (wal r) → advances 0 r (read_nodes n r).
Proof.
  revert r. induction n as [|n IH]; intros r Hr; cbn [read_nodes]; [by apply advances_ret|].
  pose proof (read_buf_advances 32 r Hr) as H32.
  assert (advances (32 + 0) r (read_nodes (S n) r)) as H; cbn [read_nodes] in *.
  { apply advances_bind; [done|]. intros a r' E. apply (advances_bind 0 0); [by eapply IH, advances_ok|].
    intros a' r'' E'. apply advances_ret. eapply advances_ok; [|exact E']. by eapply IH, advances_ok. }
  destruct (obind _ _) as [[? ?]| |]; [|done|done]. simpl in *. destruct H. split; [done|lia].
Qed.

Lemma diff_from_bytes_total bs : length bs = 16 → ∃ d, diff_from_bytes bs = Some d.
Proof.
  intros Hl. unfold diff_from_bytes. rewrite !slice_Some by lia. cbn [mbind option_bind].
  rewrite !changed_spec by lia. cbn [mbind option_bind]. by eexists.
Qed.

Lemma advances_weaken {A} j k r (m : outcome WalError (A * WalBlobReader)) :
  advances k r m → j ≤ k → advances j r m.
Proof. destruct m as [[? ?]| |]; simpl; intuition lia. Qed.

Lemma read_entry_advances r : offset r ≤ length (wal r) → advances 1 r (read_entry r).
Proof.
  intros Hr. apply (advances_bind 1 0); [by apply read_byte_advances|]. intros tag r1 E1.
  pose proof (advances_ok _ _ _ _ _ (read_byte_advances r Hr) E1) as Hr1.
  repeat case_bool_decide; [by apply advances_ret| | |done].
  - eapply (advances_weaken 0 (8 + 0)); [|lia]. apply advances_bind; [by apply read_u64_advances|].
    intros b r2 E2. apply advances_ret. eapply advances_ok; [|exact E2]. by apply read_u64_advances.
  - eapply (advances_weaken 0 (32 + (16 + (0 + (8 + (8 + 0)))))); [|lia].
    apply advances_bind; [by apply read_buf_advances|]. intros page_id r2 E2.
    pose proof (advances_ok _ _ _ _ _ (read_buf_advances 32 r1 Hr1) E2) as Hr2.
    apply advances_bind; [by apply read_buf_advances|]. intros diff r3 E3.
    pose proof (advances_ok _ _ _ _ _ (read_buf_advances 16 r2 Hr2) E3) as Hr3.
    destruct (diff_from_bytes_total diff) as [od ->]; [by eapply read_buf_length|]. cbn [or_panic obind].
    destruct od as [d|]; [|done]. cbn [obind].
    apply advances_bind; [by apply read_nodes_advances|]. intros nodes r4 E4.
    pose proof (advances_ok _ _ _ _ _ (read_nodes_advances _ r3 Hr3) E4) as Hr4.
    apply advances_bind; [by apply read_buf_advances|]. intros el r5 E5.
    pose proof (advances_ok _ _ _ _ _ (read_buf_advances 8 r4 Hr4) E5) as Hr5.
    apply advances_bind; [by apply read_u64_advances|]. intros bk r6 E6.
    apply advances_ret. eapply advances_ok; [|exact E6]. by apply read_u64_advances.
Qed.

Lemma read_entries_total fuel r :
  offset r ≤ length (wal r) → length (wal r) - offset r < fuel → read_entries fuel r ≠ Panic.
Proof.
  revert r. induction fuel as [|fuel IH]; intros r Hr Hf; [lia|]. cbn [read_entries].
  pose proof (read_entry_advances r Hr) as Ha.
  destruct (read_entry r) as [[[e|] r']| |]; simpl in *; [|done|done|done].
  destruct Ha as [Hw Ho]. specialize (IH r'). rewrite Hw in IH.
  destruct (read_entries fuel r'); simpl; [done|done|]. apply IH; lia.
Qed.

Lemma reader_new_total file :
  match WalBlobReader_new file with
  | Ok r => offset r ≤ length (wal r) ∧ length (wal r) = length file
  | Err _ => True
  | Panic => False
  end.
Proof.
  unfold WalBlobReader_new. destruct (Nat.eqb_spec (length file mod PAGE_SIZE) 0) as [Hm|]; [|done].
  cbn [negb]. rewrite read_pages_spec; [|done|].
  2:{ pose proof (Nat.div_mod_eq (length file) PAGE_SIZE). lia. }
  rewrite Nat.mul_0_l, drop_0. unfold read_start.
  set (r := {| wal := file; offset := 0; sync_seqn := 0 |}).
  assert (Hr : offset r ≤ length (wal r)) by (simpl; lia).
  pose proof (read_byte_advances r Hr) as H1.
  destruct (read_byte r) as [[tag r1]| |] eqn:E1; cbn [obind]; [|done|done].
  pose proof (advances_ok _ _ _ _ _ (read_byte_advances r Hr) E1) as Hr1.
  case_bool_decide; [|done]. unfold read_u32.
  pose proof (read_buf_advances 4 r1 Hr1) as H4. destruct H1 as [Hw1 _].
  destruct (read_buf 4 r1) as [[bs r2]| |]; cbn [obind]; [|done|done].
  destruct H4 as [Hw ?]. simpl. rewrite Hw, Hw1 in *. simpl in *. lia.
Qed.

(** ** The main theorems *)

(** C32: the log written for a sync reads back as what was written.  From any state of
    the builder, whatever it wrote before, and with a memory mapping that can be
    grown, resetting it, writing the entries and finalising stays within the mapping;
    and the reader, run over the finished blob, accepts it, reports its sequence
    number, reads exactly these entries in order and stops at the end marker. *)
Theorem wal_roundtrip (mremap_ok mmap_ok : Z → bool) (b : WalBlobBuilder) (seqn : Z)
    (es : list WalEntry) :
  (∀ n, (0 < n ≤ MAX_SIZE)%Z → mremap_ok n || mmap_ok n = true) →
  builder_ok b → is_u32 seqn → Forall entry_ok es →
  (Z.of_nat (6 + length (es ≫= entry_bytes)) < MAX_SIZE)%Z →
  ∃ b1 b2 b3 r,
    reset mremap_ok mmap_ok b seqn = Ok b1 ∧
    write_entries mremap_ok mmap_ok b1 es = Ok b2 ∧
    finalize mremap_ok mmap_ok b2 = Ok b3 ∧ builder_ok b3 ∧
    WalBlobReader_new (as_slice b3) = Ok r ∧ sync_seqn r = seqn ∧
    read_entries (S (length (as_slice b3))) r = Ok es.
Proof.
  intros Hmem Hb Hq He Hf.
  destruct (reset_wrote _ _ Hmem b seqn Hb) as (b1 & H1 & Hb1 & Hs1).
  assert (Hh : length (wal_header seqn) = 5) by (unfold wal_header; by rewrite length_app, length_to_le_bytes).
  destruct (write_entries_wrote _ _ Hmem b1 es Hb1) as (b2 & H2 & Hb2 & Hs2).
  { unfold fits. rewrite Hs1, Hh. lia. }
  destruct (finalize_wrote _ _ Hmem b2 Hb2) as (b3 & n & H3 & Hb3 & Hs3 & Hm).
  { unfold fits. rewrite Hs2, Hs1, length_app, Hh. simpl. lia. }
  rewrite Hs2, Hs1, <-!app_assoc in Hs3.
  destruct (reader_new_ahead (as_slice b3) seqn _ Hs3 Hq Hm) as (r & Hr & _ & Hrq & Ha).
  exists b1, b2, b3, r. split_and!; try done.
  eapply read_entries_ahead; [exact Ha|done|].
  enough (length es ≤ length (es ≫= entry_bytes)) by (rewrite Hs3, !length_app; lia).
  clear. induction es as [|e es IH]; [done|]. rewrite bind_cons, length_app.
  destruct e; simpl; lia.
Qed.

(** Reading a log never panics and ends, whatever the file holds.  For every
    file, torn, truncated or corrupt, opening the reader gives a reader or an error,
    and reading entries until the end marker gives the entries or an error within as
    many steps as the file has bytes. *)
Theorem wal_read_total (file : list u8) :
  match WalBlobReader_new file with
  | Ok r => read_entries (S (length file)) r ≠ Panic
  | Err _ => True
  | Panic => False
  end.
Proof.
  pose proof (reader_new_total file) as H. destruct (WalBlobReader_new file) as [r| |]; [|done|done].
  apply read_entries_total; [apply H|]. lia.
Qed.

Definition sample_builder : WalBlobBuilder :=
  {| mem := replicate 100 xff; mmap_size := 4096; cur := 7 |}.
Definition sample_entries : list WalEntry :=
  [Clear 7; Update (replicate 32 x0a) sample_diff [replicate 32 x01; replicate 32 x02; replicate 32 x03]
              {| elided := 9 |} 12].

Lemma wal_roundtrip_witness :
  ∃ b3 r,
    (let! b1 := reset (λ _, true) (λ _, false) sample_builder 3 in
     let! b2 := write_entries (λ _, true) (λ _, false) b1 sample_entries in
     finalize (λ _, true) (λ _, false) b2) = Ok b3 ∧
    WalBlobReader_new (as_slice b3) = Ok r ∧ sync_seqn r = 3%Z ∧
    read_entries (S (length (as_slice b3))) r = Ok sample_entries.
Proof.
  destruct (wal_roundtrip (λ _, true) (λ _, false) sample_builder 3 sample_entries)
    as (b1 & b2 & b3 & r & H1 & H2 & H3 & _ & Hr & Hq & He).
  - reflexivity.
  - repeat split; vm_compute; (lia || congruence).
  - split; vm_compute; congruence.
  - apply Forall_cons_2; [|apply Forall_cons_2; [|apply Forall_nil_2]].
    + split; vm_compute; congruence.
    + split_and!; try reflexivity; [|by_compute|split; vm_compute; congruence|split; vm_compute; congruence].
      repeat split; vm_compute; congruence.
  - vm_compute. reflexivity.
  - exists b3, r. rewrite H1. cbn [obind]. rewrite H2. cbn [obind]. rewrite H3.
    split_and!; [reflexivity|exact Hr|exact Hq|exact He].
Defined.
