(* ===== verification/Bitbox.v ===== *)
(** * The page store as a hash table

    Models the hash table of [nomt/src/bitbox]: the meta map ([meta_map.rs]), the
    layout of the file ([ht_file.rs]), and from [mod.rs] the probe sequence, the
    allocation of buckets, the loading of pages and the shared bucket placeholders.

    The hash function of the third-party [twox_hash] crate is an argument.  The probe
    loop of the source has no bound: the model gives it fuel, and [StillProbing] says
    that the fuel ran out.  A file is the list of its pages. *)

From S2P Require Import Prelude PageId PageDiff Wal.

#[local] Open Scope nat_scope.

(** ** The meta map *)

Definition EMPTY : u8 := x00.
Definition TOMBSTONE : u8 := x7f.
Definition FULL_MASK : Z := 128.

Definition full_entry (hash : Z) : u8 :=
  byte_of_Z (Z.lxor (Z.shiftr hash 57) FULL_MASK).

Record MetaMap := { buckets : nat; bitvec : list u8 }.

Definition MetaMap_from_bytes (meta_bytes : list u8) (buckets : nat) : option MetaMap :=
  let? _ := oassert (length meta_bytes mod 4096 =? 0) in
  Some {| buckets := buckets; bitvec := meta_bytes |}.

Definition full_count (self : MetaMap) : nat :=
  length (filter (λ byte, Z.land (byte_Z byte) FULL_MASK ≠ 0%Z) (bitvec self)).

(** [self.bitvec[bucket] = byte] *)
Definition set_byte (self : MetaMap) (bucket : nat) (byte : u8) : option MetaMap :=
  let? _ := oassert (bucket <? length (bitvec self)) in
  Some {| buckets := buckets self; bitvec := <[bucket := byte]> (bitvec self) |}.

Definition set_full (self : MetaMap) (bucket : nat) (hash : Z) : option MetaMap :=
  set_byte self bucket (full_entry hash).

Definition set_tombstone (self : MetaMap) (bucket : nat) : option MetaMap :=
  set_byte self bucket TOMBSTONE.

Definition hint_empty (self : MetaMap) (bucket : nat) : option bool :=
  let? byte := bitvec self !! bucket in Some (bool_decide (byte = EMPTY)).

Definition hint_tombstone (self : MetaMap) (bucket : nat) : option bool :=
  let? byte := bitvec self !! bucket in Some (bool_decide (byte = TOMBSTONE)).

Definition hint_not_match (self : MetaMap) (bucket : nat) (raw_hash : Z) : option bool :=
  let? byte := bitvec self !! bucket in Some (bool_decide (byte ≠ full_entry raw_hash)).

Definition page_index (bucket : nat) : nat := bucket / 4096.

Definition page_slice (self : MetaMap) (page_index : nat) : option (list u8) :=
  let start := page_index * 4096 in
  let end_ := start + 4096 in
  slice (bitvec self) start end_.

(** ** The layout of the file *)

Abbreviation file := (list (list u8)).

(** [io::read_page]: a short read past the end is an error. *)
Definition read_page (f : file) (pn : nat) : option (list u8) := f !! pn.

(** [write_all_at] of a page at [pn * PAGE_SIZE], which extends the file if needed. *)
Definition write_page (f : file) (pn : nat) (page : list u8) : file :=
  if pn <? length f then <[pn := page]> f
  else f ++ replicate (pn - length f) (replicate PAGE_SIZE x00) ++ [page].

Record HTOffsets := { data_page_offset : nat }.

Definition data_page_index (self : HTOffsets) (ix : nat) : nat := data_page_offset self + ix.
Definition meta_bytes_index (ix : nat) : nat := ix.

(** [u32] additions that overflow are panics. *)
Definition num_meta_byte_pages (num_pages : Z) : option Z :=
  let? _ := oassert (num_pages + 4095 <? 2 ^ 32)%Z in
  Some ((num_pages + 4095) / Z.of_nat PAGE_SIZE)%Z.

Definition expected_file_len (num_pages : Z) : option Z :=
  let? m := num_meta_byte_pages num_pages in
  let? _ := oassert (m + num_pages <? 2 ^ 32)%Z in
  Some ((m + num_pages) * Z.of_nat PAGE_SIZE)%Z.

Inductive HtError := UnexpectedFileLength | ShortRead.

(** The loop of [open] over the pages of the meta map. *)
Fixpoint read_meta_pages (f : file) (pn n : nat) : option (list u8) :=
  match n with
  | 0 => Some []
  | S n' =>
      let? extra_meta_page := read_page f pn in
      let? rest := read_meta_pages f (S pn) n' in
      Some (extra_meta_page ++ rest)
  end.

Definition ht_open (num_pages : Z) (f : file) : outcome HtError (HTOffsets * MetaMap) :=
  let! expected := or_panic (expected_file_len num_pages) in
  if negb (Z.of_nat (length f * PAGE_SIZE) =? expected)%Z then Err UnexpectedFileLength
  else
    let! m := or_panic (num_meta_byte_pages num_pages) in
    let! meta_bytes :=
      match read_meta_pages f 0 (Z.to_nat m) with Some bs => Ok bs | None => Err ShortRead end in
    let! meta_map := or_panic (MetaMap_from_bytes meta_bytes (Z.to_nat num_pages)) in
    Ok ({| data_page_offset := Z.to_nat m |}, meta_map).

(** The file [create] lays out, with zeroes. *)
Definition ht_create (num_pages : Z) : option file :=
  let? m := num_meta_byte_pages num_pages in
  let? _ := oassert (num_pages + m <? 2 ^ 32)%Z in
  Some (replicate (Z.to_nat (num_pages + m)) (replicate PAGE_SIZE x00)).

(** ** Probing *)

Inductive ProbeResult :=
| PossibleHit (bucket : nat)
| ProbeEmpty (bucket : nat)
| ProbeTombstone (bucket : nat).

Record ProbeSequence := { probe_hash : Z; probe_bucket : nat; probe_step : nat }.

Inductive ProbeError := StillProbing.

Section hashing.
(** [twox_hash::xxhash3_64::Hasher::oneshot_with_seed] *)
Context (oneshot_with_seed : Z → list u8 → Z).

Definition hash_raw_page_id (page_id : list u8) (seed : list u8) : Z :=
  let seed_u64 := from_be_bytes (take 8 seed) in
  oneshot_with_seed seed_u64 page_id.

Definition hash_page_id (page_id : PageId) (seed : list u8) : Z :=
  hash_raw_page_id (encode page_id) seed.

(** The remainder by an empty table is a panic. *)
Definition ProbeSequence_new (page_id : PageId) (meta_map : MetaMap) (seed : list u8) :
    option ProbeSequence :=
  let hash := hash_page_id page_id seed in
  let? _ := oassert (negb (buckets meta_map =? 0)) in
  Some {| probe_hash := hash; probe_bucket := Z.to_nat (hash mod Z.of_nat (buckets meta_map))%Z;
          probe_step := 0 |}.

Fixpoint probe_next (fuel : nat) (self : ProbeSequence) (meta_map : MetaMap) :
    outcome ProbeError (ProbeResult * ProbeSequence) :=
  match fuel with
  | 0 => Err StillProbing
  | S fuel' =>
      let bucket := (probe_bucket self + probe_step self) mod buckets meta_map in
      let self := {| probe_hash := probe_hash self; probe_bucket := bucket;
                     probe_step := probe_step self + 1 |} in
      let! empty := or_panic (hint_empty meta_map bucket) in
      if (empty : bool) then Ok (ProbeEmpty bucket, self)
      else
        let! tombstone := or_panic (hint_tombstone meta_map bucket) in
        if (tombstone : bool) then Ok (ProbeTombstone bucket, self)
        else
          let! not_match := or_panic (hint_not_match meta_map bucket (probe_hash self)) in
          if (not_match : bool) then probe_next fuel' self meta_map
          else Ok (PossibleHit bucket, self)
  end.

(** The loop of [allocate_bucket], with the number of attempts that are left. *)
Fixpoint allocate_loop (fuel attempts : nat) (probe_seq : ProbeSequence) (meta_map : MetaMap) :
    outcome ProbeError (option (nat * MetaMap)) :=
  match attempts with
  | 0 => Ok None
  | S attempts' =>
      let! (res, probe_seq) := probe_next fuel probe_seq meta_map in
      match res with
      | PossibleHit _ => allocate_loop fuel attempts' probe_seq meta_map
      | ProbeTombstone bucket | ProbeEmpty bucket =>
          let! meta_map := or_panic (set_full meta_map bucket (probe_hash probe_seq)) in
          Ok (Some (bucket, meta_map))
      end
  end.

(** The counter is checked after it is incremented: 9999 attempts are made. *)
Definition ALLOCATE_ATTEMPTS : nat := Z.to_nat 9999.

Definition allocate_bucket (fuel : nat) (page_id : PageId) (meta_map : MetaMap) (seed : list u8) :
    outcome ProbeError (option (nat * MetaMap)) :=
  let! probe_seq := or_panic (ProbeSequence_new page_id meta_map seed) in
  allocate_loop fuel ALLOCATE_ATTEMPTS probe_seq meta_map.

(** ** Loading pages *)

Inductive PageLoadState := Pending | Submitted.

Record PageLoad := {
  load_page_id : PageId;
  probe_sequence : ProbeSequence;
  load_state : PageLoadState;
}.

Definition start_load (meta_map : MetaMap) (seed : list u8) (page_id : PageId) : option PageLoad :=
  let? probe_sequence := ProbeSequence_new page_id meta_map seed in
  Some {| load_page_id := page_id; probe_sequence := probe_sequence; load_state := Pending |}.

(** The loop of [probe] over tombstones: [Some bucket] is a possible hit. *)
Fixpoint probe_loop (fuel : nat) (seq : ProbeSequence) (meta_map : MetaMap) :
    outcome ProbeError (option nat * ProbeSequence) :=
  match fuel with
  | 0 => Err StillProbing
  | S fuel' =>
      let! (res, seq) := probe_next fuel seq meta_map in
      match res with
      | ProbeTombstone _ => probe_loop fuel' seq meta_map
      | ProbeEmpty _ => Ok (None, seq)
      | PossibleHit bucket => Ok (Some bucket, seq)
      end
  end.

(** The number of the data page to read, if the page is not fresh. *)
Definition probe (fuel : nat) (ht_offsets : HTOffsets) (meta_map : MetaMap) (load : PageLoad) :
    outcome ProbeError (option nat * PageLoad) :=
  let! (bucket, seq) := probe_loop fuel (probe_sequence load) meta_map in
  match bucket with
  | None =>
      Ok (None, {| load_page_id := load_page_id load; probe_sequence := seq;
                   load_state := load_state load |})
  | Some bucket =>
      Ok (Some (data_page_index ht_offsets bucket),
          {| load_page_id := load_page_id load; probe_sequence := seq; load_state := Submitted |})
  end.

Definition needs_completion (self : PageLoad) : bool :=
  match load_state self with Submitted => true | Pending => false end.

Definition try_complete (self : PageLoad) (page : list u8) :
    option (option (list u8 * nat) * PageLoad) :=
  let? _ := oassert (needs_completion self) in
  let? label := slice_from page (PAGE_SIZE - 32) in
  if bool_decide (label = encode (load_page_id self)) then
    Some (Some (page, probe_bucket (probe_sequence self)), self)
  else
    Some (None, {| load_page_id := load_page_id self; probe_sequence := probe_sequence self;
                   load_state := Pending |}).

(** The driver of a load: probe, read the page, try to complete, until the page is
    found or known to be fresh. *)
Fixpoint drive_load (fuel : nat) (ht_offsets : HTOffsets) (meta_map : MetaMap) (ht : file)
    (load : PageLoad) : outcome ProbeError (option (list u8 * nat)) :=
  match fuel with
  | 0 => Err StillProbing
  | S fuel' =>
      let! (pn, load) := probe fuel ht_offsets meta_map load in
      match pn with
      | None => Ok None
      | Some pn =>
          let! page := or_panic (read_page ht pn) in
          let! (res, load) := or_panic (try_complete load page) in
          match res with
          | Some r => Ok (Some r)
          | None => drive_load fuel' ht_offsets meta_map ht load
          end
      end
  end.
End hashing.

(** ** Shared bucket placeholders

    [SharedMaybeBucketIndex] is a shared atomic cell: the store [refs] maps the
    identity of a cell to its value. *)

Definition NONE_PATTERN : Z := 2 ^ 64 - 1.

Abbreviation refs := (gmap nat Z).

Definition maybe_bucket_new (bucket : option Z) : Z :=
  match bucket with None => NONE_PATTERN | Some x => x end.

Definition maybe_bucket_set (r : refs) (cell : nat) (bucket : Z) : refs := <[cell := bucket]> r.

Definition maybe_bucket_get (r : refs) (cell : nat) : option (option Z) :=
  let? val := r !! cell in
  Some (if (val =? NONE_PATTERN)%Z then None else Some val).

(** ** Triangular probing *)

Fixpoint triangle (k : nat) : nat :=
  match k with 0 => 0 | S k' => triangle k' + k end.

(** The bucket probed at step [k], for a hash [h] and a table of [n] buckets. *)
Definition nth_bucket (h : Z) (n k : nat) : nat := (Z.to_nat (h mod Z.of_nat n) + triangle k) mod n.

Lemma triangle_double k : 2 * triangle k = k * (k + 1).
Proof. induction k as [|k IH]; [done|]. cbn [triangle]. nia. Qed.

Lemma pow2_divides_odd p (a b : Z) :
  Z.odd a = true → (2 ^ Z.of_nat p | a * b)%Z → (2 ^ Z.of_nat p | b)%Z.
Proof.
  intros Ha. revert b. induction p as [|p IH]; intros b [c Hc]; [exists b; lia|].
  rewrite Nat2Z.inj_succ, Z.pow_succ_r in Hc |- * by lia.
  assert (Z.even b = true) as [b' ->]%Z.even_spec.
  { assert (Z.even (a * b) = true) as He by (rewrite Hc, !Z.even_mul; simpl; by rewrite orb_true_r).
    rewrite Z.even_mul, <-(Z.negb_odd a), Ha in He. done. }
  destruct (IH b') as [d Hd]; [exists c; lia|]. exists d. lia.
Qed.

Lemma triangle_inj m i j :
  i < 2 ^ m → j < 2 ^ m → triangle i mod 2 ^ m = triangle j mod 2 ^ m → i = j.
Proof.
  assert (Hle : ∀ i j, i ≤ j → i < 2 ^ m → j < 2 ^ m → triangle i mod 2 ^ m = triangle j mod 2 ^ m → i = j).
  { clear. intros i j Hij Hi Hj Hm.
    pose proof (triangle_double i). pose proof (triangle_double j).
    pose proof (Nat.div_mod_eq (triangle i) (2 ^ m)) as Di. pose proof (Nat.div_mod_eq (triangle j) (2 ^ m)) as Dj.
    set (qi := triangle i / 2 ^ m) in *. set (qj := triangle j / 2 ^ m) in *.
    assert (HP : (2 ^ Z.of_nat (S m) = 2 * Z.of_nat (2 ^ m))%Z).
    { rewrite Nat2Z.inj_succ, Z.pow_succ_r, Nat2Z.inj_pow by lia. done. }
    assert (Hd : (2 ^ Z.of_nat (S m) | (Z.of_nat j - Z.of_nat i) * (Z.of_nat i + Z.of_nat j + 1))%Z).
    { exists (Z.of_nat qj - Z.of_nat qi)%Z. rewrite HP. nia. }
    clear qi qj Di Dj Hm. set (N := 2 ^ m) in *. clearbody N.
    destruct (Z.odd (Z.of_nat j - Z.of_nat i)) eqn:Ho.
    - apply pow2_divides_odd in Hd; [|done]. apply Z.divide_pos_le in Hd; lia.
    - rewrite Z.mul_comm in Hd. apply pow2_divides_odd in Hd.
      + destruct (decide (i = j)); [done|]. apply Z.divide_pos_le in Hd; lia.
      + replace (Z.of_nat i + Z.of_nat j + 1)%Z with (Z.of_nat j - Z.of_nat i + (2 * Z.of_nat i + 1))%Z by lia.
        rewrite Z.odd_add, Ho, Z.odd_add, Z.odd_mul. done. }
  intros Hi Hj Hm. destruct (Nat.le_ge_cases i j); [by apply Hle|symmetry; by apply Hle].
Qed.

(** In a table whose size is a power of two, the first probes reach every bucket. *)
Lemma nth_bucket_covers m h b :
  b < 2 ^ m → ∃ k, k < 2 ^ m ∧ nth_bucket h (2 ^ m) k = b.
Proof.
  intros Hb. set (n := 2 ^ m) in *. assert (Hn : n ≠ 0) by lia.
  set (l := nth_bucket h n <$> seq 0 n).
  assert (Hnd : NoDup l).
  { apply NoDup_fmap_2_strong; [|apply NoDup_seq].
    intros i j [_ Hi]%elem_of_seq [_ Hj]%elem_of_seq Hij. unfold nth_bucket in Hij.
    apply (triangle_inj m); [done|done|].
    set (x := Z.to_nat (h mod Z.of_nat n)) in *. fold n.
    pose proof (Nat.div_mod_eq (x + triangle i) n) as Di. pose proof (Nat.div_mod_eq (x + triangle j) n) as Dj.
    set (qi := (x + triangle i) / n) in *. set (qj := (x + triangle j) / n) in *. rewrite Hij in Di.
    destruct (Nat.le_ge_cases (triangle i) (triangle j)).
    - replace (triangle j) with (triangle i + (qj - qi) * n) by nia. by rewrite Nat.Div0.mod_add.
    - replace (triangle i) with (triangle j + (qi - qj) * n) by nia. by rewrite Nat.Div0.mod_add. }
  assert (Hp : l ≡ₚ seq 0 n).
  { apply submseteq_length_Permutation; [|unfold l; by rewrite length_fmap].
    apply NoDup_submseteq; [done|]. intros x (k & -> & _)%list_elem_of_fmap.
    apply elem_of_seq. unfold nth_bucket. pose proof (Nat.mod_upper_bound (Z.to_nat (h mod Z.of_nat n) + triangle k) n Hn). lia. }
  assert (Hin : b ∈ l) by (rewrite Hp; apply elem_of_seq; lia).
  apply list_elem_of_fmap in Hin as (k & -> & [_ Hk]%elem_of_seq). by exists k.
Qed.

(** ** What probing finds *)

Section probing.
Context (oneshot_with_seed : Z → list u8 → Z).
(** The hash is a 64-bit integer. *)
Hypothesis hash_u64 : ∀ s bs, is_u64 (oneshot_with_seed s bs).
Context (seed : list u8).

Definition hash_of (p : PageId) : Z := hash_page_id oneshot_with_seed p seed.

(** The bytes of all buckets are there. *)
Definition meta_ok (mm : MetaMap) : Prop := 0 < buckets mm ≤ length (bitvec mm).

(** The state of a probe sequence before its step [k]. *)
Definition seq_at (mm : MetaMap) (h : Z) (k : nat) (s : ProbeSequence) : Prop :=
  probe_hash s = h ∧ probe_step s = k ∧
  (probe_bucket s + k) mod buckets mm = nth_bucket h (buckets mm) k.

(** The byte met at step [k]. *)
Definition nth_byte (mm : MetaMap) (h : Z) (k : nat) : u8 :=
  default EMPTY (bitvec mm !! nth_bucket h (buckets mm) k).

Lemma nth_bucket_bound mm h k : meta_ok mm → nth_bucket h (buckets mm) k < buckets mm.
Proof. intros []. apply Nat.mod_upper_bound. lia. Qed.

Lemma nth_byte_lookup mm h k :
  meta_ok mm → bitvec mm !! nth_bucket h (buckets mm) k = Some (nth_byte mm h k).
Proof.
  intros Hm. unfold nth_byte. pose proof (nth_bucket_bound mm h k Hm). destruct Hm.
  by destruct (lookup_lt_is_Some_2 (bitvec mm) (nth_bucket h (buckets mm) k)) as [x ->]; [lia|].
Qed.

Lemma seq_at_new mm p :
  meta_ok mm → ∃ s, ProbeSequence_new oneshot_with_seed p mm seed = Some s ∧ seq_at mm (hash_of p) 0 s.
Proof.
  intros [Hm _]. unfold ProbeSequence_new. rewrite (proj2 (Nat.eqb_neq _ _)) by lia.
  cbn [negb oassert mbind option_bind]. eexists. split; [reflexivity|].
  unfold seq_at, nth_bucket. cbn [probe_hash probe_step probe_bucket triangle]. done.
Qed.

Lemma seq_at_next mm h k s :
  meta_ok mm → seq_at mm h k s →
  let b := (probe_bucket s + probe_step s) mod buckets mm in
  b = nth_bucket h (buckets mm) k ∧
  seq_at mm h (S k) {| probe_hash := probe_hash s; probe_bucket := b; probe_step := probe_step s + 1 |}.
Proof.
  intros Hm (Hh & Hk & Hb). rewrite Hk. cbv zeta. split; [done|].
  unfold seq_at. cbn [probe_hash probe_bucket probe_step]. split_and!; [done|lia|].
  rewrite Hb. unfold nth_bucket. rewrite Nat.Div0.add_mod_idemp_l. f_equal. cbn [triangle]. lia.
Qed.

(** What a step does with the byte it meets: go on, or stop. *)
Definition skipped (h : Z) (byte : u8) : Prop :=
  byte ≠ EMPTY ∧ byte ≠ TOMBSTONE ∧ byte ≠ full_entry h.

Definition classify (h : Z) (byte : u8) (bucket : nat) : ProbeResult :=
  if bool_decide (byte = EMPTY) then ProbeEmpty bucket
  else if bool_decide (byte = TOMBSTONE) then ProbeTombstone bucket
  else PossibleHit bucket.

#[global] Instance skipped_dec h byte : Decision (skipped h byte).
Proof. unfold skipped. apply _. Defined.

Lemma probe_next_step mm h fuel k s :
  meta_ok mm → seq_at mm h k s →
  ∃ s', seq_at mm h (S k) s' ∧ probe_bucket s' = nth_bucket h (buckets mm) k ∧
    probe_next (S fuel) s mm =
      if decide (skipped h (nth_byte mm h k)) then probe_next fuel s' mm
      else Ok (classify h (nth_byte mm h k) (nth_bucket h (buckets mm) k), s').
Proof.
  intros Hm Hs. destruct (seq_at_next mm h k s Hm Hs) as [Hb Hs']. cbv zeta in *.
  rewrite Hb in Hs'. eexists. split; [exact Hs'|]. split; [done|].
  cbn [probe_next]. rewrite Hb. unfold hint_empty, hint_tombstone, hint_not_match, classify. cbn [probe_hash].
  rewrite (proj1 Hs). rewrite nth_byte_lookup by done. cbn [mbind option_bind or_panic obind].
  set (byte := nth_byte mm h k). unfold skipped.
  repeat case_bool_decide; case_decide; naive_solver.
Qed.

(** The result of a search: it ran out of fuel before position [k + fuel], or it
    stopped at the first position [j] at which [stop] holds. *)
Definition searched {A} (k fuel : nat) (stop : nat → Prop) (m : outcome ProbeError A)
    (res : nat → A → Prop) : Prop :=
  (m = Err StillProbing ∧ ∀ j, k ≤ j < k + fuel → ¬ stop j) ∨
  (∃ j a, k ≤ j ∧ (∀ i, k ≤ i < j → ¬ stop i) ∧ stop j ∧ m = Ok a ∧ res j a).

(** A search that first passes over the positions up to [k']. *)
Lemma searched_later {A} k k' fuel fuel' stop (m : outcome ProbeError A) res :
  k ≤ k' → k + fuel ≤ k' + fuel' → (∀ i, k ≤ i < k' → ¬ stop i) →
  searched k' fuel' stop m res → searched k fuel stop m res.
Proof.
  intros Hk Hf Hlow [[-> Hall]|(j & a & Hj & Hl & Hst & -> & Hres)].
  - left. split; [done|]. intros j Hj. destruct (decide (j < k')); [apply Hlow; lia|apply Hall; lia].
  - right. exists j, a. split_and!; try done; [lia|].
    intros i Hi. destruct (decide (i < k')); [apply Hlow; lia|apply Hl; lia].
Qed.

Lemma searched_here {A} k fuel (stop : nat → Prop) (m : outcome ProbeError A) (res : nat → A → Prop) a :
  stop k → m = Ok a → res k a → searched k fuel stop m res.
Proof. intros. right. exists k, a. split_and!; auto; [intros; lia]. Qed.

Lemma probe_next_spec mm h fuel k s :
  meta_ok mm → seq_at mm h k s →
  searched k fuel (λ j, ¬ skipped h (nth_byte mm h j)) (probe_next fuel s mm)
    (λ j r, r.1 = classify h (nth_byte mm h j) (nth_bucket h (buckets mm) j) ∧
            seq_at mm h (S j) r.2 ∧ probe_bucket r.2 = nth_bucket h (buckets mm) j).
Proof.
  intros Hm. revert k s. induction fuel as [|fuel IH]; intros k s Hs.
  { left. split; [done|]. intros j Hj. lia. }
  destruct (probe_next_step mm h fuel k s Hm Hs) as (s' & Hs' & Hb & ->). case_decide as Hd.
  - eapply (searched_later k (S k) _ fuel); [lia|lia| |by apply IH].
    intros i Hi. assert (i = k) as -> by lia. intros []. done.
  - eapply searched_here; [done|done|]. done.
Qed.

(** ** Loading a page *)

(** The positions at which the inner loop of a load stops. *)
Definition load_stop (mm : MetaMap) (h : Z) (j : nat) : Prop :=
  nth_byte mm h j = EMPTY ∨ nth_byte mm h j = full_entry h.

Lemma load_stop_not_skipped mm h j : load_stop mm h j → ¬ skipped h (nth_byte mm h j).
Proof. unfold load_stop, skipped. naive_solver. Qed.

Lemma full_entry_bit h : is_u64 h → (128 ≤ byte_Z (full_entry h))%Z.
Proof.
  intros [H0 H1]. unfold full_entry. rewrite byte_Z_of_Z, Z.shiftr_div_pow2 by lia.
  assert (Hr : (0 ≤ h / 2 ^ 57 < 128)%Z).
  { split; [apply Z.div_pos; lia|]. apply Z.div_lt_upper_bound; [lia|]. by change (2 ^ 57 * 128)%Z with (2 ^ 64)%Z. }
  set (x := (h / 2 ^ 57)%Z) in *. clearbody x.
  assert (Z.lxor x FULL_MASK = (x + 128)%Z) as ->.
  { unfold FULL_MASK. rewrite Z.add_nocarry_lxor; [done|]. apply Z.bits_inj'. intros n Hn.
    rewrite Z.land_spec, Z.bits_0. change 128%Z with (2 ^ 7)%Z. rewrite Z.pow2_bits_eqb by lia.
    destruct (Z.eqb_spec 7 n) as [<-|]; [|by rewrite andb_false_r]. rewrite andb_true_r.
    destruct (decide (x = 0)%Z) as [->|]; [done|]. apply Z.bits_above_log2; [lia|].
    apply Z.log2_lt_pow2; lia. }
  rewrite Z.mod_small; lia.
Qed.

Lemma full_entry_not_free h : is_u64 h → full_entry h ≠ EMPTY ∧ full_entry h ≠ TOMBSTONE.
Proof.
  intros H. pose proof (full_entry_bit h H). split; intros E; rewrite E in *;
    by vm_compute in H0.
Qed.

Lemma probe_loop_spec mm h fuel k s :
  meta_ok mm → is_u64 h → seq_at mm h k s →
  searched k fuel (load_stop mm h) (probe_loop fuel s mm)
    (λ j r, r.1 = (if decide (nth_byte mm h j = EMPTY) then None else Some (nth_bucket h (buckets mm) j)) ∧
            seq_at mm h (S j) r.2 ∧ probe_bucket r.2 = nth_bucket h (buckets mm) j).
Proof.
  intros Hm Hh. revert k s. induction fuel as [|fuel IH]; intros k s Hs; cbn [probe_loop].
  { left. split; [done|]. intros j Hj. lia. }
  destruct (full_entry_not_free h Hh) as [Hfe Hft].
  destruct (probe_next_spec mm h (S fuel) k s Hm Hs)
    as [[-> Hall]|(j & [res s'] & Hj & Hlow & Hst & -> & Hr & Hs' & Hb)]; cbn [obind].
  { left. split; [done|]. intros j Hj Hls. by apply (Hall j Hj), load_stop_not_skipped. }
  cbn [fst snd] in *. subst res. unfold classify.
  apply (searched_later k j _ (S fuel)); [lia|lia|intros i Hi Hls; by apply (Hlow i Hi), load_stop_not_skipped|].
  case_bool_decide as He; [|case_bool_decide as Ht].
  - eapply searched_here; [by left|done|]. rewrite decide_True by done. done.
  - eapply (searched_later j (S j) _ fuel); [lia|lia| |by apply IH].
    intros i Hi. assert (i = j) as -> by lia. unfold load_stop. rewrite Ht. naive_solver.
  - assert (nth_byte mm h j = full_entry h) as Hf.
    { destruct (decide (nth_byte mm h j = full_entry h)); [done|]. destruct Hst. done. }
    eapply searched_here; [by right|done|]. rewrite decide_False by done. done.
Qed.

(** The data pages of all buckets are there. *)
Definition ht_ok (off : HTOffsets) (mm : MetaMap) (ht : file) : Prop :=
  ∀ b, b < buckets mm → ∃ page, ht !! data_page_index off b = Some page ∧ length page = PAGE_SIZE.

(** The page id a page is labelled with. *)
Definition label (page : list u8) : list u8 := drop (PAGE_SIZE - 32) page.

Definition load_hit (off : HTOffsets) (mm : MetaMap) (ht : file) (p : PageId) (j : nat) : Prop :=
  nth_byte mm (hash_of p) j = EMPTY ∨
  (nth_byte mm (hash_of p) j = full_entry (hash_of p) ∧
   ∃ page, ht !! data_page_index off (nth_bucket (hash_of p) (buckets mm) j) = Some page ∧
           label page = encode p).

Definition load_result (off : HTOffsets) (mm : MetaMap) (ht : file) (p : PageId) (j : nat)
    (r : option (list u8 * nat)) : Prop :=
  if decide (nth_byte mm (hash_of p) j = EMPTY) then r = None
  else ∃ page, r = Some (page, nth_bucket (hash_of p) (buckets mm) j) ∧
         ht !! data_page_index off (nth_bucket (hash_of p) (buckets mm) j) = Some page.

Lemma hash_of_u64 p : is_u64 (hash_of p).
Proof. apply hash_u64. Qed.

Lemma drive_load_spec off mm ht p fuel k load :
  meta_ok mm → ht_ok off mm ht → load_page_id load = p →
  seq_at mm (hash_of p) k (probe_sequence load) →
  searched k fuel (load_hit off mm ht p) (drive_load fuel off mm ht load) (load_result off mm ht p).
Proof.
  intros Hm Hht. revert k load. induction fuel as [|fuel IH]; intros k load Hp Hs; cbn [drive_load].
  { left. split; [done|]. intros j Hj. lia. }
  unfold probe. set (h := hash_of p) in *.
  assert (Himp : ∀ j, load_hit off mm ht p j → load_stop mm h j).
  { intros j [?|[? _]]; [by left|by right]. }
  destruct (probe_loop_spec mm h (S fuel) k (probe_sequence load) Hm (hash_of_u64 p) Hs)
    as [[-> Hall]|(j & [res s'] & Hj & Hlow & Hst & -> & Hr & Hs' & Hb)]; cbn [obind].
  { left. split; [done|]. intros j Hj Hls. by apply (Hall j Hj), Himp. }
  cbn [fst snd] in *. subst res.
  apply (searched_later k j _ (S fuel)); [lia|lia|intros i Hi Hls; by apply (Hlow i Hi), Himp|].
  case_decide as He; cbn [obind].
  - eapply searched_here; [by left|done|]. unfold load_result. by rewrite decide_True.
  - destruct (Hht (nth_bucket h (buckets mm) j)) as (page & Hpage & Hlen); [by apply nth_bucket_bound|].
    unfold read_page. rewrite Hpage. cbn [or_panic obind].
    unfold try_complete, needs_completion. cbn [load_state oassert mbind option_bind load_page_id probe_sequence].
    rewrite slice_from_Some by (rewrite Hlen; unfold PAGE_SIZE; lia). cbn [mbind option_bind].
    rewrite Hp. case_bool_decide as Hl; cbn [or_panic obind].
    + destruct Hst as [?|Hf]; [done|]. eapply searched_here; [right|done|].
      { split; [done|]. by exists page. }
      unfold load_result. rewrite decide_False by done. exists page. by rewrite Hb.
    + eapply (searched_later j (S j) _ fuel); [lia|lia| |by apply IH].
      intros i Hi. assert (i = j) as -> by lia. intros [?|(_ & page' & Hpage' & Hl')]; [done|].
      fold h in Hpage'. rewrite Hpage in Hpage'. by simplify_eq.
Qed.

(** ** The table as a map from page ids to buckets *)

(** [owner] says which page each full bucket holds. *)
Record table_ok (mm : MetaMap) (owner : gmap nat PageId) : Prop := {
  table_meta : meta_ok mm;
  table_full b p : owner !! b = Some p →
    b < buckets mm ∧ bitvec mm !! b = Some (full_entry (hash_of p));
  table_free b : b < buckets mm → owner !! b = None →
    bitvec mm !! b = Some EMPTY ∨ bitvec mm !! b = Some TOMBSTONE;
  table_inj b b' p : owner !! b = Some p → owner !! b' = Some p → b = b';
  table_reach b p : owner !! b = Some p →
    ∃ k, nth_bucket (hash_of p) (buckets mm) k = b ∧
      ∀ j, j < k → nth_byte mm (hash_of p) j ≠ EMPTY;
}.

(** The stored pages carry their labels, and no two pages in question share one. *)
Definition labels_ok (off : HTOffsets) (ht : file) (owner : gmap nat PageId) (p : PageId) : Prop :=
  ∀ b q, owner !! b = Some q →
    (encode q = encode p → q = p) ∧
    ∀ page, ht !! data_page_index off b = Some page → label page = encode q.

Lemma table_byte mm owner p j :
  table_ok mm owner → nth_byte mm (hash_of p) j = full_entry (hash_of p) →
  ∃ q, owner !! nth_bucket (hash_of p) (buckets mm) j = Some q.
Proof.
  intros Ht Hb. destruct (owner !! _) as [q|] eqn:E; [by exists q|].
  pose proof (nth_byte_lookup mm (hash_of p) j (table_meta _ _ Ht)) as Hl.
  destruct (full_entry_not_free _ (hash_of_u64 p)).
  destruct (table_free _ _ Ht _ (nth_bucket_bound mm (hash_of p) j (table_meta _ _ Ht)) E); congruence.
Qed.

Lemma load_hit_owner off mm ht owner p j :
  table_ok mm owner → labels_ok off ht owner p → load_hit off mm ht p j →
  nth_byte mm (hash_of p) j = EMPTY ∨
  owner !! nth_bucket (hash_of p) (buckets mm) j = Some p.
Proof.
  intros Ht Hlab [?|(Hf & page & Hpage & Hl)]; [by left|right].
  destruct (table_byte mm owner p j Ht Hf) as [q Hq]. destruct (Hlab _ _ Hq) as [Hinj Hlq].
  rewrite (Hlq _ Hpage) in Hl. apply Hinj in Hl. congruence.
Qed.

(** The answer a load must give. *)
Definition load_answer (off : HTOffsets) (ht : file) (owner : gmap nat PageId) (p : PageId)
    (r : option (list u8 * nat)) : Prop :=
  match r with
  | Some (page, b) => owner !! b = Some p ∧ ht !! data_page_index off b = Some page
  | None => ∀ b, owner !! b ≠ Some p
  end.

Lemma load_result_answer off mm ht owner p j r :
  table_ok mm owner → labels_ok off ht owner p → ht_ok off mm ht →
  (∀ i, i < j → ¬ load_hit off mm ht p i) → load_hit off mm ht p j →
  load_result off mm ht p j r → load_answer off ht owner p r.
Proof.
  intros Ht Hlab Hht Hlow Hhit Hr. unfold load_result in Hr. case_decide as He.
  - subst r. simpl. intros b Hb.
    destruct (table_full _ _ Ht b p Hb) as [_ Hbyte]. destruct (table_reach _ _ Ht b p Hb) as (k & Hk & Hne).
    destruct (decide (j < k)); [by eapply Hne|].
    pose proof (nth_byte_lookup mm (hash_of p) k (table_meta _ _ Ht)) as Hkb. rewrite Hk, Hbyte in Hkb.
    destruct (decide (j = k)) as [->|].
    { rewrite He in Hkb. destruct (full_entry_not_free _ (hash_of_u64 p)). congruence. }
    apply (Hlow k ltac:(lia)). right. split; [congruence|].
    rewrite Hk. destruct (Hht b) as (page & Hpage & _); [by eapply table_full|].
    exists page. split; [done|]. by apply (Hlab b p Hb).
  - destruct Hr as (page & -> & Hpage). simpl. split; [|done].
    by destruct (load_hit_owner off mm ht owner p j Ht Hlab Hhit).
Qed.

(** ** Changing the table *)

Lemma set_byte_spec mm b x :
  meta_ok mm → b < buckets mm →
  ∃ mm', set_byte mm b x = Some mm' ∧ meta_ok mm' ∧ buckets mm' = buckets mm ∧
    bitvec mm' = <[b := x]> (bitvec mm) ∧
    ∀ h j, nth_byte mm' h j = if decide (nth_bucket h (buckets mm) j = b) then x else nth_byte mm h j.
Proof.
  intros [H0 Hl] Hb. unfold set_byte. rewrite (proj2 (Nat.ltb_lt _ _)) by lia.
  eexists. split; [reflexivity|]. unfold meta_ok, nth_byte. cbn [buckets bitvec].
  rewrite length_insert. split_and!; try done. intros h j. case_decide as E.
  - rewrite E, list_lookup_insert_eq by lia. done.
  - by rewrite list_lookup_insert_ne.
Qed.

(** A byte other than [EMPTY] keeps every page reachable. *)
Lemma reach_mono mm mm' h b x k :
  (∀ j, nth_byte mm' h j = if decide (nth_bucket h (buckets mm) j = b) then x else nth_byte mm h j) →
  x ≠ EMPTY → (∀ j, j < k → nth_byte mm h j ≠ EMPTY) → ∀ j, j < k → nth_byte mm' h j ≠ EMPTY.
Proof. intros Hb Hx Hne j Hj. rewrite Hb. case_decide; auto. Qed.

Lemma set_tombstone_ok mm owner b p :
  table_ok mm owner → owner !! b = Some p →
  ∃ mm', set_tombstone mm b = Some mm' ∧ table_ok mm' (delete b owner) ∧
    buckets mm' = buckets mm ∧ bitvec mm' = <[b := TOMBSTONE]> (bitvec mm).
Proof.
  intros Ht Hp. destruct (table_full _ _ Ht b p Hp) as [Hb _].
  destruct (set_byte_spec mm b TOMBSTONE (table_meta _ _ Ht) Hb) as (mm' & Hset & Hm' & Hbk & Hbv & Hnth).
  exists mm'. split_and!; try done. split.
  - done.
  - intros b' q [Hne Hq]%lookup_delete_Some. destruct (table_full _ _ Ht b' q Hq) as [Hb' Hbyte].
    rewrite Hbk, Hbv, list_lookup_insert_ne by done. done.
  - intros b' Hb' Hq. rewrite Hbk in Hb'. rewrite Hbv. destruct (decide (b' = b)) as [->|Hne].
    + right. apply list_lookup_insert_eq. destruct (table_meta _ _ Ht). lia.
    + rewrite list_lookup_insert_ne by done. rewrite lookup_delete_ne in Hq by done. by apply (table_free _ _ Ht).
  - intros b1 b2 q [_ H1]%lookup_delete_Some [_ H2]%lookup_delete_Some. by eapply (table_inj _ _ Ht).
  - intros b' q [_ Hq]%lookup_delete_Some. destruct (table_reach _ _ Ht b' q Hq) as (k & Hk & Hne).
    exists k. rewrite Hbk. split; [done|]. eapply (reach_mono mm); [by apply Hnth|done|done].
Qed.

Definition free_byte (byte : u8) : Prop := byte = EMPTY ∨ byte = TOMBSTONE.

(** A page placed at the first free position of its probe sequence. *)
Lemma set_full_ok mm owner p j :
  table_ok mm owner → (∀ b, owner !! b ≠ Some p) →
  free_byte (nth_byte mm (hash_of p) j) → (∀ i, i < j → ¬ free_byte (nth_byte mm (hash_of p) i)) →
  let b := nth_bucket (hash_of p) (buckets mm) j in
  ∃ mm', set_full mm b (hash_of p) = Some mm' ∧ owner !! b = None ∧ b < buckets mm ∧
    table_ok mm' (<[b := p]> owner) ∧
    buckets mm' = buckets mm ∧ bitvec mm' = <[b := full_entry (hash_of p)]> (bitvec mm).
Proof.
  intros Ht Hnew Hfree Hlow b. pose proof (table_meta _ _ Ht) as Hm.
  assert (Hb : b < buckets mm) by by apply nth_bucket_bound.
  destruct (full_entry_not_free _ (hash_of_u64 p)) as [Hfe Hft].
  assert (Hob : owner !! b = None).
  { destruct (owner !! b) as [q|] eqn:E; [|done]. destruct (table_full _ _ Ht b q E) as [_ Hbyte].
    pose proof (nth_byte_lookup mm (hash_of p) j Hm) as Hl. fold b in Hl. rewrite Hbyte in Hl.
    destruct (full_entry_not_free _ (hash_of_u64 q)). destruct Hfree; congruence. }
  destruct (set_byte_spec mm b (full_entry (hash_of p)) Hm Hb) as (mm' & Hset & Hm' & Hbk & Hbv & Hnth).
  exists mm'. split_and!; try done. split.
  - done.
  - intros b' q [[<- <-]|[Hne Hq]]%lookup_insert_Some.
    + rewrite Hbk, Hbv, list_lookup_insert_eq; [done|]. destruct Hm. lia.
    + rewrite Hbk, Hbv, list_lookup_insert_ne by done. by apply (table_full _ _ Ht).
  - intros b' Hb' [Hq Hne]%lookup_insert_None. rewrite Hbk in Hb'.
    rewrite Hbv, list_lookup_insert_ne by done. by apply (table_free _ _ Ht).
  - intros b1 b2 q [[E1 Eq1]|[Hn1 H1]]%lookup_insert_Some [[E2 Eq2]|[Hn2 H2]]%lookup_insert_Some;
      [congruence|destruct (Hnew b2); congruence|destruct (Hnew b1); congruence|
       by eapply (table_inj _ _ Ht)].
  - intros b' q [[<- <-]|[Hne Hq]]%lookup_insert_Some.
    + exists j. rewrite Hbk. split; [done|]. eapply (reach_mono mm); [by apply Hnth|done|].
      intros i Hi He. apply (Hlow i Hi). by left.
    + destruct (table_reach _ _ Ht b' q Hq) as (k & Hk & Hek).
      exists k. rewrite Hbk. split; [done|]. eapply (reach_mono mm); [by apply Hnth|done|done].
Qed.

(** The allocation gives up, runs out of fuel, or takes the first free position. *)
Lemma allocate_loop_spec mm h fuel attempts k s :
  meta_ok mm → is_u64 h → seq_at mm h k s →
  match allocate_loop fuel attempts s mm with
  | Ok (Some (b, mm')) =>
      ∃ j, k ≤ j ∧ b = nth_bucket h (buckets mm) j ∧ free_byte (nth_byte mm h j) ∧
        (∀ i, k ≤ i < j → ¬ free_byte (nth_byte mm h i)) ∧ set_full mm b h = Some mm'
  | Ok None => True
  | Err StillProbing => ∃ k', k ≤ k' ∧ ∀ i, k ≤ i < k' + fuel → ¬ free_byte (nth_byte mm h i)
  | Panic => False
  end.
Proof.
  intros Hm Hh. revert k s. induction attempts as [|attempts IH]; intros k s Hs; cbn [allocate_loop]; [done|].
  destruct (full_entry_not_free h Hh) as [Hfe Hft].
  assert (Hfs : ∀ byte, skipped h byte → ¬ free_byte byte) by (intros byte (?&?&?) []; done).
  destruct (probe_next_spec mm h fuel k s Hm Hs)
    as [[-> Hall]|(j & [res s'] & Hj & Hlow & Hst & -> & Hr & Hs' & Hb)]; cbn [obind].
  { exists k. split; [lia|]. intros i Hi. apply Hfs. destruct (decide (skipped h (nth_byte mm h i))) as [|Hn]; [done|].
    by destruct (Hall i Hi). }
  cbn [fst snd] in *. subst res.
  assert (Hlow' : ∀ i, k ≤ i < j → ¬ free_byte (nth_byte mm h i)).
  { intros i Hi. apply Hfs. destruct (decide (skipped h (nth_byte mm h i))) as [|Hn]; [done|]. by destruct (Hlow i Hi). }
  assert (Hfree : free_byte (nth_byte mm h j) →
    match (let! meta_map := or_panic (E := ProbeError) (set_full mm (nth_bucket h (buckets mm) j) (probe_hash s')) in
           Ok (Some (nth_bucket h (buckets mm) j, meta_map))) with
    | Ok (Some (b, mm')) =>
      ∃ j, k ≤ j ∧ b = nth_bucket h (buckets mm) j ∧ free_byte (nth_byte mm h j) ∧
        (∀ i, k ≤ i < j → ¬ free_byte (nth_byte mm h i)) ∧ set_full mm b h = Some mm'
    | Ok None => True
    | Err StillProbing => ∃ k', k ≤ k' ∧ ∀ i, k ≤ i < k' + fuel → ¬ free_byte (nth_byte mm h i)
    | Panic => False
    end).
  { intros Hf. rewrite (proj1 Hs').
    destruct (set_byte_spec mm (nth_bucket h (buckets mm) j) (full_entry h) Hm) as (mm' & Hset & _); [by apply nth_bucket_bound|].
    fold (set_full mm (nth_bucket h (buckets mm) j) h) in Hset. rewrite Hset. cbn [or_panic obind].
    exists j. done. }
  unfold classify. case_bool_decide as He; [apply Hfree; by left|].
  case_bool_decide as Ht; [apply Hfree; by right|].
  specialize (IH (S j) s' Hs').
  assert (Hjn : ¬ free_byte (nth_byte mm h j)) by (intros []; done).
  assert (Hext : ∀ m, (∀ i, S j ≤ i < m → ¬ free_byte (nth_byte mm h i)) → ∀ i, k ≤ i < m → ¬ free_byte (nth_byte mm h i)).
  { intros m Hmm i Hi. destruct (decide (i < j)); [apply Hlow'; lia|].
    destruct (decide (i = j)) as [->|]; [done|]. apply Hmm. lia. }
  destruct (allocate_loop fuel attempts s' mm) as [[[b mm']|]|[]|]; [|done| |done].
  - destruct IH as (j' & ? & ? & ? & Hl' & ?). exists j'. split_and!; [lia|done|done|by apply Hext|done].
  - destruct IH as (k' & ? & Hk'). exists k'. split; [lia|]. by apply Hext.
Qed.

(** ** The main theorems *)

(** The stored pages, and the labels on disk. *)
Definition stored_ok (off : HTOffsets) (ht : file) (owner : gmap nat PageId) : Prop :=
  ∀ b q, owner !! b = Some q → valid q ∧ depth q ≤ 41 ∧
    ∀ page, ht !! data_page_index off b = Some page → label page = encode q.

Lemma stored_labels off ht owner p :
  stored_ok off ht owner → valid p → depth p ≤ 41 → labels_ok off ht owner p.
Proof.
  intros Hst Hv Hd b q Hq. destruct (Hst b q Hq) as (Hvq & Hdq & Hl). split; [|done].
  by apply encode_inj_41.
Qed.

(** C19: loading a page finds it exactly if it is stored.  In a table whose buckets hold
    the pages [owner] says, each reachable from its hash and labelled on disk, and for
    pages above the last layer, the load of a page never panics; a page it returns is
    the stored one, with its bucket, and it reports a page as fresh only if it is not
    stored.  If moreover the number of buckets is a power of two and some bucket is
    empty, the load ends within as many probes as there are buckets. *)
Theorem page_load_correct (off : HTOffsets) (mm : MetaMap) (ht : file) (owner : gmap nat PageId)
    (p : PageId) :
  table_ok mm owner → ht_ok off mm ht → stored_ok off ht owner → valid p → depth p ≤ 41 →
  ∃ load, start_load oneshot_with_seed mm seed p = Some load ∧
    (∀ fuel, drive_load fuel off mm ht load ≠ Panic) ∧
    (∀ fuel r, drive_load fuel off mm ht load = Ok r → load_answer off ht owner p r) ∧
    (∀ m b, buckets mm = 2 ^ m → b < buckets mm → bitvec mm !! b = Some EMPTY →
       ∃ r, drive_load (buckets mm) off mm ht load = Ok r).
Proof.
  intros Ht Hht Hst Hv Hd. pose proof (table_meta _ _ Ht) as Hm.
  pose proof (stored_labels off ht owner p Hst Hv Hd) as Hlab.
  destruct (seq_at_new mm p Hm) as (s & Hs & Hat). unfold start_load. rewrite Hs. cbn [mbind option_bind].
  set (load := {| load_page_id := p; probe_sequence := s; load_state := Pending |}).
  assert (Hspec : ∀ fuel, searched 0 fuel (load_hit off mm ht p) (drive_load fuel off mm ht load) (load_result off mm ht p)).
  { intros fuel. by apply drive_load_spec. }
  exists load. split_and!; [done| | |].
  - intros fuel. by destruct (Hspec fuel) as [[-> _]|(j & a & _ & _ & _ & -> & _)].
  - intros fuel r Hr. destruct (Hspec fuel) as [[E _]|(j & a & _ & Hlow & Hhit & E & Hres)]; [congruence|].
    rewrite Hr in E. simplify_eq. eapply load_result_answer; try done. intros i Hi. apply Hlow. lia.
  - intros m b Hn Hb He. destruct (Hspec (buckets mm)) as [[_ Hall]|(j & a & _ & _ & _ & -> & _)]; [|by eexists].
    rewrite Hn in Hb. destruct (nth_bucket_covers m (hash_of p) b Hb) as (k & Hk & Hkb).
    destruct (Hall k); [lia|]. left. unfold nth_byte. rewrite Hn, Hkb, He. done.
Qed.

(** Allocating a bucket keeps the table consistent.  For a page that is not stored,
    [allocate_bucket] never panics; a bucket it returns was free, and recording the page
    there gives a consistent table in which every page is still found, and nothing else
    changed.  If the number of buckets is a power of two and some bucket is free, the
    allocation ends, with every probe within as many steps as there are buckets. *)
Theorem allocate_bucket_correct (mm : MetaMap) (owner : gmap nat PageId) (p : PageId) :
  table_ok mm owner → (∀ b, owner !! b ≠ Some p) →
  (∀ fuel,
     match allocate_bucket oneshot_with_seed fuel p mm seed with
     | Ok (Some (b, mm')) =>
         owner !! b = None ∧ b < buckets mm ∧ table_ok mm' (<[b := p]> owner) ∧
         bitvec mm' = <[b := full_entry (hash_of p)]> (bitvec mm)
     | Ok None | Err _ => True
     | Panic => False
     end) ∧
  (∀ m b byte, buckets mm = 2 ^ m → b < buckets mm → bitvec mm !! b = Some byte → free_byte byte →
     ∃ r, allocate_bucket oneshot_with_seed (buckets mm) p mm seed = Ok r).
Proof.
  intros Ht Hnew. pose proof (table_meta _ _ Ht) as Hm.
  destruct (seq_at_new mm p Hm) as (s & Hs & Hat). unfold allocate_bucket. rewrite Hs. cbn [or_panic obind].
  split.
  - intros fuel. pose proof (allocate_loop_spec mm (hash_of p) fuel ALLOCATE_ATTEMPTS 0 s Hm (hash_of_u64 p) Hat) as H.
    destruct (allocate_loop fuel ALLOCATE_ATTEMPTS s mm) as [[[b mm']|]|[]|]; [|done|done|done].
    destruct H as (j & _ & -> & Hfree & Hlow & Hset).
    destruct (set_full_ok mm owner p j Ht Hnew Hfree) as (mm'' & Hset' & ?); [intros i Hi; apply Hlow; lia|].
    rewrite Hset in Hset'. simplify_eq. tauto.
  - intros m b byte Hn Hb Hbyte Hfree.
    pose proof (allocate_loop_spec mm (hash_of p) (buckets mm) ALLOCATE_ATTEMPTS 0 s Hm (hash_of_u64 p) Hat) as H.
    destruct (allocate_loop (buckets mm) ALLOCATE_ATTEMPTS s mm) as [r|[]|]; [by exists r| |done].
    destruct H as (k' & _ & Hall). rewrite Hn in Hb.
    destruct (nth_bucket_covers m (hash_of p) b Hb) as (k & Hk & Hkb).
    destruct (Hall k); [lia|]. unfold nth_byte. by rewrite Hn, Hkb, Hbyte.
Qed.
End probing.

(** ** Tables on which probing does not end *)

Lemma triangle_mod_5 k : triangle k mod 5 ∈ [0; 1; 3].
Proof.
  pose proof (triangle_double k) as H. pose proof (Nat.div_mod_eq k 5) as Hk.
  pose proof (Nat.mod_upper_bound k 5 ltac:(lia)) as Hb.
  pose proof (Nat.div_mod_eq (triangle k) 5) as Ht.
  pose proof (Nat.mod_upper_bound (triangle k) 5 ltac:(lia)) as Htb.
  set (t := triangle k mod 5) in *. set (q := triangle k / 5) in *. set (a := k / 5) in *. set (r := k mod 5) in *.
  assert (t = 0 ∨ t = 1 ∨ t = 3 ∨ t = 2 ∨ t = 4) as Hc by lia.
  assert (He : ∃ c, 2 * t = r * (r + 1) + 5 * c ∨ 2 * t + 5 * c = r * (r + 1)).
  { destruct (Nat.le_ge_cases (2 * t) (r * (r + 1))).
    - exists (2 * q - 5 * (a * a) - 2 * (a * r) - a). right. nia.
    - exists (5 * (a * a) + 2 * (a * r) + a - 2 * q). left. nia. }
  destruct He as [c He]. rewrite !elem_of_cons.
  assert (r = 0 ∨ r = 1 ∨ r = 2 ∨ r = 3 ∨ r = 4) as Hr by lia.
  destruct Hr as [E|[E|[E|[E|E]]]]; rewrite E in He; destruct Hc as [?|[?|[?|[?|?]]]]; try tauto; lia.
Qed.

(** The buckets that a hash reaches, modulo five. *)
Lemma nth_bucket_mod_5 h n j :
  0 < n → n mod 5 = 0 → nth_bucket h n j mod 5 = (Z.to_nat (h mod 5) + triangle j mod 5) mod 5.
Proof.
  intros Hn H5. apply Nat.Div0.mod_divides in H5 as [q ->]. unfold nth_bucket.
  assert (Hmm : ∀ x, x mod (5 * q) mod 5 = x mod 5).
  { intros x. rewrite Nat.Div0.mod_mul_r, (Nat.mul_comm 5), Nat.Div0.mod_add. apply Nat.Div0.mod_mod. }
  rewrite Hmm, (Nat.Div0.add_mod (Z.to_nat _)), (Nat.Div0.add_mod (Z.to_nat (h mod 5))), !Nat.Div0.mod_mod. do 2 f_equal.
  pose proof (Z.mod_pos_bound h (Z.of_nat (5 * q)) ltac:(lia)). pose proof (Z.mod_pos_bound h 5 ltac:(lia)).
  apply Nat2Z.inj. rewrite !Nat2Z.inj_mod, !Z2Nat.id by lia. change (Z.of_nat 5) with 5%Z.
  rewrite Nat2Z.inj_mul, Z.mod_mod by lia. change (Z.of_nat 5) with 5%Z.
  rewrite Z.rem_mul_r by lia. rewrite (Z.mul_comm 5 (_ mod _)), Z_mod_plus_full. by rewrite Z.mod_mod by lia.
Qed.

(** C33: probing need not end, although buckets are empty.  Take any table whose number of
    buckets is a multiple of five (the default is 64000), and any page.  If the buckets
    whose index is, modulo five, 0, 1 or 3 more than the hash of the page are full with
    other tags, then whatever the remaining two buckets out of five hold, even if all of
    them are empty, the allocation of a bucket for the page does not complete its first
    attempt, however long it runs: the bound on the attempts does not bound the probes
    within one. *)
Theorem allocate_never_returns (oneshot_with_seed : Z → list u8 → Z) (seed : list u8) (mm : MetaMap)
    (p : PageId) (fuel : nat) :
  meta_ok mm → buckets mm mod 5 = 0 →
  (∀ b t byte, b < buckets mm → t ∈ [0; 1; 3] →
     b mod 5 = (Z.to_nat (hash_of oneshot_with_seed seed p mod 5) + t) mod 5 → bitvec mm !! b = Some byte →
     byte ≠ EMPTY ∧ byte ≠ TOMBSTONE ∧ byte ≠ full_entry (hash_of oneshot_with_seed seed p)) →
  allocate_bucket oneshot_with_seed fuel p mm seed = Err StillProbing.
Proof.
  intros Hm H5 Hfull. unfold allocate_bucket. destruct (seq_at_new oneshot_with_seed seed mm p Hm) as (s & -> & Hs).
  cbn [or_panic obind]. unfold ALLOCATE_ATTEMPTS. destruct (Z.to_nat 9999) eqn:E; [lia|]. cbn [allocate_loop].
  set (h := hash_of oneshot_with_seed seed p) in *.
  destruct (probe_next_spec mm h fuel 0 s Hm Hs) as [[-> _]|(j & _ & _ & _ & Hst & _)]; [done|].
  destruct Hst. apply (Hfull (nth_bucket h (buckets mm) j) (triangle j mod 5)).
  - by apply nth_bucket_bound.
  - apply triangle_mod_5.
  - apply nth_bucket_mod_5; [apply Hm|done].
  - by apply nth_byte_lookup.
Qed.

(** ** The theorems at work *)

Definition toy_xxh (s : Z) (bs : list u8) : Z := wrap 64 (from_be_bytes bs).
Definition sample_map : MetaMap := {| buckets := 4; bitvec := x80 :: replicate 4095 x00 |}.
Definition sample_file : file :=
  [x80 :: replicate 4095 x00; replicate 4096 x00; replicate 4096 x00; replicate 4096 x00; replicate 4096 x00].
Definition sample_owner : gmap nat PageId := {[ 0 := ROOT_PAGE_ID ]}.

Lemma sample_owner_Some b p : sample_owner !! b = Some p → 0 = b ∧ ROOT_PAGE_ID = p.
Proof. unfold sample_owner. apply lookup_singleton_Some. Qed.

Lemma sample_table_ok : table_ok toy_xxh [] sample_map sample_owner.
Proof.
  split.
  - vm_compute. lia.
  - intros b p [<- <-]%sample_owner_Some. split; [vm_compute; lia|vm_compute; reflexivity].
  - intros b Hb Hn. left. unfold sample_owner in Hn. apply lookup_singleton_None in Hn. cbn [sample_map buckets] in Hb.
    destruct b as [|[|[|[|b]]]]; [done|reflexivity|reflexivity|reflexivity|lia].
  - intros b b' p [<- <-]%sample_owner_Some [<- _]%sample_owner_Some. done.
  - intros b p [<- <-]%sample_owner_Some. exists 0. split; [vm_compute; reflexivity|intros; lia].
Qed.

Lemma page_load_correct_witness :
  ∃ load r, start_load toy_xxh sample_map [] ROOT_PAGE_ID = Some load ∧
    drive_load 4 {| data_page_offset := 1 |} sample_map sample_file load = Ok r ∧
    load_answer {| data_page_offset := 1 |} sample_file sample_owner ROOT_PAGE_ID r.
Proof.
  assert (Hu : ∀ s bs, is_u64 (toy_xxh s bs)).
  { intros s bs. unfold toy_xxh, wrap, is_u64. apply Z.mod_pos_bound. lia. }
  destruct (page_load_correct toy_xxh Hu [] {| data_page_offset := 1 |} sample_map sample_file sample_owner ROOT_PAGE_ID)
    as (load & Hl & _ & Hans & Hterm).
  - exact sample_table_ok.
  - intros b Hb. cbn [sample_map buckets] in Hb.
    destruct b as [|[|[|[|b]]]]; [| | | |lia]; (eexists; split; [reflexivity|apply length_replicate]).
  - intros b q [<- <-]%sample_owner_Some. split; [by_compute|]. split; [vm_compute; lia|].
    intros page [= <-]. vm_compute. reflexivity.
  - by_compute.
  - vm_compute. lia.
  - destruct (Hterm 2 1) as [r Hr]; [reflexivity|vm_compute; lia|reflexivity|].
    exists load, r. split_and!; [exact Hl|exact Hr|exact (Hans _ _ Hr)].
Defined.

Lemma allocate_bucket_correct_witness :
  ∃ r, allocate_bucket toy_xxh 4 {| path := [3%Z] |} sample_map [] = Ok r.
Proof.
  assert (Hu : ∀ s bs, is_u64 (toy_xxh s bs)).
  { intros s bs. unfold toy_xxh, wrap, is_u64. apply Z.mod_pos_bound. lia. }
  destruct (allocate_bucket_correct toy_xxh Hu [] sample_map sample_owner {| path := [3%Z] |}) as [_ Hterm].
  - exact sample_table_ok.
  - intros b [_ E]%sample_owner_Some. discriminate.
  - destruct (Hterm 2 1 x00) as [r Hr]; [reflexivity|vm_compute; lia|reflexivity|by left|].
    exists r. exact Hr.
Defined.

(** Five buckets, of which two are empty. *)
Definition stuck_map : MetaMap := {| buckets := 5; bitvec := [xff; xff; x00; xff; x00] ++ replicate 4091 x00 |}.

Lemma allocate_never_returns_witness :
  hint_empty stuck_map 2 = Some true ∧ hint_empty stuck_map 4 = Some true ∧
  allocate_bucket toy_xxh 1000 ROOT_PAGE_ID stuck_map [] = Err StillProbing.
Proof.
  split_and!; [reflexivity|reflexivity|]. apply (allocate_never_returns toy_xxh [] stuck_map ROOT_PAGE_ID 1000).
  - split; [vm_compute; lia|vm_compute; lia].
  - reflexivity.
  - intros b t byte Hb Ht Hmod Hbyte. cbn [stuck_map buckets] in Hb.
    replace (Z.to_nat (hash_of toy_xxh [] ROOT_PAGE_ID mod 5)) with 0 in Hmod by (vm_compute; reflexivity).
    rewrite !elem_of_cons, elem_of_nil in Ht.
    destruct Ht as [->|[->|[->|[]]]]; destruct b as [|[|[|[|[|b]]]]]; try lia; try discriminate; injection Hbyte as <-;
      split_and!; vm_compute; congruence.
Defined.
