(* ===== verification/BitboxSync.v ===== *)
(** * Syncing and recovering the page store

    Models the write path of [nomt/src/bitbox/mod.rs]: [DB::prepare_sync], which
    assigns buckets, updates the meta map, writes the log and collects the pages to
    write out, the writeout, and [recover], which replays the log over the file after
    a crash; and the operations on page data of [page_cache.rs] they use.

    The set of changed meta pages is a hash set, whose order does not matter for the
    result: it is a finite set here.  A build with debug assertions is modelled. *)

From S2P Require Import Prelude PageId PageDiff Wal Bitbox.

#[local] Open Scope nat_scope.

(** ** Page data *)

Definition read_elided_children (data : list u8) : option ElidedChildren :=
  let? raw := slice data (PAGE_SIZE - 32 - 8) (PAGE_SIZE - 32) in
  Some (elided_from_bytes raw).

(** ** Dirty pages *)

Inductive BucketInfo :=
| Known (bucket : Z)
| FreshWithNoDependents
| FreshOrDependent (cell : nat).

Record DirtyPage := { dp_page : list u8; dp_diff : PageDiff; dp_bucket : BucketInfo }.

(** ** [prepare_sync] *)

Inductive SyncError := BucketExhaustion | SyncStillProbing | WalOutOfBounds.

Definition lift_probe {A} (m : outcome ProbeError A) : outcome SyncError A :=
  match m with Ok a => Ok a | Err _ => Err SyncStillProbing | Panic => Panic end.
Definition lift_wal {A} (m : outcome MemoryFault A) : outcome SyncError A :=
  match m with Ok a => Ok a | Err _ => Err WalOutOfBounds | Panic => Panic end.

(** The local variables of the loop, with the log and the shared cells. *)
Record SyncState := {
  ss_meta_map : MetaMap;
  ss_changed_meta_pages : gset nat;
  ss_ht_pages : list (nat * list u8);
  ss_cache_updates : list (PageId * option (list u8 * Z));
  ss_occupied_buckets_delta : Z;
  ss_wal_blob_builder : WalBlobBuilder;
  ss_refs : refs;
}.

Section sync.
Context (oneshot_with_seed : Z → list u8 → Z) (mremap_ok mmap_ok : Z → bool).
Context (seed : list u8) (ht_offsets : HTOffsets).

(** The branch for cleared pages. *)
Definition clear_page (page_id : PageId) (dirty_page : DirtyPage) (st : SyncState) :
    outcome SyncError SyncState :=
  let! bucket :=
    or_panic match dp_bucket dirty_page with
             | Known bucket => Some bucket
             | FreshOrDependent cell => let? b := maybe_bucket_get (ss_refs st) cell in b
             | FreshWithNoDependents => None
             end in
  let! meta_map := or_panic (set_tombstone (ss_meta_map st) (Z.to_nat bucket)) in
  let! wal := lift_wal (write_clear mremap_ok mmap_ok (ss_wal_blob_builder st) bucket) in
  Ok {| ss_meta_map := meta_map;
        ss_changed_meta_pages := {[ page_index (Z.to_nat bucket) ]} ∪ ss_changed_meta_pages st;
        ss_ht_pages := ss_ht_pages st;
        ss_cache_updates := ss_cache_updates st ++ [(page_id, None)];
        ss_occupied_buckets_delta := ss_occupied_buckets_delta st - 1;
        ss_wal_blob_builder := wal;
        ss_refs := ss_refs st |}.

(** The bucket of a page that is written: whether the meta map changes, the bucket,
    the meta map and the shared cells. *)
Definition assign_bucket (fuel : nat) (page_id : PageId) (info : BucketInfo) (meta_map : MetaMap)
    (r : refs) : outcome SyncError (bool * Z * MetaMap * refs) :=
  match info with
  | Known bucket => Ok (false, bucket, meta_map, r)
  | FreshWithNoDependents =>
      let! res := lift_probe (allocate_bucket oneshot_with_seed fuel page_id meta_map seed) in
      match res with
      | Some (bucket, meta_map) => Ok (true, Z.of_nat bucket, meta_map, r)
      | None => Err BucketExhaustion
      end
  | FreshOrDependent cell =>
      let! maybe_bucket := or_panic (maybe_bucket_get r cell) in
      match maybe_bucket with
      | Some bucket => Ok (false, bucket, meta_map, r)
      | None =>
          let! res := lift_probe (allocate_bucket oneshot_with_seed fuel page_id meta_map seed) in
          match res with
          | Some (bucket, meta_map) =>
              Ok (true, Z.of_nat bucket, meta_map, maybe_bucket_set r cell (Z.of_nat bucket))
          | None => Err BucketExhaustion
          end
      end
  end.

(** The branch for pages that are written. *)
Definition write_dirty_page (fuel : nat) (page_id : PageId) (dirty_page : DirtyPage) (st : SyncState) :
    outcome SyncError SyncState :=
  let! (meta_map_changed, bucket, meta_map, r) :=
    assign_bucket fuel page_id (dp_bucket dirty_page) (ss_meta_map st) (ss_refs st) in
  let hash := hash_page_id oneshot_with_seed page_id seed in
  let! (delta, meta_map, changed) :=
    if (meta_map_changed : bool) then
      let! meta_map := or_panic (set_full meta_map (Z.to_nat bucket) hash) in
      Ok (ss_occupied_buckets_delta st + 1, meta_map,
          {[ page_index (Z.to_nat bucket) ]} ∪ ss_changed_meta_pages st)%Z
    else Ok (ss_occupied_buckets_delta st, meta_map, ss_changed_meta_pages st) in
  let! changed_nodes := or_panic (pack_changed_nodes (dp_diff dirty_page) (dp_page dirty_page)) in
  let! elided_children := or_panic (read_elided_children (dp_page dirty_page)) in
  let! wal :=
    lift_wal (write_update mremap_ok mmap_ok (ss_wal_blob_builder st) (encode page_id)
                (dp_diff dirty_page) changed_nodes elided_children bucket) in
  let pn := data_page_index ht_offsets (Z.to_nat bucket) in
  Ok {| ss_meta_map := meta_map;
        ss_changed_meta_pages := changed;
        ss_ht_pages := ss_ht_pages st ++ [(pn, dp_page dirty_page)];
        ss_cache_updates := ss_cache_updates st ++ [(page_id, Some (dp_page dirty_page, bucket))];
        ss_occupied_buckets_delta := delta;
        ss_wal_blob_builder := wal;
        ss_refs := r |}.

Definition sync_change (fuel : nat) (change : PageId * DirtyPage) (st : SyncState) :
    outcome SyncError SyncState :=
  if cleared (dp_diff change.2) then clear_page change.1 change.2 st
  else write_dirty_page fuel change.1 change.2 st.

Fixpoint sync_changes (fuel : nat) (changes : list (PageId * DirtyPage)) (st : SyncState) :
    outcome SyncError SyncState :=
  match changes with
  | [] => Ok st
  | change :: changes => let! st := sync_change fuel change st in sync_changes fuel changes st
  end.

(** [sort_unstable_by_key] and [dedup_by_key] on the page numbers. *)
Definition by_pn (a b : nat * list u8) : Prop := a.1 ≤ b.1.
#[global] Instance by_pn_dec : RelDecision by_pn.
Proof. intros a b. unfold by_pn. apply _. Defined.

Fixpoint dedup_after (pn : nat) (l : list (nat * list u8)) : list (nat * list u8) :=
  match l with
  | [] => []
  | (pn', page) :: l => if pn' =? pn then dedup_after pn l else (pn', page) :: dedup_after pn' l
  end.
Definition dedup_by_pn (l : list (nat * list u8)) : list (nat * list u8) :=
  match l with [] => [] | (pn, page) :: l => (pn, page) :: dedup_after pn l end.

Record SyncResult := {
  sr_ht_pages : list (nat * list u8);
  sr_cache_updates : list (PageId * option (list u8 * Z));
  sr_meta_map : MetaMap;
  sr_occupied_buckets : Z;
  sr_wal_blob_builder : WalBlobBuilder;
  sr_refs : refs;
}.

Definition prepare_sync (fuel : nat) (sync_seqn : Z) (changes : list (PageId * DirtyPage))
    (meta_map : MetaMap) (occupied_buckets : Z) (wal_blob_builder : WalBlobBuilder) (r : refs) :
    outcome SyncError SyncResult :=
  let! wal := lift_wal (reset mremap_ok mmap_ok wal_blob_builder sync_seqn) in
  let! st :=
    sync_changes fuel changes
      {| ss_meta_map := meta_map; ss_changed_meta_pages := ∅; ss_ht_pages := [];
         ss_cache_updates := []; ss_occupied_buckets_delta := 0;
         ss_wal_blob_builder := wal; ss_refs := r |} in
  let! meta_pages :=
    or_panic (mapM (λ changed_meta_page,
                      let? buf := page_slice (ss_meta_map st) changed_meta_page in
                      Some (meta_bytes_index changed_meta_page, buf))
                   (elements (ss_changed_meta_pages st))) in
  let ht_pages := ss_ht_pages st ++ meta_pages in
  let orig_len := length ht_pages in
  let ht_pages := dedup_by_pn (merge_sort by_pn ht_pages) in
  let! _ := or_panic (oassert (orig_len =? length ht_pages)) in
  let delta := ss_occupied_buckets_delta st in
  let occupied :=
    if (delta <? 0)%Z then wrap 64 (occupied_buckets - Z.abs delta)
    else if (0 <? delta)%Z then wrap 64 (occupied_buckets + delta)
    else occupied_buckets in
  let! wal := lift_wal (finalize mremap_ok mmap_ok (ss_wal_blob_builder st)) in
  Ok {| sr_ht_pages := ht_pages; sr_cache_updates := ss_cache_updates st;
        sr_meta_map := ss_meta_map st; sr_occupied_buckets := occupied;
        sr_wal_blob_builder := wal; sr_refs := ss_refs st |}.

(** [writeout::write_ht]: the pages are sent to the I/O pool in the order of their
    numbers, and all are waited for. *)
Definition write_ht (ht : file) (ht_pages : list (nat * list u8)) : file :=
  foldl (λ ht (item : nat * list u8), write_page ht item.1 item.2) ht (merge_sort by_pn ht_pages).

(** ** [recover] *)

Inductive RecoverError := RecWal (e : WalError) | RecShortRead | RecMismatch.

Definition lift_reader {A} (m : outcome WalError A) : outcome RecoverError A :=
  match m with Ok a => Ok a | Err e => Err (RecWal e) | Panic => Panic end.

Record RecoverState := {
  rs_ht : file;
  rs_meta_map : MetaMap;
  rs_changed_meta_page_ixs : gset nat;
}.

(** The body of the loop for one entry. *)
Definition recover_entry (entry : WalEntry) (st : RecoverState) : outcome RecoverError RecoverState :=
  match entry with
  | Clear bucket =>
      let! meta_map := or_panic (set_tombstone (rs_meta_map st) (Z.to_nat bucket)) in
      Ok {| rs_ht := rs_ht st; rs_meta_map := meta_map;
            rs_changed_meta_page_ixs := {[ page_index (Z.to_nat bucket) ]} ∪ rs_changed_meta_page_ixs st |}
  | Update page_id page_diff changed_nodes elided_children bucket =>
      let hash := hash_raw_page_id oneshot_with_seed page_id seed in
      let! meta_map_changed := or_panic (hint_not_match (rs_meta_map st) (Z.to_nat bucket) hash) in
      let! (meta_map, changed) :=
        if (meta_map_changed : bool) then
          let! meta_map := or_panic (set_full (rs_meta_map st) (Z.to_nat bucket) hash) in
          Ok (meta_map, {[ page_index (Z.to_nat bucket) ]} ∪ rs_changed_meta_page_ixs st)
        else Ok (rs_meta_map st, rs_changed_meta_page_ixs st) in
      let pn := data_page_index ht_offsets (Z.to_nat bucket) in
      let! page := match read_page (rs_ht st) pn with Some p => Ok p | None => Err RecShortRead end in
      if negb (diff_count page_diff =? length changed_nodes) then Err RecMismatch
      else
        let! page := or_panic (unpack_changed_nodes page_diff changed_nodes page) in
        let! page := or_panic (copy_from_slice page (PAGE_SIZE - 32) (length page) page_id) in
        let! page := or_panic (copy_from_slice page (PAGE_SIZE - 32 - 8) (PAGE_SIZE - 32)
                                 (elided_to_bytes elided_children)) in
        Ok {| rs_ht := write_page (rs_ht st) pn page; rs_meta_map := meta_map;
              rs_changed_meta_page_ixs := changed |}
  end.

(** Every entry takes at least a byte of the log: the fuel is its length. *)
Fixpoint recover_loop (fuel : nat) (wal_reader : WalBlobReader) (st : RecoverState) :
    outcome RecoverError RecoverState :=
  match fuel with
  | 0 => Panic
  | S fuel' =>
      let! (entry, wal_reader) := lift_reader (read_entry wal_reader) in
      match entry with
      | None => Ok st
      | Some entry => let! st := recover_entry entry st in recover_loop fuel' wal_reader st
      end
  end.

(** The loop that writes the changed pages of the meta map. *)
Fixpoint write_meta_pages (ixs : list nat) (meta_map : MetaMap) (ht : file) : option file :=
  match ixs with
  | [] => Some ht
  | ix :: ixs =>
      let? page_data := page_slice meta_map ix in
      write_meta_pages ixs meta_map (write_page ht (meta_bytes_index ix) page_data)
  end.

(** The new contents of the two files, and the meta map. *)
Definition recover (sync_seqn' : Z) (ht : file) (wal_file : list u8) (meta_map : MetaMap) :
    outcome RecoverError (file * list u8 * MetaMap) :=
  let! wal_reader := lift_reader (WalBlobReader_new wal_file) in
  if negb (sync_seqn wal_reader =? sync_seqn')%Z then Ok (ht, [], meta_map)
  else
    let! st := recover_loop (S (length wal_file)) wal_reader
                 {| rs_ht := ht; rs_meta_map := meta_map; rs_changed_meta_page_ixs := ∅ |} in
    let! ht := or_panic (write_meta_pages (elements (rs_changed_meta_page_ixs st))
                           (rs_meta_map st) (rs_ht st)) in
    Ok (ht, [], rs_meta_map st).
End sync.

(** ** [DB::open] *)

Inductive OpenError := OpenHt (e : HtError) | OpenRecover (e : RecoverError).

Record DB := {
  db_store : HTOffsets;
  db_meta_map : MetaMap;
  db_ht : file;
  db_wal : list u8;
  db_occupied_buckets : nat;
  db_capacity : nat;
}.

Definition db_open (oneshot_with_seed : Z → list u8 → Z) (sync_seqn num_pages : Z) (seed : list u8)
    (ht : file) (wal_file : list u8) : outcome OpenError DB :=
  let! (store, meta_map) :=
    match ht_open num_pages ht with Ok x => Ok x | Err e => Err (OpenHt e) | Panic => Panic end in
  let! (ht, wal_file, meta_map) :=
    if 0 <? length wal_file then
      match recover oneshot_with_seed seed store sync_seqn ht wal_file meta_map with
      | Ok x => Ok x | Err e => Err (OpenRecover e) | Panic => Panic
      end
    else Ok (ht, wal_file, meta_map) in
  Ok {| db_store := store; db_meta_map := meta_map; db_ht := ht; db_wal := wal_file;
        db_occupied_buckets := full_count meta_map; db_capacity := buckets meta_map |}.

(** ** What a sync does to the table *)

(** One change, with the bucket it goes to. *)
Inductive event :=
| EvClear (p : PageId) (b : nat)
| EvUpdate (p : PageId) (d : DirtyPage) (b : nat).

Definition event_page (ev : event) : PageId :=
  match ev with EvClear p _ | EvUpdate p _ _ => p end.

(** The effect on the ownership of the buckets, and when a change makes sense. *)
Definition event_owner (owner : gmap nat PageId) (ev : event) : gmap nat PageId :=
  match ev with EvClear _ b => delete b owner | EvUpdate p _ b => <[b := p]> owner end.

Definition event_valid (owner : gmap nat PageId) (ev : event) : Prop :=
  match ev with
  | EvClear p b => owner !! b = Some p
  | EvUpdate p _ b => owner !! b = Some p ∨ owner !! b = None ∧ ∀ b', owner !! b' ≠ Some p
  end.

Definition page_elided (page : list u8) : ElidedChildren :=
  elided_from_bytes (take 8 (drop (PAGE_SIZE - 32 - 8) page)).

(** The log entry of a change. *)
Definition event_entry (ev : event) : WalEntry :=
  match ev with
  | EvClear _ b => Clear (Z.of_nat b)
  | EvUpdate p d b =>
      Update (encode p) (dp_diff d) (page_slot (dp_page d) <$> changed_slots (dp_diff d))
        (page_elided (dp_page d)) (Z.of_nat b)
  end.

(** A dirty page: whole, labelled, with a diff that can be written. *)
Definition dirty_ok (p : PageId) (d : DirtyPage) : Prop :=
  length (dp_page d) = PAGE_SIZE ∧ diff_ok (dp_diff d) ∧
  (cleared (dp_diff d) = false →
   slot_bit (dp_diff d) 126 = false ∧ label (dp_page d) = encode p).

(** What a change says about the bucket of its page is true: a known bucket holds the
    page, a fresh page has none, and only stored pages are cleared. *)
Definition resolved (owner : gmap nat PageId) (p : PageId) (b : Z) : Prop :=
  (0 ≤ b)%Z ∧ owner !! Z.to_nat b = Some p.
Definition unstored (owner : gmap nat PageId) (p : PageId) (d : DirtyPage) : Prop :=
  cleared (dp_diff d) = false ∧ ∀ b, owner !! b ≠ Some p.
Definition bucket_ok (owner : gmap nat PageId) (r : refs) (p : PageId) (d : DirtyPage) : Prop :=
  match dp_bucket d with
  | Known b => resolved owner p b
  | FreshWithNoDependents => unstored owner p d
  | FreshOrDependent cell =>
      ∃ v, r !! cell = Some v ∧ if decide (v = NONE_PATTERN) then unstored owner p d else resolved owner p v
  end.

Definition cell_of (d : DirtyPage) : option nat :=
  match dp_bucket d with FreshOrDependent cell => Some cell | _ => None end.

(** The changes of one sync: every page once, no cell twice. *)
Definition changes_ok (owner : gmap nat PageId) (r : refs) (changes : list (PageId * DirtyPage)) : Prop :=
  NoDup changes.*1 ∧ NoDup (omap (λ c, cell_of c.2) changes) ∧
  Forall (λ c, dirty_ok c.1 c.2 ∧ bucket_ok owner r c.1 c.2) changes.

Lemma owner_others owner ev q b :
  event_valid owner ev → event_page ev ≠ q → event_owner owner ev !! b = Some q ↔ owner !! b = Some q.
Proof.
  intros Hv Hne. destruct ev as [p b'|p d b']; simpl in *.
  - rewrite lookup_delete_Some. split; [tauto|]. intros Hq. split; [|done]. congruence.
  - rewrite lookup_insert_Some. split; [naive_solver|]. intros Hq. right. split; [|done].
    intros ->. destruct Hv as [?|[? _]]; congruence.
Qed.

Lemma bucket_ok_others owner r r' ev p d :
  event_valid owner ev → event_page ev ≠ p → (∀ c, cell_of d = Some c → r' !! c = r !! c) →
  bucket_ok owner r p d → bucket_ok (event_owner owner ev) r' p d.
Proof.
  intros Hv Hne Hr Hok. pose proof (λ b, owner_others owner ev p b Hv Hne) as Ho.
  assert (Hres : ∀ b, resolved owner p b → resolved (event_owner owner ev) p b).
  { intros b []. split; [done|]. by apply Ho. }
  assert (Hun : unstored owner p d → unstored (event_owner owner ev) p d).
  { intros [? Hn]. split; [done|]. intros b Hb. apply (Hn b). by apply Ho. }
  unfold bucket_ok, cell_of in *. destruct (dp_bucket d) as [b| |cell]; auto.
  destruct Hok as (v & Hv' & Hcase). exists v. rewrite (Hr cell eq_refl). split; [done|]. case_decide; auto.
Qed.

Section sync_proofs.
Context (oneshot_with_seed : Z → list u8 → Z) (mremap_ok mmap_ok : Z → bool).
Hypothesis hash_u64 : ∀ s bs, is_u64 (oneshot_with_seed s bs).
Hypothesis memory_available : ∀ n, (0 < n ≤ MAX_SIZE)%Z → mremap_ok n || mmap_ok n = true.
Context (seed : list u8) (off : HTOffsets).

Abbreviation hash_of := (Bitbox.hash_of oneshot_with_seed seed).
Abbreviation table_ok := (Bitbox.table_ok oneshot_with_seed seed).

Definition event_bucket (ev : event) : nat := match ev with EvClear _ b | EvUpdate _ _ b => b end.

(** The effect of a change on the bytes of the meta map, and the page it writes. *)
Definition event_meta (l : list u8) (ev : event) : list u8 :=
  match ev with
  | EvClear _ b => <[b := TOMBSTONE]> l
  | EvUpdate p _ b => <[b := full_entry (hash_of p)]> l
  end.
Definition event_writes (ev : event) : list (nat * list u8) :=
  match ev with EvClear _ _ => [] | EvUpdate _ d b => [(data_page_index off b, dp_page d)] end.
Definition event_cache (ev : event) : PageId * option (list u8 * Z) :=
  match ev with EvClear p _ => (p, None) | EvUpdate p d b => (p, Some (dp_page d, Z.of_nat b)) end.

(** The step of [prepare_sync] for a change. *)
Definition stepped (st : SyncState) (ev : event) (st' : SyncState) : Prop :=
  event_bucket ev < buckets (ss_meta_map st) ∧
  buckets (ss_meta_map st') = buckets (ss_meta_map st) ∧
  bitvec (ss_meta_map st') = event_meta (bitvec (ss_meta_map st)) ev ∧
  (∀ ix, ix ∈ ss_changed_meta_pages st' ↔
         ix ∈ ss_changed_meta_pages st ∨
         ix = page_index (event_bucket ev) ∧ page_index (event_bucket ev) ∈ ss_changed_meta_pages st') ∧
  (page_index (event_bucket ev) ∉ ss_changed_meta_pages st' →
     bitvec (ss_meta_map st') = bitvec (ss_meta_map st)) ∧
  ss_ht_pages st' = ss_ht_pages st ++ event_writes ev ∧
  ss_cache_updates st' = ss_cache_updates st ++ [event_cache ev] ∧
  wrote (ss_wal_blob_builder st) (Ok (ss_wal_blob_builder st')) (entry_bytes (event_entry ev)).

Lemma table_owner_bound mm owner b p : table_ok mm owner → owner !! b = Some p → b < buckets mm.
Proof. intros Ht Hb. by destruct (table_full _ _ _ _ Ht b p Hb). Qed.

Lemma write_event st ev :
  builder_ok (ss_wal_blob_builder st) → fits (ss_wal_blob_builder st) (entry_bytes (event_entry ev)) →
  ∃ b', write_entry mremap_ok mmap_ok (ss_wal_blob_builder st) (event_entry ev) = Ok b' ∧
    wrote (ss_wal_blob_builder st) (Ok b') (entry_bytes (event_entry ev)).
Proof.
  intros Hb Hf. destruct (write_entry_wrote mremap_ok mmap_ok memory_available _ _ Hb Hf) as (b' & Hw & Hb' & Hs).
  exists b'. split; [done|]. by exists b'.
Qed.

Lemma clear_page_spec p d st owner :
  table_ok (ss_meta_map st) owner → bucket_ok owner (ss_refs st) p d → cleared (dp_diff d) = true →
  builder_ok (ss_wal_blob_builder st) → (∀ b, fits (ss_wal_blob_builder st) (entry_bytes (event_entry (EvClear p b)))) →
  ∃ b st', clear_page mremap_ok mmap_ok p d st = Ok st' ∧ event_valid owner (EvClear p b) ∧
    table_ok (ss_meta_map st') (event_owner owner (EvClear p b)) ∧
    stepped st (EvClear p b) st' ∧ ss_refs st' = ss_refs st.
Proof.
  intros Ht Hbk Hc Hw Hf.
  assert (∃ b, (match dp_bucket d with
                | Known bucket => Some bucket
                | FreshOrDependent cell => let? b := maybe_bucket_get (ss_refs st) cell in b
                | FreshWithNoDependents => None
                end) = Some (Z.of_nat b) ∧ owner !! b = Some p) as (b & Hb & Hp).
  { unfold bucket_ok, unstored, resolved in Hbk. destruct (dp_bucket d) as [b| |cell].
    - exists (Z.to_nat b). destruct Hbk. split; [|done]. f_equal. lia.
    - destruct Hbk. congruence.
    - destruct Hbk as (v & Hv & Hcase). unfold maybe_bucket_get. rewrite Hv. cbn [mbind option_bind].
      case_decide as Hd; [destruct Hcase; congruence|]. rewrite (proj2 (Z.eqb_neq _ _) Hd). destruct Hcase.
      exists (Z.to_nat v). split; [|done]. f_equal. lia. }
  destruct (set_tombstone_ok oneshot_with_seed seed (ss_meta_map st) owner b p Ht Hp) as (mm' & Hset & Ht' & Hbuck & Hbv).
  destruct (write_event st (EvClear p b) Hw (Hf b)) as (w' & Hw' & Hwrote). cbn [event_entry write_entry] in Hw'.
  unfold clear_page. rewrite Hb. cbn [or_panic obind]. rewrite Nat2Z.id, Hset. cbn [or_panic obind].
  rewrite Hw'. cbn [lift_wal obind]. exists b. eexists. split; [reflexivity|].
  split; [done|]. split; [done|]. split; [|done]. unfold stepped. cbn [ss_meta_map ss_changed_meta_pages ss_ht_pages ss_cache_updates ss_wal_blob_builder event_bucket event_writes event_meta].
  split_and!; try done.
  - by eapply table_owner_bound.
  - clear. set_solver.
  - intros []. clear. set_solver.
  - by rewrite app_nil_r.
Qed.

(** The tables and the fuel for which every probe ends: the number of buckets is a power of
    two, and there is a free bucket for each of [k] more pages. *)
Definition probes_end (fuel : nat) (mm : MetaMap) (owner : gmap nat PageId) (k : nat) : Prop :=
  (∃ m, buckets mm = 2 ^ m) ∧ buckets mm ≤ fuel ∧ size owner + k ≤ buckets mm.

Lemma free_bucket (owner : gmap nat PageId) n : size owner < n → ∃ b, b < n ∧ owner !! b = None.
Proof.
  intros Hs. destruct (decide (Exists (λ b, owner !! b = None) (seq 0 n))) as [(b & Hb & Hn)%Exists_exists|Hall].
  { apply elem_of_seq in Hb. exists b. split; [lia|done]. }
  exfalso. rewrite <-Forall_Exists_neg, list.Forall_forall in Hall.
  enough (n ≤ size owner) by lia. rewrite <-size_dom, <-(length_seq n 0).
  rewrite <-(size_list_to_set (C := gset nat) (seq 0 n)) by apply NoDup_seq. apply subseteq_size.
  intros b Hb%elem_of_list_to_set. apply elem_of_dom. destruct (owner !! b) eqn:E; [done|]. by destruct (Hall b Hb).
Qed.

Lemma allocate_ends fuel mm owner p k :
  table_ok mm owner → (∀ i, 0 ≤ i < k + fuel → ¬ free_byte (nth_byte mm (hash_of p) i)) → ¬ probes_end fuel mm owner 1.
Proof.
  intros Ht Hall ((m & Hn) & Hf & Hsz). destruct (free_bucket owner (buckets mm)) as (b & Hb & Hnone); [lia|].
  pose proof (table_free _ _ _ _ Ht b Hb Hnone) as Hfree. rewrite Hn in Hb.
  destruct (nth_bucket_covers m (hash_of p) b Hb) as (j & Hj & Hjb). apply (Hall j); [lia|].
  unfold nth_byte, free_byte. rewrite Hn, Hjb. destruct Hfree as [->| ->]; cbn; tauto.
Qed.

(** The bucket of a page that is written. *)
Lemma assign_bucket_spec fuel p d mm r owner :
  table_ok mm owner → bucket_ok owner r p d → cleared (dp_diff d) = false →
  match assign_bucket oneshot_with_seed seed fuel p (dp_bucket d) mm r with
  | Ok (meta_changed, b, mm', r') =>
      ∃ b', b = Z.of_nat b' ∧ b' < buckets mm ∧ event_valid owner (EvUpdate p d b') ∧
        table_ok mm' (event_owner owner (EvUpdate p d b')) ∧ buckets mm' = buckets mm ∧
        bitvec mm' = event_meta (bitvec mm) (EvUpdate p d b') ∧
        (meta_changed = false → mm' = mm) ∧
        (∀ c, cell_of d ≠ Some c → r' !! c = r !! c)
  | Err BucketExhaustion => True
  | Err SyncStillProbing => ¬ probes_end fuel mm owner 1
  | Err WalOutOfBounds | Panic => False
  end.
Proof.
  intros Ht Hbk Hc. pose proof (table_meta _ _ _ _ Ht) as Hm.
  assert (Hknown : ∀ b, resolved owner p b →
    ∃ b', b = Z.of_nat b' ∧ b' < buckets mm ∧ event_valid owner (EvUpdate p d b') ∧
        table_ok mm (event_owner owner (EvUpdate p d b')) ∧ buckets mm = buckets mm ∧
        bitvec mm = event_meta (bitvec mm) (EvUpdate p d b') ∧
        (false = false → mm = mm) ∧ (∀ c, cell_of d ≠ Some c → r !! c = r !! c)).
  { intros b [Hb Hp]. exists (Z.to_nat b). destruct (table_full _ _ _ _ Ht _ _ Hp) as [Hlt Hbyte].
    split_and!; [lia|done|by left| |done| |done|done].
    - simpl. by rewrite insert_id.
    - simpl. symmetry. by apply list_insert_id. }
  assert (Hfresh : unstored owner p d →
    match allocate_bucket oneshot_with_seed fuel p mm seed with
    | Ok (Some (b, mm')) => b < buckets mm ∧ event_valid owner (EvUpdate p d b) ∧
        table_ok mm' (event_owner owner (EvUpdate p d b)) ∧ buckets mm' = buckets mm ∧
        bitvec mm' = event_meta (bitvec mm) (EvUpdate p d b)
    | Ok None => True
    | Err _ => ¬ probes_end fuel mm owner 1
    | Panic => False
    end).
  { intros [_ Hnew]. unfold allocate_bucket.
    destruct (seq_at_new oneshot_with_seed seed mm p Hm) as (s & -> & Hat). cbn [or_panic obind].
    pose proof (allocate_loop_spec mm (hash_of p) fuel ALLOCATE_ATTEMPTS 0 s Hm (hash_of_u64 _ hash_u64 _ p) Hat) as H.
    destruct (allocate_loop fuel ALLOCATE_ATTEMPTS s mm) as [[[b mm']|]|[]|]; [|done| |done].
    2: { destruct H as (k' & _ & Hall). by apply (allocate_ends fuel mm owner p k'). }
    destruct H as (j & _ & -> & Hfree & Hlow & Hset).
    destruct (set_full_ok _ hash_u64 seed mm owner p j Ht Hnew Hfree) as (mm'' & Hset' & Hn & ? & ? & ? & ?);
      [intros i Hi; apply Hlow; lia|].
    rewrite Hset in Hset'. simplify_eq. split_and!; try done. by right. }
  unfold bucket_ok in Hbk. unfold assign_bucket. destruct (dp_bucket d) as [b| |cell] eqn:Ed.
  - by apply Hknown.
  - specialize (Hfresh Hbk). destruct (allocate_bucket _ _ _ _ _) as [[[b mm']|]|[]|]; [|done|done|done].
    cbn [lift_probe obind]. destruct Hfresh as (?&?&?&?&?). exists b. split_and!; done.
  - destruct Hbk as (v & Hv & Hcase). unfold maybe_bucket_get. rewrite Hv. cbn [mbind option_bind or_panic obind].
    case_decide as Hd.
    + rewrite (proj2 (Z.eqb_eq _ _) Hd). specialize (Hfresh Hcase).
      destruct (allocate_bucket _ _ _ _ _) as [[[b mm']|]|[]|]; [|done|done|done].
      cbn [lift_probe obind]. destruct Hfresh as (?&?&?&?&?). exists b. split_and!; try done.
      intros c Hne. apply lookup_insert_ne. unfold cell_of in Hne. rewrite Ed in Hne. congruence.
    + rewrite (proj2 (Z.eqb_neq _ _) Hd). by apply Hknown.
Qed.

Lemma set_full_again mm l p d b :
  meta_ok mm → b < buckets mm → bitvec mm = event_meta l (EvUpdate p d b) →
  set_full mm b (hash_of p) = Some mm.
Proof.
  intros Hm Hb Hbv. destruct (set_byte_spec mm b (full_entry (hash_of p)) Hm Hb) as (mm' & Hset & _ & Hbk & Hbv' & _).
  unfold set_full. rewrite Hset. f_equal. destruct mm as [n bv], mm' as [n' bv']. cbn [buckets bitvec] in *.
  subst. f_equal. simpl in *. apply list_insert_insert_eq.
Qed.

Lemma elided_spec page :
  length page = PAGE_SIZE → read_elided_children page = Some (page_elided page).
Proof.
  intros Hl. unfold read_elided_children, page_elided. rewrite slice_Some by (rewrite ?Hl; unfold PAGE_SIZE; lia).
  cbn [mbind option_bind]. do 3 f_equal.
Qed.

Lemma write_dirty_page_spec fuel p d st owner :
  table_ok (ss_meta_map st) owner → bucket_ok owner (ss_refs st) p d → dirty_ok p d →
  cleared (dp_diff d) = false → builder_ok (ss_wal_blob_builder st) →
  (∀ b, fits (ss_wal_blob_builder st) (entry_bytes (event_entry (EvUpdate p d b)))) →
  match write_dirty_page oneshot_with_seed mremap_ok mmap_ok seed off fuel p d st with
  | Ok st' =>
      ∃ b, event_valid owner (EvUpdate p d b) ∧
        table_ok (ss_meta_map st') (event_owner owner (EvUpdate p d b)) ∧
        stepped st (EvUpdate p d b) st' ∧ (∀ c, cell_of d ≠ Some c → ss_refs st' !! c = ss_refs st !! c)
  | Err BucketExhaustion => True
  | Err SyncStillProbing => ¬ probes_end fuel (ss_meta_map st) owner 1
  | Err WalOutOfBounds | Panic => False
  end.
Proof.
  intros Ht Hbk (Hlen & Hdok & Hd) Hc Hw Hf. destruct (Hd Hc) as [H126 Hlabel].
  assert (Hslots : slots_only (dp_diff d)) by (split_and!; [done..|by rewrite <-cleared_spec]).
  pose proof (assign_bucket_spec fuel p d (ss_meta_map st) (ss_refs st) owner Ht Hbk Hc) as Ha.
  unfold write_dirty_page. destruct (assign_bucket _ _ _ _ _ _ _) as [[[[mc b] mm'] r']|[]|]; [|done|done|done|done].
  destruct Ha as (b' & -> & Hlt & Hv & Ht' & Hbk' & Hbv & Hmc & Hr). cbn [obind].
  assert (Hmeta : ∀ X Y : gset nat, (if mc then
            let! meta_map := or_panic (E := SyncError) (set_full mm' (Z.to_nat (Z.of_nat b')) (hash_of p)) in
            Ok ((ss_occupied_buckets_delta st + 1)%Z, meta_map, X)
          else Ok (ss_occupied_buckets_delta st, mm', Y)) =
          Ok (ss_occupied_buckets_delta st + (if mc then 1 else 0), mm', if mc then X else Y)%Z).
  { intros X Y. destruct mc; [|by rewrite Z.add_0_r]. rewrite Nat2Z.id.
    rewrite (set_full_again mm' (bitvec (ss_meta_map st)) p d b'); [done|eapply table_meta; done|lia|done]. }
  unfold Bitbox.hash_of in Hmeta. rewrite Hmeta. cbn [obind].
  rewrite pack_spec by (done || (rewrite Hlen; vm_compute; lia)). cbn [or_panic obind].
  rewrite elided_spec by done. cbn [or_panic obind].
  destruct (write_event st (EvUpdate p d b') Hw (Hf b')) as (w' & Hw' & Hwrote).
  cbn [event_entry write_entry] in Hw'. rewrite Hw'. cbn [lift_wal obind].
  exists b'. split; [done|]. split; [done|]. split; [|done].
  unfold stepped. cbn [ss_meta_map ss_changed_meta_pages ss_ht_pages ss_cache_updates ss_wal_blob_builder event_bucket event_writes].
  rewrite Nat2Z.id. split_and!; try done.
  - intros ix. destruct mc; clear; set_solver.
  - intros Hn. destruct mc; [destruct Hn; clear; set_solver|]. by rewrite Hmc.
Qed.

(** The bytes of a log entry: at most one page's worth of nodes and some fields. *)
Lemma event_bytes_bound ev :
  (∀ p d b, ev = EvUpdate p d b → dirty_ok p d) → length (entry_bytes (event_entry ev)) ≤ 4097.
Proof.
  intros Hd. destruct ev as [p b|p d b]; cbn [event_entry entry_bytes].
  { rewrite length_app, length_to_le_bytes. simpl. lia. }
  destruct (Hd p d b eq_refl) as (Hlen & Hdok & _).
  unfold elided_to_bytes. rewrite !length_app, !length_to_le_bytes, length_encode, (proj1 (diff_codec _ Hdok)).
  assert (length (concat (page_slot (dp_page d) <$> changed_slots (dp_diff d))) ≤ 126 * 32); [|simpl; lia].
  assert (Hl : length (changed_slots (dp_diff d)) ≤ 126).
  { unfold changed_slots. etrans; [apply length_filter|]. by rewrite length_seq. }
  assert (Hs : ∀ l, length (concat (page_slot (dp_page d) <$> l)) ≤ length l * 32).
  { induction l as [|i l IH]; [done|]. rewrite fmap_cons. cbn [concat length]. rewrite length_app.
    unfold page_slot at 1. rewrite length_take. lia. }
  specialize (Hs (changed_slots (dp_diff d))). lia.
Qed.

(** The steps of a whole sync. *)
Inductive ran : SyncState → gmap nat PageId → list event → SyncState → gmap nat PageId → Prop :=
| ran_nil st owner : ran st owner [] st owner
| ran_cons st owner ev st1 evs st' owner' :
    event_valid owner ev → stepped st ev st1 → table_ok (ss_meta_map st1) (event_owner owner ev) →
    ran st1 (event_owner owner ev) evs st' owner' → ran st owner (ev :: evs) st' owner'.

(** The event of a change. *)
Definition event_of (ev : event) (c : PageId * DirtyPage) : Prop :=
  match ev with
  | EvClear p _ => p = c.1 ∧ cleared (dp_diff c.2) = true
  | EvUpdate p d _ => p = c.1 ∧ d = c.2 ∧ cleared (dp_diff d) = false ∧ dirty_ok p d
  end.

Lemma event_of_dirty ev c :
  event_of ev c → ∀ p d b, ev = EvUpdate p d b → dirty_ok p d.
Proof. intros H p d b ->. by destruct H as (_ & _ & _ & ?). Qed.

Lemma sync_change_spec fuel p d st owner :
  table_ok (ss_meta_map st) owner → bucket_ok owner (ss_refs st) p d → dirty_ok p d →
  builder_ok (ss_wal_blob_builder st) →
  (Z.of_nat (length (as_slice (ss_wal_blob_builder st)) + 4097) < MAX_SIZE)%Z →
  match sync_change oneshot_with_seed mremap_ok mmap_ok seed off fuel (p, d) st with
  | Ok st' =>
      ∃ ev, event_of ev (p, d) ∧ event_valid owner ev ∧
        table_ok (ss_meta_map st') (event_owner owner ev) ∧ stepped st ev st' ∧
        (∀ c, cell_of d ≠ Some c → ss_refs st' !! c = ss_refs st !! c)
  | Err BucketExhaustion => True
  | Err SyncStillProbing => ¬ probes_end fuel (ss_meta_map st) owner 1
  | Err WalOutOfBounds | Panic => False
  end.
Proof.
  intros Ht Hbk Hd Hw Hf. unfold sync_change. cbn [fst snd].
  assert (Hfits : ∀ ev, event_of ev (p, d) → fits (ss_wal_blob_builder st) (entry_bytes (event_entry ev))).
  { intros ev He. unfold fits. pose proof (event_bytes_bound ev (event_of_dirty _ _ He)). lia. }
  destruct (cleared (dp_diff d)) eqn:Hc.
  - destruct (clear_page_spec p d st owner Ht Hbk Hc Hw) as (b & st' & -> & Hv & Ht' & Hst & Hr).
    { intros b. by apply Hfits. }
    exists (EvClear p b). split_and!; try done. intros c _. by rewrite Hr.
  - pose proof (write_dirty_page_spec fuel p d st owner Ht Hbk Hd Hc Hw) as H.
    destruct (write_dirty_page _ _ _ _ _ _ _ _ _) as [st'|[]|];
      try (apply H; intros b; by apply Hfits); try done.
    destruct H as (b & ? & ? & ? & ?); [intros b; by apply Hfits|]. by exists (EvUpdate p d b).
Qed.

Lemma event_owner_size owner ev : size (event_owner owner ev) ≤ S (size owner).
Proof.
  destruct ev as [p b|p d b]; cbn.
  - etrans; [apply map_subseteq_size, delete_subseteq|lia].
  - destruct (owner !! b) eqn:E; [rewrite map_size_insert_Some by (by rewrite E)|rewrite map_size_insert_None by done]; lia.
Qed.

Lemma sync_changes_spec fuel changes st owner :
  table_ok (ss_meta_map st) owner → changes_ok owner (ss_refs st) changes →
  builder_ok (ss_wal_blob_builder st) →
  (Z.of_nat (length (as_slice (ss_wal_blob_builder st)) + 4097 * length changes) < MAX_SIZE)%Z →
  match sync_changes oneshot_with_seed mremap_ok mmap_ok seed off fuel changes st with
  | Ok st' => ∃ evs owner', ran st owner evs st' owner' ∧ Forall2 event_of evs changes
  | Err BucketExhaustion => True
  | Err SyncStillProbing => ¬ probes_end fuel (ss_meta_map st) owner (length changes)
  | Err WalOutOfBounds | Panic => False
  end.
Proof.
  revert st owner. induction changes as [|[p d] changes IH]; intros st owner Ht (Hnd & Hcells & Hall) Hw Hf.
  { simpl. exists [], owner. split; constructor. }
  cbn [sync_changes]. apply Forall_cons_1 in Hall as [[Hd Hbk] Hall]. cbn [fst snd] in *.
  apply NoDup_cons in Hnd as [Hp Hnd]. cbn [length] in Hf.
  pose proof (sync_change_spec fuel p d st owner Ht Hbk Hd Hw ltac:(lia)) as H.
  destruct (sync_change _ _ _ _ _ _ _ _) as [st1|[]|]; cbn [obind]; [|done| |done|done].
  2: { intros (Hp2 & Hfu & Hsz). apply H. split_and!; [done|done|]. cbn [length] in Hsz. lia. }
  destruct H as (ev & Hev & Hv & Ht1 & Hst & Hr).
  assert (Hpage : event_page ev = p) by (destruct ev; simpl in *; tauto).
  pose proof Hst as (_ & _ & _ & _ & _ & _ & _ & w1 & [= <-] & Hw1 & Hs1).
  pose proof (event_bytes_bound ev (event_of_dirty _ _ Hev)) as Hlen.
  assert (Hc1 : changes_ok (event_owner owner ev) (ss_refs st1) changes).
  { split_and!; [done|by destruct (cell_of d) eqn:E; simpl in Hcells; rewrite E in Hcells; [apply NoDup_cons in Hcells as [_ ?]|]|].
    rewrite list.Forall_forall in Hall |- *. intros [q e] Hqe. destruct (Hall _ Hqe) as [Hde Hbe]. cbn [fst snd] in *. split; [done|].
    eapply bucket_ok_others; [done| | |done].
    - rewrite Hpage. intros <-. destruct Hp. apply list_elem_of_fmap. by exists (p, e).
    - intros c Hc. apply Hr. intros Hd'. simpl in Hcells. rewrite Hd' in Hcells.
      apply NoDup_cons in Hcells as [Hn _]. apply Hn, list_elem_of_omap. by exists (q, e). }
  specialize (IH st1 (event_owner owner ev) Ht1 Hc1 Hw1 ltac:(rewrite Hs1, length_app; lia)).
  destruct (sync_changes _ _ _ _ _ _ _ _) as [st'|[]|]; try done.
  2: { intros (Hp2 & Hfu & Hsz). apply IH. destruct Hst as (_ & Hbk1 & _). unfold probes_end. rewrite Hbk1. split_and!; [done|done|].
       cbn [length] in Hsz. pose proof (event_owner_size owner ev). lia. }
  destruct IH as (evs & owner' & Hran & Hevs). exists (ev :: evs), owner'. split; [|by constructor].
  by econstructor.
Qed.

(** What the steps amount to. *)
Lemma ran_meta st owner evs st' owner' :
  ran st owner evs st' owner' →
  buckets (ss_meta_map st') = buckets (ss_meta_map st) ∧
  bitvec (ss_meta_map st') = foldl event_meta (bitvec (ss_meta_map st)) evs ∧
  Forall (λ ev, event_bucket ev < buckets (ss_meta_map st)) evs.
Proof.
  induction 1 as [|st owner ev st1 evs st' owner' Hv (Hlt & Hb & Hbv & _) Ht Hr IH]; [done|].
  destruct IH as (-> & -> & IH). rewrite Hb, Hbv in *. split_and!; [done|done|by constructor].
Qed.

Lemma event_meta_other l ev i : i ≠ event_bucket ev → event_meta l ev !! i = l !! i.
Proof. intros Hi. destruct ev; simpl in *; by rewrite list_lookup_insert_ne. Qed.

Lemma ran_changed st owner evs st' owner' :
  ran st owner evs st' owner' →
  (∀ i, page_index i ∉ ss_changed_meta_pages st' →
     (page_index i ∉ ss_changed_meta_pages st) ∧
     bitvec (ss_meta_map st') !! i = bitvec (ss_meta_map st) !! i) ∧
  (∀ ix, ix ∈ ss_changed_meta_pages st' →
     ix ∈ ss_changed_meta_pages st ∨ ∃ b, b < buckets (ss_meta_map st) ∧ ix = page_index b).
Proof.
  induction 1 as [|st owner ev st1 evs st' owner' Hv (Hlt & Hb & Hbv & Hch & Hun & _) Ht Hr [IH1 IH2]].
  { split; [done|by left]. }
  split.
  - intros i Hi. destruct (IH1 i Hi) as [Hn1 ->]. split; [intros ?; apply Hn1; apply Hch; by left|].
    destruct (decide (page_index (event_bucket ev) ∈ ss_changed_meta_pages st1)) as [Hin|Hout].
    + rewrite Hbv. apply event_meta_other. intros ->. done.
    + by rewrite Hun.
  - intros ix Hix. destruct (IH2 ix Hix) as [H1|(b & Hlt' & ->)].
    + apply Hch in H1 as [?|[-> _]]; [by left|]. right. by eexists.
    + right. exists b. by rewrite <-Hb.
Qed.

Lemma ran_outputs st owner evs st' owner' :
  ran st owner evs st' owner' →
  ss_ht_pages st' = ss_ht_pages st ++ (evs ≫= event_writes) ∧
  ss_cache_updates st' = ss_cache_updates st ++ (event_cache <$> evs) ∧
  (builder_ok (ss_wal_blob_builder st) →
   builder_ok (ss_wal_blob_builder st') ∧
   as_slice (ss_wal_blob_builder st') = as_slice (ss_wal_blob_builder st) ++ ((event_entry <$> evs) ≫= entry_bytes)).
Proof.
  induction 1 as [|st owner ev st1 evs st' owner' Hv (_ & _ & _ & _ & _ & Hht & Hca & w1 & [= <-] & Hw1 & Hs1) Ht Hr (IH1 & IH2 & IH3)].
  { by rewrite !app_nil_r. }
  rewrite IH1, IH2, Hht, Hca, bind_cons, <-!app_assoc. split_and!; [done|done|]. intros _.
  destruct (IH3 Hw1) as [? ->]. split; [done|]. by rewrite Hs1, fmap_cons, bind_cons, <-app_assoc.
Qed.

Lemma ran_table st owner evs st' owner' :
  ran st owner evs st' owner' → table_ok (ss_meta_map st) owner → table_ok (ss_meta_map st') owner'.
Proof. induction 1; auto. Qed.

(** A page that is not changed stays where it is. *)
Lemma ran_owner_others st owner evs st' owner' q b :
  ran st owner evs st' owner' → q ∉ event_page <$> evs → owner' !! b = Some q ↔ owner !! b = Some q.
Proof.
  induction 1 as [|st owner ev st1 evs st' owner' Hv Hst Ht Hr IH]; [done|].
  rewrite fmap_cons, not_elem_of_cons. intros [Hne Hq]. rewrite IH by done. by apply owner_others.
Qed.

(** A page that is changed ends up in its bucket, or nowhere. *)
Lemma ran_owner_changed st owner evs st' owner' :
  ran st owner evs st' owner' → NoDup (event_page <$> evs) →
  table_ok (ss_meta_map st) owner →
  Forall (λ ev, match ev with
                | EvClear p _ => ∀ b, owner' !! b ≠ Some p
                | EvUpdate p _ b => owner' !! b = Some p
                end) evs.
Proof.
  induction 1 as [|st owner ev st1 evs st' owner' Hv Hst Ht Hr IH]; [done|].
  rewrite fmap_cons, NoDup_cons. intros [Hn Hnd] Ht0. constructor; [|by apply IH].
  pose proof (λ b, ran_owner_others _ _ _ _ _ (event_page ev) b Hr Hn) as Ho.
  destruct ev as [p b|p d b]; simpl in *.
  - intros b' Hb'. rewrite Ho in Hb' by done. apply lookup_delete_Some in Hb' as [Hne Hb'].
    apply Hne. by eapply (table_inj _ _ _ _ Ht0).
  - rewrite Ho by done. apply lookup_insert_eq.
Qed.

(** ** Writing the pages out *)

Lemma dedup_after_nodup pn l : pn ∉ l.*1 → NoDup l.*1 → dedup_after pn l = l.
Proof.
  revert pn. induction l as [|[pn' page] l IH]; intros pn Hn Hnd; [done|]. cbn [dedup_after].
  rewrite fmap_cons, not_elem_of_cons in Hn. rewrite fmap_cons, NoDup_cons in Hnd. cbn [fst] in *.
  rewrite (proj2 (Nat.eqb_neq _ _)) by naive_solver. by rewrite IH by tauto.
Qed.

Lemma dedup_nodup l : NoDup l.*1 → dedup_by_pn l = l.
Proof.
  destruct l as [|[pn page] l]; [done|]. rewrite fmap_cons, NoDup_cons. intros [? ?].
  cbn [dedup_by_pn]. by rewrite dedup_after_nodup.
Qed.

Lemma write_page_lookup ht pn page i :
  pn < length ht → write_page ht pn page !! i = if decide (i = pn) then Some page else ht !! i.
Proof.
  intros H. unfold write_page. rewrite (proj2 (Nat.ltb_lt _ _) H). case_decide as E.
  - subst. by apply list_lookup_insert_eq.
  - by apply list_lookup_insert_ne.
Qed.

Lemma write_page_length ht pn page : pn < length ht → length (write_page ht pn page) = length ht.
Proof. intros H. unfold write_page. rewrite (proj2 (Nat.ltb_lt _ _) H). apply length_insert. Qed.

Lemma write_pages_spec (l : list (nat * list u8)) ht :
  NoDup l.*1 → Forall (λ i, i.1 < length ht) l →
  let ht' := foldl (λ ht (item : nat * list u8), write_page ht item.1 item.2) ht l in
  length ht' = length ht ∧ (∀ pn page, (pn, page) ∈ l → ht' !! pn = Some page) ∧
  (∀ pn, pn ∉ l.*1 → ht' !! pn = ht !! pn).
Proof.
  revert ht. induction l as [|[pn page] l IH]; intros ht Hnd Hlt; cbn [foldl].
  { split_and!; [done| |done]. intros ? ? ?%elem_of_nil. done. }
  rewrite fmap_cons, NoDup_cons in Hnd. destruct Hnd as [Hn Hnd].
  apply Forall_cons_1 in Hlt as [Hpn Hlt]. cbn [fst snd] in *.
  pose proof (write_page_length ht pn page Hpn) as Hl.
  destruct (IH (write_page ht pn page) Hnd) as (IH1 & IH2 & IH3).
  { rewrite Hl. done. }
  split_and!; [by rewrite IH1| |].
  - intros pn' page' [[= -> ->]|Hin]%elem_of_cons; [|by apply IH2].
    rewrite IH3, write_page_lookup by done. by rewrite decide_True.
  - intros pn'. rewrite fmap_cons, not_elem_of_cons. intros [Hne Hn']. cbn [fst] in Hne.
    rewrite IH3, write_page_lookup by done. by rewrite decide_False.
Qed.

Lemma write_ht_spec ht l :
  NoDup l.*1 → Forall (λ i, i.1 < length ht) l →
  length (write_ht ht l) = length ht ∧
  (∀ pn page, (pn, page) ∈ l → write_ht ht l !! pn = Some page) ∧
  (∀ pn, pn ∉ l.*1 → write_ht ht l !! pn = ht !! pn).
Proof.
  intros Hnd Hlt. pose proof (merge_sort_Permutation by_pn l) as Hp. unfold write_ht.
  destruct (write_pages_spec (merge_sort by_pn l) ht) as (H1 & H2 & H3).
  - by rewrite Hp.
  - by rewrite Hp.
  - split_and!; [done| |].
    + intros pn page Hin. apply H2. by rewrite Hp.
    + intros pn Hn. apply H3. by rewrite Hp.
Qed.

(** The pages written by the changes are different. *)
Lemma event_writes_elem evs pn page :
  (pn, page) ∈ evs ≫= event_writes ↔ ∃ p d b, EvUpdate p d b ∈ evs ∧ pn = data_page_index off b ∧ page = dp_page d.
Proof.
  rewrite list_elem_of_bind. split.
  - intros ([p b|p d b] & Hw & Hin); [by apply elem_of_nil in Hw|].
    apply list_elem_of_singleton in Hw as [= -> ->]. by exists p, d, b.
  - intros (p & d & b & Hin & -> & ->). exists (EvUpdate p d b). split; [by apply list_elem_of_singleton|done].
Qed.

Lemma event_writes_nodup (owner : gmap nat PageId) evs :
  NoDup (event_page <$> evs) →
  Forall (λ ev, match ev with
                | EvClear p _ => True
                | EvUpdate p _ b => owner !! b = Some p
                end) evs →
  NoDup (evs ≫= event_writes).*1.
Proof.
  intros Hnd Ho. induction Ho as [|ev evs Hev Ho IH]; [constructor|].
  rewrite fmap_cons, NoDup_cons in Hnd. destruct Hnd as [Hn Hnd]. rewrite bind_cons, fmap_app.
  destruct ev as [p b|p d b]; [by apply IH|]. cbn [event_writes]. apply NoDup_cons. split; [|by apply IH].
  intros ([pn page] & E & Hin)%list_elem_of_fmap. cbn [fst] in E.
  apply event_writes_elem in Hin as (q & e & b' & Hin & -> & _).
  assert (b' = b) as -> by (unfold data_page_index in E; lia).
  rewrite list.Forall_forall in Ho. specialize (Ho _ Hin). simpl in *. rewrite Hev in Ho. simplify_eq.
  apply Hn, list_elem_of_fmap. by exists (EvUpdate q e b).
Qed.

(** ** The whole of [prepare_sync] *)

(** The result of a sync of [changes] on the table [mm], with [evs] the events. *)
Record synced (seqn : Z) (changes : list (PageId * DirtyPage)) (mm : MetaMap) (owner : gmap nat PageId)
    (res : SyncResult) (evs : list event) (changed : gset nat) (owner' : gmap nat PageId) : Prop := {
  synced_events : Forall2 event_of evs changes;
  synced_pages : NoDup (event_page <$> evs);
  synced_table : table_ok (sr_meta_map res) owner';
  synced_buckets : buckets (sr_meta_map res) = buckets mm;
  synced_bytes : bitvec (sr_meta_map res) = foldl event_meta (bitvec mm) evs;
  synced_bounds : Forall (λ ev, event_bucket ev < buckets mm) evs;
  synced_others q b : q ∉ event_page <$> evs → owner' !! b = Some q ↔ owner !! b = Some q;
  synced_owner : Forall (λ ev, match ev with
                               | EvClear p _ => ∀ b, owner' !! b ≠ Some p
                               | EvUpdate p _ b => owner' !! b = Some p
                               end) evs;
  synced_unchanged i : page_index i ∉ changed → bitvec (sr_meta_map res) !! i = bitvec mm !! i;
  synced_changed ix : ix ∈ changed → ix < data_page_offset off;
  synced_nodup : NoDup (sr_ht_pages res).*1;
  synced_writes pn page : (pn, page) ∈ sr_ht_pages res ↔
    (pn, page) ∈ evs ≫= event_writes ∨ pn ∈ changed ∧ page_slice (sr_meta_map res) pn = Some page;
  synced_cache : sr_cache_updates res = event_cache <$> evs;
  synced_wal : ∃ n, as_slice (sr_wal_blob_builder res) =
    wal_header seqn ++ ((event_entry <$> evs) ≫= entry_bytes) ++ WAL_ENTRY_TAG_END :: replicate n x00;
  synced_aligned : length (as_slice (sr_wal_blob_builder res)) mod PAGE_SIZE = 0;
  synced_builder : builder_ok (sr_wal_blob_builder res);
}.

Lemma page_index_bound b n : b < n * 4096 → page_index b < n.
Proof. intros H. unfold page_index. apply Nat.Div0.div_lt_upper_bound. lia. Qed.

Lemma page_slice_total mm ix :
  length (bitvec mm) = data_page_offset off * PAGE_SIZE → ix < data_page_offset off →
  page_slice mm ix = Some (take 4096 (drop (ix * 4096) (bitvec mm))).
Proof.
  intros Hl Hix. unfold PAGE_SIZE in Hl. unfold page_slice. rewrite slice_Some by nia. do 2 f_equal. lia.
Qed.

Lemma event_meta_length l evs : length (foldl event_meta l evs) = length l.
Proof.
  revert l. induction evs as [|ev evs IH]; intros l; [done|]. simpl. rewrite IH.
  destruct ev; apply length_insert.
Qed.

(** The pages to write: the data pages of the changes and the changed meta pages. *)
Definition meta_writes (mm : MetaMap) (changed : gset nat) : list (nat * list u8) :=
  (λ ix, (ix, take 4096 (drop (ix * 4096) (bitvec mm)))) <$> elements changed.

Lemma meta_writes_mapM mm changed :
  length (bitvec mm) = data_page_offset off * PAGE_SIZE → (∀ ix, ix ∈ changed → ix < data_page_offset off) →
  mapM (λ changed_meta_page,
          let? buf := page_slice mm changed_meta_page in
          Some (meta_bytes_index changed_meta_page, buf)) (elements changed) = Some (meta_writes mm changed).
Proof.
  intros Hl Hc. apply mapM_Some_2. apply Forall2_fmap_r, Forall_Forall2_diag, list.Forall_forall.
  intros ix Hix%elem_of_elements. rewrite page_slice_total by auto. done.
Qed.

Lemma meta_writes_elem mm changed pn page :
  length (bitvec mm) = data_page_offset off * PAGE_SIZE → (∀ ix, ix ∈ changed → ix < data_page_offset off) →
  (pn, page) ∈ meta_writes mm changed ↔ pn ∈ changed ∧ page_slice mm pn = Some page.
Proof.
  intros Hl Hc. unfold meta_writes. rewrite list_elem_of_fmap. split.
  - intros (ix & [= -> ->] & Hix%elem_of_elements). by rewrite page_slice_total by auto.
  - intros [Hpn Hs]. exists pn. rewrite page_slice_total in Hs by auto. simplify_eq. by rewrite elem_of_elements.
Qed.

Lemma sync_page_list mm changed (owner : gmap nat PageId) evs :
  NoDup (event_page <$> evs) →
  Forall (λ ev, match ev with EvClear p _ => True | EvUpdate p _ b => owner !! b = Some p end) evs →
  (∀ ix, ix ∈ changed → ix < data_page_offset off) →
  let l := (evs ≫= event_writes) ++ meta_writes mm changed in
  NoDup l.*1 ∧ dedup_by_pn (merge_sort by_pn l) = merge_sort by_pn l ∧ merge_sort by_pn l ≡ₚ l.
Proof.
  intros Hnd Ho Hc l. pose proof (merge_sort_Permutation by_pn l) as Hp.
  assert (Hl : NoDup l.*1).
  { subst l. rewrite fmap_app, NoDup_app. split_and!.
    - by apply (event_writes_nodup owner).
    - intros pn ([pn' page] & -> & Hin)%list_elem_of_fmap Hin'. cbn [fst] in *.
      apply event_writes_elem in Hin as (p & d & b & _ & -> & _). unfold meta_writes in Hin'.
      rewrite <-list_fmap_compose in Hin'. apply list_elem_of_fmap in Hin' as (ix & E & Hix%elem_of_elements).
      specialize (Hc ix Hix). unfold data_page_index in E. simpl in E. lia.
    - unfold meta_writes. rewrite <-list_fmap_compose. unfold compose. cbn [fst]. rewrite list_fmap_id. apply NoDup_elements. }
  split_and!; [done| |done]. apply dedup_nodup. by rewrite Hp.
Qed.

Lemma events_bytes_bound evs changes :
  Forall2 event_of evs changes →
  length ((event_entry <$> evs) ≫= entry_bytes) ≤ 4097 * length changes.
Proof.
  induction 1 as [|ev c evs changes He _ IH]; [done|]. rewrite fmap_cons, bind_cons, length_app. cbn [length].
  pose proof (event_bytes_bound ev (event_of_dirty _ _ He)). lia.
Qed.

Lemma prepare_sync_spec fuel seqn changes mm owner occupied wb r :
  table_ok mm owner → changes_ok owner r changes → builder_ok wb →
  length (bitvec mm) = data_page_offset off * PAGE_SIZE →
  (Z.of_nat (6 + 4097 * length changes) < MAX_SIZE)%Z →
  match prepare_sync oneshot_with_seed mremap_ok mmap_ok seed off fuel seqn changes mm occupied wb r with
  | Ok res => ∃ evs changed owner', synced seqn changes mm owner res evs changed owner'
  | Err BucketExhaustion => True
  | Err SyncStillProbing => ¬ probes_end fuel mm owner (length changes)
  | Err WalOutOfBounds | Panic => False
  end.
Proof.
  intros Ht Hch Hwb Hlen Hf. unfold prepare_sync.
  destruct (reset_wrote _ _ memory_available wb seqn Hwb) as (w1 & -> & Hw1 & Hs1). cbn [lift_wal obind].
  assert (Hh : length (wal_header seqn) = 5) by (unfold wal_header; by rewrite length_app, length_to_le_bytes).
  set (st0 := {| ss_meta_map := mm; ss_changed_meta_pages := ∅; ss_ht_pages := []; ss_cache_updates := [];
                 ss_occupied_buckets_delta := 0; ss_wal_blob_builder := w1; ss_refs := r |}).
  pose proof (sync_changes_spec fuel changes st0 owner Ht Hch Hw1 ltac:(cbn [st0 ss_wal_blob_builder]; rewrite Hs1, Hh; lia)) as H.
  destruct (sync_changes _ _ _ _ _ _ _ _) as [st|[]|]; cbn [obind]; [|done|done|done|done].
  destruct H as (evs & owner' & Hran & Hevs).
  pose proof (ran_table _ _ _ _ _ Hran Ht) as Ht'.
  destruct (ran_meta _ _ _ _ _ Hran) as (Hbk & Hbv & Hbd). destruct (ran_changed _ _ _ _ _ Hran) as [Hun Hcd].
  destruct (ran_outputs _ _ _ _ _ Hran) as (Hht & Hca & Hwal).
  cbn [st0 ss_meta_map ss_changed_meta_pages ss_ht_pages ss_cache_updates ss_wal_blob_builder app] in *.
  destruct (Hwal Hw1) as [Hw2 Hs2].
  assert (Hpages : event_page <$> evs = changes.*1).
  { clear -Hevs. induction Hevs as [|ev c evs changes He _ IH]; [done|]. rewrite !fmap_cons, IH. f_equal.
    destruct ev; simpl in *; tauto. }
  assert (Hnd : NoDup (event_page <$> evs)) by (rewrite Hpages; apply Hch).
  pose proof (ran_owner_changed _ _ _ _ _ Hran Hnd Ht) as Hoc.
  assert (Hlen' : length (bitvec (ss_meta_map st)) = data_page_offset off * PAGE_SIZE).
  { by rewrite Hbv, event_meta_length. }
  assert (Hcb : ∀ ix, ix ∈ ss_changed_meta_pages st → ix < data_page_offset off).
  { intros ix Hix. destruct (Hcd ix Hix) as [Hbad|(b & Hb & ->)]; [by apply not_elem_of_empty in Hbad|].
    apply page_index_bound. destruct (table_meta _ _ _ _ Ht) as [_ ?]. unfold PAGE_SIZE in *. lia. }
  rewrite (meta_writes_mapM _ _ Hlen' Hcb). cbn [or_panic obind]. rewrite Hht.
  destruct (sync_page_list (ss_meta_map st) (ss_changed_meta_pages st) owner' evs Hnd) as (Hl1 & Hl2 & Hl3); [|done|].
  { eapply list.Forall_impl; [exact Hoc|]. by intros [|]. }
  rewrite Hl2, (Permutation_length Hl3), Nat.eqb_refl. cbn [oassert or_panic obind].
  destruct (finalize_wrote _ _ memory_available (ss_wal_blob_builder st) Hw2) as (w3 & n & -> & Hw3 & Hs3 & Hm).
  { unfold fits. rewrite Hs2, length_app, Hs1, Hh.
    pose proof (events_bytes_bound evs changes Hevs). simpl. lia. }
  cbn [lift_wal obind]. exists evs, (ss_changed_meta_pages st), owner'.
  split; cbn [sr_meta_map sr_ht_pages sr_cache_updates sr_wal_blob_builder]; try done.
  - intros q b Hq. by eapply ran_owner_others.
  - intros i Hi. by apply Hun.
  - by rewrite Hl3.
  - intros pn page. rewrite Hl3, elem_of_app, meta_writes_elem by done. done.
  - exists n. by rewrite Hs3, Hs2, Hs1, <-!app_assoc.
Qed.

(** ** Replaying the log *)

(** The page recovery makes of the page [q] on disk for a dirty page: the changed
    nodes, the elided children and the label of the dirty page, and the rest of [q]. *)
Definition recovered (d : DirtyPage) (q r : list u8) : Prop :=
  length r = PAGE_SIZE ∧
  (∀ i, i < NODES_PER_PAGE →
     page_slot r i = if slot_bit (dp_diff d) i then page_slot (dp_page d) i else page_slot q i) ∧
  take 24 (page_tail r) = take 24 (page_tail q) ∧
  drop (PAGE_SIZE - 32 - 8) r = drop (PAGE_SIZE - 32 - 8) (dp_page d).

(** If the page on disk differs from the dirty page in changed nodes, label and
    elided children only, recovery reproduces the dirty page. *)
Lemma recovered_exact d q r :
  recovered d q r → length (dp_page d) = PAGE_SIZE → length q = PAGE_SIZE →
  (∀ i, i < NODES_PER_PAGE → slot_bit (dp_diff d) i = false → page_slot (dp_page d) i = page_slot q i) →
  take 24 (page_tail (dp_page d)) = take 24 (page_tail q) → r = dp_page d.
Proof.
  intros (Hl & Hs & Ht & Hd) Hlp Hlq Hsame Htail. apply page_ext; [congruence| |].
  - intros i Hi. rewrite Hs by done. destruct (slot_bit _ i) eqn:E; [done|]. symmetry. auto.
  - rewrite <-(take_drop 24 (page_tail r)), <-(take_drop 24 (page_tail (dp_page d))).
    rewrite Ht, Htail. f_equal. unfold page_tail. rewrite !drop_drop. exact Hd.
Qed.

Lemma elided_bytes page :
  length page = PAGE_SIZE →
  elided_to_bytes (page_elided page) = take 8 (drop (PAGE_SIZE - 32 - 8) page).
Proof.
  intros Hl. unfold elided_to_bytes, page_elided, elided_from_bytes. cbn [elided].
  set (bs := take 8 _). assert (length bs = 8) as <-; [|apply to_from_le_bytes].
  subst bs. rewrite length_take, length_drop, Hl. done.
Qed.

Lemma page_slot_copy page a b src r i :
  copy_from_slice page a b src = Some r → NODES_PER_PAGE * 32 ≤ a → i < NODES_PER_PAGE →
  page_slot r i = page_slot page i.
Proof.
  intros Hc Ha Hi. apply list_eq. intros k. rewrite !page_slot_lookup.
  destruct (Nat.ltb_spec k 32); [|done]. rewrite (copy_from_slice_lookup _ _ _ _ _ _ Hc).
  by rewrite (proj2 (Nat.leb_gt _ _)) by lia.
Qed.

Lemma copy_tail_take page a b src r :
  copy_from_slice page a b src = Some r → NODES_PER_PAGE * 32 + 24 ≤ a →
  take 24 (page_tail r) = take 24 (page_tail page).
Proof.
  intros Hc Ha. apply list_eq. intros k. unfold page_tail. destruct (decide (k < 24)).
  - rewrite !lookup_take_lt, !lookup_drop by done. rewrite (copy_from_slice_lookup _ _ _ _ _ _ Hc).
    by rewrite (proj2 (Nat.leb_gt _ _)) by lia.
  - by rewrite !lookup_take_ge by lia.
Qed.

(** The patching of a page. *)
Lemma recover_page p d q :
  dirty_ok p d → cleared (dp_diff d) = false → length q = PAGE_SIZE →
  ∃ r0 r1 r,
    unpack_changed_nodes (dp_diff d) (page_slot (dp_page d) <$> changed_slots (dp_diff d)) q = Some r0 ∧
    copy_from_slice r0 (PAGE_SIZE - 32) (length r0) (encode p) = Some r1 ∧
    copy_from_slice r1 (PAGE_SIZE - 32 - 8) (PAGE_SIZE - 32) (elided_to_bytes (page_elided (dp_page d))) = Some r ∧
    recovered d q r.
Proof.
  intros (Hl & Hdok & Hd) Hc Hq. destruct (Hd Hc) as [H126 Hlab].
  assert (Hslots : slots_only (dp_diff d)) by (split_and!; [done..|by rewrite <-cleared_spec]).
  assert (HN : NODES_PER_PAGE * 32 = 4032) by done. assert (HP : PAGE_SIZE = 4096) by done.
  destruct (unpack_spec (dp_diff d) (dp_page d) q Hslots ltac:(lia) ltac:(lia)) as (r0 & Hr0 & Hl0 & Hs0 & Ht0).
  assert (Hc1 : ∃ r1, copy_from_slice r0 (PAGE_SIZE - 32) (length r0) (encode p) = Some r1).
  { eexists. apply copy_from_slice_Some; rewrite ?length_encode; lia. }
  destruct Hc1 as [r1 Hc1].
  pose proof (copy_from_slice_length _ _ _ _ _ Hc1) as Hl1.
  assert (Hc2 : ∃ r2, copy_from_slice r1 (PAGE_SIZE - 32 - 8) (PAGE_SIZE - 32)
                        (elided_to_bytes (page_elided (dp_page d))) = Some r2).
  { eexists. apply copy_from_slice_Some; unfold elided_to_bytes; rewrite ?length_to_le_bytes; lia. }
  destruct Hc2 as [r2 Hc2]. exists r0, r1, r2. do 3 (split; [done|]).
  pose proof (copy_from_slice_length _ _ _ _ _ Hc2) as Hl2. split_and!; [lia| | |].
  - intros i Hi. rewrite (page_slot_copy _ _ _ _ _ _ Hc2), (page_slot_copy _ _ _ _ _ _ Hc1) by lia. by apply Hs0.
  - rewrite (copy_tail_take _ _ _ _ _ Hc2), (copy_tail_take _ _ _ _ _ Hc1) by lia. by rewrite Ht0.
  - apply list_eq. intros k. rewrite !lookup_drop, (copy_from_slice_lookup _ _ _ _ _ _ Hc2).
    rewrite (proj2 (Nat.leb_le _ _)) by lia. cbn [andb].
    destruct (Nat.ltb_spec (PAGE_SIZE - 32 - 8 + k) (PAGE_SIZE - 32)).
    + rewrite elided_bytes by done. rewrite lookup_take_lt, lookup_drop by lia. f_equal. lia.
    + rewrite (copy_from_slice_lookup _ _ _ _ _ _ Hc1), (proj2 (Nat.leb_le _ _)) by lia. cbn [andb].
      rewrite <-Hlab. unfold label.
      destruct (Nat.ltb_spec (PAGE_SIZE - 32 - 8 + k) (length r0)).
      * rewrite lookup_drop. f_equal. lia.
      * rewrite !lookup_ge_None_2 by lia. done.
Qed.

(** One entry of the log. *)
Definition replayed (st : RecoverState) (ev : event) (st' : RecoverState) : Prop :=
  buckets (rs_meta_map st') = buckets (rs_meta_map st) ∧
  bitvec (rs_meta_map st') = event_meta (bitvec (rs_meta_map st)) ev ∧
  (∀ i, page_index i ∉ rs_changed_meta_page_ixs st' →
     (page_index i ∉ rs_changed_meta_page_ixs st) ∧
     bitvec (rs_meta_map st') !! i = bitvec (rs_meta_map st) !! i) ∧
  (∀ ix, ix ∈ rs_changed_meta_page_ixs st' →
     ix ∈ rs_changed_meta_page_ixs st ∨ ix = page_index (event_bucket ev)) ∧
  match ev with
  | EvClear _ _ => rs_ht st' = rs_ht st
  | EvUpdate _ d b => ∃ q r, rs_ht st !! data_page_index off b = Some q ∧ length q = PAGE_SIZE ∧
      recovered d q r ∧ rs_ht st' = <[data_page_index off b := r]> (rs_ht st)
  end.

Lemma add_ix ix ix' (s : gset nat) : ix ∈ {[ ix' ]} ∪ s ↔ ix = ix' ∨ ix ∈ s.
Proof. by rewrite elem_of_union, elem_of_singleton. Qed.

Lemma set_byte_Some mm b x :
  b < length (bitvec mm) → set_byte mm b x = Some {| buckets := buckets mm; bitvec := <[b := x]> (bitvec mm) |}.
Proof. intros H. unfold set_byte. by rewrite (proj2 (Nat.ltb_lt _ _) H). Qed.

Lemma recover_entry_spec ev c st :
  event_of ev c → event_bucket ev < length (bitvec (rs_meta_map st)) →
  data_page_offset off + event_bucket ev < length (rs_ht st) →
  Forall (λ p, length p = PAGE_SIZE) (rs_ht st) →
  ∃ st', recover_entry oneshot_with_seed seed off (event_entry ev) st = Ok st' ∧ replayed st ev st'.
Proof.
  intros Hev Hb Hht Hall. destruct ev as [p b|p d b]; cbn [event_bucket event_entry recover_entry] in *;
    rewrite ?Nat2Z.id.
  - unfold set_tombstone. rewrite set_byte_Some by done. cbn [or_panic obind].
    eexists. split; [reflexivity|]. unfold replayed. cbn [rs_meta_map rs_ht rs_changed_meta_page_ixs buckets bitvec event_bucket].
    split_and!; try done.
    + intros i Hi. rewrite add_ix in Hi. split; [tauto|]. apply list_lookup_insert_ne. intros ->. tauto.
    + intros ix. rewrite add_ix. tauto.
  - destruct Hev as (_ & _ & Hc & Hdok).
    destruct (lookup_lt_is_Some_2 _ _ Hht) as [q Hq].
    assert (Hlq : length q = PAGE_SIZE) by (rewrite list.Forall_forall in Hall; apply Hall; by eapply list_elem_of_lookup_2).
    destruct (recover_page p d q Hdok Hc Hlq) as (r0 & r1 & r & H0 & H1 & H2 & Hr).
    destruct (lookup_lt_is_Some_2 _ _ Hb) as [byte Hbyte].
    change (hash_raw_page_id oneshot_with_seed (encode p) seed) with (hash_of p).
    unfold hint_not_match. rewrite Hbyte. cbn [mbind option_bind or_panic obind].
    assert (Hcount : diff_count (dp_diff d) = length (page_slot (dp_page d) <$> changed_slots (dp_diff d))).
    { rewrite length_fmap. apply diff_count_spec. destruct Hdok as (? & ? & Hd'). destruct (Hd' Hc).
      split_and!; [done..|by rewrite <-cleared_spec]. }
    set (mc := bool_decide (byte ≠ full_entry (hash_of p))).
    set (mm' := if mc then {| buckets := buckets (rs_meta_map st); bitvec := <[b := full_entry (hash_of p)]> (bitvec (rs_meta_map st)) |} else rs_meta_map st).
    set (ch := if mc then {[ page_index b ]} ∪ rs_changed_meta_page_ixs st else rs_changed_meta_page_ixs st).
    match goal with |- context [obind ?m _] => assert (Hm : m = Ok (mm', ch)) end.
    { subst mm' ch. destruct mc; [|done]. unfold set_full. by rewrite set_byte_Some. }
    rewrite Hm. cbn [obind]. 
    rewrite (Hq : read_page (rs_ht st) (data_page_index off b) = Some q). cbn [obind].
    rewrite Hcount, Nat.eqb_refl. cbn [negb]. rewrite H0. cbn [or_panic obind]. rewrite H1. cbn [or_panic obind].
    rewrite H2. cbn [or_panic obind]. eexists. split; [reflexivity|].
    unfold replayed. cbn [rs_meta_map rs_ht rs_changed_meta_page_ixs event_bucket event_meta].
    split_and!.
    + subst mm'. by destruct mc.
    + subst mm'. destruct mc eqn:E; [done|]. subst mc. apply bool_decide_eq_false_1, dec_stable in E.
      symmetry. apply list_insert_id. congruence.
    + subst mm' ch. intros i Hi. destruct mc; [|done]. rewrite add_ix in Hi. split; [tauto|].
      apply list_lookup_insert_ne. intros ->. tauto.
    + subst ch. intros ix. destruct mc; rewrite ?add_ix; tauto.
    + exists q, r. split_and!; try done. unfold write_page, data_page_index. by rewrite (proj2 (Nat.ltb_lt _ _) Hht).
Qed.

Lemma event_entry_ok ev c :
  event_of ev c → (Z.of_nat (event_bucket ev) < 2 ^ 64)%Z → entry_ok (event_entry ev).
Proof.
  intros Hev Hb. destruct ev as [p b|p d b]; cbn [event_entry entry_ok event_bucket] in *; [split; lia|].
  destruct Hev as (_ & _ & Hc & Hl & Hdok & Hd). destruct (Hd Hc) as [H126 _].
  assert (Hslots : slots_only (dp_diff d)) by (split_and!; [done..|by rewrite <-cleared_spec]).
  split_and!; [apply length_encode|done| | | |split; lia].
  - by rewrite length_fmap, diff_count_spec.
  - apply Forall_fmap. eapply list.Forall_impl; [apply changed_slots_bound|]. cbv beta. intros i Hi.
    unfold compose, page_slot. rewrite length_take, length_drop, Hl.
    assert (NODES_PER_PAGE * 32 = 4032) by done. unfold PAGE_SIZE. lia.
  - unfold page_elided, elided_from_bytes. cbn [elided]. unfold is_u64.
    set (bs := take 8 _). assert (Hbs : length bs = 8).
    { subst bs. rewrite length_take, length_drop, Hl. done. }
    pose proof (from_le_bytes_range bs) as Hr. rewrite Hbs in Hr. done.
Qed.

Lemma replayed_ht st ev st' :
  replayed st ev st' → event_bucket ev < length (bitvec (rs_meta_map st)) →
  data_page_offset off + event_bucket ev < length (rs_ht st) →
  Forall (λ p, length p = PAGE_SIZE) (rs_ht st) →
  length (rs_ht st') = length (rs_ht st) ∧ Forall (λ p, length p = PAGE_SIZE) (rs_ht st') ∧
  length (bitvec (rs_meta_map st')) = length (bitvec (rs_meta_map st)) ∧
  (∀ pn, pn ∉ (event_writes ev).*1 → rs_ht st' !! pn = rs_ht st !! pn).
Proof.
  intros (_ & Hbv & _ & _ & Hev) Hb Hlt Hall.
  assert (Hl : length (bitvec (rs_meta_map st')) = length (bitvec (rs_meta_map st))).
  { rewrite Hbv. destruct ev; apply length_insert. }
  destruct ev as [p b|p d b]; cbn [event_bucket event_writes] in *.
  - rewrite Hev. done.
  - destruct Hev as (q & r & Hq & Hlq & Hr & ->). rewrite length_insert. split_and!; [done| |done|].
    + apply Forall_insert; [done|]. apply Hr.
    + intros pn Hpn. apply list_lookup_insert_ne. intros <-. apply Hpn. by left.
Qed.

(** The effect of the whole log. *)
Record recovered_all (evs : list event) (st st' : RecoverState) : Prop := {
  rec_buckets : buckets (rs_meta_map st') = buckets (rs_meta_map st);
  rec_bytes : bitvec (rs_meta_map st') = foldl event_meta (bitvec (rs_meta_map st)) evs;
  rec_unchanged i : page_index i ∉ rs_changed_meta_page_ixs st' →
    (page_index i ∉ rs_changed_meta_page_ixs st) ∧
    bitvec (rs_meta_map st') !! i = bitvec (rs_meta_map st) !! i;
  rec_changed ix : ix ∈ rs_changed_meta_page_ixs st' →
    ix ∈ rs_changed_meta_page_ixs st ∨ ∃ ev, ev ∈ evs ∧ ix = page_index (event_bucket ev);
  rec_length : length (rs_ht st') = length (rs_ht st);
  rec_pages : Forall (λ p, length p = PAGE_SIZE) (rs_ht st');
  rec_others pn : pn ∉ (evs ≫= event_writes).*1 → rs_ht st' !! pn = rs_ht st !! pn;
  rec_updates p d b : EvUpdate p d b ∈ evs →
    ∃ q r, rs_ht st !! data_page_index off b = Some q ∧ length q = PAGE_SIZE ∧ recovered d q r ∧
      rs_ht st' !! data_page_index off b = Some r;
}.

Lemma recovered_all_cons ev evs st st1 st' :
  NoDup ((ev :: evs) ≫= event_writes).*1 → replayed st ev st1 →
  event_bucket ev < length (bitvec (rs_meta_map st)) →
  data_page_offset off + event_bucket ev < length (rs_ht st) →
  Forall (λ p, length p = PAGE_SIZE) (rs_ht st) →
  recovered_all evs st1 st' → recovered_all (ev :: evs) st st'.
Proof.
  intros Hnd Hrep Hb Hlt Hall IH. destruct (replayed_ht st ev st1 Hrep Hb Hlt Hall) as (Hl & _ & _ & Ho).
  rewrite bind_cons, fmap_app in Hnd. apply NoDup_app in Hnd as (_ & Hdis & _).
  destruct Hrep as (Hbk & Hbv & Hun & Hch & Hev). split.
  - by rewrite (rec_buckets _ _ _ IH).
  - by rewrite (rec_bytes _ _ _ IH), Hbv.
  - intros i Hi. destruct (rec_unchanged _ _ _ IH i Hi) as [Hi1 ->]. by apply Hun.
  - intros ix Hix. destruct (rec_changed _ _ _ IH ix Hix) as [Hi1|(ev' & Hin & ->)].
    + destruct (Hch ix Hi1) as [?| ->]; [by left|]. right. exists ev. split; [by left|done].
    + right. exists ev'. split; [by right|done].
  - by rewrite (rec_length _ _ _ IH).
  - by apply (rec_pages _ _ _ IH).
  - intros pn. rewrite bind_cons, fmap_app, not_elem_of_app. intros [Hn1 Hn2].
    rewrite (rec_others _ _ _ IH) by done. by apply Ho.
  - intros p d b [<-|Hin]%elem_of_cons.
    + destruct Hev as (q & r & Hq & Hlq & Hr & Hht). exists q, r. split_and!; try done.
      rewrite (rec_others _ _ _ IH).
      * rewrite Hht. apply list_lookup_insert_eq. by eapply lookup_lt_Some.
      * apply Hdis. by left.
    + destruct (rec_updates _ _ _ IH p d b Hin) as (q & r & Hq & Hlq & Hr & Hht). exists q, r. split_and!; try done.
      rewrite <-Ho; [done|]. intros Hin'. apply (Hdis _ Hin'). apply list_elem_of_fmap.
      exists (data_page_index off b, dp_page d). split; [done|]. apply event_writes_elem. by exists p, d, b.
Qed.

Lemma recover_loop_spec evs changes st r fuel rest :
  Forall2 event_of evs changes → NoDup (evs ≫= event_writes).*1 →
  Forall (λ ev, event_bucket ev < length (bitvec (rs_meta_map st)) ∧
                data_page_offset off + event_bucket ev < length (rs_ht st) ∧
                (Z.of_nat (event_bucket ev) < 2 ^ 64)%Z) evs →
  Forall (λ p, length p = PAGE_SIZE) (rs_ht st) →
  ahead r (((event_entry <$> evs) ≫= entry_bytes) ++ WAL_ENTRY_TAG_END :: rest) → length evs < fuel →
  ∃ st', recover_loop oneshot_with_seed seed off fuel r st = Ok st' ∧ recovered_all evs st st'.
Proof.
  intros Hevs. revert st r fuel. induction Hevs as [|ev c evs changes Hev _ IH];
    intros st r [|fuel] Hnd Hbd Hall Ha Hf; cbn [length] in Hf; try lia; cbn [recover_loop].
  - destruct (read_byte_ahead r _ _ Ha) as [Hb _]. unfold read_entry. rewrite Hb. cbn [obind].
    rewrite bool_decide_eq_true_2 by done. cbn [lift_reader obind]. exists st. split; [done|].
    split; try done; intros; try (by left). by apply elem_of_nil in H.
  - apply Forall_cons_1 in Hbd as [(Hb1 & Hb2 & Hb3) Hbd].
    rewrite fmap_cons, bind_cons, <-app_assoc in Ha.
    destruct (read_entry_ahead r (event_entry ev) _ Ha (event_entry_ok ev c Hev Hb3)) as (r' & -> & Ha' & _).
    cbn [lift_reader obind].
    destruct (recover_entry_spec ev c st Hev Hb1 Hb2 Hall) as (st1 & -> & Hrep). cbn [obind].
    destruct (replayed_ht st ev st1 Hrep Hb1 Hb2 Hall) as (Hl & Hall1 & Hlb & _).
    assert (Hnd' : NoDup (evs ≫= event_writes).*1).
    { rewrite bind_cons, fmap_app in Hnd. by apply NoDup_app in Hnd as (_ & _ & ?). }
    destruct (IH st1 r' fuel Hnd') as (st' & -> & Hall'); try done; [|lia|].
    { rewrite Hl, Hlb. done. }
    exists st'. split; [done|]. by eapply recovered_all_cons.
Qed.

(** ** The file around a crash *)

Lemma event_meta_fold_lookup evs l l' i :
  length l = length l' →
  (i ∈ event_bucket <$> evs → foldl event_meta l' evs !! i = foldl event_meta l evs !! i) ∧
  (i ∉ event_bucket <$> evs → foldl event_meta l evs !! i = l !! i).
Proof.
  revert l l'. induction evs as [|ev evs IH]; intros l l' Hl; [split; [by intros ?%elem_of_nil|done]|].
  cbn [foldl]. rewrite fmap_cons.
  assert (Hl' : length (event_meta l ev) = length (event_meta l' ev)).
  { destruct ev; simpl; by rewrite !length_insert. }
  destruct (IH _ _ Hl') as [IH1 IH2]. split.
  - intros [->|Hin]%elem_of_cons; [|by apply IH1].
    destruct (decide (event_bucket ev ∈ event_bucket <$> evs)) as [Hin|Hn]; [by apply IH1|].
    destruct (IH (event_meta l' ev) (event_meta l ev) (eq_sym Hl')) as [_ IH2'].
    rewrite IH2, IH2' by done. destruct ev; simpl;
      (destruct (decide (b < length l)); [rewrite !list_lookup_insert_eq by lia; done|
         rewrite !lookup_ge_None_2 by (rewrite length_insert; lia); done]).
  - rewrite not_elem_of_cons. intros [Hne Hn]. rewrite IH2 by done. by apply event_meta_other.
Qed.

(** Replaying the changes over bytes that have some of them already gives the same. *)
Lemma event_meta_replay evs l l' :
  length l' = length l → (∀ i, l' !! i = l !! i ∨ l' !! i = foldl event_meta l evs !! i) →
  foldl event_meta l' evs = foldl event_meta l evs.
Proof.
  intros Hl Hmix. apply list_eq. intros i. destruct (decide (i ∈ event_bucket <$> evs)) as [Hin|Hn].
  - by apply event_meta_fold_lookup.
  - rewrite (proj2 (event_meta_fold_lookup evs l' l i Hl) Hn).
    destruct (event_meta_fold_lookup evs l l' i (eq_sym Hl)) as [_ H2]. rewrite H2 in * by done.
    specialize (Hmix i). rewrite (H2 Hn) in Hmix. by destruct Hmix.
Qed.

(** Pages in a row. *)
Lemma concat_lookup (l : list (list u8)) i :
  Forall (λ p, length p = 4096) l → concat l !! i = (l !! (i / 4096)) ≫= (λ p, p !! (i mod 4096)).
Proof.
  intros Hl. revert i. induction Hl as [|p l Hp Hl IH]; intros i; [done|]. cbn [concat].
  destruct (Nat.lt_ge_cases i 4096) as [Hi|Hi].
  - rewrite lookup_app_l by lia. by rewrite Nat.div_small, Nat.mod_small by lia.
  - assert (∃ j, i = j + 1 * 4096) as [j ->] by (exists (i - 4096); lia).
    rewrite lookup_app_r, IH, Hp by lia. replace (j + 1 * 4096 - 4096) with j by lia.
    rewrite Nat.div_add, Nat.Div0.mod_add by lia. by rewrite Nat.add_comm.
Qed.

Lemma concat_length (l : list (list u8)) : Forall (λ p, length p = 4096) l → length (concat l) = length l * 4096.
Proof. induction 1 as [|p l Hp Hl IH]; [done|]. cbn [concat length]. rewrite length_app, Hp, IH. lia. Qed.

Lemma concat_chunk (l : list (list u8)) ix page :
  Forall (λ p, length p = 4096) l → l !! ix = Some page → take 4096 (drop (ix * 4096) (concat l)) = page.
Proof.
  intros Hl Hp. apply list_eq. intros k.
  assert (Hlen : length page = 4096) by (rewrite list.Forall_forall in Hl; apply Hl; by eapply list_elem_of_lookup_2).
  destruct (Nat.lt_ge_cases k 4096) as [Hk|Hk].
  - rewrite lookup_take_lt, lookup_drop, concat_lookup by done.
    rewrite (Nat.add_comm (ix * 4096)), Nat.div_add, Nat.Div0.mod_add, Nat.div_small, Nat.mod_small by lia.
    by rewrite Nat.add_0_l, Hp.
  - rewrite lookup_take_ge, lookup_ge_None_2 by lia. done.
Qed.

Lemma read_meta_pages_spec (f : file) n pn :
  pn + n ≤ length f → read_meta_pages f pn n = Some (concat (take n (drop pn f))).
Proof.
  revert pn. induction n as [|n IH]; intros pn Hl; [done|]. cbn [read_meta_pages]. unfold read_page.
  destruct (lookup_lt_is_Some_2 f pn) as [page Hp]; [lia|]. rewrite Hp. cbn [mbind option_bind].
  rewrite IH by lia. cbn [mbind option_bind]. rewrite (drop_S f page pn Hp). done.
Qed.

Lemma write_meta_pages_spec ixs mm ht :
  NoDup ixs → (∀ ix, ix ∈ ixs → ix < length ht ∧ ∃ page, page_slice mm ix = Some page) →
  ∃ ht', write_meta_pages ixs mm ht = Some ht' ∧ length ht' = length ht ∧
    (∀ ix, ix ∈ ixs → ht' !! ix = page_slice mm ix) ∧ (∀ pn, pn ∉ ixs → ht' !! pn = ht !! pn).
Proof.
  intros Hnd. revert ht. induction Hnd as [|ix ixs Hn Hnd IH]; intros ht Hix; cbn [write_meta_pages].
  { exists ht. split_and!; try done. by intros ix ?%elem_of_nil. }
  destruct (Hix ix) as (Hlt & page & Hpage); [by left|]. rewrite Hpage. cbn [mbind option_bind].
  unfold meta_bytes_index. destruct (IH (write_page ht ix page)) as (ht' & -> & Hl & H1 & H2).
  { intros ix' Hin. rewrite write_page_length by done. apply Hix. by right. }
  exists ht'. rewrite write_page_length in Hl by done. split_and!; [done|done| |].
  - intros ix' [->|Hin]%elem_of_cons; [|by apply H1]. rewrite H2, write_page_lookup by done. by rewrite decide_True.
  - intros pn [Hne Hpn]%not_elem_of_cons. rewrite H2, write_page_lookup by done. by rewrite decide_False.
Qed.

(** The file of a table of [n] buckets: the pages of the meta map, then the buckets. *)
Definition layout (n : Z) (mm : MetaMap) (ht : file) : Prop :=
  (0 < n ∧ n + 4095 + (n + 4095) / 4096 < 2 ^ 32)%Z ∧
  buckets mm = Z.to_nat n ∧ data_page_offset off = Z.to_nat ((n + 4095) / 4096) ∧
  length ht = data_page_offset off + buckets mm ∧ Forall (λ p, length p = PAGE_SIZE) ht ∧
  concat (take (data_page_offset off) ht) = bitvec mm.

Lemma layout_bytes n mm ht : layout n mm ht → length (bitvec mm) = data_page_offset off * PAGE_SIZE.
Proof.
  intros (_ & _ & _ & Hl & Hall & <-). rewrite concat_length by (by apply Forall_take).
  rewrite length_take. unfold PAGE_SIZE. lia.
Qed.

Lemma layout_meta n mm ht ix :
  layout n mm ht → ix < data_page_offset off → ht !! ix = page_slice mm ix.
Proof.
  intros Hlay Hix. rewrite page_slice_total by (done || by eapply layout_bytes).
  destruct Hlay as (_ & _ & _ & Hl & Hall & <-).
  destruct (lookup_lt_is_Some_2 ht ix) as [page Hp]; [lia|]. rewrite Hp. f_equal. symmetry.
  apply concat_chunk; [by apply Forall_take|]. by rewrite lookup_take_lt.
Qed.

Lemma ht_open_layout n mm ht : layout n mm ht → ht_open n ht = Ok (off, mm).
Proof.
  intros Hlay. pose proof (layout_bytes n mm ht Hlay) as Hlb. destruct Hlay as ([Hn Hn'] & Hb & Hoff & Hl & Hall & Hc).
  assert (Hq : (0 ≤ (n + 4095) / 4096)%Z) by (apply Z.div_pos; lia).
  unfold ht_open, expected_file_len, num_meta_byte_pages. change (Z.of_nat PAGE_SIZE) with 4096%Z.
  rewrite (proj2 (Z.ltb_lt (n + 4095) _)) by lia. cbn [oassert mbind option_bind].
  rewrite (proj2 (Z.ltb_lt _ _)) by lia. cbn [oassert mbind option_bind or_panic obind].
  assert (HP : PAGE_SIZE = 4096) by done.
  rewrite (proj2 (Z.eqb_eq _ _)) by (rewrite HP; lia). cbn [negb].
  rewrite read_meta_pages_spec by lia. cbn [obind]. rewrite drop_0, <-Hoff, Hc.
  unfold MetaMap_from_bytes. rewrite Hlb, HP, Nat.Div0.mod_mul. cbn [Nat.eqb oassert mbind option_bind or_panic obind].
  rewrite <-Hb. by destruct off, mm.
Qed.

(** A file in which some of the pages of a writeout have been written. *)
Definition crashed (ht0 ht1 ht' : file) : Prop :=
  length ht' = length ht0 ∧ ∀ pn, ht' !! pn = ht0 !! pn ∨ ht' !! pn = ht1 !! pn.

Section crash.
Context (n seqn : Z) (changes : list (PageId * DirtyPage)) (mm : MetaMap) (owner : gmap nat PageId).
Context (res : SyncResult) (evs : list event) (changed : gset nat) (owner' : gmap nat PageId) (ht0 : file).
Hypothesis Hmeta : meta_ok mm.
Hypothesis Hlay : layout n mm ht0.
Hypothesis Hsync : synced seqn changes mm owner res evs changed owner'.

Abbreviation ht1 := (write_ht ht0 (sr_ht_pages res)).

Lemma synced_writes_bound : Forall (λ i, i.1 < length ht0) (sr_ht_pages res).
Proof.
  destruct Hlay as (_ & _ & _ & Hl & _). apply list.Forall_forall. intros [pn page] Hin. cbn [fst].
  apply (synced_writes _ _ _ _ _ _ _ _ Hsync) in Hin as [Hin|[Hin _]].
  - apply event_writes_elem in Hin as (p & d & b & Hin & -> & _).
    pose proof (synced_bounds _ _ _ _ _ _ _ _ Hsync) as Hb. rewrite list.Forall_forall in Hb.
    specialize (Hb _ Hin). cbn [event_bucket] in Hb. unfold data_page_index. lia.
  - apply (synced_changed _ _ _ _ _ _ _ _ Hsync) in Hin. lia.
Qed.

Lemma ht1_spec :
  length ht1 = length ht0 ∧ (∀ pn page, (pn, page) ∈ sr_ht_pages res → ht1 !! pn = Some page) ∧
  (∀ pn, pn ∉ (sr_ht_pages res).*1 → ht1 !! pn = ht0 !! pn).
Proof. apply write_ht_spec; [by eapply synced_nodup|apply synced_writes_bound]. Qed.

Lemma ht1_meta ix : ix < data_page_offset off → ht1 !! ix = page_slice (sr_meta_map res) ix.
Proof.
  intros Hix. destruct ht1_spec as (_ & H1 & H2).
  assert (Hlb : length (bitvec (sr_meta_map res)) = data_page_offset off * PAGE_SIZE).
  { rewrite (synced_bytes _ _ _ _ _ _ _ _ Hsync), event_meta_length. by eapply layout_bytes. }
  pose proof (page_slice_total (sr_meta_map res) ix Hlb Hix) as Hs.
  destruct (decide (ix ∈ changed)) as [Hin|Hn].
  - rewrite Hs. apply H1. apply (synced_writes _ _ _ _ _ _ _ _ Hsync). by right.
  - rewrite H2.
    + rewrite (layout_meta n mm ht0 ix Hlay Hix), Hs, page_slice_total by (done || by eapply layout_bytes).
      f_equal. apply list_eq. intros k. destruct (Nat.lt_ge_cases k 4096) as [Hk|Hk].
      * rewrite !lookup_take_lt, !lookup_drop by done. symmetry. apply (synced_unchanged _ _ _ _ _ _ _ _ Hsync).
        unfold page_index. rewrite (Nat.add_comm (ix * 4096)), Nat.div_add, Nat.div_small by lia. done.
      * by rewrite !lookup_take_ge by lia.
    + intros ([pn page] & -> & Hin)%list_elem_of_fmap. cbn [fst] in *.
      apply (synced_writes _ _ _ _ _ _ _ _ Hsync) in Hin as [Hin|[Hin _]]; [|done].
      apply event_writes_elem in Hin as (p & d & b & _ & -> & _). unfold data_page_index in Hix. lia.
Qed.

(** The data page of a change, and all other pages, after the replay. *)
Definition page_after (ht' ht'' : file) (pn : nat) : Prop :=
  ht'' !! pn = ht1 !! pn ∨
  ∃ p d b q r, (p, d) ∈ changes ∧ EvUpdate p d b ∈ evs ∧ pn = data_page_index off b ∧
    ht1 !! pn = Some (dp_page d) ∧ ht' !! pn = Some q ∧ ht'' !! pn = Some r ∧ recovered d q r.

(** The files from which the sync can be completed: a page is as it was before the sync, as
    the sync writes it, or as recovery left it. *)
Definition recoverable (ht' : file) : Prop :=
  length ht' = length ht0 ∧ Forall (λ p, length p = PAGE_SIZE) ht' ∧
  ∀ pn, ht' !! pn = ht0 !! pn ∨ page_after ht0 ht' pn.

(** The meta map that is read back after a crash. *)
Lemma recoverable_meta ht' :
  recoverable ht' →
  let mm' := {| buckets := buckets mm; bitvec := concat (take (data_page_offset off) ht') |} in
  layout n mm' ht' ∧ length (bitvec mm') = length (bitvec mm) ∧
  ∀ i, bitvec mm' !! i = bitvec mm !! i ∨ bitvec mm' !! i = bitvec (sr_meta_map res) !! i.
Proof.
  intros (Hl & Hall & Hmix) mm'. pose proof Hlay as (Hn & Hb & Hoff & Hl0 & Hall0 & Hc0).
  assert (Hlay' : layout n mm' ht').
  { unfold layout. cbn [mm' buckets bitvec]. rewrite Hl. split_and!; tauto. }
  pose proof (layout_bytes _ _ _ Hlay') as Hlb'. pose proof (layout_bytes _ _ _ Hlay) as Hlb.
  split_and!; [done|congruence|]. intros i.
  destruct (Nat.lt_ge_cases i (data_page_offset off * PAGE_SIZE)) as [Hi|Hi].
  2:{ left. rewrite !lookup_ge_None_2 by lia. done. }
  assert (Hix : i / 4096 < data_page_offset off).
  { apply Nat.Div0.div_lt_upper_bound. unfold PAGE_SIZE in Hi. lia. }
  assert (Hbyte : ∀ m (h : file), h !! (i / 4096) = page_slice m (i / 4096) → length (bitvec m) = data_page_offset off * PAGE_SIZE →
            h !! (i / 4096) ≫= (λ p, p !! (i mod 4096)) = bitvec m !! i).
  { intros m h Hh Hm. rewrite Hh, page_slice_total by done. cbn [mbind option_bind].
    pose proof (Nat.mod_upper_bound i 4096 ltac:(lia)). pose proof (Nat.div_mod_eq i 4096).
    rewrite lookup_take_lt, lookup_drop by done. f_equal. lia. }
  assert (Hm1 : length (bitvec (sr_meta_map res)) = data_page_offset off * PAGE_SIZE).
  { by rewrite (synced_bytes _ _ _ _ _ _ _ _ Hsync), event_meta_length. }
  cbn [mm' bitvec]. rewrite concat_lookup by (by apply Forall_take). rewrite lookup_take_lt by done.
  destruct (Hmix (i / 4096)) as [->|[->|(p & d & b & ? & ? & _ & _ & Epn & _)]].
  - left. apply Hbyte; [by eapply layout_meta|done].
  - right. apply Hbyte; [by apply ht1_meta|done].
  - unfold data_page_index in Epn. lia.
Qed.

Lemma ht1_pages : Forall (λ p, length p = PAGE_SIZE) ht1.
Proof.
  destruct Hlay as (_ & _ & _ & _ & Hall0 & _). apply Forall_lookup. intros pn page E. rewrite Forall_lookup in Hall0.
  destruct ht1_spec as (_ & H1 & H2).
  destruct (decide (pn ∈ (sr_ht_pages res).*1)) as [Hin|Hn]; [|rewrite H2 in E by done; by apply (Hall0 pn)].
  apply list_elem_of_fmap in Hin as ([pn' page'] & -> & Hin). cbn [fst] in *.
  rewrite (H1 _ _ Hin) in E. simplify_eq. apply (synced_writes _ _ _ _ _ _ _ _ Hsync) in Hin as [Hin|[Hin Hs]].
  - apply event_writes_elem in Hin as (p & d & b & Hin & _ & ->).
    pose proof (synced_events _ _ _ _ _ _ _ _ Hsync) as Hev. apply list_elem_of_lookup in Hin as [i Hi].
    destruct (Forall2_lookup_l _ _ _ _ _ Hev Hi) as (c & _ & _ & _ & _ & Hd & _). done.
  - rewrite page_slice_total in Hs; [|rewrite (synced_bytes _ _ _ _ _ _ _ _ Hsync), event_meta_length; by eapply layout_bytes|by eapply synced_changed].
    simplify_eq. rewrite length_take, length_drop, (synced_bytes _ _ _ _ _ _ _ _ Hsync), event_meta_length, (layout_bytes _ _ _ Hlay).
    apply (synced_changed _ _ _ _ _ _ _ _ Hsync) in Hin. unfold PAGE_SIZE. nia.
Qed.

Lemma event_in_changes p d b : EvUpdate p d b ∈ evs → (p, d) ∈ changes.
Proof.
  intros [i Hi]%list_elem_of_lookup. pose proof (synced_events _ _ _ _ _ _ _ _ Hsync) as Hev.
  destruct (Forall2_lookup_l _ _ _ _ _ Hev Hi) as ([p' d'] & Hc & -> & -> & _). by eapply list_elem_of_lookup_2.
Qed.

Lemma replay_pages ht' st' ht'' :
  recoverable ht' →
  let mm' := {| buckets := buckets mm; bitvec := concat (take (data_page_offset off) ht') |} in
  recovered_all evs {| rs_ht := ht'; rs_meta_map := mm'; rs_changed_meta_page_ixs := ∅ |} st' →
  rs_meta_map st' = sr_meta_map res →
  (∀ ix, ix ∈ rs_changed_meta_page_ixs st' → ix < data_page_offset off) →
  (∀ ix, ix ∈ rs_changed_meta_page_ixs st' → ht'' !! ix = page_slice (sr_meta_map res) ix) →
  (∀ pn, pn ∉ rs_changed_meta_page_ixs st' → ht'' !! pn = rs_ht st' !! pn) →
  ∀ pn, page_after ht' ht'' pn.
Proof.
  intros Hcr mm' Hrec Hmm Hchb Hin Hout pn. destruct ht1_spec as (_ & H1 & H2).
  destruct (recoverable_meta ht' Hcr) as (Hlay' & Hlb & _).
  destruct (decide (pn ∈ rs_changed_meta_page_ixs st')) as [Hpn|Hpn].
  { left. rewrite Hin, ht1_meta by auto. done. }
  destruct (Nat.lt_ge_cases pn (data_page_offset off)) as [Hlt|Hge].
  - left. rewrite Hout, ht1_meta by done. rewrite (rec_others _ _ _ Hrec).
    2:{ intros ([pn' page] & -> & Hw)%list_elem_of_fmap. cbn [fst] in *.
        apply event_writes_elem in Hw as (p & d & b & _ & -> & _). unfold data_page_index in Hlt. lia. }
    cbn [rs_ht]. rewrite (layout_meta n mm' ht' pn Hlay' Hlt).
    rewrite !page_slice_total; [|by rewrite (synced_bytes _ _ _ _ _ _ _ _ Hsync), event_meta_length, (layout_bytes _ _ _ Hlay)|done|by eapply layout_bytes|done].
    f_equal. apply list_eq. intros k. destruct (Nat.lt_ge_cases k 4096) as [Hk|Hk]; [|by rewrite !lookup_take_ge by lia].
    rewrite !lookup_take_lt, !lookup_drop, <-Hmm by done. symmetry. apply (rec_unchanged _ _ _ Hrec).
    unfold page_index. rewrite (Nat.add_comm (pn * 4096)), Nat.div_add, Nat.div_small by lia. done.
  - destruct (decide (pn ∈ (evs ≫= event_writes).*1)) as [Hw|Hw].
    + apply list_elem_of_fmap in Hw as ([pn' page] & -> & Hw). cbn [fst] in *.
      pose proof (H1 _ _ (proj2 (synced_writes _ _ _ _ _ _ _ _ Hsync _ _) (or_introl Hw))) as Hpage.
      apply event_writes_elem in Hw as (p & d & b & Hev & -> & ->).
      destruct (rec_updates _ _ _ Hrec p d b Hev) as (q & r & Hq & Hlq & Hr & Hht).
      right. exists p, d, b, q, r. rewrite Hout by done. split_and!; try done. by eapply event_in_changes.
    + left. rewrite Hout, (rec_others _ _ _ Hrec) by done. cbn [rs_ht].
      assert (Hn : pn ∉ (sr_ht_pages res).*1).
      { intros ([pn' page] & -> & Hin')%list_elem_of_fmap. cbn [fst] in *.
        apply (synced_writes _ _ _ _ _ _ _ _ Hsync) in Hin' as [Hin'|[Hin' _]].
        - apply Hw, list_elem_of_fmap. by exists (pn', page).
        - apply (synced_changed _ _ _ _ _ _ _ _ Hsync) in Hin'. lia. }
      rewrite H2 by done. destruct Hcr as (_ & _ & Hmix). destruct (Hmix pn) as [->|[->|(p & d & b & ? & ? & _ & Hev & -> & _)]]; [done|by apply H2|].
      exfalso. apply Hw, list_elem_of_fmap. exists (data_page_index off b, dp_page d). split; [done|]. apply event_writes_elem. by exists p, d, b.
Qed.

Lemma events_fuel : length evs < S (length (as_slice (sr_wal_blob_builder res))).
Proof.
  destruct (synced_wal _ _ _ _ _ _ _ _ Hsync) as [k ->]. rewrite !length_app.
  enough (length evs ≤ length ((event_entry <$> evs) ≫= entry_bytes)) by lia.
  clear. induction evs as [|ev evs' IH]; [done|]. rewrite fmap_cons, bind_cons, length_app. cbn [length].
  destruct ev; simpl; lia.
Qed.

Lemma recover_spec ht' :
  recoverable ht' → is_u32 seqn →
  let mm' := {| buckets := buckets mm; bitvec := concat (take (data_page_offset off) ht') |} in
  ∃ ht'', recover oneshot_with_seed seed off seqn ht' (as_slice (sr_wal_blob_builder res)) mm' =
            Ok (ht'', [], sr_meta_map res) ∧
    length ht'' = length ht0 ∧ ∀ pn, page_after ht' ht'' pn.
Proof.
  intros Hcr Hq mm'. pose proof Hcr as (Hl' & Hall' & _).
  destruct (recoverable_meta ht' Hcr) as (Hlay' & Hlb & Hmix).
  destruct (synced_wal _ _ _ _ _ _ _ _ Hsync) as [k Hwal].
  destruct (reader_new_ahead _ seqn _ Hwal Hq (synced_aligned _ _ _ _ _ _ _ _ Hsync)) as (r & Hr & _ & Hrq & Ha).
  unfold recover. rewrite Hr. cbn [lift_reader obind]. rewrite Hrq, Z.eqb_refl. cbn [negb].
  pose proof Hlay as ([Hn1 Hn2] & Hb & Hoff & Hl0 & _). pose proof Hmeta as [_ Hmb].
  assert (Hdiv : (0 ≤ (n + 4095) / 4096)%Z) by (apply Z.div_pos; lia).
  destruct (recover_loop_spec evs changes {| rs_ht := ht'; rs_meta_map := mm'; rs_changed_meta_page_ixs := ∅ |} r
              (S (length (as_slice (sr_wal_blob_builder res)))) (replicate k x00)) as (st' & -> & Hrec).
  - by eapply synced_events.
  - eapply (event_writes_nodup owner'); [by eapply synced_pages|].
    eapply list.Forall_impl; [by eapply synced_owner|]. by intros [|].
  - eapply list.Forall_impl; [by eapply synced_bounds|]. cbv beta. intros ev Hev. cbn [rs_meta_map rs_ht].
    split_and!; [fold mm' in Hlb; rewrite Hlb; lia|lia|lia].
  - done.
  - exact Ha.
  - apply events_fuel.
  - cbn [obind].
    assert (Hmm : rs_meta_map st' = sr_meta_map res).
    { pose proof (rec_buckets _ _ _ Hrec) as E1. pose proof (rec_bytes _ _ _ Hrec) as E2. cbn [rs_meta_map] in *.
      rewrite (event_meta_replay evs (bitvec mm)) in E2; [|done|by rewrite <-(synced_bytes _ _ _ _ _ _ _ _ Hsync)].
      rewrite <-(synced_bytes _ _ _ _ _ _ _ _ Hsync) in E2. cbn [mm' buckets] in E1.
      rewrite <-(synced_buckets _ _ _ _ _ _ _ _ Hsync) in E1.
      destruct (rs_meta_map st'), (sr_meta_map res). simpl in *. by subst. }
    assert (Hchb : ∀ ix, ix ∈ rs_changed_meta_page_ixs st' → ix < data_page_offset off).
    { intros ix Hix. destruct (rec_changed _ _ _ Hrec ix Hix) as [Hbad|(ev & Hin & ->)]; [by apply not_elem_of_empty in Hbad|].
      apply page_index_bound. pose proof (synced_bounds _ _ _ _ _ _ _ _ Hsync) as Hbd. rewrite list.Forall_forall in Hbd.
      specialize (Hbd ev Hin). pose proof (layout_bytes _ _ _ Hlay) as Hlb0. unfold PAGE_SIZE in *. lia. }
    assert (Hlb1 : length (bitvec (sr_meta_map res)) = data_page_offset off * PAGE_SIZE).
    { rewrite (synced_bytes _ _ _ _ _ _ _ _ Hsync), event_meta_length. by eapply layout_bytes. }
    destruct (write_meta_pages_spec (elements (rs_changed_meta_page_ixs st')) (rs_meta_map st') (rs_ht st'))
      as (ht'' & -> & Hl'' & Hin & Hout); [apply NoDup_elements| |].
    { intros ix Hix%elem_of_elements. rewrite (rec_length _ _ _ Hrec), Hmm. cbn [rs_ht]. specialize (Hchb ix Hix).
      split; [lia|]. eexists. by apply page_slice_total. }
    cbn [or_panic obind]. exists ht''. rewrite Hmm. split; [done|].
    split; [by rewrite Hl'', (rec_length _ _ _ Hrec)|].
    eapply replay_pages; try done.
    + intros ix Hix. rewrite <-Hmm. apply Hin. by apply elem_of_elements.
    + intros pn Hpn. apply Hout. by rewrite elem_of_elements.
Qed.

(** ** Crashes, once and again *)

Lemma recovered_trans d q r r' : recovered d q r → recovered d r r' → recovered d q r'.
Proof.
  intros (Hl & Hs & Ht & Hd) (Hl' & Hs' & Ht' & Hd'). split_and!; [done| |congruence|done].
  intros i Hi. rewrite Hs', Hs by done. by destruct (slot_bit (dp_diff d) i).
Qed.

Lemma update_unique p d p' d' b : EvUpdate p d b ∈ evs → EvUpdate p' d' b ∈ evs → p = p' ∧ d = d'.
Proof.
  intros H H'. pose proof (synced_owner _ _ _ _ _ _ _ _ Hsync) as Ho. rewrite list.Forall_forall in Ho.
  pose proof (Ho _ H) as E. pose proof (Ho _ H') as E'. cbn in E, E'. rewrite E in E'. injection E' as <-. split; [done|].
  apply list_elem_of_lookup in H as [i Hi]. apply list_elem_of_lookup in H' as [j Hj].
  assert (i = j) as <-; [|congruence]. pose proof (synced_pages _ _ _ _ _ _ _ _ Hsync) as Hnd.
  eapply (NoDup_lookup _ i j p Hnd); by rewrite list_lookup_fmap, ?Hi, ?Hj.
Qed.

Lemma event_dirty_page p d b : EvUpdate p d b ∈ evs → length (dp_page d) = PAGE_SIZE.
Proof.
  intros [i Hi]%list_elem_of_lookup. pose proof (synced_events _ _ _ _ _ _ _ _ Hsync) as Hev.
  destruct (Forall2_lookup_l _ _ _ _ _ Hev Hi) as (c & _ & _ & _ & _ & Hd & _). done.
Qed.

(** Recovering pages that were recovered before. *)
Lemma page_after_trans ht' ht'' pn :
  ht' !! pn = ht0 !! pn ∨ page_after ht0 ht' pn → page_after ht' ht'' pn → page_after ht0 ht'' pn.
Proof.
  intros Hmid [?|(p & d & b & q & r & Hc & Hev & Epn & E1 & Eq & Er & Hr)]; [by left|].
  pose proof (event_dirty_page p d b Hev) as Hl.
  destruct Hmid as [E|[E|(p' & d' & b' & q' & r' & _ & Hev' & Epn' & _ & Eq' & Er' & Hr')]].
  - right. exists p, d, b, q, r. split_and!; congruence.
  - left. rewrite Er, E1. f_equal. assert (q = dp_page d) as -> by congruence. by apply (recovered_exact d (dp_page d)).
  - assert (b' = b) as -> by (unfold data_page_index in *; lia). destruct (update_unique _ _ _ _ _ Hev Hev') as [<- <-].
    assert (r' = q) as -> by congruence. right. exists p, d, b, q', r. split_and!; try done. by eapply recovered_trans.
Qed.

Lemma crashed_recoverable ht' : crashed ht0 ht1 ht' → recoverable ht'.
Proof.
  intros [Hl Hmix]. split_and!; [done| |].
  - destruct Hlay as (_ & _ & _ & _ & Hall0 & _). apply Forall_lookup. intros pn page Hp.
    rewrite Forall_lookup in Hall0. pose proof ht1_pages as Hall1. rewrite Forall_lookup in Hall1.
    destruct (Hmix pn) as [E|E]; rewrite Hp in E; [by apply (Hall0 pn)|by apply (Hall1 pn)].
  - intros pn. destruct (Hmix pn) as [?|?]; [by left|by right; left].
Qed.

Lemma crashed_again ht' ht'' h :
  recoverable ht' → length ht'' = length ht0 → (∀ pn, page_after ht' ht'' pn) → crashed ht' ht'' h → recoverable h.
Proof.
  intros (Hl & Hall & Hmix) Hl'' Hafter [Hlh Hcr]. split_and!; [by rewrite Hlh| |].
  - apply Forall_lookup. intros pn page Hp. rewrite Forall_lookup in Hall.
    destruct (Hcr pn) as [E|E]; rewrite Hp in E; [by apply (Hall pn)|].
    destruct (Hafter pn) as [E1|(p & d & b & q & r & _ & _ & _ & _ & _ & Er & Hr & _)]; [|congruence].
    pose proof ht1_pages as Hall1. rewrite Forall_lookup in Hall1. apply (Hall1 pn). congruence.
  - intros pn. destruct (Hcr pn) as [E|E]; unfold page_after; rewrite E; [apply Hmix|].
    right. by apply (page_after_trans ht').
Qed.

Abbreviation blob := (as_slice (sr_wal_blob_builder res)).

Lemma db_open_recovers h :
  recoverable h → is_u32 seqn →
  ∃ db, db_open oneshot_with_seed seqn n seed h blob = Ok db ∧ db_meta_map db = sr_meta_map res ∧ db_wal db = [] ∧
    length (db_ht db) = length ht0 ∧ ∀ pn, page_after h (db_ht db) pn.
Proof.
  intros Hrec Hq. destruct (recoverable_meta h Hrec) as (Hlay' & _).
  destruct (recover_spec h Hrec Hq) as (ht'' & Er & Hl & Hafter). destruct (synced_wal _ _ _ _ _ _ _ _ Hsync) as [k Hwal].
  assert (Hne : (0 <? length blob) = true) by (rewrite Hwal; reflexivity).
  unfold db_open. rewrite (ht_open_layout _ _ _ Hlay'). cbn [obind]. rewrite Hne, Er. cbn [obind]. eexists. by split_and!.
Qed.
End crash.

(** ** The main theorems *)

(** C18: preparing a sync keeps the page table consistent.  Let the table be
    consistent, let the changes be of different pages, labelled with their ids and
    with true bucket information, no two of them with the same shared bucket cell, and
    none with the diff bit 126 unless it clears its page, and let them fit into the
    largest log.  Then [prepare_sync] does not panic and does not write outside of the
    log's memory.  It succeeds, or reports that no bucket was found, or is still
    probing when the fuel ends; the last cannot happen if the number of buckets is a
    power of two, there is a free bucket for each change, and the fuel is at least the
    number of buckets.  If it succeeds, the new meta map describes a consistent table
    in which the cleared pages are gone, every written page has a bucket, told to the
    page cache, to which the page will be written, and no other page moved; and no
    page of the file is written twice. *)
Theorem prepare_sync_correct (fuel : nat) (seqn : Z) (changes : list (PageId * DirtyPage))
    (mm : MetaMap) (owner : gmap nat PageId) (occupied : Z) (wb : WalBlobBuilder) (r : refs) :
  table_ok mm owner → changes_ok owner r changes → builder_ok wb →
  length (bitvec mm) = data_page_offset off * PAGE_SIZE →
  (Z.of_nat (6 + 4097 * length changes) < MAX_SIZE)%Z →
  match prepare_sync oneshot_with_seed mremap_ok mmap_ok seed off fuel seqn changes mm occupied wb r with
  | Ok res =>
      ∃ owner', table_ok (sr_meta_map res) owner' ∧
        (∀ q b, q ∉ changes.*1 → owner' !! b = Some q ↔ owner !! b = Some q) ∧
        (∀ p d, (p, d) ∈ changes →
           if cleared (dp_diff d)
           then (p, None) ∈ sr_cache_updates res ∧ ∀ b, owner' !! b ≠ Some p
           else ∃ b, owner' !! b = Some p ∧ (p, Some (dp_page d, Z.of_nat b)) ∈ sr_cache_updates res ∧
                  (data_page_index off b, dp_page d) ∈ sr_ht_pages res) ∧
        NoDup (sr_ht_pages res).*1
  | Err BucketExhaustion => True
  | Err SyncStillProbing => ¬ probes_end fuel mm owner (length changes)
  | Err WalOutOfBounds | Panic => False
  end.
Proof.
  intros Ht Hch Hwb Hlen Hf.
  pose proof (prepare_sync_spec fuel seqn changes mm owner occupied wb r Ht Hch Hwb Hlen Hf) as H.
  destruct (prepare_sync _ _ _ _ _ _ _ _ _ _ _ _) as [res|[]|]; [|done|done|done|done].
  destruct H as (evs & changed & owner' & Hs). exists owner'.
  pose proof (synced_events _ _ _ _ _ _ _ _ Hs) as Hev. pose proof (synced_owner _ _ _ _ _ _ _ _ Hs) as Ho.
  assert (Hpages : event_page <$> evs = changes.*1).
  { clear -Hev. induction Hev as [|ev c evs changes He _ IH]; [done|]. rewrite !fmap_cons, IH. f_equal.
    destruct ev; simpl in *; tauto. }
  split_and!; [by eapply synced_table| | |by eapply synced_nodup].
  - intros q b Hq. eapply synced_others; [done|]. by rewrite Hpages.
  - intros p d [i Hi]%list_elem_of_lookup.
    destruct (Forall2_lookup_r _ _ _ _ _ Hev Hi) as (ev & Hevi & Hof).
    assert (Hin : ev ∈ evs) by by eapply list_elem_of_lookup_2.
    rewrite list.Forall_forall in Ho. specialize (Ho _ Hin). rewrite (synced_cache _ _ _ _ _ _ _ _ Hs).
    assert (Hca : event_cache ev ∈ event_cache <$> evs) by (apply list_elem_of_fmap; by exists ev).
    destruct ev as [p' b|p' d' b]; cbn [event_of fst snd event_cache] in *.
    + destruct Hof as [-> ->]. done.
    + destruct Hof as (-> & -> & -> & _). exists b. split_and!; [done|done|].
      apply (synced_writes _ _ _ _ _ _ _ _ Hs). left. apply event_writes_elem. by exists p, d, b.
Qed.

(** The files that crashes can leave once the manifest names the sync: some of the pages of
    the writeout are written, and after that any number of recoveries, each of which
    crashed after some of its writes, before it emptied the log. *)
Inductive crash_state (n seqn : Z) (ht0 : file) (res : SyncResult) : file → Prop :=
| crash_writeout h : crashed ht0 (write_ht ht0 (sr_ht_pages res)) h → crash_state n seqn ht0 res h
| crash_recovery h db h' :
    crash_state n seqn ht0 res h →
    db_open oneshot_with_seed seqn n seed h (as_slice (sr_wal_blob_builder res)) = Ok db →
    crashed h (db_ht db) h' → crash_state n seqn ht0 res h'.

(** The log after a crash while it was written: it is empty, or it has some pages, of which
    the first one has reached the disk; the others hold anything. *)
Definition wal_torn (blob wal : list u8) : Prop :=
  length wal mod PAGE_SIZE = 0 ∧ (wal = [] ∨ take PAGE_SIZE wal = take PAGE_SIZE blob).

Lemma crash_state_recoverable n seqn changes mm owner res evs changed owner' ht0 h :
  meta_ok mm → layout n mm ht0 → synced seqn changes mm owner res evs changed owner' → is_u32 seqn →
  crash_state n seqn ht0 res h → recoverable changes res evs ht0 h.
Proof.
  intros Hm Hlay Hs Hq. induction 1 as [h Hcr|h db h' _ IH Hdb Hcr]; [by eapply crashed_recoverable|].
  destruct (db_open_recovers n seqn changes mm owner res evs changed owner' ht0 Hm Hlay Hs h IH Hq) as (db' & Hdb' & _ & _ & Hl & Hafter).
  rewrite Hdb in Hdb'. injection Hdb' as <-. by eapply (crashed_again n seqn changes mm owner res evs changed owner' ht0 Hlay Hs h).
Qed.

(** A log of a sync that was not committed is dropped if its header can be read. *)
Lemma open_uncommitted n mm ht seqn seqn' blob rest wal :
  layout n mm ht → blob = wal_header seqn ++ rest → is_u32 seqn → seqn' ≠ seqn → length blob mod PAGE_SIZE = 0 →
  wal_torn blob wal →
  ∃ db, db_open oneshot_with_seed seqn' n seed ht wal = Ok db ∧ db_meta_map db = mm ∧ db_wal db = [] ∧ db_ht db = ht.
Proof.
  intros Hlay Hblob Hq Hne Hal (Hm & Hw). unfold db_open. rewrite (ht_open_layout _ _ _ Hlay). cbn [obind].
  destruct Hw as [->|Hw]; [cbn [length Nat.ltb Nat.leb obind]; eexists; by split_and!|].
  assert (Hh : length (wal_header seqn) = 5) by (unfold wal_header; by rewrite length_app, length_to_le_bytes).
  assert (Hpre : wal = wal_header seqn ++ drop 5 wal).
  { rewrite <-(take_drop 5 wal) at 1. f_equal. replace (take 5 wal) with (take 5 (take PAGE_SIZE wal)) by (by rewrite take_take).
    rewrite Hw, take_take, Hblob. change (5 `min` PAGE_SIZE) with 5. apply take_app_length'. done. }
  destruct (Nat.ltb_spec 0 (length wal)) as [_|Hbad]; [|rewrite Hpre, length_app in Hbad; lia].
  destruct (reader_new_ahead wal seqn _ Hpre Hq Hm) as (rd & Hr & _ & Hrq & _).
  unfold recover. rewrite Hr. cbn [lift_reader obind]. rewrite Hrq, (proj2 (Z.eqb_neq _ _)) by congruence. cbn [negb obind].
  eexists. by split_and!.
Qed.

(** C4: a committed sync survives crashes, and one that was not committed leaves no
    trace.  Let [prepare_sync] succeed on a consistent table in a file, for changes as
    in [prepare_sync_correct].  Once the manifest has the sequence number of the sync,
    the system may crash in the writeout, with some pages written, each as a whole,
    and any number of times in the recovery, with some of its pages written and the
    log still there.  Then opening the store succeeds: it reads the meta map of the
    completed sync, empties the log, and leaves every page of the file as the sync was
    to write it, except that in a dirty page the nodes its diff does not mark may be
    those before the sync; after a completed writeout it changes nothing.  If the
    manifest has another sequence number, as when the system crashes before it is
    written, and the log is empty or has its first page and a whole number of pages,
    opening leaves the file and the meta map as they were.  Other torn logs are those
    of [wal_torn_unreadable]. *)
Theorem sync_crash_recovery (fuel : nat) (n seqn : Z) (changes : list (PageId * DirtyPage))
    (mm : MetaMap) (owner : gmap nat PageId) (occupied : Z) (wb : WalBlobBuilder) (r : refs)
    (ht0 : file) (res : SyncResult) :
  table_ok mm owner → changes_ok owner r changes → builder_ok wb → is_u32 seqn →
  (Z.of_nat (6 + 4097 * length changes) < MAX_SIZE)%Z → layout n mm ht0 →
  prepare_sync oneshot_with_seed mremap_ok mmap_ok seed off fuel seqn changes mm occupied wb r = Ok res →
  (∀ h, crash_state n seqn ht0 res h →
     ∃ db, db_open oneshot_with_seed seqn n seed h (as_slice (sr_wal_blob_builder res)) = Ok db ∧
       db_meta_map db = sr_meta_map res ∧ db_wal db = [] ∧ length (db_ht db) = length ht0 ∧
       (∀ pn, (db_ht db !! pn = write_ht ht0 (sr_ht_pages res) !! pn) ∨
          ∃ p d q page, (p, d) ∈ changes ∧ write_ht ht0 (sr_ht_pages res) !! pn = Some (dp_page d) ∧
            ht0 !! pn = Some q ∧ db_ht db !! pn = Some page ∧ recovered d q page) ∧
       (h = write_ht ht0 (sr_ht_pages res) → db_ht db = h)) ∧
  (∀ seqn' wal, seqn' ≠ seqn → wal_torn (as_slice (sr_wal_blob_builder res)) wal →
     ∃ db, db_open oneshot_with_seed seqn' n seed ht0 wal = Ok db ∧
       db_meta_map db = mm ∧ db_wal db = [] ∧ db_ht db = ht0).
Proof.
  intros Ht Hch Hwb Hq Hf Hlay Hprep.
  pose proof (prepare_sync_spec fuel seqn changes mm owner occupied wb r Ht Hch Hwb (layout_bytes _ _ _ Hlay) Hf) as H.
  rewrite Hprep in H. destruct H as (evs & changed & owner' & Hs). pose proof (table_meta _ _ _ _ Ht) as Hm. split.
  - intros h Hcs. assert (Hrec : recoverable changes res evs ht0 h) by (by eapply crash_state_recoverable).
    destruct (db_open_recovers n seqn changes mm owner res evs changed owner' ht0 Hm Hlay Hs h Hrec Hq) as (db & Hdb & Hmm & Hwal & Hl & Hafter).
    exists db. split_and!; try done.
    + intros pn. destruct Hrec as (_ & _ & Hmix).
      destruct (page_after_trans seqn changes mm owner res evs changed owner' ht0 Hs h (db_ht db) pn (Hmix pn) (Hafter pn))
        as [?|(p & d & b & q & page & Hc & _ & _ & ? & ? & ? & ?)]; [by left|]. right. by exists p, d, q, page.
    + intros ->. apply list_eq. intros pn.
      destruct (Hafter pn) as [?|(p & d & b & q & page & _ & Hev & _ & E1 & E2 & E3 & Hr)]; [done|].
      rewrite E3, E1. f_equal. rewrite E1 in E2. injection E2 as <-.
      pose proof (event_dirty_page _ _ _ _ _ _ _ _ Hs p d b Hev) as Hlp. by apply (recovered_exact d (dp_page d)).
  - intros seqn' wal Hne Hw. destruct (synced_wal _ _ _ _ _ _ _ _ Hs) as [k Hwal].
    eapply (open_uncommitted n mm ht0 seqn seqn'); try done. by eapply synced_aligned.
Qed.

(** C31: a crash while the log is written can make the store unreadable.  If the log that
    the crash leaves does not have a whole number of pages, or its first byte is not the
    start tag, because the file grew by pages whose bytes did not reach the disk and read
    as zeros, then opening the store fails, for every table and with every sequence
    number, although the sync was not committed and the file of the table is intact: the
    log is dropped only after its header was read. *)
Theorem wal_torn_unreadable (n seqn : Z) (mm : MetaMap) (ht : file) (wal : list u8) :
  layout n mm ht → wal ≠ [] → length wal mod PAGE_SIZE ≠ 0 ∨ head wal ≠ Some WAL_ENTRY_TAG_START →
  ∃ e, db_open oneshot_with_seed seqn n seed ht wal = Err (OpenRecover (RecWal e)) ∧
    (e = NotPageMultiple ∨ ∃ tag, head wal = Some tag ∧ e = UnexpectedStartTag tag).
Proof.
  intros Hlay Hne Htorn. destruct wal as [|tag w]; [done|]. set (wal := tag :: w) in *.
  assert (Hr : ∃ e, WalBlobReader_new wal = Err e ∧ (e = NotPageMultiple ∨ ∃ tag, head wal = Some tag ∧ e = UnexpectedStartTag tag)).
  { unfold WalBlobReader_new. destruct (Nat.eqb_spec (length wal mod PAGE_SIZE) 0) as [Hm|Hm]; cbn [negb].
    2: { exists NotPageMultiple. split; [done|by left]. }
    rewrite read_pages_spec; [|done|pose proof (Nat.div_mod_eq (length wal) PAGE_SIZE); lia].
    destruct Htorn as [?|Htag]; [done|]. exists (UnexpectedStartTag tag). split; [|right; by exists tag].
    unfold read_start, read_byte. cbn [Wal.wal offset Nat.mul drop]. cbn. rewrite bool_decide_eq_false_2; [done|]. intros ->. by apply Htag. }
  destruct Hr as (e & Hr & He). exists e. split; [|done]. unfold db_open. rewrite (ht_open_layout _ _ _ Hlay). cbn [obind wal length Nat.ltb Nat.leb].
  fold wal. unfold recover. by rewrite Hr.
Qed.
End sync_proofs.

(** ** The theorems at work *)

Definition sample_dirty (p : PageId) (bucket : BucketInfo) : DirtyPage :=
  {| dp_page := replicate 4064 x01 ++ encode p; dp_diff := sample_diff; dp_bucket := bucket |}.
Definition fresh_page : PageId := {| path := [3%Z] |}.
Definition sync_sample : list (PageId * DirtyPage) :=
  [(ROOT_PAGE_ID, sample_dirty ROOT_PAGE_ID (Known 0));
   (fresh_page, sample_dirty fresh_page FreshWithNoDependents)].
Definition sample_offsets : HTOffsets := {| data_page_offset := 1 |}.
Definition sync_result : outcome SyncError SyncResult :=
  prepare_sync toy_xxh (λ _, true) (λ _, true) [] sample_offsets 4 3 sync_sample sample_map 1 sample_builder ∅.
Definition sample_result : SyncResult :=
  match sync_result with
  | Ok res => res
  | _ => {| sr_ht_pages := []; sr_cache_updates := []; sr_meta_map := sample_map; sr_occupied_buckets := 0;
            sr_wal_blob_builder := sample_builder; sr_refs := ∅ |}
  end.

Lemma sample_dirty_ok p b : dirty_ok p (sample_dirty p b).
Proof.
  split; [|split].
  - cbn [sample_dirty dp_page]. rewrite length_app, length_encode, length_replicate. reflexivity.
  - split; vm_compute; (split; [congruence|reflexivity]).
  - intros _. split; [reflexivity|]. unfold label. cbn [sample_dirty dp_page].
    rewrite drop_app_length'; [done|]. by rewrite length_replicate.
Qed.

Lemma sync_sample_ok : changes_ok sample_owner ∅ sync_sample.
Proof.
  split; [|split].
  - by_compute.
  - by_compute.
  - unfold sync_sample.
    apply Forall_cons_2; [|apply Forall_cons_2; [|apply Forall_nil_2]]; (split; [apply sample_dirty_ok|]).
    + split; [done|]. reflexivity.
    + split; [reflexivity|]. intros b [_ E]%sample_owner_Some. discriminate.
Qed.

Lemma toy_xxh_u64 s bs : is_u64 (toy_xxh s bs).
Proof. unfold toy_xxh, wrap, is_u64. apply Z.mod_pos_bound. lia. Qed.

Lemma sample_builder_ok : builder_ok sample_builder.
Proof. repeat split; vm_compute; (lia || congruence). Qed.

Lemma sample_layout : layout sample_offsets 4 sample_map sample_file.
Proof.
  unfold layout. split_and!; [done|done|reflexivity|reflexivity|reflexivity| |].
  - unfold sample_file. repeat apply Forall_cons_2; try apply Forall_nil_2; try apply length_replicate.
    cbn [length]. by rewrite length_replicate.
  - unfold sample_file. cbn [sample_offsets data_page_offset take concat sample_map bitvec]. apply app_nil_r.
Qed.

Lemma sync_sample_result :
  prepare_sync toy_xxh (λ _, true) (λ _, true) [] sample_offsets 4 3 sync_sample sample_map 1 sample_builder ∅ =
    Ok sample_result.
Proof. unfold sample_result, sync_result. vm_compute. reflexivity. Qed.

Lemma prepare_sync_correct_witness :
  ∃ owner', table_ok toy_xxh [] (sr_meta_map sample_result) owner' ∧ (∃ b, owner' !! b = Some fresh_page).
Proof.
  pose proof (prepare_sync_correct toy_xxh (λ _, true) (λ _, true) toy_xxh_u64 (λ _ _, eq_refl) [] sample_offsets
                4 3 sync_sample sample_map sample_owner 1 sample_builder ∅
                sample_table_ok sync_sample_ok sample_builder_ok ltac:(reflexivity) ltac:(vm_compute; reflexivity)) as H.
  rewrite sync_sample_result in H. destruct H as (owner' & Ht & _ & Hp & _). exists owner'. split; [exact Ht|].
  destruct (Hp fresh_page (sample_dirty fresh_page FreshWithNoDependents)) as (b & Hb & _).
  - right. left.
  - exists b. exact Hb.
Defined.

(** Only the first page, that of the meta map, is not written before the crash. *)
Definition crashed_file : file :=
  take 1 sample_file ++ drop 1 (write_ht sample_file (sr_ht_pages sample_result)).

Lemma sample_crashed :
  length crashed_file = length sample_file →
  crashed sample_file (write_ht sample_file (sr_ht_pages sample_result)) crashed_file.
Proof.
  intros Hl. split; [exact Hl|]. intros [|pn]; [left; reflexivity|right].
  unfold crashed_file. rewrite lookup_app_r by (simpl; lia). rewrite lookup_drop. f_equal. simpl. lia.
Qed.

Lemma sync_crash_recovery_witness :
  (∃ db, db_open toy_xxh 3 4 [] crashed_file (as_slice (sr_wal_blob_builder sample_result)) = Ok db ∧
     db_meta_map db = sr_meta_map sample_result ∧ db_wal db = []) ∧
  (∃ db, db_open toy_xxh 2 4 [] sample_file (as_slice (sr_wal_blob_builder sample_result)) = Ok db ∧
     db_ht db = sample_file).
Proof.
  assert (Hl : length crashed_file = length sample_file) by (vm_compute; reflexivity).
  destruct (sync_crash_recovery toy_xxh (λ _, true) (λ _, true) toy_xxh_u64 (λ _ _, eq_refl) [] sample_offsets
              4 4 3 sync_sample sample_map sample_owner 1 sample_builder ∅ sample_file sample_result
              sample_table_ok sync_sample_ok sample_builder_ok ltac:(split; vm_compute; congruence)
              ltac:(vm_compute; reflexivity) sample_layout sync_sample_result) as [Hdone Hundone].
  split.
  - destruct (Hdone crashed_file (crash_writeout _ _ _ _ _ _ _ (sample_crashed Hl))) as (db & Hdb & Hmm & Hwal & _).
    exists db. split_and!; [exact Hdb|exact Hmm|exact Hwal].
  - destruct (Hundone 2%Z (as_slice (sr_wal_blob_builder sample_result))) as (db & Hdb & _ & _ & Hht).
    + lia.
    + split; [vm_compute; reflexivity|right; reflexivity].
    + exists db. split; [exact Hdb|exact Hht].
Defined.

(** The first page of the log reads as zeros. *)
Lemma wal_torn_unreadable_witness :
  ∃ e, db_open toy_xxh 2 4 [] sample_file (replicate 4096 x00) = Err (OpenRecover (RecWal e)).
Proof.
  destruct (wal_torn_unreadable toy_xxh [] sample_offsets 4 2 sample_map sample_file (replicate 4096 x00) sample_layout)
    as (e & He & _); [discriminate|right; discriminate|]. exists e. exact He.
Defined.
