(* ===== verification/Delta.v ===== *)
(** * Reverse deltas

    Models [nomt/src/rollback/delta.rs]: the prior values of the keys a commit wrote,
    and the bytes a delta has as a record of the rollback log.

    [priors.iter()] visits the entries of the hash map in an unspecified order.  The
    encoder of the model takes the visited entries as a list, and its theorems hold
    for every order of them. *)

From S2P Require Import Prelude Trie.

#[local] Open Scope nat_scope.

Record Delta := { priors : gmap KeyPath (option (list u8)) }.

#[global] Instance Delta_eq_dec : EqDecision Delta.
Proof. solve_decision. Defined.

(** ** Encoding *)

(** The keys that did not exist before the commit, and those that did. *)
Definition to_erase (entries : list (KeyPath * option (list u8))) : list KeyPath :=
  omap (λ e : KeyPath * option (list u8),
    match e.2 with None => Some e.1 | Some _ => None end) entries.
Definition to_reinstate (entries : list (KeyPath * option (list u8))) : list (KeyPath * list u8) :=
  omap (λ e : KeyPath * option (list u8),
    match e.2 with None => None | Some value => Some (e.1, value) end) entries.

(** [len() as u32] followed by [to_le_bytes] *)
Definition u32_len {A} (l : list A) : list u8 := to_le_bytes 4 (wrap 32 (Z.of_nat (length l))).

Definition encode_erase (keys : list KeyPath) : list u8 := u32_len keys ++ concat keys.

Definition encode_reinstate (items : list (KeyPath * list u8)) : list u8 :=
  u32_len items ++
  concat ((λ kv : KeyPath * list u8, kv.1 ++ u32_len kv.2 ++ kv.2) <$> items).

Definition encode_entries (entries : list (KeyPath * option (list u8))) : list u8 :=
  encode_erase (to_erase entries) ++ encode_reinstate (to_reinstate entries).

Definition encode_delta (self : Delta) : list u8 := encode_entries (map_to_list (priors self)).

(** ** Decoding *)

Inductive DeltaError :=
| UnexpectedEof
| DuplicateErase (key_path : KeyPath)
| DuplicateReinstate (key_path : KeyPath).

(** [std::io::Cursor] *)
Record Cursor := { c_inner : list u8; c_pos : nat }.

Definition Cursor_new (inner : list u8) : Cursor := {| c_inner := inner; c_pos := 0 |}.

(** [read_exact] into a buffer of [n] bytes. *)
Definition read_exact (n : nat) (reader : Cursor) : outcome DeltaError (list u8 * Cursor) :=
  if c_pos reader + n <=? length (c_inner reader) then
    Ok (take n (drop (c_pos reader) (c_inner reader)),
        {| c_inner := c_inner reader; c_pos := c_pos reader + n |})
  else Err UnexpectedEof.

(** The loop over [0..to_erase_len]. *)
Fixpoint decode_erase (n : nat) (priors : gmap KeyPath (option (list u8))) (reader : Cursor) :
    outcome DeltaError (gmap KeyPath (option (list u8)) * Cursor) :=
  match n with
  | 0 => Ok (priors, reader)
  | S n' =>
      let! (key_path, reader) := read_exact 32 reader in
      if bool_decide (is_Some (priors !! key_path)) then Err (DuplicateErase key_path)
      else decode_erase n' (<[key_path := None]> priors) reader
  end.

(** The loop over [0..to_reinstate_len]. *)
Fixpoint decode_reinstate (n : nat) (priors : gmap KeyPath (option (list u8))) (reader : Cursor) :
    outcome DeltaError (gmap KeyPath (option (list u8)) * Cursor) :=
  match n with
  | 0 => Ok (priors, reader)
  | S n' =>
      let! (key_path, reader) := read_exact 32 reader in
      let! (buf, reader) := read_exact 4 reader in
      let value_len := from_le_bytes buf in
      let! (value, reader) := read_exact (Z.to_nat value_len) reader in
      if bool_decide (is_Some (priors !! key_path)) then Err (DuplicateReinstate key_path)
      else decode_reinstate n' (<[key_path := Some value]> priors) reader
  end.

Definition decode_delta (reader : Cursor) : outcome DeltaError (Delta * Cursor) :=
  let! (buf, reader) := read_exact 4 reader in
  let! (priors, reader) := decode_erase (Z.to_nat (from_le_bytes buf)) ∅ reader in
  let! (buf, reader) := read_exact 4 reader in
  let! (priors, reader) := decode_reinstate (Z.to_nat (from_le_bytes buf)) priors reader in
  Ok ({| priors := priors |}, reader).

(** ** The round trip *)

(** The cursor stands before [bs]. *)
Definition at_bytes (reader : Cursor) (bs : list u8) : Prop :=
  c_pos reader ≤ length (c_inner reader) ∧ drop (c_pos reader) (c_inner reader) = bs.

(** [Vec<u8>] of at most [u32::MAX] bytes. *)
Definition u32_sized {A} (l : list A) : Prop := is_u32 (Z.of_nat (length l)).

Definition delta_ok (entries : list (KeyPath * option (list u8))) : Prop :=
  u32_sized entries ∧
  Forall (λ e : KeyPath * option (list u8),
    length e.1 = 32 ∧ match e.2 with Some v => u32_sized v | None => True end) entries.

Lemma read_exact_at reader bs1 bs2 :
  at_bytes reader (bs1 ++ bs2) →
  ∃ reader', read_exact (length bs1) reader = Ok (bs1, reader') ∧ at_bytes reader' bs2 ∧
    c_inner reader' = c_inner reader.
Proof.
  intros [Hp Hd]. unfold read_exact.
  pose proof (f_equal length Hd) as Hl. rewrite length_drop, length_app in Hl.
  rewrite (proj2 (Nat.leb_le _ _)) by lia.
  exists {| c_inner := c_inner reader; c_pos := c_pos reader + length bs1 |}.
  split; [|split; [split|done]].
  - by rewrite Hd, take_app_length.
  - simpl. lia.
  - simpl. by rewrite <-drop_drop, Hd, drop_app_length.
Qed.

Lemma u32_len_decode {A} (l : list A) :
  u32_sized l → Z.to_nat (from_le_bytes (u32_len l)) = length l.
Proof.
  intros Hl. unfold u32_len, u32_sized, is_u32, wrap in *. rewrite from_to_le_bytes.
  change (256 ^ Z.of_nat 4)%Z with (2 ^ 32)%Z. rewrite Z.mod_mod, Z.mod_small by lia. lia.
Qed.

Lemma read_len_at {A} (l : list A) reader bs :
  at_bytes reader (u32_len l ++ bs) →
  ∃ reader', read_exact 4 reader = Ok (u32_len l, reader') ∧ at_bytes reader' bs ∧
    c_inner reader' = c_inner reader.
Proof. intros H. apply read_exact_at in H. by unfold u32_len in H at 1; rewrite length_to_le_bytes in H. Qed.

Lemma decode_erase_at keys m reader bs :
  Forall (λ k, length k = 32) keys → NoDup keys → (∀ k, k ∈ keys → m !! k = None) →
  at_bytes reader (concat keys ++ bs) →
  ∃ reader', decode_erase (length keys) m reader =
      Ok (list_to_map ((λ k, (k, None)) <$> keys) ∪ m, reader') ∧
    at_bytes reader' bs ∧ c_inner reader' = c_inner reader.
Proof.
  intros Hl. revert m reader. induction Hl as [|k keys Hk Hl IH]; intros m reader Hnd Hm Hat.
  { exists reader. simpl in *. by rewrite (left_id_L ∅ (∪)). }
  apply NoDup_cons in Hnd as [Hnk Hnd]. simpl in Hat. rewrite <-app_assoc in Hat.
  destruct (read_exact_at _ _ _ Hat) as (r1 & Hr & Hat1 & Hi1). rewrite Hk in Hr.
  cbn [length decode_erase]. rewrite Hr. cbn [obind].
  rewrite bool_decide_eq_false_2; last (rewrite Hm by left; by intros [? ?]).
  destruct (IH (<[k := None]> m) r1) as (r2 & -> & Hat2 & Hi2); [done| |done|].
  { intros k' Hk'. rewrite lookup_insert_ne by (intros ->; done). apply Hm. by right. }
  exists r2. split_and!; [|done|congruence]. do 2 f_equal.
  rewrite fmap_cons. cbn [list_to_map foldr]. unfold list_to_map. cbn.
  rewrite <-insert_union_l, insert_union_r; [done|].
  apply not_elem_of_list_to_map_1. by rewrite <-list_fmap_compose, list_fmap_id.
Qed.

Lemma decode_reinstate_at (items : list (KeyPath * list u8)) m reader bs :
  Forall (λ kv : KeyPath * list u8, length kv.1 = 32 ∧ u32_sized kv.2) items →
  NoDup items.*1 → (∀ k, k ∈ items.*1 → m !! k = None) →
  at_bytes reader (concat ((λ kv : KeyPath * list u8, kv.1 ++ u32_len kv.2 ++ kv.2) <$> items) ++ bs) →
  ∃ reader', decode_reinstate (length items) m reader =
      Ok (list_to_map (prod_map id Some <$> items) ∪ m, reader') ∧
    at_bytes reader' bs ∧ c_inner reader' = c_inner reader.
Proof.
  intros Hl. revert m reader.
  induction Hl as [|[k v] items [Hk Hv] Hl IH]; intros m reader Hnd Hm Hat.
  { exists reader. simpl in *. by rewrite (left_id_L ∅ (∪)). }
  cbn [fmap list_fmap fst snd concat] in *. apply NoDup_cons in Hnd as [Hnk Hnd].
  rewrite <-!app_assoc in Hat.
  destruct (read_exact_at _ _ _ Hat) as (r1 & Hr1 & Hat1 & Hi1). rewrite Hk in Hr1.
  destruct (read_len_at _ _ _ Hat1) as (r2 & Hr2 & Hat2 & Hi2).
  destruct (read_exact_at _ _ _ Hat2) as (r3 & Hr3 & Hat3 & Hi3).
  cbn [length decode_reinstate]. rewrite Hr1. cbn [obind]. rewrite Hr2. cbn [obind].
  rewrite u32_len_decode by done. rewrite Hr3. cbn [obind].
  rewrite bool_decide_eq_false_2; last (rewrite Hm by left; by intros [? ?]).
  destruct (IH (<[k := Some v]> m) r3) as (r4 & -> & Hat4 & Hi4); [done| |done|].
  { intros k' Hk'. rewrite lookup_insert_ne by (intros ->; done). apply Hm. by right. }
  exists r4. split_and!; [|done|congruence]. do 2 f_equal.
  change (list_to_map (prod_map id Some (k, v) :: ?l)) with (<[k := Some v]> (list_to_map l : gmap KeyPath (option (list u8)))).
  rewrite <-insert_union_l, insert_union_r; [done|].
  apply not_elem_of_list_to_map_1. by rewrite <-list_fmap_compose.
Qed.

Lemma split_entries entries :
  (prod_map id Some <$> to_reinstate entries) ++ ((λ k, (k, None)) <$> to_erase entries) ≡ₚ entries.
Proof.
  unfold to_reinstate, to_erase. induction entries as [|[k [v|]] entries IH]; [done| |].
  - cbn. by rewrite IH.
  - cbn. by rewrite <-Permutation_middle, IH.
Qed.

Lemma to_erase_elem k entries : k ∈ to_erase entries ↔ (k, None) ∈ entries.
Proof.
  unfold to_erase. rewrite list_elem_of_omap. split.
  - by intros ([? []] & ? & [= ->]).
  - intros H. by exists (k, None).
Qed.

Lemma to_reinstate_elem k v entries : (k, v) ∈ to_reinstate entries ↔ (k, Some v) ∈ entries.
Proof.
  unfold to_reinstate. rewrite list_elem_of_omap. split.
  - by intros ([? []] & ? & [= -> ->]).
  - intros H. by exists (k, Some v).
Qed.

(** The keys of the two groups are distinct when the entries' keys are. *)
Lemma split_nodup entries :
  NoDup entries.*1 →
  NoDup (to_reinstate entries).*1 ∧ NoDup (to_erase entries) ∧
  ∀ k, k ∈ (to_reinstate entries).*1 → k ∉ to_erase entries.
Proof.
  rewrite <-(split_entries entries) at 1. rewrite fmap_app, <-!list_fmap_compose, NoDup_app.
  intros (H1 & H2 & H3). rewrite list_fmap_id in H2, H3. by split_and!.
Qed.

Lemma split_ok entries :
  delta_ok entries →
  u32_sized (to_erase entries) ∧ u32_sized (to_reinstate entries) ∧
  Forall (λ k, length k = 32) (to_erase entries) ∧
  Forall (λ kv : KeyPath * list u8, length kv.1 = 32 ∧ u32_sized kv.2) (to_reinstate entries).
Proof.
  intros [Hs Hf].
  pose proof (Permutation_length (split_entries entries)) as Hl.
  rewrite length_app, !length_fmap in Hl. unfold u32_sized, is_u32 in *.
  rewrite Forall_forall in Hf. split_and!; [lia|lia|lia|lia| |].
  - apply Forall_forall. intros k Hk%to_erase_elem. by destruct (Hf _ Hk).
  - apply Forall_forall. intros [k v] Hk%to_reinstate_elem. by destruct (Hf _ Hk).
Qed.

Lemma decode_encode_at entries reader rest :
  delta_ok entries → NoDup entries.*1 → at_bytes reader (encode_entries entries ++ rest) →
  ∃ reader', decode_delta reader = Ok ({| priors := list_to_map entries |}, reader') ∧
    at_bytes reader' rest ∧ c_inner reader' = c_inner reader.
Proof.
  intros Hok Hnd Hat. destruct (split_ok _ Hok) as (He & Hr & Hke & Hkr).
  destruct (split_nodup _ Hnd) as (Hnr & Hne & Hdis).
  unfold encode_entries, encode_erase, encode_reinstate in Hat. rewrite <-!app_assoc in Hat.
  destruct (read_len_at _ _ _ Hat) as (r1 & Hr1 & Hat1 & Hi1).
  unfold decode_delta. rewrite Hr1. cbn [obind]. rewrite u32_len_decode by done.
  destruct (decode_erase_at _ ∅ _ _ Hke Hne (λ k _, lookup_empty k) Hat1) as (r2 & -> & Hat2 & Hi2).
  destruct (read_len_at _ _ _ Hat2) as (r3 & Hr3 & Hat3 & Hi3).
  cbn [obind]. rewrite Hr3. cbn [obind]. rewrite u32_len_decode by done.
  edestruct decode_reinstate_at as (r4 & -> & Hat4 & Hi4); [exact Hkr|exact Hnr| |exact Hat3|].
  { intros k Hk%Hdis. rewrite (right_id_L ∅ (∪)). apply not_elem_of_list_to_map_1.
    by rewrite <-list_fmap_compose, list_fmap_id. }
  exists r4. split_and!; [|done|congruence]. cbn [obind]. do 3 f_equal.
  rewrite (right_id_L ∅ (∪)), <-list_to_map_app. apply list_to_map_proper; [|apply split_entries].
  by rewrite split_entries.
Qed.

(** The rollback log gives back the deltas it was given.  Whatever the order in
    which the entries of a delta are visited, decoding its encoding, wherever it
    stands in a buffer, succeeds with the same prior values and consumes exactly
    the encoding. *)
Theorem delta_roundtrip (d : Delta) (entries : list (KeyPath * option (list u8)))
    (before after : list u8) :
  entries ≡ₚ map_to_list (priors d) → delta_ok entries →
  decode_delta {| c_inner := before ++ encode_entries entries ++ after; c_pos := length before |} =
    Ok (d, {| c_inner := before ++ encode_entries entries ++ after;
              c_pos := length before + length (encode_entries entries) |}).
Proof.
  intros Hp Hok. set (inner := before ++ _).
  assert (Hnd : NoDup entries.*1) by (rewrite Hp; apply NoDup_fst_map_to_list).
  destruct (decode_encode_at entries {| c_inner := inner; c_pos := length before |} after)
    as (r & -> & [Hle Hd] & Hi); [done|done| |].
  - split; [|apply drop_app_length]. subst inner. simpl. rewrite length_app. lia.
  - rewrite (list_to_map_proper _ _ Hnd Hp), list_to_map_to_list.
    destruct d, r as [ri rp]. cbn [c_inner c_pos] in *. subst ri.
    apply (f_equal length) in Hd. rewrite length_drop in Hd. subst inner.
    rewrite !length_app in Hd, Hle. do 3 f_equal. lia.
Qed.

(** ** An instance *)

Definition sample_delta : Delta :=
  {| priors := {[ replicate 32 x01 := Some [x76; x31]; replicate 32 x02 := None;
                  replicate 32 x03 := Some [] ]} |}.

Lemma delta_roundtrip_witness :
  decode_delta (Cursor_new (encode_delta sample_delta)) =
    Ok (sample_delta, {| c_inner := encode_delta sample_delta; c_pos := 114 |}).
Proof.
  pose proof (delta_roundtrip sample_delta (map_to_list (priors sample_delta)) [] [] (reflexivity _)) as H.
  unfold encode_delta in *. rewrite app_nil_r in H. apply H.
  let l := eval vm_compute in (map_to_list (priors sample_delta)) in
    replace (map_to_list (priors sample_delta)) with l by (vm_compute; reflexivity).
  split; [split; vm_compute; congruence|].
  repeat (constructor; [split; [reflexivity|first [exact I|split; vm_compute; congruence]]|]). constructor.
Defined.
