(* ===== verification/Overlay.v ===== *)
(** * In-memory overlays

    Models [nomt/src/overlay.rs], and the session and commit operations of
    [nomt/src/lib.rs] that create, use and consume overlays.

    An overlay shares its data with its descendants through reference counted
    pointers.  The heap of the model has the [Data] objects and the status cells;
    a pointer is an index into the heap.  A weak pointer can be upgraded as long as
    the object was not dropped, and an object is dropped as soon as no overlay,
    session or finished session refers to it. *)

From S2P Require Import Prelude Trie PageId PageDiff BitboxSync Delta.

#[local] Open Scope nat_scope.

#[global] Instance PageId_countable : Countable PageId.
Proof. by apply (inj_countable' path (λ p, {| path := p |})); intros []. Defined.

(** ** Value changes *)

Inductive ValueChange :=
| Delete
| Insert (v : list u8)
| InsertOverflow (v : list u8) (value_hash : ValueHash).

Definition MAX_LEAF_VALUE_SIZE : nat := 4094 / 3 - 32.

Section value_change.
Context (hash_value : list u8 → ValueHash).

Definition change_insert (v : list u8) : ValueChange :=
  if MAX_LEAF_VALUE_SIZE <? length v then InsertOverflow v (hash_value v) else Insert v.

Definition change_from_option (maybe_value : option (list u8)) : ValueChange :=
  match maybe_value with
  | None => Delete
  | Some v => change_insert v
  end.
End value_change.

Definition as_option (self : ValueChange) : option (list u8) :=
  match self with
  | Delete => None
  | Insert v | InsertOverflow v _ => Some v
  end.

(** ** The index *)

Record Index := {
  ix_pages : gmap PageId Z;
  ix_values : gmap KeyPath Z;
  ix_pages_by_seqn : list (Z * PageId);
  ix_values_by_seqn : list (Z * KeyPath);
}.

Definition Index_default : Index :=
  {| ix_pages := ∅; ix_values := ∅; ix_pages_by_seqn := []; ix_values_by_seqn := [] |}.

(** One of the two loops of [prune_below]. *)
Fixpoint prune_loop `{Countable K} (min : Z) (m : gmap K Z) (by_seqn : list (Z * K)) :
    gmap K Z * list (Z * K) :=
  match by_seqn with
  | [] => (m, [])
  | (seqn, k) :: rest =>
      if (min <=? seqn)%Z then (m, by_seqn)
      else
        let removed := m !! k in
        let m := delete k m in
        match removed with
        | Some got_seqn =>
            if negb (got_seqn =? seqn)%Z && (min <=? got_seqn)%Z
            then prune_loop min (<[k := got_seqn]> m) rest
            else prune_loop min m rest
        | None => prune_loop min m rest
        end
  end.

Definition prune_below (self : Index) (min : Z) : Index :=
  let '(pages, pages_by_seqn) := prune_loop min (ix_pages self) (ix_pages_by_seqn self) in
  let '(values, values_by_seqn) := prune_loop min (ix_values self) (ix_values_by_seqn self) in
  {| ix_pages := pages; ix_values := values;
     ix_pages_by_seqn := pages_by_seqn; ix_values_by_seqn := values_by_seqn |}.

(** The loop of [insert_pages] and of [insert_values]. *)
Definition insert_loop `{Countable K} (seqn : Z) (keys : list K) (m : gmap K Z)
    (by_seqn : list (Z * K)) : gmap K Z * list (Z * K) :=
  foldl (λ st k, (<[k := seqn]> st.1, st.2 ++ [(seqn, k)])) (m, by_seqn) keys.

Definition insert_pages (self : Index) (seqn : Z) (page_ids : list PageId) : Index :=
  let '(pages, pages_by_seqn) := insert_loop seqn page_ids (ix_pages self) (ix_pages_by_seqn self) in
  {| ix_pages := pages; ix_values := ix_values self;
     ix_pages_by_seqn := pages_by_seqn; ix_values_by_seqn := ix_values_by_seqn self |}.

Definition insert_values (self : Index) (seqn : Z) (value_keys : list KeyPath) : Index :=
  let '(values, values_by_seqn) := insert_loop seqn value_keys (ix_values self) (ix_values_by_seqn self) in
  {| ix_pages := ix_pages self; ix_values := values;
     ix_pages_by_seqn := ix_pages_by_seqn self; ix_values_by_seqn := values_by_seqn |}.

(** ** Data, status cells and the heap *)

Definition LIVE : nat := 0.
Definition DROPPED : nat := 1.
Definition COMMITTED : nat := 2.

Record Data := {
  d_pages : gmap PageId DirtyPage;
  d_values : gmap KeyPath ValueChange;
  d_status : nat;
  d_parent_status : option nat;
}.

Record heap := { statuses : list nat; datas : list Data; dropped : gset nat }.

Definition new_live (h : heap) : nat * heap :=
  (length (statuses h),
   {| statuses := statuses h ++ [LIVE]; datas := datas h; dropped := dropped h |}).

Definition store_status (h : heap) (s v : nat) : heap :=
  {| statuses := <[s := v]> (statuses h); datas := datas h; dropped := dropped h |}.

Definition status_commit (h : heap) (s : nat) : heap := store_status h s COMMITTED.

Definition status_drop (h : heap) (s : nat) : heap :=
  if bool_decide (statuses h !! s = Some LIVE) then store_status h s DROPPED else h.

Definition is_committed (h : heap) (s : nat) : bool := bool_decide (statuses h !! s = Some COMMITTED).

Definition new_data (h : heap) (d : Data) : nat * heap :=
  (length (datas h),
   {| statuses := statuses h; datas := datas h ++ [d]; dropped := dropped h |}).

(** The last strong pointer to a [Data] is gone. *)
Definition drop_data (h : heap) (a : nat) : heap :=
  match datas h !! a with
  | Some d =>
      let h := status_drop h (d_status d) in
      {| statuses := statuses h; datas := datas h; dropped := {[ a ]} ∪ dropped h |}
  | None => h
  end.

(** [Weak::upgrade] succeeds. *)
Definition upgrade (h : heap) (a : nat) : bool := bool_decide (a ∉ dropped h).

(** ** Overlays *)

Record OverlayInner := {
  o_prev_root : Node;
  o_root : Node;
  o_index : Index;
  o_data : nat;
  o_seqn : Z;
  o_ancestor_data : list nat;
  o_rollback_delta : option Delta;
}.

(** Is the parent of the overlay the marked one?  An overlay without a parent
    matches every marker. *)
Definition parent_matches_marker (h : heap) (self : OverlayInner) (marker : option nat) : option bool :=
  let? d := datas h !! o_data self in
  Some match d_parent_status d, marker with
       | None, _ => true
       | Some parent, Some marker => parent =? marker
       | _, _ => false
       end.

Definition mark_committed (h : heap) (self : OverlayInner) : option (nat * heap) :=
  let? d := datas h !! o_data self in
  let status := d_status d in
  Some (status, status_commit h status).

(** ** Live overlays *)

Inductive InvalidAncestors := NotAncestor | Incomplete.

Record LiveOverlay := {
  parent : option OverlayInner;
  ancestor_data : list nat;
  min_seqn : Z;
}.

Definition LiveOverlay_empty : LiveOverlay :=
  {| parent := None; ancestor_data := []; min_seqn := 0 |}.

(** The loop over the zipped supposed and actual ancestors. *)
Fixpoint check_ancestors (h : heap) (supposed : list OverlayInner) (actual : list nat) :
    outcome InvalidAncestors (list nat) :=
  match supposed, actual with
  | supposed_ancestor :: supposed, actual_ancestor :: actual =>
      if negb (upgrade h actual_ancestor) then Err Incomplete
      else if negb (o_data supposed_ancestor =? actual_ancestor) then Err NotAncestor
      else
        let! rest := check_ancestors h supposed actual in
        Ok (actual_ancestor :: rest)
  | _, _ => Ok []
  end.

(** [checked_sub], and [-] on machine integers, where [None] is the panic. *)
Definition checked_sub (a b : Z) : option Z := if (b <=? a)%Z then Some (a - b)%Z else None.

Definition LiveOverlay_new (h : heap) (live_ancestors : list OverlayInner) :
    outcome InvalidAncestors LiveOverlay :=
  match live_ancestors with
  | [] => Ok LiveOverlay_empty
  | p :: live_ancestors =>
      let! ancestors := check_ancestors h live_ancestors (o_ancestor_data p) in
      let! oldest := or_panic (datas h !! default (o_data p) (last ancestors)) in
      if match d_parent_status oldest with Some s => negb (is_committed h s) | None => false end
      then Err Incomplete
      else
        let! min := or_panic (checked_sub (o_seqn p) (Z.of_nat (length ancestors))) in
        Ok {| parent := Some p; ancestor_data := ancestors; min_seqn := min |}
  end.

(** The [Data] that has the entries of sequence number [min_seqn + seqn_diff]. *)
Definition data_at (h : heap) (self : LiveOverlay) (seqn_diff : Z) : option Data :=
  let n := length (ancestor_data self) in
  let diff := Z.to_nat seqn_diff in
  if diff =? n then
    let? p := parent self in
    datas h !! o_data p
  else if n <? diff + 1 then None
  else
    let? a := ancestor_data self !! (n - diff - 1) in
    datas h !! a.

(** The sequence number an index gives, relative to the oldest ancestor. *)
Definition seqn_diff (self : LiveOverlay) (seqn : option Z) : option Z :=
  seqn ≫= λ seqn, checked_sub seqn (min_seqn self).

Definition live_page (h : heap) (self : LiveOverlay) (page_id : PageId) : option (option DirtyPage) :=
  match seqn_diff self (parent self ≫= λ p, ix_pages (o_index p) !! page_id) with
  | None => Some None
  | Some diff =>
      let? d := data_at h self diff in
      let? page := d_pages d !! page_id in
      Some (Some page)
  end.

Definition value_inner (h : heap) (self : LiveOverlay) (key : KeyPath) (diff : Z) : option ValueChange :=
  let? d := data_at h self diff in
  d_values d !! key.

Definition live_value (h : heap) (self : LiveOverlay) (key : KeyPath) : option (option ValueChange) :=
  match seqn_diff self (parent self ≫= λ p, ix_values (o_index p) !! key) with
  | None => Some None
  | Some diff =>
      let? v := value_inner h self key diff in
      Some (Some v)
  end.

(** The entries of an ordered map, and those from [start] on. *)
Definition key_le {V} (a b : KeyPath * V) : Prop := bytes_compare a.1 b.1 ≠ Gt.
#[global] Instance key_le_dec {V} (a b : KeyPath * V) : Decision (key_le a b).
Proof. unfold key_le. apply _. Defined.

Definition ord_entries {V} (m : gmap KeyPath V) : list (KeyPath * V) := merge_sort key_le (map_to_list m).

Definition range_from {V} (m : gmap KeyPath V) (start : KeyPath) : list (KeyPath * V) :=
  filter (λ kv, ¬ bytes_lt kv.1 start) (ord_entries m).

Definition before_end (end_ : option KeyPath) (k : KeyPath) : bool :=
  match end_ with None => true | Some e => bytes_ltb k e end.

Definition value_iter (h : heap) (self : LiveOverlay) (start : KeyPath) (end_ : option KeyPath) :
    option (list (KeyPath * ValueChange)) :=
  match parent self with
  | None => Some []
  | Some p =>
      let entries := take_while (λ kv : KeyPath * Z, before_end end_ kv.1)
                       (range_from (ix_values (o_index p)) start) in
      let entries := omap (λ kv : KeyPath * Z,
                       diff ← checked_sub kv.2 (min_seqn self); Some (kv.1, diff)) entries in
      mapM (λ kv : KeyPath * Z, v ← value_inner h self kv.1 kv.2; Some (kv.1, v)) entries
  end.

(** Entries of a hash map have no order; the index is the same for each of them up
    to the order of entries with one sequence number. *)
Definition finish (h : heap) (self : LiveOverlay) (prev_root root : Node)
    (page_changes : gmap PageId DirtyPage) (value_changes : gmap KeyPath ValueChange)
    (rollback_delta : option Delta) : option (OverlayInner * heap) :=
  let? new_seqn :=
    match parent self with
    | None => Some 0%Z
    | Some p => if (o_seqn p + 1 <? 2 ^ 64)%Z then Some (o_seqn p + 1)%Z else None
    end in
  let index := match parent self with None => Index_default | Some p => o_index p end in
  let index := prune_below index (min_seqn self) in
  let index := insert_pages index new_seqn (map_to_list page_changes).*1 in
  let index := insert_values index new_seqn (map_to_list value_changes).*1 in
  let? parent_status :=
    match parent self with
    | None => Some None
    | Some p => let? d := datas h !! o_data p in Some (Some (d_status d))
    end in
  let ancestors :=
    match parent self with
    | None => []
    | Some p => o_data p :: ancestor_data self
    end in
  let '(status, h) := new_live h in
  let '(data, h) := new_data h {| d_pages := page_changes; d_values := value_changes;
                                  d_status := status; d_parent_status := parent_status |} in
  Some ({| o_prev_root := prev_root; o_root := root; o_index := index; o_data := data;
           o_seqn := new_seqn; o_ancestor_data := ancestors; o_rollback_delta := rollback_delta |}, h).

Definition parent_root (self : LiveOverlay) : option Node :=
  match parent self with None => None | Some p => Some (o_root p) end.

(** ** Sessions and commits *)

Inductive KeyReadWrite :=
| Read (value : option (list u8))
| Write (value : option (list u8))
| ReadThenWrite (prior value : option (list u8)).

Record Session := { s_overlay : LiveOverlay; s_prev_root : Node }.

Record FinishedSession := {
  f_value_transaction : list (KeyPath * ValueChange);
  f_root : Node;
  f_updated_pages : bool → list (PageId * DirtyPage);
  f_rollback_delta : option Delta;
  f_parent_overlay : LiveOverlay;
  f_prev_root : Node;
}.

Record Shared := { sh_root : Node; sh_last_commit_marker : option nat }.

Inductive CommitError :=
| ParentNotCommitted
| NoLongerValid (expected got : Node)
| RollbackFailed
| StoreFailed.

Definition begin_session (shared : Shared) (overlay : LiveOverlay) : Session :=
  {| s_overlay := overlay; s_prev_root := default (sh_root shared) (parent_root overlay) |}.

(** [load_value] is the result of the look-up in the store. *)
Definition session_read {E} (h : heap) (load_value : KeyPath → outcome E (option (list u8)))
    (self : Session) (path : KeyPath) : outcome E (option (list u8)) :=
  let! change := or_panic (live_value h (s_overlay self) path) in
  match change with
  | Some value_change => Ok (as_option value_change)
  | None => load_value path
  end.

(** The assertion of debug builds on the keys given to [finish]. *)
Fixpoint actuals_sorted (actuals : list (KeyPath * KeyReadWrite)) : bool :=
  match actuals with
  | a :: (b :: _) as rest => bytes_ltb a.1 b.1 && actuals_sorted rest
  | _ => true
  end.

(** The writes of the session as a transaction. *)
Definition value_tx (hash_value : list u8 → ValueHash) (actuals : list (KeyPath * KeyReadWrite)) :
    list (KeyPath * ValueChange) :=
  omap (λ a : KeyPath * KeyReadWrite,
    match a.2 with
    | Write value | ReadThenWrite _ value => Some (a.1, change_from_option hash_value value)
    | Read _ => None
    end) actuals.

(** [root] and [updated_pages] are the output of the merkle update of the session,
    [rollback_delta] that of the delta builder. *)
Definition session_finish (hash_value : list u8 → ValueHash) (self : Session)
    (actuals : list (KeyPath * KeyReadWrite)) (root : Node)
    (updated_pages : bool → list (PageId * DirtyPage)) (rollback_delta : option Delta) :
    option FinishedSession :=
  let? _ := oassert (actuals_sorted actuals) in
  Some {| f_value_transaction := value_tx hash_value actuals; f_root := root;
          f_updated_pages := updated_pages; f_rollback_delta := rollback_delta;
          f_parent_overlay := s_overlay self; f_prev_root := s_prev_root self |}.

(** [collect] into a hash map. *)
Definition hash_collect `{Countable K} {V} (l : list (K * V)) : gmap K V :=
  foldl (λ m kv, <[kv.1 := kv.2]> m) ∅ l.

Definition into_overlay (h : heap) (self : FinishedSession) : option (OverlayInner * heap) :=
  let updated_pages := hash_collect (f_updated_pages self true) in
  let values := hash_collect (f_value_transaction self) in
  finish h (f_parent_overlay self) (f_prev_root self) (f_root self) updated_pages values
    (f_rollback_delta self).

Section commits.
(** The results of [Rollback::commit] and of [Store::commit]. *)
Context (rollback_commit : Delta → outcome CommitError ()).
Context (store_commit : list (KeyPath * ValueChange) → list (PageId * DirtyPage) → outcome CommitError ()).

Definition commit_store (delta : option Delta) (values : list (KeyPath * ValueChange))
    (pages : list (PageId * DirtyPage)) : outcome CommitError () :=
  let! _ := match delta with Some delta => rollback_commit delta | None => Ok () end in
  store_commit values pages.

Definition finished_commit (shared : Shared) (self : FinishedSession) : Shared * outcome CommitError () :=
  if bool_decide (sh_root shared = f_prev_root self) then
    ({| sh_root := f_root self; sh_last_commit_marker := None |},
     commit_store (f_rollback_delta self) (f_value_transaction self) (f_updated_pages self false))
  else (shared, Err (NoLongerValid (f_prev_root self) (sh_root shared))).

Definition overlay_commit (h : heap) (shared : Shared) (self : OverlayInner) :
    heap * Shared * outcome CommitError () :=
  match parent_matches_marker h self (sh_last_commit_marker shared), datas h !! o_data self,
        mark_committed h self with
  | Some matches, Some d, Some (marker, h') =>
      if negb matches then (h, shared, Err ParentNotCommitted)
      else
        let page_changes := map_to_list (d_pages d) in
        let values := map_to_list (d_values d) in
        if bool_decide (sh_root shared = o_prev_root self) then
          (h', {| sh_root := o_root self; sh_last_commit_marker := Some marker |},
           commit_store (o_rollback_delta self) values page_changes)
        else (h', shared, Err (NoLongerValid (o_prev_root self) (sh_root shared)))
  | _, _, _ => (h, shared, Panic)
  end.
End commits.

(** ** The program as a whole *)

(** The heap, the shared state of the database, and the objects the user holds. *)
Record world := {
  w_heap : heap;
  w_shared : Shared;
  w_overlays : list OverlayInner;
  w_sessions : list Session;
  w_finished : list FinishedSession;
}.

Inductive op :=
| OpBegin (ids : list nat)
| OpFinish (i : nat) (actuals : list (KeyPath * KeyReadWrite)) (root : Node)
    (updated_pages : bool → list (PageId * DirtyPage)) (delta : option Delta)
| OpIntoOverlay (i : nat)
| OpCommitFinished (i : nat)
| OpCommitOverlay (i : nat)
| OpDropOverlay (i : nat)
| OpDropSession (i : nat)
| OpDropFinished (i : nat).

(** The strong pointers to [Data] objects. *)
Definition live_refs (l : LiveOverlay) : list nat :=
  match parent l with Some p => [o_data p] | None => [] end ++ ancestor_data l.

Definition strong_refs (w : world) : list nat :=
  (o_data <$> w_overlays w) ++ (w_sessions w ≫= λ s, live_refs (s_overlay s)) ++
  (w_finished w ≫= λ f, live_refs (f_parent_overlay f)).

Definition set_heap (w : world) (h : heap) : world :=
  {| w_heap := h; w_shared := w_shared w; w_overlays := w_overlays w;
     w_sessions := w_sessions w; w_finished := w_finished w |}.

(** Objects without a strong pointer are dropped. *)
Definition collect (w : world) : world :=
  set_heap w
    (foldl (λ h a, if bool_decide (a ∈ strong_refs w) || bool_decide (a ∈ dropped h) then h
                   else drop_data h a)
       (w_heap w) (seq 0 (length (datas (w_heap w))))).

Section world.
Context (hash_value : list u8 → ValueHash).
Context (rollback_commit : Delta → outcome CommitError ()).
Context (store_commit : list (KeyPath * ValueChange) → list (PageId * DirtyPage) → outcome CommitError ()).

(** [None]: the operation panics, or names an object the user does not hold.  The
    operations consume what they are called on, also when they fail. *)
Definition exec (o : op) (w : world) : option world :=
  let '{| w_heap := h; w_shared := sh; w_overlays := ovs; w_sessions := ss; w_finished := fs |} := w in
  match o with
  | OpBegin ids =>
      let? ancestors := mapM (λ i, ovs !! i) ids in
      match LiveOverlay_new h ancestors with
      | Ok l =>
          Some {| w_heap := h; w_shared := sh; w_overlays := ovs;
                  w_sessions := ss ++ [begin_session sh l]; w_finished := fs |}
      | Err _ => Some w
      | Panic => None
      end
  | OpFinish i actuals root updated_pages delta =>
      let? s := ss !! i in
      let? f := session_finish hash_value s actuals root updated_pages delta in
      Some {| w_heap := h; w_shared := sh; w_overlays := ovs;
              w_sessions := delete i ss; w_finished := fs ++ [f] |}
  | OpIntoOverlay i =>
      let? f := fs !! i in
      let? (ov, h) := into_overlay h f in
      Some (collect {| w_heap := h; w_shared := sh; w_overlays := ovs ++ [ov];
                       w_sessions := ss; w_finished := delete i fs |})
  | OpCommitFinished i =>
      let? f := fs !! i in
      match finished_commit rollback_commit store_commit sh f with
      | (_, Panic) => None
      | (sh, _) => Some (collect {| w_heap := h; w_shared := sh; w_overlays := ovs;
                                    w_sessions := ss; w_finished := delete i fs |})
      end
  | OpCommitOverlay i =>
      let? ov := ovs !! i in
      match overlay_commit rollback_commit store_commit h sh ov with
      | (_, _, Panic) => None
      | (h, sh, _) => Some (collect {| w_heap := h; w_shared := sh; w_overlays := delete i ovs;
                                       w_sessions := ss; w_finished := fs |})
      end
  | OpDropOverlay i =>
      let? _ := ovs !! i in
      Some (collect {| w_heap := h; w_shared := sh; w_overlays := delete i ovs;
                       w_sessions := ss; w_finished := fs |})
  | OpDropSession i =>
      let? _ := ss !! i in
      Some (collect {| w_heap := h; w_shared := sh; w_overlays := ovs;
                       w_sessions := delete i ss; w_finished := fs |})
  | OpDropFinished i =>
      let? _ := fs !! i in
      Some (collect {| w_heap := h; w_shared := sh; w_overlays := ovs;
                       w_sessions := ss; w_finished := delete i fs |})
  end.

Fixpoint run (os : list op) (w : world) : option world :=
  match os with
  | [] => Some w
  | o :: os => let? w := exec o w in run os w
  end.

Definition init (root : Node) : world :=
  {| w_heap := {| statuses := []; datas := []; dropped := ∅ |};
     w_shared := {| sh_root := root; sh_last_commit_marker := None |};
     w_overlays := []; w_sessions := []; w_finished := [] |}.

Definition reachable (w : world) : Prop := ∃ root os, run os (init root) = Some w.
End world.

(** ** What an overlay contains

    The changes of an overlay and of its ancestors, newest first: the change of a key
    is that of the first one that has the key. *)

Section chains.
Context `{Countable K} {A : Type}.

Fixpoint newest (chain : list (gmap K A)) (k : K) : option A :=
  match chain with
  | [] => None
  | d :: chain => match d !! k with Some x => Some x | None => newest chain k end
  end.

(** The sequence number of the first one that has the key, when that of the newest
    is [seqn]. *)
Fixpoint newest_seqn (chain : list (gmap K A)) (seqn : Z) (k : K) : option Z :=
  match chain with
  | [] => None
  | d :: chain => match d !! k with Some _ => Some seqn | None => newest_seqn chain (seqn - 1) k end
  end.

Definition at_least (min : Z) (s : option Z) : option Z :=
  s ≫= λ s, if (min <=? s)%Z then Some s else None.

Definition seqn_sorted : list (Z * K) → Prop := StronglySorted (λ a b, (a.1 ≤ b.1)%Z).

(** The index of a chain: the look-up, and the log that is used to prune it. *)
Record index_ok (m : gmap K Z) (by_seqn : list (Z * K)) (chain : list (gmap K A)) (seqn : Z) : Prop := {
  ixo_map : ∀ k, m !! k = newest_seqn chain seqn k;
  ixo_listed : ∀ k s, m !! k = Some s → (s, k) ∈ by_seqn;
  ixo_sorted : seqn_sorted by_seqn;
  ixo_bound : Forall (λ e : Z * K, (e.1 ≤ seqn)%Z) by_seqn;
}.

Lemma newest_seqn_take n chain seqn k :
  newest_seqn (take (S n) chain) seqn k = at_least (seqn - Z.of_nat n) (newest_seqn chain seqn k).
Proof.
  revert n seqn. induction chain as [|d chain IH]; intros n seqn; [done|].
  cbn [take newest_seqn]. destruct (d !! k) as [x|] eqn:E.
  { simpl. by rewrite (proj2 (Z.leb_le _ _)) by lia. }
  destruct n as [|n].
  - clear IH. rewrite take_0. simpl. assert (Hs : (seqn - 1 < seqn - 0)%Z) by lia.
    revert Hs. generalize (seqn - 1)%Z. induction chain as [|d' chain IH]; intros s Hs; [done|].
    simpl. destruct (d' !! k); simpl; [by rewrite (proj2 (Z.leb_gt _ _)) by lia|]. apply IH. lia.
  - rewrite IH. f_equal. lia.
Qed.

Lemma newest_seqn_le chain seqn k s : newest_seqn chain seqn k = Some s → (s ≤ seqn)%Z.
Proof.
  revert seqn. induction chain as [|d chain IH]; intros seqn; simpl; [done|].
  destruct (d !! k); [intros [= ->]; lia|]. intros ?%IH. lia.
Qed.

(** The sequence number is the position in the chain. *)
Lemma newest_seqn_Some chain seqn k s :
  newest_seqn chain seqn k = Some s →
  ∃ i d x, chain !! i = Some d ∧ d !! k = Some x ∧ s = (seqn - Z.of_nat i)%Z ∧
    ∀ n, newest (take n chain) k = if i <? n then Some x else None.
Proof.
  revert seqn. induction chain as [|d chain IH]; intros seqn; simpl; [done|].
  destruct (d !! k) as [x|] eqn:E.
  - intros [= <-]. exists 0, d, x. split_and!; [done|done|lia|]. intros [|n]; [done|].
    simpl. by rewrite E.
  - intros (i & d' & x & Hi & Hx & -> & Hn)%IH. exists (S i), d', x. split_and!; [done|done|lia|].
    intros [|n]; [done|]. simpl. by rewrite E, Hn.
Qed.

Lemma newest_seqn_None chain seqn k n : newest_seqn chain seqn k = None → newest (take n chain) k = None.
Proof.
  revert seqn n. induction chain as [|d chain IH]; intros seqn [|n]; simpl; try done.
  destruct (d !! k) as [x|] eqn:E; [done|]. apply IH.
Qed.

Lemma seqn_sorted_filter P `{∀ x, Decision (P x)} l : seqn_sorted l → seqn_sorted (filter P l).
Proof.
  induction 1 as [|x l Hl IH Hx]; [constructor|]. rewrite filter_cons. case_decide; [|done].
  constructor; [done|]. by apply Forall_filter_mono.
Qed.

Lemma prune_loop_spec min m l m' l' :
  seqn_sorted l → (∀ k s, m !! k = Some s → (s, k) ∈ l) → prune_loop min m l = (m', l') →
  (∀ k, m' !! k = at_least min (m !! k)) ∧ l' = filter (λ e : Z * K, (min ≤ e.1)%Z) l.
Proof.
  intros Hs. revert m. induction Hs as [|[seqn k] l Hl IH Hx]; intros m Hm; cbn [prune_loop].
  { intros [= <- <-]. split; [|done]. intros k. destruct (m !! k) eqn:E; [|done].
    by apply Hm, not_elem_of_nil in E. }
  destruct (Z.leb_spec min seqn).
  { intros [= <- <-].
    assert (Hall : Forall (λ e : Z * K, (min ≤ e.1)%Z) ((seqn, k) :: l)).
    { constructor; [done|]. eapply Forall_impl; [exact Hx|]. simpl. intros. lia. }
    split; [|by rewrite filter_all]. intros k'. destruct (m !! k') as [s|] eqn:E; [|done].
    apply Hm in E. rewrite Forall_forall in Hall. apply Hall in E. simpl in *.
    by rewrite (proj2 (Z.leb_le _ _)). }
  rewrite filter_cons. rewrite decide_False by (simpl; lia). intros Hp.
  assert (Hrest : ∀ m1, prune_loop min m1 l = (m', l') →
    (∀ k', m1 !! k' = if decide (k' = k) then at_least min (m !! k) else m !! k') →
    (∀ k', m' !! k' = at_least min (m !! k')) ∧ l' = filter (λ e : Z * K, (min ≤ e.1)%Z) l).
  { intros m1 Hp1 Hm1. destruct (IH m1) as [H1 H2]; [|done|].
    - intros k' s. rewrite Hm1. case_decide as Hk.
      + subst k'. destruct (m !! k) as [s'|] eqn:E; [|done]. simpl.
        destruct (Z.leb_spec min s'); [|done]. intros [= <-].
        apply Hm, elem_of_cons in E as [[= ->]|?]; [lia|done].
      + intros E. apply Hm, elem_of_cons in E as [[= -> ->]|?]; done.
    - split; [|done]. intros k'. rewrite H1, Hm1. case_decide as Hk; [|done]. subst k'.
      destruct (m !! k) as [s'|]; [|done]. simpl. destruct (Z.leb_spec min s'); [|done].
      simpl. by rewrite (proj2 (Z.leb_le _ _)). }
  destruct (m !! k) as [got|] eqn:E.
  - destruct (Z.eqb_spec got seqn), (Z.leb_spec min got); simpl in Hp; try lia;
      apply (Hrest _ Hp); intros k'; case_decide as Hk; try subst k';
      rewrite ?E; simpl; rewrite ?lookup_insert_eq, ?lookup_delete_eq, ?lookup_insert_ne,
        ?lookup_delete_ne by done; try done.
    + by rewrite (proj2 (Z.leb_gt _ _)) by lia.
    + by rewrite (proj2 (Z.leb_le _ _)) by lia.
    + by rewrite (proj2 (Z.leb_gt _ _)) by lia.
  - apply (Hrest _ Hp). intros k'. case_decide as Hk; [subst k'; by rewrite lookup_delete_eq|].
    by rewrite lookup_delete_ne.
Qed.

Lemma insert_loop_spec (seqn : Z) (keys : list K) (m : gmap K Z) (l : list (Z * K)) :
  (∀ k, (insert_loop seqn keys m l).1 !! k = if decide (k ∈ keys) then Some seqn else m !! k) ∧
  (insert_loop seqn keys m l).2 = l ++ ((λ k, (seqn, k)) <$> keys).
Proof.
  unfold insert_loop. revert m l. induction keys as [|k0 keys IH]; intros m l.
  { simpl. split; [done|]. by rewrite app_nil_r. }
  cbn [foldl fst snd]. destruct (IH (<[k0 := seqn]> m) (l ++ [(seqn, k0)])) as [H1 H2]. split.
  - intros k. rewrite H1. destruct (decide (k ∈ keys)) as [Hk|Hk].
    + by rewrite decide_True by (by right).
    + destruct (decide (k = k0)) as [->|Hne].
      * rewrite decide_True by left. by rewrite lookup_insert_eq.
      * rewrite decide_False by (rewrite elem_of_cons; naive_solver). by rewrite lookup_insert_ne.
  - rewrite H2, fmap_cons, <-app_assoc. done.
Qed.

(** Building a new overlay on the [S n] newest ones of a chain. *)
Lemma index_ok_finish m l chain seqn n m' l' (d : gmap K A) :
  index_ok m l chain seqn → prune_loop (seqn - Z.of_nat n) m l = (m', l') →
  index_ok (insert_loop (seqn + 1) (map_to_list d).*1 m' l').1
    (insert_loop (seqn + 1) (map_to_list d).*1 m' l').2 (d :: take (S n) chain) (seqn + 1).
Proof.
  intros [Hm Hl Hs Hb] Hp. destruct (prune_loop_spec _ _ _ _ _ Hs Hl Hp) as [Hm' ->].
  destruct (insert_loop_spec (seqn + 1) (map_to_list d).*1 m'
              (filter (λ e : Z * K, (seqn - Z.of_nat n ≤ e.1)%Z) l)) as [H1 H2].
  assert (Hk : ∀ k, k ∈ (map_to_list d).*1 ↔ is_Some (d !! k)).
  { intros k. rewrite list_elem_of_fmap. split.
    - intros ([k' x] & -> & Hx%elem_of_map_to_list). by exists x.
    - intros [x Hx]. exists (k, x). by rewrite elem_of_map_to_list. }
  split.
  - intros k. rewrite H1. cbn [newest_seqn]. rewrite Z.add_simpl_r, newest_seqn_take, <-Hm, <-Hm'.
    destruct (d !! k) as [x|] eqn:E; [rewrite decide_True by (by apply Hk; exists x)|
      rewrite decide_False by (rewrite Hk, E; by intros [? ?])]; done.
  - intros k s. rewrite H1, H2, elem_of_app. destruct (decide _) as [Hin|_].
    + intros [= <-]. right. apply list_elem_of_fmap. by exists k.
    + rewrite Hm'. destruct (m !! k) as [s'|] eqn:E; [|done]. simpl.
      destruct (Z.leb_spec (seqn - Z.of_nat n) s'); [|done]. intros [= <-]. left.
      apply list_elem_of_filter. auto.
  - rewrite H2. apply StronglySorted_app. split_and!.
    + intros x1 x2 Hx1 Hx2. apply list_elem_of_filter in Hx1 as [_ Hx1].
      apply list_elem_of_fmap in Hx2 as (k & -> & _). rewrite Forall_forall in Hb.
      apply Hb in Hx1. simpl. lia.
    + by apply seqn_sorted_filter.
    + generalize (map_to_list d).*1. intros ks. induction ks as [|k ks IH]; constructor; [done|].
      apply Forall_forall. intros x (k' & -> & _)%list_elem_of_fmap. simpl. lia.
  - rewrite H2, Forall_app. split.
    + apply Forall_filter_mono. eapply Forall_impl; [exact Hb|]. simpl. intros. lia.
    + apply Forall_forall. intros x (k & -> & _)%list_elem_of_fmap. simpl. lia.
Qed.

Lemma index_ok_empty : index_ok ∅ [] [] (-1).
Proof. split; [done|done|constructor|constructor]. Qed.
End chains.

(** ** Well-formed overlays *)

Definition data_of (h : heap) (a : nat) : Data :=
  default {| d_pages := ∅; d_values := ∅; d_status := 0; d_parent_status := None |} (datas h !! a).

Definition chain_pages (h : heap) (ids : list nat) : list (gmap PageId DirtyPage) :=
  (λ a, d_pages (data_of h a)) <$> ids.
Definition chain_values (h : heap) (ids : list nat) : list (gmap KeyPath ValueChange) :=
  (λ a, d_values (data_of h a)) <$> ids.

Definition o_chain (o : OverlayInner) : list nat := o_data o :: o_ancestor_data o.

Record overlay_ok (h : heap) (o : OverlayInner) : Prop := {
  oo_ids : Forall (λ a, a < length (datas h)) (o_chain o);
  oo_seqn : (Z.of_nat (length (o_ancestor_data o)) ≤ o_seqn o < 2 ^ 64)%Z;
  oo_pages : index_ok (ix_pages (o_index o)) (ix_pages_by_seqn (o_index o))
               (chain_pages h (o_chain o)) (o_seqn o);
  oo_values : index_ok (ix_values (o_index o)) (ix_values_by_seqn (o_index o))
                (chain_values h (o_chain o)) (o_seqn o);
}.

Definition live_ok (h : heap) (l : LiveOverlay) : Prop :=
  match parent l with
  | None => ancestor_data l = [] ∧ min_seqn l = 0%Z
  | Some p =>
      overlay_ok h p ∧ ancestor_data l `prefix_of` o_ancestor_data p ∧
      min_seqn l = (o_seqn p - Z.of_nat (length (ancestor_data l)))%Z
  end.

Lemma data_of_lookup h a : a < length (datas h) → datas h !! a = Some (data_of h a).
Proof. intros [d Hd]%lookup_lt_is_Some. unfold data_of. by rewrite Hd. Qed.

(** Objects are never moved or changed, so that what refers to them stays as it is. *)
Lemma overlay_ok_mono h h' o : datas h `prefix_of` datas h' → overlay_ok h o → overlay_ok h' o.
Proof.
  intros [ext Hext] [H1 H2 H3 H4].
  assert (Hd : ∀ a, a ∈ o_chain o → data_of h' a = data_of h a).
  { intros a Ha. rewrite Forall_forall in H1. apply H1 in Ha. unfold data_of.
    by rewrite Hext, lookup_app_l. }
  assert (Hp : chain_pages h' (o_chain o) = chain_pages h (o_chain o)).
  { apply list_fmap_ext. intros i a Ha%list_elem_of_lookup_2. by rewrite Hd. }
  assert (Hv : chain_values h' (o_chain o) = chain_values h (o_chain o)).
  { apply list_fmap_ext. intros i a Ha%list_elem_of_lookup_2. by rewrite Hd. }
  split; [|done|by rewrite Hp|by rewrite Hv].
  eapply Forall_impl; [exact H1|]. rewrite Hext, length_app. simpl. lia.
Qed.

Lemma live_ok_mono h h' l : datas h `prefix_of` datas h' → live_ok h l → live_ok h' l.
Proof.
  unfold live_ok. destruct (parent l); [|done]. intros Hp (? & ? & ?).
  split_and!; [by eapply overlay_ok_mono|done|done].
Qed.

(** ** Looking up *)

Lemma live_refs_take l p :
  parent l = Some p → ancestor_data l `prefix_of` o_ancestor_data p →
  live_refs l = take (S (length (ancestor_data l))) (o_chain p).
Proof.
  intros Hp Hpre. unfold live_refs, o_chain. rewrite Hp. simpl. by rewrite prefix_take.
Qed.

Lemma data_at_spec h l p i a :
  parent l = Some p → live_refs l !! i = Some a →
  data_at h l (Z.of_nat (length (ancestor_data l)) - Z.of_nat i) = datas h !! a.
Proof.
  intros Hp. unfold live_refs, data_at. rewrite Hp. simpl. intros Hi.
  destruct i as [|i]; simpl in Hi.
  - injection Hi as <-. rewrite Z.sub_0_r, Nat2Z.id, Nat.eqb_refl. done.
  - pose proof (lookup_lt_Some _ _ _ Hi) as Hlt.
    rewrite <-Nat2Z.inj_sub, Nat2Z.id by lia.
    rewrite (proj2 (Nat.eqb_neq _ _)) by lia. rewrite (proj2 (Nat.ltb_ge _ _)) by lia.
    replace (length (ancestor_data l) - (length (ancestor_data l) - S i) - 1) with i by lia.
    by rewrite Hi.
Qed.

(** The look-up through an index finds the object of the chain that has the newest
    change of the key, if there is one. *)
Lemma look_up h l p `{Countable K} {A} (f : Data → gmap K A) m by_seqn k :
  parent l = Some p → live_ok h l →
  index_ok m by_seqn ((λ a, f (data_of h a)) <$> o_chain p) (o_seqn p) →
  match seqn_diff l (m !! k) with
  | None => newest ((λ a, f (data_of h a)) <$> live_refs l) k = None
  | Some diff => ∃ d x, data_at h l diff = Some d ∧ f d !! k = Some x ∧
      newest ((λ a, f (data_of h a)) <$> live_refs l) k = Some x
  end.
Proof.
  intros Hp Hl Hix. unfold live_ok in Hl. rewrite Hp in Hl. destruct Hl as (Ho & Hpre & Hmin).
  rewrite (live_refs_take _ _ Hp Hpre), fmap_take, (ixo_map _ _ _ _ Hix k).
  destruct (newest_seqn _ (o_seqn p) k) as [s|] eqn:E; cbn [seqn_diff mbind option_bind].
  2: { by eapply newest_seqn_None. }
  apply newest_seqn_Some in E as (i & d & x & Hi & Hx & -> & Hn). unfold checked_sub.
  rewrite Hn, Hmin. set (n := length (ancestor_data l)).
  destruct (Z.leb_spec (o_seqn p - Z.of_nat n) (o_seqn p - Z.of_nat i)).
  2: { by rewrite (proj2 (Nat.ltb_ge _ _)) by lia. }
  rewrite (proj2 (Nat.ltb_lt _ _)) by lia.
  replace (o_seqn p - Z.of_nat i - (o_seqn p - Z.of_nat n))%Z with (Z.of_nat n - Z.of_nat i)%Z by lia.
  rewrite list_lookup_fmap in Hi. destruct (o_chain p !! i) as [a|] eqn:Ea; [|done].
  injection Hi as <-. exists (data_of h a), x. split_and!; [|done|done].
  subst n. rewrite (data_at_spec h l p i a Hp).
  - apply data_of_lookup. eapply (Forall_lookup_1 _ _ _ _ (oo_ids _ _ Ho) Ea).
  - rewrite (live_refs_take _ _ Hp Hpre), lookup_take_lt by lia. done.
Qed.

Lemma live_refs_empty h l : parent l = None → live_ok h l → live_refs l = [].
Proof. unfold live_ok, live_refs. intros ->. by intros [-> _]. Qed.

Lemma live_value_spec h l k :
  live_ok h l → live_value h l k = Some (newest (chain_values h (live_refs l)) k).
Proof.
  intros Hl. unfold live_value. destruct (parent l) as [p|] eqn:Hp.
  2: { by rewrite (live_refs_empty _ _ Hp Hl). }
  assert (Ho : overlay_ok h p) by (unfold live_ok in Hl; rewrite Hp in Hl; apply Hl).
  pose proof (look_up h l p d_values _ _ k Hp Hl (oo_values _ _ Ho)) as Hd.
  cbn [mbind option_bind]. destruct (seqn_diff _ _).
  - destruct Hd as (d & x & Hd & Hx & Hn). unfold value_inner. rewrite Hd. cbn [mbind option_bind].
    rewrite Hx. cbn [mbind option_bind]. by unfold chain_values; rewrite Hn.
  - by unfold chain_values; rewrite Hd.
Qed.

Lemma live_page_spec h l k :
  live_ok h l → live_page h l k = Some (newest (chain_pages h (live_refs l)) k).
Proof.
  intros Hl. unfold live_page. destruct (parent l) as [p|] eqn:Hp.
  2: { by rewrite (live_refs_empty _ _ Hp Hl). }
  assert (Ho : overlay_ok h p) by (unfold live_ok in Hl; rewrite Hp in Hl; apply Hl).
  pose proof (look_up h l p d_pages _ _ k Hp Hl (oo_pages _ _ Ho)) as Hd.
  cbn [mbind option_bind]. destruct (seqn_diff _ _).
  - destruct Hd as (d & x & Hd & Hx & Hn). rewrite Hd. cbn [mbind option_bind].
    rewrite Hx. cbn [mbind option_bind]. by unfold chain_pages; rewrite Hn.
  - by unfold chain_pages; rewrite Hd.
Qed.

(** ** Building overlays *)

(** The index of a new overlay, from the index of its parent. *)
Lemma finish_index h l :
  live_ok h l →
  ∃ seqn chain,
    let ix := match parent l with None => Index_default | Some p => o_index p end in
    (∀ pages', prune_loop (min_seqn l) (ix_pages ix) (ix_pages_by_seqn ix) = pages' →
       ∀ d : gmap PageId DirtyPage,
         index_ok (insert_loop (seqn + 1) (map_to_list d).*1 pages'.1 pages'.2).1
           (insert_loop (seqn + 1) (map_to_list d).*1 pages'.1 pages'.2).2
           (d :: chain_pages h chain) (seqn + 1)) ∧
    (∀ values', prune_loop (min_seqn l) (ix_values ix) (ix_values_by_seqn ix) = values' →
       ∀ d : gmap KeyPath ValueChange,
         index_ok (insert_loop (seqn + 1) (map_to_list d).*1 values'.1 values'.2).1
           (insert_loop (seqn + 1) (map_to_list d).*1 values'.1 values'.2).2
           (d :: chain_values h chain) (seqn + 1)) ∧
    chain = live_refs l ∧ seqn = match parent l with None => (-1)%Z | Some p => o_seqn p end.
Proof.
  intros Hl. destruct (parent l) as [p|] eqn:Hp.
  - unfold live_ok in Hl. rewrite Hp in Hl. destruct Hl as (Ho & Hpre & Hmin).
    exists (o_seqn p), (live_refs l). cbv zeta. split_and!; [| |done|done].
    + intros [m' l'] Hpl d. rewrite Hmin in Hpl.
      pose proof (index_ok_finish _ _ _ _ _ _ _ d (oo_pages _ _ Ho) Hpl) as H.
      unfold chain_pages in *. rewrite (live_refs_take _ _ Hp Hpre), fmap_take. exact H.
    + intros [m' l'] Hpl d. rewrite Hmin in Hpl.
      pose proof (index_ok_finish _ _ _ _ _ _ _ d (oo_values _ _ Ho) Hpl) as H.
      unfold chain_values in *. rewrite (live_refs_take _ _ Hp Hpre), fmap_take. exact H.
  - rewrite (live_refs_empty _ _ Hp Hl). exists (-1)%Z, []. cbv zeta. split_and!; [| |done|done].
    + intros pages' <- d. apply (index_ok_finish ∅ [] [] (-1) 0 ∅ [] d index_ok_empty). done.
    + intros values' <- d. apply (index_ok_finish ∅ [] [] (-1) 0 ∅ [] d index_ok_empty). done.
Qed.

Lemma live_refs_lt h l : live_ok h l → Forall (λ a, a < length (datas h)) (live_refs l).
Proof.
  intros Hl. destruct (parent l) as [p|] eqn:Hp.
  - unfold live_ok in Hl. rewrite Hp in Hl. destruct Hl as (Ho & Hpre & _).
    rewrite (live_refs_take _ _ Hp Hpre). apply Forall_take, oo_ids, Ho.
  - by rewrite (live_refs_empty _ _ Hp Hl).
Qed.

Lemma chain_ext h h' ids :
  datas h `prefix_of` datas h' → Forall (λ a, a < length (datas h)) ids →
  chain_pages h' ids = chain_pages h ids ∧ chain_values h' ids = chain_values h ids.
Proof.
  intros [ext Hext] Hf. rewrite Forall_forall in Hf.
  split; apply list_fmap_ext; intros i a Ha%list_elem_of_lookup_2%Hf; unfold data_of;
    by rewrite Hext, lookup_app_l.
Qed.

Lemma finish_spec h l prev_root root pc vc delta o h' :
  live_ok h l → finish h l prev_root root pc vc delta = Some (o, h') →
  overlay_ok h' o ∧ datas h `prefix_of` datas h' ∧ dropped h' = dropped h ∧
  o_chain o = length (datas h) :: live_refs l ∧ length (datas h') = S (length (datas h)).
Proof.
  intros Hl Hf. destruct (finish_index h l Hl) as (seqn & chain & Hpages & Hvalues & -> & Hseqn).
  cbv zeta in Hpages, Hvalues. unfold finish in Hf. apply bind_Some in Hf as (new_seqn & Hnew & Hf).
  cbv zeta in Hf. unfold prune_below, insert_pages, insert_values in Hf.
  destruct (prune_loop _ (ix_pages _) _) as [mp lp] eqn:Ep.
  destruct (prune_loop _ (ix_values _) _) as [mv lv] eqn:Ev.
  specialize (Hpages _ eq_refl pc). specialize (Hvalues _ eq_refl vc).
  cbn [ix_pages ix_values ix_pages_by_seqn ix_values_by_seqn fst snd] in *.
  assert (Hns : new_seqn = (seqn + 1)%Z ∧ (new_seqn < 2 ^ 64)%Z ∧ (Z.of_nat (length (live_refs l)) ≤ new_seqn)%Z).
  { destruct (parent l) as [p|] eqn:Hp.
    - destruct (Z.ltb_spec (o_seqn p + 1) (2 ^ 64)); simplify_eq. split_and!; [done|done|].
      unfold live_ok in Hl. rewrite Hp in Hl. destruct Hl as (Ho & Hpre & _).
      apply prefix_length in Hpre. pose proof (oo_seqn _ _ Ho). unfold live_refs. rewrite Hp. simpl. lia.
    - rewrite (live_refs_empty _ _ Hp Hl). simplify_eq. simpl. lia. }
  destruct Hns as (-> & Hlt & Hlen).
  destruct (insert_loop _ (map_to_list pc).*1 _ _) as [mp' lp'] eqn:Ip.
  cbn [ix_pages ix_values ix_pages_by_seqn ix_values_by_seqn fst snd] in *.
  destruct (insert_loop _ (map_to_list vc).*1 _ _) as [mv' lv'] eqn:Iv.
  apply bind_Some in Hf as (ps & Hps & Hf). unfold new_live, new_data in Hf. simplify_eq/=.
  assert (Hchain : (match parent l with None => [] | Some p => o_data p :: ancestor_data l end) = live_refs l).
  { unfold live_refs. destruct (parent l) eqn:Hp; [done|]. unfold live_ok in Hl. rewrite Hp in Hl.
    destruct Hl as [-> _]. done. }
  match goal with |- overlay_ok ?h' _ ∧ _ => set (h1 := h') end.
  assert (Hpre : datas h `prefix_of` datas h1) by (by eexists).
  destruct (chain_ext h h1 (live_refs l) Hpre (live_refs_lt _ _ Hl)) as [Hcp Hcv].
  assert (Hnew' : ∀ d, datas h1 = datas h ++ [d] → data_of h1 (length (datas h)) = d).
  { intros d Hd. unfold data_of. by rewrite Hd, lookup_app_r, Nat.sub_diag by lia. }
  specialize (Hnew' _ eq_refl).
  unfold o_chain. cbn [o_data o_ancestor_data]. rewrite Hchain. split_and!; [|done|done|done|].
  - split; cbn [o_data o_ancestor_data o_seqn o_index o_chain ix_pages ix_values ix_pages_by_seqn ix_values_by_seqn];
      unfold o_chain; cbn [o_data o_ancestor_data].
    + constructor; [subst h1; simpl; rewrite length_app; simpl; lia|].
      eapply Forall_impl; [by apply live_refs_lt|]. subst h1. simpl. intros a. rewrite length_app. lia.
    + lia.
    + unfold chain_pages in *. rewrite fmap_cons, Hcp, Hnew'. exact Hpages.
    + unfold chain_values in *. rewrite fmap_cons, Hcv, Hnew'. exact Hvalues.
  - subst h1. simpl. rewrite length_app. simpl. lia.
Qed.

(** ** Accepting ancestors *)

Lemma check_ancestors_spec h supposed actual :
  match check_ancestors h supposed actual with
  | Ok ids => ids = take (length supposed) actual ∧ ids = o_data <$> take (length actual) supposed ∧
      Forall (λ a, a ∉ dropped h) ids
  | Err NotAncestor => ∃ i s a, supposed !! i = Some s ∧ actual !! i = Some a ∧ o_data s ≠ a
  | Err Incomplete => ∃ i a, i < length supposed ∧ actual !! i = Some a ∧ a ∈ dropped h
  | Panic => False
  end.
Proof.
  revert actual. induction supposed as [|s supposed IH]; intros [|a actual]; try done; simpl.
  unfold upgrade. case_bool_decide as Ha; simpl.
  2: { exists 0, a. split_and!; [lia|done|done]. }
  destruct (Nat.eqb_spec (o_data s) a) as [<-|Hne]; simpl; [|by exists 0, s, a].
  specialize (IH actual). destruct (check_ancestors h supposed actual) as [ids|[]|]; simpl.
  - destruct IH as (-> & Heq & Hf). split_and!; [done| |by constructor]. by rewrite Heq at 1.
  - destruct IH as (i & s' & a' & ? & ? & ?). by exists (S i), s', a'.
  - destruct IH as (i & a' & ? & ? & ?). exists (S i), a'. split_and!; [lia|done|done].
  - done.
Qed.

(** The parent pointer of the object is null or committed. *)
Definition parent_done (h : heap) (d : Data) : Prop :=
  match d_parent_status d with Some s => statuses h !! s = Some COMMITTED | None => True end.

(** What [LiveOverlay::new] gives for a list of overlays whose first is [p]. *)
Lemma LiveOverlay_new_spec h p l :
  overlay_ok h p →
  match LiveOverlay_new h (p :: l) with
  | Ok live =>
      parent live = Some p ∧ live_ok h live ∧
      ancestor_data live = take (length l) (o_ancestor_data p) ∧
      ancestor_data live = o_data <$> take (length (o_ancestor_data p)) l ∧
      Forall (λ a, a ∉ dropped h) (ancestor_data live) ∧
      parent_done h (data_of h (default (o_data p) (last (ancestor_data live))))
  | Err NotAncestor => ∃ i s a, l !! i = Some s ∧ o_ancestor_data p !! i = Some a ∧ o_data s ≠ a
  | Err Incomplete =>
      (∃ i a, i < length l ∧ o_ancestor_data p !! i = Some a ∧ a ∈ dropped h) ∨
      (take (length l) (o_ancestor_data p) = o_data <$> take (length (o_ancestor_data p)) l ∧
       ¬ parent_done h (data_of h (default (o_data p) (last (take (length l) (o_ancestor_data p))))))
  | Panic => False
  end.
Proof.
  intros Ho. cbn [LiveOverlay_new]. pose proof (check_ancestors_spec h l (o_ancestor_data p)) as Hc.
  destruct (check_ancestors _ _ _) as [ids|[]|]; cbn [obind]; [|done|by left|done].
  destruct Hc as (Hids & Hsup & Hnd).
  assert (Hin : default (o_data p) (last ids) ∈ o_chain p).
  { unfold o_chain. destruct (last ids) as [a|] eqn:E; simpl; [right|left].
    apply last_Some_elem_of in E. rewrite Hids in E. by eapply subseteq_take. }
  pose proof (oo_ids _ _ Ho) as Hlt. rewrite Forall_forall in Hlt. apply Hlt in Hin.
  rewrite (data_of_lookup _ _ Hin). cbn [or_panic obind].
  set (d := data_of h (default (o_data p) (last ids))) in *.
  assert (Hdone : match d_parent_status d with Some s => negb (is_committed h s) | None => false end = false ↔
                  parent_done h d).
  { unfold parent_done, is_committed. destruct (d_parent_status d); [|done].
    rewrite negb_false_iff. apply bool_decide_eq_true. }
  destruct (match d_parent_status d with Some s => negb (is_committed h s) | None => false end).
  { right. rewrite <-Hids, <-Hsup. split; [done|]. intros ?%Hdone. done. }
  pose proof (oo_seqn _ _ Ho) as Hs. assert (Hlen : length ids ≤ length (o_ancestor_data p)).
  { rewrite Hids, length_take. lia. }
  unfold checked_sub. rewrite (proj2 (Z.leb_le _ _)) by lia. cbn [or_panic obind parent ancestor_data].
  split_and!; [done| |done|done|done|by apply Hdone].
  unfold live_ok. cbn [parent ancestor_data min_seqn]. split_and!; [done| |done].
  rewrite Hids. by exists (drop (length l) (o_ancestor_data p)); rewrite take_drop.
Qed.

(** ** The invariant of the program *)

Definition lives (w : world) : list LiveOverlay :=
  (s_overlay <$> w_sessions w) ++ (f_parent_overlay <$> w_finished w).

(** Every object has its status cell. *)
Definition statuses_ok (h : heap) : Prop :=
  Forall (λ d, d_status d < length (statuses h)) (datas h).

Record world_ok (w : world) : Prop := {
  wo_overlays : ∀ o, o ∈ w_overlays w → overlay_ok (w_heap w) o;
  wo_lives : ∀ l, l ∈ lives w → live_ok (w_heap w) l;
  wo_strong : ∀ a, a ∈ strong_refs w → a ∉ dropped (w_heap w);
  wo_dropped : ∀ a, a ∈ dropped (w_heap w) → a < length (datas (w_heap w));
  wo_status : statuses_ok (w_heap w);
}.

Lemma elem_of_strong_refs w a :
  a ∈ strong_refs w ↔
  (∃ o, o ∈ w_overlays w ∧ a = o_data o) ∨ (∃ l, l ∈ lives w ∧ a ∈ live_refs l).
Proof.
  unfold strong_refs, lives. rewrite !elem_of_app, list_elem_of_fmap, !list_elem_of_bind.
  setoid_rewrite elem_of_app. setoid_rewrite list_elem_of_fmap. naive_solver.
Qed.

(** Fewer objects held. *)
Lemma world_ok_sub w w' :
  world_ok w → w_heap w' = w_heap w →
  w_overlays w' ⊆ w_overlays w → lives w' ⊆ lives w → world_ok w'.
Proof.
  intros [H1 H2 H3 H4 H5] Hh Ho Hl. split; rewrite Hh; [eauto|eauto| |done|done].
  intros a Ha. apply H3. rewrite elem_of_strong_refs in Ha |- *. naive_solver.
Qed.

(** New objects, and a heap that has more data. *)
Lemma world_ok_heap w h :
  world_ok w → datas (w_heap w) `prefix_of` datas h → dropped h = dropped (w_heap w) →
  statuses_ok h → world_ok (set_heap w h).
Proof.
  intros [H1 H2 H3 H4 H5] Hp Hd Hs. split; simpl; [| | | |done].
  - intros o Ho%H1. by eapply overlay_ok_mono.
  - intros l Hl%H2. by eapply live_ok_mono.
  - rewrite Hd. apply H3.
  - rewrite Hd. intros a Ha%H4. apply prefix_length in Hp. lia.
Qed.

(** Dropping touches no status but a live one. *)
Definition status_kept (h h' : heap) : Prop :=
  length (statuses h') = length (statuses h) ∧
  ∀ s, statuses h !! s = Some COMMITTED → statuses h' !! s = Some COMMITTED.

Lemma status_drop_datas h s :
  datas (status_drop h s) = datas h ∧ dropped (status_drop h s) = dropped h ∧ status_kept h (status_drop h s).
Proof.
  unfold status_drop, status_kept. case_bool_decide as Hs; [|done]. simpl. split_and!; try done.
  - apply length_insert.
  - intros t Ht. rewrite list_lookup_insert_ne; [done|]. intros ->. rewrite Ht in Hs. discriminate Hs.
Qed.

Lemma drop_data_spec h a :
  datas (drop_data h a) = datas h ∧ status_kept h (drop_data h a) ∧
  ∀ b, b ∈ dropped (drop_data h a) → b ∈ dropped h ∨ (b = a ∧ a < length (datas h)).
Proof.
  unfold drop_data. destruct (datas h !! a) as [d|] eqn:E; [|split_and!; auto; done].
  destruct (status_drop_datas h (d_status d)) as (H1 & H2 & H3). simpl. rewrite H1, H2.
  split_and!; [done|exact H3|]. intros b. rewrite elem_of_union, elem_of_singleton. apply lookup_lt_Some in E. naive_solver.
Qed.

Lemma status_kept_trans h1 h2 h3 : status_kept h1 h2 → status_kept h2 h3 → status_kept h1 h3.
Proof. intros [H1 H2] [H3 H4]. split; [congruence|auto]. Qed.

Lemma collect_spec w :
  datas (w_heap (collect w)) = datas (w_heap w) ∧ status_kept (w_heap w) (w_heap (collect w)) ∧
  ∀ a, a ∈ dropped (w_heap (collect w)) →
    a ∈ dropped (w_heap w) ∨ ((a ∉ strong_refs w) ∧ a < length (datas (w_heap w))).
Proof.
  unfold collect. cbn [set_heap w_heap]. set (f := λ (h : heap) (a : nat), _).
  assert (Hstep : ∀ h a, datas (f h a) = datas h ∧ status_kept h (f h a) ∧
    ∀ b, b ∈ dropped (f h a) → b ∈ dropped h ∨ ((b ∉ strong_refs w) ∧ b < length (datas h))).
  { intros h a. unfold f. destruct (drop_data_spec h a) as (H3 & H4 & H5).
    case_bool_decide; simpl; [split_and!; auto; done|].
    case_bool_decide; simpl; [split_and!; auto; done|]. split_and!; [done|done|].
    intros b [?|[-> ?]]%H5; auto. }
  generalize (seq 0 (length (datas (w_heap w)))) as l. intros l. generalize (w_heap w) as h.
  induction l as [|a l IH]; intros h; [split_and!; auto; done|]. cbn [foldl].
  destruct (IH (f h a)) as (H1 & H2 & H3), (Hstep h a) as (H4 & H5 & H6). rewrite H1, H4 in *.
  split_and!; [done|by eapply status_kept_trans|]. intros b [Hb|?]%H3; auto.
Qed.

Lemma collect_ok w : world_ok w → world_ok (collect w).
Proof.
  intros [W1 W2 W3 W4 W5]. destruct (collect_spec w) as (H1 & [H2 _] & H3).
  split.
  - intros o Ho%W1. eapply overlay_ok_mono; [|done]. by rewrite H1.
  - intros l Hl%W2. eapply live_ok_mono; [|done]. by rewrite H1.
  - intros a Ha [Hd|[Hn _]]%H3; [|by apply Hn]. by apply W3 in Ha.
  - intros a [Ha|[_ Ha]]%H3; rewrite H1; auto.
  - unfold statuses_ok. by rewrite H1, H2.
Qed.

Lemma init_ok root : world_ok (init root).
Proof. split; simpl; [by intros ? ?%not_elem_of_nil..|by intros ? ?%not_elem_of_empty|constructor]. Qed.

(** A session more. *)
Lemma begin_ok h sh ovs ss fs l :
  world_ok {| w_heap := h; w_shared := sh; w_overlays := ovs; w_sessions := ss; w_finished := fs |} →
  live_ok h l → (∀ a, a ∈ live_refs l → a ∉ dropped h) →
  world_ok {| w_heap := h; w_shared := sh; w_overlays := ovs;
              w_sessions := ss ++ [begin_session sh l]; w_finished := fs |}.
Proof.
  intros [W1 W2 W3 W4 W5] Hl Hr.
  assert (Hlives : ∀ x, x ∈ (s_overlay <$> (ss ++ [begin_session sh l])) ++ (f_parent_overlay <$> fs) →
    x = l ∨ x ∈ (s_overlay <$> ss) ++ (f_parent_overlay <$> fs)).
  { intros x. rewrite fmap_app. cbn [fmap list_fmap begin_session s_overlay].
    rewrite !elem_of_app, list_elem_of_singleton. naive_solver. }
  split; simpl in *; [done| | |done|done].
  - intros x [->|Hx]%Hlives; auto.
  - intros a. rewrite elem_of_strong_refs. intros [Ho|(x & Hx & Ha)].
    + apply W3, elem_of_strong_refs. by left.
    + apply Hlives in Hx as [->|Hx]; [auto|]. apply W3, elem_of_strong_refs. right. by exists x.
Qed.

Lemma new_ok h sh ovs ss fs ids ancestors l :
  world_ok {| w_heap := h; w_shared := sh; w_overlays := ovs; w_sessions := ss; w_finished := fs |} →
  mapM (λ i, ovs !! i) ids = Some ancestors → LiveOverlay_new h ancestors = Ok l →
  live_ok h l ∧ ∀ a, a ∈ live_refs l → a ∉ dropped h.
Proof.
  intros Hw Hm Hn. destruct ancestors as [|p rest].
  { injection Hn as <-. split; [done|]. by intros a ?%not_elem_of_nil. }
  assert (Hp : p ∈ ovs).
  { apply mapM_Some in Hm. inversion Hm as [|i ? ? ? Hi ? Hids]; subst. by eapply list_elem_of_lookup_2. }
  pose proof (LiveOverlay_new_spec h p rest (wo_overlays _ Hw p Hp)) as Hs. rewrite Hn in Hs.
  destruct Hs as (Hpar & Hl & _ & _ & Hnd & _). split; [done|]. intros a. unfold live_refs. rewrite Hpar.
  rewrite elem_of_app, list_elem_of_singleton. intros [->|Ha].
  - apply (wo_strong _ Hw), elem_of_strong_refs. left. by exists p.
  - rewrite Forall_forall in Hnd. by apply Hnd.
Qed.

Lemma finish_statuses h l prev_root root pc vc delta o h' :
  statuses_ok h → finish h l prev_root root pc vc delta = Some (o, h') → statuses_ok h'.
Proof.
  intros Hs Hf. unfold finish in Hf. apply bind_Some in Hf as (? & _ & Hf).
  apply bind_Some in Hf as (? & _ & Hf). cbn in Hf. simplify_eq. unfold statuses_ok. simpl.
  rewrite length_app. apply Forall_app. split; [|by constructor; simpl; [lia|]].
  eapply Forall_impl; [exact Hs|]. simpl. lia.
Qed.

Lemma into_overlay_ok h sh ovs ss fs i f ov h' :
  world_ok {| w_heap := h; w_shared := sh; w_overlays := ovs; w_sessions := ss; w_finished := fs |} →
  fs !! i = Some f → into_overlay h f = Some (ov, h') →
  world_ok {| w_heap := h'; w_shared := sh; w_overlays := ovs ++ [ov];
              w_sessions := ss; w_finished := delete i fs |}.
Proof.
  intros Hw Hf Hi. assert (Hlf : f_parent_overlay f ∈ lives {| w_heap := h; w_shared := sh;
    w_overlays := ovs; w_sessions := ss; w_finished := fs |}).
  { unfold lives. apply elem_of_app. right. apply list_elem_of_fmap_2. by eapply list_elem_of_lookup_2. }
  destruct (finish_spec _ _ _ _ _ _ _ _ _ (wo_lives _ Hw _ Hlf) Hi) as (Hok & Hpre & Hd & Hc & Hlen).
  assert (Hw' := world_ok_heap _ h' Hw Hpre Hd (finish_statuses _ _ _ _ _ _ _ _ _ (wo_status _ Hw) Hi)). cbn [set_heap w_heap w_shared w_overlays w_sessions w_finished] in Hw'.
  assert (Hsub : world_ok {| w_heap := h'; w_shared := sh; w_overlays := ovs; w_sessions := ss; w_finished := delete i fs |}).
  { eapply world_ok_sub; [exact Hw'|done|done|]. unfold lives. simpl. intros x.
    rewrite !elem_of_app. intros [?|(y & -> & Hy)%list_elem_of_fmap]; [auto|]. right.
    apply list_elem_of_fmap_2. by eapply sublist_subseteq, Hy; apply sublist_delete. }
  destruct Hsub as [W1 W2 W3 W4 W5]. split; simpl in *; [|done| |done|done].
  - intros o [Ho| ->%list_elem_of_singleton]%elem_of_app; auto.
  - intros a. rewrite elem_of_strong_refs. simpl. intros [(o & Ho & ->)|Hl].
    + apply elem_of_app in Ho as [Ho| ->%list_elem_of_singleton].
      * apply W3, elem_of_strong_refs. left. by exists o.
      * rewrite Hd. injection Hc as -> _. intros Ha%(wo_dropped _ Hw). simpl in Ha. lia.
    + apply W3, elem_of_strong_refs. by right.
Qed.

Lemma overlay_commit_heap rc sc h sh o h' sh' r :
  overlay_commit rc sc h sh o = (h', sh', r) →
  datas h' = datas h ∧ dropped h' = dropped h ∧ length (statuses h') = length (statuses h).
Proof.
  unfold overlay_commit, mark_committed. destruct (parent_matches_marker _ _ _); [|by intros; simplify_eq].
  destruct (datas h !! o_data o) as [d|]; [|by intros; simplify_eq]. simpl.
  destruct (negb _); [by intros; simplify_eq|].
  case_bool_decide; intros; simplify_eq; simpl; by rewrite length_insert.
Qed.

Lemma app_subseteq {A} (a a' b b' : list A) : a ⊆ a' → b ⊆ b' → a ++ b ⊆ a' ++ b'.
Proof. intros Ha Hb x. rewrite !elem_of_app. intros [?|?]; auto. Qed.

Lemma delete_subseteq {A} i (l : list A) : delete i l ⊆ l.
Proof. apply sublist_subseteq, sublist_delete. Qed.

Lemma fmap_delete_subseteq {A B} (f : A → B) i (l : list A) : f <$> delete i l ⊆ f <$> l.
Proof.
  intros x (y & -> & Hy)%list_elem_of_fmap. by apply list_elem_of_fmap_2, (delete_subseteq i l).
Qed.

Section invariant.
Context (hash_value : list u8 → ValueHash).
Context (rollback_commit : Delta → outcome CommitError ()).
Context (store_commit : list (KeyPath * ValueChange) → list (PageId * DirtyPage) → outcome CommitError ()).

Lemma exec_ok o w w' :
  world_ok w → exec hash_value rollback_commit store_commit o w = Some w' → world_ok w'.
Proof.
  intros Hw He. destruct w as [h sh ovs ss fs], o as [ids|i actuals root ups delta|i|i|i|i|i|i];
    cbn [exec] in He; apply bind_Some in He as (x & Hx & He).
  - destruct (LiveOverlay_new h x) as [l|e|] eqn:E; simplify_eq; [|done].
    destruct (new_ok _ _ _ _ _ _ _ _ Hw Hx E). by apply begin_ok.
  - apply bind_Some in He as (f & Hf & He). simplify_eq.
    apply bind_Some in Hf as (? & _ & [= <-]).
    eapply world_ok_sub; [exact Hw|done|done|]. unfold lives. simpl. intros y.
    rewrite fmap_app, !elem_of_app. cbn [fmap list_fmap f_parent_overlay]. rewrite list_elem_of_singleton.
    intros [Hy|[Hy| ->]]; [left; by eapply fmap_delete_subseteq|by right|left].
    apply list_elem_of_fmap_2. by eapply list_elem_of_lookup_2.
  - apply bind_Some in He as ([ov h'] & Hi & He). simplify_eq.
    apply collect_ok. by eapply into_overlay_ok.
  - destruct (finished_commit _ _ _ _) as [sh' r]. destruct r; simplify_eq; apply collect_ok;
      (eapply world_ok_sub; [exact Hw|done|done|]; apply app_subseteq; [done|apply fmap_delete_subseteq]).
  - destruct (overlay_commit _ _ _ _ _) as [[h' sh'] r] eqn:E. apply overlay_commit_heap in E as (Hd1 & Hd2 & Hd3).
    assert (Hs : statuses_ok h') by (unfold statuses_ok; rewrite Hd1, Hd3; apply (wo_status _ Hw)).
    assert (Hh := world_ok_heap _ h' Hw (ltac:(by rewrite Hd1)) Hd2 Hs).
    destruct r; simplify_eq; apply collect_ok;
      (eapply world_ok_sub; [exact Hh|done|apply delete_subseteq|done]).
  - simplify_eq. apply collect_ok. eapply world_ok_sub; [exact Hw|done|apply delete_subseteq|done].
  - simplify_eq. apply collect_ok. eapply world_ok_sub; [exact Hw|done|done|].
    apply app_subseteq; [apply fmap_delete_subseteq|done].
  - simplify_eq. apply collect_ok. eapply world_ok_sub; [exact Hw|done|done|].
    apply app_subseteq; [done|apply fmap_delete_subseteq].
Qed.

Lemma reachable_ok w : reachable hash_value rollback_commit store_commit w → world_ok w.
Proof.
  intros (root & os & Hr). pose proof (init_ok root) as H. revert H Hr. generalize (init root) as w0.
  induction os as [|o os IH]; intros w0 H0; simpl; [by intros [= <-]|].
  intros (w1 & H1 & Hr)%bind_Some. eapply IH; [|exact Hr]. by eapply exec_ok.
Qed.
End invariant.

(** ** Iterating *)

#[global] Instance key_le_total {V} : Total (@key_le V).
Proof.
  intros a b. unfold key_le. rewrite (bytes_compare_antisym a.1 b.1).
  destruct (bytes_compare a.1 b.1); simpl; auto.
Qed.

Lemma key_le_lt {V} (a b : KeyPath * V) : key_le a b ↔ a.1 = b.1 ∨ bytes_lt a.1 b.1.
Proof.
  unfold key_le, bytes_lt. destruct (bytes_compare a.1 b.1) eqn:E; split; try naive_solver.
  - intros _. left. by apply bytes_compare_eq.
  - intros [Heq|?]; [|done]. by rewrite Heq, bytes_compare_refl in E.
Qed.

#[global] Instance key_le_trans {V} : Transitive (@key_le V).
Proof.
  intros a b c. rewrite !key_le_lt. intros [E1|H1] [E2|H2].
  - left. congruence.
  - right. congruence.
  - right. congruence.
  - right. by etrans.
Qed.

Lemma ord_entries_sorted {V} (m : gmap KeyPath V) :
  StronglySorted (λ a b : KeyPath * V, bytes_lt a.1 b.1) (ord_entries m).
Proof.
  assert (Hnd : NoDup (ord_entries m).*1).
  { unfold ord_entries. rewrite merge_sort_Permutation. apply NoDup_fst_map_to_list. }
  pose proof (StronglySorted_merge_sort key_le (map_to_list m)) as Hs. fold (ord_entries m) in Hs.
  induction Hs as [|x l Hl IH Hx]; [constructor|]. rewrite fmap_cons in Hnd.
  apply NoDup_cons in Hnd as [Hn Hnd]. constructor; [by apply IH|]. rewrite Forall_forall in Hx |- *.
  intros y Hy. destruct (proj1 (key_le_lt _ _) (Hx y Hy)) as [Heq|?]; [|done].
  destruct Hn. rewrite Heq. by apply list_elem_of_fmap_2.
Qed.

Lemma elem_of_ord_entries {V} (m : gmap KeyPath V) k v : (k, v) ∈ ord_entries m ↔ m !! k = Some v.
Proof. unfold ord_entries. by rewrite merge_sort_Permutation, elem_of_map_to_list. Qed.

Lemma take_while_sorted {V} (end_ : option KeyPath) (l : list (KeyPath * V)) :
  StronglySorted (λ a b : KeyPath * V, bytes_lt a.1 b.1) l →
  take_while (λ kv, before_end end_ kv.1) l = filter (λ kv, before_end end_ kv.1 = true) l.
Proof.
  induction 1 as [|x l Hl IH Hx]; [done|]. simpl. rewrite filter_cons.
  destruct (before_end end_ x.1) eqn:E; [by rewrite decide_True, IH by done|].
  rewrite decide_False by done. rewrite filter_none; [done|].
  eapply Forall_impl; [exact Hx|]. intros y Hy Hb. unfold before_end in *. destruct end_ as [e|]; [|done].
  apply bytes_ltb_lt in Hb. assert (bytes_lt x.1 e) as Hlt%bytes_ltb_lt by (by etrans). congruence.
Qed.

Lemma mapM_omap {A B} (f : A → option B) (l : list A) :
  (∀ x, x ∈ l → is_Some (f x)) → mapM f l = Some (omap f l).
Proof.
  induction l as [|x l IH]; intros Hf; [done|]. simpl.
  destruct (Hf x ltac:(left)) as [y ->]. simpl. by rewrite IH by (intros; apply Hf; by right).
Qed.

Lemma omap_keys_sorted {V W} (g : KeyPath * V → option (KeyPath * W)) (l : list (KeyPath * V)) :
  (∀ x y, g x = Some y → y.1 = x.1) →
  StronglySorted (λ a b : KeyPath * V, bytes_lt a.1 b.1) l →
  StronglySorted (λ a b : KeyPath * W, bytes_lt a.1 b.1) (omap g l).
Proof.
  intros Hg. induction 1 as [|x l Hl IH Hx]; [constructor|]. simpl. destruct (g x) as [y|] eqn:E; [|done].
  constructor; [done|]. apply Forall_forall. intros z (x' & Hx' & Ez)%list_elem_of_omap.
  rewrite (Hg _ _ E), (Hg _ _ Ez). rewrite list.Forall_forall in Hx. by apply Hx.
Qed.

Lemma filter_sorted {V} P `{∀ x, Decision (P x)} (l : list (KeyPath * V)) :
  StronglySorted (λ a b : KeyPath * V, bytes_lt a.1 b.1) l →
  StronglySorted (λ a b : KeyPath * V, bytes_lt a.1 b.1) (filter P l).
Proof.
  induction 1 as [|x l Hl IH Hx]; [constructor|]. rewrite filter_cons. case_decide; [|done].
  constructor; [done|]. by apply Forall_filter_mono.
Qed.

Lemma value_iter_spec h l start end_ :
  live_ok h l →
  ∃ vs, value_iter h l start end_ = Some vs ∧
    StronglySorted (λ a b : KeyPath * ValueChange, bytes_lt a.1 b.1) vs ∧
    ∀ k c, (k, c) ∈ vs ↔
      newest (chain_values h (live_refs l)) k = Some c ∧ ¬ bytes_lt k start ∧ before_end end_ k = true.
Proof.
  intros Hl. unfold value_iter. destruct (parent l) as [p|] eqn:Hp.
  2: { exists []. split_and!; [done|constructor|]. intros k c. rewrite (live_refs_empty _ _ Hp Hl).
       split; [by intros ?%not_elem_of_nil|by intros (? & _)]. }
  assert (Ho : overlay_ok h p) by (unfold live_ok in Hl; rewrite Hp in Hl; apply Hl).
  set (m := ix_values (o_index p)). cbv zeta. unfold range_from.
  assert (Hs := filter_sorted (λ kv, ¬ bytes_lt kv.1 start) _ (ord_entries_sorted m)).
  rewrite take_while_sorted by done.
  set (es := filter (λ kv, before_end end_ kv.1 = true) _).
  assert (Hes : ∀ k s, (k, s) ∈ es ↔ m !! k = Some s ∧ ¬ bytes_lt k start ∧ before_end end_ k = true).
  { intros k s. unfold es. rewrite !list_elem_of_filter, elem_of_ord_entries. naive_solver. }
  set (ds := omap _ es).
  assert (Hds : ∀ k d, (k, d) ∈ ds ↔ seqn_diff l (m !! k) = Some d ∧ ¬ bytes_lt k start ∧ before_end end_ k = true).
  { intros k d. unfold ds. rewrite list_elem_of_omap. unfold seqn_diff. split.
    - intros ([k' s] & Hin & (d' & Hd' & [= -> ->])%bind_Some). apply Hes in Hin as (-> & ?). auto.
    - intros ((s & Hs' & Hd)%bind_Some & Hr). exists (k, s). rewrite Hes. simpl. rewrite Hd. auto. }
  assert (Hlook := λ k, look_up h l p d_values _ _ k Hp Hl (oo_values _ _ Ho)). fold m in Hlook.
  rewrite mapM_omap.
  2: { intros [k d] (Hd & _)%Hds. specialize (Hlook k). rewrite Hd in Hlook.
       destruct Hlook as (d' & x & Hd' & Hx & _). unfold value_inner. simpl. rewrite Hd'. simpl.
       rewrite Hx. simpl. eauto. }
  eexists. split_and!; [reflexivity| |].
  - apply omap_keys_sorted; [by intros [] ? (? & _ & [= <-])%bind_Some|].
    apply omap_keys_sorted; [by intros [] ? (? & _ & [= <-])%bind_Some|]. by apply filter_sorted.
  - intros k c. rewrite list_elem_of_omap. specialize (Hlook k). split.
    + intros ([k' d] & Hin & (v & Hv & [= -> ->])%bind_Some). apply Hds in Hin as (Hd & Hr).
      rewrite Hd in Hlook. destruct Hlook as (d' & x & Hd' & Hx & Hn). unfold value_inner in Hv.
      simpl in Hv. rewrite Hd' in Hv. simpl in Hv. split; [|done]. unfold chain_values. congruence.
    + intros (Hn & Hr). unfold chain_values in Hn. destruct (seqn_diff l (m !! k)) as [d|] eqn:Hd.
      * destruct Hlook as (d' & x & Hd' & Hx & Hn'). exists (k, d). rewrite Hds. split; [auto|].
        unfold value_inner. simpl. rewrite Hd'. simpl. rewrite Hx. simpl. congruence.
      * congruence.
Qed.

(** ** The theorems *)

Section theorems.
Context (hash_value : list u8 → ValueHash).
Context (rollback_commit : Delta → outcome CommitError ()).
Context (store_commit : list (KeyPath * ValueChange) → list (PageId * DirtyPage) → outcome CommitError ()).
Abbreviation reachable := (reachable hash_value rollback_commit store_commit).
Abbreviation exec := (exec hash_value rollback_commit store_commit).

(** C10: a session sees the newest change of every key and page.  However sessions,
    overlays and commits were interleaved, with whatever overlays dropped, a session
    that exists finds for every key the change of the first object of its chain
    (its parent overlay, then the live ancestors by recency) that has one, and falls
    back to the store when none has; the pages likewise; and iterating a key range
    gives exactly those changes within the bounds, in strictly ascending key order.
    None of these look-ups panics. *)
Theorem session_view_correct (w : world) (s : Session) :
  reachable w → s ∈ w_sessions w →
  let h := w_heap w in
  let l := s_overlay s in
  (∀ page_id, live_page h l page_id = Some (newest (chain_pages h (live_refs l)) page_id)) ∧
  (∀ E (load_value : KeyPath → outcome E (option (list u8))) k,
     session_read h load_value s k =
       match newest (chain_values h (live_refs l)) k with
       | Some change => Ok (as_option change)
       | None => load_value k
       end) ∧
  (∀ start end_, ∃ vs, value_iter h l start end_ = Some vs ∧
     StronglySorted (λ a b : KeyPath * ValueChange, bytes_lt a.1 b.1) vs ∧
     ∀ k c, (k, c) ∈ vs ↔
       newest (chain_values h (live_refs l)) k = Some c ∧ ¬ bytes_lt k start ∧ before_end end_ k = true).
Proof.
  intros Hr Hs. pose proof (reachable_ok _ _ _ _ Hr) as Hw. cbv zeta.
  assert (Hl : live_ok (w_heap w) (s_overlay s)).
  { apply (wo_lives _ Hw), elem_of_app. left. by apply list_elem_of_fmap_2. }
  split_and!.
  - intros p. by apply live_page_spec.
  - intros E load k. unfold session_read. by rewrite live_value_spec.
  - intros start end_. by apply value_iter_spec.
Qed.

(** Turning a finished session into an overlay puts its changes on top of those
    the session was based on.  It succeeds as long as sequence numbers are left; the
    chain of the new overlay is its own changes followed by the chain of the session,
    unaffected by what was pruned from the index, and no older object changes. *)
Theorem into_overlay_correct (w : world) (f : FinishedSession) :
  reachable w → f ∈ w_finished w →
  (match parent (f_parent_overlay f) with Some p => o_seqn p + 1 < 2 ^ 64 | None => True end)%Z →
  ∃ ov h', into_overlay (w_heap w) f = Some (ov, h') ∧
    o_root ov = f_root f ∧ o_prev_root ov = f_prev_root f ∧
    o_ancestor_data ov = live_refs (f_parent_overlay f) ∧
    chain_values h' (o_chain ov) = hash_collect (f_value_transaction f) ::
      chain_values (w_heap w) (live_refs (f_parent_overlay f)) ∧
    chain_pages h' (o_chain ov) = hash_collect (f_updated_pages f true) ::
      chain_pages (w_heap w) (live_refs (f_parent_overlay f)) ∧
    (∀ k, ix_values (o_index ov) !! k = newest_seqn (chain_values h' (o_chain ov)) (o_seqn ov) k).
Proof.
  intros Hr Hf Hseqn. pose proof (reachable_ok _ _ _ _ Hr) as Hw.
  assert (Hl : live_ok (w_heap w) (f_parent_overlay f)).
  { apply (wo_lives _ Hw), elem_of_app. right. by apply list_elem_of_fmap_2. }
  assert (∃ ov h', into_overlay (w_heap w) f = Some (ov, h') ∧ o_root ov = f_root f ∧
    o_prev_root ov = f_prev_root f ∧ ∃ d, datas h' = datas (w_heap w) ++ [d] ∧
      d_values d = hash_collect (f_value_transaction f) ∧
      d_pages d = hash_collect (f_updated_pages f true)) as (ov & h' & Hi & Hroot & Hprev & d & Hd & Hdv & Hdp).
  { unfold into_overlay, finish. unfold live_ok in Hl. destruct (parent (f_parent_overlay f)) as [p|].
    - rewrite (proj2 (Z.ltb_lt _ _)) by done. destruct Hl as (Ho & _).
      pose proof (oo_ids _ _ Ho) as Hids. apply Forall_cons_1 in Hids as [Hlt _].
      rewrite (data_of_lookup _ _ Hlt). cbn. eauto 10.
    - cbn. eauto 10. }
  destruct (finish_spec _ _ _ _ _ _ _ _ _ Hl Hi) as (Hok & Hpre & _ & Hc & _).
  destruct (chain_ext _ _ _ Hpre (live_refs_lt _ _ Hl)) as [Hcp Hcv].
  assert (Hnew : data_of h' (length (datas (w_heap w))) = d).
  { unfold data_of. by rewrite Hd, lookup_app_r, Nat.sub_diag by lia. }
  exists ov, h'. split_and!; [done|done|done| | | |apply (ixo_map _ _ _ _ (oo_values _ _ Hok))].
  - unfold o_chain in Hc. congruence.
  - unfold chain_values in *. by rewrite Hc, fmap_cons, Hnew, Hcv, Hdv.
  - unfold chain_pages in *. by rewrite Hc, fmap_cons, Hnew, Hcp, Hdp.
Qed.

(** C34: which ancestors a session accepts.  Given overlays the user holds, the first
    of them being the parent, [LiveOverlay::new] never panics.  It accepts exactly the
    parent's ancestors by recency, as many as were given, with the parent of the last
    one absent or marked as committed; overlays given beyond the ancestors the parent
    knows are not looked at.  It reports [NotAncestor] only for an overlay that is not
    the ancestor at its position, and [Incomplete] only when an ancestor was dropped
    or the parent of the last one is not marked as committed. *)
Theorem live_overlay_new_correct (w : world) (p : OverlayInner) (l : list OverlayInner) :
  reachable w → p ∈ w_overlays w →
  let h := w_heap w in
  let n := length (o_ancestor_data p) in
  match LiveOverlay_new h (p :: l) with
  | Ok live =>
      parent live = Some p ∧
      ancestor_data live = take (length l) (o_ancestor_data p) ∧
      ancestor_data live = o_data <$> take n l ∧
      Forall (λ a, a ∉ dropped h) (ancestor_data live) ∧
      parent_done h (data_of h (default (o_data p) (last (ancestor_data live))))
  | Err NotAncestor => ∃ i s a, l !! i = Some s ∧ o_ancestor_data p !! i = Some a ∧ o_data s ≠ a
  | Err Incomplete =>
      (∃ i a, i < length l ∧ o_ancestor_data p !! i = Some a ∧ a ∈ dropped h) ∨
      (take (length l) (o_ancestor_data p) = o_data <$> take n l ∧
       ¬ parent_done h (data_of h (default (o_data p) (last (take (length l) (o_ancestor_data p))))))
  | Panic => False
  end.
Proof.
  intros Hr Hp. pose proof (reachable_ok _ _ _ _ Hr) as Hw. cbv zeta.
  pose proof (LiveOverlay_new_spec (w_heap w) p l (wo_overlays _ Hw p Hp)) as H.
  destruct (LiveOverlay_new _ _) as [live|[]|]; naive_solver.
Qed.

End theorems.

(** ** The theorems at work

    Two overlays, the second a child of the first; a competing commit; and a commit
    of the first that fails. *)

Definition toy_hash (_ : list u8) : ValueHash := replicate 32 x00.
Definition commit_ok (_ : Delta) : outcome CommitError () := Ok ().
Definition store_ok (_ : list (KeyPath * ValueChange)) (_ : list (PageId * DirtyPage)) :
  outcome CommitError () := Ok ().

Definition key_a : KeyPath := replicate 32 x01.
Definition key_b : KeyPath := replicate 32 x02.
Definition root_of (b : u8) : Node := replicate 32 b.

Definition write_session (ids : list nat) (k : KeyPath) (root : u8) : list op :=
  [OpBegin ids; OpFinish 0 [(k, Write (Some [root]))] (root_of root) (λ _, []) None].

Definition ops_a : list op := write_session [] key_a x0a.
Definition ops_ab : list op := ops_a ++ [OpIntoOverlay 0] ++ write_session [0] key_b x0b ++ [OpIntoOverlay 0].
Definition ops_read : list op := ops_ab ++ [OpBegin [1; 0]].
Definition ops_compete : list op := ops_ab ++ write_session [] key_a x0c ++ [OpCommitFinished 0].

Definition sample_run (os : list op) : option world := run toy_hash commit_ok store_ok os (init (root_of x00)).
Definition world_after (os : list op) : world := default (init []) (sample_run os).

Lemma world_after_reachable os :
  bool_decide (is_Some (sample_run os)) = true → reachable toy_hash commit_ok store_ok (world_after os).
Proof.
  intros [w Hw]%bool_decide_eq_true. exists (root_of x00), os. unfold world_after. by rewrite Hw.
Qed.

Definition session_ab : Session :=
  default {| s_overlay := LiveOverlay_empty; s_prev_root := [] |} (w_sessions (world_after ops_read) !! 0).

Lemma session_view_correct_witness :
  session_read (w_heap (world_after ops_read)) (λ _, Err ()) session_ab key_a = Ok (Some [x0a]).
Proof.
  destruct (session_view_correct toy_hash commit_ok store_ok (world_after ops_read) session_ab) as (_ & H & _).
  - apply world_after_reachable. vm_compute. reflexivity.
  - apply list_elem_of_lookup_2 with 0. vm_compute. reflexivity.
  - rewrite H. vm_compute. reflexivity.
Defined.

Definition finished_a : FinishedSession :=
  default {| f_value_transaction := []; f_root := []; f_updated_pages := λ _, []; f_rollback_delta := None;
             f_parent_overlay := LiveOverlay_empty; f_prev_root := [] |} (w_finished (world_after ops_a) !! 0).

Lemma into_overlay_correct_witness :
  ∃ ov h', into_overlay (w_heap (world_after ops_a)) finished_a = Some (ov, h') ∧ o_root ov = root_of x0a.
Proof.
  destruct (into_overlay_correct toy_hash commit_ok store_ok (world_after ops_a) finished_a)
    as (ov & h' & H & Hroot & _).
  - apply world_after_reachable. vm_compute. reflexivity.
  - apply list_elem_of_lookup_2 with 0. vm_compute. reflexivity.
  - vm_compute. exact I.
  - exists ov, h'. split; [exact H|]. rewrite Hroot. vm_compute. reflexivity.
Defined.

Definition nth_overlay (w : world) (i : nat) : OverlayInner :=
  default {| o_prev_root := []; o_root := []; o_index := Index_default; o_data := 0; o_seqn := 0;
             o_ancestor_data := []; o_rollback_delta := None |} (w_overlays w !! i).

Lemma live_overlay_new_correct_witness :
  let w := world_after ops_ab in
  ∃ live, LiveOverlay_new (w_heap w) [nth_overlay w 1; nth_overlay w 0] = Ok live ∧
    ancestor_data live = [o_data (nth_overlay w 0)].
Proof.
  intros w.
  assert (HR : reachable toy_hash commit_ok store_ok w) by (apply world_after_reachable; vm_compute; reflexivity).
  assert (Hin : nth_overlay w 1 ∈ w_overlays w) by (apply list_elem_of_lookup_2 with 1; vm_compute; reflexivity).
  pose proof (live_overlay_new_correct toy_hash commit_ok store_ok w (nth_overlay w 1) [nth_overlay w 0] HR Hin) as H.
  assert (He : is_ok (LiveOverlay_new (w_heap w) [nth_overlay w 1; nth_overlay w 0]) = true)
    by (vm_compute; reflexivity).
  assert (Hn : length (o_ancestor_data (nth_overlay w 1)) = 1) by (vm_compute; reflexivity).
  clearbody w. cbv zeta in H. destruct (LiveOverlay_new (w_heap w) _) as [live|e|]; [|discriminate He|discriminate He].
  destruct H as (_ & _ & Ha & _). exists live. split; [reflexivity|].
  rewrite Ha, Hn. reflexivity.
Defined.

