(* ===== verification/PageWalker.v ===== *)
(** * Walking and updating the page tree

    Models [nomt/src/merkle/page_walker.rs], [nomt/src/merkle/page_set.rs] and the
    accessors of page data of [nomt/src/page_cache.rs] they use.

    A page is its 4096 bytes.  Pages of the page pool are not zeroed: the content of
    the page the pool hands out for an identifier is a field of the page set, about
    which nothing is known but its size.  Vectors used as stacks of pages have
    their top first; the other vectors keep their order.  [None] is a panic.

    The flag [inhibit_elision], which exists in test builds only, is left out. *)

From S2P Require Import Prelude Trie PageId Update TriePos PageDiff Wal BitboxSync Overlay.

#[local] Open Scope nat_scope.

(** ** Page data *)

Definition read_node (data : list u8) (index : nat) : option Node :=
  let? _ := oassert (index <? NODES_PER_PAGE) in
  slice data (index * 32) (index * 32 + 32).

Definition set_node (data : list u8) (index : nat) (node : Node) : option (list u8) :=
  let? _ := oassert (index <? NODES_PER_PAGE) in
  copy_from_slice data (index * 32) (index * 32 + 32) node.

Definition set_elided_children (page : list u8) (elided_children : ElidedChildren) : option (list u8) :=
  copy_from_slice page (PAGE_SIZE - 32 - 8) (PAGE_SIZE - 32) (elided_to_bytes elided_children).

(** [PageMut::pristine_empty], on the page taken from the pool. *)
Definition pristine_empty (fat_page : list u8) (page_id : PageId) : option (list u8) :=
  let? page := copy_from_slice fat_page (PAGE_SIZE - 32) (length fat_page) (encode page_id) in
  set_elided_children page ElidedChildren_new.

(** ** The page set *)

(** [merkle::BucketInfo]; a dependent bucket is the identity of its shared cell. *)
Inductive BucketInfo :=
| BucketKnown (bucket : Z)
| BucketDependent (cell : nat)
| BucketFresh.

Inductive PageOrigin :=
| Persisted (bucket_info : BucketInfo)
| Reconstructed (counter : nat) (page_diff : PageDiff).

Definition origin_bucket_info (self : PageOrigin) : option BucketInfo :=
  match self with Persisted b => Some b | Reconstructed _ _ => None end.

Definition origin_leaves_counter (self : PageOrigin) : option nat :=
  match self with Reconstructed counter _ => Some counter | Persisted _ => None end.

Definition origin_page_diff (self : PageOrigin) : option PageDiff :=
  match self with Reconstructed _ d => Some d | Persisted _ => None end.

Abbreviation page_map := (gmap PageId (list u8 * PageOrigin)).

Record PageSet := {
  ps_map : page_map;
  ps_warm_up_map : option page_map;
  ps_page_pool : PageId → list u8;
}.

Definition page_set_get (self : PageSet) (page_id : PageId) : option (list u8 * PageOrigin) :=
  match ps_map self !! page_id with
  | Some r => Some r
  | None => let? m := ps_warm_up_map self in m !! page_id
  end.

Definition page_set_contains (self : PageSet) (page_id : PageId) : bool :=
  bool_decide (is_Some (ps_map self !! page_id)).

Definition page_set_fresh (self : PageSet) (page_id : PageId) : option (list u8) :=
  pristine_empty (ps_page_pool self page_id) page_id.

Definition page_set_insert (self : PageSet) (page_id : PageId) (page : list u8) (origin : PageOrigin) :
    PageSet :=
  {| ps_map := <[page_id := (page, origin)]> (ps_map self);
     ps_warm_up_map := ps_warm_up_map self;
     ps_page_pool := ps_page_pool self |}.

(** ** The state of the walker *)

Definition PAGE_ELISION_THRESHOLD : nat := 20.

Record UpdatedPage := {
  up_page_id : PageId;
  up_page : list u8;
  up_diff : PageDiff;
  up_bucket_info : BucketInfo;
}.

Record ReconstructedPage := {
  rp_page_id : PageId;
  rp_page : list u8;
  rp_leaves_counter : nat;
  rp_diff : PageDiff;
}.

Inductive PageWalkerPageOutput :=
| OutUpdated (page : UpdatedPage)
| OutReconstructed (page : ReconstructedPage).

Inductive Output :=
| Root (root : Node) (pages : list UpdatedPage)
| ChildPageRoots (roots : list (TriePosition * Node)) (pages : list UpdatedPage).

Record StackPage := mk_stack_page {
  sp_page_id : PageId;
  sp_page : list u8;
  sp_diff : PageDiff;
  sp_bucket_info : option BucketInfo;
  sp_leaves_counter : option nat;
  sp_elided_children : ElidedChildren;
  sp_reconstruction_diff : option PageDiff;
}.

Definition StackPage_new (page_id : PageId) (page : list u8) (diff : PageDiff) (page_origin : PageOrigin) :
    option StackPage :=
  let? elided_children := read_elided_children page in
  Some (mk_stack_page page_id page diff (origin_bucket_info page_origin)
          (origin_leaves_counter page_origin) elided_children (origin_page_diff page_origin)).

Definition total_diff (self : StackPage) : PageDiff :=
  match sp_reconstruction_diff self with
  | Some reconstruction_diff => diff_join reconstruction_diff (sp_diff self)
  | None => sp_diff self
  end.

Definition sp_set_page (page : list u8) (sp : StackPage) : StackPage :=
  mk_stack_page (sp_page_id sp) page (sp_diff sp) (sp_bucket_info sp) (sp_leaves_counter sp)
    (sp_elided_children sp) (sp_reconstruction_diff sp).
Definition sp_set_diff (diff : PageDiff) (sp : StackPage) : StackPage :=
  mk_stack_page (sp_page_id sp) (sp_page sp) diff (sp_bucket_info sp) (sp_leaves_counter sp)
    (sp_elided_children sp) (sp_reconstruction_diff sp).
Definition sp_set_elision (counter : option nat) (elided_children : ElidedChildren) (sp : StackPage) :
    StackPage :=
  mk_stack_page (sp_page_id sp) (sp_page sp) (sp_diff sp) (sp_bucket_info sp) counter
    elided_children (sp_reconstruction_diff sp).

Record PageWalker := mk_walker {
  pw_last_position : option TriePosition;
  pw_position : TriePosition;
  pw_parent_page : option PageId;
  pw_child_page_roots : list (TriePosition * Node);
  pw_root : Node;
  pw_output_pages : list PageWalkerPageOutput;
  pw_stack : list StackPage;
  pw_sibling_stack : list (Node * nat);
  pw_prev_node : option Node;
  pw_reconstruction : bool;
}.

Definition set_last_position p w :=
  mk_walker (Some p) (pw_position w) (pw_parent_page w) (pw_child_page_roots w) (pw_root w)
    (pw_output_pages w) (pw_stack w) (pw_sibling_stack w) (pw_prev_node w) (pw_reconstruction w).
Definition set_position p w :=
  mk_walker (pw_last_position w) p (pw_parent_page w) (pw_child_page_roots w) (pw_root w)
    (pw_output_pages w) (pw_stack w) (pw_sibling_stack w) (pw_prev_node w) (pw_reconstruction w).
Definition push_child_page_root r w :=
  mk_walker (pw_last_position w) (pw_position w) (pw_parent_page w) (pw_child_page_roots w ++ [r])
    (pw_root w) (pw_output_pages w) (pw_stack w) (pw_sibling_stack w) (pw_prev_node w)
    (pw_reconstruction w).
Definition set_root n w :=
  mk_walker (pw_last_position w) (pw_position w) (pw_parent_page w) (pw_child_page_roots w) n
    (pw_output_pages w) (pw_stack w) (pw_sibling_stack w) (pw_prev_node w) (pw_reconstruction w).
Definition push_output o w :=
  mk_walker (pw_last_position w) (pw_position w) (pw_parent_page w) (pw_child_page_roots w)
    (pw_root w) (pw_output_pages w ++ [o]) (pw_stack w) (pw_sibling_stack w) (pw_prev_node w)
    (pw_reconstruction w).
Definition set_stack st w :=
  mk_walker (pw_last_position w) (pw_position w) (pw_parent_page w) (pw_child_page_roots w)
    (pw_root w) (pw_output_pages w) st (pw_sibling_stack w) (pw_prev_node w) (pw_reconstruction w).
Definition set_siblings ss w :=
  mk_walker (pw_last_position w) (pw_position w) (pw_parent_page w) (pw_child_page_roots w)
    (pw_root w) (pw_output_pages w) (pw_stack w) ss (pw_prev_node w) (pw_reconstruction w).
Definition set_prev_node n w :=
  mk_walker (pw_last_position w) (pw_position w) (pw_parent_page w) (pw_child_page_roots w)
    (pw_root w) (pw_output_pages w) (pw_stack w) (pw_sibling_stack w) n (pw_reconstruction w).

Definition walker_new_inner (root : Node) (parent_page : option PageId) (reconstruction : bool) : PageWalker :=
  mk_walker None new parent_page [] root [] [] [] None reconstruction.

Definition walker_new (root : Node) (parent_page : option PageId) : PageWalker :=
  walker_new_inner root parent_page false.

Definition new_reconstructor (root : Node) (parent_page : PageId) : PageWalker :=
  walker_new_inner root (Some parent_page) true.

Section walker.
Context `{NodeHasher}.

(** ** Counting the leaves of a page *)

(** [while pos.depth() != initial_depth && pos.peek_last_bit() { pos.up(1) }]: the
    positions have at most six layers. *)
Fixpoint climb (fuel : nat) (pos : TriePosition) : option TriePosition :=
  match fuel with
  | 0 => None
  | S fuel' =>
      if pos_depth pos =? 0 then Some pos
      else
        let? bit := peek_last_bit pos in
        if (bit : bool) then let? pos := up 1 pos in climb fuel' pos else Some pos
  end.

Fixpoint count_leaves_loop (fuel : nat) (page : list u8) (pos : TriePosition) (counter : nat) : option nat :=
  match fuel with
  | 0 => None
  | S fuel' =>
      let? node := read_node page (node_index pos) in
      if is_internal node && negb (depth_in_page pos =? DEPTH) then
        let? pos := down false pos in
        count_leaves_loop fuel' page pos counter
      else
        let counter := if is_leaf node then counter + 1 else counter in
        let? pos := climb (S DEPTH) pos in
        if pos_depth pos =? 0 then Some counter
        else
          let? pos := sibling pos in
          count_leaves_loop fuel' page pos counter
  end.

(** Every iteration visits another node of the page. *)
Definition count_leaves (page : list u8) : option nat :=
  let? pos := down false new in
  count_leaves_loop NODES_PER_PAGE page pos 0.

(** ** Nodes at the current position *)

Definition stack_top (w : PageWalker) : option StackPage := head (pw_stack w).

(** [self.stack.last_mut().unwrap()] *)
Definition update_top (f : StackPage → option StackPage) (w : PageWalker) : option PageWalker :=
  match pw_stack w with
  | [] => None
  | top :: rest => let? top := f top in Some (set_stack (top :: rest) w)
  end.

Definition walker_node (w : PageWalker) : option Node :=
  let? top := stack_top w in
  read_node (sp_page top) (node_index (pw_position w)).

Definition sibling_node (w : PageWalker) : option Node :=
  let? top := stack_top w in
  read_node (sp_page top) (sibling_index (pw_position w)).

Definition walker_set_node (node : Node) (w : PageWalker) : option PageWalker :=
  let node_index := node_index (pw_position w) in
  let? sibling := sibling_node w in
  update_top (λ top,
    let? page := set_node (sp_page top) node_index node in
    let top := sp_set_page page top in
    if is_first_layer_in_page (pw_position w) && bool_decide (node = TERMINATOR)
       && bool_decide (sibling = TERMINATOR)
    then Some (sp_set_diff (set_cleared (sp_diff top)) top)
    else
      let? diff := set_changed (sp_diff top) node_index in
      Some (sp_set_diff diff top)) w.

Definition set_sibling (node : Node) (w : PageWalker) : option PageWalker :=
  let node_index := sibling_index (pw_position w) in
  update_top (λ top,
    let? page := set_node (sp_page top) node_index node in
    let? diff := set_changed (sp_diff top) node_index in
    Some (sp_set_diff diff (sp_set_page page top))) w.

(** ** Popping pages *)

Definition push_reconstructed (reconstructed : StackPage) (w : PageWalker) : option PageWalker :=
  let? counter := sp_leaves_counter reconstructed in
  Some (push_output (OutReconstructed
    {| rp_page_id := sp_page_id reconstructed; rp_page := sp_page reconstructed;
       rp_leaves_counter := counter; rp_diff := total_diff reconstructed |}) w).

Definition push_updated (updated : StackPage) (w : PageWalker) : PageWalker :=
  push_output (OutUpdated
    {| up_page_id := sp_page_id updated; up_page := sp_page updated; up_diff := total_diff updated;
       up_bucket_info := default BucketFresh (sp_bucket_info updated) |}) w.

Definition push_page (page : StackPage) (w : PageWalker) : option PageWalker :=
  if pw_reconstruction w then push_reconstructed page w else Some (push_updated page w).

(** The child index under which a page hangs below its parent. *)
Definition page_child_index (page_id : PageId) : option nat :=
  let? i := child_index_at_level page_id (depth page_id - 1) in Some (Z.to_nat i).

(** The branch of [handle_elision_threshold] for a page below the threshold, with
    [leaves] leaves in its sub-trie. *)
Definition elide_page (leaves : nat) (stack_page : StackPage) (w : PageWalker) : option PageWalker :=
  let? child_index := page_child_index (sp_page_id stack_page) in
  let? w := update_top (λ parent, Some
    (sp_set_elision ((λ c, c + leaves) <$> sp_leaves_counter parent)
       (set_elide (sp_elided_children parent) child_index true) parent)) w in
  if pw_reconstruction w then push_reconstructed stack_page w
  else if bool_decide (is_Some (sp_bucket_info stack_page)) then
    Some (push_updated (sp_set_diff (set_cleared (sp_diff stack_page)) stack_page) w)
  else Some w.

(** The other pages with a parent on the stack. *)
Definition keep_page (stack_page : StackPage) (w : PageWalker) : option PageWalker :=
  let? child_index := page_child_index (sp_page_id stack_page) in
  let? w := update_top (λ parent, Some
    (sp_set_elision None (set_elide (sp_elided_children parent) child_index false) parent)) w in
  push_page stack_page w.

Definition handle_elision_threshold (w : PageWalker) : option PageWalker :=
  match pw_stack w with
  | [] => Some w
  | stack_page :: stack =>
      let w := set_stack stack w in
      let? stack_page :=
        if bool_decide (sp_page_id stack_page = ROOT_PAGE_ID) then Some stack_page
        else
          let? page := set_elided_children (sp_page stack_page) (sp_elided_children stack_page) in
          Some (sp_set_page page stack_page) in
      if bool_decide (stack = []) || bool_decide (parent_page_id (sp_page_id stack_page) = ROOT_PAGE_ID)
      then push_page stack_page w
      else
        match sp_leaves_counter stack_page with
        | Some leaves_counter =>
            let? n_leaves := count_leaves (sp_page stack_page) in
            if n_leaves + leaves_counter <? PAGE_ELISION_THRESHOLD
            then elide_page (n_leaves + leaves_counter) stack_page w
            else keep_page stack_page w
        | None => keep_page stack_page w
        end
  end.

(** ** Moving *)

Definition walker_up (w : PageWalker) : option PageWalker :=
  let? w := if depth_in_page (pw_position w) =? 1 then handle_elision_threshold w else Some w in
  let? p := up 1 (pw_position w) in
  Some (set_position p w).

Definition push_stack_page (page_id : PageId) (page : list u8) (origin : PageOrigin) (w : PageWalker) :
    option PageWalker :=
  let? sp := StackPage_new page_id page default_diff origin in
  Some (set_stack (sp :: pw_stack w) w).

(** The page to push when the walk enters [page_id]. *)
Definition enter_page (page_set : PageSet) (page_id : PageId) (fresh : bool) (w : PageWalker) :
    option PageWalker :=
  let? (page, page_origin) :=
    if fresh then
      let? page := page_set_fresh page_set page_id in
      Some (page, Reconstructed 0 default_diff)
    else page_set_get page_set page_id in
  push_stack_page page_id page page_origin w.

Definition down_one (page_set : PageSet) (fresh : bool) (bit : bool) (w : PageWalker) : option PageWalker :=
  let? w :=
    if is_root (pw_position w) then enter_page page_set ROOT_PAGE_ID fresh w
    else if depth_in_page (pw_position w) =? DEPTH then
      let? parent_stack_page := stack_top w in
      let? child_page_index := child_page_index (pw_position w) in
      match child_page_id (sp_page_id parent_stack_page) child_page_index with
      | Ok child_page_id => enter_page page_set child_page_id fresh w
      | _ => None
      end
    else Some w in
  let? p := down bit (pw_position w) in
  Some (set_position p w).

Fixpoint walker_down (page_set : PageSet) (bit_path : list bool) (fresh : bool) (w : PageWalker) :
    option PageWalker :=
  match bit_path with
  | [] => Some w
  | bit :: bit_path' =>
      let? w := down_one page_set fresh bit w in
      walker_down page_set bit_path' fresh w
  end.

(** ** Replacing nodes *)

Definition place_node (node : Node) (w : PageWalker) : option PageWalker :=
  if is_root (pw_position w) then Some (set_root node (set_prev_node (Some (pw_root w)) w))
  else
    let? prev_node := walker_node w in
    walker_set_node node (set_prev_node (Some prev_node) w).

(** The closure [replace_terminal] passes to [build_trie]: clearing the sibling,
    the movement up or to the sibling with the rest of [down], the movement down,
    and the write. *)
Definition zero_sibling (control : WriteNode) (w : PageWalker) : option PageWalker :=
  match control with
  | WInternal internal_data _ =>
      let? bit := peek_last_bit (pw_position w) in
      let zero_sibling :=
        if (bit : bool) then is_terminator (left internal_data) else is_terminator (right internal_data) in
      if zero_sibling then set_sibling TERMINATOR w else Some w
  | _ => Some w
  end.

Definition move_up (up : bool) (down : list bool) (w : PageWalker) : option (PageWalker * list bool) :=
  match up, down with
  | true, bit :: down' =>
      let? last_bit := peek_last_bit (pw_position w) in
      if Bool.eqb bit (negb last_bit) then
        let? p := sibling (pw_position w) in
        Some (set_position p w, down')
      else
        let? w := walker_up w in
        Some (w, down)
  | true, [] =>
      let? w := walker_up w in
      Some (w, down)
  | false, _ => Some (w, down)
  end.

Definition move_down (page_set : PageSet) (start_depth : nat) (down : list bool) (w : PageWalker) :
    option PageWalker :=
  let fresh := start_depth <? pos_depth (pw_position w) in
  match down with
  | bit :: down' =>
      if fresh then walker_down page_set down true w
      else
        let? w := walker_down page_set [bit]
          ((depth_in_page (pw_position w) =? DEPTH) || is_root (pw_position w)) w in
        walker_down page_set down' true w
  | [] => Some w
  end.

Definition write_control (page_set : PageSet) (start_depth : nat) (control : WriteNode) (w : PageWalker) :
    option PageWalker :=
  let? w := zero_sibling control w in
  let? (w, down) := move_up (write_up control) (write_down control) w in
  let? w := move_down page_set start_depth down w in
  if is_root (pw_position w) then Some (set_root (write_node control) w)
  else walker_set_node (write_node control) w.

Fixpoint write_controls (page_set : PageSet) (start_depth : nat) (controls : list WriteNode) (w : PageWalker) :
    option PageWalker :=
  match controls with
  | [] => Some w
  | control :: controls' =>
      let? w := write_control page_set start_depth control w in
      write_controls page_set start_depth controls' w
  end.

Definition replace_terminal (page_set : PageSet) (ops : ops_t) (w : PageWalker) : option PageWalker :=
  let? node := if is_root (pw_position w) then Some (pw_root w) else walker_node w in
  let w := set_prev_node (Some node) w in
  let? _ := oassert (pw_reconstruction w || negb (is_internal node)) in
  let start_position := pw_position w in
  let? (_, controls) := build_trie (pos_depth (pw_position w)) ops in
  let? w := write_controls page_set (pos_depth start_position) controls w in
  let? _ :=
    if is_root (pw_position w) then oassert (bool_decide (pw_stack w = []))
    else
      let? top := stack_top w in
      let? page_id := page_id (pw_position w) in
      oassert (bool_decide (Some (sp_page_id top) = page_id)) in
  Some w.

(** ** Compacting and hashing upwards *)

Definition compact_step (w : PageWalker) : option (PageWalker * Node) :=
  let? node := walker_node w in
  let? sibling_node := sibling_node w in
  let? bit := peek_last_bit (pw_position w) in
  match node_kind node, node_kind sibling_node with
  | Terminator, Terminator => Some (w, TERMINATOR)
  | Leaf, Terminator =>
      let? w := walker_set_node TERMINATOR w in
      Some (w, node)
  | Terminator, Leaf =>
      let? p := sibling (pw_position w) in
      let? w := walker_set_node TERMINATOR (set_position p w) in
      Some (w, sibling_node)
  | _, _ =>
      let node_data :=
        if (bit : bool) then {| left := sibling_node; right := node |}
        else {| left := node; right := sibling_node |} in
      Some (w, hash_internal node_data)
  end.

(** The [for] loop over [compact_layers], with [n] layers to go. *)
Fixpoint compact_loop (n : nat) (w : PageWalker) : option PageWalker :=
  match n with
  | 0 => Some w
  | S n' =>
      let? (w, next_node) := compact_step w in
      let? w := walker_up w in
      match pw_stack w with
      | [] =>
          Some match pw_parent_page w with
               | None => set_root next_node w
               | Some _ => push_child_page_root (pw_position w, next_node) w
               end
      | _ =>
          let? w :=
            if n' =? 0 then
              let? node := walker_node w in
              Some (set_siblings (pw_sibling_stack w ++ [(node, pos_depth (pw_position w))]) w)
            else Some w in
          let? w := walker_set_node next_node w in
          compact_loop n' w
      end
  end.

(** The number of layers to compact, with the bookkeeping of the siblings. *)
Definition prepare_compact (target_pos : option TriePosition) (w : PageWalker) : option (PageWalker * nat) :=
  let current_depth := pos_depth (pw_position w) in
  match target_pos with
  | Some target_pos =>
      let shared_depth := shared_depth (pw_position w) target_pos in
      let w := set_siblings (take_while (λ s, s.2 <=? shared_depth) (pw_sibling_stack w)) w in
      let? _ := oassert (shared_depth + 1 <=? current_depth) in
      let compact_layers := current_depth - (shared_depth + 1) in
      let w :=
        if compact_layers =? 0 then
          match pw_prev_node w with
          | Some prev_node =>
              set_siblings (pw_sibling_stack w ++ [(prev_node, current_depth)]) (set_prev_node None w)
          | None => w
          end
        else set_prev_node None w in
      Some (w, compact_layers)
  | None => Some (set_siblings [] w, current_depth)
  end.

Definition compact_up (target_pos : option TriePosition) (w : PageWalker) : option PageWalker :=
  if bool_decide (pw_stack w = []) then Some w
  else
    let? (w, compact_layers) := prepare_compact target_pos w in
    compact_loop compact_layers w.

(** ** Building the stack for a position *)

Definition assert_page_in_scope (page_id : option PageId) (w : PageWalker) : option () :=
  match page_id, pw_parent_page w with
  | Some page_id, Some parent_page =>
      let? _ := oassert (negb (bool_decide (page_id = parent_page))) in
      oassert (is_descendant_of page_id parent_page)
  | Some _, None => Some ()
  | None, parent_page => oassert (bool_decide (parent_page = None))
  end.

(** [while !self.stack.is_empty() { self.handle_elision_threshold() }]; every
    iteration pops a page. *)
Fixpoint pop_all (fuel : nat) (w : PageWalker) : option PageWalker :=
  match fuel with
  | 0 => Some w
  | S fuel' =>
      if bool_decide (pw_stack w = []) then Some w
      else
        let? w := handle_elision_threshold w in
        pop_all fuel' w
  end.

(** The pages from [cur_ancestor] up to the target, which is not included, or to
    the root page, which is; the deepest first.  The loop visits one page of every
    depth, and reversing what it pushed puts the deepest on top. *)
Fixpoint ancestor_pages (fuel : nat) (page_set : PageSet) (target : option PageId) (cur_ancestor : PageId) :
    option (list StackPage) :=
  match fuel with
  | 0 => None
  | S fuel' =>
      if bool_decide (Some cur_ancestor = target) then Some []
      else
        let? (page, page_origin) := page_set_get page_set cur_ancestor in
        let? sp := StackPage_new cur_ancestor page default_diff page_origin in
        if bool_decide (cur_ancestor = ROOT_PAGE_ID) then Some [sp]
        else
          let? pages := ancestor_pages fuel' page_set target (parent_page_id cur_ancestor) in
          Some (sp :: pages)
  end.

Definition build_stack (page_set : PageSet) (position : TriePosition) (w : PageWalker) : option PageWalker :=
  let? new_page_id := page_id position in
  let? _ := assert_page_in_scope new_page_id w in
  let w := set_position position w in
  match new_page_id with
  | None => pop_all (length (pw_stack w)) w
  | Some page_id =>
      let target :=
        match stack_top w with
        | Some item => Some (sp_page_id item)
        | None => pw_parent_page w
        end in
      let? pages := ancestor_pages (S (depth page_id)) page_set target page_id in
      Some (set_stack (pages ++ pw_stack w) w)
  end.

(** ** Advancing *)

(** The common start of the three [advance] functions. *)
Definition compact_to (new_pos : TriePosition) (w : PageWalker) : option PageWalker :=
  match pw_last_position w with
  | Some pos =>
      let? _ := oassert (bits_ltb (path pos) (path new_pos)) in
      compact_up (Some new_pos) w
  | None => Some w
  end.

Definition advance_and_replace (page_set : PageSet) (new_pos : TriePosition) (ops : ops_t) (w : PageWalker) :
    option PageWalker :=
  let? w := compact_to new_pos w in
  let w := set_last_position new_pos w in
  let? w := build_stack page_set new_pos w in
  replace_terminal page_set ops w.

Definition advance_and_place_node (page_set : PageSet) (new_pos : TriePosition) (node : Node) (w : PageWalker) :
    option PageWalker :=
  let? w := compact_to new_pos w in
  let w := set_last_position new_pos w in
  let? w := build_stack page_set new_pos w in
  place_node node w.

Definition advance (new_pos : TriePosition) (w : PageWalker) : option PageWalker :=
  let? w := compact_to new_pos w in
  let? page_id := page_id new_pos in
  let? _ := assert_page_in_scope page_id w in
  Some (set_last_position new_pos w).

(** ** Concluding *)

Definition updated_page (o : PageWalkerPageOutput) : option UpdatedPage :=
  match o with OutUpdated u => Some u | OutReconstructed _ => None end.

Definition reconstructed_page (o : PageWalkerPageOutput) : option ReconstructedPage :=
  match o with OutReconstructed r => Some r | OutUpdated _ => None end.

Definition conclude (w : PageWalker) : option Output :=
  let? _ := oassert (negb (pw_reconstruction w)) in
  let? w := compact_up None w in
  let? updated_pages := mapM updated_page (pw_output_pages w) in
  Some match pw_parent_page w with
       | None => Root (pw_root w) updated_pages
       | Some _ => ChildPageRoots (pw_child_page_roots w) updated_pages
       end.

(** ** Reconstructing elided pages *)

(** The operations [next_if] yields for the left sub-trie, and the rest. *)
Fixpoint split_ops (divisor_bit : nat) (ops : ops_t) : option (ops_t * ops_t) :=
  match ops with
  | [] => Some ([], [])
  | (k, v) :: ops' =>
      let? bit := view_bits k !! divisor_bit in
      if (bit : bool) then Some ([], ops)
      else
        let? (l, r) := split_ops divisor_bit ops' in
        Some ((k, v) :: l, r)
  end.

(** The page set with the first page to reconstruct, which is a page whose two
    sub-tries are empty. *)
Definition insert_first_page (page_set : PageSet) (first_elided_page_id : PageId) : option PageSet :=
  let? page := page_set_fresh page_set first_elided_page_id in
  let? page := set_node page 0 TERMINATOR in
  let? page := set_node page 1 TERMINATOR in
  let? diff := set_changed default_diff 0 in
  let? diff := set_changed diff 1 in
  Some (page_set_insert page_set first_elided_page_id page (Reconstructed 0 diff)).

(** The outer option is a panic, the inner one the early return. *)
Definition reconstruct (page_set : PageSet) (position : TriePosition) (ops : ops_t) (w : PageWalker) :
    option (PageSet * option (Node * list ReconstructedPage)) :=
  let? _ := oassert (pw_reconstruction w) in
  let? parent_page_id := pw_parent_page w in
  let? child_page_index := child_page_index position in
  let? first_elided_page_id :=
    match child_page_id parent_page_id child_page_index with Ok p => Some p | _ => None end in
  if page_set_contains page_set first_elided_page_id then Some (page_set, None)
  else
    let? page_set := insert_first_page page_set first_elided_page_id in
    let divisor_bit := (depth parent_page_id + 1) * DEPTH in
    let? (left_subtree_ops, right_subtree_ops) := split_ops divisor_bit ops in
    let? left_subtree_position := down false position in
    let? w := advance_and_replace page_set left_subtree_position left_subtree_ops w in
    let? right_subtree_position := down true position in
    let? w := advance_and_replace page_set right_subtree_position right_subtree_ops w in
    let? w := compact_up None w in
    let? reconstructed_pages := mapM reconstructed_page (pw_output_pages w) in
    let? root := pw_child_page_roots w !! 0 in
    Some (page_set, Some (root.2, reconstructed_pages)).

Definition reconstruct_pages (page : list u8) (page_id : PageId) (position : TriePosition)
    (page_set : PageSet) (ops : ops_t) : option (PageSet * option (list ReconstructedPage)) :=
  let? subtree_root := read_node page (node_index position) in
  let page_walker := new_reconstructor subtree_root page_id in
  let? (page_set, r) := reconstruct page_set position ops page_walker in
  match r with
  | None => Some (page_set, None)
  | Some (root, reconstructed_pages) =>
      let? _ := oassert (bool_decide (root = subtree_root)) in
      Some (page_set, Some reconstructed_pages)
  end.
End walker.
