(* ===== verification/PagePaths.v ===== *)
(** * Where the pages keep the nodes of a path

    The page of a bit path and the pages above it, in terms of the bits alone; what
    reading and writing a node does to the slots of a page.  The lemmas tie them to
    the positions of [TriePos.v] and to the page data of [PageWalker.v]. *)

From S2P Require Import Prelude Trie PageId Update TriePos PageDiff Wal BitboxSync PageWalker.

#[local] Open Scope nat_scope.

(** ** Pages of paths *)

(** The page at level [k] above the nodes of a path, and the page of its last node. *)
Definition page_lvl (q : list bool) (k : nat) : PageId :=
  {| PageId.path := (λ i, bits_Z (take 6 (drop (6 * i) q))) <$> seq 0 k |}.
Definition level (q : list bool) : nat := (length q - 1) / 6.
Definition page_of (q : list bool) : PageId := page_lvl q (level q).

Lemma depth_page_lvl q k : depth (page_lvl q k) = k.
Proof. unfold depth, page_lvl. cbn [PageId.path]. by rewrite length_fmap, length_seq. Qed.

Lemma page_lvl_0 q : page_lvl q 0 = ROOT_PAGE_ID.
Proof. done. Qed.

Lemma page_lvl_S q k :
  page_lvl q (S k) = {| PageId.path := PageId.path (page_lvl q k) ++ [bits_Z (take 6 (drop (6 * k) q))] |}.
Proof. unfold page_lvl. cbn [PageId.path]. by rewrite seq_S, fmap_app. Qed.

Lemma page_lvl_inj_level q q' k k' : page_lvl q k = page_lvl q' k' → k = k'.
Proof. intros Hp. by rewrite <-(depth_page_lvl q k), Hp, depth_page_lvl. Qed.

Lemma page_lvl_root q k : page_lvl q k = ROOT_PAGE_ID ↔ k = 0.
Proof.
  split; [|by intros ->]. rewrite <-(page_lvl_0 q). apply page_lvl_inj_level.
Qed.

Lemma page_lvl_ext q q' k :
  take (6 * k) q = take (6 * k) q' → page_lvl q k = page_lvl q' k.
Proof.
  intros Ht. unfold page_lvl. f_equal. apply list_fmap_ext. intros i j [-> Hj]%lookup_seq.
  f_equal. rewrite !take_drop_commute. f_equal.
  replace (6 * (0 + i) + 6) with ((6 * i + 6) `min` (6 * k)) by lia.
  by rewrite <-!take_take, Ht.
Qed.

Lemma page_lvl_app q s k : 6 * k ≤ length q → page_lvl (q ++ s) k = page_lvl q k.
Proof. intros Hk. apply page_lvl_ext. by rewrite take_app_le. Qed.

Lemma page_lvl_prefix q q' k : q `prefix_of` q' → 6 * k ≤ length q → page_lvl q' k = page_lvl q k.
Proof. intros [s ->] Hk. by apply page_lvl_app. Qed.

Lemma page_bits_lvl q k : 6 * k ≤ length q → page_bits (page_lvl q k) = take (6 * k) q.
Proof.
  induction k as [|k IH]; intros Hk; [done|].
  rewrite page_lvl_S. unfold page_bits in *. cbn [PageId.path]. rewrite bind_app, IH by lia.
  change ([bits_Z (take 6 (drop (6 * k) q))] ≫= child_bits)
    with (child_bits (bits_Z (take 6 (drop (6 * k) q))) ++ []).
  rewrite app_nil_r, child_bits_Z by (rewrite length_take, length_drop; lia).
  rewrite (take_take_drop q (6 * k) 6). f_equal. lia.
Qed.

Lemma level_bounds q : q ≠ [] → 6 * level q < length q ≤ 6 * level q + 6.
Proof.
  intros Hq. unfold level. assert (length q ≠ 0) by (by destruct q).
  pose proof (Nat.div_mod (length q - 1) 6 ltac:(lia)).
  pose proof (Nat.mod_upper_bound (length q - 1) 6 ltac:(lia)). lia.
Qed.

Lemma level_unique q k : 6 * k < length q ≤ 6 * k + 6 → level q = k.
Proof.
  intros Hk. pose proof (level_bounds q ltac:(by intros ->; simpl in *; lia)). lia.
Qed.

Lemma level_snoc l b : level (l ++ [b]) = length l / 6.
Proof. unfold level. rewrite length_snoc. f_equal. lia. Qed.

Lemma page_of_lvl q k : 6 * k < length q ≤ 6 * k + 6 → page_of q = page_lvl q k.
Proof. intros Hk. unfold page_of. by rewrite (level_unique q k). Qed.

(** The nodes of a page lie strictly below the bits of the page. *)
Lemma page_of_bits q : q ≠ [] → q = page_bits (page_of q) ++ page_suffix q.
Proof.
  intros Hq. pose proof (level_bounds q Hq). unfold page_of.
  rewrite page_bits_lvl by lia. unfold page_suffix, DEPTH. fold (level q).
  by rewrite Nat.mul_comm, take_drop.
Qed.

Lemma page_of_region l b r k :
  6 * k ≤ length r → page_of (l ++ [b]) = page_lvl r k → take (6 * k) r `prefix_of` l.
Proof.
  intros Hk Hp. pose proof (level_bounds (l ++ [b]) ltac:(by destruct l)) as Hb.
  pose proof (page_lvl_inj_level _ _ _ _ Hp) as Hl. rewrite length_snoc in Hb.
  apply (f_equal page_bits) in Hp. rewrite page_bits_lvl in Hp by done.
  unfold page_of in Hp. rewrite page_bits_lvl, Hl, take_app_le in Hp by (rewrite ?length_snoc; lia).
  rewrite <-Hp. exists (drop (6 * k) l). by rewrite take_drop.
Qed.

(** No two paths share a slot. *)
Lemma slot_inj q q' :
  q ≠ [] → q' ≠ [] → page_of q = page_of q' → index_of_path q = index_of_path q' → q = q'.
Proof.
  intros Hq Hq' Hp Hi. apply index_of_suffix_inj in Hi; [|done..].
  rewrite (page_of_bits q Hq), (page_of_bits q' Hq'). congruence.
Qed.

Lemma page_of_sibling l b b' : page_of (l ++ [b]) = page_of (l ++ [b']).
Proof.
  unfold page_of. rewrite !level_snoc. rewrite !page_lvl_app; [done|..];
    pose proof (Nat.div_mod (length l) 6 ltac:(lia)); lia.
Qed.

Lemma page_of_child l b :
  page_of (l ++ [b]) = page_lvl l (length l / 6).
Proof.
  unfold page_of. rewrite level_snoc, page_lvl_app; [done|].
  pose proof (Nat.div_mod (length l) 6 ltac:(lia)). lia.
Qed.

(** ** Positions *)

Lemma page_id_path p :
  pos_ok p → path p ≠ [] → page_id p = Some (Some (page_of (path p))).
Proof.
  intros Hp Hne. pose proof (length_path p Hp) as Hl.
  assert (pos_depth p ≠ 0) by (intros E; rewrite E in Hl; by destruct (path p)).
  rewrite page_id_spec by done. unfold page_of, level. rewrite Hl. do 2 f_equal.
  unfold page_at, page_lvl. f_equal. apply list_fmap_ext. intros i j [-> Hj]%lookup_seq.
  unfold sextet, path. f_equal. rewrite !take_drop_commute, take_take. do 2 f_equal.
  pose proof (Nat.div_mod (pos_depth p - 1) 6 ltac:(lia)). lia.
Qed.

Lemma pos_depth_path p : pos_ok p → pos_depth p = length (path p).
Proof. intros Hp. by rewrite length_path. Qed.

Lemma is_root_path p : pos_ok p → is_root p = bool_decide (path p = []).
Proof.
  intros Hp. unfold is_root. rewrite pos_depth_path by done.
  destruct (path p); [done|]. by rewrite bool_decide_eq_false_2.
Qed.

Lemma depth_in_page_path p : pos_ok p → path p ≠ [] → depth_in_page p = length (path p) - 6 * level (path p).
Proof.
  intros Hp Hne. rewrite depth_in_page_spec; [|done|].
  - destruct (page_suffix_length (path p) Hne) as [-> _]. unfold level. lia.
  - rewrite pos_depth_path by done. by destruct (path p).
Qed.

Lemma peek_last_bit_path p l b : pos_ok p → path p = l ++ [b] → peek_last_bit p = Some b.
Proof.
  intros Hp Hl. unfold peek_last_bit. rewrite pos_depth_path, Hl, length_snoc by done. simpl oassert.
  cbn [mbind option_bind]. replace (S (length l) - 1) with (length l) by lia.
  pose proof (length_path p Hp) as Hlp. rewrite Hl, length_snoc in Hlp.
  rewrite <-(lookup_take_lt _ (pos_depth p)) by lia. fold (path p). rewrite Hl.
  by apply list_lookup_middle.
Qed.

Lemma up_path p l b :
  pos_ok p → path p = l ++ [b] → ∃ q, up 1 p = Some q ∧ pos_ok q ∧ path q = l.
Proof.
  intros Hp Hl. pose proof (length_path p Hp) as Hlp. rewrite Hl, length_snoc in Hlp.
  destruct (up_spec 1 p Hp ltac:(lia)) as (q & Hq & Hok & Hpath). exists q. split_and!; [done..|].
  rewrite Hpath, Hl, <-Hlp. replace (S (length l) - 1) with (length l) by lia. by rewrite take_app_length.
Qed.

Lemma first_layer_index n : Z.land (Z.of_nat n) (Z.lnot 1) = 0%Z ↔ n < 2.
Proof.
  split.
  - intros Hz. apply (f_equal (λ z, Z.shiftr z 1)) in Hz. rewrite Z.shiftr_land in Hz.
    change (Z.shiftr (Z.lnot 1) 1) with (-1)%Z in Hz. rewrite Z.land_m1_r, Z.shiftr_div_pow2 in Hz by lia.
    change (Z.shiftr 0 1) with 0%Z in Hz. change (2 ^ 1)%Z with 2%Z in Hz. pose proof (Z.div_mod (Z.of_nat n) 2). pose proof (Z.mod_pos_bound (Z.of_nat n) 2). lia.
  - intros Hn. assert (n = 0 ∨ n = 1) as [-> | ->] by lia; done.
Qed.

(** The page below a node of the last layer. *)
Lemma child_page_path p :
  pos_ok p → path p ≠ [] → length (path p) mod 6 = 0 → length (path p) < 256 →
  ∃ i, child_page_index p = Some i ∧
    child_page_id (page_of (path p)) i = Ok (page_lvl (path p) (length (path p) / 6)).
Proof.
  intros Hp Hne Hm Hlt. pose proof (level_bounds _ Hne) as Hlv.
  pose proof (Nat.div_mod (length (path p)) 6 ltac:(lia)) as Hdm.
  destruct (child_page_index_spec p Hp) as (m & Hd & Hm42 & Hi).
  { rewrite depth_in_page_path by done. lia. }
  pose proof (length_path p Hp) as Hl. exists (sextet (pos_path p) m). split; [done|].
  assert (level (path p) = m ∧ length (path p) / 6 = S m) as [Hlm ->] by lia.
  unfold child_page_id, page_of. rewrite Hlm.
  assert (Hpl : length (PageId.path (page_lvl (path p) m)) = m) by apply depth_page_lvl.
  rewrite Hpl, (proj2 (Nat.leb_gt _ _)) by (unfold MAX_PAGE_DEPTH; lia).
  unfold push. rewrite Hpl, (proj2 (Nat.ltb_lt _ _)) by (unfold MAX_PAGE_DEPTH; lia).
  cbn [or_panic obind]. rewrite page_lvl_S. do 4 f_equal.
  unfold sextet, path. rewrite !take_drop_commute, take_take. do 3 f_equal. lia.
Qed.

Lemma parent_page_lvl q k : parent_page_id (page_lvl q (S k)) = page_lvl q k.
Proof.
  unfold parent_page_id. rewrite bool_decide_eq_false_2.
  - rewrite page_lvl_S. cbn [PageId.path]. rewrite length_snoc.
    replace (S (length (PageId.path (page_lvl q k))) - 1) with (length (PageId.path (page_lvl q k))) by lia.
    by rewrite take_app_length.
  - intros E. by apply page_lvl_root in E.
Qed.

(** ** The slots of a page *)

Definition page_sized (page : list u8) : Prop := length page = PAGE_SIZE.

Lemma read_node_spec page i :
  page_sized page → i < NODES_PER_PAGE → read_node page i = Some (page_slot page i).
Proof.
  intros Hp Hi. unfold read_node. rewrite (proj2 (Nat.ltb_lt _ _) Hi). cbn [oassert mbind option_bind].
  rewrite slice_Some; [|lia|].
  - unfold page_slot. do 2 f_equal. lia.
  - rewrite Hp. change NODES_PER_PAGE with 126 in Hi. unfold PAGE_SIZE. lia.
Qed.

Lemma set_node_spec page i node :
  page_sized page → i < NODES_PER_PAGE → length node = 32 →
  ∃ page', set_node page i node = Some page' ∧ page_sized page' ∧
    (∀ j, j < NODES_PER_PAGE → page_slot page' j = if decide (j = i) then node else page_slot page j) ∧
    page_tail page' = page_tail page.
Proof.
  intros Hp Hi Hn. unfold set_node. rewrite (proj2 (Nat.ltb_lt _ _) Hi). cbn [oassert mbind option_bind].
  destruct (copy_nodes_spec (λ _, node) [i] page) as (r & Hr & Hl & Hs & Ht).
  { done. } { constructor; [done|constructor]. } { rewrite Hp. vm_compute. lia. }
  cbn in Hr. destruct (copy_from_slice page (i * 32) (i * 32 + 32) node) as [r'|]; [|done].
  cbn in Hr. injection Hr as ->. exists r. split_and!; [done|by unfold page_sized; rewrite Hl| |done].
  intros j Hj. rewrite Hs by done. repeat case_decide; set_solver.
Qed.

(** Writes behind the slots keep them. *)
Lemma copy_behind_slots page a b src :
  page_sized page → NODES_PER_PAGE * 32 ≤ a → a ≤ b → b ≤ PAGE_SIZE → length src = b - a →
  ∃ page', copy_from_slice page a b src = Some page' ∧ page_sized page' ∧
    ∀ j, j < NODES_PER_PAGE → page_slot page' j = page_slot page j.
Proof.
  intros Hp Ha Hab Hb Hs.
  assert (Hc : copy_from_slice page a b src = Some (take a page ++ src ++ drop b page)).
  { apply copy_from_slice_Some; rewrite ?Hp; lia. }
  eexists. split; [exact Hc|]. split.
  { unfold page_sized. by rewrite (copy_from_slice_length _ _ _ _ _ Hc). }
  intros j Hj. apply list_eq. intros k. rewrite !page_slot_lookup.
  destruct (Nat.ltb_spec k 32); [|done]. rewrite (copy_from_slice_lookup _ _ _ _ _ _ Hc).
  rewrite (proj2 (Nat.leb_gt _ _)) by lia. done.
Qed.

Lemma set_elided_children_spec page ec :
  page_sized page →
  ∃ page', set_elided_children page ec = Some page' ∧ page_sized page' ∧
    ∀ j, j < NODES_PER_PAGE → page_slot page' j = page_slot page j.
Proof.
  intros Hp. apply copy_behind_slots; [done|vm_compute; lia..|]. unfold elided_to_bytes.
  by rewrite length_to_le_bytes.
Qed.

Lemma read_elided_children_total page : page_sized page → is_Some (read_elided_children page).
Proof.
  intros Hp. unfold read_elided_children. rewrite slice_Some by (rewrite ?Hp; vm_compute; lia). by eexists.
Qed.

Lemma page_set_fresh_spec ps id :
  page_sized (ps_page_pool ps id) → ∃ page, page_set_fresh ps id = Some page ∧ page_sized page.
Proof.
  intros Hp. unfold page_set_fresh, pristine_empty. rewrite Hp.
  destruct (copy_behind_slots (ps_page_pool ps id) (PAGE_SIZE - 32) PAGE_SIZE (encode id))
    as (page & -> & Hs & _); [done|vm_compute; lia..|by rewrite length_encode|].
  cbn [mbind option_bind].
  destruct (set_elided_children_spec page ElidedChildren_new Hs) as (page' & -> & ? & _). eauto.
Qed.
