(* ===== verification/PageLeaves.v ===== *)
(** * Counting the leaves of a page

    [count_leaves] of [page_walker.rs] walks a page, which may have garbage in its
    unreachable slots, with a position and two nested loops.  It returns, for every
    content of the page, the number of leaves a recursive descent finds. *)

From S2P Require Import Prelude Trie PageId Update TriePos PageDiff Wal BitboxSync PageWalker PagePaths.

#[local] Open Scope nat_scope.

Section leaves.
Context `{NodeHasher} (page : list u8) (Hpage : page_sized page).

(** The leaves at or below the node of a path, with [d] layers of the page below it. *)
Fixpoint leaves_under (d : nat) (q : list bool) : nat :=
  let node := page_slot page (index_of_path q) in
  match d with
  | S d' =>
      if is_internal node then leaves_under d' (q ++ [false]) + leaves_under d' (q ++ [true])
      else if is_leaf node then 1 else 0
  | 0 => if is_leaf node then 1 else 0
  end.

Definition page_leaves : nat := leaves_under 5 [false] + leaves_under 5 [true].

(** The loops on paths, whose last bit comes first. *)
Fixpoint climb_path (q : list bool) : list bool :=
  match q with true :: q' => climb_path q' | _ => q end.

Fixpoint loop_path (fuel : nat) (q : list bool) (counter : nat) : option nat :=
  match fuel with
  | 0 => None
  | S fuel' =>
      let node := page_slot page (index_of_path (rev q)) in
      if is_internal node && negb (length q =? 6) then loop_path fuel' (false :: q) counter
      else
        let counter := if is_leaf node then counter + 1 else counter in
        match climb_path q with
        | [] => Some counter
        | b :: q' => loop_path fuel' (negb b :: q') counter
        end
  end.

Definition next_path (fuel : nat) (q : list bool) (counter : nat) : option nat :=
  match climb_path q with
  | [] => Some counter
  | b :: q' => loop_path fuel (negb b :: q') counter
  end.

Lemma climb_spec fuel pos q :
  pos_ok pos → path pos = rev q → length q < fuel →
  ∃ pos', climb fuel pos = Some pos' ∧ pos_ok pos' ∧ path pos' = rev (climb_path q).
Proof.
  revert fuel pos. induction q as [|b q IH]; intros fuel pos Hp Hq Hf;
    (destruct fuel as [|fuel]; [simpl in Hf; lia|]); cbn [climb];
    rewrite pos_depth_path, Hq, length_rev by done; simpl length.
  - exists pos. done.
  - cbn [Nat.eqb]. simpl in Hq. rewrite (peek_last_bit_path pos (rev q) b) by done.
    cbn [mbind option_bind climb_path]. destruct b; [|by exists pos].
    destruct (up_path pos (rev q) true Hp Hq) as (p & -> & Hok & Hpath). cbn [mbind option_bind].
    apply IH; [done..|simpl in Hf; lia].
Qed.

Lemma climb_path_length q : length (climb_path q) ≤ length q.
Proof. induction q as [|[] q IH]; simpl; lia. Qed.

Lemma loop_path_spec fuel pos q counter :
  pos_ok pos → path pos = rev q → 1 ≤ length q ≤ 6 →
  count_leaves_loop fuel page pos counter = loop_path fuel q counter.
Proof.
  revert pos q counter. induction fuel as [|fuel IH]; intros pos q counter Hp Hq Hl; [done|].
  cbn [count_leaves_loop loop_path].
  pose proof Hp as (_ & _ & Hi). rewrite Hi, Hq.
  rewrite read_node_spec by (done || apply index_of_path_lt). cbn [mbind option_bind].
  assert (Hrl : length (rev q) = length q) by apply length_rev.
  assert (Hne : path pos ≠ []) by (rewrite Hq; intros E; rewrite E in Hrl; simpl in Hrl; lia).
  assert (Hdp : depth_in_page pos = length q).
  { rewrite depth_in_page_path, Hq by done. rewrite (level_unique _ 0) by lia. lia. }
  rewrite Hdp. unfold DEPTH.
  destruct (is_internal _ && _) eqn:E.
  - apply andb_true_iff in E as [_ E]. apply negb_true_iff, Nat.eqb_neq in E.
    destruct (down_spec false pos Hp) as (p & -> & Hok & Hpath).
    { rewrite pos_depth_path, Hq by done. lia. }
    cbn [mbind option_bind]. apply IH; [done| |simpl; lia]. rewrite Hpath, Hq. done.
  - destruct (climb_spec 7 pos q Hp Hq ltac:(lia)) as (p & -> & Hok & Hpath).
    cbn [mbind option_bind]. rewrite pos_depth_path, Hpath, length_rev by done.
    pose proof (climb_path_length q) as Hcl.
    destruct (climb_path q) as [|b q'] eqn:Ec; [done|]. simpl in Hpath, Hcl.
    cbn [length Nat.eqb].
    destruct (sibling_spec p (rev q') b Hok Hpath) as (p' & -> & Hok' & Hpath').
    cbn [mbind option_bind]. apply IH; [done|by rewrite Hpath'|simpl; lia].
Qed.

Lemma loop_path_leaves d q fuel counter :
  length q + d = 6 → 2 ^ S d ≤ S fuel →
  ∃ fuel', fuel + 1 ≤ fuel' + 2 ^ S d ∧
    loop_path fuel q counter = next_path fuel' q (counter + leaves_under d (rev q)).
Proof.
  revert q fuel counter. induction d as [|d IH]; intros q fuel counter Hl Hf;
    rewrite (Nat.pow_succ_r' 2) in Hf |- *;
    (destruct fuel as [|fuel]; [exfalso; simpl in Hf; try pose proof (Nat.pow_nonzero 2 d); lia|]);
    cbn [loop_path leaves_under].
  - rewrite (proj2 (Nat.eqb_eq (length q) 6)) by lia. rewrite andb_false_r. exists fuel.
    split; [simpl; lia|]. unfold next_path.
    destruct (is_leaf _); by rewrite ?Nat.add_0_r.
  - rewrite (proj2 (Nat.eqb_neq (length q) 6)) by lia. rewrite andb_true_r.
    pose proof (Nat.pow_nonzero 2 d) as Hnz.
    destruct (is_internal _).
    + destruct (IH (false :: q) fuel counter) as (f1 & Hf1 & ->); [simpl; lia|lia|].
      unfold next_path. cbn [climb_path rev].
      destruct (IH (true :: q) f1 (counter + leaves_under d (rev q ++ [false])))
        as (f2 & Hf2 & Heq); [simpl; lia|simpl in *; lia|].
      cbn [negb]. rewrite Heq. exists f2. split; [simpl in *; lia|].
      unfold next_path. cbn [climb_path rev]. by rewrite Nat.add_assoc.
    + exists fuel. split; [simpl in *; lia|]. unfold next_path.
      destruct (is_leaf _); by rewrite ?Nat.add_0_r.
Qed.

Lemma count_leaves_spec : count_leaves page = Some page_leaves.
Proof.
  unfold count_leaves.
  destruct (down_spec false new) as (p & -> & Hok & Hpath); [by split_and!; simpl; lia|simpl; lia|].
  cbn [mbind option_bind]. rewrite (loop_path_spec _ _ [false]) by (done || simpl; lia).
  destruct (loop_path_leaves 5 [false] NODES_PER_PAGE 0) as (f1 & Hf1 & ->); [done|vm_compute; lia|].
  unfold next_path. cbn [climb_path negb].
  destruct (loop_path_leaves 5 [true] f1 (0 + leaves_under 5 (rev [false])))
    as (f2 & Hf2 & ->); [done|change NODES_PER_PAGE with 126 in Hf1; simpl in *; lia|].
  done.
Qed.
End leaves.

Lemma leaves_under_ext `{NodeHasher} page page' d q :
  (∀ j, j < NODES_PER_PAGE → page_slot page' j = page_slot page j) →
  leaves_under page' d q = leaves_under page d q.
Proof.
  intros Hs. revert q. induction d as [|d IH]; intros q; cbn [leaves_under];
    rewrite Hs by apply index_of_path_lt; [done|]. by rewrite !IH.
Qed.

Lemma page_leaves_ext `{NodeHasher} page page' :
  (∀ j, j < NODES_PER_PAGE → page_slot page' j = page_slot page j) →
  page_leaves page' = page_leaves page.
Proof. intros Hs. unfold page_leaves. by rewrite !(leaves_under_ext page page'). Qed.
