(* ===== verification/PageWalkerCorrect.v ===== *)
(** * The steps of the page walker

    What the operations of [PageWalker.v] do to the nodes in the pages on the stack,
    for a walk over the trie of a set of pairs.  Below the position of the walker,
    and beside the path to it, the pages hold the nodes of the trie of the current
    set; the nodes on the path above the position are stale until the walk
    compacts them. *)

From S2P Require Import Prelude Trie PageId Update TrieSpec TriePos PageDiff Wal BitboxSync PageWalker.
From S2P Require Import PagePaths PageLeaves.

#[local] Open Scope nat_scope.

(** The type of nodes is an array of 32 bytes. *)
Class NodeHasherSized `{NodeHasher} : Prop := {
  length_hash_leaf d : length (hash_leaf d) = 32;
  length_hash_internal d : length (hash_internal d) = 32;
}.

#[global] Instance BinaryHasherSized `{BinaryHashLaws} : NodeHasherSized.
Proof.
  split; intros d; simpl; unfold hash2_32_concat, set_msb, unset_msb;
    (destruct (hash _) as [|b h] eqn:E; [|simpl]);
    apply (f_equal length) in E; rewrite length_hash in E; simpl in *; lia.
Qed.

(** ** The trie of a set of pairs, by paths *)

Section subtries.
Context `{NodeHasherLaws, !NodeHasherSized}.

(** The sub-trie of a set at a path, and its commitment. *)
Definition sub (kvs : ops_t) (q : list bool) : trie := trie_at (length q) (under q kvs).
Definition nd (kvs : ops_t) (q : list bool) : Node := node_of (sub kvs q).

Lemma length_node_of t : length (node_of t) = 32.
Proof. destruct t; simpl; [done|apply length_hash_leaf|apply length_hash_internal]. Qed.

Lemma length_nd kvs q : length (nd kvs q) = 32.
Proof. apply length_node_of. Qed.

Lemma sub_compact kvs l :
  block [] kvs → length l < 256 →
  sub kvs l = compact (sub kvs (l ++ [false])) (sub kvs (l ++ [true])).
Proof. intros Hb Hl. unfold sub. rewrite trie_at_under by done. by rewrite !length_snoc. Qed.

Lemma under_prefix (kvs : ops_t) l q : l `prefix_of` q → under q kvs `sublist_of` under l kvs.
Proof.
  intros Hp. unfold under. induction kvs as [|kv kvs IH]; [done|]. rewrite !filter_cons.
  case_decide as Hq; case_decide as Hl; [by constructor| |by constructor|done].
  destruct Hl. by transitivity q.
Qed.

Lemma under_prefix_length (kvs : ops_t) l q :
  l `prefix_of` q → length (under q kvs) ≤ length (under l kvs).
Proof. intros Hp. by apply sublist_length, under_prefix. Qed.

Lemma sub_many kvs l :
  block [] kvs → 2 ≤ length (under l kvs) →
  length l < 256 ∧ sub kvs l = TInternal (sub kvs (l ++ [false])) (sub kvs (l ++ [true])).
Proof.
  intros Hb Hl. pose proof (under_block l _ Hb) as Hu.
  pose proof (block_many_depth _ _ Hu Hl) as Hd. split; [done|].
  unfold sub. rewrite trie_at_many, !side_under by done. by rewrite !length_snoc.
Qed.

Lemma sub_few kvs l :
  length (under l kvs) ≤ 1 → sub kvs l = TTerminator ∨ ∃ d, sub kvs l = TLeaf d.
Proof.
  intros Hl. unfold sub. destruct (under l kvs) as [|[k v] [|]]; simpl in Hl; try lia;
    rewrite ?trie_at_nil, ?trie_at_single; eauto.
Qed.

Lemma sub_none kvs l : under l kvs = [] → sub kvs l = TTerminator.
Proof. intros Hl. unfold sub. by rewrite Hl, trie_at_nil. Qed.

Lemma sub_internal_many kvs l a b : sub kvs l = TInternal a b → 2 ≤ length (under l kvs).
Proof.
  intros Hs. destruct (decide (2 ≤ length (under l kvs))) as [|Hn]; [done|].
  destruct (sub_few kvs l ltac:(lia)) as [E|[d E]]; by rewrite E in Hs.
Qed.

Lemma sub_terminator kvs l : block [] kvs → sub kvs l = TTerminator → under l kvs = [].
Proof.
  intros Hb Hs. destruct (decide (under l kvs = [])) as [|Hn]; [done|].
  by destruct (trie_at_not_terminator l (under l kvs) (under_block l _ Hb) Hn).
Qed.

Lemma node_kind_of t :
  node_kind (node_of t) =
    match t with TTerminator => Terminator | TLeaf _ => Leaf | TInternal _ _ => Internal end.
Proof.
  destruct t; simpl;
    [apply node_kind_terminator|apply node_kind_leaf|apply node_kind_internal].
Qed.

(** ** Pages and the nodes of a set *)

Definition slot (sp : StackPage) (q : list bool) : Node := page_slot (sp_page sp) (index_of_path q).

(** The nodes of a page, when the walker stands at [X]: beside the path to [X], and
    wherever the trie has nodes.  The path to [X] itself is left open. *)
Definition page_open (kvs : ops_t) (X : list bool) (sp : StackPage) : Prop :=
  page_sized (sp_page sp) ∧
  ∀ l b, page_of (l ++ [b]) = sp_page_id sp → ¬ (l ++ [b]) `prefix_of` X →
    (∃ c, (l ++ [c]) `prefix_of` X) ∨ 2 ≤ length (under l kvs) →
    slot sp (l ++ [b]) = nd kvs (l ++ [b]).

(** The nodes of a page that is complete. *)
Definition page_holds (kvs : ops_t) (id : PageId) (page : list u8) : Prop :=
  page_sized page ∧
  ∀ l b, page_of (l ++ [b]) = id → 2 ≤ length (under l kvs) →
    page_slot page (index_of_path (l ++ [b])) = nd kvs (l ++ [b]).
End subtries.

(** ** The stack for a path *)

(** The identifiers of the pages on the path to [X], the deepest first, without the
    first [fl] levels. *)
Definition stack_ids (fl : nat) (X : list bool) : list PageId :=
  rev (page_lvl X <$> seq fl ((length X + 5) / 6 - fl)).

Lemma stack_ids_floor fl X : length X ≤ 6 * fl → stack_ids fl X = [].
Proof.
  intros Hl. unfold stack_ids.
  replace ((length X + 5) / 6 - fl) with 0; [done|].
  pose proof (Nat.div_mod (length X + 5) 6 ltac:(lia)).
  pose proof (Nat.mod_upper_bound (length X + 5) 6 ltac:(lia)). lia.
Qed.

Lemma stack_ids_snoc fl l b :
  6 * fl ≤ length l →
  stack_ids fl (l ++ [b]) =
    if length l mod 6 =? 0 then page_of (l ++ [b]) :: stack_ids fl l else stack_ids fl l.
Proof.
  intros Hl. unfold stack_ids. rewrite length_snoc.
  pose proof (Nat.div_mod (length l) 6 ltac:(lia)) as Hdm.
  pose proof (Nat.mod_upper_bound (length l) 6 ltac:(lia)) as Hm.
  assert (Hext : ∀ n, 6 * (fl + n) ≤ length l →
    page_lvl (l ++ [b]) <$> seq fl n = page_lvl l <$> seq fl n).
  { intros n Hn. apply list_fmap_ext. intros i j [-> Hj]%lookup_seq. apply page_lvl_app. lia. }
  destruct (Nat.eqb_spec (length l mod 6) 0) as [He|He].
  - replace ((length l + 5) / 6) with (length l / 6)
      by (apply (Nat.div_unique _ _ _ 5); lia).
    replace ((S (length l) + 5) / 6) with (S (length l / 6))
      by (apply (Nat.div_unique _ _ _ 0); lia).
    replace (S (length l / 6) - fl) with (S (length l / 6 - fl)) by lia.
    rewrite seq_S, fmap_app, rev_app_distr, Hext by lia. cbn [fmap list_fmap rev app]. f_equal.
    rewrite page_of_child, page_lvl_app by lia. f_equal. lia.
  - replace ((S (length l) + 5) / 6) with (length l / 6 + 1)
      by (apply (Nat.div_unique _ _ _ (length l mod 6)); lia).
    replace ((length l + 5) / 6) with (length l / 6 + 1)
      by (apply (Nat.div_unique _ _ _ (length l mod 6 - 1)); lia).
    f_equal. apply list_fmap_ext. intros i j [-> Hj]%lookup_seq. apply page_lvl_app. lia.
Qed.

Lemma stack_ids_top fl X :
  6 * fl < length X → ∃ ids, stack_ids fl X = page_of X :: ids.
Proof.
  induction X as [|b l IH] using rev_ind; intros Hl; [simpl in Hl; lia|].
  rewrite length_snoc in Hl. rewrite stack_ids_snoc by lia.
  destruct (Nat.eqb_spec (length l mod 6) 0) as [He|He]; [by eexists|].
  destruct IH as [ids Hids]; [|exists ids; rewrite Hids; f_equal].
  - pose proof (Nat.div_mod (length l) 6 ltac:(lia)). destruct (decide (length l = 6 * fl)); [|lia].
    rewrite e, Nat.mul_comm, Nat.Div0.mod_mul in He. done.
  - rewrite page_of_child. symmetry. unfold page_of, level. f_equal.
    pose proof (Nat.div_mod (length l) 6 ltac:(lia)).
    pose proof (Nat.mod_upper_bound (length l) 6 ltac:(lia)).
    apply (Nat.div_unique _ _ _ (length l mod 6 - 1)); lia.
Qed.

Lemma stack_ids_levels fl X id :
  id ∈ stack_ids fl X → ∃ k, id = page_lvl X k ∧ fl ≤ k ∧ 6 * k < length X.
Proof.
  unfold stack_ids. rewrite list_elem_of_In, <-in_rev, <-list_elem_of_In. intros (k & -> & [Hk1 Hk2]%elem_of_seq)%list_elem_of_fmap.
  exists k. split_and!; [done..|].
  pose proof (Nat.div_mod (length X + 5) 6 ltac:(lia)).
  pose proof (Nat.mod_upper_bound (length X + 5) 6 ltac:(lia)). lia.
Qed.

(** The walker after a movement that only pushed pages. *)
Abbreviation moved p new w := (set_position p (set_stack (new ++ pw_stack w) w)).

(** ** Reading and writing nodes *)

Section steps.
Context `{NodeHasherLaws, !NodeHasherSized}.

Abbreviation sized := (λ sp, page_sized (sp_page sp)).

(** [sp'] is [sp] with the node of the path [q] replaced, and another diff. *)
Definition wrote (q : list bool) (n : Node) (sp sp' : StackPage) : Prop :=
  sp_page_id sp' = sp_page_id sp ∧ sp_bucket_info sp' = sp_bucket_info sp ∧
  sp_leaves_counter sp' = sp_leaves_counter sp ∧ sp_elided_children sp' = sp_elided_children sp ∧
  sp_reconstruction_diff sp' = sp_reconstruction_diff sp ∧ page_sized (sp_page sp') ∧
  ∀ q', q' ≠ [] → page_of q' = sp_page_id sp →
    slot sp' q' = if decide (q' = q) then n else slot sp q'.

Lemma walker_node_spec w top rest X :
  pos_ok (pw_position w) → path (pw_position w) = X → pw_stack w = top :: rest → sized top →
  walker_node w = Some (slot top X).
Proof.
  intros (_ & _ & Hi) HX Hst Hs. unfold walker_node, stack_top. rewrite Hst. cbn [head mbind option_bind].
  rewrite Hi, HX. apply read_node_spec; [done|apply index_of_path_lt].
Qed.

Lemma sibling_node_spec w top rest l b :
  pos_ok (pw_position w) → path (pw_position w) = l ++ [b] → pw_stack w = top :: rest → sized top →
  sibling_node w = Some (slot top (l ++ [negb b])).
Proof.
  intros (_ & _ & Hi) HX Hst Hs. unfold sibling_node, stack_top. rewrite Hst. cbn [head mbind option_bind].
  unfold sibling_index. rewrite Hi, HX, sibling_index_path. apply read_node_spec; [done|apply index_of_path_lt].
Qed.

Lemma slot_written sp q n page' diff :
  q ≠ [] → page_of q = sp_page_id sp → page_sized page' →
  (∀ j, j < NODES_PER_PAGE →
     page_slot page' j = if decide (j = index_of_path q) then n else page_slot (sp_page sp) j) →
  wrote q n sp (sp_set_diff diff (sp_set_page page' sp)).
Proof.
  intros Hq Hid Hs Hslot. split_and!; try done. intros q' Hq' Hid'. unfold slot. simpl.
  rewrite Hslot by apply index_of_path_lt. destruct (decide (q' = q)) as [->|Hne].
  - by rewrite decide_True.
  - rewrite decide_False; [done|]. intros E. apply Hne. apply slot_inj; try done. congruence.
Qed.

Lemma walker_set_node_spec w top rest l b n :
  pos_ok (pw_position w) → path (pw_position w) = l ++ [b] → pw_stack w = top :: rest → sized top →
  sp_page_id top = page_of (l ++ [b]) → length n = 32 →
  ∃ top', walker_set_node n w = Some (set_stack (top' :: rest) w) ∧ wrote (l ++ [b]) n top top'.
Proof.
  intros Hp HX Hst Hs Hid Hn. unfold walker_set_node.
  rewrite (sibling_node_spec w top rest l b) by done. cbn [mbind option_bind].
  unfold update_top. rewrite Hst. pose proof Hp as (_ & _ & Hi). rewrite Hi, HX.
  destruct (set_node_spec (sp_page top) (index_of_path (l ++ [b])) n) as (page' & -> & Hs' & Hslot & _);
    [done|apply index_of_path_lt|done|]. cbn [mbind option_bind].
  destruct (_ && _ && _).
  - cbn [mbind option_bind]. eexists. split; [done|]. apply slot_written; auto. by destruct l.
  - cbn [sp_diff sp_set_page].
    destruct (set_changed_spec (sp_diff top) (index_of_path (l ++ [b])) (index_of_path_lt _)) as (d & -> & _).
    cbn [mbind option_bind]. eexists. split; [done|]. apply slot_written; auto. by destruct l.
Qed.

Lemma set_sibling_spec w top rest l b n :
  pos_ok (pw_position w) → path (pw_position w) = l ++ [b] → pw_stack w = top :: rest → sized top →
  sp_page_id top = page_of (l ++ [b]) → length n = 32 →
  ∃ top', set_sibling n w = Some (set_stack (top' :: rest) w) ∧ wrote (l ++ [negb b]) n top top'.
Proof.
  intros Hp HX Hst Hs Hid Hn. unfold set_sibling, update_top. rewrite Hst.
  pose proof Hp as (_ & _ & Hi). unfold sibling_index. rewrite Hi, HX, sibling_index_path.
  destruct (set_node_spec (sp_page top) (index_of_path (l ++ [negb b])) n) as (page' & -> & Hs' & Hslot & _);
    [done|apply index_of_path_lt|done|]. cbn [mbind option_bind].
  destruct (set_changed_spec (sp_diff top) (index_of_path (l ++ [negb b])) (index_of_path_lt _)) as (d & -> & _).
  cbn [mbind option_bind]. eexists. split; [done|]. apply slot_written; auto; [by destruct l|].
  rewrite Hid. apply page_of_sibling.
Qed.

(** ** Popping a page *)

Definition out_id (o : PageWalkerPageOutput) : PageId :=
  match o with OutUpdated u => up_page_id u | OutReconstructed r => rp_page_id r end.
Definition out_page (o : PageWalkerPageOutput) : list u8 :=
  match o with OutUpdated u => up_page u | OutReconstructed r => rp_page r end.

Definition put_outputs (new : list PageWalkerPageOutput) (w : PageWalker) : PageWalker :=
  mk_walker (pw_last_position w) (pw_position w) (pw_parent_page w) (pw_child_page_roots w)
    (pw_root w) (pw_output_pages w ++ new) (pw_stack w) (pw_sibling_stack w) (pw_prev_node w)
    (pw_reconstruction w).

Lemma put_outputs_nil w : put_outputs [] w = w.
Proof. destruct w. unfold put_outputs. simpl. by rewrite app_nil_r. Qed.

(** Pages with the same bytes; the counters and flags for elision may differ. *)
Definition same_page (sp sp' : StackPage) : Prop :=
  sp_page_id sp' = sp_page_id sp ∧ sp_page sp' = sp_page sp.

#[local] Instance same_page_refl : Reflexive same_page.
Proof. by intros sp. Qed.

(** An output with the nodes of a stack page. *)
Definition out_of (sp : StackPage) (o : PageWalkerPageOutput) : Prop :=
  out_id o = sp_page_id sp ∧ page_sized (out_page o) ∧
  ∀ j, j < NODES_PER_PAGE → page_slot (out_page o) j = page_slot (sp_page sp) j.

Lemma push_page_spec sp w :
  (pw_reconstruction w = true → is_Some (sp_leaves_counter sp)) →
  ∃ o, push_page sp w = Some (put_outputs [o] w) ∧ out_id o = sp_page_id sp ∧ out_page o = sp_page sp.
Proof.
  intros Hr. unfold push_page. destruct (pw_reconstruction w).
  - destruct (Hr eq_refl) as [c Hc]. unfold push_reconstructed. rewrite Hc. cbn [mbind option_bind].
    eexists. by split_and!.
  - eexists. by split_and!.
Qed.

Lemma update_top_cons f top rest w :
  pw_stack w = top :: rest →
  update_top (λ sp, Some (f sp)) w = Some (set_stack (f top :: rest) w).
Proof. intros Hst. unfold update_top. by rewrite Hst. Qed.

Lemma elide_page_spec n sp parent rest w i :
  pw_stack w = parent :: rest → page_child_index (sp_page_id sp) = Some i →
  (pw_reconstruction w = true → is_Some (sp_leaves_counter sp)) →
  ∃ parent' new, elide_page n sp w = Some (put_outputs new (set_stack (parent' :: rest) w)) ∧
    same_page parent parent' ∧
    sp_leaves_counter parent' = (λ c, c + n) <$> sp_leaves_counter parent ∧
    Forall (λ o, out_id o = sp_page_id sp ∧ out_page o = sp_page sp) new.
Proof.
  intros Hst Hi Hr. unfold elide_page. rewrite Hi. cbn [mbind option_bind].
  rewrite (update_top_cons _ _ _ _ Hst). cbn [mbind option_bind].
  set (parent' := sp_set_elision _ _ parent). exists parent'.
  assert (same_page parent parent') by done.
  cbn [pw_reconstruction set_stack]. destruct (pw_reconstruction w) eqn:Er.
  - destruct (Hr eq_refl) as [c Hc]. unfold push_reconstructed. rewrite Hc. cbn [mbind option_bind].
    eexists [_]. by split_and!; [..|constructor; [|constructor]].
  - case_bool_decide.
    + eexists [_]. by split_and!; [..|constructor; [|constructor]].
    + exists []. rewrite put_outputs_nil. by split_and!.
Qed.

Lemma keep_page_spec sp parent rest w i :
  pw_stack w = parent :: rest → page_child_index (sp_page_id sp) = Some i →
  (pw_reconstruction w = true → is_Some (sp_leaves_counter sp)) →
  ∃ parent' new, keep_page sp w = Some (put_outputs new (set_stack (parent' :: rest) w)) ∧
    same_page parent parent' ∧ sp_leaves_counter parent' = None ∧
    Forall (λ o, out_id o = sp_page_id sp ∧ out_page o = sp_page sp) new.
Proof.
  intros Hst Hi Hr. unfold keep_page. rewrite Hi. cbn [mbind option_bind].
  rewrite (update_top_cons _ _ _ _ Hst). cbn [mbind option_bind].
  set (parent' := sp_set_elision _ _ parent). exists parent'.
  destruct (push_page_spec sp (set_stack (parent' :: rest) w) Hr) as (o & -> & Ho1 & Ho2).
  exists [o]. by split_and!; [..|constructor; [|constructor]].
Qed.

(** The leaves counter of the page below a popped page on the stack. *)
Definition pop_counter (sp : StackPage) (parent_counter : option nat) : option nat :=
  if decide (parent_page_id (sp_page_id sp) = ROOT_PAGE_ID) then parent_counter
  else
    match sp_leaves_counter sp with
    | Some c =>
        if page_leaves (sp_page sp) + c <? PAGE_ELISION_THRESHOLD
        then (λ p, p + (page_leaves (sp_page sp) + c)) <$> parent_counter else None
    | None => None
    end.

Lemma set_elided_page_spec sp :
  sized sp →
  ∃ page, (if bool_decide (sp_page_id sp = ROOT_PAGE_ID) then Some sp
           else let? page := set_elided_children (sp_page sp) (sp_elided_children sp) in
                Some (sp_set_page page sp)) = Some (sp_set_page page sp) ∧
    page_sized page ∧ ∀ j, j < NODES_PER_PAGE → page_slot page j = page_slot (sp_page sp) j.
Proof.
  intros Hs. case_bool_decide.
  - exists (sp_page sp). by destruct sp.
  - destruct (set_elided_children_spec (sp_page sp) (sp_elided_children sp) Hs) as (page & -> & ? & ?).
    by exists page.
Qed.

Lemma Forall_out_of sp page new :
  page_sized page → (∀ j, j < NODES_PER_PAGE → page_slot page j = page_slot (sp_page sp) j) →
  Forall (λ o, out_id o = sp_page_id sp ∧ out_page o = page) new → Forall (out_of sp) new.
Proof.
  intros Hp Hs Hf. eapply Forall_impl; [exact Hf|]. intros o [Hid Ho]. split_and!; [done|..]; by rewrite Ho.
Qed.

Lemma pop_spec w top rest :
  pw_stack w = top :: rest → sized top →
  (rest ≠ [] → is_Some (page_child_index (sp_page_id top))) →
  (pw_reconstruction w = true → is_Some (sp_leaves_counter top)) →
  ∃ rest' new, handle_elision_threshold w = Some (put_outputs new (set_stack rest' w)) ∧
    Forall2 same_page rest rest' ∧
    sp_leaves_counter <$> rest' =
      match sp_leaves_counter <$> rest with [] => [] | c :: cs => pop_counter top c :: cs end ∧
    Forall (out_of top) new.
Proof.
  intros Hst Hs Hi Hr. unfold handle_elision_threshold. rewrite Hst.
  destruct (set_elided_page_spec top Hs) as (page & -> & Hsz & Hslot). cbn [mbind option_bind].
  set (sp := sp_set_page page top). cbn [sp_page_id sp_set_page sp_leaves_counter].
  destruct rest as [|parent rest].
  { cbn [orb]. destruct (push_page_spec sp (set_stack [] w) Hr) as (o & -> & Ho1 & Ho2).
    exists [], [o]. split_and!; [done..|]. by apply (Forall_out_of top page); [..|constructor]. }
  rewrite (bool_decide_eq_false_2 (_ :: _ = [])) by done. cbn [orb].
  destruct (Hi ltac:(done)) as [i Hci]. rewrite (fmap_cons _ parent rest). unfold pop_counter.
  assert (Hkeep : ∃ rest' new, keep_page sp (set_stack (parent :: rest) w) =
      Some (put_outputs new (set_stack rest' w)) ∧ Forall2 same_page (parent :: rest) rest' ∧
      sp_leaves_counter <$> rest' = None :: (sp_leaves_counter <$> rest) ∧ Forall (out_of top) new).
  { destruct (keep_page_spec sp parent rest (set_stack (parent :: rest) w) i) as (p' & new & -> & Hp & Hc & Ho);
      [done..|]. exists (p' :: rest), new. split_and!; [done| | |by apply (Forall_out_of top page)].
    - by constructor.
    - by rewrite fmap_cons, Hc. }
  case_bool_decide as Hroot.
  { rewrite decide_True by done.
    destruct (push_page_spec sp (set_stack (parent :: rest) w) Hr) as (o & -> & Ho1 & Ho2).
    exists (parent :: rest), [o]. split_and!; [done|done|by rewrite fmap_cons|]. by apply (Forall_out_of top page); [..|constructor]. }
  rewrite decide_False by done. change (sp_leaves_counter sp) with (sp_leaves_counter top).
  destruct (sp_leaves_counter top) as [c|] eqn:Ec; [|done].
  change (sp_page sp) with page. rewrite (count_leaves_spec page Hsz), (page_leaves_ext _ _ Hslot).
  cbn [mbind option_bind]. destruct (_ <? _); [|done].
  destruct (elide_page_spec (page_leaves (sp_page top) + c) sp parent rest (set_stack (parent :: rest) w) i)
    as (p' & new & -> & Hp & Hc & Ho); [done|done|by simpl; rewrite Ec|].
  exists (p' :: rest), new. split_and!; [done|by constructor| |by apply (Forall_out_of top page)].
  by rewrite fmap_cons, Hc.
Qed.

(** ** Moving *)

(** The walker stands at [X] and has the pages on the path to it. *)
Definition at_path (fl : nat) (X : list bool) (w : PageWalker) : Prop :=
  pos_ok (pw_position w) ∧ path (pw_position w) = X ∧
  sp_page_id <$> pw_stack w = stack_ids fl X ∧ Forall sized (pw_stack w).

Lemma at_path_top fl X w :
  at_path fl X w → 6 * fl < length X →
  ∃ top rest, pw_stack w = top :: rest ∧ sp_page_id top = page_of X ∧ sized top ∧ Forall sized rest.
Proof.
  intros (_ & _ & Hids & Hs) Hl. destruct (stack_ids_top fl X Hl) as [ids Hi]. rewrite Hi in Hids.
  destruct (pw_stack w) as [|top rest]; [done|]. rewrite fmap_cons in Hids. injection Hids as Ht _.
  apply list.Forall_cons in Hs as [??]. by exists top, rest.
Qed.

(** Where the walker is allowed to stand when it moves down. *)
Definition can_descend (fl : nat) (X : list bool) : Prop := X = [] ∧ fl = 0 ∨ 6 * fl < length X.

Context (ps : PageSet) (Hpool : ∀ id, page_sized (ps_page_pool ps id)).

(** A page as it is pushed for a sub-trie that is built anew. *)
Definition fresh_page (sp : StackPage) : Prop :=
  page_sized (sp_page sp) ∧ sp_leaves_counter sp = Some 0 ∧ sp_bucket_info sp = None.

Lemma enter_page_fresh id w :
  ∃ sp, enter_page ps id true w = Some (set_stack (sp :: pw_stack w) w) ∧ sp_page_id sp = id ∧ fresh_page sp.
Proof.
  unfold enter_page, push_stack_page, StackPage_new.
  destruct (page_set_fresh_spec ps id (Hpool id)) as (page & -> & Hs). cbn [mbind option_bind].
  destruct (read_elided_children_total page Hs) as [ec ->]. cbn [mbind option_bind].
  eexists. split; [done|]. by split_and!.
Qed.

Lemma down_one_spec fl X w fresh b :
  at_path fl X w → can_descend fl X → length X < 256 → fresh = true ∨ length X mod 6 ≠ 0 →
  ∃ p new, down_one ps fresh b w = Some (set_position p (set_stack (new ++ pw_stack w) w)) ∧
    pos_ok p ∧ path p = X ++ [b] ∧
    sp_page_id <$> (new ++ pw_stack w) = stack_ids fl (X ++ [b]) ∧ Forall fresh_page new.
Proof.
  intros Hat Hcd Hl Hf. pose proof Hat as (Hp & HX & Hids & Hs). unfold down_one.
  assert (Hfl : 6 * fl ≤ length X) by (destruct Hcd as [[-> ->]|]; simpl; lia).
  destruct (down_spec b (pw_position w) Hp) as (p & Hdown & Hok & Hpath).
  { by rewrite pos_depth_path, HX. }
  rewrite HX in Hpath. rewrite is_root_path, HX by done.
  assert (Hsame : ∃ p new, (let? p := down b (pw_position w) in Some (set_position p w)) =
      Some (set_position p (set_stack (new ++ pw_stack w) w)) ∧
      pos_ok p ∧ path p = X ++ [b] ∧ sp_page_id <$> (new ++ pw_stack w) = stack_ids fl X ∧ Forall fresh_page new).
  { exists p, []. rewrite Hdown. cbn [mbind option_bind]. by destruct w. }
  destruct (Nat.eq_dec (length X mod 6) 0) as [Hm|Hm].
  2: { rewrite bool_decide_eq_false_2 by (by intros ->). rewrite depth_in_page_path by (rewrite ?HX; first [done|by intros ->]).
       rewrite HX, (proj2 (Nat.eqb_neq (length X - 6 * level X) DEPTH)).
       - cbn [mbind option_bind]. destruct Hsame as (p' & new & Hd & Hr).
         exists p', new. split; [exact Hd|]. rewrite stack_ids_snoc, (proj2 (Nat.eqb_neq _ 0)) by done. done.
       - pose proof (level_bounds X ltac:(by intros ->)). unfold DEPTH.
         pose proof (Nat.div_mod (length X) 6 ltac:(lia)). pose proof (Nat.mod_upper_bound (length X) 6 ltac:(lia)). lia. }
  destruct Hf as [-> | ?]; [|done].
  assert (Hpush : ∃ new, (let? w := enter_page ps (page_of (X ++ [b])) true w in
                          let? p := down b (pw_position w) in Some (set_position p w)) =
      Some (set_position p (set_stack (new ++ pw_stack w) w)) ∧
      sp_page_id <$> (new ++ pw_stack w) = stack_ids fl (X ++ [b]) ∧ Forall fresh_page new).
  { destruct (enter_page_fresh (page_of (X ++ [b])) w) as (sp & -> & Hid & Hfr). cbn [mbind option_bind].
    exists [sp]. cbn [pw_position set_stack]. rewrite Hdown. cbn [mbind option_bind]. split_and!; [done| |by constructor].
    rewrite stack_ids_snoc, (proj2 (Nat.eqb_eq _ 0)) by done. cbn [app]. by rewrite fmap_cons, Hid, Hids. }
  destruct Hpush as (new & Hpush & Hids' & Hfr). exists p, new. split_and!; try done. rewrite <-Hpush.
  rewrite page_of_child.
  case_bool_decide as Hr; [by rewrite Hr|].
  destruct Hcd as [[? _]|Hlt]; [done|].
  destruct (at_path_top fl X w Hat Hlt) as (top & rest & Hst & Hid & _).
  rewrite depth_in_page_path by (by rewrite ?HX).
  rewrite HX, (proj2 (Nat.eqb_eq (length X - 6 * level X) DEPTH)).
  2: { pose proof (level_bounds X Hr). unfold DEPTH. pose proof (Nat.div_mod (length X) 6 ltac:(lia)). lia. }
  unfold stack_top. rewrite Hst. cbn [head mbind option_bind].
  destruct (child_page_path (pw_position w) Hp) as (i & -> & Hc); try (by rewrite HX).
  cbn [mbind option_bind]. rewrite Hid. rewrite HX in Hc. rewrite Hc. done.
Qed.

(** The pages [new] complete the stack for the path [R] at the position [p]. *)
Definition lands (fl : nat) (R : list bool) (p : TriePosition) (new : list StackPage) (w : PageWalker) : Prop :=
  pos_ok p ∧ path p = R ∧ sp_page_id <$> (new ++ pw_stack w) = stack_ids fl R ∧ Forall fresh_page new.

Lemma lands_at_path fl R p new w :
  Forall sized (pw_stack w) → lands fl R p new w → at_path fl R (moved p new w).
Proof.
  intros Hs (Hp & HR & Hids & Hf). split_and!; [done..|]. apply Forall_app. split; [|done].
  eapply Forall_impl; [exact Hf|]. by intros sp (? & _).
Qed.

Lemma can_descend_snoc fl X b : can_descend fl X → can_descend fl (X ++ [b]).
Proof. intros [[-> ->]|?]; right; rewrite ?length_app; simpl; lia. Qed.

Lemma walker_down_spec fl X w bits :
  at_path fl X w → can_descend fl X → length (X ++ bits) ≤ 256 →
  ∃ p new, walker_down ps bits true w = Some (moved p new w) ∧ lands fl (X ++ bits) p new w.
Proof.
  revert X w. induction bits as [|b bits IH]; intros X w Hat Hcd Hl.
  - destruct Hat as (? & ? & ? & ?). exists (pw_position w), []. rewrite app_nil_r.
    split; [by destruct w|by split_and!].
  - rewrite length_app in Hl. simpl in Hl. cbn [walker_down].
    destruct (down_one_spec fl X w true b Hat Hcd) as (p & new & -> & Hland); [lia|by left|].
    change (lands fl (X ++ [b]) p new w) in Hland. cbn [mbind option_bind].
    pose proof Hat as (_ & _ & _ & Hs).
    destruct (IH (X ++ [b]) (moved p new w)) as (p' & new' & -> & Hp' & HX' & Hids' & Hf').
    + by apply lands_at_path.
    + by apply can_descend_snoc.
    + rewrite !length_app. simpl. lia.
    + exists p', (new' ++ new). rewrite <-(app_assoc X) in HX'. rewrite <-(app_assoc X) in Hids'.
      split; [by cbn [pw_stack set_position set_stack]; rewrite app_assoc|].
      split_and!; [done..|by rewrite <-app_assoc|]. apply Forall_app. by destruct Hland as (_ & _ & _ & ?).
Qed.

(** The two ways in which the first leaf of a sub-trie at [R] is reached while the
    sub-trie at [P] is built: from [P] itself, or from the root of the sub-trie to the
    left. *)
Definition entry (P X : list bool) (up : bool) (dn : list bool) (R : list bool) : Prop :=
  (up = false ∧ X = P ∧ R = P ++ dn) ∨
  (up = true ∧ ∃ l d, dn = true :: d ∧ X = l ++ [false] ∧ R = l ++ true :: d ∧ P `prefix_of` l).

Lemma entry_snoc P X up dn R b : entry P X up dn R → entry P X up (dn ++ [b]) (R ++ [b]).
Proof.
  intros [(-> & -> & ->)|(-> & l & d & -> & -> & -> & Hl)]; [left|right].
  - by rewrite app_assoc.
  - split; [done|]. exists l, (d ++ [b]). by rewrite <-app_assoc.
Qed.

Lemma entry_length P X up dn R : entry P X up dn R → length X ≤ length R ∧ P `prefix_of` R.
Proof.
  intros [(-> & -> & ->)|(-> & l & d & -> & -> & -> & Hl)].
  - rewrite length_app. split; [lia|by apply prefix_app_r].
  - rewrite !length_app. simpl. split; [lia|by apply prefix_app_r].
Qed.

Lemma stack_ids_sibling fl l b b' :
  6 * fl ≤ length l → stack_ids fl (l ++ [b]) = stack_ids fl (l ++ [b']).
Proof. intros Hl. rewrite !stack_ids_snoc by done. by rewrite (page_of_sibling l b b'). Qed.

Lemma can_descend_floor fl X : can_descend fl X → 6 * fl ≤ length X.
Proof. intros [[-> ->]|?]; simpl; lia. Qed.

Lemma can_descend_prefix fl P l : can_descend fl P → P `prefix_of` l → l ≠ [] → can_descend fl l.
Proof.
  intros [[-> ->]|?] Hp%prefix_length Hl; right; [|lia]. destruct l; [done|simpl; lia].
Qed.

Lemma arrive_spec fl P X up dn R w :
  entry P X up dn R → at_path fl X w → can_descend fl P → length R ≤ 256 →
  ∃ w0 d p new, move_up up dn w = Some (w0, d) ∧ move_down ps (length P) d w0 = Some (moved p new w) ∧
    lands fl R p new w.
Proof.
  intros [(-> & -> & ->)|(-> & l & d & -> & -> & -> & Hl)] Hat Hcd HR; pose proof Hat as (Hp & HX & Hids & Hs).
  - exists w, dn. unfold move_up, move_down. rewrite pos_depth_path, HX, Nat.ltb_irrefl by done.
    destruct dn as [|b dn].
    { exists (pw_position w), []. rewrite app_nil_r. split_and!; [done|by destruct w|by split_and!]. }
    rewrite length_app in HR. simpl in HR. cbn [walker_down].
    destruct (down_one_spec fl P w
      ((depth_in_page (pw_position w) =? DEPTH) || is_root (pw_position w)) b Hat Hcd)
      as (p & new & -> & Hland); [lia| |].
    { destruct (Nat.eq_dec (length P mod 6) 0) as [Hm|]; [left|by right].
      rewrite is_root_path, HX by done. case_bool_decide as Hnil; [by rewrite orb_true_r|].
      rewrite depth_in_page_path, HX by (by rewrite ?HX). rewrite (proj2 (Nat.eqb_eq (_ - _) DEPTH)); [done|].
      pose proof (level_bounds P Hnil). unfold DEPTH. pose proof (Nat.div_mod (length P) 6 ltac:(lia)). lia. }
    change (lands fl (P ++ [b]) p new w) in Hland. cbn [mbind option_bind].
    destruct (walker_down_spec fl (P ++ [b]) (moved p new w) dn) as (p' & new' & -> & Hp' & HX' & Hids' & Hf').
    + by apply lands_at_path.
    + by apply can_descend_snoc.
    + rewrite !length_app. simpl. lia.
    + rewrite <-(app_assoc P) in HX', Hids'. exists p', (new' ++ new). split_and!; [done| |].
      * by cbn [pw_stack set_position set_stack]; rewrite app_assoc.
      * split_and!; [done..|by rewrite <-app_assoc|]. apply Forall_app. by destruct Hland as (_ & _ & _ & ?).
  - unfold move_up. rewrite (peek_last_bit_path _ l false) by done. cbn [mbind option_bind negb Bool.eqb].
    destruct (sibling_spec (pw_position w) l false Hp HX) as (q & -> & Hq & HXq). cbn [mbind option_bind].
    exists (set_position q w), d.
    assert (Hfl : 6 * fl ≤ length l).
    { apply can_descend_floor in Hcd. apply prefix_length in Hl. lia. }
    assert (Hat' : at_path fl (l ++ [true]) (set_position q w)).
    { split_and!; try done. simpl. by rewrite Hids, (stack_ids_sibling fl l false true). }
    destruct (walker_down_spec fl (l ++ [true]) (set_position q w) d) as (p & new & Hd & Hland); [done| | |].
    + eapply can_descend_prefix; [exact Hcd|by apply prefix_app_r|by destruct l].
    + by rewrite <-app_assoc.
    + exists p, new. rewrite <-app_assoc in Hland. split_and!; [done| |done].
      unfold move_down. cbn [pw_position set_position]. rewrite pos_depth_path, HXq, length_snoc by done.
      rewrite (proj2 (Nat.ltb_lt (length P) (S (length l)))) by (apply prefix_length in Hl; lia).
      destruct d; exact Hd.
Qed.

(** The page of a path below the floor hangs below another page. *)
Lemma page_child_index_lvl q k : k ≠ 0 → is_Some (page_child_index (page_lvl q k)).
Proof.
  intros Hn. unfold page_child_index, child_index_at_level. rewrite depth_page_lvl.
  destruct (PageId.path (page_lvl q k) !! (k - 1)) eqn:E; [by eexists|].
  apply lookup_ge_None in E. change (length _) with (depth (page_lvl q k)) in E.
  rewrite depth_page_lvl in E. lia.
Qed.

Lemma walker_up_spec fl l b w :
  at_path fl (l ++ [b]) w → 6 * fl ≤ length l →
  (pw_reconstruction w = true → length l mod 6 = 0 →
     ∀ top rest, pw_stack w = top :: rest → is_Some (sp_leaves_counter top)) →
  ∃ p st new, walker_up w = Some (put_outputs new (set_position p (set_stack st w))) ∧
    pos_ok p ∧ path p = l ∧ sp_page_id <$> st = stack_ids fl l ∧ Forall sized st ∧
    if decide (length l mod 6 = 0) then
      ∃ top rest, pw_stack w = top :: rest ∧ Forall2 same_page rest st ∧ Forall (out_of top) new ∧
        sp_leaves_counter <$> st =
          match sp_leaves_counter <$> rest with [] => [] | c :: cs => pop_counter top c :: cs end
    else st = pw_stack w ∧ new = [].
Proof.
  intros Hat Hfl Hr. pose proof Hat as (Hp & HX & Hids & Hs). unfold walker_up.
  assert (Hne : path (pw_position w) ≠ []) by (rewrite HX; by destruct l).
  rewrite depth_in_page_path by done. rewrite HX, level_snoc, length_snoc.
  pose proof (Nat.div_mod (length l) 6 ltac:(lia)) as Hdm.
  destruct (up_path (pw_position w) l b Hp HX) as (p & Hup & Hpok & Hpl).
  rewrite stack_ids_snoc in Hids by done.
  destruct (decide (length l mod 6 = 0)) as [Hm|Hm].
  - rewrite (proj2 (Nat.eqb_eq (S (length l) - _) 1)) by lia.
    rewrite (proj2 (Nat.eqb_eq (length l mod 6) 0)) in Hids by done.
    destruct (pw_stack w) as [|top rest] eqn:Hst; [done|]. rewrite fmap_cons in Hids.
    injection Hids as Hid Hids. apply list.Forall_cons in Hs as [Hs1 Hs2].
    destruct (pop_spec w top rest Hst Hs1) as (rest' & new & -> & Hsame & Hcnt & Hout).
    { intros Hne'. rewrite Hid, page_of_child. apply page_child_index_lvl. intros E.
      rewrite stack_ids_floor in Hids by lia. by destruct rest. }
    { intros Hrec. by apply (Hr Hrec Hm top rest). }
    cbn [mbind option_bind pw_position put_outputs set_stack]. rewrite Hup. cbn [mbind option_bind].
    assert (Hids' : sp_page_id <$> rest' = sp_page_id <$> rest).
    { clear -Hsame. induction Hsame as [|?? ?? [Hi _] _ IH]; [done|]. by rewrite !fmap_cons, Hi, IH. }
    exists p, rest', new. split_and!; [done..|by rewrite Hids'| |].
    + clear -Hsame Hs2. induction Hsame as [|?? ?? [_ Hp] _ IH]; [done|].
      apply list.Forall_cons in Hs2 as [??]. constructor; [by rewrite Hp|auto].
    + by exists top, rest.
  - pose proof (Nat.mod_upper_bound (length l) 6 ltac:(lia)).
    rewrite (proj2 (Nat.eqb_neq (S (length l) - _) 1)) by lia. cbn [mbind option_bind].
    rewrite (proj2 (Nat.eqb_neq (length l mod 6) 0)) in Hids by done.
    rewrite Hup. cbn [mbind option_bind]. exists p, (pw_stack w), [].
    split_and!; try done. rewrite put_outputs_nil. by destruct w.
Qed.
End steps.
