(* ===== verification/PageBuild.v ===== *)
(** * Building a sub-trie into pages

    [replace_terminal] of the page walker replays the commands of [build_trie]:
    the nodes of the new sub-trie end up in the slots of their paths, in the page of
    the position and in fresh pages below it, which are output as soon as they are
    complete. *)

From S2P Require Import Prelude Trie PageId Update TrieSpec TriePos PageDiff Wal BitboxSync PageWalker.
From S2P Require Import PagePaths PageLeaves PageWalkerCorrect.

#[local] Open Scope nat_scope.

(** ** Prefixes *)

Lemma prefix_snoc_cases {A} (p l : list A) b :
  p `prefix_of` (l ++ [b]) → p = l ++ [b] ∨ p `prefix_of` l.
Proof.
  intros [s Hs]. destruct s as [|c s _] using rev_ind; [left; by rewrite app_nil_r in Hs|right].
  rewrite app_assoc in Hs. apply app_inj_2 in Hs as [-> _]; [|done]. by apply prefix_app_r.
Qed.

Lemma prefix_snoc_ne (R : list bool) b : ¬ (R ++ [b]) `prefix_of` (R ++ [negb b]).
Proof. intros Hp%prefix_app_inv. apply prefix_cons_inv_1 in Hp. by destruct b. Qed.

(** ** Leaves of tries and pages *)

Fixpoint leaves (t : trie) : nat :=
  match t with TTerminator => 0 | TLeaf _ => 1 | TInternal l r => leaves l + leaves r end.

(** The leaves within the next [d] layers, and those below. *)
Fixpoint leaves_in (d : nat) (t : trie) : nat :=
  match t, d with
  | TTerminator, _ => 0
  | TLeaf _, _ => 1
  | TInternal l r, S d' => leaves_in d' l + leaves_in d' r
  | TInternal _ _, 0 => 0
  end.
Fixpoint leaves_below (d : nat) (t : trie) : nat :=
  match t, d with
  | TInternal l r, S d' => leaves_below d' l + leaves_below d' r
  | TInternal l r, 0 => leaves l + leaves r
  | _, _ => 0
  end.

Lemma leaves_split d t : leaves t = leaves_in d t + leaves_below d t.
Proof.
  revert d. induction t as [|x|l IHl r IHr]; intros [|d]; simpl; try lia.
  rewrite (IHl d), (IHr d). lia.
Qed.

(** The layers of its page below the node of a path. *)
Definition layers_left (q : list bool) : nat := 6 * level q + 6 - length q.

Section build.
Context `{NodeHasherLaws, !NodeHasherSized} (kvs : ops_t) (Hkvs : block [] kvs).

Lemma leaves_sub q : leaves (sub kvs q) = length (under q kvs).
Proof.
  remember (256 - length q) as n eqn:Hn. revert q Hn.
  induction n as [n IH] using lt_wf_ind; intros q Hn.
  destruct (decide (2 ≤ length (under q kvs))) as [Hl|Hl].
  - destruct (sub_many kvs q Hkvs Hl) as [Hq ->]. cbn [leaves].
    rewrite (IH (256 - length (q ++ [false])) ltac:(rewrite length_snoc; lia) _ eq_refl).
    rewrite (IH (256 - length (q ++ [true])) ltac:(rewrite length_snoc; lia) _ eq_refl).
    rewrite <-!side_under by done. rewrite <-length_app.
    by rewrite <-(block_split q (under q kvs)) by (done || by apply under_block).
  - unfold sub. destruct (under q kvs) as [|[k v] [|]]; simpl in Hl; try lia;
      by rewrite ?trie_at_nil, ?trie_at_single.
Qed.

Lemma sub_length q : sub kvs q ≠ TTerminator → length q ≤ 256.
Proof.
  intros Hne. destruct (under q kvs) as [|kv ops] eqn:E; [by rewrite (sub_none _ _ E) in Hne|].
  pose proof (under_block q _ Hkvs) as [_ Hb]. rewrite E in Hb.
  apply list.Forall_cons in Hb as [[Hl Hp%prefix_length] _]. rewrite length_view_bits, Hl in Hp. lia.
Qed.

(** ** Pages with a sub-trie *)

(** The nodes of the sub-trie at [R], as far as they are in this page. *)
Definition sub_ok (R : list bool) (sp : StackPage) : Prop :=
  ∀ l b, R `prefix_of` (l ++ [b]) → page_of (l ++ [b]) = sp_page_id sp →
    l ++ [b] = R ∨ 2 ≤ length (under l kvs) → slot sp (l ++ [b]) = nd kvs (l ++ [b]).

(** Nothing but the nodes at and below [R] may have changed. *)
Definition kept (R : list bool) (sp sp' : StackPage) : Prop :=
  sp_page_id sp' = sp_page_id sp ∧ page_sized (sp_page sp') ∧
  ∀ q, q ≠ [] → page_of q = sp_page_id sp → ¬ R `prefix_of` q → slot sp' q = slot sp q.

Lemma index_of_path_app R s : length R mod 6 = 0 → s ≠ [] → index_of_path (R ++ s) = index_of_path s.
Proof.
  intros HR. induction s as [|b s IH] using rev_ind; [done|]. intros _.
  rewrite app_assoc, !index_of_path_snoc, length_app.
  pose proof (Nat.div_mod (length R) 6 ltac:(lia)) as Hdm. rewrite HR, Nat.add_0_r in Hdm.
  replace ((length R + length s) mod 6) with (length s mod 6)
    by (rewrite Hdm, Nat.add_comm, Nat.mul_comm, Nat.Div0.mod_add; done).
  destruct s as [|c s]; [done|]. by rewrite IH.
Qed.

Lemma page_of_in_region R s :
  length R mod 6 = 0 → 1 ≤ length s ≤ 6 → page_of (R ++ s) = page_lvl R (length R / 6).
Proof.
  intros HR Hs. pose proof (Nat.div_mod (length R) 6 ltac:(lia)) as Hdm.
  rewrite (page_of_lvl _ (length R / 6)) by (rewrite length_app; lia). apply page_lvl_app. lia.
Qed.

(** A page both of whose sub-tries are in place. *)
Lemma sub_ok_region sp R l b :
  length R mod 6 = 0 → length l < 6 → sp_page_id sp = page_lvl R (length R / 6) →
  (∀ c, sub_ok (R ++ [c]) sp) → l = [] ∨ 2 ≤ length (under (R ++ l) kvs) →
  slot sp (R ++ l ++ [b]) = nd kvs (R ++ l ++ [b]).
Proof.
  intros HR Hl Hid Hok Hlive.
  assert (Hpg : page_of (R ++ l ++ [b]) = sp_page_id sp)
    by (rewrite Hid; apply page_of_in_region; [done|rewrite length_snoc; lia]).
  rewrite app_assoc in Hpg |- *. destruct l as [|c l].
  - rewrite app_nil_r in *. apply (Hok b); auto.
  - apply (Hok c); [|done|]; [|by right; destruct Hlive].
    exists (l ++ [b]). by rewrite <-!app_assoc.
Qed.

Lemma leaves_under_sub sp R d l b :
  length R mod 6 = 0 → length l + d = 5 → sp_page_id sp = page_lvl R (length R / 6) →
  (∀ c, sub_ok (R ++ [c]) sp) → l = [] ∨ 2 ≤ length (under (R ++ l) kvs) →
  leaves_under (sp_page sp) d (l ++ [b]) = leaves_in d (sub kvs (R ++ l ++ [b])).
Proof.
  intros HR Hl Hid Hok. revert l b Hl. induction d as [|d IH]; intros l b Hl Hlive;
    pose proof (sub_ok_region sp R l b HR ltac:(lia) Hid Hok Hlive) as Hslot;
    unfold slot in Hslot; rewrite index_of_path_app in Hslot by (done || by destruct l);
    cbn [leaves_under]; rewrite Hslot; unfold is_internal, is_leaf, nd; rewrite node_kind_of.
  - by destruct (sub kvs (R ++ l ++ [b])).
  - destruct (sub kvs (R ++ l ++ [b])) as [| |tl tr] eqn:E; [done..|].
    rewrite bool_decide_eq_true_2 by done.
    assert (Hm : 2 ≤ length (under (R ++ l ++ [b]) kvs)) by (by eapply sub_internal_many).
    destruct (sub_many kvs _ Hkvs Hm) as [_ Hsub]. rewrite E in Hsub. injection Hsub as -> ->.
    rewrite !IH by (rewrite ?length_snoc; (lia || by right)). cbn [leaves_in].
    by rewrite <-!app_assoc.
Qed.

Lemma page_leaves_sub sp R :
  length R mod 6 = 0 → sp_page_id sp = page_lvl R (length R / 6) → (∀ c, sub_ok (R ++ [c]) sp) →
  page_leaves (sp_page sp) = leaves_in 5 (sub kvs (R ++ [false])) + leaves_in 5 (sub kvs (R ++ [true])).
Proof.
  intros HR Hid Hok. unfold page_leaves.
  pose proof (λ b, leaves_under_sub sp R 5 [] b HR eq_refl Hid Hok (or_introl eq_refl)) as Hb.
  cbn [app] in Hb. by rewrite !Hb.
Qed.

(** ** Closing an internal node *)

Lemma kept_refl R sp : page_sized (sp_page sp) → kept R sp sp.
Proof. intros Hs. by split_and!. Qed.

Lemma kept_wrote R q n sp sp' : R `prefix_of` q → wrote q n sp sp' → kept R sp sp'.
Proof.
  intros HR (Hid & _ & _ & _ & _ & Hs & Hw). split_and!; [done..|].
  intros q' Hq' Hp Hn. rewrite Hw by done. by rewrite decide_False by (by intros ->).
Qed.

Lemma kept_trans R R' sp sp' sp'' : R `prefix_of` R' → kept R sp sp' → kept R' sp' sp'' → kept R sp sp''.
Proof.
  intros HR (Hid & Hs & Hk) (Hid' & Hs' & Hk'). split_and!; [by rewrite Hid'|done|].
  intros q Hq Hp Hn. rewrite Hk', Hk; try done; [by rewrite Hid|]. intros HR'. apply Hn. by transitivity R'.
Qed.

Lemma kept_weaken R R' sp sp' : R `prefix_of` R' → kept R' sp sp' → kept R sp sp'.
Proof.
  intros HR (Hid & Hs & Hk). split_and!; [done..|]. intros q Hq Hp Hn. apply Hk; [done..|].
  intros HR'. apply Hn. by transitivity R'.
Qed.

Lemma kept_same_page R sp sp' : page_sized (sp_page sp) → same_page sp sp' → kept R sp sp'.
Proof.
  intros Hs [Hid Hp]. split_and!; [done|by rewrite Hp|]. intros q _ _ _. unfold slot. by rewrite Hp.
Qed.

(** A write outside the sub-trie keeps it. *)
Lemma sub_ok_wrote R q n sp sp' : ¬ R `prefix_of` q → wrote q n sp sp' → sub_ok R sp → sub_ok R sp'.
Proof.
  intros HR (Hid & _ & _ & _ & _ & Hs & Hw) Hok l b Hl Hp Hlive. rewrite Hid in Hp.
  rewrite Hw by (done || by destruct l). rewrite decide_False by (by intros <-). by apply Hok.
Qed.

Lemma sub_ok_terminator R sp sp' n :
  R ≠ [] → sub kvs R = TTerminator → n = TERMINATOR → wrote R n sp sp' → sub_ok R sp'.
Proof.
  intros HR Ht -> (Hid & _ & _ & _ & _ & Hs & Hw) l b Hl Hp Hlive. rewrite Hid in Hp.
  rewrite Hw by (done || by destruct l). destruct (decide (l ++ [b] = R)) as [E|E].
  - rewrite E. unfold nd. by rewrite Ht.
  - destruct Hlive as [?|Hlive]; [done|].
    assert (R `prefix_of` l) as Hl' by (apply prefix_snoc_cases in Hl as [?|?]; [by subst|done]).
    apply (under_prefix_length kvs) in Hl'. rewrite (sub_terminator kvs R Hkvs Ht) in Hl'. simpl in Hl'. lia.
Qed.

Lemma zero_sibling_spec w top rest R b n :
  pos_ok (pw_position w) → path (pw_position w) = R ++ [b] → pw_stack w = top :: rest →
  page_sized (sp_page top) → sp_page_id top = page_of (R ++ [b]) → sub_ok (R ++ [b]) top →
  sub kvs (R ++ [negb b]) = TTerminator ∨ sub_ok (R ++ [negb b]) top →
  ∃ top', zero_sibling (WInternal {| left := nd kvs (R ++ [false]); right := nd kvs (R ++ [true]) |} n) w =
      Some (set_stack (top' :: rest) w) ∧
    (∀ c, sub_ok (R ++ [c]) top') ∧ kept R top top' ∧ sp_leaves_counter top' = sp_leaves_counter top.
Proof.
  intros Hp HX Hst Hs Hid Hok Hsib. unfold zero_sibling. rewrite (peek_last_bit_path _ R b) by done.
  cbn [mbind option_bind left right].
  assert (Hz : (if b then is_terminator (nd kvs (R ++ [false])) else is_terminator (nd kvs (R ++ [true]))) =
               match sub kvs (R ++ [negb b]) with TTerminator => true | _ => false end).
  { unfold is_terminator, nd. destruct b; simpl negb; rewrite node_kind_of; by destruct (sub _ _). }
  assert (Hne : sub kvs (R ++ [negb b]) ≠ TTerminator →
    ∃ top', Some w = Some (set_stack (top' :: rest) w) ∧
      (∀ c, sub_ok (R ++ [c]) top') ∧ kept R top top' ∧ sp_leaves_counter top' = sp_leaves_counter top).
  { intros Ht. exists top. split_and!; [by destruct w; simpl in *; subst| |by apply kept_refl|done].
    intros c. destruct (decide (c = b)) as [->|Hc]; [done|].
    replace c with (negb b) by (by destruct b, c). naive_solver. }
  rewrite Hz. destruct (sub kvs (R ++ [negb b])) eqn:Ht; [|by apply Hne..].
  destruct (set_sibling_spec w top rest R b TERMINATOR) as (top' & -> & Hw); try done.
  exists top'. split_and!; [done| | |by destruct Hw as (_ & _ & ? & _)].
  - intros c. destruct (decide (c = b)) as [->|Hc].
    + eapply sub_ok_wrote; [|exact Hw|done]. apply prefix_snoc_ne.
    + replace c with (negb b) by (by destruct b, c). eapply sub_ok_terminator; [|done|done|exact Hw].
      by destruct R.
  - eapply kept_wrote; [|exact Hw]. by apply prefix_app_r.
Qed.

(** The parts of the walker that building a sub-trie leaves alone. *)
Definition same_frame (w w' : PageWalker) : Prop :=
  pw_last_position w' = pw_last_position w ∧ pw_parent_page w' = pw_parent_page w ∧
  pw_child_page_roots w' = pw_child_page_roots w ∧ pw_reconstruction w' = pw_reconstruction w.

#[global] Instance same_frame_refl : Reflexive same_frame.
Proof. by intros w. Qed.
#[global] Instance same_frame_trans : Transitive same_frame.
Proof. intros w1 w2 w3 (? & ? & ? & ?) (? & ? & ? & ?). split_and!; congruence. Qed.

(** A complete page of the region of [r], which lies below [R]. *)
Definition built (R : list bool) (o : PageWalkerPageOutput) : Prop :=
  page_holds kvs (out_id o) (out_page o) ∧
  ∃ r, length r mod 6 = 0 ∧ R `prefix_of` r ∧ out_id o = page_lvl r (length r / 6).

(** The root of the sub-trie at [R] is in place. *)
Definition rooted (R : list bool) (w w' : PageWalker) : Prop :=
  match R with
  | [] => pw_root w' = nd kvs []
  | _ => pw_root w' = pw_root w ∧ ∃ top rest, pw_stack w' = top :: rest ∧ sub_ok R top
  end.

Definition add_top (k : nat) (cs : list (option nat)) : list (option nat) :=
  match cs with [] => [] | c :: cs' => ((λ x, x + k) <$> c) :: cs' end.

Abbreviation counters := (fmap (M := list) sp_leaves_counter).

Lemma out_of_built R sp o :
  length R mod 6 = 0 → sp_page_id sp = page_lvl R (length R / 6) → (∀ c, sub_ok (R ++ [c]) sp) →
  out_of sp o → built R o.
Proof.
  intros HR Hid Hok (Hoid & Hs & Hslot). pose proof (Nat.div_mod (length R) 6 ltac:(lia)) as Hdm.
  split; [|exists R; split_and!; [done|done|congruence]].
  split; [done|]. intros l b Hp Hlive. rewrite Hslot by apply index_of_path_lt.
  rewrite Hoid, Hid in Hp. pose proof (page_of_region l b R (length R / 6) ltac:(lia) Hp) as [s ->].
  rewrite take_ge in * by lia. pose proof (page_lvl_inj_level _ _ _ _ Hp) as Hlv.
  pose proof (level_bounds ((R ++ s) ++ [b]) ltac:(by destruct R, s)) as Hb.
  rewrite Hlv, length_snoc, length_app in Hb. rewrite <-app_assoc.
  apply sub_ok_region; try done; [lia|by right].
Qed.

Lemma sub_ok_close R sp sp' :
  R ≠ [] → sp_page_id sp = page_of R → length R mod 6 ≠ 0 → (∀ c, sub_ok (R ++ [c]) sp) →
  wrote R (nd kvs R) sp sp' → sub_ok R sp'.
Proof.
  intros HR Hid Hm Hok (Hid' & _ & _ & _ & _ & Hs & Hw) l b Hl Hp Hlive. rewrite Hid' in Hp.
  rewrite Hw by (done || by destruct l). destruct (decide (l ++ [b] = R)) as [->|E]; [done|].
  destruct Hlive as [?|Hlive]; [done|].
  apply prefix_snoc_cases in Hl as [?|[s ->]]; [by subst|]. destruct s as [|c s].
  - rewrite app_nil_r in *. apply (Hok b); auto.
  - apply (Hok c); [|done|by right]. exists (s ++ [b]). by rewrite <-!app_assoc.
Qed.

Lemma sub_ok_bottom R sp sp' :
  R ≠ [] → sp_page_id sp = page_of R → length R mod 6 = 0 →
  wrote R (nd kvs R) sp sp' → sub_ok R sp'.
Proof.
  intros HR Hid Hm (Hid' & _ & _ & _ & _ & Hs & Hw) l b Hl Hp Hlive. rewrite Hid' in Hp.
  rewrite Hw by (done || by destruct l). destruct (decide (l ++ [b] = R)) as [->|E]; [done|].
  apply prefix_snoc_cases in Hl as [?|Hl%prefix_length]; [by subst|].
  rewrite Hid in Hp. apply page_lvl_inj_level in Hp.
  pose proof (level_bounds R HR). pose proof (level_bounds (l ++ [b]) ltac:(by destruct l)) as Hb.
  rewrite Hp, length_snoc in Hb. pose proof (Nat.div_mod (length R) 6 ltac:(lia)). lia.
Qed.

Lemma pop_counter_small R sp sp0 c :
  length R mod 6 = 0 → 2 ≤ length R / 6 → sp_page_id sp = page_lvl R (length R / 6) →
  (∀ c, sub_ok (R ++ [c]) sp) → 2 ≤ length (under R kvs) < PAGE_ELISION_THRESHOLD →
  sp_leaves_counter sp = sp_leaves_counter sp0 →
  sp_leaves_counter sp0 = Some (leaves_below 5 (sub kvs (R ++ [false])) + leaves_below 5 (sub kvs (R ++ [true]))) →
  pop_counter sp c = (λ x, x + length (under R kvs)) <$> c.
Proof.
  intros HR Hk Hid Hok [Hl Hlt] Hc0 Hc. unfold pop_counter. rewrite Hid.
  destruct (length R / 6) as [|k] eqn:E; [lia|]. rewrite parent_page_lvl.
  rewrite decide_False by (rewrite page_lvl_root; lia). rewrite Hc0, Hc.
  rewrite (page_leaves_sub sp R) by (done || by rewrite E).
  assert (Hsum : length (under R kvs) =
    leaves_in 5 (sub kvs (R ++ [false])) + leaves_in 5 (sub kvs (R ++ [true])) +
    (leaves_below 5 (sub kvs (R ++ [false])) + leaves_below 5 (sub kvs (R ++ [true])))).
  { rewrite <-leaves_sub. destruct (sub_many kvs R Hkvs Hl) as [_ ->]. cbn [leaves].
    rewrite (leaves_split 5 (sub kvs (R ++ [false]))), (leaves_split 5 (sub kvs (R ++ [true]))). lia. }
  rewrite <-Hsum, (proj2 (Nat.ltb_lt _ _)) by done. done.
Qed.

Lemma Forall2_kept_same R st st' :
  Forall (λ sp, page_sized (sp_page sp)) st → Forall2 same_page st st' → Forall2 (kept R) st st'.
Proof.
  intros Hs Hf. induction Hf as [|sp sp' st st' Hsp Hf IH]; [done|].
  apply list.Forall_cons in Hs as [? ?]. constructor; [by apply kept_same_page|auto].
Qed.

Lemma Forall2_kept_refl R st : Forall (λ sp, page_sized (sp_page sp)) st → Forall2 (kept R) st st.
Proof. induction 1; constructor; [by apply kept_refl|done]. Qed.

Lemma Forall2_kept_trans R R' st1 st2 st3 :
  R `prefix_of` R' → Forall2 (kept R) st1 st2 → Forall2 (kept R') st2 st3 → Forall2 (kept R) st1 st3.
Proof.
  intros HR H12. revert st3. induction H12 as [|a b st1 st2 Hab H12 IH]; intros st3 H23;
    inversion H23; subst; constructor; [by eapply kept_trans|auto].
Qed.

(** Writing the root of a sub-trie whose children are in place. *)
Lemma write_root_spec fl R w w0 :
  at_path fl R w → can_descend fl R →
  (R ≠ [] → ∀ top rest top', pw_stack w = top :: rest → sp_page_id top = page_of R →
     wrote R (nd kvs R) top top' → sub_ok R top') →
  pw_root w = pw_root w0 →
  ∃ w', (if is_root (pw_position w) then Some (set_root (nd kvs R) w)
         else walker_set_node (nd kvs R) w) = Some w' ∧
    at_path fl R w' ∧ same_frame w w' ∧ pw_output_pages w' = pw_output_pages w ∧
    rooted R w0 w' ∧ Forall2 (kept R) (pw_stack w) (pw_stack w') ∧
    counters (pw_stack w') = counters (pw_stack w).
Proof.
  intros Hat Hcd Hok Hroot. pose proof Hat as (Hp & HX & Hids & Hs). rewrite is_root_path, HX by done.
  case_bool_decide as HR.
  { subst R. eexists. split; [done|]. split_and!; try done; [by rewrite HR|by apply Forall2_kept_refl]. }
  destruct Hcd as [[? _]|Hlt]; [done|].
  destruct (at_path_top fl R w Hat Hlt) as (top & rest & Hst & Hid & Hs1 & Hs2).
  destruct R as [|b l _] using rev_ind; [done|].
  destruct (walker_set_node_spec w top rest l b (nd kvs (l ++ [b]))) as (top' & -> & Hw); try done.
  { apply length_nd. }
  exists (set_stack (top' :: rest) w). pose proof Hw as (Hid' & _ & Hc & _ & _ & Hs' & _).
  split_and!; try done.
  - split_and!; try done.
    + cbn [pw_stack set_stack]. rewrite Hst in Hids. rewrite fmap_cons in *. by rewrite Hid'.
    + cbn [pw_stack set_stack]. by constructor.
  - unfold rooted. destruct (l ++ [b]) eqn:E; [by destruct l|]. rewrite <-E in *. split; [done|].
    exists top', rest. split; [done|]. by apply (Hok HR top rest).
  - rewrite Hst. cbn [pw_stack set_stack]. constructor; [by eapply kept_wrote|by apply Forall2_kept_refl].
  - rewrite Hst. cbn [pw_stack set_stack]. by rewrite !fmap_cons, Hc.
Qed.

Lemma close_spec ps n fl R b w top rest :
  at_path fl (R ++ [b]) w → can_descend fl R → pw_stack w = top :: rest → sub_ok (R ++ [b]) top →
  sub kvs (R ++ [negb b]) = TTerminator ∨ sub_ok (R ++ [negb b]) top → 2 ≤ length (under R kvs) →
  (pw_reconstruction w = true → length R mod 6 = 0 → is_Some (sp_leaves_counter top)) →
  ∃ w' new, write_control ps n
      (WInternal {| left := nd kvs (R ++ [false]); right := nd kvs (R ++ [true]) |} (nd kvs R)) w = Some w' ∧
    at_path fl R w' ∧ same_frame w w' ∧ pw_output_pages w' = pw_output_pages w ++ new ∧
    Forall (built R) new ∧ rooted R w w' ∧
    if decide (length R mod 6 = 0) then
      Forall2 (kept R) rest (pw_stack w') ∧
      (2 ≤ fl → length (under R kvs) < PAGE_ELISION_THRESHOLD →
       sp_leaves_counter top =
         Some (leaves_below 5 (sub kvs (R ++ [false])) + leaves_below 5 (sub kvs (R ++ [true]))) →
       counters (pw_stack w') = add_top (length (under R kvs)) (counters rest))
    else Forall2 (kept R) (top :: rest) (pw_stack w') ∧ counters (pw_stack w') = counters (top :: rest).
Proof.
  intros Hat Hcd Hst Hok Hsib Hm Hrec. pose proof Hat as (Hp & HX & Hids & Hs).
  pose proof (can_descend_floor _ _ Hcd) as Hfl.
  destruct (at_path_top fl (R ++ [b]) w Hat) as (? & ? & Hst' & Hid & Hs1 & Hs2); [rewrite length_snoc; lia|].
  rewrite Hst in Hst'. injection Hst' as <- <-.
  destruct (zero_sibling_spec w top rest R b (nd kvs R)) as (top1 & Hz & Hok1 & Hk1 & Hc1); try done.
  unfold write_control. rewrite Hz. cbn [mbind option_bind write_up write_down move_up].
  set (w1 := set_stack (top1 :: rest) w). pose proof Hk1 as (Hid1 & Hsz1 & _).
  assert (Hat1 : at_path fl (R ++ [b]) w1).
  { split_and!; try done; cbn [pw_stack w1 set_stack]; [|by constructor].
    rewrite Hst, !fmap_cons in Hids. by rewrite fmap_cons, Hid1. }
  destruct (walker_up_spec fl R b w1 Hat1 Hfl) as (p & st & new & -> & Hpok & HpR & Hids' & Hst2 & Hcase).
  { intros Hr Hmod top0 rest0 E. injection E as <- <-. rewrite Hc1. by apply Hrec. }
  cbn [mbind option_bind]. set (w2 := put_outputs new (set_position p (set_stack st w1))).
  assert (Hat2 : at_path fl R w2) by (by split_and!).
  assert (Hid2 : length R mod 6 = 0 → sp_page_id top1 = page_lvl R (length R / 6))
    by (intros _; by rewrite Hid1, Hid, page_of_child).
  cbn [move_down mbind option_bind write_node].
  destruct (write_root_spec fl R w2 w Hat2 Hcd) as (w3 & -> & Hat3 & Hfr & Hout3 & Hroot & Hk3 & Hc3); [|done|].
  { intros HRne top2 rest2 top3 Hst2' Hid3 Hw. destruct (decide (length R mod 6 = 0)) as [|Hmod].
    - by eapply sub_ok_bottom.
    - destruct Hcase as [-> _]. cbn in Hst2'. injection Hst2' as <- <-. by eapply sub_ok_close. }
  destruct Hfr as (? & ? & ? & ?).
  exists w3, new. destruct (decide (length R mod 6 = 0)) as [Hmod|Hmod].
  - destruct Hcase as (top2 & rest2 & E & Hsame & Hout & Hcnt). injection E as <- <-.
    split_and!; try done.
    + eapply Forall_impl; [exact Hout|]. intros o Ho. by eapply (out_of_built R top1); auto.
    + eapply (Forall2_kept_trans R R); [done|by apply Forall2_kept_same|exact Hk3].
    + intros Hfl2 Hsm Hc. rewrite Hc3. cbn [pw_stack w2 put_outputs set_position set_stack].
      rewrite Hcnt. destruct (counters rest) as [|c cs]; [done|]. cbn [add_top]. f_equal.
      apply (pop_counter_small R top1 top); auto. apply Nat.div_le_lower_bound; lia.
  - destruct Hcase as [-> ->]. split_and!; try done.
    + cbn [pw_stack w2 w1 put_outputs set_position set_stack] in Hk3.
      eapply (Forall2_kept_trans R R); [done| |exact Hk3]. constructor; [done|by apply Forall2_kept_refl].
    + rewrite Hc3. cbn [pw_stack w2 w1 put_outputs set_position set_stack]. by rewrite !fmap_cons, Hc1.
Qed.

(** ** Building *)

Lemma write_controls_app ps n c1 c2 w :
  write_controls ps n (c1 ++ c2) w =
    let? w1 := write_controls ps n c1 w in write_controls ps n c2 w1.
Proof.
  revert w. induction c1 as [|c c1 IH]; intros w; [done|]. cbn [app write_controls].
  destruct (write_control ps n c w); [|done]. cbn [mbind option_bind]. apply IH.
Qed.

Lemma sub_ok_few R sp sp' :
  length (under R kvs) ≤ 1 → wrote R (nd kvs R) sp sp' → sub_ok R sp'.
Proof.
  intros HR (Hid' & _ & _ & _ & _ & Hs & Hw) l b Hl Hp Hlive. rewrite Hid' in Hp.
  rewrite Hw by (done || by destruct l). destruct (decide (l ++ [b] = R)) as [->|E]; [done|].
  destruct Hlive as [?|Hlive]; [done|]. apply prefix_snoc_cases in Hl as [?|Hl]; [by subst|].
  apply (under_prefix_length kvs) in Hl. lia.
Qed.

(** The stack after building: pages may have been pushed, and the old ones changed
    at and below [R] only. *)
Definition grown (R : list bool) (st st' : list StackPage) : Prop :=
  ∃ new old, st' = new ++ old ∧ Forall2 (kept R) st old.

Definition counted (k : nat) (st st' : list StackPage) : Prop :=
  counters st' = add_top k (replicate (length st' - length st) (Some 0) ++ counters st).

(** The result of building the sub-trie at [R]. *)
Definition sub_built (fl : nat) (R : list bool) (w w' : PageWalker) : Prop :=
  at_path fl R w' ∧ same_frame w w' ∧
  (∃ new, pw_output_pages w' = pw_output_pages w ++ new ∧ Forall (built R) new) ∧
  rooted R w w' ∧ grown R (pw_stack w) (pw_stack w') ∧
  (2 ≤ fl → length (under R kvs) < PAGE_ELISION_THRESHOLD →
   counted (leaves_below (layers_left R) (sub kvs R)) (pw_stack w) (pw_stack w')).

Lemma grown_length R st st' : grown R st st' → length st ≤ length st'.
Proof. intros (new & old & -> & Hf%Forall2_length). rewrite length_app. lia. Qed.

Lemma layers_left_snoc R b :
  layers_left (R ++ [b]) = if decide (length R mod 6 = 0) then 5 else layers_left R - 1.
Proof.
  unfold layers_left. rewrite level_snoc, length_snoc.
  pose proof (Nat.div_mod (length R) 6 ltac:(lia)).
  pose proof (Nat.mod_upper_bound (length R) 6 ltac:(lia)).
  destruct (decide (length R mod 6 = 0)); [lia|].
  pose proof (level_bounds R ltac:(by intros ->)). lia.
Qed.

Lemma layers_left_pos R : length R mod 6 ≠ 0 → layers_left R ≠ 0.
Proof.
  intros Hm. unfold layers_left. pose proof (level_bounds R ltac:(by intros ->)) as Hb.
  intros E. assert (length R = (level R + 1) * 6) as El by lia.
  rewrite El, Nat.Div0.mod_mul in Hm. done.
Qed.

Lemma layers_left_bottom R : R ≠ [] → length R mod 6 = 0 → layers_left R = 0.
Proof.
  intros HR Hm. unfold layers_left. pose proof (level_bounds R HR).
  pose proof (Nat.div_mod (length R) 6 ltac:(lia)). lia.
Qed.

Lemma leaf_built fl P X up dn R w ps d :
  (∀ id, page_sized (ps_page_pool ps id)) → sub kvs R = TLeaf d →
  entry P X up dn R → at_path fl X w → can_descend fl P →
  ∃ w', write_control ps (length P) (WLeaf up dn d (hash_leaf d)) w = Some w' ∧ sub_built fl R w w'.
Proof.
  intros Hpool Hsub Hent Hat Hcd. pose proof Hat as (_ & _ & _ & Hs).
  assert (Hfew : length (under R kvs) ≤ 1).
  { destruct (decide (2 ≤ length (under R kvs))) as [Hm|]; [|lia].
    destruct (sub_many kvs R Hkvs Hm) as [_ E]. by rewrite E in Hsub. }
  destruct (arrive_spec ps Hpool fl P X up dn R w Hent Hat Hcd) as (w0 & dd & p & new & Hup & Hdn & Hland).
  { apply sub_length. by rewrite Hsub. }
  unfold write_control. cbn [zero_sibling mbind option_bind write_up write_down write_node].
  rewrite Hup. cbn [mbind option_bind]. rewrite Hdn. cbn [mbind option_bind].
  replace (hash_leaf d) with (nd kvs R) by (unfold nd; by rewrite Hsub).
  pose proof (lands_at_path fl R p new w Hs Hland) as Hat1.
  destruct (write_root_spec fl R (moved p new w) w Hat1) as (w' & -> & Hat' & Hfr & Hout & Hroot & Hk & Hc).
  { destruct (entry_length _ _ _ _ _ Hent) as [_ Hp]. destruct R as [|b R].
    - destruct Hcd as [[_ ->]|Hcd]; [by left|]. apply prefix_length in Hp. simpl in Hp. lia.
    - by eapply can_descend_prefix. }
  { intros _ top rest top' _ _ Hw. by eapply sub_ok_few. }
  { done. }
  exists w'. split; [done|]. split_and!; try done.
  - exists []. split; [by rewrite Hout, app_nil_r|constructor].
  - apply Forall2_app_inv_l in Hk as (new' & old & _ & Hk & ->). by exists new', old.
  - intros _ _. unfold counted. rewrite Hc. rewrite Hsub. destruct Hland as (_ & _ & _ & Hf).
    apply Forall2_length in Hk. cbn [pw_stack set_position set_stack] in *.
    rewrite <-Hk, length_app, Nat.add_sub, fmap_app.
    assert (counters new = replicate (length new) (Some 0)) as ->.
    { clear -Hf. induction Hf as [|sp new (_ & Hc & _) _ IH]; [done|]. by rewrite fmap_cons, Hc, IH. }
    assert (leaves_below (layers_left R) (TLeaf d) = 0) as -> by (by destruct (layers_left R)).
    unfold add_top. generalize (replicate (length new) (Some 0) ++ counters (pw_stack w)); intros [|c cs]; [done|]. f_equal.
    destruct c; simpl; by rewrite ?Nat.add_0_r.
Qed.

Lemma counted_top k st top rest :
  counted k st (top :: rest) → length st < length (top :: rest) →
  sp_leaves_counter top = Some k ∧ counters rest = replicate (length rest - length st) (Some 0) ++ counters st.
Proof.
  intros Hc Hl. unfold counted in Hc. cbn [length] in *. rewrite fmap_cons in Hc.
  replace (S (length rest) - length st) with (S (length rest - length st)) in Hc by lia.
  cbn [replicate app add_top] in Hc. injection Hc as H1' H2'. split; [done|exact H2'].
Qed.

Lemma grown_pop R st top rest st' :
  grown R st (top :: rest) → length st ≤ length rest → Forall2 (kept R) rest st' → grown R st st'.
Proof.
  intros (new & old & E & Hk) Hl Hf. destruct new as [|n new]; simpl in E.
  { apply Forall2_length in Hk. rewrite Hk, <-E in Hl. simpl in Hl. lia. }
  injection E as -> ->. apply Forall2_app_inv_l in Hf as (new' & old' & _ & Hf & ->).
  exists new', old'. split; [done|]. by eapply (Forall2_kept_trans R R).
Qed.

Lemma grown_step R st st1 st' : grown R st st1 → Forall2 (kept R) st1 st' → grown R st st'.
Proof.
  intros (new & old & -> & Hk) Hf. apply Forall2_app_inv_l in Hf as (new' & old' & _ & Hf & ->).
  exists new', old'. split; [done|]. by eapply (Forall2_kept_trans R R).
Qed.

(** Both children of an internal node are in place: the node is written. *)
Lemma close_built ps n fl R b w w1 top rest a c :
  sub kvs R = TInternal a c → can_descend fl R → length (pw_stack w) ≤ length (stack_ids fl R) →
  at_path fl (R ++ [b]) w1 → same_frame w w1 → pw_root w1 = pw_root w →
  (∃ new, pw_output_pages w1 = pw_output_pages w ++ new ∧ Forall (built R) new) →
  pw_stack w1 = top :: rest → sub_ok (R ++ [b]) top →
  sub kvs (R ++ [negb b]) = TTerminator ∨ sub_ok (R ++ [negb b]) top →
  grown R (pw_stack w) (pw_stack w1) →
  (pw_reconstruction w1 = true → 2 ≤ fl ∧ length (under R kvs) < PAGE_ELISION_THRESHOLD) →
  (2 ≤ fl → length (under R kvs) < PAGE_ELISION_THRESHOLD →
   counted (leaves_below (layers_left (R ++ [b])) a + leaves_below (layers_left (R ++ [b])) c)
     (pw_stack w) (pw_stack w1)) →
  ∃ w', write_control ps n (WInternal {| left := node_of a; right := node_of c |} (nd kvs R)) w1 = Some w' ∧
    sub_built fl R w w'.
Proof.
  intros Hsub Hcd Hlen Hat1 Hfr1 Hroot1 (new1 & Ho1 & Hb1) Hst1 Hok Hsib Hg Hrec Hcnt.
  pose proof (sub_internal_many _ _ _ _ Hsub) as Hm. pose proof (can_descend_floor _ _ Hcd) as Hfl.
  destruct (sub_many kvs R Hkvs Hm) as [_ Hsub']. rewrite Hsub in Hsub'. injection Hsub' as Ha Hc.
  assert (Hlt : length R mod 6 = 0 → length (pw_stack w) < length (pw_stack w1)).
  { intros Hmod. destruct Hat1 as (_ & _ & Hids & _). apply (f_equal length) in Hids.
    rewrite length_fmap, stack_ids_snoc, (proj2 (Nat.eqb_eq _ 0) Hmod) in Hids by done. simpl in Hids. lia. }
  assert (Hctop : length R mod 6 = 0 → 2 ≤ fl → length (under R kvs) < PAGE_ELISION_THRESHOLD →
    sp_leaves_counter top = Some (leaves_below 5 a + leaves_below 5 c) ∧
    counters rest = replicate (length rest - length (pw_stack w)) (Some 0) ++ counters (pw_stack w)).
  { intros Hmod Hfl2 Hsm. specialize (Hcnt Hfl2 Hsm). rewrite layers_left_snoc, decide_True in Hcnt by done.
    rewrite Hst1 in Hcnt, Hlt. by apply counted_top; auto. }
  destruct (close_spec ps n fl R b w1 top rest Hat1 Hcd Hst1 Hok Hsib Hm) as (w' & new & Hw & Hat' & Hfr' & Ho' & Hb' & Hroot' & Hcase).
  { intros Hr Hmod. destruct (Hrec Hr) as [Hfl2 Hsm]. destruct (Hctop Hmod Hfl2 Hsm) as [-> _]. by eexists. }
  assert (Hn : nd kvs (R ++ [false]) = node_of a ∧ nd kvs (R ++ [true]) = node_of c)
    by (unfold nd; by rewrite <-Ha, <-Hc).
  destruct Hn as [Hna Hnc]. rewrite Hna, Hnc in Hw. rewrite <-Ha, <-Hc in Hcase. exists w'. split; [exact Hw|]. split_and!; [done| |..].
  - by transitivity w1.
  - exists (new1 ++ new). split; [by rewrite Ho', Ho1, app_assoc|by apply Forall_app].
  - unfold rooted in *. destruct R; [done|]. destruct Hroot' as [E ?]. split; [congruence|done].
  - destruct (decide (length R mod 6 = 0)) as [Hmod|Hmod]; destruct Hcase as [Hk _].
    + rewrite Hst1 in Hg, Hlt. eapply grown_pop; [exact Hg| |exact Hk]. specialize (Hlt Hmod). simpl in Hlt. lia.
    + rewrite <-Hst1 in Hk. by eapply grown_step.
  - intros Hfl2 Hsm. unfold counted. destruct (decide (length R mod 6 = 0)) as [Hmod|Hmod]; destruct Hcase as [Hk Hc'].
    + destruct (Hctop Hmod Hfl2 Hsm) as [Htop Hrest]. rewrite Hc', Hrest by done.
      rewrite layers_left_bottom; [|intros ->; simpl in Hfl; lia|done].
      rewrite <-leaves_sub, Hsub. cbn [leaves_below leaves].
      by rewrite (Forall2_length _ _ _ Hk).
    + rewrite Hc'. specialize (Hcnt Hfl2 Hsm). rewrite layers_left_snoc, decide_False in Hcnt by done.
      unfold counted in Hcnt. rewrite Hst1 in Hcnt. rewrite <-(Forall2_length _ _ _ Hk), Hcnt, Hsub.
      pose proof (layers_left_pos R Hmod). destruct (layers_left R) as [|d]; [done|].
      cbn [leaves_below]. by rewrite Nat.sub_1_r.
Qed.

Lemma built_weaken R R' new : R `prefix_of` R' → Forall (built R') new → Forall (built R) new.
Proof.
  intros HR Hf. eapply Forall_impl; [exact Hf|]. intros o (Hh & r & Hm & Hr & Ho).
  split; [done|]. exists r. split_and!; [done|by transitivity R'|done].
Qed.

Lemma grown_weaken R R' st st' : R `prefix_of` R' → grown R' st st' → grown R st st'.
Proof.
  intros HR (new & old & -> & Hf). exists new, old. split; [done|].
  eapply Forall2_impl; [exact Hf|]. intros sp sp'. by apply kept_weaken.
Qed.

Lemma grown_trans R st1 st2 st3 : grown R st1 st2 → grown R st2 st3 → grown R st1 st3.
Proof.
  intros (new & old & -> & Hf) (new' & old' & -> & Hf').
  apply Forall2_app_inv_l in Hf' as (n1 & o1 & _ & Hf' & ->).
  exists (new' ++ n1), o1. split; [by rewrite app_assoc|]. by eapply (Forall2_kept_trans R R).
Qed.

Lemma stack_ids_length_mono fl X R : length X ≤ length R → length (stack_ids fl X) ≤ length (stack_ids fl R).
Proof.
  intros Hl. unfold stack_ids. rewrite !length_rev, !length_fmap, !length_seq.
  pose proof (Nat.Div0.div_le_mono (length X + 5) (length R + 5) 6 ltac:(lia)). lia.
Qed.

Lemma counted_trans k1 k2 st st1 st2 :
  length st1 = length st2 → length st ≤ length st1 → counted k1 st st1 → counted k2 st1 st2 → counted (k1 + k2) st st2.
Proof.
  unfold counted. intros Hl Hle H1' H2'. rewrite H2', <-Hl, Nat.sub_diag. cbn [replicate app]. rewrite H1'.
  generalize (replicate (length st1 - length st) (Some 0) ++ counters st). intros [|c cs]; [done|].
  cbn [add_top]. f_equal. destruct c; [|done]. simpl. f_equal. lia.
Qed.

(** What building a child gives its parent. *)
Lemma child_built fl R b w w1 :
  sub_built fl (R ++ [b]) w w1 →
  at_path fl (R ++ [b]) w1 ∧ same_frame w w1 ∧ pw_root w1 = pw_root w ∧
  (∃ new, pw_output_pages w1 = pw_output_pages w ++ new ∧ Forall (built R) new) ∧
  (∃ top rest, pw_stack w1 = top :: rest ∧ sub_ok (R ++ [b]) top) ∧
  grown (R ++ [b]) (pw_stack w) (pw_stack w1) ∧
  (2 ≤ fl → length (under R kvs) < PAGE_ELISION_THRESHOLD →
   counted (leaves_below (layers_left (R ++ [b])) (sub kvs (R ++ [b]))) (pw_stack w) (pw_stack w1)).
Proof.
  intros (Hat & Hfr & (new & Ho & Hb) & Hroot & Hg & Hc).
  assert (HR : R `prefix_of` (R ++ [b])) by (by apply prefix_app_r).
  unfold rooted in Hroot. destruct (R ++ [b]) eqn:E; [by destruct R|]. rewrite <-E in *.
  destruct Hroot as (Hroot & top & rest & Hst & Hok). split_and!; try done.
  - exists new. split; [done|by eapply built_weaken].
  - by exists top, rest.
  - intros Hfl Hsm. apply Hc; [done|]. apply (under_prefix_length kvs) in HR. lia.
Qed.

Lemma sub_ok_kept R b sp sp' : kept (R ++ [b]) sp sp' → sub_ok (R ++ [negb b]) sp → sub_ok (R ++ [negb b]) sp'.
Proof.
  intros (Hid & _ & Hk) Hok l c Hl Hp Hlive. rewrite Hid in Hp. rewrite Hk; [by apply Hok|by destruct l|done|].
  intros Hb. destruct Hl as [s1 E1], Hb as [s2 E2]. rewrite E1, <-!app_assoc in E2.
  apply app_inj_1 in E2 as [_ E2]; [|done]. simpl in E2. injection E2 as E2 _. by destruct b.
Qed.

Context (ps : PageSet) (Hpool : ∀ id, page_sized (ps_page_pool ps id)).

Definition builds (fl : nat) (P : list bool) (t : trie) : Prop :=
  ∀ R X up dn w,
    sub kvs R = t → t ≠ TTerminator → entry P X up dn R → at_path fl X w →
    (pw_reconstruction w = true → 2 ≤ fl ∧ length (under R kvs) < PAGE_ELISION_THRESHOLD) →
    ∃ w', write_controls ps (length P) (commands up dn t) w = Some w' ∧ sub_built fl R w w'.

Lemma builds_recon R b (w w1 : PageWalker) fl :
  same_frame w w1 →
  (pw_reconstruction w = true → 2 ≤ fl ∧ length (under R kvs) < PAGE_ELISION_THRESHOLD) →
  pw_reconstruction w1 = true → 2 ≤ fl ∧ length (under (R ++ [b]) kvs) < PAGE_ELISION_THRESHOLD.
Proof.
  intros (_ & _ & _ & ->) Hr Hw. destruct (Hr Hw) as [? ?]. split; [done|].
  pose proof (under_prefix_length kvs R (R ++ [b]) ltac:(by apply prefix_app_r)). lia.
Qed.

Lemma entry_stack fl P X up dn R w :
  entry P X up dn R → at_path fl X w → length (pw_stack w) ≤ length (stack_ids fl R).
Proof.
  intros He (_ & _ & Hids & _). apply entry_length in He as [Hl _].
  apply (f_equal length) in Hids. rewrite length_fmap in Hids. rewrite Hids.
  by apply stack_ids_length_mono.
Qed.

Lemma entry_can_descend fl P X up dn R : can_descend fl P → entry P X up dn R → can_descend fl R.
Proof.
  intros Hcd [_ Hp]%entry_length. destruct R as [|b R]; [|by eapply can_descend_prefix].
  apply prefix_nil_inv in Hp. by subst.
Qed.

(** One child is empty. *)
Lemma builds_one fl P R X up dn w a c (b : bool) :
  can_descend fl P → builds fl P (if b then c else a) →
  sub kvs R = TInternal a c → (if b then a else c) = TTerminator → entry P X up dn R → at_path fl X w →
  (pw_reconstruction w = true → 2 ≤ fl ∧ length (under R kvs) < PAGE_ELISION_THRESHOLD) →
  ∃ w', write_controls ps (length P)
      (commands up (dn ++ [b]) (if b then c else a) ++
       [WInternal {| left := node_of a; right := node_of c |} (nd kvs R)]) w = Some w' ∧ sub_built fl R w w'.
Proof.
  intros Hcd IH Hsub Ht Hent Hat Hrec. pose proof (sub_internal_many _ _ _ _ Hsub) as Hm.
  destruct (sub_many kvs R Hkvs Hm) as [_ Hsub']. rewrite Hsub in Hsub'. injection Hsub' as Ha Hc.
  assert (Hb : sub kvs (R ++ [b]) = if b then c else a) by (by destruct b).
  assert (Hnb : sub kvs (R ++ [negb b]) = TTerminator) by (by destruct b; simpl; congruence).
  assert (Hne : (if b then c else a) ≠ TTerminator).
  { intros E. rewrite E in Hb. apply (sub_terminator kvs _ Hkvs) in Hb, Hnb.
    rewrite <-(leaves_sub R), Hsub in Hm. cbn [leaves] in Hm.
    rewrite Ha, Hc, !leaves_sub in Hm. destruct b; simpl in Hb, Hnb; rewrite Hb, Hnb in Hm; simpl in Hm; lia. }
  destruct (IH (R ++ [b]) X up (dn ++ [b]) w Hb Hne) as (w1 & Hw1 & Hbuilt); [by apply entry_snoc|done| |].
  { by apply (builds_recon R b w w). }
  destruct (child_built _ _ _ _ _ Hbuilt) as (Hat1 & Hfr1 & Hroot1 & Ho1 & (top & rest & Hst1 & Hok) & Hg & Hcnt).
  rewrite write_controls_app, Hw1. cbn [mbind option_bind write_controls].
  destruct (close_built ps (length P) fl R b w w1 top rest a c Hsub) as (w' & -> & Hw'); try done.
  - by eapply entry_can_descend.
  - by eapply entry_stack.
  - by left.
  - eapply grown_weaken; [|exact Hg]. by apply prefix_app_r.
  - destruct Hfr1 as (_ & _ & _ & ->). done.
  - intros Hfl Hsm. specialize (Hcnt Hfl Hsm). rewrite Hb in Hcnt.
    assert (Hz : leaves_below (layers_left (R ++ [b])) TTerminator = 0) by (by destruct (layers_left _)).
    destruct b; rewrite Ht, Hz, ?Nat.add_0_r; exact Hcnt.
  - by exists w'.
Qed.

Lemma builds_all fl P t : can_descend fl P → builds fl P t.
Proof.
  intros Hcd. induction t as [|d|a IHa c IHc]; intros R X up dn w Hsub Hne Hent Hat Hrec; [done|..].
  { cbn [commands write_controls].
    destruct (leaf_built fl P X up dn R w ps d Hpool Hsub Hent Hat Hcd) as (w' & -> & ?). by exists w'. }
  assert (Hnd : node_of (TInternal a c) = nd kvs R) by (unfold nd; by rewrite Hsub).
  cbn [commands]. rewrite Hnd.
  assert (Hcase : a = TTerminator ∨ c = TTerminator ∨ a ≠ TTerminator ∧ c ≠ TTerminator)
    by (destruct a, c; naive_solver).
  destruct Hcase as [->|[->|[Hna Hnc]]].
  - cbn [commands app]. by apply (builds_one fl P R X up dn w TTerminator c true).
  - destruct (builds_one fl P R X up dn w a TTerminator false) as (w' & Hw & ?); try done.
    exists w'. split; [|done]. destruct a; exact Hw.
  - pose proof (sub_internal_many _ _ _ _ Hsub) as Hm.
    destruct (sub_many kvs R Hkvs Hm) as [_ Hsub']. rewrite Hsub in Hsub'. injection Hsub' as Ha Hc.
    replace (match a with TTerminator => commands up (dn ++ [true]) c | _ => commands true [true] c end)
      with (commands true [true] c) by (by destruct a).
    destruct (IHa (R ++ [false]) X up (dn ++ [false]) w) as (w1 & Hw1 & Hb1); try done; [by apply entry_snoc| |].
    { by apply (builds_recon R false w w). }
    destruct (child_built _ _ _ _ _ Hb1) as (Hat1 & Hfr1 & Hroot1 & (o1 & Ho1 & Hbo1) & (top & rest & Hst1 & Hok) & Hg1 & Hcnt1).
    destruct (IHc (R ++ [true]) (R ++ [false]) true [true] w1) as (w2 & Hw2 & Hb2); try done.
    { right. split; [done|]. exists R, []. split_and!; try done. by apply entry_length in Hent as [_ ?]. }
    { by apply (builds_recon R true w w1). }
    destruct (child_built _ _ _ _ _ Hb2) as (Hat2 & Hfr2 & Hroot2 & (o2 & Ho2 & Hbo2) & (top2 & rest2 & Hst2 & Hok2) & Hg2 & Hcnt2).
    assert (Hlen : length (pw_stack w1) = length (pw_stack w2)).
    { destruct Hat1 as (_ & _ & E1 & _), Hat2 as (_ & _ & E2 & _). apply (f_equal length) in E1, E2.
      rewrite length_fmap in E1, E2. rewrite E1, E2.
      rewrite (stack_ids_sibling fl R false true); [done|].
      eapply can_descend_floor, entry_can_descend; [exact Hcd|exact Hent]. }
    rewrite !write_controls_app, Hw1. cbn [mbind option_bind]. rewrite write_controls_app, Hw2.
    cbn [mbind option_bind write_controls].
    destruct (close_built ps (length P) fl R true w w2 top2 rest2 a c Hsub) as (w' & -> & Hw'); try done.
    + by eapply entry_can_descend.
    + by eapply entry_stack.
    + by transitivity w1.
    + congruence.
    + exists (o1 ++ o2). split; [by rewrite Ho2, Ho1, app_assoc|by apply Forall_app].
    + right. destruct Hg2 as (new & old & E & Hk).
      assert (new = []) as -> by (apply Forall2_length in Hk; rewrite E, length_app in Hlen; destruct new; simpl in *; [done|lia]).
      simpl in E. rewrite Hst1, <-E, Hst2 in Hk. inversion Hk; subst. by apply (sub_ok_kept R true top).
    + eapply grown_trans; (eapply grown_weaken; [|eassumption]); by apply prefix_app_r.
    + destruct Hfr1 as (_ & _ & _ & E1), Hfr2 as (_ & _ & _ & E2). rewrite E2, E1. done.
    + intros Hfl Hsm. specialize (Hcnt1 Hfl Hsm). specialize (Hcnt2 Hfl Hsm). rewrite <-Ha in Hcnt1. rewrite <-Hc in Hcnt2.
      rewrite (layers_left_snoc R false), <-(layers_left_snoc R true) in Hcnt1.
      eapply counted_trans; [exact Hlen|by eapply grown_length|done..].
    + by exists w'.
Qed.

(** Replaying the commands of [build_trie] builds the sub-trie. *)
Lemma build_trie_built fl P w :
  can_descend fl P → length P ≤ 256 → at_path fl P w →
  (pw_reconstruction w = true → 2 ≤ fl ∧ length (under P kvs) < PAGE_ELISION_THRESHOLD) →
  ∃ ws w', build_trie (length P) (under P kvs) = Some (nd kvs P, ws) ∧
    write_controls ps (length P) ws w = Some w' ∧ sub_built fl P w w'.
Proof.
  intros Hcd HP Hat Hrec. pose proof Hat as (_ & _ & _ & Hs).
  destruct (build_trie_spec P (under P kvs) (under_block P _ Hkvs)) as (ws & Hbt & _ & Hws).
  exists ws. destruct (under P kvs) as [|kv ops] eqn:E; rewrite <-E in Hbt.
  - subst ws. cbn [write_controls write_control zero_sibling mbind option_bind write_up write_down
      move_up move_down write_node].
    assert (Hnd : TERMINATOR = nd kvs P) by (unfold nd; by rewrite (sub_none _ _ E)). rewrite Hnd.
    destruct (write_root_spec fl P w w Hat Hcd) as (w' & -> & Hat' & Hfr & Hout & Hroot & Hk & Hc);
      [|done|].
    { intros _ top rest top' _ _ Hw. eapply sub_ok_few; [|exact Hw]. rewrite E. simpl. lia. }
    exists w'. rewrite <-E. split_and!; try done. split_and!; try done.
    + exists []. split; [by rewrite Hout, app_nil_r|constructor].
    + by exists [], (pw_stack w').
    + intros _ _. unfold counted. rewrite Hc, (sub_none _ _ E), <-(Forall2_length _ _ _ Hk), Nat.sub_diag.
      assert (leaves_below (layers_left P) TTerminator = 0) as -> by (by destruct (layers_left P)).
      cbn [replicate app]. destruct (counters (pw_stack w)) as [|[c|] cs]; [done| |done].
      simpl. by rewrite Nat.add_0_r.
  - subst ws. destruct (builds_all fl P (sub kvs P) Hcd P P false [] w) as (w' & Hw & Hb); try done.
    + intros Hn%sub_terminator; [|done]. by rewrite Hn in E.
    + left. by rewrite app_nil_r.
    + by rewrite E.
    + exists w'. rewrite <-E in Hbt |- *. by split_and!.
Qed.
End build.
