(* ===== verification/PageAdvance.v ===== *)
(** * Compacting, and moving on to later positions

    The invariant of the page walker between its operations, and that compacting up
    and building the stack for a later position preserve it. *)

From S2P Require Import Prelude Trie PageId Update TrieSpec TriePos PageDiff Wal BitboxSync PageWalker.
From S2P Require Import PagePaths PageLeaves PageWalkerCorrect PageBuild.

#[local] Open Scope nat_scope.

(** ** The order of paths *)

(** [q] branches off [p] to the right. *)
Definition later (p q : list bool) : Prop :=
  ∃ c, (c ++ [false]) `prefix_of` p ∧ (c ++ [true]) `prefix_of` q.

(** [r] is at or below [X], or to the left of the path to it. *)
Definition past (X r : list bool) : Prop := X `prefix_of` r ∨ later r X.

Lemma later_extend p q p' q' : later p q → p `prefix_of` p' → q `prefix_of` q' → later p' q'.
Proof. intros (c & Hp & Hq) Hp' Hq'. exists c. split; etrans; eauto. Qed.

Lemma prefix_snoc_agree (c : list bool) a b l : (c ++ [a]) `prefix_of` l → (c ++ [b]) `prefix_of` l → a = b.
Proof.
  intros [s ->] [s' E]. rewrite <-!app_assoc in E. apply app_inj_1 in E as [_ E]; [|done].
  by injection E.
Qed.

Lemma prefix_snoc_l {A} (c : list A) a l : (c ++ [a]) `prefix_of` l → c `prefix_of` l.
Proof. intros [s ->]. rewrite <-app_assoc. by apply prefix_app_r. Qed.

Lemma later_trans p q r : later p q → later q r → later p r.
Proof.
  intros (c & Hcp & Hcq) (d & Hdq & Hdr).
  destruct (prefix_weak_total _ _ _ Hcq Hdq) as [H|H].
  - apply prefix_snoc_cases in H as [E|H].
    + apply app_inj_2 in E as [_ E]; [done|done].
    + exists c. split; [done|]. etrans; [exact H|by eapply prefix_snoc_l].
  - apply prefix_snoc_cases in H as [E|H].
    + apply app_inj_2 in E as [_ E]; [done|done].
    + exists d. split; [|done]. etrans; [exact H|by eapply prefix_snoc_l].
Qed.

Lemma later_incomparable p q : later p q → ¬ p `prefix_of` q ∧ ¬ q `prefix_of` p.
Proof.
  intros (c & Hp & Hq). split; intros H.
  - assert (false = true); [|done]. eapply prefix_snoc_agree; [|exact Hq]. by etrans.
  - assert (false = true); [|done]. eapply prefix_snoc_agree; [exact Hp|]. by etrans.
Qed.

Lemma later_irrefl p : ¬ later p p.
Proof. intros [H _]%later_incomparable. by apply H. Qed.

Lemma later_split p q :
  later p q → ∃ c p' q', p = c ++ false :: p' ∧ q = c ++ true :: q' ∧ common_prefix_len p q = length c.
Proof.
  intros (c & [p' ->] & [q' ->]). exists c, p', q'. rewrite <-!app_assoc. split_and!; [done..|].
  by apply common_prefix_len_diverge.
Qed.

Lemma bits_lt_later p q : bits_lt p q → ¬ p `prefix_of` q → later p q.
Proof.
  intros Hlt Hp. destruct (common_prefix_len_split p q) as (c & p' & q' & -> & -> & _ & Hd).
  unfold bits_lt in Hlt. rewrite bits_compare_app in Hlt.
  destruct p' as [|x p']; [destruct Hp; rewrite app_nil_r; by apply prefix_app_r|].
  destruct q' as [|y q']; [by destruct x|].
  exists c. destruct x, y; simpl in *; try done. split; apply prefix_app, prefix_cons, prefix_nil.
Qed.

Lemma later_bits_lt p q : later p q → bits_lt p q.
Proof.
  intros (c & p' & q' & -> & -> & _)%later_split. unfold bits_lt. by rewrite bits_compare_app.
Qed.

Lemma past_up l b r : past (l ++ [b]) r → past l r.
Proof.
  intros [H|(c & Hr & H)].
  - left. by eapply prefix_snoc_l.
  - apply prefix_snoc_cases in H as [E|H].
    + apply app_inj_2 in E as [-> _]; [|done]. left. by eapply prefix_snoc_l.
    + right. by exists c.
Qed.

Lemma past_take n X r : past X r → past (take n X) r.
Proof.
  intros Hp. destruct (decide (n ≤ length X)); [|by rewrite take_ge by lia].
  remember (length X - n) as m eqn:Hm. revert X Hp l Hm. induction m as [|m IH]; intros X Hp Hn Hm.
  - by rewrite take_ge by lia.
  - destruct X as [|b X _] using rev_ind; [simpl in Hm; lia|]. rewrite length_snoc in *.
    rewrite take_app_le by lia. apply IH; [by eapply past_up|lia|lia].
Qed.

Lemma past_later X T r : later X T → past X r → later r T.
Proof.
  intros HT [H|H]; [by eapply later_extend|]. by eapply later_trans.
Qed.

(** ** Edits of a set of pairs below a path *)

Definition edited (P : list bool) (kvs kvs' : ops_t) : Prop :=
  block [] kvs' ∧ ∀ q, ¬ P `prefix_of` q → ¬ q `prefix_of` P → under q kvs' = under q kvs.

Lemma edited_later P kvs kvs' q : edited P kvs kvs' → later P q ∨ later q P → under q kvs' = under q kvs.
Proof. intros [_ He] [[??]%later_incomparable|[??]%later_incomparable]; by apply He. Qed.

Section advance.
Context `{NodeHasherLaws, !NodeHasherSized}.

(** ** The walker at a position *)

(** The pages on the stack hold the trie of [kvs] around and below the position. *)
Definition at_inv (kvs : ops_t) (fl : nat) (X : list bool) (w : PageWalker) : Prop :=
  at_path fl X w ∧ Forall (page_open kvs X) (pw_stack w) ∧
  match pw_stack w with top :: _ => slot top X = nd kvs X | [] => True end.

Lemma stack_ids_NoDup fl X : NoDup (stack_ids fl X).
Proof.
  unfold stack_ids. rewrite <-Permutation_rev. apply NoDup_fmap_2_strong; [|apply NoDup_seq].
  intros k k' _ _. apply page_lvl_inj_level.
Qed.

Lemma at_path_rest fl X w top rest sp :
  at_path fl X w → pw_stack w = top :: rest → sp ∈ rest → sp_page_id sp ≠ sp_page_id top.
Proof.
  intros (_ & _ & Hids & _) Hst Hin E. pose proof (stack_ids_NoDup fl X) as Hnd.
  rewrite <-Hids, Hst, fmap_cons in Hnd. apply NoDup_cons in Hnd as [Hn _].
  apply Hn. rewrite <-E. by apply list_elem_of_fmap_2.
Qed.

(** The nodes of a page that the path to [X] has on this page only at its end. *)
Lemma page_open_up kvs l b sp :
  page_open kvs (l ++ [b]) sp →
  (page_of (l ++ [b]) = sp_page_id sp → slot sp (l ++ [b]) = nd kvs (l ++ [b])) →
  page_open kvs l sp.
Proof.
  intros [Hs Ho] Hslot. split; [done|]. intros l' b' Hp Hn Hlive.
  destruct (decide (l' ++ [b'] = l ++ [b])) as [E|E]; [rewrite E in *; auto|].
  apply Ho; [done| |].
  - intros [?|?]%prefix_snoc_cases; [done|]. by apply Hn.
  - destruct Hlive as [[c Hc]|?]; [left|by right]. exists c. by apply prefix_app_r.
Qed.

Lemma page_open_wrote kvs l c n sp sp' :
  length (under l kvs) ≤ 1 → wrote (l ++ [c]) n sp sp' → page_open kvs l sp → page_open kvs l sp'.
Proof.
  intros Hl (Hid & _ & _ & _ & _ & Hs' & Hw) [Hs Ho]. split; [done|].
  intros l' b' Hp Hn Hlive. rewrite Hid in Hp. rewrite Hw by (done || by destruct l').
  rewrite decide_False; [by apply Ho|]. intros E. apply app_inj_2 in E as [-> _]; [|done].
  destruct Hlive as [[d Hd%prefix_length]|?]; [|lia]. rewrite length_snoc in Hd. lia.
Qed.

Lemma stack_open_up kvs fl l b w top rest :
  at_path fl (l ++ [b]) w → pw_stack w = top :: rest → sp_page_id top = page_of (l ++ [b]) →
  Forall (page_open kvs (l ++ [b])) (top :: rest) → slot top (l ++ [b]) = nd kvs (l ++ [b]) →
  Forall (page_open kvs l) (top :: rest).
Proof.
  intros Hat Hst Hid [Ho Hr]%list.Forall_cons Hslot. constructor; [by eapply page_open_up|].
  rewrite list.Forall_forall in Hr |- *. intros sp Hsp. eapply page_open_up; [by apply Hr|].
  intros E. exfalso. by apply (at_path_rest fl (l ++ [b]) w top rest sp); [..|congruence].
Qed.

(** ** Compacting one layer *)

(** The walker after a step from below [l]; the node at [l] is not written yet. *)
Definition compacted (kvs : ops_t) (fl : nat) (l : list bool) (w w1 : PageWalker) : Prop :=
  (∃ c, at_path fl (l ++ [c]) w1) ∧ Forall (page_open kvs l) (pw_stack w1) ∧
  same_frame w w1 ∧ pw_root w1 = pw_root w ∧ pw_output_pages w1 = pw_output_pages w ∧
  sp_leaves_counter <$> pw_stack w1 = sp_leaves_counter <$> pw_stack w.

Lemma clear_leaf_spec kvs fl l c w top rest :
  at_path fl (l ++ [c]) w → pw_stack w = top :: rest → sp_page_id top = page_of (l ++ [c]) →
  Forall (page_open kvs l) (top :: rest) → length (under l kvs) ≤ 1 →
  ∃ w1, walker_set_node TERMINATOR w = Some w1 ∧ compacted kvs fl l w w1.
Proof.
  intros Hat Hst Hid [Ho Hr]%list.Forall_cons Hl. pose proof Hat as (Hp & HX & Hids & Hs).
  rewrite Hst in Hs. apply list.Forall_cons in Hs as [Hs1 Hs2].
  destruct (walker_set_node_spec w top rest l c TERMINATOR) as (top' & -> & Hw); try done.
  pose proof Hw as (Hid' & _ & Hc & _ & _ & Hs' & _).
  exists (set_stack (top' :: rest) w). split; [done|]. split_and!; try done.
  - exists c. split_and!; try done; cbn [pw_stack set_stack]; [|by constructor].
    rewrite Hst, fmap_cons in Hids. by rewrite fmap_cons, Hid'.
  - cbn [pw_stack set_stack]. constructor; [by eapply page_open_wrote|done].
  - cbn [pw_stack set_stack]. by rewrite Hst, !fmap_cons, Hc.
Qed.

Lemma at_inv_sibling kvs fl l b w top rest :
  at_inv kvs fl (l ++ [b]) w → pw_stack w = top :: rest → sp_page_id top = page_of (l ++ [b]) →
  slot top (l ++ [negb b]) = nd kvs (l ++ [negb b]).
Proof.
  intros (_ & Hopen & _) Hst Hid. rewrite Hst in Hopen. apply list.Forall_cons in Hopen as [[_ Ho] _].
  apply Ho; [rewrite Hid; apply page_of_sibling| |left; by exists b].
  intros E. apply (prefix_snoc_ne l (negb b)). by rewrite negb_involutive.
Qed.

Lemma compact_step_spec kvs fl l b w :
  block [] kvs → at_inv kvs fl (l ++ [b]) w → 6 * fl ≤ length l → length l < 256 →
  ∃ w1, compact_step w = Some (w1, nd kvs l) ∧ compacted kvs fl l w w1.
Proof.
  intros Hb Hinv Hfl Hl. pose proof Hinv as (Hat & Hopen & Hslot). pose proof Hat as (Hp & HX & Hids & Hs).
  destruct (at_path_top fl (l ++ [b]) w Hat) as (top & rest & Hst & Hid & Hs1 & Hs2); [rewrite length_snoc; lia|].
  pose proof (at_inv_sibling _ _ _ _ _ _ _ Hinv Hst Hid) as Hsib. rewrite Hst in Hopen, Hslot.
  pose proof (stack_open_up kvs fl l b w top rest Hat Hst Hid Hopen Hslot) as Hup.
  unfold compact_step. rewrite (walker_node_spec w top rest (l ++ [b])) by done.
  rewrite (sibling_node_spec w top rest l b), (peek_last_bit_path _ l b) by done.
  cbn [mbind option_bind]. rewrite Hslot, Hsib. unfold nd. rewrite !node_kind_of.
  pose proof (leaves_sub kvs Hb l) as Hlv. rewrite (sub_compact kvs l Hb Hl) in Hlv |- *.
  assert (Hstay : compacted kvs fl l w w) by (split_and!; try done; [by exists b|by rewrite Hst]).
  destruct (sub kvs (l ++ [b])) as [|d|x y] eqn:E1, (sub kvs (l ++ [negb b])) as [|d'|x' y'] eqn:E2;
    try (destruct b; simpl negb in *; rewrite E1, E2; exists w; by split).
  - destruct (sibling_spec (pw_position w) l b Hp HX) as (p & -> & Hpok & Hpath). cbn [mbind option_bind].
    destruct (clear_leaf_spec kvs fl l (negb b) (set_position p w) top rest) as (w1 & -> & Hw1); try done.
    + split_and!; try done. cbn [pw_stack set_position]. by rewrite Hids, (stack_ids_sibling fl l (negb b) b).
    + by rewrite Hid, (page_of_sibling l b (negb b)).
    + destruct b; simpl negb in *; rewrite E1, E2 in Hlv; simpl in Hlv; lia.
    + cbn [mbind option_bind]. destruct b; simpl negb in *; rewrite E1, E2; by exists w1.
  - destruct (clear_leaf_spec kvs fl l b w top rest) as (w1 & -> & Hw1); try done.
    + destruct b; simpl negb in *; rewrite E1, E2 in Hlv; simpl in Hlv; lia.
    + cbn [mbind option_bind]. destruct b; simpl negb in *; rewrite E1, E2; by exists w1.
Qed.

Lemma page_open_same kvs X st st' :
  Forall2 same_page st st' → Forall (page_open kvs X) st → Forall (page_open kvs X) st'.
Proof.
  induction 1 as [|sp sp' st st' [Hid Hp] _ IH]; [done|]. intros [[Hs Ho] Hr]%list.Forall_cons.
  constructor; [|auto]. split; [by rewrite Hp|]. intros l b. unfold slot. rewrite Hid, Hp. apply Ho.
Qed.

(** A page whose region is the position can be output. *)
Lemma page_open_built kvs l b sp o :
  length l mod 6 = 0 → sp_page_id sp = page_of (l ++ [b]) → page_open kvs l sp → out_of sp o → built kvs l o.
Proof.
  intros Hm Hid [Hs Ho] (Hoid & Hos & Hslot). rewrite page_of_child in Hid.
  pose proof (Nat.div_mod (length l) 6 ltac:(lia)) as Hdm.
  split; [|exists l; split_and!; [done|done|congruence]].
  split; [done|]. intros l' b' Hp Hlive. rewrite Hslot by apply index_of_path_lt.
  rewrite Hoid in Hp. apply Ho; [done| |by right].
  intros Hpre%prefix_length. rewrite Hid in Hp.
  pose proof (page_of_region l' b' l (length l / 6) ltac:(lia) Hp) as Hr%prefix_length.
  rewrite length_take, length_snoc in *. lia.
Qed.

Lemma compact_layer kvs fl l b w :
  block [] kvs → at_inv kvs fl (l ++ [b]) w → 6 * fl ≤ length l → length l < 256 →
  (pw_reconstruction w = true →
     ∀ top rest, pw_stack w = top :: rest → is_Some (sp_leaves_counter top)) →
  ∃ w1 w2 new, compact_step w = Some (w1, nd kvs l) ∧ walker_up w1 = Some w2 ∧ at_path fl l w2 ∧
    Forall (page_open kvs l) (pw_stack w2) ∧ same_frame w w2 ∧ pw_root w2 = pw_root w ∧
    pw_output_pages w2 = pw_output_pages w ++ new ∧ Forall (built kvs l) new.
Proof.
  intros Hb Hinv Hfl Hl Hrec.
  destruct (compact_step_spec kvs fl l b w Hb Hinv Hfl Hl) as (w1 & Hcs & (c & Hat1) & Ho1 & Hfr1 & Hr1 & Hout1 & Hc1).
  exists w1. destruct (walker_up_spec fl l c w1 Hat1 Hfl) as (p & st & new & Hup & Hpok & HpR & Hids' & Hst2 & Hcase).
  { intros Hr _ top rest Hst. destruct Hfr1 as (_ & _ & _ & E). rewrite E in Hr.
    rewrite Hst, fmap_cons in Hc1. destruct (pw_stack w) as [|top0 rest0]; [done|].
    rewrite fmap_cons in Hc1. injection Hc1 as -> _. by apply (Hrec Hr top0 rest0). }
  destruct Hfr1 as (F1 & F2 & F3 & F4).
  rewrite Hup. eexists _, new. split; [done|]. split; [done|]. split_and!; try done.
  - destruct (decide (length l mod 6 = 0)).
    + destruct Hcase as (top & rest & E & Hsame & _). cbn [pw_stack put_outputs set_position set_stack].
      rewrite E in Ho1. apply list.Forall_cons in Ho1 as [_ Ho1]. by eapply page_open_same.
    + by destruct Hcase as [-> _].
  - cbn [pw_output_pages put_outputs set_position set_stack]. by rewrite Hout1.
  - destruct (decide (length l mod 6 = 0)) as [Hm|Hm]; [|by destruct Hcase as [_ ->]].
    destruct Hcase as (top & rest & E & _ & Hout & _). rewrite E in Ho1.
    apply list.Forall_cons in Ho1 as [Ho1 _].
    destruct (at_path_top fl (l ++ [c]) w1 Hat1) as (? & ? & E' & Hid & _); [rewrite length_snoc; lia|].
    rewrite E in E'. injection E' as <- <-.
    eapply Forall_impl; [exact Hout|]. intros o Ho. by eapply page_open_built.
Qed.

Lemma close_layer kvs fl l w :
  at_path fl l w → Forall (page_open kvs l) (pw_stack w) → 6 * fl < length l →
  ∃ w', walker_set_node (nd kvs l) w = Some w' ∧ at_inv kvs fl l w' ∧ same_frame w w' ∧
    pw_root w' = pw_root w ∧ pw_output_pages w' = pw_output_pages w.
Proof.
  intros Hat Ho Hl. pose proof Hat as (Hp & HX & Hids & Hs).
  destruct (at_path_top fl l w Hat Hl) as (top & rest & Hst & Hid & Hs1 & Hs2).
  destruct l as [|b l _] using rev_ind; [simpl in Hl; lia|].
  destruct (walker_set_node_spec w top rest l b (nd kvs (l ++ [b]))) as (top' & -> & Hw); try done.
  { apply length_nd. }
  pose proof Hw as (Hid' & _ & _ & _ & _ & Hs' & Hslot).
  exists (set_stack (top' :: rest) w). split; [done|]. split_and!; try done.
  split_and!; try done; cbn [pw_stack set_stack].
  - split_and!; try done; cbn [pw_stack set_stack]; [|by constructor].
    rewrite Hst, fmap_cons in Hids. by rewrite fmap_cons, Hid'.
  - rewrite Hst in Ho. apply list.Forall_cons in Ho as [[_ Ho] Hr].
    constructor; [|done]. split; [done|]. intros l' b' Hp' Hn Hlive. rewrite Hid' in Hp'.
    rewrite Hslot by (done || by destruct l'). rewrite decide_False; [by apply Ho|].
    intros E. apply Hn. by rewrite E.
  - rewrite Hslot by (done || by destruct l). by rewrite decide_True.
Qed.

(** ** Compacting up *)

(** The walker after compacting up to [Y]: there, or, when [Y] is the floor of the
    walk, with an empty stack and the commitment of [Y] handed over. *)
Definition climbed (kvs : ops_t) (fl : nat) (Y : list bool) (w w' : PageWalker) : Prop :=
  (∃ new, pw_output_pages w' = pw_output_pages w ++ new ∧ Forall (built kvs Y) new) ∧
  pw_last_position w' = pw_last_position w ∧ pw_parent_page w' = pw_parent_page w ∧
  pw_reconstruction w' = pw_reconstruction w ∧
  if decide (length Y = 6 * fl) then
    pos_ok (pw_position w') ∧ path (pw_position w') = Y ∧ pw_stack w' = [] ∧
    match pw_parent_page w with
    | None => pw_root w' = nd kvs Y ∧ pw_child_page_roots w' = pw_child_page_roots w
    | Some _ =>
        pw_root w' = pw_root w ∧
        pw_child_page_roots w' = pw_child_page_roots w ++ [(pw_position w', nd kvs Y)]
    end
  else
    at_inv kvs fl Y w' ∧ pw_root w' = pw_root w ∧ pw_child_page_roots w' = pw_child_page_roots w.

(** One iteration that does not reach the floor. *)
Lemma compact_iteration kvs fl l b w n :
  block [] kvs → at_inv kvs fl (l ++ [b]) w → 6 * fl < length l → length l < 256 →
  pw_reconstruction w = false →
  ∃ w' new, compact_loop (S n) w = compact_loop n w' ∧ at_inv kvs fl l w' ∧ same_frame w w' ∧
    pw_root w' = pw_root w ∧ pw_output_pages w' = pw_output_pages w ++ new ∧ Forall (built kvs l) new.
Proof.
  intros Hb Hinv Hfl Hl Hrec.
  destruct (compact_layer kvs fl l b w Hb Hinv ltac:(lia) Hl) as (w1 & w2 & new & Hcs & Hup & Hat & Ho & Hfr & Hr & Hout & Hbu).
  { by rewrite Hrec. }
  cbn [compact_loop]. rewrite Hcs. cbn [mbind option_bind]. rewrite Hup. cbn [mbind option_bind].
  destruct (at_path_top fl l w2 Hat Hfl) as (top & rest & Hst & Hid & Hs1 & Hs2).
  destruct Hfr as (F1 & F2 & F3 & F4).
  assert (Hset : ∀ ss, ∃ w', walker_set_node (nd kvs l) (set_siblings ss w2) = Some w' ∧ at_inv kvs fl l w' ∧
    same_frame w w' ∧ pw_root w' = pw_root w ∧ pw_output_pages w' = pw_output_pages w ++ new).
  { intros ss. destruct (close_layer kvs fl l (set_siblings ss w2) Hat Ho Hfl) as (w' & -> & Hi & Hf & R & O).
    exists w'. split_and!; [done|done|..].
    - etrans; [|exact Hf]. by split_and!.
    - by rewrite R.
    - by rewrite O. }
  rewrite Hst. destruct (n =? 0).
  - destruct Hat as (Hp & HX & _). rewrite (walker_node_spec w2 top rest l) by done. cbn [mbind option_bind].
    destruct (Hset (pw_sibling_stack w2 ++ [(slot top l, pos_depth (pw_position w2))])) as (w' & -> & ? & ? & ? & ?).
    cbn [mbind option_bind]. by exists w', new.
  - cbn [mbind option_bind]. destruct (Hset (pw_sibling_stack w2)) as (w' & Hw & ? & ? & ? & ?).
    replace (set_siblings (pw_sibling_stack w2) w2) with w2 in Hw by (by destruct w2).
    rewrite Hw. cbn [mbind option_bind]. by exists w', new.
Qed.

(** The iteration that reaches the floor. *)
Lemma compact_floor kvs fl l b w n :
  block [] kvs → at_inv kvs fl (l ++ [b]) w → length l = 6 * fl → length l < 256 →
  (pw_reconstruction w = true →
     ∀ top rest, pw_stack w = top :: rest → is_Some (sp_leaves_counter top)) →
  ∃ w', compact_loop (S n) w = Some w' ∧ climbed kvs fl l w w'.
Proof.
  intros Hb Hinv Hfl Hl Hrec.
  destruct (compact_layer kvs fl l b w Hb Hinv ltac:(lia) Hl Hrec) as (w1 & w2 & new & Hcs & Hup & Hat & Ho & (F1 & F2 & F3 & F4) & Hr & Hout & Hbu).
  cbn [compact_loop]. rewrite Hcs. cbn [mbind option_bind]. rewrite Hup. cbn [mbind option_bind].
  destruct Hat as (Hp & HX & Hids & _). rewrite stack_ids_floor in Hids by lia.
  apply fmap_nil_inv in Hids. rewrite Hids. eexists. split; [done|]. unfold climbed.
  rewrite decide_True by done. rewrite F2.
  destruct (pw_parent_page w); (split_and!; [by exists new|by cbn; congruence..]).
Qed.

Lemma compact_loop_spec kvs fl n X w :
  block [] kvs → at_inv kvs fl X w → 6 * fl < length X ≤ 256 →
  (pw_reconstruction w = true → length X = S (6 * fl) ∧
     ∀ top rest, pw_stack w = top :: rest → is_Some (sp_leaves_counter top)) →
  ∃ w', compact_loop n w = Some w' ∧ climbed kvs fl (take ((length X - n) `max` (6 * fl)) X) w w'.
Proof.
  intros Hb. revert X w. induction n as [|n IH]; intros X w Hinv HX Hrec.
  - exists w. split; [done|]. rewrite take_ge by lia. split_and!; try done.
    + exists []. by rewrite app_nil_r.
    + rewrite decide_False by lia. done.
  - destruct X as [|b l _] using rev_ind; [simpl in HX; lia|]. rewrite length_snoc in *.
    destruct (decide (length l = 6 * fl)) as [Hfl|Hfl].
    + destruct (compact_floor kvs fl l b w n Hb Hinv Hfl ltac:(lia)) as (w' & -> & Hc).
      { intros Hr. by apply Hrec. }
      exists w'. split; [done|]. rewrite take_app_le by lia. by rewrite take_ge by lia.
    + assert (Hr : pw_reconstruction w = false).
      { destruct (pw_reconstruction w); [|done]. destruct Hrec; [done|lia]. }
      destruct (compact_iteration kvs fl l b w n Hb Hinv ltac:(lia) ltac:(lia) Hr)
        as (w1 & new & -> & Hinv1 & (F1 & F2 & F3 & F4) & Hr1 & Ho1 & Hb1).
      destruct (IH l w1 Hinv1 ltac:(lia)) as (w' & Hw' & (new' & Ho' & Hb') & L & P & R & Hrest).
      { rewrite F4, Hr. done. }
      exists w'. split; [done|]. rewrite take_app_le by lia.
      replace (S (length l) - S n) with (length l - n) by lia.
      set (Y := take ((length l - n) `max` (6 * fl)) l) in *.
      split; [|split_and!; [congruence..|]].
      * exists (new ++ new'). split; [by rewrite Ho', Ho1, app_assoc|]. apply Forall_app. split; [|done].
        eapply built_weaken; [|exact Hb1]. eexists; symmetry; apply take_drop.
      * rewrite F2 in Hrest. destruct (decide _); [|by rewrite <-Hr1, <-F3].
        destruct (pw_parent_page w); by rewrite <-?Hr1, <-F3.
Qed.

Lemma compact_up_later kvs fl X w pos :
  block [] kvs → at_inv kvs fl X w → 6 * fl < length X ≤ 256 → later X (path pos) →
  (pw_reconstruction w = true → length X = S (6 * fl) ∧
     ∀ top rest, pw_stack w = top :: rest → is_Some (sp_leaves_counter top)) →
  ∃ c w', (c ++ [false]) `prefix_of` X ∧ (c ++ [true]) `prefix_of` path pos ∧
    compact_up (Some pos) w = Some w' ∧ climbed kvs fl (take (S (length c) `max` (6 * fl)) X) w w'.
Proof.
  intros Hb Hinv HX Hlat Hrec. pose proof Hinv as (Hat & _).
  destruct (later_split _ _ Hlat) as (c & x & t & EX & ET & Hc).
  exists c. unfold compact_up. destruct (at_path_top fl X w Hat ltac:(lia)) as (top & rest & Hst & _).
  rewrite bool_decide_eq_false_2 by (by rewrite Hst).
  unfold prepare_compact. destruct Hat as (Hp & HpX & _).
  unfold shared_depth, shared_bits. rewrite pos_depth_path, HpX, Hc by done.
  assert (HcX : S (length c) ≤ length X) by (rewrite EX, length_app; simpl; lia).
  rewrite (proj2 (Nat.leb_le _ _)) by lia. cbn [oassert mbind option_bind].
  match goal with |- context [compact_loop ?n ?w1] => set (w1' := w1); set (n' := n) end.
  assert (Hw1 : ∃ ss pn, w1' = set_siblings ss (set_prev_node pn w)).
  { subst w1'. destruct (_ - _ =? 0); [destruct (pw_prev_node _)|].
    - by eexists _, None.
    - eexists _, (pw_prev_node w). by destruct w.
    - by eexists _, None. }
  destruct Hw1 as (ss & pn & ->).
  destruct (compact_loop_spec kvs fl n' X (set_siblings ss (set_prev_node pn w)) Hb Hinv HX Hrec) as (w' & Hw' & Hcl).
  exists w'. split_and!; [rewrite EX; apply prefix_app, prefix_cons, prefix_nil|
    rewrite ET; apply prefix_app, prefix_cons, prefix_nil|done|].
  replace (S (length c)) with (length X - n') by (subst n'; lia). exact Hcl.
Qed.

Lemma compact_up_all kvs fl X w :
  block [] kvs → at_inv kvs fl X w → 6 * fl < length X ≤ 256 →
  (pw_reconstruction w = true → length X = S (6 * fl) ∧
     ∀ top rest, pw_stack w = top :: rest → is_Some (sp_leaves_counter top)) →
  ∃ w', compact_up None w = Some w' ∧ climbed kvs fl (take (6 * fl) X) w w'.
Proof.
  intros Hb Hinv HX Hrec. pose proof Hinv as (Hat & _).
  unfold compact_up. destruct (at_path_top fl X w Hat ltac:(lia)) as (top & rest & Hst & _).
  rewrite bool_decide_eq_false_2 by (by rewrite Hst).
  unfold prepare_compact. destruct Hat as (Hp & HpX & _). rewrite pos_depth_path, HpX by done.
  cbn [mbind option_bind].
  destruct (compact_loop_spec kvs fl (length X) X (set_siblings [] w) Hb Hinv HX Hrec) as (w' & -> & Hcl).
  exists w'. split; [done|]. by rewrite Nat.sub_diag, Nat.max_0_l in Hcl.
Qed.

(** ** Building the stack *)

(** A page of the page set that a walk to [T] can load. *)
Definition page_ready (kvs : ops_t) (T : list bool) (id : PageId) (page : list u8) : Prop :=
  page_sized page ∧
  ∀ l b, page_of (l ++ [b]) = id → l ++ [b] = T ∨ ¬ (l ++ [b]) `prefix_of` T →
    (∃ c, (l ++ [c]) `prefix_of` T) ∨ 2 ≤ length (under l kvs) →
    page_slot page (index_of_path (l ++ [b])) = nd kvs (l ++ [b]).

(** A stack page as it comes from the page set. *)
Definition loaded (ps : PageSet) (sp : StackPage) : Prop :=
  ∃ origin, page_set_get ps (sp_page_id sp) = Some (sp_page sp, origin) ∧
    sp_leaves_counter sp = origin_leaves_counter origin ∧ sp_bucket_info sp = origin_bucket_info origin.

(** The page above the level [k]. *)
Definition target_at (T : list bool) (k : nat) : option PageId :=
  match k with 0 => None | S k' => Some (page_lvl T k') end.

Lemma ancestor_pages_spec ps T k0 k fuel :
  k0 ≤ S k → k < fuel →
  (∀ j, k0 ≤ j ≤ k → ∃ page origin, page_set_get ps (page_lvl T j) = Some (page, origin) ∧ page_sized page) →
  ∃ pages, ancestor_pages fuel ps (target_at T k0) (page_lvl T k) = Some pages ∧
    sp_page_id <$> pages = rev (page_lvl T <$> seq k0 (S k - k0)) ∧
    Forall (λ sp, page_sized (sp_page sp)) pages ∧ Forall (loaded ps) pages.
Proof.
  revert k. induction fuel as [|fuel IH]; intros k Hk Hf Hget; [lia|]. cbn [ancestor_pages].
  destruct (decide (k0 = S k)) as [->|Hne].
  { cbn [target_at]. rewrite bool_decide_eq_true_2 by done. exists []. rewrite Nat.sub_diag. by split_and!. }
  rewrite bool_decide_eq_false_2.
  2: { destruct k0; [done|]. cbn [target_at]. intros [= E]. pose proof (depth_page_lvl T k) as D1.
       unfold page_lvl in D1. pose proof (f_equal length E) as E'. rewrite !length_fmap, !length_seq in E'. lia. }
  destruct (Hget k ltac:(lia)) as (page & origin & Hg & Hs). rewrite Hg. cbn [mbind option_bind].
  unfold StackPage_new. destruct (read_elided_children_total page Hs) as [ec ->]. cbn [mbind option_bind].
  set (sp := mk_stack_page _ _ _ _ _ _ _).
  assert (Hsp : loaded ps sp) by (by exists origin).
  case_bool_decide as Hroot.
  - apply page_lvl_root in Hroot as ->. exists [sp]. replace k0 with 0 by lia.
    split_and!; [done|done|by constructor|by constructor].
  - destruct k as [|k]; [by rewrite page_lvl_0 in Hroot|]. rewrite parent_page_lvl.
    destruct (IH k) as (pages & -> & Hids & Hss & Hl); [lia|lia| |].
    { intros j Hj. apply Hget. lia. }
    cbn [mbind option_bind]. exists (sp :: pages). split_and!; [done| |by constructor|by constructor].
    rewrite fmap_cons, Hids. replace (S (S k) - k0) with (S (S k - k0)) by lia.
    rewrite seq_S, fmap_app, rev_app_distr. cbn [fmap list_fmap rev app]. f_equal.
    cbn [sp_page_id sp]. f_equal. lia.
Qed.

(** The position lies below the parent page of the walk. *)
Definition in_scope (fl : nat) (T : list bool) (parent : option PageId) : Prop :=
  match parent with
  | None => fl = 0
  | Some pp => 6 * fl < length T ∧ ∃ f, fl = S f ∧ pp = page_lvl T f
  end.

Lemma in_scope_ok fl T w :
  T ≠ [] → in_scope fl T (pw_parent_page w) → assert_page_in_scope (Some (page_of T)) w = Some ().
Proof.
  intros HT Hsc. unfold assert_page_in_scope, in_scope in *. destruct (pw_parent_page w) as [pp|]; [|done].
  destruct Hsc as (Hl & f & -> & ->). pose proof (level_bounds T HT).
  rewrite bool_decide_eq_false_2.
  2: { intros E. apply page_lvl_inj_level in E. lia. }
  cbn [negb oassert mbind option_bind]. unfold is_descendant_of. rewrite bool_decide_eq_true_2; [done|].
  unfold page_of, page_lvl. cbn [PageId.path].
  replace (level T) with (f + (level T - f)) by lia. rewrite seq_app, fmap_app. by apply prefix_app_r.
Qed.

Lemma target_at_stack fl X w T :
  at_path fl X w → 6 * fl < length X → page_of X = page_of T →
  Some (page_of T) = match stack_top w with Some item => Some (sp_page_id item) | None => pw_parent_page w end.
Proof.
  intros Hat Hl E. destruct (at_path_top fl X w Hat Hl) as (top & rest & Hst & Hid & _).
  unfold stack_top. rewrite Hst. simpl. congruence.
Qed.

Lemma page_ready_open kvs T ps sp :
  loaded ps sp → (∀ page origin, page_set_get ps (sp_page_id sp) = Some (page, origin) →
                    page_ready kvs T (sp_page_id sp) page) →
  page_open kvs T sp ∧ (T ≠ [] → page_of T = sp_page_id sp → slot sp T = nd kvs T).
Proof.
  intros (origin & Hg & _) Hr. destruct (Hr _ _ Hg) as [Hs Hslot]. split.
  - split; [done|]. intros l b Hp Hn Hlive. apply Hslot; auto.
  - intros HT Hp. destruct T as [|b l _] using rev_ind; [done|]. apply Hslot; auto. left. by exists b.
Qed.

(** The pages that stay on the stack when the walk turns right below [c]. *)
Lemma page_open_right kvs c T sp :
  page_open kvs (c ++ [false]) sp → (c ++ [true]) `prefix_of` T →
  (page_of (c ++ [false]) = sp_page_id sp → slot sp (c ++ [false]) = nd kvs (c ++ [false])) →
  (∀ l, (c ++ [true]) `prefix_of` l → (∃ d, (l ++ [d]) `prefix_of` T) → 2 ≤ length (under l kvs)) →
  page_open kvs T sp.
Proof.
  intros [Hs Ho] HcT Hleft HL. split; [done|]. intros l b Hp Hn Hlive.
  destruct (decide (l ++ [b] = c ++ [false])) as [E|E]; [rewrite E in *; auto|].
  apply Ho; [done| |].
  - intros [?|Hc]%prefix_snoc_cases; [done|]. apply Hn. etrans; [exact Hc|by eapply prefix_snoc_l].
  - destruct Hlive as [[d Hd]|?]; [|by right].
    destruct (prefix_weak_total _ _ _ Hd HcT) as [Hx|Hx].
    + apply prefix_snoc_cases in Hx as [Heq|Hx].
      * apply app_inj_2 in Heq as [-> _]; [|done]. left. by exists false.
      * left. exists d. by apply prefix_app_r.
    + apply prefix_snoc_cases in Hx as [Heq|Hx].
      * apply app_inj_2 in Heq as [-> _]; [|done]. left. by exists false.
      * right. apply HL; [done|by exists d].
Qed.

Lemma build_stack_nil ps pos w :
  pos_ok pos → path pos = [] → pw_stack w = [] → pw_parent_page w = None →
  build_stack ps pos w = Some (set_stack [] (set_position pos w)).
Proof.
  intros Hp HT Hst Hpp. unfold build_stack, page_id. rewrite is_root_path, HT by done.
  rewrite bool_decide_eq_true_2 by done. cbn [mbind option_bind assert_page_in_scope].
  rewrite Hpp. cbn [oassert bool_decide decide_rel]. rewrite bool_decide_eq_true_2 by done. cbn [oassert mbind option_bind].
  cbn [pw_stack set_position]. rewrite Hst. cbn [length pop_all]. f_equal. destruct w; simpl in *; by subst.
Qed.

Lemma rev_seq_app (f : nat → PageId) a b c :
  a ≤ b ≤ c → rev (f <$> seq b (c - b)) ++ rev (f <$> seq a (b - a)) = rev (f <$> seq a (c - a)).
Proof.
  intros Hab. rewrite <-rev_app_distr, <-fmap_app. do 2 f_equal.
  replace (c - a) with ((b - a) + (c - b)) by lia. rewrite seq_app. do 2 f_equal. lia.
Qed.

(** Loading the pages above the level [k0], with the pages below it on the stack. *)
Lemma build_stack_load ps pos w T fl k0 X :
  pos_ok pos → path pos = T → T ≠ [] → in_scope fl T (pw_parent_page w) →
  fl ≤ k0 ≤ S (level T) →
  sp_page_id <$> pw_stack w = rev (page_lvl T <$> seq fl (k0 - fl)) →
  (pw_stack w = [] → k0 = fl) → (pw_stack w ≠ [] → fl < k0) →
  (∀ k, k0 ≤ k → 6 * k < length T →
     ∃ page origin, page_set_get ps (page_lvl T k) = Some (page, origin) ∧ page_sized page) →
  Forall (λ sp, page_sized (sp_page sp)) (pw_stack w) → X = T →
  ∃ new, build_stack ps pos w = Some (set_stack (new ++ pw_stack w) (set_position pos w)) ∧
    at_path fl X (set_stack (new ++ pw_stack w) (set_position pos w)) ∧
    sp_page_id <$> new = rev (page_lvl T <$> seq k0 (S (level T) - k0)) ∧ Forall (loaded ps) new.
Proof.
  intros Hp HT Hne Hsc Hk Hids Hemp Hnemp Hget Hs ->. pose proof (level_bounds T Hne) as Hlv.
  unfold build_stack. rewrite page_id_path, HT by (by rewrite ?HT). cbn [mbind option_bind].
  rewrite (in_scope_ok fl) by done. cbn [mbind option_bind].
  assert (Htgt : match stack_top (set_position pos w) with
                 | Some item => Some (sp_page_id item)
                 | None => pw_parent_page (set_position pos w) end = target_at T k0).
  { unfold stack_top. cbn [pw_stack set_position pw_parent_page]. destruct (pw_stack w) as [|top rest].
    - rewrite (Hemp eq_refl). simpl. unfold in_scope in Hsc. destruct (pw_parent_page w).
      + by destruct Hsc as (_ & f & -> & ->).
      + by rewrite Hsc.
    - specialize (Hnemp ltac:(done)). simpl. destruct k0 as [|k0]; [lia|]. simpl. f_equal.
      replace (S k0 - fl) with (S (k0 - fl)) in Hids by lia.
      rewrite seq_S, fmap_app, rev_app_distr in Hids. cbn [fmap list_fmap rev app] in Hids.
      injection Hids as -> _. f_equal. lia. }
  rewrite Htgt. unfold page_of at 1 2. rewrite depth_page_lvl.
  destruct (ancestor_pages_spec ps T k0 (level T) (S (level T))) as (pages & -> & Hpids & Hps & Hpl); [lia|lia| |].
  { intros j Hj. apply Hget; lia. }
  cbn [mbind option_bind]. exists pages. split_and!; try done.
  split_and!; try done; cbn [pw_stack set_stack set_position]; [|by apply Forall_app].
  rewrite fmap_app, Hpids, Hids, rev_seq_app by lia.
  unfold stack_ids. do 3 f_equal.
  assert ((length T + 5) / 6 = S (level T)); [|lia].
  symmetry. apply (Nat.div_unique _ _ _ (length T + 5 - 6 * S (level T))); lia.
Qed.

Lemma stack_ids_right fl c T :
  6 * fl ≤ length c → (c ++ [true]) `prefix_of` T →
  stack_ids fl (c ++ [false]) = rev (page_lvl T <$> seq fl (S (length c / 6) - fl)).
Proof.
  intros Hfl [s ->]. unfold stack_ids. rewrite length_snoc.
  replace ((S (length c) + 5) / 6) with (S (length c / 6)).
  2: { pose proof (Nat.div_mod (length c) 6 ltac:(lia)).
       apply (Nat.div_unique _ _ _ (length c mod 6)); [|lia]. apply Nat.mod_upper_bound. lia. }
  f_equal. apply list_fmap_ext. intros i j [-> Hj]%lookup_seq.
  pose proof (Nat.div_mod (length c) 6 ltac:(lia)).
  rewrite <-app_assoc, !page_lvl_app by lia. done.
Qed.

(** The top of the stack has the node of the new position. *)
Lemma top_slot_right kvs c T sp :
  page_open kvs (c ++ [false]) sp → (c ++ [true]) `prefix_of` T → page_of T = sp_page_id sp →
  (∀ l, (c ++ [true]) `prefix_of` l → (∃ d, (l ++ [d]) `prefix_of` T) → 2 ≤ length (under l kvs)) →
  slot sp T = nd kvs T.
Proof.
  intros [Hs Ho] HcT Hp HL. destruct T as [|b l _] using rev_ind.
  { apply prefix_nil_inv in HcT. by destruct c. }
  apply Ho; [done| |].
  - intros Hpre. assert (true = false); [|done]. eapply prefix_snoc_agree; [|done].
    by etrans; [exact HcT|].
  - apply prefix_snoc_cases in HcT as [E|HcT].
    + apply app_inj_2 in E as [-> _]; [|done]. left. by exists false.
    + right. apply HL; [done|]. by exists b.
Qed.

Lemma build_stack_right kvs fl c ps pos w T :
  at_inv kvs fl (c ++ [false]) w → 6 * fl ≤ length c → pos_ok pos → path pos = T →
  (c ++ [true]) `prefix_of` T → in_scope fl T (pw_parent_page w) →
  (∀ l, (c ++ [true]) `prefix_of` l → (∃ d, (l ++ [d]) `prefix_of` T) → 2 ≤ length (under l kvs)) →
  (∀ k, S (length c / 6) ≤ k → 6 * k < length T → ∃ page origin,
     page_set_get ps (page_lvl T k) = Some (page, origin) ∧ page_ready kvs T (page_lvl T k) page) →
  ∃ new, build_stack ps pos w = Some (set_stack (new ++ pw_stack w) (set_position pos w)) ∧
    at_inv kvs fl T (set_stack (new ++ pw_stack w) (set_position pos w)) ∧ Forall (loaded ps) new ∧
    (T = c ++ [true] → new = []).
Proof.
  intros (Hat & Hopen & Hslot) Hfl Hp HT HcT Hsc HL Hget. pose proof Hat as (_ & _ & Hids & Hs).
  pose proof (Nat.div_mod (length c) 6 ltac:(lia)) as Hdm.
  pose proof (Nat.mod_upper_bound (length c) 6 ltac:(lia)) as Hmb.
  assert (HTne : T ≠ []) by (intros ->; apply prefix_nil_inv in HcT; by destruct c).
  pose proof (level_bounds T HTne) as Hlv. pose proof (prefix_length _ _ HcT) as HlT. rewrite length_snoc in HlT.
  destruct (at_path_top fl (c ++ [false]) w Hat) as (top & rest & Hst & Hid & _); [rewrite length_snoc; lia|].
  rewrite (stack_ids_right fl c T) in Hids by done.
  destruct (build_stack_load ps pos w T fl (S (length c / 6)) T) as (new & Hbs & Hat' & Hnids & Hld); try done.
  { split; [|lia]. apply le_S, Nat.div_le_lower_bound; lia. }
  { by rewrite Hst. }
  { intros _. apply le_n_S, Nat.div_le_lower_bound; lia. }
  { intros k Hk HkT. destruct (Hget k Hk HkT) as (page & origin & ? & ? & _). by exists page, origin. }
  exists new. split; [done|]. rewrite Hst in Hopen, Hslot.
  assert (Hold : Forall (page_open kvs T) (top :: rest)).
  { apply list.Forall_forall. intros sp Hsp. rewrite list.Forall_forall in Hopen.
    eapply page_open_right; [by apply Hopen|done| |done]. intros E.
    apply elem_of_cons in Hsp as [->|Hsp]; [done|].
    by destruct (at_path_rest fl (c ++ [false]) w top rest sp Hat Hst Hsp); congruence. }
  assert (Hnew : Forall (λ sp, page_open kvs T sp ∧ (T ≠ [] → page_of T = sp_page_id sp → slot sp T = nd kvs T)) new).
  { apply list.Forall_forall. intros sp Hsp. rewrite list.Forall_forall in Hld.
    eapply page_ready_open; [by apply Hld|].
    assert (Hin : sp_page_id sp ∈ sp_page_id <$> new) by (by apply list_elem_of_fmap_2).
    rewrite Hnids, list_elem_of_In, <-in_rev, <-list_elem_of_In in Hin.
    apply list_elem_of_fmap in Hin as (k & -> & [Hk1 Hk2]%elem_of_seq).
    destruct (Hget k ltac:(lia) ltac:(lia)) as (page & origin & Hg & Hr). intros page' origin' Hg'. by simplify_eq. }
  split_and!; [|done|].
  - split; [done|]. cbn [pw_stack set_stack set_position]. rewrite Hst. split.
    + apply Forall_app. split; [|done]. eapply Forall_impl; [exact Hnew|]. by intros sp [??].
    + destruct Hat' as (_ & _ & Hids' & _). cbn [pw_stack set_stack set_position] in Hids'. rewrite Hst in Hids'.
      destruct (stack_ids_top fl T) as [ids Et]; [lia|]. rewrite Et in Hids'.
      destruct new as [|n new]; simpl in Hids' |- *; injection Hids' as Hidt _.
      * apply list.Forall_cons in Hopen as [Hot _]. by eapply top_slot_right.
      * apply list.Forall_cons in Hnew as [[_ Hn] _]. by apply Hn.
  - intros ->. rewrite level_snoc, Nat.sub_diag in Hnids. by apply fmap_nil_inv in Hnids.
Qed.

Lemma build_stack_empty kvs fl ps pos w T :
  pw_stack w = [] → pos_ok pos → path pos = T → 6 * fl < length T → in_scope fl T (pw_parent_page w) →
  (∀ k, fl ≤ k → 6 * k < length T → ∃ page origin,
     page_set_get ps (page_lvl T k) = Some (page, origin) ∧ page_ready kvs T (page_lvl T k) page) →
  ∃ new, build_stack ps pos w = Some (set_stack new (set_position pos w)) ∧
    at_inv kvs fl T (set_stack new (set_position pos w)) ∧ Forall (loaded ps) new.
Proof.
  intros Hst Hp HT Hl Hsc Hget.
  assert (HTne : T ≠ []) by (by intros ->; simpl in Hl; lia). pose proof (level_bounds T HTne) as Hlv.
  destruct (build_stack_load ps pos w T fl fl T) as (new & Hbs & Hat' & Hnids & Hld); try done.
  { lia. } { by rewrite Hst, Nat.sub_diag. }
  { intros k Hk HkT. destruct (Hget k Hk HkT) as (page & origin & ? & ? & _). by exists page, origin. }
  { by rewrite Hst. }
  rewrite Hst, app_nil_r in Hbs, Hat'. exists new. split_and!; [done| |done]. split; [done|].
  cbn [pw_stack set_stack set_position].
  assert (Hnew : Forall (λ sp, page_open kvs T sp ∧ (T ≠ [] → page_of T = sp_page_id sp → slot sp T = nd kvs T)) new).
  { apply list.Forall_forall. intros sp Hsp. rewrite list.Forall_forall in Hld.
    eapply page_ready_open; [by apply Hld|].
    assert (Hin : sp_page_id sp ∈ sp_page_id <$> new) by (by apply list_elem_of_fmap_2).
    rewrite Hnids, list_elem_of_In, <-in_rev, <-list_elem_of_In in Hin.
    apply list_elem_of_fmap in Hin as (k & -> & [Hk1 Hk2]%elem_of_seq).
    destruct (Hget k ltac:(lia) ltac:(lia)) as (page & origin & Hg & Hr). intros page' origin' Hg'. by simplify_eq. }
  split.
  - eapply Forall_impl; [exact Hnew|]. by intros sp [??].
  - destruct Hat' as (_ & _ & Hids' & _). cbn [pw_stack set_stack set_position] in Hids'.
    destruct (stack_ids_top fl T Hl) as [ids Et]. rewrite Et in Hids'.
    destruct new as [|n new]; [done|]. simpl in Hids'. injection Hids' as Hidt _.
    apply list.Forall_cons in Hnew as [[_ Hn] _]. by apply Hn.
Qed.

(** ** Writing at the position *)

Lemma at_inv_sub_ok_lower kvs fl P w sp top rest :
  at_path fl P w → pw_stack w = top :: rest → sp ∈ rest → P ≠ [] → sub_ok kvs P sp.
Proof.
  intros Hat Hst Hin HP l b Hl Hp _. exfalso.
  pose proof Hat as (_ & _ & Hids & _). destruct (decide (6 * fl < length P)) as [Hfl|Hfl].
  2: { rewrite stack_ids_floor in Hids by lia. by rewrite Hst in Hids. }
  destruct (at_path_top fl P w Hat Hfl) as (? & ? & E & Hid & _). rewrite Hst in E. injection E as <- <-.
  assert (Hsp : sp_page_id sp ∈ stack_ids fl P).
  { rewrite <-Hids, Hst. apply list_elem_of_fmap_2. by right. }
  apply stack_ids_levels in Hsp as (k & Hk & _ & HkP).
  pose proof (at_path_rest _ _ _ _ _ _ Hat Hst Hin) as Hne. rewrite Hk, Hid in Hne.
  rewrite Hk in Hp. apply page_lvl_inj_level in Hp. apply prefix_length in Hl.
  pose proof (level_bounds P HP). pose proof (level_bounds (l ++ [b]) ltac:(by destruct l)).
  destruct (decide (k = level P)) as [->|]; [by apply Hne|]. lia.
Qed.

(** The pages around [P] after the set was edited below [P] and the nodes there were
    replaced. *)
Lemma page_open_edited P kvs kvs' sp sp' :
  edited P kvs kvs' → page_open kvs P sp → kept P sp sp' → sub_ok kvs' P sp' → page_open kvs' P sp'.
Proof.
  intros [Hb He] [Hs Ho] (Hid & Hs' & Hk) Hok. split; [done|]. intros l b Hp Hn Hlive.
  destruct (decide (P `prefix_of` (l ++ [b]))) as [HPq|HPq].
  - apply Hok; [done..|]. right. destruct Hlive as [[c Hc%prefix_length]|?]; [|done].
    apply prefix_snoc_cases in HPq as [->|HPl]; [by destruct Hn|].
    apply prefix_length in HPl. rewrite length_snoc in Hc. lia.
  - rewrite Hid in Hp. rewrite Hk; [|by destruct l|done|done].
    assert (Hnd : nd kvs' (l ++ [b]) = nd kvs (l ++ [b])) by (unfold nd, sub; by rewrite He).
    rewrite Hnd. apply Ho; [done..|]. destruct Hlive as [?|Hlive]; [by left|].
    destruct (decide (l `prefix_of` P)) as [[s Hs2]|HlP].
    + destruct s as [|c s].
      * rewrite app_nil_r in Hs2. subst. destruct HPq. by apply prefix_app_r.
      * left. exists c. rewrite Hs2. apply prefix_app, prefix_cons, prefix_nil.
    + right. rewrite <-(He l); [done| |done].
      intros HPl. apply HPq. by apply prefix_app_r.
Qed.

Lemma is_internal_few kvs P : length (under P kvs) ≤ 1 → is_internal (nd kvs P) = false.
Proof.
  intros Hl. unfold is_internal, nd. rewrite node_kind_of.
  by destruct (sub_few kvs P Hl) as [->|[d ->]].
Qed.

(** The node at the position. *)
Lemma node_at_spec kvs fl P w :
  at_inv kvs fl P w → can_descend fl P → (P = [] → pw_root w = nd kvs []) →
  (if is_root (pw_position w) then Some (pw_root w) else walker_node w) = Some (nd kvs P).
Proof.
  intros (Hat & _ & Hslot) Hcd Hroot. pose proof Hat as (Hp & HX & _). rewrite is_root_path, HX by done.
  case_bool_decide as HP; [by rewrite HP, Hroot|].
  destruct Hcd as [[? _]|Hl]; [done|]. destruct (at_path_top fl P w Hat Hl) as (top & rest & Hst & _ & Hs & _).
  rewrite (walker_node_spec w top rest P) by done. by rewrite Hst in Hslot; rewrite Hslot.
Qed.

(** The result of replacing what is at [P]. *)
Definition replaced (kvs' : ops_t) (fl : nat) (P : list bool) (w w' : PageWalker) : Prop :=
  at_inv kvs' fl P w' ∧ same_frame w w' ∧
  (∃ new, pw_output_pages w' = pw_output_pages w ++ new ∧ Forall (built kvs' P) new) ∧
  match P with [] => pw_root w' = nd kvs' [] | _ => pw_root w' = pw_root w end.

Lemma sub_built_replaced kvs kvs' fl P w w' :
  edited P kvs kvs' → at_inv kvs fl P w → can_descend fl P → sub_built kvs' fl P w w' →
  replaced kvs' fl P w w'.
Proof.
  intros He (Hat & Hopen & _) Hcd (Hat' & Hfr & Hout & Hroot & Hg & _).
  assert (Hk : Forall2 (kept P) (pw_stack w) (pw_stack w')).
  { destruct Hg as (new & old & E & Hk).
    assert (new = []) as ->; [|by rewrite E].
    destruct Hat as (_ & _ & E1 & _), Hat' as (_ & _ & E2 & _). apply (f_equal length) in E1, E2.
    rewrite length_fmap in E1, E2. rewrite E, length_app in E2. apply Forall2_length in Hk.
    destruct new; simpl in *; [done|lia]. }
  assert (Htop : P ≠ [] → ∃ top rest, pw_stack w' = top :: rest ∧ sub_ok kvs' P top).
  { intros HP. destruct P; [done|]. by destruct Hroot. }
  split_and!; [|done|done|].
  - destruct (decide (P = [])) as [->|HP].
    { split; [done|]. destruct Hat' as (_ & _ & Hids & _). rewrite stack_ids_floor in Hids by (simpl; lia).
      apply fmap_nil_inv in Hids. by rewrite Hids. }
    destruct (Htop HP) as (top' & rest' & Hst' & Hok).
    split; [done|]. rewrite Hst' in Hk |- *. split.
    + apply Forall2_cons_inv_r in Hk as (top & rest & Hk1 & Hk2 & Hst). rewrite Hst in Hopen.
      apply list.Forall_cons in Hopen as [Ho1 Ho2]. constructor; [by eapply page_open_edited|].
      assert (Hlow : Forall (sub_ok kvs' P) rest').
      { apply list.Forall_forall. intros sp Hsp. by eapply at_inv_sub_ok_lower. }
      clear -He Hk2 Ho2 Hlow. induction Hk2 as [|sp sp' st st' Hk Hk2 IH]; [done|].
      apply list.Forall_cons in Ho2 as [??], Hlow as [??]. constructor; [by eapply page_open_edited|auto].
    + destruct P as [|b l _] using rev_ind; [done|]. destruct Hcd as [[? _]|Hl]; [done|].
      destruct (at_path_top fl (l ++ [b]) w' Hat' Hl) as (? & ? & E & Hid & _). rewrite Hst' in E.
      injection E as <- <-. apply Hok; auto.
  - destruct P; [done|]. by destruct Hroot.
Qed.

Lemma replace_terminal_spec kvs kvs' fl P ps w :
  (∀ id, page_sized (ps_page_pool ps id)) → edited P kvs kvs' →
  at_inv kvs fl P w → can_descend fl P → length P ≤ 256 → (P = [] → pw_root w = nd kvs []) →
  (pw_reconstruction w = false → length (under P kvs) ≤ 1) →
  (pw_reconstruction w = true → 2 ≤ fl ∧ length (under P kvs') < PAGE_ELISION_THRESHOLD) →
  ∃ w', replace_terminal ps (under P kvs') w = Some w' ∧ replaced kvs' fl P w w' ∧
    sub_built kvs' fl P (set_prev_node (Some (nd kvs P)) w) w'.
Proof.
  intros Hpool He Hinv Hcd HP Hroot Hfew Hrec. pose proof Hinv as (Hat & _). pose proof Hat as (Hp & HX & _).
  unfold replace_terminal. rewrite (node_at_spec kvs fl P w) by done. cbn [mbind option_bind].
  set (w1 := set_prev_node _ w).
  assert (Hass : pw_reconstruction w1 || negb (is_internal (nd kvs P)) = true).
  { cbn [pw_reconstruction w1 set_prev_node]. destruct (pw_reconstruction w); [done|].
    by rewrite is_internal_few by auto. }
  rewrite Hass. cbn [oassert mbind option_bind pw_position w1 set_prev_node].
  rewrite pos_depth_path, HX by done.
  destruct (build_trie_built kvs' (proj1 He) ps Hpool fl P w1 Hcd HP Hat Hrec) as (ws & w' & -> & Hw & Hb).
  cbn [mbind option_bind]. change (set_prev_node (Some (nd kvs P)) w) with w1. rewrite Hw. cbn [mbind option_bind].
  pose proof (sub_built_replaced kvs kvs' fl P w1 w' He Hinv Hcd Hb) as Hrep.
  destruct Hrep as ((Hat' & Ho' & Hs') & Hfr & Hout & Hr).
  pose proof Hat' as (Hp' & HX' & Hids' & _). rewrite is_root_path, HX' by done.
  exists w'. case_bool_decide as HPn.
  - rewrite HPn, stack_ids_floor in Hids' by (simpl; lia). apply fmap_nil_inv in Hids'.
    rewrite bool_decide_eq_true_2 by done. by split_and!.
  - destruct Hcd as [[? _]|Hl]; [done|].
    destruct (at_path_top fl P w' Hat' Hl) as (top & rest & Hst & Hid & _). unfold stack_top. rewrite Hst.
    cbn [head mbind option_bind]. rewrite page_id_path by (by rewrite ?HX'). cbn [mbind option_bind].
    rewrite HX', bool_decide_eq_true_2 by (by rewrite Hid). by split_and!.
Qed.

Lemma place_node_spec kvs kvs' fl P w :
  edited P kvs kvs' → at_inv kvs fl P w → 6 * fl < length P → length P mod 6 = 0 →
  ∃ w', place_node (nd kvs' P) w = Some w' ∧ replaced kvs' fl P w w'.
Proof.
  intros He Hinv Hl Hm. pose proof Hinv as (Hat & Hopen & Hslot). pose proof Hat as (Hp & HX & Hids & Hs).
  assert (HP : P ≠ []) by (intros ->; simpl in Hl; lia).
  destruct (at_path_top fl P w Hat Hl) as (top & rest & Hst & Hid & Hs1 & Hs2).
  unfold place_node. rewrite is_root_path, HX, bool_decide_eq_false_2 by done.
  rewrite (walker_node_spec w top rest P) by done. cbn [mbind option_bind].
  destruct P as [|b l _] using rev_ind; [done|].
  destruct (walker_set_node_spec (set_prev_node (Some (slot top (l ++ [b]))) w) top rest l b (nd kvs' (l ++ [b])))
    as (top' & -> & Hw); try done; [apply length_nd|].
  eexists. split; [done|]. pose proof Hw as (Hid' & _ & _ & _ & _ & Hs' & Hsl).
  rewrite Hst in Hopen. apply list.Forall_cons in Hopen as [Ho1 Ho2].
  split_and!; try done.
  - split_and!; cbn [pw_stack set_stack set_prev_node].
    + split_and!; try done; cbn [pw_stack set_stack set_prev_node]; [|by constructor].
      rewrite Hst, fmap_cons in Hids. by rewrite fmap_cons, Hid'.
    + constructor.
      * eapply page_open_edited; [done|exact Ho1|by eapply kept_wrote|]. by eapply sub_ok_bottom.
      * apply list.Forall_forall. intros sp Hsp. rewrite list.Forall_forall in Ho2, Hs2.
        eapply page_open_edited; [done|by apply Ho2|by apply kept_refl, Hs2|].
        by eapply at_inv_sub_ok_lower.
    + rewrite Hsl by done. by rewrite decide_True.
  - exists []. split; [by rewrite app_nil_r|constructor].
  - by destruct (l ++ [b]).
Qed.
End advance.
