(* ===== verification/PageWalk.v ===== *)
(** * Walks over the page tree

    A walk is a sequence of [advance], [advance_and_replace] and
    [advance_and_place_node] followed by [conclude].  It has the effect of editing the
    set of pairs at each of the positions: the pages it outputs hold the trie of
    the edited set, and so does the root, or, below a parent page, the nodes it hands
    to the parent. *)

From S2P Require Import Prelude Trie PageId Update TrieSpec TriePos PageDiff Wal BitboxSync PageWalker.
From S2P Require Import PagePaths PageLeaves PageWalkerCorrect PageBuild PageAdvance.

#[local] Open Scope nat_scope.

(** ** Operations *)

Inductive walk_op :=
| OpReplace (pos : TriePosition) (ops : ops_t)
| OpPlace (pos : TriePosition) (node : Node)
| OpAdvance (pos : TriePosition).

Definition op_pos (op : walk_op) : TriePosition :=
  match op with OpReplace pos _ | OpPlace pos _ | OpAdvance pos => pos end.

Section walk.
Context `{NodeHasherLaws, !NodeHasherSized}.

(** What is known of the positions of a walk. *)
Context (D : list bool → Prop).

Definition run_op (ps : PageSet) (op : walk_op) (w : PageWalker) : option PageWalker :=
  match op with
  | OpReplace pos ops => advance_and_replace ps pos ops w
  | OpPlace pos node => advance_and_place_node ps pos node w
  | OpAdvance pos => advance pos w
  end.

Fixpoint run_ops (ps : PageSet) (ops : list walk_op) (w : PageWalker) : option PageWalker :=
  match ops with
  | [] => Some w
  | op :: ops' => let? w := run_op ps op w in run_ops ps ops' w
  end.

(** What an operation does to the set of pairs, and what it needs of the original
    set [kvs0]. *)
Definition op_edit (kvs0 kvs : ops_t) (op : walk_op) (kvs' : ops_t) : Prop :=
  match op with
  | OpReplace pos ops =>
      length (under (path pos) kvs0) ≤ 1 ∧ edited (path pos) kvs kvs' ∧ ops = under (path pos) kvs'
  | OpPlace pos node =>
      path pos ≠ [] ∧ length (path pos) mod 6 = 0 ∧ edited (path pos) kvs kvs' ∧
      node = nd kvs' (path pos)
  | OpAdvance pos => kvs' = kvs
  end.

(** ** The invariant of a walk *)

Definition out_inv (kvs : ops_t) (fl : nat) (X : list bool) (o : PageWalkerPageOutput) : Prop :=
  page_holds kvs (out_id o) (out_page o) ∧
  ∃ r, length r mod 6 = 0 ∧ past X r ∧ out_id o = page_lvl r (length r / 6) ∧
    ∃ T, D T ∧ take (6 * fl) T `prefix_of` r.

Definition root_inv (kvs : ops_t) (fl : nat) (X : list bool) (r : TriePosition * Node) : Prop :=
  pos_ok r.1 ∧ length (path r.1) = 6 * fl ∧ r.2 = nd kvs (path r.1) ∧ past X (path r.1).

Definition root_paths (w : PageWalker) : list (list bool) := (λ r, path r.1) <$> pw_child_page_roots w.

(** A path at the floor is handed over, is on the way to the position, or is as it
    was. *)
Definition accounted (kvs0 kvs : ops_t) (fl : nat) (X : list bool) (w : PageWalker) : Prop :=
  ∀ q, length q = 6 * fl →
    q ∈ root_paths w ∨ (pw_stack w ≠ [] ∧ q `prefix_of` X) ∨ under q kvs = under q kvs0.

(** Nothing was edited yet. *)
Definition idle (kvs0 kvs : ops_t) (w : PageWalker) : Prop :=
  kvs = kvs0 ∧ pw_stack w = [] ∧ pw_output_pages w = [] ∧ pw_child_page_roots w = [] ∧
  pw_root w = nd kvs0 [].

Record active (kvs0 kvs : ops_t) (fl : nat) (X : list bool) (w : PageWalker) : Prop := {
  act_pos : pos_ok (pw_position w) ∧ path (pw_position w) = X;
  act_rest : ∀ q, later X q → under q kvs = under q kvs0;
  act_outs : Forall (out_inv kvs fl X) (pw_output_pages w);
  act_roots : Forall (root_inv kvs fl X) (pw_child_page_roots w);
  act_sorted : StronglySorted later (root_paths w);
  act_from : ∃ T, D T ∧ X `prefix_of` T;
  act_roots_from : Forall (λ r, ∃ T, D T ∧ path r.1 `prefix_of` T ∧ length (path r.1) < length T)
    (pw_child_page_roots w);
  act_accounted : pw_parent_page w ≠ None → accounted kvs0 kvs fl X w;
  act_stack :
    at_inv kvs fl X w ∧ 6 * fl < length X ≤ 256 ∨
    pw_stack w = [] ∧ length X = 6 * fl ∧ (pw_parent_page w = None → pw_root w = nd kvs []);
}.

Definition walk_inv (kvs0 kvs : ops_t) (fl : nat) (w : PageWalker) : Prop :=
  block [] kvs ∧ pw_reconstruction w = false ∧ (pw_parent_page w = None → fl = 0) ∧
  (idle kvs0 kvs w ∨
   ∃ X p, active kvs0 kvs fl X w ∧ pw_last_position w = Some p ∧ (path p = X ∨ later X (path p))).

(** ** Compacting *)

Lemma out_inv_take kvs fl X n o : out_inv kvs fl X o → out_inv kvs fl (take n X) o.
Proof.
  intros (Hh & r & Hm & Hp & Hid & HT). split; [done|]. exists r. split_and!; [done|by apply past_take|done..].
Qed.

Lemma built_out_inv kvs fl Y T o :
  D T → take (6 * fl) T `prefix_of` Y → built kvs Y o → out_inv kvs fl Y o.
Proof.
  intros HT HY (Hh & r & Hm & Hp & Hid). split; [done|]. exists r. split_and!; [done|by left|done|].
  exists T. split; [done|]. by etrans.
Qed.

Lemma root_before kvs fl X r : root_inv kvs fl X r → 6 * fl < length X → later (path r.1) (take (6 * fl) X).
Proof.
  intros (_ & Hl & _ & [Hp%prefix_length|(c & Hc & HX)]) HX'; [lia|]. exists c. split; [done|].
  apply prefix_length in Hc. rewrite length_snoc in Hc.
  destruct HX as [s ->]. rewrite take_app_ge by (rewrite length_snoc; lia). by apply prefix_app_r.
Qed.

(** Compacting up to [Y], the position or a prefix of it, keeps the invariant. *)
Lemma climbed_active kvs0 kvs fl X w w' n :
  active kvs0 kvs fl X w → 6 * fl < length X → 6 * fl ≤ n ≤ length X → (pw_parent_page w = None → fl = 0) →
  climbed kvs fl (take n X) w w' → active kvs0 kvs fl (take n X) w'.
Proof.
  intros [Hpos Hrest Houts Hroots Hsort Hfrom Hrfrom Hacc Hstk] HX Hn Hfl ((new & Ho & Hb) & L & P & R & Hcase).
  assert (Hl : length (take n X) = n) by (rewrite length_take; lia).
  assert (HYX : take n X `prefix_of` X) by (eexists; symmetry; apply take_drop).
  assert (Hroots' : Forall (root_inv kvs fl (take n X)) (pw_child_page_roots w)).
  { eapply Forall_impl; [exact Hroots|]. intros r (? & ? & ? & ?). split_and!; try done. by apply past_take. }
  assert (Houts' : Forall (out_inv kvs fl (take n X)) (pw_output_pages w')).
  { rewrite Ho. apply Forall_app. split.
    - eapply Forall_impl; [exact Houts|]. intros o. apply out_inv_take.
    - eapply Forall_impl; [exact Hb|]. intros o. destruct Hfrom as (T & HT & s & ->). apply (built_out_inv _ _ _ _ _ HT).
      rewrite take_app_le by lia. exists (take (n - 6 * fl) (drop (6 * fl) X)). by rewrite take_take_drop, Nat.add_sub_assoc, Nat.add_comm, Nat.add_sub by lia. }
  assert (Hrest' : ∀ q, later (take n X) q → under q kvs = under q kvs0).
  { intros q Hq. apply Hrest. by eapply later_extend. }
  assert (Hfrom' : ∃ T, D T ∧ take n X `prefix_of` T).
  { destruct Hfrom as (T & HT & HXT). exists T. split; [done|]. by etrans. }
  rewrite Hl in Hcase. destruct (decide (n = 6 * fl)) as [->|Hne].
  - destruct Hcase as (Hp & HpY & Hst & Hrt). destruct (pw_parent_page w) as [pp|] eqn:Epp.
    + destruct Hrt as [Hr1 Hr2].
      assert (Hrp : root_paths w' = root_paths w ++ [take (6 * fl) X]).
      { unfold root_paths. rewrite Hr2, fmap_app. cbn. by rewrite HpY. }
      constructor; try done.
      * rewrite Hr2. apply Forall_app. split; [done|]. constructor; [|constructor].
        split_and!; cbn; rewrite ?HpY; try done. by left.
      * rewrite Hrp. apply StronglySorted_snoc; [done|]. unfold root_paths. apply Forall_fmap.
        eapply Forall_impl; [exact Hroots|]. intros r Hr. by eapply root_before.
      * rewrite Hr2. apply Forall_app. split; [done|]. constructor; [|constructor]. cbn [fst].
        destruct Hfrom as (T & HT & HXT). exists T. rewrite HpY. split_and!; [done|by etrans|].
        apply prefix_length in HXT. lia.
      * intros _ q Hq. rewrite Hrp. destruct (Hacc ltac:(done) q Hq) as [?|[[_ Hp2]|?]].
        -- left. apply elem_of_app. by left.
        -- left. apply elem_of_app. right. apply list_elem_of_singleton.
           destruct Hp2 as [s ->]. by rewrite <-Hq, take_app_length.
        -- by right; right.
      * right. split_and!; [done..|]. by rewrite P.
    + destruct Hrt as [Hr1 Hr2]. rewrite Hfl in * by done.
      constructor; try done; rewrite ?Hr2; try done.
      * unfold root_paths. by rewrite Hr2.
      * right. split_and!; try done.
  - destruct Hcase as (Hinv & Hr1 & Hr2). constructor; try done; rewrite ?Hr2; try done.
    + destruct Hinv as ((? & ? & _) & _). done.
    + unfold root_paths. by rewrite Hr2.
    + rewrite P. intros Hpp q Hq. unfold root_paths. rewrite Hr2. destruct (Hacc Hpp q Hq) as [?|[[_ Hp2]|?]]; auto.
      right; left. destruct Hinv as (Hat & _). destruct (at_path_top fl _ w' Hat) as (top & rest & -> & _); [lia|].
      split; [done|]. destruct Hp2 as [s ->]. rewrite take_app_ge by lia. by apply prefix_app_r.
    + left. split; [done|]. destruct Hstk as [[_ ?]|(_ & ? & _)]; lia.
Qed.

(** ** Moving on *)

(** What a walk needs of the next position: it comes after the last one, it lies
    below the parent page, the trie has nodes on the path to it, and the pages on that
    path are in the page set. *)
Record goes_to (kvs0 : ops_t) (fl : nat) (ps : PageSet) (last : option TriePosition)
    (parent : option PageId) (pos : TriePosition) : Prop := {
  gt_pos : pos_ok pos;
  gt_last : match last with Some p => later (path p) (path pos) | None => True end;
  gt_scope : in_scope fl (path pos) parent;
  gt_dom : D (path pos);
  gt_live : ∀ l d, (l ++ [d]) `prefix_of` path pos → 2 ≤ length (under l kvs0);
  gt_pages : ∀ k, fl ≤ k → 6 * k < length (path pos) → ∃ page origin,
    page_set_get ps (page_lvl (path pos) k) = Some (page, origin) ∧
    page_holds kvs0 (page_lvl (path pos) k) page;
}.

Lemma walk_last_later kvs0 kvs fl w pos X p :
  active kvs0 kvs fl X w → pw_last_position w = Some p → path p = X ∨ later X (path p) →
  match pw_last_position w with Some p => later (path p) (path pos) | None => True end →
  later X (path pos).
Proof.
  intros _ -> [<-|Hl] Hp; [done|]. by eapply later_trans.
Qed.

(** Where the walk stands after compacting towards [T]. *)
Definition turned (kvs0 kvs : ops_t) (fl : nat) (T : list bool) (w : PageWalker) : Prop :=
  idle kvs0 kvs w ∨
  ∃ X, active kvs0 kvs fl X w ∧ later X T ∧
    (pw_stack w = [] ∨
     ∃ c, X = c ++ [false] ∧ (c ++ [true]) `prefix_of` T ∧ 6 * fl ≤ length c ∧ at_inv kvs fl X w).

Lemma compact_to_spec kvs0 kvs fl ps w pos :
  walk_inv kvs0 kvs fl w → goes_to kvs0 fl ps (pw_last_position w) (pw_parent_page w) pos →
  ∃ w1, compact_to pos w = Some w1 ∧ pw_reconstruction w1 = false ∧
    pw_parent_page w1 = pw_parent_page w ∧ turned kvs0 kvs fl (path pos) w1.
Proof.
  intros (Hb & Hrec & Hfl & Hst) [Hp Hlast Hsc Hdom Hlive Hpages]. unfold compact_to.
  destruct (pw_last_position w) as [p|] eqn:El.
  2: { exists w. split_and!; try done. destruct Hst as [?|(X & p & _ & E & _)]; [by left|done]. }
  rewrite (proj2 (bits_ltb_lt _ _)) by (by apply later_bits_lt). cbn [oassert mbind option_bind].
  destruct Hst as [Hidle|(X & p' & Hact & E & Hpl)].
  { exists w. unfold compact_up. destruct Hidle as (? & Hs & ?).
    rewrite bool_decide_eq_true_2 by done. split_and!; try done. by left. }
  injection E as <-.
  assert (HXT : later X (path pos)) by (eapply walk_last_later; [done|done|done|by rewrite El]).
  destruct (act_stack _ _ _ _ _ Hact) as [[Hinv HX]|(Hs & HX & _)].
  2: { exists w. unfold compact_up. rewrite bool_decide_eq_true_2 by done. split_and!; try done.
       right. exists X. by split_and!; [..|left]. }
  destruct (compact_up_later kvs fl X w pos Hb Hinv HX HXT) as (c & w1 & HcX & HcT & -> & Hcl).
  { by rewrite Hrec. }
  pose proof (prefix_length _ _ HcX) as HcXl. rewrite length_snoc in HcXl.
  pose proof (climbed_active kvs0 kvs fl X w w1 (S (length c) `max` (6 * fl)) Hact ltac:(lia) ltac:(lia) Hfl Hcl) as Hact1.
  exists w1. destruct Hcl as (_ & _ & Hpp & Hr1 & Hcase). split_and!; [done|congruence|done|].
  right. exists (take (S (length c) `max` (6 * fl)) X). destruct HcX as [s ->]. split; [done|].
  rewrite take_app_ge in * by (rewrite length_snoc; lia). split.
  { exists c. split; [by apply prefix_app_r|done]. }
  destruct (decide (S (length c) ≤ 6 * fl)) as [Hle|Hle].
  - left. rewrite decide_True in Hcase; [by destruct Hcase as (_ & _ & ? & _)|].
    rewrite length_app, length_snoc in HX. rewrite length_app, length_take, length_snoc. lia.
  - right. exists c. rewrite length_snoc in *.
    replace (S (length c) `max` (6 * fl) - S (length c)) with 0 in * by lia.
    rewrite take_0, app_nil_r in *. rewrite length_snoc, decide_False in Hcase by lia.
    split_and!; [done|done|lia|by destruct Hcase].
Qed.

Lemma page_ready_rest kvs0 kvs T k page :
  6 * k < length T → page_holds kvs0 (page_lvl T k) page →
  (∀ l, take (6 * k) T `prefix_of` l → under l kvs = under l kvs0) →
  (∀ l d, (l ++ [d]) `prefix_of` T → 2 ≤ length (under l kvs0)) →
  page_ready kvs T (page_lvl T k) page.
Proof.
  intros Hk [Hs Hh] Hrest Hlive. split; [done|]. intros l b Hp _ Hl.
  pose proof (page_of_region l b T k ltac:(lia) Hp) as Hr.
  assert (Hnd : nd kvs (l ++ [b]) = nd kvs0 (l ++ [b])).
  { unfold nd, sub. rewrite Hrest; [done|]. by apply prefix_app_r. }
  rewrite Hnd. apply Hh; [done|]. destruct Hl as [[c Hc]|Hl]; [by eapply Hlive|].
  by rewrite <-Hrest.
Qed.

Lemma take_prefix_later c T n : (c ++ [true]) `prefix_of` T → S (length c) ≤ n → (c ++ [true]) `prefix_of` take n T.
Proof. intros [s ->] Hn. rewrite take_app_ge by (rewrite length_snoc; lia). by apply prefix_app_r. Qed.

(** The stack for the next position is built, and the walk stands there. *)
Lemma build_stack_spec kvs0 kvs fl ps w pos :
  block [] kvs0 → turned kvs0 kvs fl (path pos) w →
  goes_to kvs0 fl ps None (pw_parent_page w) pos →
  ∃ w', build_stack ps pos w = Some w' ∧ at_inv kvs fl (path pos) w' ∧ can_descend fl (path pos) ∧
    same_frame w w' ∧ pw_root w' = pw_root w ∧ pw_output_pages w' = pw_output_pages w.
Proof.
  intros Hb0 Hturn [Hp _ Hsc _ Hlive Hpages]. set (T := path pos) in *.
  assert (Hcd : T ≠ [] → 6 * fl < length T).
  { intros HT. unfold in_scope in Hsc. destruct (pw_parent_page w); [by destruct Hsc|].
    subst fl. by destruct T; simpl in *; [|lia]. }
  destruct (decide (T = [])) as [HT|HT].
  { destruct Hturn as [(-> & Hs & _)|(X & _ & (c & _ & Hc) & _)].
    2: { rewrite HT in Hc. apply prefix_nil_inv in Hc. by destruct c. }
    assert (Hpp : pw_parent_page w = None ∧ fl = 0).
    { unfold in_scope in Hsc. destruct (pw_parent_page w); [|done]. rewrite HT in Hsc. simpl in Hsc. lia. }
    destruct Hpp as [Hpp ->]. rewrite build_stack_nil by done. eexists. split; [done|].
    rewrite HT. split_and!; try done. by left. }
  specialize (Hcd HT).
  assert (Hcdd : can_descend fl T) by (by right).
  destruct Hturn as [(-> & Hs & _)|(X & Hact & HXT & Hcase)].
  - destruct (build_stack_empty kvs0 fl ps pos w T) as (new & -> & Hinv & _); try done.
    { intros k Hk HkT. destruct (Hpages k Hk HkT) as (page & origin & Hg & Hh).
      exists page, origin. split; [done|]. by eapply page_ready_rest. }
    eexists. split; [done|]. by split_and!.
  - pose proof (act_rest _ _ _ _ _ Hact) as Hrest.
    assert (Hready : ∀ c k, (c ++ [false]) `prefix_of` X → (c ++ [true]) `prefix_of` T → S (length c) ≤ 6 * k →
      fl ≤ k → 6 * k < length T → ∃ page origin,
        page_set_get ps (page_lvl T k) = Some (page, origin) ∧ page_ready kvs T (page_lvl T k) page).
    { intros c k HcX HcT Hck Hk HkT. destruct (Hpages k Hk HkT) as (page & origin & Hg & Hh).
      exists page, origin. split; [done|]. eapply page_ready_rest; [done|done| |done].
      intros l Hl. apply Hrest. exists c. split; [done|]. etrans; [by apply take_prefix_later|done]. }
    destruct Hcase as [Hs|(c & -> & HcT & Hfl & Hinv)].
    + destruct (act_stack _ _ _ _ _ Hact) as [[(Hat & _) HX]|(_ & HX & _)].
      { destruct (at_path_top fl X w Hat ltac:(lia)) as (? & ? & E & _). by rewrite Hs in E. }
      destruct HXT as (c & HcX & HcT).
      pose proof (prefix_length _ _ HcX) as HcXl. rewrite length_snoc in HcXl.
      destruct (build_stack_empty kvs fl ps pos w T) as (new & -> & Hinv & _); try done.
      { intros k Hk HkT. eapply (Hready c k); try done. lia. }
      eexists. split; [done|]. by split_and!.
    + destruct (build_stack_right kvs fl c ps pos w T) as (new & -> & Hinv' & _); try done.
      { intros l Hl [d Hd]. rewrite Hrest; [by eapply Hlive|]. exists c. by split. }
      { intros k Hk HkT. pose proof (Nat.div_mod (length c) 6 ltac:(lia)).
        pose proof (Nat.mod_upper_bound (length c) 6 ltac:(lia)). apply (Hready c k); try done; lia. }
      eexists. split; [done|]. by split_and!.
Qed.

(** ** The operations *)

Lemma page_holds_edited P kvs kvs' r k page :
  edited P kvs kvs' → length r = 6 * k → later r P →
  page_holds kvs (page_lvl r k) page → page_holds kvs' (page_lvl r k) page.
Proof.
  intros He Hr Hl [Hs Hh]. split; [done|]. intros l b Hp Hlive.
  pose proof (page_of_region l b r k ltac:(lia) Hp) as Hpre. rewrite take_ge in Hpre by lia.
  assert (Hu : ∀ q, r `prefix_of` q → under q kvs' = under q kvs).
  { intros q Hq. eapply edited_later; [exact He|]. right. by eapply later_extend. }
  unfold nd, sub. rewrite Hu by (by apply prefix_app_r). apply Hh; [done|]. by rewrite <-Hu.
Qed.

Lemma out_inv_edited kvs kvs' fl X P o :
  edited P kvs kvs' → later X P → out_inv kvs fl X o → out_inv kvs' fl P o.
Proof.
  intros He HXP (Hh & r & Hm & Hp & Hid & HT). pose proof (Nat.div_mod (length r) 6 ltac:(lia)) as Hdm.
  pose proof (past_later _ _ _ HXP Hp) as Hl. split; rewrite Hid in *.
  - eapply page_holds_edited; [done| |done|done]. lia.
  - exists r. by split_and!; [..|right|done|].
Qed.

Lemma root_inv_edited kvs kvs' fl X P r :
  edited P kvs kvs' → later X P → root_inv kvs fl X r → root_inv kvs' fl P r.
Proof.
  intros He HXP (Hp & Hl & Hn & Hpast). pose proof (past_later _ _ _ HXP Hpast) as Hlat.
  split_and!; [done|done| |by right]. rewrite Hn. unfold nd, sub.
  rewrite (edited_later P kvs kvs') by (done || by right). done.
Qed.

Lemma accounted_edited kvs0 kvs kvs' fl T w w' :
  edited T kvs kvs' → 6 * fl < length T → pw_stack w' ≠ [] → root_paths w' = root_paths w →
  (∀ q, length q = 6 * fl → q ∈ root_paths w ∨ q `prefix_of` T ∨ under q kvs = under q kvs0) →
  accounted kvs0 kvs' fl T w'.
Proof.
  intros [_ He] Hl Hne Hrp Hacc q Hq. rewrite Hrp.
  destruct (Hacc q Hq) as [?|[?|Hu]]; [by left|by right; left|].
  destruct (decide (q `prefix_of` T)) as [?|Hn]; [by right; left|]. right; right.
  rewrite He; [done| |done]. intros HT%prefix_length. lia.
Qed.

Lemma replaced_active kvs0 kvs kvs' fl T w1 w2 w3 :
  turned kvs0 kvs fl T w1 → edited T kvs kvs' → same_frame w1 w2 → pw_output_pages w2 = pw_output_pages w1 →
  replaced kvs' fl T w2 w3 → can_descend fl T → length T ≤ 256 → in_scope fl T (pw_parent_page w1) →
  D T → active kvs0 kvs' fl T w3.
Proof.
  intros Hturn He (F1 & F2 & F3 & F4) HO (Hinv & (G1 & G2 & G3 & G4) & (new & Ho & Hb) & Hroot) Hcd Hl Hsc HD.
  pose proof Hinv as ((Hp & HpT & Hids & _) & _).
  assert (Hrp : root_paths w3 = root_paths w1) by (unfold root_paths; by rewrite G3, F3).
  constructor; [done|..].
  - intros q Hq. rewrite (edited_later T kvs kvs') by (done || by left).
    destruct Hturn as [(-> & _)|(X & Hact & HXT & _)]; [done|].
    apply (act_rest _ _ _ _ _ Hact). by eapply later_trans.
  - rewrite Ho, HO. apply Forall_app. split.
    + destruct Hturn as [(_ & _ & -> & _)|(X & Hact & HXT & _)]; [constructor|].
      eapply Forall_impl; [exact (act_outs _ _ _ _ _ Hact)|]. intros o. by apply out_inv_edited.
    + eapply Forall_impl; [exact Hb|]. intros o. apply (built_out_inv _ _ _ T); [done|].
      eexists. symmetry. apply take_drop.
  - rewrite G3, F3. destruct Hturn as [(_ & _ & _ & -> & _)|(X & Hact & HXT & _)]; [constructor|].
    eapply Forall_impl; [exact (act_roots _ _ _ _ _ Hact)|]. intros r. by apply root_inv_edited.
  - rewrite Hrp. destruct Hturn as [(_ & _ & _ & E & _)|(X & Hact & _)]; [unfold root_paths; rewrite E; constructor|].
    exact (act_sorted _ _ _ _ _ Hact).
  - by exists T.
  - rewrite G3, F3. destruct Hturn as [(_ & _ & _ & -> & _)|(X & Hact & _)]; [constructor|].
    exact (act_roots_from _ _ _ _ _ Hact).
  - rewrite G2, F2. intros Hpp.
    assert (HlT : 6 * fl < length T).
    { unfold in_scope in Hsc. destruct (pw_parent_page w1); [by destruct Hsc|done]. }
    destruct (at_path_top fl T w3 (proj1 Hinv) HlT) as (top & rest & Hst & _).
    eapply accounted_edited; [done|done|by rewrite Hst|exact Hrp|].
    intros q Hq. destruct Hturn as [(-> & _)|(X & Hact & HXT & Hc)]; [by right; right|].
    destruct (act_accounted _ _ _ _ _ Hact Hpp q Hq) as [?|[[Hs Hpre]|?]]; [by left| |by right; right].
    destruct Hc as [?|(c & -> & HcT & Hfc & _)]; [done|]. right; left.
    etrans; [|by eapply prefix_snoc_l]. apply prefix_snoc_cases in Hpre as [E|?]; [|done].
    apply (f_equal length) in E. rewrite length_snoc in E. lia.
  - destruct Hcd as [[-> ->]|HlT]; [right|left; split; [done|lia]].
    rewrite stack_ids_floor in Hids by (simpl; lia). apply fmap_nil_inv in Hids. by split_and!.
Qed.

Lemma turned_under kvs0 kvs fl T w : turned kvs0 kvs fl T w → under T kvs = under T kvs0.
Proof. intros [(-> & _)|(X & Hact & HXT & _)]; [done|]. by apply (act_rest _ _ _ _ _ Hact). Qed.

Lemma turned_root kvs0 kvs fl w : turned kvs0 kvs fl [] w → pw_root w = nd kvs [].
Proof.
  intros [(-> & _ & _ & _ & ?)|(X & _ & (c & _ & Hc) & _)]; [done|].
  apply prefix_nil_inv in Hc. by destruct c.
Qed.

Lemma turned_last kvs0 kvs fl T w p : turned kvs0 kvs fl T w → turned kvs0 kvs fl T (set_last_position p w).
Proof.
  intros [?|(X & [H1' H2' H3' H4' H5' H6' H7' H8' H9'] & HXT & Hc)]; [by left|right]. exists X. by split_and!.
Qed.

Lemma goes_to_nolast kvs0 fl ps last parent pos :
  goes_to kvs0 fl ps last parent pos → goes_to kvs0 fl ps None parent pos.
Proof. by intros []. Qed.

Lemma pos_path_bound pos : pos_ok pos → length (path pos) ≤ 256.
Proof. intros Hp. rewrite <-pos_depth_path by done. by destruct Hp as (_ & ? & _). Qed.

(** What one operation does. *)
Definition op_done (kvs0 kvs' : ops_t) (fl : nat) (op : walk_op) (w w' : PageWalker) : Prop :=
  walk_inv kvs0 kvs' fl w' ∧ pw_last_position w' = Some (op_pos op) ∧
  pw_parent_page w' = pw_parent_page w.

Lemma replaced_done kvs0 kvs kvs' fl op w w1 w2 w3 :
  block [] kvs' → pw_parent_page w1 = pw_parent_page w → pw_reconstruction w1 = false →
  (pw_parent_page w = None → fl = 0) → pos_ok (op_pos op) →
  turned kvs0 kvs fl (path (op_pos op)) w1 → edited (path (op_pos op)) kvs kvs' →
  same_frame (set_last_position (op_pos op) w1) w2 → pw_output_pages w2 = pw_output_pages w1 →
  replaced kvs' fl (path (op_pos op)) w2 w3 → can_descend fl (path (op_pos op)) →
  in_scope fl (path (op_pos op)) (pw_parent_page w) → D (path (op_pos op)) → op_done kvs0 kvs' fl op w w3.
Proof.
  intros Hb Hpp Hrec Hfl Hp Hturn He Hfr Ho Hrep Hcd Hsc HD.
  pose proof (replaced_active kvs0 kvs kvs' fl _ (set_last_position (op_pos op) w1) w2 w3
    (turned_last _ _ _ _ _ _ Hturn) He Hfr Ho Hrep Hcd (pos_path_bound _ Hp)) as Hact.
  cbn [pw_parent_page set_last_position] in Hact. rewrite Hpp in Hact. specialize (Hact Hsc HD).
  destruct Hfr as (F1 & F2 & _ & F4), Hrep as (_ & (G1 & G2 & _ & G4) & _).
  cbn [pw_last_position pw_parent_page pw_reconstruction set_last_position] in *.
  split_and!; [|congruence..]. split_and!; [done|congruence|by rewrite G2, F2, Hpp|].
  right. exists (path (op_pos op)), (op_pos op). split_and!; [done|congruence|by left].
Qed.

Lemma run_op_spec kvs0 kvs kvs' fl ps op w :
  (∀ id, page_sized (ps_page_pool ps id)) → block [] kvs0 → walk_inv kvs0 kvs fl w →
  goes_to kvs0 fl ps (pw_last_position w) (pw_parent_page w) (op_pos op) → op_edit kvs0 kvs op kvs' →
  ∃ w', run_op ps op w = Some w' ∧ op_done kvs0 kvs' fl op w w'.
Proof.
  intros Hpool Hb0 Hinv Hgo He. pose proof Hinv as (Hb & _ & Hfl & _).
  destruct (compact_to_spec kvs0 kvs fl ps w (op_pos op) Hinv Hgo) as (w1 & Hct & Hrec & Hpp & Hturn).
  pose proof Hgo as [Hp _ Hsc HD _ _].
  assert (Hbs : ∃ w2, build_stack ps (op_pos op) (set_last_position (op_pos op) w1) = Some w2 ∧
    at_inv kvs fl (path (op_pos op)) w2 ∧ can_descend fl (path (op_pos op)) ∧
    same_frame (set_last_position (op_pos op) w1) w2 ∧ pw_root w2 = pw_root w1 ∧
    pw_output_pages w2 = pw_output_pages w1).
  { refine (build_stack_spec kvs0 kvs fl ps (set_last_position (op_pos op) w1) (op_pos op) Hb0 _ _).
    - by apply turned_last.
    - cbn [pw_parent_page set_last_position]. rewrite Hpp. by eapply goes_to_nolast. }
  destruct op as [pos ops|pos node|pos]; cbn [op_pos] in *; cbn [run_op].
  - destruct He as (Hfew & He & ->). destruct Hbs as (w2 & Hbs & Hinv2 & Hcd & Hfr & Hr2 & Ho2).
    unfold advance_and_replace. rewrite Hct. cbn [mbind option_bind]. rewrite Hbs. cbn [mbind option_bind].
    assert (Hrec2 : pw_reconstruction w2 = false) by (destruct Hfr as (_ & _ & _ & ->); done).
    destruct (replace_terminal_spec kvs kvs' fl (path pos) ps w2 Hpool He Hinv2 Hcd) as (w3 & -> & Hrep & _).
    { by apply pos_path_bound. }
    { intros E. rewrite Hr2. rewrite E in Hturn. by eapply turned_root. }
    { intros _. by rewrite (turned_under _ _ _ _ _ Hturn). }
    { by rewrite Hrec2. }
    exists w3. split; [done|]. eapply (replaced_done kvs0 kvs kvs' fl (OpReplace pos (under (path pos) kvs'))); try done.
    by destruct He.
  - destruct He as (Hne & Hm & He & ->). destruct Hbs as (w2 & Hbs & Hinv2 & Hcd & Hfr & Hr2 & Ho2).
    unfold advance_and_place_node. rewrite Hct. cbn [mbind option_bind]. rewrite Hbs. cbn [mbind option_bind].
    assert (Hl : 6 * fl < length (path pos)) by (by destruct Hcd as [[? _]|?]).
    destruct (place_node_spec kvs kvs' fl (path pos) w2 He Hinv2 Hl Hm) as (w3 & -> & Hrep).
    exists w3. split; [done|]. eapply (replaced_done kvs0 kvs kvs' fl (OpPlace pos (nd kvs' (path pos)))); try done.
    by destruct He.
  - simpl in He. subst kvs'. unfold advance. rewrite Hct. cbn [mbind option_bind].
    assert (Hpid : ∃ o, page_id pos = Some o ∧ assert_page_in_scope o w1 = Some ()).
    { destruct (decide (path pos = [])) as [E|E].
      - exists None. unfold page_id. rewrite is_root_path, E, bool_decide_eq_true_2 by done. split; [done|].
        simpl. unfold in_scope in Hsc. rewrite Hpp. destruct (pw_parent_page w); [|done].
        rewrite E in Hsc. simpl in Hsc. lia.
      - exists (Some (page_of (path pos))). rewrite page_id_path by done. split; [done|].
        eapply in_scope_ok; [done|]. by rewrite Hpp. }
    destruct Hpid as (o & -> & Ha). cbn [mbind option_bind]. rewrite Ha. cbn [mbind option_bind].
    eexists. split; [done|]. split_and!; try done. split_and!; try done; [by cbn; rewrite Hpp|].
    apply (turned_last _ _ _ _ _ pos) in Hturn. destruct Hturn as [?|(X & Hact & HXT & _)]; [by left|right].
    exists X, pos. split_and!; [done|done|by right].
Qed.
End walk.
