(* ===== verification/PageDiffs.v ===== *)
(** * The diffs of the page walker

    The walker marks in the diff of a page the slots it writes.  A slot in which an
    output page differs from the page the walk started from is marked, with one
    exception: a node of the first layer that was replaced by a terminator next to a
    terminator marks the page as cleared instead, and a later write to the page
    takes that mark back. *)

From S2P Require Import Prelude Trie PageId Update TriePos PageDiff Wal BitboxSync PageWalker PagePaths.
From S2P Require Import PageLeaves PageWalkerCorrect PageBuild PageAdvance PageWalk.

#[local] Open Scope nat_scope.

Lemma set_node_inv page i n page' :
  page_sized page → set_node page i n = Some page' →
  i < NODES_PER_PAGE ∧ page_sized page' ∧
  ∀ j, j < NODES_PER_PAGE → page_slot page' j = if decide (j = i) then n else page_slot page j.
Proof.
  intros Hp Hs. unfold set_node in Hs. destruct (Nat.ltb_spec i NODES_PER_PAGE) as [Hi|Hi]; [|done].
  cbn [oassert mbind option_bind] in Hs. pose proof Hs as (_ & _ & Hl & _)%copy_from_slice_inv.
  destruct (set_node_spec page i n) as (r & Hr & Hrs & Hslot & _); [done|done|lia|].
  unfold set_node in Hr. rewrite (proj2 (Nat.ltb_lt _ _) Hi) in Hr. cbn [oassert mbind option_bind] in Hr.
  rewrite Hs in Hr. injection Hr as ->. done.
Qed.

Lemma set_changed_inv d i d' :
  set_changed d i = Some d' →
  i < NODES_PER_PAGE ∧ ∀ j, j < NODES_PER_PAGE → slot_bit d' j = (j =? i) || slot_bit d j.
Proof.
  intros Hs. assert (Hi : i < NODES_PER_PAGE).
  { unfold set_changed in Hs. by destruct (Nat.ltb_spec i NODES_PER_PAGE). }
  split; [done|]. destruct (set_changed_spec d i Hi) as (d2 & E & Hb). rewrite Hs in E. injection E as <-.
  intros j Hj. change NODES_PER_PAGE with 126 in Hj. rewrite Hb by lia.
  by rewrite (proj2 (Nat.eqb_neq j 127)) by lia.
Qed.

Lemma slot_bit_join d e j : slot_bit (diff_join d e) j = slot_bit d j || slot_bit e j.
Proof. unfold slot_bit, diff_join. cbn. case_match; by rewrite Z.lor_spec. Qed.

Lemma slot_bit_cleared d j : j < NODES_PER_PAGE → slot_bit (set_cleared d) j = slot_bit d j.
Proof.
  intros Hj. change NODES_PER_PAGE with 126 in Hj. unfold slot_bit, set_cleared. cbn [word0 word1].
  case_match; [done|]. rewrite Z.lor_spec. unfold CLEAR_BIT. rewrite Z.shiftl_1_l, Z.pow2_bits_eqb by lia.
  match goal with Hb : (j <? 64) = false |- _ => apply Nat.ltb_ge in Hb end.
  by rewrite (proj2 (Z.eqb_neq _ _)), orb_false_r by lia.
Qed.

Lemma first_layer_slot p : is_first_layer_in_page p = true → node_index p < 2.
Proof. unfold is_first_layer_in_page. intros E%Z.eqb_eq. by apply first_layer_index. Qed.

(** ** Tracked pages *)

(** The contents a page of the walk starts from. *)
Definition origin_page (ps : PageSet) (id : PageId) (base : list u8) : Prop :=
  (∃ o, page_set_get ps id = Some (base, o)) ∨ page_set_fresh ps id = Some base.

(** The diff [d] marks every slot in which the page differs from [base], except that it may
    miss a slot of the first layer, 0 or 1, whose new node is a terminator.  The exception
    is needed: [cleared_slot_lost] is a walk that loses such a slot. *)
Definition covers (page base : list u8) (d : PageDiff) : Prop :=
  ∀ i, i < NODES_PER_PAGE → page_slot page i ≠ page_slot base i →
    slot_bit d i = true ∨ (i < 2 ∧ page_slot page i = TERMINATOR).

Definition tracked (ps : PageSet) (id : PageId) (page : list u8) (d : PageDiff) : Prop :=
  ∃ base, origin_page ps id base ∧ covers page base d.

Definition sp_tracked (ps : PageSet) (sp : StackPage) : Prop :=
  page_sized (sp_page sp) ∧ tracked ps (sp_page_id sp) (sp_page sp) (sp_diff sp).

Definition out_tracked (ps : PageSet) (o : PageWalkerPageOutput) : Prop :=
  ∃ u, o = OutUpdated u ∧ tracked ps (up_page_id u) (up_page u) (up_diff u).

Definition walk_tracked (ps : PageSet) (w : PageWalker) : Prop :=
  pw_reconstruction w = false ∧ Forall (sp_tracked ps) (pw_stack w) ∧
  Forall (out_tracked ps) (pw_output_pages w).

Lemma tracked_mono ps id page d d' :
  (∀ i, i < NODES_PER_PAGE → slot_bit d i = true → slot_bit d' i = true) →
  tracked ps id page d → tracked ps id page d'.
Proof.
  intros Hd (base & Ho & Hc). exists base. split; [done|]. intros i Hi Hne.
  destruct (Hc i Hi Hne) as [Hb|Ht]; [left; by apply Hd|by right].
Qed.

Lemma tracked_ext ps id page page' d :
  (∀ i, i < NODES_PER_PAGE → page_slot page' i = page_slot page i) →
  tracked ps id page d → tracked ps id page' d.
Proof.
  intros Hp (base & Ho & Hc). exists base. split; [done|]. intros i Hi. rewrite Hp by done. by apply Hc.
Qed.

Lemma tracked_total ps sp :
  sp_tracked ps sp → tracked ps (sp_page_id sp) (sp_page sp) (total_diff sp).
Proof.
  intros [_ Ht]. unfold total_diff. destruct (sp_reconstruction_diff sp) as [rd|]; [|done].
  revert Ht. apply tracked_mono. intros i _ Hi. rewrite slot_bit_join, Hi. apply orb_true_r.
Qed.

Lemma sp_tracked_write ps sp i n page d :
  sp_tracked ps sp → set_node (sp_page sp) i n = Some page →
  (∀ j, j < NODES_PER_PAGE → slot_bit (sp_diff sp) j = true → slot_bit d j = true) →
  slot_bit d i = true ∨ (i < 2 ∧ n = TERMINATOR) →
  sp_tracked ps (sp_set_diff d (sp_set_page page sp)).
Proof.
  intros [Hsz (base & Ho & Hc)] (Hi & Hsz' & Hslot)%set_node_inv Hd Hn; [|done].
  split; [done|]. exists base. split; [done|]. intros j Hj. cbn [sp_page sp_set_page sp_set_diff sp_diff].
  rewrite Hslot by done. destruct (decide (j = i)) as [->|Hji]; [by intros _|].
  intros Hne. destruct (Hc j Hj Hne); [left; by apply Hd|by right].
Qed.

Lemma walk_tracked_same ps w w' :
  pw_reconstruction w' = pw_reconstruction w → pw_stack w' = pw_stack w →
  pw_output_pages w' = pw_output_pages w → walk_tracked ps w → walk_tracked ps w'.
Proof. unfold walk_tracked. by intros -> -> ->. Qed.

Lemma walk_tracked_push ps sp w :
  sp_tracked ps sp → walk_tracked ps w → walk_tracked ps (push_updated sp w).
Proof.
  intros Hsp (Hr & Hs & Ho). split_and!; [done|done|]. cbn. apply Forall_app. split; [done|].
  constructor; [|done]. eexists. split; [done|]. cbn. by apply tracked_total.
Qed.

Lemma update_top_tracked ps f w w' :
  (∀ sp sp', f sp = Some sp' → sp_tracked ps sp → sp_tracked ps sp') →
  update_top f w = Some w' → walk_tracked ps w → walk_tracked ps w'.
Proof.
  intros Hf Hu (Hr & Hs & Ho). unfold update_top in Hu. destruct (pw_stack w) as [|sp st]; [done|].
  destruct (f sp) as [sp'|] eqn:E; [|done]. cbn in Hu. injection Hu as <-.
  apply Forall_cons in Hs as [Hsp Hs]. split_and!; [done| |done]. cbn. constructor; [by eapply Hf|done].
Qed.

Section diffs.
Context `{NodeHasher}.
Context (ps : PageSet).
Context (Hget : ∀ id page o, page_set_get ps id = Some (page, o) → page_sized page).
Context (Hpool : ∀ id, page_sized (ps_page_pool ps id)).

Abbreviation ok := (walk_tracked ps).

(** Splits a hypothesis that a run succeeded along its binds and conditionals. *)
Ltac run :=
  repeat match goal with
  | Hr : (_ ≫= _) = Some _ |- _ =>
      let r := fresh "r" in let E := fresh "Er" in apply bind_Some in Hr as (r & E & Hr)
  | Hr : Some _ = Some _ |- _ => injection Hr as Hr; subst
  | Hr : None = Some _ |- _ => discriminate Hr
  | Hr : (if ?b then _ else _) = Some _ |- _ => destruct b eqn:?
  | Hr : (match ?x with _ => _ end) = Some _ |- _ => destruct x eqn:?
  end.

Lemma walker_set_node_tracked n w w' : walker_set_node n w = Some w' → ok w → ok w'.
Proof.
  unfold walker_set_node. intros Hr. destruct (sibling_node w) as [sib|]; [cbn [mbind option_bind] in Hr|done].
  revert Hr. apply update_top_tracked. intros sp sp' Hf Hsp.
  destruct (set_node _ _ _) as [page|] eqn:Es; [cbn [mbind option_bind] in Hf|done].
  destruct (_ && _) eqn:Eb.
  - injection Hf as <-. eapply sp_tracked_write; [done..| |].
    + intros j Hj Hb. by rewrite slot_bit_cleared.
    + right. apply andb_true_iff in Eb as [[E1 E2]%andb_true_iff _]. apply bool_decide_eq_true in E2.
      split; [by apply first_layer_slot|done].
  - destruct (set_changed _ _) as [d|] eqn:Ed; [cbn [mbind option_bind] in Hf|done].
    injection Hf as <-. destruct (set_changed_inv _ _ _ Ed) as [Hi Hb]. eapply sp_tracked_write; [done..| |].
    + intros j Hj Hbj. rewrite Hb by done. cbn in Hbj |- *. rewrite Hbj. apply orb_true_r.
    + left. rewrite Hb by done. by rewrite Nat.eqb_refl.
Qed.

Lemma set_sibling_tracked n w w' : set_sibling n w = Some w' → ok w → ok w'.
Proof.
  unfold set_sibling. apply update_top_tracked. intros sp sp' Hf Hsp. run.
  edestruct set_changed_inv as [Hi Hb]; [done|]. eapply sp_tracked_write; [done..| |].
  - intros j Hj Hbj. rewrite Hb by done. cbn in Hbj |- *. rewrite Hbj. apply orb_true_r.
  - left. rewrite Hb by done. by rewrite Nat.eqb_refl.
Qed.

Lemma push_page_tracked sp w w' : push_page sp w = Some w' → sp_tracked ps sp → ok w → ok w'.
Proof.
  unfold push_page. intros Hr Hsp Hw. rewrite (proj1 Hw) in Hr. injection Hr as <-.
  by apply walk_tracked_push.
Qed.

Lemma sp_cleared_tracked sp : sp_tracked ps sp → sp_tracked ps (sp_set_diff (set_cleared (sp_diff sp)) sp).
Proof.
  intros [Hs Ht]. split; [done|]. revert Ht. apply tracked_mono. intros i Hi Hb. cbn.
  by rewrite slot_bit_cleared.
Qed.

Lemma elide_page_tracked leaves sp w w' :
  elide_page leaves sp w = Some w' → sp_tracked ps sp → ok w → ok w'.
Proof.
  unfold elide_page. intros Hr Hsp Hw. run.
  all: match goal with Hu : update_top _ _ = Some ?x |- _ =>
         assert (Hw1 : ok x) by (eapply update_top_tracked; [|done|done]; by intros ?? [= <-]) end.
  - pose proof (proj1 Hw1). congruence.
  - apply walk_tracked_push; [by apply sp_cleared_tracked|done].
  - done.
Qed.

Lemma keep_page_tracked sp w w' : keep_page sp w = Some w' → sp_tracked ps sp → ok w → ok w'.
Proof.
  unfold keep_page. intros Hr Hsp Hw. run. eapply push_page_tracked; [done..|].
  eapply update_top_tracked; [|done|done]. by intros ?? [= <-].
Qed.

Lemma elided_children_tracked sp page :
  set_elided_children (sp_page sp) (sp_elided_children sp) = Some page →
  sp_tracked ps sp → sp_tracked ps (sp_set_page page sp).
Proof.
  intros Hs [Hsz Ht]. destruct (set_elided_children_spec (sp_page sp) (sp_elided_children sp) Hsz) as (r & Hr & Hrs & Hslot).
  rewrite Hs in Hr. injection Hr as <-. split; [done|]. cbn. revert Ht. by apply tracked_ext.
Qed.

Lemma set_stack_tracked st w : Forall (sp_tracked ps) st → ok w → ok (set_stack st w).
Proof. intros Hst (Hr & _ & Ho). done. Qed.

Lemma handle_tracked w w' : handle_elision_threshold w = Some w' → ok w → ok w'.
Proof.
  unfold handle_elision_threshold. intros Hr Hw. destruct (pw_stack w) as [|sp st] eqn:Est; [by run|].
  pose proof Hw as (_ & Hst & _). rewrite Est in Hst. apply Forall_cons in Hst as [Hsp Hst].
  apply bind_Some in Hr as (sp' & Hsp' & Hr).
  assert (Ht : sp_tracked ps sp') by (clear Hr; run; [done|by apply elided_children_tracked]).
  pose proof (set_stack_tracked st w Hst Hw). clear Hsp'. run.
  all: eauto using push_page_tracked, elide_page_tracked, keep_page_tracked.
Qed.

Lemma set_position_tracked p w : ok w → ok (set_position p w).
Proof. by apply walk_tracked_same. Qed.

Lemma walker_up_tracked w w' : walker_up w = Some w' → ok w → ok w'.
Proof.
  unfold walker_up. intros Hr Hw. run; apply set_position_tracked; [by eapply handle_tracked|done].
Qed.

Lemma tracked_origin id page :
  origin_page ps id page → tracked ps id page default_diff.
Proof. intros Ho. exists page. split; [done|]. intros i _ []. done. Qed.

Lemma origin_sized id page : origin_page ps id page → page_sized page.
Proof.
  intros [[o Hg]|Hf]; [by eapply Hget|]. destruct (page_set_fresh_spec ps id (Hpool id)) as (r & Hr & Hs).
  congruence.
Qed.

Lemma new_tracked id page o sp :
  origin_page ps id page → StackPage_new id page default_diff o = Some sp → sp_tracked ps sp.
Proof.
  intros Ho Hn. unfold StackPage_new in Hn. run. split; [by eapply origin_sized|by apply tracked_origin].
Qed.

Lemma enter_page_tracked id fresh w w' : enter_page ps id fresh w = Some w' → ok w → ok w'.
Proof.
  unfold enter_page, push_stack_page. intros Hr Hw. run.
  all: apply set_stack_tracked; [|done]; (constructor; [|apply Hw]); (eapply new_tracked; [|done]).
  - by right.
  - left. by eexists.
Qed.

Lemma down_one_tracked fresh bit w w' : down_one ps fresh bit w = Some w' → ok w → ok w'.
Proof.
  unfold down_one. intros Hr Hw. run; apply set_position_tracked; eauto using enter_page_tracked.
Qed.

Lemma walker_down_tracked bits fresh w w' : walker_down ps bits fresh w = Some w' → ok w → ok w'.
Proof.
  revert w. induction bits as [|b bits IH]; intros w Hr Hw; cbn in Hr; run; [done|].
  eauto using down_one_tracked.
Qed.

Lemma place_node_tracked n w w' : place_node n w = Some w' → ok w → ok w'.
Proof.
  unfold place_node. intros Hr Hw. run; [by revert Hw; apply walk_tracked_same|].
  eapply walker_set_node_tracked; [done|]. by revert Hw; apply walk_tracked_same.
Qed.

Lemma zero_sibling_tracked c w w' : zero_sibling c w = Some w' → ok w → ok w'.
Proof. unfold zero_sibling. intros Hr Hw. run; eauto using set_sibling_tracked. Qed.

Lemma move_up_tracked u d w r : move_up u d w = Some r → ok w → ok r.1.
Proof.
  unfold move_up. intros Hr Hw. run; cbn; eauto using walker_up_tracked, set_position_tracked.
Qed.

Lemma move_down_tracked sd d w w' : move_down ps sd d w = Some w' → ok w → ok w'.
Proof. unfold move_down. intros Hr Hw. run; eauto using walker_down_tracked. Qed.

Lemma write_control_tracked sd c w w' : write_control ps sd c w = Some w' → ok w → ok w'.
Proof.
  unfold write_control. intros Hr Hw.
  apply bind_Some in Hr as (w1 & H1%zero_sibling_tracked & Hr); [|done].
  apply bind_Some in Hr as ([w2 d] & H2%move_up_tracked & Hr); [|done].
  apply bind_Some in Hr as (w3 & H3%move_down_tracked & Hr); [|done]. run.
  - by revert H3; apply walk_tracked_same.
  - by eapply walker_set_node_tracked.
Qed.

Lemma write_controls_tracked sd cs w w' : write_controls ps sd cs w = Some w' → ok w → ok w'.
Proof.
  revert w. induction cs as [|c cs IH]; intros w Hr Hw; cbn in Hr; [by run|].
  apply bind_Some in Hr as (w1 & H1%write_control_tracked & Hr); [|done]. eauto.
Qed.

Lemma replace_terminal_tracked ops w w' : replace_terminal ps ops w = Some w' → ok w → ok w'.
Proof.
  unfold replace_terminal. intros Hr Hw. apply bind_Some in Hr as (n & _ & Hr).
  apply bind_Some in Hr as (_ & _ & Hr). apply bind_Some in Hr as ([n' cs] & _ & Hr).
  apply bind_Some in Hr as (w1 & H1%write_controls_tracked & Hr); [|by revert Hw; apply walk_tracked_same].
  apply bind_Some in Hr as (_ & _ & Hr). by run.
Qed.

Lemma compact_step_tracked w r : compact_step w = Some r → ok w → ok r.1.
Proof.
  unfold compact_step. intros Hr Hw. run; cbn; eauto using walker_set_node_tracked, set_position_tracked.
Qed.

Lemma compact_loop_tracked n w w' : compact_loop n w = Some w' → ok w → ok w'.
Proof.
  revert w. induction n as [|n IH]; intros w Hr Hw; cbn [compact_loop] in Hr; [by run|].
  apply bind_Some in Hr as ([w1 nx] & H1%compact_step_tracked & Hr); [|done].
  apply bind_Some in Hr as (w2 & H2%walker_up_tracked & Hr); [|done].
  destruct (pw_stack w2) as [|sp st] eqn:Est.
  - injection Hr as <-. case_match; by revert H2; apply walk_tracked_same.
  - apply bind_Some in Hr as (w3 & H3 & Hr). apply bind_Some in Hr as (w4 & H4%walker_set_node_tracked & Hr); [eauto|].
    run; [|done]. by revert H2; apply walk_tracked_same.
Qed.

Lemma compact_up_tracked t w w' : compact_up t w = Some w' → ok w → ok w'.
Proof.
  unfold compact_up, prepare_compact. intros Hr Hw. case_bool_decide; [by run|].
  apply bind_Some in Hr as ([w1 n] & H1 & H2%compact_loop_tracked); [done|].
  destruct t as [t|]; [apply bind_Some in H1 as (_ & _ & H1)|]; injection H1 as <- _.
  - repeat case_match; by revert Hw; apply walk_tracked_same.
  - by revert Hw; apply walk_tracked_same.
Qed.

Lemma pop_all_tracked fuel w w' : pop_all fuel w = Some w' → ok w → ok w'.
Proof.
  revert w. induction fuel as [|fuel IH]; intros w Hr Hw; cbn [pop_all] in Hr; [by run|].
  case_bool_decide; [by run|]. apply bind_Some in Hr as (w1 & H1%handle_tracked & Hr); eauto.
Qed.

Lemma ancestor_pages_tracked fuel t id st :
  ancestor_pages fuel ps t id = Some st → Forall (sp_tracked ps) st.
Proof.
  revert id st. induction fuel as [|fuel IH]; intros id st Hr; cbn [ancestor_pages] in Hr; [done|].
  case_bool_decide; [by run|]. apply bind_Some in Hr as ([page o] & Hg & Hr).
  apply bind_Some in Hr as (sp & Hn & Hr). assert (sp_tracked ps sp).
  { eapply new_tracked; [|done]. left. by eexists. }
  case_bool_decide; run; [by apply Forall_singleton|]. constructor; [done|by eapply IH].
Qed.

Lemma build_stack_tracked p w w' : build_stack ps p w = Some w' → ok w → ok w'.
Proof.
  unfold build_stack. intros Hr Hw. apply bind_Some in Hr as (id & _ & Hr).
  apply bind_Some in Hr as (_ & _ & Hr). pose proof (set_position_tracked p w Hw) as Hp.
  destruct id as [id|]; [|by eapply pop_all_tracked].
  apply bind_Some in Hr as (st & Hst%ancestor_pages_tracked & Hr). injection Hr as <-.
  apply set_stack_tracked; [|done]. apply Forall_app. split; [done|apply Hp].
Qed.

Lemma compact_to_tracked p w w' : compact_to p w = Some w' → ok w → ok w'.
Proof.
  unfold compact_to. intros Hr Hw. destruct (pw_last_position w); [|by run].
  apply bind_Some in Hr as (_ & _ & Hr). by eapply compact_up_tracked.
Qed.

Lemma set_last_tracked p w : ok w → ok (set_last_position p w).
Proof. by apply walk_tracked_same. Qed.

Lemma walker_new_tracked root parent : ok (walker_new root parent).
Proof. by split_and!. Qed.

Lemma run_op_tracked op w w' : run_op ps op w = Some w' → ok w → ok w'.
Proof.
  intros Hr Hw. destruct op as [p ops|p n|p]; cbn [run_op] in Hr.
  all: unfold advance_and_replace, advance_and_place_node, advance in Hr.
  all: apply bind_Some in Hr as (w1 & H1%compact_to_tracked & Hr); [|done].
  3: { apply bind_Some in Hr as (pid & _ & Hr). apply bind_Some in Hr as (_ & _ & Hr). run. by apply set_last_tracked. }
  all: apply bind_Some in Hr as (w2 & H2%build_stack_tracked & Hr); [|by apply set_last_tracked].
  - by eapply replace_terminal_tracked.
  - by eapply place_node_tracked.
Qed.

Lemma run_ops_tracked ops w w' : run_ops ps ops w = Some w' → ok w → ok w'.
Proof.
  revert w. induction ops as [|op ops IH]; intros w Hr Hw; cbn [run_ops] in Hr; [by run|].
  apply bind_Some in Hr as (w1 & H1%run_op_tracked & Hr); eauto.
Qed.

(** The pages of a concluded walk. *)
Definition output_pages (o : Output) : list UpdatedPage :=
  match o with Root _ us | ChildPageRoots _ us => us end.

Lemma updated_pages_tracked outs :
  Forall (out_tracked ps) outs →
  ∃ us, mapM updated_page outs = Some us ∧ outs = OutUpdated <$> us ∧
    Forall (λ u, tracked ps (up_page_id u) (up_page u) (up_diff u)) us.
Proof.
  induction 1 as [|o outs (u & -> & Hu) Ho (us & Hm & -> & Hus)]; [by exists []|].
  exists (u :: us). cbn. rewrite Hm. by split_and!; [..|constructor].
Qed.
End diffs.

(** ** The exception *)

(** Two pairs below the left child of the root are deleted, then two are inserted below
    the right one. *)
Definition left_pairs : ops_t := [(toy_key x00, toy_key x01); (toy_key x40, toy_key x02)].
Definition right_pairs : ops_t := [(toy_key x80, toy_key x03); (toy_key xc0, toy_key x04)].

Definition pages_from (us : list UpdatedPage) : PageSet :=
  {| ps_map := list_to_map ((λ u, (up_page_id u, (up_page u, Persisted (up_bucket_info u)))) <$> us);
     ps_warm_up_map := None; ps_page_pool := λ _, replicate 4096 xff |}.

Definition insert_left : option Output :=
  let? w := advance_and_replace (pages_from []) new left_pairs (walker_new TERMINATOR None) in conclude w.

Definition replace_pairs (ps : PageSet) (root : Node) : option Output :=
  let? left_left := from_bitslice [false; false] in
  let? left_right := from_bitslice [false; true] in
  let? right := from_bitslice [true] in
  let? w := advance_and_replace ps left_left [] (walker_new root None) in
  let? w := advance_and_replace ps left_right [] w in
  let? w := advance_and_replace ps right right_pairs w in
  conclude w.

