(* ===== verification/PageWalkSpec.v ===== *)
(** * What a walk of the page walker computes

    [run_ops] followed by [conclude], as a function from the pages of a set of pairs
    to the pages of the edited set: for a walk from the root of the trie and for a walk
    below a parent page. *)

From S2P Require Import Prelude Trie PageId Update TrieSpec TriePos PathProof PageDiff Wal BitboxSync.
From S2P Require Import PageWalker PagePaths PageLeaves PageWalkerCorrect PageBuild PageAdvance PageWalk.
From S2P Require Import PageDiffs.

#[local] Open Scope nat_scope.

Section spec.
Context `{NodeHasherLaws, !NodeHasherSized}.
Context (D : list bool → Prop).

(** ** Sequences of operations *)

(** A sequence of operations whose positions a walk can visit in turn, and the set it
    leads to. *)
Inductive walk_ok (kvs0 : ops_t) (fl : nat) (ps : PageSet) (parent : option PageId) :
    option TriePosition → ops_t → list walk_op → ops_t → Prop :=
| walk_ok_nil last kvs : walk_ok kvs0 fl ps parent last kvs [] kvs
| walk_ok_cons last kvs op kvs1 ops kvs' :
    goes_to D kvs0 fl ps last parent (op_pos op) → op_edit kvs0 kvs op kvs1 →
    walk_ok kvs0 fl ps parent (Some (op_pos op)) kvs1 ops kvs' →
    walk_ok kvs0 fl ps parent last kvs (op :: ops) kvs'.

Lemma run_ops_spec kvs0 fl ps parent last kvs ops kvs' :
  walk_ok kvs0 fl ps parent last kvs ops kvs' →
  (∀ id, page_sized (ps_page_pool ps id)) → block [] kvs0 →
  ∀ w, walk_inv D kvs0 kvs fl w → pw_last_position w = last → pw_parent_page w = parent →
  ∃ w', run_ops ps ops w = Some w' ∧ walk_inv D kvs0 kvs' fl w' ∧ pw_parent_page w' = parent.
Proof.
  induction 1 as [last kvs|last kvs op kvs1 ops kvs' Hgo He Hok IH]; intros Hpool Hb0 w Hinv <- <-.
  { by exists w. }
  destruct (run_op_spec D kvs0 kvs kvs1 fl ps op w) as (w1 & Hr & Hinv1 & Hl & Hp); try done.
  destruct (IH Hpool Hb0 w1 Hinv1 Hl Hp) as (w2 & Hr2 & ? & ?).
  exists w2. cbn [run_ops]. rewrite Hr. by split_and!.
Qed.

Lemma walk_inv_new kvs fl parent :
  block [] kvs → (parent = None → fl = 0) → walk_inv D kvs kvs fl (walker_new (nd kvs []) parent).
Proof. intros Hb Hfl. split_and!; try done. left. by split_and!. Qed.

(** ** Concluding *)

(** The roots of the sub-tries below the floor that the walk edited. *)
Definition roots_done (kvs0 kvs : ops_t) (fl : nat) (rs : list (TriePosition * Node)) : Prop :=
  Forall (λ r, pos_ok r.1 ∧ length (path r.1) = 6 * fl ∧ r.2 = nd kvs (path r.1)) rs ∧
  StronglySorted later ((λ r, path r.1) <$> rs) ∧
  Forall (λ r, ∃ T, D T ∧ path r.1 `prefix_of` T ∧ length (path r.1) < length T) rs ∧
  ∀ q, length q = 6 * fl → q ∉ ((λ r, path r.1) <$> rs) → under q kvs = under q kvs0.

(** A page below the floor, on the way to a position of the walk or below one. *)
Definition placed (fl : nat) (id : PageId) : Prop :=
  ∃ T r, D T ∧ take (6 * fl) T `prefix_of` r ∧ length r mod 6 = 0 ∧ id = page_lvl r (length r / 6).

Definition page_done (kvs : ops_t) (fl : nat) (ps : PageSet) (u : UpdatedPage) : Prop :=
  page_holds kvs (up_page_id u) (up_page u) ∧ placed fl (up_page_id u) ∧
  tracked ps (up_page_id u) (up_page u) (up_diff u).

Definition concluded (kvs0 kvs : ops_t) (fl : nat) (ps : PageSet) (parent : option PageId)
    (out : Output) : Prop :=
  match parent, out with
  | None, Root root us => root = nd kvs [] ∧ Forall (page_done kvs fl ps) us
  | Some _, ChildPageRoots rs us => roots_done kvs0 kvs fl rs ∧ Forall (page_done kvs fl ps) us
  | _, _ => False
  end.

Definition rested (kvs0 kvs : ops_t) (fl : nat) (w : PageWalker) : Prop :=
  Forall (λ o, page_holds kvs (out_id o) (out_page o) ∧ placed fl (out_id o)) (pw_output_pages w) ∧
  match pw_parent_page w with
  | None => pw_root w = nd kvs []
  | Some _ => roots_done kvs0 kvs fl (pw_child_page_roots w)
  end.

Lemma idle_rested kvs0 kvs fl w :
  idle kvs0 kvs w → rested kvs0 kvs fl w.
Proof.
  intros (-> & _ & Ho & Hr & Hroot). split; [by rewrite Ho|].
  destruct (pw_parent_page w); [|done]. rewrite Hr. split_and!; [done|constructor|done|done].
Qed.

Lemma active_rested kvs0 kvs fl X w :
  active D kvs0 kvs fl X w → pw_stack w = [] → length X = 6 * fl → rested kvs0 kvs fl w.
Proof.
  intros [_ _ Ho Hr Hs _ Hrf Hacc Hst] Hne HX. split.
  { eapply Forall_impl; [exact Ho|]. intros o (Hh & r & Hm & _ & Hid & T & HT & HTr). split; [done|].
    exists T, r. by split_and!. }
  destruct (pw_parent_page w) eqn:Epp.
  - split_and!; [|done|done|].
    + eapply Forall_impl; [exact Hr|]. by intros r (? & ? & ? & _).
    + intros q Hq Hn. by destruct (Hacc ltac:(done) q Hq) as [?|[[? _]|?]].
  - destruct Hst as [[(Hat & _) Hl]|(_ & _ & Hroot)]; [lia|by apply Hroot].
Qed.

Lemma compact_all_spec kvs0 kvs fl w :
  walk_inv D kvs0 kvs fl w →
  ∃ w', compact_up None w = Some w' ∧ pw_parent_page w' = pw_parent_page w ∧ rested kvs0 kvs fl w'.
Proof.
  intros (Hb & Hrec & Hfl & Hcase).
  assert (Hempty : pw_stack w = [] → compact_up None w = Some w).
  { intros E. unfold compact_up. by rewrite bool_decide_eq_true_2. }
  destruct Hcase as [Hidle|(X & p & Hact & _)].
  { exists w. pose proof Hidle as (_ & Hs & _). split_and!; [by apply Hempty|done|by apply idle_rested]. }
  destruct (act_stack D _ _ _ _ _ Hact) as [[Hinv HX]|(Hs & HX & _)].
  - destruct (compact_up_all kvs fl X w Hb Hinv HX) as (w' & Hc & Hcl); [by rewrite Hrec|].
    pose proof (climbed_active D kvs0 kvs fl X w w' (6 * fl) Hact ltac:(lia) ltac:(lia) Hfl Hcl) as Hact'.
    assert (Hl : length (take (6 * fl) X) = 6 * fl) by (rewrite length_take; lia).
    exists w'. destruct Hcl as (_ & _ & Hpp & _ & Hcase). rewrite Hl, decide_True in Hcase by done.
    destruct Hcase as (_ & _ & Hs & _). split_and!; [done|done|]. by eapply active_rested.
  - exists w. split_and!; [by apply Hempty|done|]. by eapply active_rested.
Qed.

Lemma conclude_spec kvs0 kvs fl ps w :
  walk_inv D kvs0 kvs fl w → walk_tracked ps w →
  ∃ out, conclude w = Some out ∧ concluded kvs0 kvs fl ps (pw_parent_page w) out.
Proof.
  intros Hinv Htr. pose proof Hinv as (_ & Hrec & _). unfold conclude. rewrite Hrec.
  cbn [negb oassert mbind option_bind].
  destruct (compact_all_spec kvs0 kvs fl w Hinv) as (w' & Hc & Hpp & Ho & Hroot). rewrite Hc.
  pose proof (compact_up_tracked ps None w w' Hc Htr) as (_ & _ & Hout).
  destruct (updated_pages_tracked ps _ Hout) as (us & Hm & Hus & Htrk). cbn [mbind option_bind].
  rewrite Hm. cbn [mbind option_bind]. eexists. split; [done|]. rewrite Hpp in *.
  assert (Hd : Forall (page_done kvs fl ps) us).
  { rewrite Hus in Ho. apply Forall_fmap in Ho. pose proof (conj Ho Htrk) as Hall. apply Forall_and in Hall.
    eapply Forall_impl; [exact Hall|]. intros u [[? ?] ?]. by split_and!. }
  unfold concluded. destruct (pw_parent_page w); by split.
Qed.

(** C2: a walk computes the nodes of the edited set.  The operations visit terminals of the
    trie of [kvs] from left to right, or advance over them, and each of them edits the
    pairs below its position; the pages on the way to the positions are in the page set.
    Then the walk and its conclusion succeed.  A walk from the root gives the root of
    the trie of the edited pairs; a walk below a page gives, in order, the roots below
    the page that the operations touched, and below the others nothing changed.  Every
    page of the output lies on the way to a position or below one, holds the nodes of
    the trie of the edited pairs, and has in its diff the slots that changed, except that
    the diff may miss a slot 0 or 1 that became a terminator ([covers]). *)
Theorem page_walk_correct kvs fl ps parent ops kvs' :
  walk_ok kvs fl ps parent None kvs ops kvs' → block [] kvs → (parent = None → fl = 0) →
  (∀ id, page_sized (ps_page_pool ps id)) →
  (∀ id page o, page_set_get ps id = Some (page, o) → page_sized page) →
  ∃ w out, run_ops ps ops (walker_new (nd kvs []) parent) = Some w ∧ conclude w = Some out ∧
    concluded kvs kvs' fl ps parent out.
Proof.
  intros Hok Hb Hfl Hpool Hsized.
  destruct (run_ops_spec _ _ _ _ _ _ _ _ Hok Hpool Hb (walker_new (nd kvs []) parent)) as (w & Hrun & Hinv & Hpp);
    [by apply walk_inv_new|done|done|].
  pose proof (run_ops_tracked ps Hsized Hpool _ _ _ Hrun (walker_new_tracked _ _ _)) as Htr.
  destruct (conclude_spec kvs kvs' fl ps w Hinv Htr) as (out & Hc & Hout). rewrite Hpp in Hout. by exists w, out.
Qed.
End spec.

Lemma page_walk_correct_witness :
  ∃ w out, run_ops (pages_from []) [OpReplace new left_pairs] (walker_new TERMINATOR None) = Some w ∧
    conclude w = Some out ∧ concluded (λ _, True) [] left_pairs 0 (pages_from []) None out.
Proof.
  apply (page_walk_correct (λ _, True) [] 0 (pages_from []) None [OpReplace new left_pairs] left_pairs).
  - econstructor; [|split_and!|constructor].
    + constructor; try done; [by_compute|..].
      * intros l d Hp%prefix_nil_inv. by destruct l.
      * intros k _ Hk. exfalso. cbn in Hk. lia.
    + cbn. lia.
    + split; [split; [by repeat constructor|]|].
      * apply list.Forall_forall. intros kv Hkv. split; [|apply prefix_nil]. revert kv Hkv. apply list.Forall_forall. by repeat constructor.
      * intros q Hq. destruct Hq. apply prefix_nil.
    + by_compute.
  - split; constructor.
  - done.
  - done.
  - done.
Defined.
