(* ===== verification/PageRegion.v ===== *)
(** * Regions of the page tree

    Models [nomt/src/page_region.rs], the passes of [nomt/src/rw_pass_cell/mod.rs] and
    the division of the page tree into shards of [nomt/src/page_cache.rs]: a region is
    an interval of page ids with shared access to the pages above it, a write pass is
    split into passes of disjoint regions, of which the last to be consumed yields
    the original one, and the shards divide the children of the root page. *)

From S2P Require Import Prelude Trie PageId.

#[local] Open Scope nat_scope.

(** ** [page_region.rs] *)

Record PageRegion := {
  region_path : PageId;
  region_exclusive_min : option PageId;
  region_exclusive_max : PageId;
}.

#[global] Instance PageRegion_eq_dec : EqDecision PageRegion.
Proof. solve_decision. Defined.

Definition from_page_id (page_id : PageId) : PageRegion :=
  {| region_exclusive_min := None; region_exclusive_max := max_descendant page_id; region_path := page_id |}.

Definition from_page_id_descendants (page_id : PageId) (min max : Z) : option PageRegion :=
  let? _ := oassert (min <=? max)%Z in
  match child_page_id page_id min, child_page_id page_id max with
  | Ok min, Ok max =>
      Some {| region_exclusive_min := Some min; region_exclusive_max := max_descendant max;
              region_path := page_id |}
  | _, _ => None
  end.

Definition universe : PageRegion := from_page_id ROOT_PAGE_ID.

Definition exclusive_min (self : PageRegion) : PageId :=
  match region_exclusive_min self with None => region_path self | Some min => min end.

Definition exclusive_max (self : PageRegion) : PageId := region_exclusive_max self.

Definition region_contains_exclusive (self : PageRegion) (page : PageId) : bool :=
  page_le (exclusive_min self) page && page_le page (exclusive_max self).

Definition non_exclusive_max (self : PageRegion) : option PageId :=
  match region_exclusive_min self with
  | None =>
      if bool_decide (region_path self = ROOT_PAGE_ID) then None
      else Some (parent_page_id (region_path self))
  | Some _ => Some (region_path self)
  end.

Definition contains_non_exclusive (self : PageRegion) (page : PageId) : bool :=
  match non_exclusive_max self with
  | None => false
  | Some m => bool_decide (page = m) || is_descendant_of m page
  end.

Definition region_encompasses (self other : PageRegion) : bool :=
  page_le (exclusive_min self) (exclusive_min other) && page_le (exclusive_max other) (exclusive_max self).

Definition region_excludes_unique (self other : PageRegion) : bool :=
  page_lt (exclusive_max self) (exclusive_min other) || page_lt (exclusive_max other) (exclusive_min self).

(** ** Passes *)

(** The traits [Region] and [RegionContains]. *)
Class Region (R Id : Type) := {
  encompasses : R → R → bool;
  excludes_unique : R → R → bool;
  contains : R → Id → bool;
  contains_exclusive : R → Id → bool;
}.

#[global] Instance PageRegion_region : Region PageRegion PageId := {
  encompasses := region_encompasses;
  excludes_unique := region_excludes_unique;
  contains r p := region_contains_exclusive r p || contains_non_exclusive r p;
  contains_exclusive := region_contains_exclusive;
}.

Inductive ShardIndex := ShardRoot | Shard (i : nat).

#[global] Instance ShardIndex_region : Region ShardIndex ShardIndex := {
  encompasses a b :=
    match a, b with ShardRoot, _ => true | Shard a, Shard b => a =? b | _, _ => false end;
  excludes_unique a b :=
    match a, b with Shard a, Shard b => negb (a =? b) | _, _ => false end;
  contains a b :=
    match a, b with Shard a, Shard b => a =? b | ShardRoot, _ => true | Shard _, ShardRoot => true end;
  contains_exclusive a b :=
    match a, b with Shard a, Shard b => a =? b | ShardRoot, _ => true | _, _ => false end;
}.

Section passes.
Context `{Region R Id}.

(** A pass below a parent, named by its address in the store of parents: the parent's
    region and the number of its children that were not consumed or dropped. *)
Record ParentWritePass := { pp_parent : option nat; pp_region : R; pp_remaining_children : nat }.
Record WritePass := { wp_parent : option nat; wp_region : R }.

Fixpoint mutually_exclusive (self : R) (regions : list R) : option () :=
  match regions with
  | [] => Some ()
  | region :: regions' =>
      let? _ := oassert (encompasses (Id := Id) self region) in
      let? _ := oassert (forallb (excludes_unique (Id := Id) region) regions') in
      mutually_exclusive self regions'
  end.

(** [fetch_sub(1, AcqRel)], with the prior value. *)
Definition fetch_sub (a : nat) (heap : list ParentWritePass) : option (nat * list ParentWritePass) :=
  let? parent := heap !! a in
  Some (pp_remaining_children parent,
        <[a := {| pp_parent := pp_parent parent; pp_region := pp_region parent;
                  pp_remaining_children := pp_remaining_children parent - 1 |}]> heap).

(** Dropping a pass that was not consumed. *)
Definition drop_pass (self : WritePass) (heap : list ParentWritePass) : option (list ParentWritePass) :=
  match wp_parent self with
  | None => Some heap
  | Some a => let? (_, heap) := fetch_sub a heap in Some heap
  end.

(** [split_n], on the store of parents.  With no regions the pass is dropped where it
    stands; otherwise its parent was taken, and dropping it does nothing. *)
Definition split_n (self : WritePass) (regions : list R) (heap : list ParentWritePass) :
    option (list WritePass * list ParentWritePass) :=
  if length regions =? 0 then let? heap := drop_pass self heap in Some ([], heap)
  else
    let? _ := mutually_exclusive (wp_region self) regions in
    let new_parent := {| pp_parent := wp_parent self; pp_region := wp_region self;
                         pp_remaining_children := length regions |} in
    Some ((λ region, {| wp_parent := Some (length heap); wp_region := region |}) <$> regions,
          heap ++ [new_parent]).

Definition consume (self : WritePass) (heap : list ParentWritePass) :
    option (option WritePass * list ParentWritePass) :=
  match wp_parent self with
  | None => Some (None, heap)
  | Some a =>
      let? parent := heap !! a in
      let? (remaining, heap) := fetch_sub a heap in
      if remaining =? 1 then
        Some (Some {| wp_parent := pp_parent parent; wp_region := pp_region parent |}, heap)
      else Some (None, heap)
  end.
End passes.

(** ** The shards of the page cache *)

Definition NUM_ROOT_CHILDREN : nat := Z.to_nat NUM_CHILDREN.

(** The first child and the number of children of a shard. *)
Definition shard_range (num_shards shard_index : nat) : nat * nat :=
  let part := NUM_ROOT_CHILDREN / num_shards in
  let remainder := NUM_ROOT_CHILDREN mod num_shards in
  if remainder <=? shard_index then (part * shard_index + remainder, part)
  else (part * shard_index + shard_index, part + 1).

(** One iteration of [shard_regions]. *)
Definition shard_region_at (num_shards shard_index : nat) : option (PageRegion * nat) :=
  let '(start, count) := shard_range num_shards shard_index in
  let? start_child := ChildPageIndex_new (wrap 8 (Z.of_nat start)) in
  let? _ := oassert (1 <=? start + count) in
  let? end_child := ChildPageIndex_new (wrap 8 (Z.of_nat (start + count - 1))) in
  let? region := from_page_id_descendants ROOT_PAGE_ID start_child end_child in
  Some (region, count).

Definition shard_regions (num_shards : nat) : option (list (PageRegion * nat)) :=
  let? _ := oassert (negb (num_shards =? 0)) in
  mapM (shard_region_at num_shards) (seq 0 num_shards).

Definition shard_index_for (num_shards first_ancestor : nat) : option nat :=
  let? _ := oassert (negb (num_shards =? 0)) in
  let part := NUM_ROOT_CHILDREN / num_shards in
  let remainder := NUM_ROOT_CHILDREN mod num_shards in
  if first_ancestor <? (part + 1) * remainder then Some (first_ancestor / (part + 1))
  else
    let? _ := oassert (negb (part =? 0)) in
    Some ((first_ancestor - (part + 1) * remainder) / part + remainder).

(** ** The order of page ids *)

Lemma lex_Z_trans (xs ys zs : list Z) :
  lex_compare Z.compare xs ys ≠ Gt → lex_compare Z.compare ys zs ≠ Gt → lex_compare Z.compare xs zs ≠ Gt.
Proof.
  revert ys zs. induction xs as [|x xs IH]; intros [|y ys] [|z zs]; simpl; try done.
  destruct (Z.compare_spec x y), (Z.compare_spec y z), (Z.compare_spec x z); try done; try lia. apply IH.
Qed.

Lemma lex_Z_antisym (xs ys : list Z) :
  lex_compare Z.compare ys xs = CompOpp (lex_compare Z.compare xs ys).
Proof. apply lex_compare_antisym, Z.compare_antisym. Qed.

Lemma page_le_tr p q r : page_le p q = true → page_le q r = true → page_le p r = true.
Proof.
  unfold page_le, page_compare. pose proof (lex_Z_trans (path p) (path q) (path r)).
  repeat case_match; naive_solver.
Qed.

Lemma page_lt_not_le p q : page_lt p q = negb (page_le q p).
Proof.
  unfold page_lt, page_le, page_compare. rewrite (lex_Z_antisym (path p)).
  by destruct (lex_compare Z.compare (path p) (path q)).
Qed.

Lemma page_le_antisym p q : page_le p q = true → page_le q p = true → p = q.
Proof.
  unfold page_le, page_compare. rewrite (lex_Z_antisym (path p)). intros H1 H2.
  destruct (lex_compare Z.compare (path p) (path q)) eqn:E; try done.
  apply lex_compare_eq in E; [|apply Z.compare_eq]. destruct p, q; simpl in *; congruence.
Qed.

Lemma page_le_descendant p q : valid p → valid q → is_descendant_of q p = true → page_le p q = true.
Proof. intros Hp Hq. rewrite descendant_between by done. by intros [? _]%andb_true_iff. Qed.

Lemma max_descendant_valid p : valid p → valid (max_descendant p).
Proof.
  intros [Hl Hf]. split; simpl.
  - rewrite length_app, length_replicate. lia.
  - apply Forall_app. split; [done|]. apply Forall_replicate. done.
Qed.

Lemma valid_snoc p x : valid p → length (path p) < 42 → (0 ≤ x < 64)%Z → valid {| path := path p ++ [x] |}.
Proof.
  intros [_ Hf] Hl Hx. split; simpl.
  - rewrite length_snoc. unfold MAX_PAGE_DEPTH. lia.
  - apply Forall_app. split; [done|]. by constructor.
Qed.

(** ** Regions are whole sub-trees *)

(** The regions the two constructors make. *)
Definition region_ok (r : PageRegion) : Prop :=
  (∃ p, valid p ∧ r = from_page_id p) ∨
  (∃ p min max, valid p ∧ (0 ≤ min)%Z ∧ (max < 64)%Z ∧ from_page_id_descendants p min max = Some r).

(** A region spans the sub-trees of the pages [top ++ [x]] for [min ≤ x ≤ max], or of
    one page. *)
Lemma from_page_id_descendants_spec p min max r :
  valid p → (0 ≤ min)%Z → (max < 64)%Z → from_page_id_descendants p min max = Some r →
  (min ≤ max)%Z ∧ length (path p) < 42 ∧
  r = {| region_path := p; region_exclusive_min := Some {| path := path p ++ [min] |};
         region_exclusive_max := max_descendant {| path := path p ++ [max] |} |} ∧
  valid {| path := path p ++ [min] |} ∧ valid {| path := path p ++ [max] |}.
Proof.
  intros Hp Hmin Hmax. unfold from_page_id_descendants, child_page_id, push.
  destruct (Z.leb_spec min max); [|done]. cbn [oassert mbind option_bind].
  unfold MAX_PAGE_DEPTH in *. destruct (Nat.leb_spec 42 (length (path p))); [done|].
  rewrite (proj2 (Nat.ltb_lt _ _)) by done. cbn. intros [= <-].
  split_and!; try done; apply valid_snoc; done || lia.
Qed.

Lemma lex_prefix_le (xs ys : list Z) : xs `prefix_of` ys → lex_compare Z.compare xs ys ≠ Gt.
Proof.
  revert ys. induction xs as [|x xs IH]; intros [|y ys] Hp; simpl; try done.
  - by apply prefix_nil_inv in Hp.
  - pose proof (prefix_cons_inv_1 _ _ _ _ Hp). subst y. rewrite Z.compare_refl.
    apply IH. by eapply prefix_cons_inv_2.
Qed.

Lemma page_le_prefix p q : path p `prefix_of` path q → page_le p q = true.
Proof. intros Hp%lex_prefix_le. unfold page_le, page_compare. by destruct (lex_compare _ _ _). Qed.

(** Two sequences either are prefixes of each other or differ at a first place, which
    decides their order and that of their extensions. *)
Lemma lex_extend (xs ys s t : list Z) :
  ¬ xs `prefix_of` ys → ¬ ys `prefix_of` xs →
  lex_compare Z.compare (xs ++ s) (ys ++ t) = lex_compare Z.compare xs ys.
Proof.
  revert ys. induction xs as [|x xs IH]; intros [|y ys] H1 H2; simpl.
  - by destruct H1.
  - destruct H1. apply prefix_nil.
  - destruct H2. apply prefix_nil.
  - destruct (Z.compare_spec x y) as [->|?|?]; [|done|done].
    apply IH; intros Hp; [apply H1|apply H2]; by apply prefix_cons.
Qed.

(** The pages whose sub-trees make up a region. *)
Definition region_top (r : PageRegion) (top : PageId) : Prop :=
  match region_exclusive_min r with
  | None => top = region_path r
  | Some min => ∃ a b x, path min = path (region_path r) ++ [a] ∧
      region_exclusive_max r = max_descendant {| path := path (region_path r) ++ [b] |} ∧
      (a ≤ x ≤ b)%Z ∧ top = {| path := path (region_path r) ++ [x] |}
  end.

Lemma page_le_snoc p a q s x :
  q = {| path := p ++ x :: s |} → page_le {| path := p ++ [a] |} q = (a <=? x)%Z.
Proof.
  intros ->. unfold page_le, page_compare. cbn [path].
  rewrite lex_compare_app by apply Z.compare_refl. simpl.
  destruct (Z.compare_spec a x), (Z.leb_spec a x); try done; try lia. by destruct s.
Qed.

Lemma page_le_max p b q s x :
  valid q → (0 ≤ b < 64)%Z → q = {| path := p ++ x :: s |} →
  page_le q (max_descendant {| path := p ++ [b] |}) = (x <=? b)%Z.
Proof.
  intros Hq Hb ->. destruct (decide (x = b)) as [->|Hne].
  - assert (Hv : valid {| path := p ++ [b] |}).
    { destruct Hq as [Hl Hf]. simpl in *. apply Forall_app in Hf as [Hf _].
      rewrite length_app in Hl. simpl in Hl. split; simpl; [rewrite length_snoc; lia|].
      apply Forall_app. split; [done|]. by constructor. }
    rewrite Z.leb_refl. pose proof (descendant_between {| path := p ++ [b] |} _ Hv Hq) as E.
    unfold is_descendant_of in E. rewrite bool_decide_eq_true_2 in E; [by symmetry in E; apply andb_true_iff in E as [_ ?]|].
    cbn [path]. exists s. by rewrite <-app_assoc.
  - unfold page_le, page_compare, max_descendant. cbn [path]. rewrite <-app_assoc.
    rewrite lex_compare_app by apply Z.compare_refl. simpl.
    destruct (Z.compare_spec x b), (Z.leb_spec x b); try done; lia.
Qed.

Lemma lex_sandwich p q a t :
  ¬ p `prefix_of` q → page_le {| path := p ++ a |} {| path := q |} = true →
  page_le {| path := q |} {| path := p ++ t |} = true → False.
Proof.
  intros Hn H1 H2. assert (Hq : ¬ q `prefix_of` p).
  { intros [s ->]. destruct s as [|x s]; [by rewrite app_nil_r in Hn|].
    unfold page_le, page_compare in H1. cbn [path] in H1. rewrite <-app_assoc in H1.
    replace q with (q ++ []) in H1 at 2 by apply app_nil_r.
    by rewrite lex_compare_app in H1 by apply Z.compare_refl. }
  unfold page_le, page_compare in *. cbn [path] in *.
  replace q with (q ++ []) in H1, H2 by apply app_nil_r. rewrite lex_extend in H1, H2 by done.
  rewrite (lex_Z_antisym p q) in H2. destruct (lex_compare Z.compare p q) eqn:E; try done.
  apply lex_compare_eq in E; [|apply Z.compare_eq]. by subst.
Qed.

Lemma contains_exclusive_iff r q :
  region_ok r → valid q →
  region_contains_exclusive r q = true ↔ ∃ top, region_top r top ∧ path top `prefix_of` path q.
Proof.
  intros Hr Hq. unfold region_contains_exclusive. destruct Hr as [(p & Hp & ->)|(p & a & b & Hp & Ha & Hb & Hr)].
  - cbn. rewrite <-descendant_between by done. unfold region_top, is_descendant_of. cbn.
    rewrite bool_decide_eq_true. naive_solver.
  - apply from_page_id_descendants_spec in Hr as (Hab & Hl & -> & Hva & Hvb); [|done..].
    unfold region_top. cbn [exclusive_min exclusive_max region_exclusive_min region_exclusive_max region_path path].
    rewrite andb_true_iff. split.
    + intros [H1 H2]. destruct (decide (path p `prefix_of` path q)) as [[s Hs]|Hn].
      2: { destruct q as [q]. destruct (lex_sandwich (path p) q [a]
             ([b] ++ replicate (MAX_PAGE_DEPTH - length (path p ++ [b])) MAX_CHILD_INDEX) Hn H1).
           unfold max_descendant in H2. cbn [path] in H2. by rewrite <-app_assoc in H2. }
      destruct s as [|x s].
      { rewrite app_nil_r in Hs. unfold page_le, page_compare in H1. cbn [path] in H1. rewrite Hs in H1.
        replace (path p) with (path p ++ []) in H1 at 2 by apply app_nil_r.
        by rewrite lex_compare_app in H1 by apply Z.compare_refl. }
      assert (Eq : q = {| path := path p ++ x :: s |}) by (destruct q; simpl in *; congruence).
      rewrite (page_le_snoc _ _ _ _ _ Eq) in H1. rewrite (page_le_max (path p) b q s x Hq ltac:(lia) Eq) in H2.
      exists {| path := path p ++ [x] |}. split; [exists a, b, x; split_and!; try done; lia|].
      cbn [path]. exists s. by rewrite Hs, <-app_assoc.
    + intros (top & (a' & b' & x & E1 & E2 & Hx & ->) & [s Hs]). cbn [path] in Hs.
      apply app_inj_2 in E1 as [_ E1]; [|done]. injection E1 as ->.
      assert (b' = b) as ->.
      { unfold max_descendant in E2. cbn [path] in E2. injection E2 as E2. rewrite !length_snoc, <-!app_assoc in E2.
        apply app_inj_1 in E2 as [_ E2]; [|done]. by injection E2. }
      rewrite <-app_assoc in Hs. assert (Eq : q = {| path := path p ++ x :: s |}) by (destruct q; simpl in *; congruence).
      rewrite (page_le_snoc _ _ _ _ _ Eq), (page_le_max (path p) b q s x Hq ltac:(lia) Eq). lia.
Qed.

Lemma exclusive_min_in r :
  region_ok r → valid (exclusive_min r) ∧ region_contains_exclusive r (exclusive_min r) = true.
Proof.
  intros Hr. assert (Hv : valid (exclusive_min r)).
  { destruct Hr as [(p & Hp & ->)|(p & a & b & Hp & Ha & Hb & Hr)]; [done|].
    by apply from_page_id_descendants_spec in Hr as (_ & _ & -> & ? & _). }
  split; [done|]. apply contains_exclusive_iff; [done..|]. exists (exclusive_min r). split; [|done].
  destruct Hr as [(p & Hp & ->)|(p & a & b & Hp & Ha & Hb & Hr)]; [done|].
  apply from_page_id_descendants_spec in Hr as (Hab & _ & -> & _); [|done..]. cbn. exists a, b, a. done.
Qed.

Lemma non_exclusive_above r p :
  region_ok r → contains_non_exclusive r p = true → path p `prefix_of` path (exclusive_min r).
Proof.
  intros Hr. unfold contains_non_exclusive. destruct (non_exclusive_max r) as [m|] eqn:Em; [|done].
  intros Hm. assert (Hpm : path p `prefix_of` path m).
  { apply orb_true_iff in Hm as [->%bool_decide_eq_true|Hm%bool_decide_eq_true]; [reflexivity|done]. }
  etrans; [exact Hpm|]. clear Hm Hpm. destruct Hr as [(q & Hq & ->)|(q & a & b & Hq & Ha & Hb & Hr)].
  - cbn in *. case_bool_decide; [done|]. injection Em as <-. unfold parent_page_id.
    rewrite bool_decide_eq_false_2 by done. cbn. eexists. symmetry. apply take_drop.
  - apply from_page_id_descendants_spec in Hr as (_ & _ & -> & _); [|done..]. cbn in *. injection Em as <-.
    by apply prefix_app_r.
Qed.

(** A region with its pages, those it only reads included. *)
Lemma region_exclusion r1 r2 p :
  region_ok r1 → region_ok r2 → valid p → excludes_unique r1 r2 = true →
  contains_exclusive r1 p = true → contains r2 p = false.
Proof.
  intros H1 H2 Hp Hx Hc. cbn in *. destruct (_ || _) eqn:E; [exfalso|done].
  assert (Hd : ∃ q, valid q ∧ region_contains_exclusive r1 q = true ∧ region_contains_exclusive r2 q = true).
  { apply orb_true_iff in E as [E|E%non_exclusive_above]; [by exists p| |done].
    destruct (exclusive_min_in r2 H2) as [Hv Hi]. exists (exclusive_min r2). split_and!; [done| |done].
    apply contains_exclusive_iff in Hc as (top & Ht & Htp); [|done..].
    apply contains_exclusive_iff; [done..|]. exists top. split; [done|]. by etrans. }
  destruct Hd as (q & Hq & [A1 A2]%andb_true_iff & [B1 B2]%andb_true_iff).
  unfold region_excludes_unique in Hx. rewrite !page_lt_not_le in Hx.
  rewrite (page_le_tr _ q), (page_le_tr (exclusive_min r1) q) in Hx; done.
Qed.

Lemma region_excludes_sym (r1 r2 : PageRegion) : excludes_unique r1 r2 = excludes_unique r2 r1.
Proof. apply orb_comm. Qed.

(** ** Passes *)

(** The contract of the traits: regions that exclude each other do not alias.  [wf]
    are the regions the program makes and [ok] the ids of its cells. *)
Class RegionLaws (R Id : Type) `{Region R Id} (wf : R → Prop) (ok : Id → Prop) := {
  excludes_comm r1 r2 : excludes_unique (Id := Id) r1 r2 = excludes_unique (Id := Id) r2 r1;
  excludes_sound r1 r2 i :
    wf r1 → wf r2 → ok i → excludes_unique (Id := Id) r1 r2 = true →
    contains_exclusive r1 i = true → contains r2 i = false;
  exclusive_contains r i : contains_exclusive r i = true → contains r i = true;
}.

#[global] Instance PageRegion_laws : RegionLaws PageRegion PageId region_ok valid.
Proof. split; [apply region_excludes_sym|apply region_exclusion|]. intros r i Hc. by apply orb_true_iff; left. Qed.

#[global] Instance ShardIndex_laws : RegionLaws ShardIndex ShardIndex (λ _, True) (λ _, True).
Proof.
  split.
  - intros [|a] [|b]; cbn; try done. by rewrite Nat.eqb_sym.
  - intros [|a] [|b] [|i] _ _ _; cbn; try done.
    intros Hab%negb_true_iff%Nat.eqb_neq ->%Nat.eqb_eq. apply Nat.eqb_neq. lia.
  - by intros [|a] [|b].
Qed.

Section pass_spec.
Context `{RegionLaws R Id wf ok}.

Lemma mutually_exclusive_spec self regions :
  mutually_exclusive (Id := Id) self regions = Some () →
  ∀ i j r1 r2, regions !! i = Some r1 → regions !! j = Some r2 → i ≠ j →
    excludes_unique (Id := Id) r1 r2 = true.
Proof.
  induction regions as [|r regions IH]; intros Hm i j r1 r2 Hi Hj Hne; [done|]. simpl in Hm.
  destruct (encompasses self r); [cbn [oassert mbind option_bind] in Hm|done].
  destruct (forallb _ regions) eqn:Ef; [cbn [oassert mbind option_bind] in Hm|done].
  assert (Hhead : ∀ k x, regions !! k = Some x → excludes_unique (Id := Id) r x = true).
  { intros k x Hk. rewrite forallb_forall in Ef. apply Ef.
    apply list_elem_of_In. by eapply list_elem_of_lookup_2. }
  destruct i as [|i], j as [|j]; simpl in *; simplify_eq; eauto. rewrite excludes_comm. eauto.
Qed.

(** C15: write passes never alias.  Whatever region a write pass has, the passes that
    [split_n] makes of it have disjoint access: an item that one of them can write,
    no other one can write or read.  This is the contract of the [Region] traits,
    which page regions and shard indices meet. *)
Theorem split_n_exclusive self regions heap passes heap' :
  Forall wf regions → split_n (Id := Id) self regions heap = Some (passes, heap') →
  length passes = length regions ∧
  ∀ i j p1 p2 x, passes !! i = Some p1 → passes !! j = Some p2 → i ≠ j → ok x →
    contains_exclusive (wp_region p1) x = true →
    contains (wp_region p2) x = false ∧ contains_exclusive (wp_region p2) x = false.
Proof.
  intros Hwf Hs. unfold split_n in Hs. destruct (Nat.eqb_spec (length regions) 0) as [E|_].
  { destruct (drop_pass _ _); [|done]. injection Hs as <- <-. by split. }
  destruct (mutually_exclusive _ _) as [[]|] eqn:Em; [|done]. injection Hs as <- <-.
  split; [apply length_fmap|]. intros i j p1 p2 x Hi Hj Hne Hx Hc.
  apply list_lookup_fmap_Some in Hi as (r1 & -> & Hr1). apply list_lookup_fmap_Some in Hj as (r2 & -> & Hr2). cbn in *.
  rewrite list.Forall_forall in Hwf.
  assert (Hn : contains r2 x = false).
  { eapply excludes_sound; [..|exact Hc]; eauto using list_elem_of_lookup_2, mutually_exclusive_spec. }
  split; [done|]. destruct (contains_exclusive r2 x) eqn:E; [|done].
  apply exclusive_contains in E. congruence.
Qed.

(** All passes of a split, consumed one after the other. *)
Fixpoint consume_all (passes : list WritePass) (heap : list ParentWritePass) :
    option (list (option WritePass) * list (@ParentWritePass R)) :=
  match passes with
  | [] => Some ([], heap)
  | p :: passes' =>
      let? (r, heap) := consume p heap in
      let? (rs, heap) := consume_all passes' heap in
      Some (r :: rs, heap)
  end.

Lemma consume_all_spec passes heap a par :
  Forall (λ p, wp_parent p = Some a) passes → heap !! a = Some par →
  passes ≠ [] → pp_remaining_children par = length passes →
  ∃ heap', consume_all passes heap =
    Some (replicate (length passes - 1) None ++
          [Some {| wp_parent := pp_parent par; wp_region := pp_region par |}], heap').
Proof.
  intros Hf. revert heap par. induction Hf as [|p passes Hp Hf IH]; intros heap par Ha Hne Hr; [done|].
  cbn [consume_all]. unfold consume, fetch_sub. rewrite Hp, Ha. cbn [mbind option_bind]. rewrite Hr. simpl length. destruct passes as [|q passes].
  - cbn. by eexists.
  - rewrite (proj2 (Nat.eqb_neq _ _)) by (simpl; lia). cbn [mbind option_bind].
    destruct (IH (<[a := {| pp_parent := pp_parent par; pp_region := pp_region par;
      pp_remaining_children := length (p :: q :: passes) - 1 |}]> heap) _
      ltac:(by rewrite list_lookup_insert_eq by (by eapply lookup_lt_Some)) ltac:(done)) as [heap' E].
    { simpl. lia. }
    eexists. cbn [length] in *. cbn [mbind option_bind]. rewrite E. cbn. by rewrite Nat.sub_0_r.
Qed.

(** C17: one worker gets the original pass back.  In whatever order the passes of a
    split are consumed, every [consume] but the last one yields nothing, and the last
    one yields a pass for the region that was split: exactly one worker goes on to
    write the root page, and only after all the others are done. *)
Theorem consume_last self regions heap passes heap' order :
  split_n (Id := Id) self regions heap = Some (passes, heap') → regions ≠ [] → order ≡ₚ passes →
  ∃ heap'', consume_all order heap' =
    Some (replicate (length regions - 1) None ++ [Some self], heap'').
Proof.
  intros Hs Hne Ho. unfold split_n in Hs. destruct (Nat.eqb_spec (length regions) 0) as [E|_].
  { by apply nil_length_inv in E. }
  destruct (mutually_exclusive _ _) as [[]|] eqn:Em; [|done]. injection Hs as <- <-.
  assert (Hl : length order = length regions) by (by rewrite Ho, length_fmap).
  set (par := {| pp_parent := wp_parent self; pp_region := wp_region self; pp_remaining_children := length regions |}).
  rewrite <-Hl. destruct (consume_all_spec order (heap ++ [par]) (length heap) par) as [h E].
  - rewrite Ho. by apply Forall_fmap, list.Forall_true.
  - by rewrite lookup_app_r, Nat.sub_diag by lia.
  - intros ->. symmetry in Hl. by apply nil_length_inv in Hl.
  - done.
  - exists h. rewrite E. by destruct self.
Qed.
End pass_spec.

(** ** Shards *)

Lemma mapM_lookup {A B} (f : A → option B) l r i :
  mapM f l = Some r → r !! i = (l !! i) ≫= f.
Proof.
  intros Hm%mapM_Some. revert i. induction Hm as [|x y l r Hxy _ IH]; intros [|i]; simpl; try done.
Qed.

Lemma shard_range_bounds n i :
  0 < n ≤ 64 → i < n → ∃ start count, shard_range n i = (start, count) ∧ 0 < count ∧ start + count ≤ 64.
Proof.
  intros Hn Hi. unfold shard_range. change NUM_ROOT_CHILDREN with 64.
  pose proof (Nat.div_mod 64 n ltac:(lia)) as Hd. pose proof (Nat.mod_upper_bound 64 n ltac:(lia)) as Hm.
  assert (Hp : 1 ≤ 64 / n) by (apply Nat.div_le_lower_bound; lia).
  destruct (Nat.leb_spec (64 mod n) i); eexists _, _; (split; [done|]); nia.
Qed.

Lemma shard_region_at_spec n i :
  0 < n ≤ 64 → i < n → ∃ start count r, shard_range n i = (start, count) ∧ 0 < count ∧ start + count ≤ 64 ∧
    shard_region_at n i = Some (r, count) ∧
    from_page_id_descendants ROOT_PAGE_ID (Z.of_nat start) (Z.of_nat (start + count - 1)) = Some r.
Proof.
  intros Hn Hi. destruct (shard_range_bounds n i Hn Hi) as (start & count & E & Hc & Hs).
  assert (Hw : ∀ x, x < 64 → ChildPageIndex_new (wrap 8 (Z.of_nat x)) = Some (Z.of_nat x)).
  { intros x Hx. unfold ChildPageIndex_new, wrap. rewrite Z.mod_small by (change (2 ^ 8)%Z with 256%Z; lia).
    change MAX_CHILD_INDEX with 63%Z. by destruct (Z.ltb_spec 63 (Z.of_nat x)); [lia|]. }
  destruct (from_page_id_descendants ROOT_PAGE_ID (Z.of_nat start) (Z.of_nat (start + count - 1))) as [r|] eqn:Er.
  - exists start, count, r. split_and!; try done. unfold shard_region_at. rewrite E, !Hw by lia.
    cbn [mbind option_bind]. rewrite (proj2 (Nat.leb_le _ _)) by lia. cbn [oassert mbind option_bind].
    by rewrite Er.
  - unfold from_page_id_descendants in Er. rewrite (proj2 (Z.leb_le _ _)) in Er by lia. done.
Qed.

(** The shard of a child of the root page: the one whose range it is in. *)
Lemma shard_index_for_spec n a :
  0 < n ≤ 64 → a < 64 → ∃ i, shard_index_for n a = Some i ∧ i < n ∧
    ∀ j start count, j < n → shard_range n j = (start, count) → (start ≤ a < start + count ↔ j = i).
Proof.
  intros Hn Ha. unfold shard_index_for, shard_range. change NUM_ROOT_CHILDREN with 64.
  pose proof (Nat.div_mod 64 n ltac:(lia)) as Hd. pose proof (Nat.mod_upper_bound 64 n ltac:(lia)) as Hm.
  assert (Hp : 1 ≤ 64 / n) by (apply Nat.div_le_lower_bound; lia).
  rewrite (proj2 (Nat.eqb_neq n 0)) by lia. cbn [negb oassert mbind option_bind].
  rewrite (proj2 (Nat.eqb_neq (64 / n) 0)) by lia. cbn [negb oassert mbind option_bind].
  set (part := 64 / n) in *. set (m := 64 mod n) in *. clearbody part m.
  destruct (Nat.ltb_spec a ((part + 1) * m)) as [Hlt|Hge].
  - pose proof (Nat.div_mod a (part + 1) ltac:(lia)) as Hq.
    pose proof (Nat.mod_upper_bound a (part + 1) ltac:(lia)).
    set (q := a / (part + 1)) in *. set (s := a mod (part + 1)) in *. clearbody q s.
    assert (q < m) by nia. exists q. split_and!; [done|lia|]. intros j start count Hj E.
    destruct (Nat.leb_spec m j); injection E as <- <-; split; intros; subst; try nia.
  - pose proof (Nat.div_mod (a - (part + 1) * m) part ltac:(lia)) as Hq.
    pose proof (Nat.mod_upper_bound (a - (part + 1) * m) part ltac:(lia)).
    set (q := (a - (part + 1) * m) / part) in *. set (s := (a - (part + 1) * m) mod part) in *. clearbody q s.
    exists (q + m). split_and!; [done|nia|]. intros j start count Hj E.
    destruct (Nat.leb_spec m j); injection E as <- <-; split; intros; subst; try nia.
Qed.

Lemma shard_regions_spec n :
  0 < n ≤ 64 → ∃ regs, shard_regions n = Some regs ∧ length regs = n ∧
    ∀ i r c, regs !! i = Some (r, c) → shard_region_at n i = Some (r, c) ∧ i < n.
Proof.
  intros Hn. unfold shard_regions. rewrite (proj2 (Nat.eqb_neq n 0)) by lia. cbn [negb oassert mbind option_bind].
  destruct (mapM (shard_region_at n) (seq 0 n)) as [regs|] eqn:Em.
  - exists regs. split; [done|]. pose proof (Forall2_length _ _ _ (proj1 (mapM_Some _ _ _) Em)) as Hl. rewrite length_seq in Hl.
    split; [done|]. intros i r c Hi. pose proof (lookup_lt_Some _ _ _ Hi) as Hlt.
    rewrite (mapM_lookup _ _ _ i Em), lookup_seq_lt in Hi by lia. split; [done|lia].
  - apply mapM_None, Exists_exists in Em as (i & Hi%elem_of_seq & E).
    destruct (shard_region_at_spec n i Hn ltac:(lia)) as (? & ? & ? & _ & _ & _ & E' & _). congruence.
Qed.

Lemma shards_divide n :
  0 < n ≤ 64 → ∃ regs, shard_regions n = Some regs ∧ length regs = n ∧
    ∀ p, valid p → p ≠ ROOT_PAGE_ID → ∃ a i,
      child_index_at_level p 0 = Some a ∧ shard_index_for n (Z.to_nat a) = Some i ∧ i < n ∧
      ∀ j r c, regs !! j = Some (r, c) → region_contains_exclusive r p = bool_decide (j = i).
Proof.
  intros Hn. destruct (shard_regions_spec n Hn) as (regs & Hr & Hl & Hi). exists regs. split_and!; [done..|].
  intros [[|a p]] Hv Hne; [done|]. pose proof Hv as [_ Hf]. cbn in Hf. apply Forall_cons in Hf as [Ha _].
  destruct (shard_index_for_spec n (Z.to_nat a) Hn ltac:(lia)) as (i & Hs & Hin & Hj).
  exists a, i. split_and!; [done..|]. intros j r c Hjr. apply Hi in Hjr as [Hat Hjn].
  destruct (shard_region_at_spec n j Hn Hjn) as (start & count & r' & Erange & Hc & Hb & Eat & Hfr).
  rewrite Hat in Eat. injection Eat as -> ->. pose proof (Hj j start count Hjn Erange) as Hiff.
  apply from_page_id_descendants_spec in Hfr as (_ & _ & -> & _); [|by split; [vm_compute; lia|constructor]|lia|lia].
  unfold region_contains_exclusive. cbn [exclusive_min exclusive_max region_exclusive_min region_exclusive_max].
  change (path ROOT_PAGE_ID) with (@nil Z).
  rewrite (page_le_snoc [] _ _ p a eq_refl), (page_le_max [] (Z.of_nat (start + count - 1)) _ p a Hv ltac:(lia) eq_refl).
  apply eq_true_iff_eq. rewrite bool_decide_eq_true, <-Hiff, andb_true_iff, !Z.leb_le. lia.
Qed.

(** C16: the shards of the page cache divide the pages below the root page.  For 1 to
    64 shards, every child of the root page has a shard index below the number of
    shards, and of the regions of the shards exactly the one at that index contains
    the pages below the child.  With no shard or more than 64, [shard_regions] panics. *)
Theorem shards_partition n :
  (0 < n ≤ 64 → ∃ regs, shard_regions n = Some regs ∧ length regs = n ∧
     ∀ p, valid p → p ≠ ROOT_PAGE_ID → ∃ a i,
       child_index_at_level p 0 = Some a ∧ shard_index_for n (Z.to_nat a) = Some i ∧ i < n ∧
       ∀ j r c, regs !! j = Some (r, c) → region_contains_exclusive r p = bool_decide (j = i)) ∧
  (n = 0 ∨ 64 < n → shard_regions n = None).
Proof.
  split.
  - apply shards_divide.
  - intros Hn. unfold shard_regions. destruct (Nat.eqb_spec n 0); [done|]. cbn [negb oassert mbind option_bind].
    apply mapM_None, Exists_exists. exists 64. split; [apply elem_of_seq; lia|].
    unfold shard_region_at, shard_range. change NUM_ROOT_CHILDREN with 64.
    rewrite (Nat.div_small 64 n), (Nat.mod_small 64 n) by lia. done.
Qed.

Lemma shards_partition_witness :
  ∃ regs, shard_regions 3 = Some regs ∧ length regs = 3 ∧
    ∃ a i, child_index_at_level {| path := [40; 7]%Z |} 0 = Some a ∧ shard_index_for 3 (Z.to_nat a) = Some i ∧ i < 3.
Proof.
  destruct (shards_partition 3) as [Hp _]. destruct (Hp ltac:(lia)) as (regs & Hr & Hl & Hi).
  exists regs. split_and!; [done..|].
  destruct (Hi {| path := [40; 7]%Z |}) as (a & i & ? & ? & ? & _).
  - split; [vm_compute; lia|]. repeat constructor; lia.
  - done.
  - by exists a, i.
Defined.

(** The pass of the whole page tree, split for two shards. *)
Definition root_pass : WritePass := {| wp_parent := None; wp_region := ShardRoot |}.

Lemma split_n_exclusive_witness :
  ∃ passes heap', split_n (Id := ShardIndex) root_pass [Shard 0; Shard 1] [] = Some (passes, heap') ∧
    length passes = 2.
Proof.
  eexists _, _. split; [reflexivity|].
  destruct (split_n_exclusive (wf := λ _, True) (ok := λ _, True) root_pass [Shard 0; Shard 1] [] _ _
    ltac:(repeat constructor) eq_refl) as [Hl _]. exact Hl.
Defined.

Lemma consume_last_witness :
  ∃ passes heap' heap'', split_n (Id := ShardIndex) root_pass [Shard 0; Shard 1] [] = Some (passes, heap') ∧
    consume_all (rev passes) heap' = Some ([None; Some root_pass], heap'').
Proof.
  eexists _, _. edestruct (consume_last (Id := ShardIndex) root_pass [Shard 0; Shard 1] []) as [h E];
    [reflexivity|done|apply Permutation_swap|]. exists h. split; [reflexivity|]. exact E.
Defined.
