(* ===== verification/PageCache.v ===== *)
(** * The page cache

    Models [PageCache] of [nomt/src/page_cache.rs]: the root page, and for every shard
    of the page tree the pages of the upper levels, which are kept, and a cache of
    bounded size with the least recently used pages evicted.  The LRU cache is a
    library; [LruCache] has the operations the code calls and [LruLaws] what they are
    documented to do. *)

From S2P Require Import Prelude Trie PageId Wal Overlay PageRegion.

#[local] Open Scope nat_scope.

(** ** The LRU cache of the [lru] crate *)

Class LruCache (L V : Type) := {
  lru_unbounded : L;
  lru_get : PageId → L → option V * L;
  lru_get_or_insert : PageId → V → L → V * L;
  lru_put : PageId → V → L → L;
  lru_pop : PageId → L → L;
  lru_pop_lru : L → L;
  lru_len : L → nat;
}.

Class LruLaws (L V : Type) `{LruCache L V} := {
  lru_contents : L → gmap PageId V;
  lru_unbounded_ok : lru_contents lru_unbounded = ∅;
  lru_get_ok k l : (lru_get k l).1 = lru_contents l !! k ∧ lru_contents (lru_get k l).2 = lru_contents l;
  lru_get_or_insert_ok k v l :
    lru_get_or_insert k v l = (default v (lru_contents l !! k), (lru_get_or_insert k v l).2) ∧
    lru_contents (lru_get_or_insert k v l).2 = <[k := default v (lru_contents l !! k)]> (lru_contents l);
  lru_put_ok k v l : lru_contents (lru_put k v l) = <[k := v]> (lru_contents l);
  lru_pop_ok k l : lru_contents (lru_pop k l) = delete k (lru_contents l);
  lru_pop_lru_ok l : ∃ k, lru_contents (lru_pop_lru l) = delete k (lru_contents l) ∧
    (lru_contents l ≠ ∅ → is_Some (lru_contents l !! k));
  lru_len_ok l : lru_len l = size (lru_contents l);
}.

(** ** The cache *)

Record CacheEntry := { page_data : list u8; bucket_index : Z }.

Section cache.
Context `{LruCache L CacheEntry}.

Record CacheShard := {
  cs_region : PageRegion;
  cs_fixed_level_cache : gmap PageId CacheEntry;
  cs_cached : L;
  cs_page_limit : nat;
}.

Definition shard_with (fixed : gmap PageId CacheEntry) (cached : L) (s : CacheShard) : CacheShard :=
  {| cs_region := cs_region s; cs_fixed_level_cache := fixed; cs_cached := cached;
     cs_page_limit := cs_page_limit s |}.

Definition shard_get (fixed_levels : nat) (page_id : PageId) (self : CacheShard) :
    option CacheEntry * CacheShard :=
  if depth page_id <=? fixed_levels then (cs_fixed_level_cache self !! page_id, self)
  else
    let '(r, cached) := lru_get page_id (cs_cached self) in
    (r, shard_with (cs_fixed_level_cache self) cached self).

Definition shard_get_or_insert (fixed_levels : nat) (page_id : PageId) (entry : CacheEntry)
    (self : CacheShard) : CacheEntry * CacheShard :=
  if depth page_id <=? fixed_levels then
    match cs_fixed_level_cache self !! page_id with
    | Some e => (e, self)
    | None => (entry, shard_with (<[page_id := entry]> (cs_fixed_level_cache self)) (cs_cached self) self)
    end
  else
    let '(e, cached) := lru_get_or_insert page_id entry (cs_cached self) in
    (e, shard_with (cs_fixed_level_cache self) cached self).

Definition shard_insert (fixed_levels : nat) (page_id : PageId) (entry : CacheEntry)
    (self : CacheShard) : CacheShard :=
  if depth page_id <=? fixed_levels then
    shard_with (<[page_id := entry]> (cs_fixed_level_cache self)) (cs_cached self) self
  else shard_with (cs_fixed_level_cache self) (lru_put page_id entry (cs_cached self)) self.

Definition shard_remove (fixed_levels : nat) (page_id : PageId) (self : CacheShard) : CacheShard :=
  if depth page_id <=? fixed_levels then
    shard_with (delete page_id (cs_fixed_level_cache self)) (cs_cached self) self
  else shard_with (cs_fixed_level_cache self) (lru_pop page_id (cs_cached self)) self.

(** [while self.cached.len() > limit.get()]; every iteration removes an entry. *)
Fixpoint evict_loop (fuel : nat) (limit : nat) (cached : L) : L :=
  match fuel with
  | 0 => cached
  | S fuel' => if limit <? lru_len cached then evict_loop fuel' limit (lru_pop_lru cached) else cached
  end.

Definition shard_evict (limit : nat) (self : CacheShard) : CacheShard :=
  shard_with (cs_fixed_level_cache self)
    (evict_loop (lru_len (cs_cached self)) limit (cs_cached self)) self.

Record PageCache := {
  pc_shards : list CacheShard;
  pc_root_page : option CacheEntry;
  pc_fixed_levels : nat;
}.

(** [NonZeroUsize::new(..).unwrap()] panics on zero. *)
Definition make_shards (num_shards page_cache_size : nat) : option (list CacheShard) :=
  let cache_page_limit := (Z.of_nat page_cache_size * 1024 * 1024 / Z.of_nat PAGE_SIZE)%Z in
  let page_limit_per_root_child := Z.to_nat (cache_page_limit / 64) in
  let? _ := oassert (0 <? num_shards) in
  let? regions := shard_regions num_shards in
  mapM (λ '(region, count),
    let? _ := oassert (negb (page_limit_per_root_child * count =? 0)) in
    Some {| cs_region := region; cs_fixed_level_cache := ∅; cs_cached := lru_unbounded;
            cs_page_limit := page_limit_per_root_child * count |}) regions.

Definition PageCache_new (root_page_data : option (list u8 * Z))
    (commit_concurrency page_cache_size page_cache_upper_levels : nat) : option PageCache :=
  let? shards := make_shards commit_concurrency page_cache_size in
  Some {| pc_shards := shards;
          pc_root_page := (λ p, {| page_data := p.1; bucket_index := p.2 |}) <$> root_page_data;
          pc_fixed_levels := page_cache_upper_levels |}.

(** [None] is a panic; the root page is in no shard. *)
Definition cache_shard_index_for (self : PageCache) (page_id : PageId) : option (option nat) :=
  if bool_decide (page_id = ROOT_PAGE_ID) then Some None
  else
    let? first_ancestor := child_index_at_level page_id 0 in
    let? shard_index := shard_index_for (length (pc_shards self)) (Z.to_nat first_ancestor) in
    let? shard := pc_shards self !! shard_index in
    let? _ := oassert (region_contains_exclusive (cs_region shard) page_id) in
    Some (Some shard_index).

Definition set_shard (i : nat) (s : CacheShard) (self : PageCache) : PageCache :=
  {| pc_shards := <[i := s]> (pc_shards self); pc_root_page := pc_root_page self;
     pc_fixed_levels := pc_fixed_levels self |}.

Definition set_root_page (e : option CacheEntry) (self : PageCache) : PageCache :=
  {| pc_shards := pc_shards self; pc_root_page := e; pc_fixed_levels := pc_fixed_levels self |}.

Definition cache_get (page_id : PageId) (self : PageCache) : option (option CacheEntry * PageCache) :=
  let? shard_index := cache_shard_index_for self page_id in
  match shard_index with
  | None => Some (pc_root_page self, self)
  | Some i =>
      let? shard := pc_shards self !! i in
      let '(r, shard) := shard_get (pc_fixed_levels self) page_id shard in
      Some (r, set_shard i shard self)
  end.

Definition cache_insert (page_id : PageId) (page : list u8) (bucket_index : Z) (self : PageCache) :
    option (list u8 * PageCache) :=
  let? shard_index := cache_shard_index_for self page_id in
  let entry := {| page_data := page; bucket_index := bucket_index |} in
  match shard_index with
  | None =>
      match pc_root_page self with
      | Some root_page => Some (page_data root_page, self)
      | None => Some (page, set_root_page (Some entry) self)
      end
  | Some i =>
      let? shard := pc_shards self !! i in
      let '(e, shard) := shard_get_or_insert (pc_fixed_levels self) page_id entry shard in
      Some (page_data e, set_shard i shard self)
  end.

Fixpoint batch_update (updated_pages : list (PageId * option CacheEntry)) (self : PageCache) :
    option PageCache :=
  match updated_pages with
  | [] => Some self
  | (page_id, maybe_page) :: updated_pages' =>
      if bool_decide (page_id = ROOT_PAGE_ID) then batch_update updated_pages' (set_root_page maybe_page self)
      else
        let? shard_index := cache_shard_index_for self page_id in
        let? i := shard_index in
        let? shard := pc_shards self !! i in
        let shard :=
          match maybe_page with
          | Some entry => shard_insert (pc_fixed_levels self) page_id entry shard
          | None => shard_remove (pc_fixed_levels self) page_id shard
          end in
        batch_update updated_pages' (set_shard i shard self)
  end.

Definition cache_evict (self : PageCache) : PageCache :=
  {| pc_shards := (λ s, shard_evict (cs_page_limit s) s) <$> pc_shards self;
     pc_root_page := pc_root_page self; pc_fixed_levels := pc_fixed_levels self |}.
End cache.
Arguments CacheShard : clear implicits.
Arguments PageCache : clear implicits.

(** ** The contents of a cache *)

Section spec.
Context `{LruLaws L CacheEntry}.

Definition shard_contents (fixed_levels : nat) (s : CacheShard L) (p : PageId) : option CacheEntry :=
  if depth p <=? fixed_levels then cs_fixed_level_cache s !! p else lru_contents (cs_cached s) !! p.

(** The shard of a page, by the number of shards. *)
Definition home (n : nat) (p : PageId) : option nat :=
  let? a := child_index_at_level p 0 in shard_index_for n (Z.to_nat a).

Definition contents (c : PageCache L) (p : PageId) : option CacheEntry :=
  if bool_decide (p = ROOT_PAGE_ID) then pc_root_page c
  else let? i := home (length (pc_shards c)) p in
       let? s := pc_shards c !! i in shard_contents (pc_fixed_levels c) s p.

(** The shards have the regions [shard_regions] gives. *)
Definition cache_ok (c : PageCache L) : Prop :=
  0 < length (pc_shards c) ≤ 64 ∧
  ∃ regs, shard_regions (length (pc_shards c)) = Some regs ∧ cs_region <$> pc_shards c = regs.*1.

Lemma cache_shard_index_for_spec c p :
  cache_ok c → valid p → p ≠ ROOT_PAGE_ID →
  ∃ i s, home (length (pc_shards c)) p = Some i ∧ pc_shards c !! i = Some s ∧
    cache_shard_index_for c p = Some (Some i).
Proof.
  intros (Hn & regs & Hr & Hregs) Hp Hne.
  destruct (shards_divide (length (pc_shards c)) Hn) as (regs' & Hr' & Hl & Hi).
  rewrite Hr in Hr'. injection Hr' as <-. destruct (Hi p Hp Hne) as (a & i & Ha & Hs & Hin & Hj).
  destruct (lookup_lt_is_Some_2 (pc_shards c) i Hin) as [s Es]. exists i, s.
  unfold home, cache_shard_index_for. rewrite Ha. cbn [mbind option_bind]. split_and!; [done..|].
  rewrite bool_decide_eq_false_2 by done. rewrite Hs. cbn [mbind option_bind]. rewrite Es. cbn [mbind option_bind].
  assert (Ereg : (cs_region <$> pc_shards c) !! i = Some (cs_region s)) by (by rewrite list_lookup_fmap, Es).
  rewrite Hregs, list_lookup_fmap in Ereg. destruct (regs !! i) as [[r cnt]|] eqn:E; [|done].
  injection Ereg as <-. by rewrite (Hj i r cnt E), bool_decide_eq_true_2.
Qed.

Lemma contents_shard c p i s :
  p ≠ ROOT_PAGE_ID → home (length (pc_shards c)) p = Some i → pc_shards c !! i = Some s →
  contents c p = shard_contents (pc_fixed_levels c) s p.
Proof. intros Hne Hh Hs. unfold contents. rewrite bool_decide_eq_false_2, Hh by done. cbn. by rewrite Hs. Qed.

Lemma contents_root c : contents c ROOT_PAGE_ID = pc_root_page c.
Proof. done. Qed.

(** Replacing a shard by one whose contents differ at one of its pages at most. *)
Lemma contents_set_shard c p i s s' q :
  p ≠ ROOT_PAGE_ID → home (length (pc_shards c)) p = Some i → pc_shards c !! i = Some s →
  (∀ q, q ≠ p → shard_contents (pc_fixed_levels c) s' q = shard_contents (pc_fixed_levels c) s q) →
  contents (set_shard i s' c) q =
    if decide (q = p) then shard_contents (pc_fixed_levels c) s' p else contents c q.
Proof.
  intros Hne Hh Hs Hq. pose proof (lookup_lt_Some _ _ _ Hs). unfold contents, set_shard. cbn [pc_shards pc_root_page pc_fixed_levels].
  rewrite length_insert. destruct (decide (q = p)) as [->|Hqp].
  - rewrite bool_decide_eq_false_2, Hh by done. cbn. by rewrite list_lookup_insert_eq.
  - case_bool_decide; [done|]. destruct (home _ q) as [j|]; [cbn [mbind option_bind]|done].
    destruct (decide (i = j)) as [<-|Hij]; [|by rewrite list_lookup_insert_ne].
    rewrite list_lookup_insert_eq, Hs by done. cbn. by apply Hq.
Qed.

Lemma set_shard_ok c i s s' :
  cache_ok c → pc_shards c !! i = Some s → cs_region s' = cs_region s → cache_ok (set_shard i s' c).
Proof.
  intros (Hn & regs & Hr & Hregs) Hs E. unfold cache_ok, set_shard. cbn [pc_shards]. rewrite length_insert.
  split; [done|]. exists regs. split; [done|]. rewrite <-Hregs, list_fmap_insert, E.
  apply list_insert_id. by rewrite list_lookup_fmap, Hs.
Qed.

(** The operations of a shard. *)
Ltac shard_case := unfold shard_contents, shard_with; cbn [cs_fixed_level_cache cs_cached cs_region];
  repeat match goal with |- context [depth ?q <=? ?n] => destruct (depth q <=? n) eqn:? end.

Lemma shard_get_spec n p s :
  ∃ s', shard_get n p s = (shard_contents n s p, s') ∧ cs_region s' = cs_region s ∧
    ∀ q, shard_contents n s' q = shard_contents n s q.
Proof.
  unfold shard_get. destruct (depth p <=? n) eqn:E.
  - exists s. unfold shard_contents at 1. by rewrite E.
  - destruct (lru_get_ok p (cs_cached s)) as [E1 E2]. destruct (lru_get p (cs_cached s)) as [r l]. cbn in *.
    eexists. unfold shard_contents at 1. rewrite E, E1. split_and!; [done..|].
    intros q. shard_case; [done|]. by rewrite E2.
Qed.

Lemma shard_get_or_insert_spec n p e s :
  ∃ s', shard_get_or_insert n p e s = (default e (shard_contents n s p), s') ∧ cs_region s' = cs_region s ∧
    ∀ q, shard_contents n s' q =
      if decide (q = p) then Some (default e (shard_contents n s p)) else shard_contents n s q.
Proof.
  unfold shard_get_or_insert. destruct (shard_contents n s p) as [v|] eqn:Ev; unfold shard_contents in Ev;
    destruct (depth p <=? n) eqn:E.
  1, 3: rewrite Ev; eexists; (split_and!; [done..|]); intros q; destruct (decide (q = p)) as [->|]; shard_case;
    try congruence; by rewrite ?lookup_insert_eq, ?lookup_insert_ne.
  all: destruct (lru_get_or_insert_ok p e (cs_cached s)) as [E1 E2].
  all: destruct (lru_get_or_insert p e (cs_cached s)) as [r l]; cbn in *; injection E1 as ->; rewrite Ev in *.
  all: eexists; (split_and!; [done..|]); intros q; destruct (decide (q = p)) as [->|]; shard_case; try congruence; cbn.
  all: by rewrite E2, ?lookup_insert_eq, ?lookup_insert_ne.
Qed.

Lemma shard_insert_spec n p e s :
  cs_region (shard_insert n p e s) = cs_region s ∧
  ∀ q, shard_contents n (shard_insert n p e s) q = if decide (q = p) then Some e else shard_contents n s q.
Proof.
  unfold shard_insert. destruct (depth p <=? n) eqn:E; (split; [done|]); intros q;
    destruct (decide (q = p)) as [->|]; shard_case; try congruence; rewrite ?lru_put_ok.
  all: by rewrite ?lookup_insert_eq, ?lookup_insert_ne.
Qed.

Lemma shard_remove_spec n p s :
  cs_region (shard_remove n p s) = cs_region s ∧
  ∀ q, shard_contents n (shard_remove n p s) q = if decide (q = p) then None else shard_contents n s q.
Proof.
  unfold shard_remove. destruct (depth p <=? n) eqn:E; (split; [done|]); intros q;
    destruct (decide (q = p)) as [->|]; shard_case; try congruence; rewrite ?lru_pop_ok.
  all: by rewrite ?lookup_delete_eq, ?lookup_delete_ne.
Qed.

Lemma evict_loop_spec fuel limit l :
  lru_len l ≤ fuel + limit →
  lru_len (evict_loop fuel limit l) ≤ limit ∧ lru_contents (evict_loop fuel limit l) ⊆ lru_contents l.
Proof.
  revert l. induction fuel as [|fuel IH]; intros l Hl; cbn [evict_loop]; [by split; [lia|reflexivity]|].
  destruct (Nat.ltb_spec limit (lru_len l)) as [Hlt|]; [|by split; [lia|reflexivity]].
  destruct (lru_pop_lru_ok l) as (k & Hk & Hin). rewrite !lru_len_ok in *.
  assert (Hne : lru_contents l ≠ ∅) by (intros E; rewrite E, map_size_empty in Hlt; lia).
  specialize (Hin Hne). destruct (IH (lru_pop_lru l)) as [H1 H2].
  { rewrite lru_len_ok, Hk, map_size_delete_Some by done. lia. }
  split; [by rewrite lru_len_ok in H1|]. etrans; [exact H2|]. rewrite Hk. apply fin_maps.delete_subseteq.
Qed.

Lemma shard_evict_spec n s :
  let s' := shard_evict (cs_page_limit s) s in
  cs_region s' = cs_region s ∧ lru_len (cs_cached s') ≤ cs_page_limit s' ∧
  ∀ q, shard_contents n s' q = shard_contents n s q ∨ n < depth q ∧ shard_contents n s' q = None.
Proof.
  cbn. destruct (evict_loop_spec (lru_len (cs_cached s)) (cs_page_limit s) (cs_cached s)) as [Hl Hs]; [lia|].
  split_and!; [done..|]. intros q. unfold shard_contents. cbn.
  destruct (Nat.leb_spec (depth q) n); [by left|].
  destruct (lru_contents (evict_loop _ _ _) !! q) as [e|] eqn:E; [left|by right].
  symmetry. by eapply lookup_weaken.
Qed.

(** ** Refinement *)

Inductive cache_op :=
| CGet (p : PageId)
| CInsert (p : PageId) (page : list u8) (bucket : Z)
| CBatch (updated_pages : list (PageId * option CacheEntry))
| CEvict.

Inductive cache_result := CEntry (e : option CacheEntry) | CPage (page : list u8) | CUnit.

Definition cache_step (op : cache_op) (c : PageCache L) : option (cache_result * PageCache L) :=
  match op with
  | CGet p => let? (r, c) := cache_get p c in Some (CEntry r, c)
  | CInsert p page bucket => let? (r, c) := cache_insert p page bucket c in Some (CPage r, c)
  | CBatch ups => let? c := batch_update ups c in Some (CUnit, c)
  | CEvict => Some (CUnit, cache_evict c)
  end.

Fixpoint cache_run (ops : list cache_op) (c : PageCache L) : option (list cache_result * PageCache L) :=
  match ops with
  | [] => Some ([], c)
  | op :: ops' =>
      let? (r, c) := cache_step op c in
      let? (rs, c) := cache_run ops' c in
      Some (r :: rs, c)
  end.

Definition op_ids (op : cache_op) : list PageId :=
  match op with CGet p | CInsert p _ _ => [p] | CBatch ups => ups.*1 | CEvict => [] end.

(** The abstract cache: a partial map, which an eviction may restrict below the
    upper levels. *)
Definition cache_map := PageId → option CacheEntry.

Definition map_set (p : PageId) (e : option CacheEntry) (M : cache_map) : cache_map :=
  λ q, if decide (q = p) then e else M q.

Definition cache_spec (fixed_levels : nat) (M : cache_map) (op : cache_op) (r : cache_result) (M' : cache_map) : Prop :=
  match op with
  | CGet p => r = CEntry (M p) ∧ ∀ q, M' q = M q
  | CInsert p page bucket =>
      let e := default {| page_data := page; bucket_index := bucket |} (M p) in
      r = CPage (page_data e) ∧ ∀ q, M' q = map_set p (Some e) M q
  | CBatch ups => r = CUnit ∧ ∀ q, M' q = foldl (λ M '(p, e), map_set p e M) M ups q
  | CEvict => r = CUnit ∧ ∀ q, M' q = M q ∨ fixed_levels < depth q ∧ M' q = None
  end.

Inductive cache_trace (fixed_levels : nat) : cache_map → list cache_op → list cache_result → Prop :=
| trace_nil M : cache_trace fixed_levels M [] []
| trace_cons M op r M' ops rs :
    cache_spec fixed_levels M op r M' → cache_trace fixed_levels M' ops rs →
    cache_trace fixed_levels M (op :: ops) (r :: rs).

Lemma batch_update_spec ups c :
  cache_ok c → Forall valid ups.*1 →
  ∃ c', batch_update ups c = Some c' ∧ cache_ok c' ∧ pc_fixed_levels c' = pc_fixed_levels c ∧
    ∀ q, contents c' q = foldl (λ M '(p, e), map_set p e M) (contents c) ups q.
Proof.
  assert (Hext : ∀ ups M M', (∀ q, M q = M' q) → ∀ q,
    foldl (λ (M : cache_map) '(p, e), map_set p e M) M ups q = foldl (λ (M : cache_map) '(p, e), map_set p e M) M' ups q).
  { clear. intros ups. induction ups as [|[p e] ups IH]; intros M M' HM q; [done|]. simpl. apply IH.
    intros q'. unfold map_set. by rewrite HM. }
  revert c. induction ups as [|[p e] ups IH]; intros c Hok Hf; [by exists c|].
  apply Forall_cons in Hf as [Hp Hf]. cbn [batch_update foldl]. destruct (decide (p = ROOT_PAGE_ID)) as [->|Hne].
  - rewrite bool_decide_eq_true_2 by done. destruct (IH (set_root_page e c) Hok Hf) as (c' & -> & Hok' & Hfl & Hc).
    exists c'. split_and!; [done..|]. intros q. rewrite Hc. apply Hext. intros q'. unfold map_set, contents.
    cbn. by destruct (decide (q' = ROOT_PAGE_ID)); case_bool_decide.
  - rewrite bool_decide_eq_false_2 by done.
    destruct (cache_shard_index_for_spec c p Hok Hp Hne) as (i & s & Hh & Hs & ->). cbn [mbind option_bind].
    rewrite Hs. cbn [mbind option_bind].
    set (s' := match e with Some entry => _ | None => _ end).
    assert (Hs' : cs_region s' = cs_region s ∧ ∀ q, shard_contents (pc_fixed_levels c) s' q =
      if decide (q = p) then e else shard_contents (pc_fixed_levels c) s q).
    { subst s'. destruct e; [apply shard_insert_spec|apply shard_remove_spec]. }
    destruct Hs' as [Hreg Hcont].
    destruct (IH (set_shard i s' c)) as (c' & -> & Hok' & Hfl & Hc); [by eapply set_shard_ok|done|].
    exists c'. split_and!; [done..|]. intros q. rewrite Hc. apply Hext. intros q'.
    rewrite (contents_set_shard c p i s s') by (try done; intros x Hx; by rewrite Hcont, decide_False).
    unfold map_set. destruct (decide (q' = p)); [|done]. by rewrite Hcont, decide_True.
Qed.

Definition evicted (c : PageCache L) : Prop :=
  Forall (λ s, lru_len (cs_cached s) ≤ cs_page_limit s) (pc_shards c).

Lemma cache_get_spec p c :
  cache_ok c → valid p → ∃ c', cache_get p c = Some (contents c p, c') ∧ cache_ok c' ∧
    pc_fixed_levels c' = pc_fixed_levels c ∧ ∀ q, contents c' q = contents c q.
Proof.
  intros Hok Hp. unfold cache_get. destruct (decide (p = ROOT_PAGE_ID)) as [->|Hne].
  { exists c. by split_and!. }
  destruct (cache_shard_index_for_spec c p Hok Hp Hne) as (i & s & Hh & Hs & ->). cbn [mbind option_bind].
  rewrite Hs. cbn [mbind option_bind].
  destruct (shard_get_spec (pc_fixed_levels c) p s) as (s' & -> & Hreg & Hc).
  eexists. rewrite (contents_shard c p i s) by done. split_and!; [done|by eapply set_shard_ok|done|].
  intros q. rewrite (contents_set_shard c p i s s') by done. destruct (decide (q = p)) as [->|]; [|done].
  rewrite Hc. by rewrite (contents_shard c p i s).
Qed.

Lemma cache_insert_spec p page b c :
  cache_ok c → valid p →
  let e := default {| page_data := page; bucket_index := b |} (contents c p) in
  ∃ c', cache_insert p page b c = Some (page_data e, c') ∧ cache_ok c' ∧
    pc_fixed_levels c' = pc_fixed_levels c ∧ ∀ q, contents c' q = map_set p (Some e) (contents c) q.
Proof.
  intros Hok Hp. cbv zeta. unfold cache_insert. destruct (decide (p = ROOT_PAGE_ID)) as [->|Hne].
  { unfold cache_shard_index_for. rewrite bool_decide_eq_true_2, contents_root by done. cbn [mbind option_bind].
    destruct (pc_root_page c) as [e|] eqn:E; eexists; (split_and!; [done..|]); intros q; unfold map_set, contents; cbn.
    all: destruct (decide (q = ROOT_PAGE_ID)); case_bool_decide; done. }
  destruct (cache_shard_index_for_spec c p Hok Hp Hne) as (i & s & Hh & Hs & ->). cbn [mbind option_bind].
  rewrite Hs. cbn [mbind option_bind].
  destruct (shard_get_or_insert_spec (pc_fixed_levels c) p {| page_data := page; bucket_index := b |} s)
    as (s' & -> & Hreg & Hc).
  eexists. rewrite (contents_shard c p i s) by done. split_and!; [done|by eapply set_shard_ok|done|].
  intros q. rewrite (contents_set_shard c p i s s') by (try done; intros x Hx; by rewrite Hc, decide_False).
  unfold map_set. destruct (decide (q = p)) as [->|]; [|done]. by rewrite Hc, decide_True.
Qed.

Lemma cache_evict_spec c :
  cache_ok c → cache_ok (cache_evict c) ∧ evicted (cache_evict c) ∧
  ∀ q, contents (cache_evict c) q = contents c q ∨
    pc_fixed_levels c < depth q ∧ contents (cache_evict c) q = None.
Proof.
  intros (Hn & regs & Hr & Hregs). unfold cache_ok, cache_evict, evicted. cbn [pc_shards]. rewrite length_fmap.
  split; [split; [done|]|split].
  - exists regs. by rewrite <-Hregs, <-list_fmap_compose.
  - apply Forall_fmap, list.Forall_forall. intros s _. by destruct (shard_evict_spec 0 s) as (_ & ? & _).
  - intros q. unfold contents. cbn. rewrite length_fmap. case_bool_decide; [by left|].
    destruct (home _ q) as [i|]; [cbn|by left]. rewrite list_lookup_fmap.
    destruct (pc_shards c !! i) as [s|]; [cbn|by left].
    destruct (shard_evict_spec (pc_fixed_levels c) s) as (_ & _ & Hq). apply Hq.
Qed.

Lemma cache_step_spec op c :
  cache_ok c → Forall valid (op_ids op) →
  ∃ r c', cache_step op c = Some (r, c') ∧ cache_ok c' ∧ pc_fixed_levels c' = pc_fixed_levels c ∧
    cache_spec (pc_fixed_levels c) (contents c) op r (contents c') ∧ (op = CEvict → evicted c').
Proof.
  intros Hok Hv. destruct op as [p|p page b|ups|]; cbn [op_ids cache_step cache_spec] in *.
  - apply Forall_cons in Hv as [Hv _]. destruct (cache_get_spec p c Hok Hv) as (c' & -> & ? & ? & ?).
    eexists _, c'. by split_and!.
  - apply Forall_cons in Hv as [Hv _]. destruct (cache_insert_spec p page b c Hok Hv) as (c' & -> & ? & ? & ?).
    eexists _, c'. by split_and!.
  - destruct (batch_update_spec ups c Hok Hv) as (c' & -> & ? & ? & ?). eexists _, c'. by split_and!.
  - destruct (cache_evict_spec c Hok) as (? & ? & ?). eexists _, _. by split_and!.
Qed.

Lemma PageCache_new_spec root n size upper :
  0 < n ≤ 64 → 0 < size →
  ∃ c, PageCache_new root n size upper = Some c ∧ cache_ok c ∧ pc_fixed_levels c = upper ∧
    ∀ p, contents c p = if bool_decide (p = ROOT_PAGE_ID)
      then (λ x, {| page_data := x.1; bucket_index := x.2 |}) <$> root else None.
Proof.
  intros Hn Hs. unfold PageCache_new, make_shards. rewrite (proj2 (Nat.ltb_lt _ _)) by lia. cbn [oassert mbind option_bind].
  destruct (shard_regions_spec n Hn) as (regs & Hr & Hl & Hcount). rewrite Hr. cbn [mbind option_bind].
  set (limit := Z.to_nat _).
  assert (Hlim : 0 < limit).
  { subst limit. change (Z.of_nat PAGE_SIZE) with 4096%Z.
    replace (Z.of_nat size * 1024 * 1024)%Z with (Z.of_nat size * 256 * 4096)%Z by lia.
    rewrite Z.div_mul by lia. replace (Z.of_nat size * 256)%Z with (Z.of_nat size * 4 * 64)%Z by lia.
    rewrite Z.div_mul by lia. lia. }
  set (f := λ '(region, count), _).
  assert (Hf : ∃ shards, mapM f regs = Some shards ∧ cs_region <$> shards = regs.*1 ∧
    Forall (λ s : CacheShard L, cs_fixed_level_cache s = ∅ ∧ cs_cached s = lru_unbounded) shards).
  { assert (Hpos : Forall (λ rc : PageRegion * nat, 0 < rc.2) regs).
    { apply Forall_lookup. intros i [r cnt] Hi. apply Hcount in Hi as [Hat Hin].
      destruct (shard_region_at_spec n i Hn Hin) as (? & ? & ? & _ & ? & _ & E & _).
      rewrite Hat in E. by injection E as -> ->. }
    clear Hr Hl Hcount. induction Hpos as [|[r cnt] regs Hc _ (shards & IH1 & IH2 & IH3)]; [by exists []|].
    assert (Ef : ∃ s, f (r, cnt) = Some s ∧ cs_region s = r ∧ cs_fixed_level_cache s = ∅ ∧ cs_cached s = lru_unbounded).
    { unfold f. cbv beta iota. rewrite (proj2 (Nat.eqb_neq _ _)) by (simpl in Hc; nia). by eexists. }
    destruct Ef as (s & Ef & Es & ? & ?). clearbody f. exists (s :: shards). cbn [mapM]. rewrite Ef, IH1.
    rewrite !fmap_cons, Es, IH2. by split_and!; [..|constructor]. }
  destruct Hf as (shards & -> & Hreg & Hemp). cbn [mbind option_bind]. eexists. split; [done|].
  assert (Hln : length shards = n) by (by rewrite <-(length_fmap cs_region), Hreg, length_fmap).
  split_and!; [|done|].
  - unfold cache_ok. cbn. rewrite Hln. split; [done|]. by exists regs.
  - intros p. unfold contents. cbn. case_bool_decide; [done|]. destruct (home _ p) as [i|]; [cbn|done].
    destruct (shards !! i) as [s|] eqn:E; [cbn|done]. rewrite Forall_lookup in Hemp.
    destruct (Hemp i s E) as [E1 E2]. unfold shard_contents. rewrite E1, E2, lru_unbounded_ok. by case_match.
Qed.

Lemma cache_run_spec ops c :
  cache_ok c → Forall (λ op, Forall valid (op_ids op)) ops →
  ∃ rs c', cache_run ops c = Some (rs, c') ∧ cache_trace (pc_fixed_levels c) (contents c) ops rs ∧
    (last ops = Some CEvict → evicted c').
Proof.
  intros Hok Hf. revert c Hok. induction Hf as [|op ops Hv Hf IH]; intros c Hok.
  { eexists _, _. split_and!; [done|constructor|done]. }
  destruct (cache_step_spec op c Hok Hv) as (r & c1 & Hr & Hok1 & Hfl & Hs & He1).
  destruct (IH c1 Hok1) as (rs & c2 & Hrs & Ht & He). rewrite Hfl in Ht.
  exists (r :: rs), c2. cbn [cache_run]. rewrite Hr. cbn [mbind option_bind]. rewrite Hrs.
  split_and!; [done|by econstructor|]. destruct ops as [|op' ops]; [|done].
  injection Hrs as <- <-. intros [= ->]. by apply He1.
Qed.

(** C13: the page cache is a map with evictions.  A cache with 1 to 64 shards and a size
    of at least one starts with the root page alone.  Any sequence of [get], [insert], [batch_update] and
    [evict] then runs without a panic and answers like a partial map from page ids to
    pages, in which [insert] keeps a page that is present, [batch_update] replaces
    pages, and [evict] may forget pages, but none of the upper levels: whatever the
    shards and the LRU order, a page is found as it was last stored or not at all.
    After an [evict] at the end, every shard is within its page limit. *)
Theorem page_cache_refinement root n size upper ops :
  0 < n ≤ 64 → 0 < size → Forall (λ op, Forall valid (op_ids op)) ops →
  ∃ c rs c', PageCache_new root n size upper = Some c ∧ cache_run ops c = Some (rs, c') ∧
    ∃ M, (∀ p, M p = if bool_decide (p = ROOT_PAGE_ID)
       then (λ x, {| page_data := x.1; bucket_index := x.2 |}) <$> root else None) ∧
      cache_trace upper M ops rs ∧ (last ops = Some CEvict → evicted c').
Proof.
  intros Hn Hs Hv. destruct (PageCache_new_spec root n size upper Hn Hs) as (c & Hc & Hok & Hfl & Hcont).
  destruct (cache_run_spec ops c Hok Hv) as (rs & c' & Hr & Ht & He). exists c, rs, c'. split_and!; [done..|].
  exists (contents c). by rewrite <-Hfl.
Qed.

End spec.

(** ** A list as an LRU cache *)

(** The most recently used entry first. *)
#[global] Instance list_lru {V} : LruCache (list (PageId * V)) V := {
  lru_unbounded := [];
  lru_get k l :=
    match (list_to_map l : gmap PageId V) !! k with
    | Some v => (Some v, (k, v) :: filter (λ x, x.1 ≠ k) l)
    | None => (None, l)
    end;
  lru_get_or_insert k v l :=
    let v' := default v ((list_to_map l : gmap PageId V) !! k) in
    (v', (k, v') :: filter (λ x, x.1 ≠ k) l);
  lru_put k v l := (k, v) :: filter (λ x, x.1 ≠ k) l;
  lru_pop k l := filter (λ x, x.1 ≠ k) l;
  lru_pop_lru l := match last l with Some x => filter (λ y, y.1 ≠ x.1) l | None => l end;
  lru_len l := size (list_to_map l : gmap PageId V);
}.

Lemma list_to_map_filter {V} k (l : list (PageId * V)) :
  (list_to_map (filter (λ x, x.1 ≠ k) l) : gmap PageId V) = delete k (list_to_map l).
Proof.
  induction l as [|[k' v] l IH]; [symmetry; apply delete_empty|]. rewrite filter_cons.
  case_decide as Hk; rewrite !list_to_map_cons, ?IH; cbn in Hk.
  - by rewrite delete_insert_ne.
  - subst. by rewrite delete_insert_eq.
Qed.

#[global] Instance list_lru_laws {V} : LruLaws (list (PageId * V)) V.
Proof.
  refine {| lru_contents := list_to_map |}.
  - done.
  - intros k l. cbn. destruct (list_to_map l !! k) as [v|] eqn:E; [|done]. split; [done|].
    cbn. rewrite list_to_map_filter, insert_delete_eq. by apply insert_id.
  - intros k v l. cbn. split; [done|]. by rewrite list_to_map_filter, insert_delete_eq.
  - intros k v l. cbn. by rewrite list_to_map_filter, insert_delete_eq.
  - intros k l. cbn. apply list_to_map_filter.
  - intros l. cbn. destruct (last l) as [[k v]|] eqn:E.
    + exists k. split; [apply list_to_map_filter|]. intros _. cbn.
      destruct (list_to_map l !! k) eqn:E2; [by eexists|]. apply not_elem_of_list_to_map_2 in E2.
      destruct E2. apply list_elem_of_fmap. exists (k, v). split; [done|]. by apply last_Some_elem_of.
    + apply last_None in E. subst l. exists ROOT_PAGE_ID. cbn. by rewrite delete_empty.
  - done.
Defined.

Definition sample_cache_ops : list cache_op :=
  [CInsert {| path := [3]%Z |} [x01] 7; CGet {| path := [3]%Z |}; CEvict; CGet ROOT_PAGE_ID;
   CBatch [({| path := [3]%Z |}, None)]; CGet {| path := [3]%Z |}].

Lemma page_cache_refinement_witness :
  ∃ c rs c', PageCache_new (L := list (PageId * CacheEntry)) (Some ([x02], 1%Z)) 2 1 1 = Some c ∧
    cache_run sample_cache_ops c = Some (rs, c').
Proof.
  destruct (page_cache_refinement (L := list (PageId * CacheEntry)) (Some ([x02], 1%Z)) 2 1 1 sample_cache_ops)
    as (c & rs & c' & ? & ? & _).
  - lia.
  - lia.
  - repeat constructor; vm_compute; lia || done.
  - by exists c, rs, c'.
Defined.
