(* ===== verification/Worker.v ===== *)
(** * The update workers

    Models [nomt/src/merkle/worker.rs], the shared state and the joining of the outputs
    in [nomt/src/merkle/mod.rs], and the records of [core/src/witness.rs].  The keys of
    an update are divided among workers by the shards of the page cache.  A worker
    seeks the terminal of each of its keys, hands what falls into the root page to a
    shared list, walks the pages below the root page, and hands the roots it computed
    to the list as well; the last worker to finish walks the root page.

    The seeker of a worker is a parameter: [seek] gives the result for a key, and a
    schedule says when results and room for requests are available. *)

From S2P Require Import Prelude Trie PageId Update TriePos PathProof PageDiff Wal BitboxSync PageWalker.
From S2P Require Import PageRegion.

#[local] Open Scope nat_scope.

(** ** [mod.rs] and [witness.rs]: the work and its results *)

Inductive KeyReadWrite :=
| Read
| Write (v : option ValueHash)
| ReadThenWrite (v : option ValueHash).

Definition is_write (self : KeyReadWrite) : bool :=
  match self with Read => false | Write _ | ReadThenWrite _ => true end.

Definition is_read (self : KeyReadWrite) : bool :=
  match self with Read | ReadThenWrite _ => true | Write _ => false end.

Definition written_value (self : KeyReadWrite) : option (option ValueHash) :=
  match self with Read => None | Write v | ReadThenWrite v => Some v end.

Record Seek := {
  seek_key : KeyPath;
  seek_position : TriePosition;
  seek_page_id : option PageId;
  seek_siblings : list Node;
  seek_terminal : option LeafData;
}.

Inductive RootPagePending :=
| SubTrie (range_start range_end : nat) (prev_terminal : option LeafData)
| PendingNode (node : Node).

Record WitnessedPath := { wpath_inner : PathProof; wpath_path : TriePosition }.
Record WitnessedRead := { read_key : KeyPath; read_value : option ValueHash; read_path_index : nat }.
Record WitnessedWrite := { write_key : KeyPath; write_value : option ValueHash; write_path_index : nat }.
Record WitnessedOperations := { reads : list WitnessedRead; writes : list WitnessedWrite }.
Record Witness := { path_proofs : list WitnessedPath; operations : WitnessedOperations }.

Abbreviation read_write_t := (list (KeyPath * KeyReadWrite)).
Abbreviation pending_t := (list (TriePosition * RootPagePending)).
Abbreviation witnessed_t := (list (WitnessedPath * option LeafData * nat)).

Record WorkerOutput := {
  out_root : option Node;
  out_witnessed_paths : option witnessed_t;
  out_updated_pages : list UpdatedPage;
}.

Definition push_pending_root_nodes (nodes : list (TriePosition * Node)) (pending : pending_t) : pending_t :=
  pending ++ ((λ n, (n.1, PendingNode n.2)) <$> nodes).

Definition push_pending_subtrie (trie_pos : TriePosition) (range_start range_end : nat)
    (prev_terminal : option LeafData) (pending : pending_t) : pending_t :=
  pending ++ [(trie_pos, SubTrie range_start range_end prev_terminal)].

(** The order of [sort_unstable_by(|a, b| a.0.path().cmp(b.0.path()))]. *)
Definition by_path (a b : TriePosition * RootPagePending) : Prop :=
  bits_compare (TriePos.path a.1) (TriePos.path b.1) ≠ Gt.

#[global] Instance by_path_dec : RelDecision by_path.
Proof. intros a b. unfold by_path. apply _. Defined.

Definition take_root_pending (pending : pending_t) : pending_t := merge_sort by_path pending.

Definition subtrie_ops (read_write : read_write_t) : list (KeyPath * option ValueHash) :=
  omap (λ '(key, rw), match rw with
                      | Write val | ReadThenWrite val => Some (key, val)
                      | Read => None
                      end) read_write.

Section worker.
Context `{NodeHasher}.

(** ** [RangeUpdater] *)

Record RangeUpdater := {
  ru_region : PageRegion;
  ru_page_walker : PageWalker;
  ru_range_start : nat;
  ru_range_end : nat;
}.

(** [binary_search_by_key(..).unwrap_or_else(|i| i)] *)
Definition search_key (key : KeyPath) (read_write : read_write_t) : nat :=
  match binary_search_by (λ x : KeyPath * KeyReadWrite, bytes_compare x.1 key) read_write with
  | inl i | inr i => i
  end.

Definition RangeUpdater_new (root : Node) (read_write : read_write_t) (region : PageRegion) : RangeUpdater :=
  let key_range_start := min_key_path (exclusive_min region) in
  let key_range_end := max_key_path (exclusive_max region) in
  {| ru_region := region;
     ru_page_walker := walker_new root (Some ROOT_PAGE_ID);
     ru_range_start := search_key key_range_start read_write;
     ru_range_end := search_key key_range_end read_write |}.

(** What a worker changes: the shared list, its walker and its output. *)
Record WorkerState := {
  ws_pending : pending_t;
  ws_page_walker : PageWalker;
  ws_witnessed_paths : option witnessed_t;
}.

(** The [for] loop that finds the size of a batch. *)
Fixpoint find_batch (position : TriePosition) (read_write : read_write_t) : nat * bool :=
  match read_write with
  | [] => (0, false)
  | (k, v) :: read_write' =>
      if subtrie_contains position k then
        let '(batch_size, has_writes) := find_batch position read_write' in
        (S batch_size, is_write v || has_writes)
      else (0, false)
  end.

Definition seek_terminal_proof (seek_result : Seek) : PathProofTerminal :=
  match seek_terminal seek_result with
  | Some leaf_data => TermLeaf leaf_data
  | None => TermTerminator (seek_position seek_result)
  end.

Definition push_witnessed (siblings : list Node) (seek_result : Seek) (batch_size : nat)
    (witnessed_paths : option witnessed_t) : option witnessed_t :=
  (λ paths, paths ++
     [({| wpath_inner := {| siblings := siblings; terminal := seek_terminal_proof seek_result |};
          wpath_path := seek_position seek_result |}, seek_terminal seek_result, batch_size)])
  <$> witnessed_paths.

(** [siblings[*depth - 1] = *actual_sibling] for the siblings the walker tracks. *)
Fixpoint actual_siblings (tracked : list (Node * nat)) (siblings : list Node) : option (list Node) :=
  match tracked with
  | [] => Some siblings
  | (actual_sibling, depth) :: tracked' =>
      let? _ := oassert (1 <=? depth) in
      let? _ := oassert (depth - 1 <? length siblings) in
      actual_siblings tracked' (<[depth - 1 := actual_sibling]> siblings)
  end.

Definition attempt_advance (page_set : PageSet) (seek_result : Seek)
    (ops : option (list (KeyPath * option ValueHash))) (batch_size : nat) (st : WorkerState) :
    option WorkerState :=
  let? page_walker :=
    match ops with
    | None => advance (seek_position seek_result) (ws_page_walker st)
    | Some ops =>
        let ops := leaf_ops_spliced (seek_terminal seek_result) ops in
        advance_and_replace page_set (seek_position seek_result) ops (ws_page_walker st)
    end in
  let? witnessed_paths :=
    match ws_witnessed_paths st with
    | None => Some None
    | Some _ =>
        let? siblings := actual_siblings (pw_sibling_stack page_walker) (seek_siblings seek_result) in
        Some (push_witnessed siblings seek_result batch_size (ws_witnessed_paths st))
    end in
  Some {| ws_pending := ws_pending st; ws_page_walker := page_walker;
          ws_witnessed_paths := witnessed_paths |}.

Definition handle_completion (read_write : read_write_t) (self : RangeUpdater) (page_set : PageSet)
    (start_index : nat) (seek_result : Seek) (st : WorkerState) : option (nat * WorkerState) :=
  let? batch_starts_in_our_range :=
    if negb (start_index =? ru_range_start self) || (ru_range_start self =? 0) then Some true
    else
      let? prev := read_write !! (start_index - 1) in
      Some (negb (subtrie_contains (seek_position seek_result) prev.1)) in
  let? rest := slice_from read_write start_index in
  let '(batch_size, has_writes) := find_batch (seek_position seek_result) rest in
  let next_index := start_index + batch_size in
  if negb (batch_starts_in_our_range : bool) then Some (next_index, st)
  else
    let is_non_exclusive :=
      match seek_page_id seek_result with
      | None => true
      | Some p_id => negb (region_contains_exclusive (ru_region self) p_id)
      end in
    if is_non_exclusive then
      Some (next_index,
        {| ws_pending := push_pending_subtrie (seek_position seek_result) start_index next_index
                           (seek_terminal seek_result) (ws_pending st);
           ws_page_walker := ws_page_walker st;
           ws_witnessed_paths := push_witnessed (seek_siblings seek_result) seek_result batch_size
                                   (ws_witnessed_paths st) |})
    else
      let? ops :=
        if (has_writes : bool) then
          let? batch := slice read_write start_index next_index in Some (Some (subtrie_ops batch))
        else Some None in
      let? st := attempt_advance page_set seek_result ops batch_size st in
      Some (next_index, st).

(** ** The loop of [RangeUpdater::update] *)

Record LoopState := {
  start_index : nat;
  pushes : nat;
  skips : nat;
  requests : list KeyPath;
  warmed_up : list Seek;
  worker_state : WorkerState;
}.

(** What the seeker does in an iteration: whether its first request is completed,
    whether it has live requests and no room before new work is pushed, and for how many
    pushes it has room. *)
Record Progress := { completed : bool; blocked : bool; room : nat }.

Section loop.
Context (read_write : read_write_t) (self : RangeUpdater) (page_set : PageSet).
Context (seek : KeyPath → Seek) (warm_ups : KeyPath → option Seek).

Definition take_completion (ready : bool) (st : LoopState) : option Seek * LoopState :=
  let from_seeker :=
    match requests st with
    | key :: requests' =>
        if ready then
          (Some (seek key),
           {| start_index := start_index st; pushes := pushes st; skips := skips st;
              requests := requests'; warmed_up := warmed_up st; worker_state := worker_state st |})
        else (None, st)
    | [] => (None, st)
    end in
  match warmed_up st with
  | front :: warmed_up' =>
      if match requests st with [] => true | k :: _ => bytes_ltb (seek_key front) k end then
        (Some front,
         {| start_index := start_index st; pushes := pushes st; skips := skips st;
            requests := requests st; warmed_up := warmed_up'; worker_state := worker_state st |})
      else from_seeker
  | [] => from_seeker
  end.

Definition on_completion (completion : option Seek) (st : LoopState) : option LoopState :=
  match completion with
  | None => Some st
  | Some seek_result =>
      if 0 <? skips st then
        Some {| start_index := start_index st; pushes := pushes st; skips := skips st - 1;
                requests := requests st; warmed_up := warmed_up st; worker_state := worker_state st |}
      else
        let? (end_index, ws) :=
          handle_completion read_write self page_set (start_index st) seek_result (worker_state st) in
        let batch_size := end_index - start_index st in
        let? _ := oassert (1 <=? pushes st `min` batch_size) in
        Some {| start_index := end_index; pushes := pushes st - batch_size;
                skips := pushes st `min` batch_size - 1;
                requests := requests st; warmed_up := warmed_up st; worker_state := ws |}
  end.

(** The inner [while] loop, for as many pushes as there is room. *)
Fixpoint push_work (room : nat) (st : LoopState) : option LoopState :=
  match room with
  | 0 => Some st
  | S room' =>
      if start_index st + pushes st <? ru_range_end self then
        let? next_push := read_write !! (start_index st + pushes st) in
        match warm_ups next_push.1 with
        | Some result =>
            let st := {| start_index := start_index st; pushes := S (pushes st); skips := skips st;
                         requests := requests st; warmed_up := warmed_up st ++ [result];
                         worker_state := worker_state st |} in
            if 512 <=? length (warmed_up st) then Some st else push_work room' st
        | None =>
            push_work room'
              {| start_index := start_index st; pushes := S (pushes st); skips := skips st;
                 requests := requests st ++ [next_push.1]; warmed_up := warmed_up st;
                 worker_state := worker_state st |}
        end
      else Some st
  end.

Definition update_iteration (p : Progress) (st : LoopState) : option LoopState :=
  let '(completion, st) := take_completion (completed p) st in
  let? st := on_completion completion st in
  if blocked p then Some st else push_work (room p) st.

Definition update_running (st : LoopState) : bool :=
  (start_index st <? ru_range_end self) || negb (bool_decide (requests st = [])).

(** The loop under a schedule: [Some (inl st)] when the schedule ends before the loop. *)
Fixpoint update_loop (schedule : list Progress) (st : LoopState) : option (LoopState + WorkerState) :=
  if update_running st then
    match schedule with
    | [] => Some (inl st)
    | p :: schedule' => let? st := update_iteration p st in update_loop schedule' st
    end
  else Some (inr (worker_state st)).
End loop.

Definition loop_start (self : RangeUpdater) (pending : pending_t) (witness : bool) : LoopState :=
  {| start_index := ru_range_start self; pushes := 0; skips := 0; requests := []; warmed_up := [];
     worker_state := {| ws_pending := pending; ws_page_walker := ru_page_walker self;
                        ws_witnessed_paths := if witness then Some [] else None |} |}.

(** The end of [RangeUpdater::update]. *)
Definition finish_range (st : WorkerState) : option (pending_t * WorkerOutput) :=
  let? out := conclude (ws_page_walker st) in
  match out with
  | ChildPageRoots new_nodes output_pages =>
      Some (push_pending_root_nodes new_nodes (ws_pending st),
            {| out_root := None; out_witnessed_paths := ws_witnessed_paths st;
               out_updated_pages := output_pages |})
  | Root _ _ => None
  end.

(** ** The root page *)

Fixpoint root_page_ops (read_write : read_write_t) (page_set : PageSet) (pending_ops : pending_t)
    (w : PageWalker) : option PageWalker :=
  match pending_ops with
  | [] => Some w
  | (trie_pos, pending_op) :: pending_ops' =>
      let? w :=
        match pending_op with
        | PendingNode node => advance_and_place_node page_set trie_pos node w
        | SubTrie range_start range_end prev_terminal =>
            let? batch := slice read_write range_start range_end in
            let ops := subtrie_ops batch in
            let ops := leaf_ops_spliced prev_terminal ops in
            advance_and_replace page_set trie_pos ops w
        end in
      root_page_ops read_write page_set pending_ops' w
  end.

(** The rest of [update] for the worker that got the root pass: [in_memory] is the root
    page as [get_in_memory_page] finds it. *)
Definition update_root (root : Node) (read_write : read_write_t) (page_set : PageSet)
    (in_memory : option (list u8 * BucketInfo)) (pending : pending_t) (output : WorkerOutput) :
    option WorkerOutput :=
  let pending_ops := take_root_pending pending in
  let root_page_updater := walker_new root None in
  let page_set :=
    match in_memory with
    | Some (root_page, root_page_bucket) =>
        page_set_insert page_set ROOT_PAGE_ID root_page (Persisted root_page_bucket)
    | None => page_set
    end in
  let? root_page_updater := root_page_ops read_write page_set pending_ops root_page_updater in
  let? out := conclude root_page_updater in
  match out with
  | Root new_root updates =>
      Some {| out_root := Some new_root; out_witnessed_paths := out_witnessed_paths output;
              out_updated_pages := out_updated_pages output ++ updates |}
  | ChildPageRoots _ _ => None
  end.
End worker.

(** ** [UpdateHandle::join] *)

Record JoinState := {
  new_root : option Node;
  maybe_witness : option Witness;
  updated_pages : list (list UpdatedPage);
  path_proof_offset : nat;
  witnessed_start : nat;
}.

(** The operations of a batch, on the path with the given index. *)
Definition witness_ops (leaf_data : option LeafData) (path_index : nat)
    (ops : WitnessedOperations) (batch : read_write_t) : WitnessedOperations :=
  foldl (λ ops '(k, v),
    let ops :=
      if is_read v then
        let value_hash :=
          match leaf_data with
          | Some d => if bool_decide (Trie.key_path d = k) then Some (value_hash d) else None
          | None => None
          end in
        {| reads := reads ops ++ [{| read_key := k; read_value := value_hash; read_path_index := path_index |}];
           writes := writes ops |}
      else ops in
    match written_value v with
    | Some written =>
        {| reads := reads ops;
           writes := writes ops ++ [{| write_key := k; write_value := written; write_path_index := path_index |}] |}
    | None => ops
    end) ops batch.

Fixpoint join_paths (read_write : read_write_t) (witnessed_paths : witnessed_t) (path_index : nat)
    (offset : nat) (w : Witness) (start : nat) : option (Witness * nat) :=
  match witnessed_paths with
  | [] => Some (w, start)
  | (path, leaf_data, batch_size) :: rest =>
      let witnessed_end := start + batch_size in
      let? batch := slice read_write start witnessed_end in
      join_paths read_write rest (S path_index) offset
        {| path_proofs := path_proofs w ++ [path];
           operations := witness_ops leaf_data (path_index + offset) (operations w) batch |} witnessed_end
  end.

Definition join_output (read_write : read_write_t) (output : WorkerOutput) (st : JoinState) : option JoinState :=
  let? new_root :=
    match out_root output with
    | Some root => let? _ := oassert (bool_decide (new_root st = None)) in Some (Some root)
    | None => Some (new_root st)
    end in
  let updated_pages := updated_pages st ++ [out_updated_pages output] in
  match out_witnessed_paths output with
  | Some witnessed_paths =>
      let? witness := maybe_witness st in
      let? (witness, witnessed_start) :=
        join_paths read_write witnessed_paths 0 (path_proof_offset st) witness (witnessed_start st) in
      Some {| new_root := new_root; maybe_witness := Some witness; updated_pages := updated_pages;
              path_proof_offset := path_proof_offset st + length witnessed_paths;
              witnessed_start := witnessed_start |}
  | None =>
      Some {| new_root := new_root; maybe_witness := maybe_witness st; updated_pages := updated_pages;
              path_proof_offset := path_proof_offset st; witnessed_start := witnessed_start st |}
  end.

Fixpoint join_outputs (read_write : read_write_t) (outputs : list WorkerOutput) (st : JoinState) : option JoinState :=
  match outputs with
  | [] => Some st
  | output :: outputs' => let? st := join_output read_write output st in join_outputs read_write outputs' st
  end.

(** The outputs in the order in which the workers finish. *)
Definition join (read_write : read_write_t) (witness : bool) (outputs : list WorkerOutput) :
    option (Node * list (list UpdatedPage) * option Witness) :=
  let? st := join_outputs read_write outputs
    {| new_root := None;
       maybe_witness :=
         if witness then Some {| path_proofs := []; operations := {| reads := []; writes := [] |} |} else None;
       updated_pages := []; path_proof_offset := 0; witnessed_start := 0 |} in
  let? root := new_root st in
  Some (root, updated_pages st, maybe_witness st).
