(* ===== verification/WorkerJoin.v ===== *)
(** * Joining the outputs of the workers

    What [UpdateHandle::join] makes of the outputs it receives: the new root, the updated
    pages and the witness, in the order in which the workers finish. *)

From S2P Require Import Prelude Trie PageId Update TriePos PathProof PageDiff Wal BitboxSync PageWalker.
From S2P Require Import PageRegion Worker.

#[local] Open Scope nat_scope.

(** ** The witness in one pass *)

Definition batch_reads (leaf_data : option LeafData) (i : nat) (batch : read_write_t) : list WitnessedRead :=
  (λ kv, {| read_key := kv.1;
            read_value := let? d := leaf_data in
                          if bool_decide (Trie.key_path d = kv.1) then Some (value_hash d) else None;
            read_path_index := i |})
  <$> filter (λ kv, is_read kv.2 = true) batch.

Definition batch_writes (i : nat) (batch : read_write_t) : list WitnessedWrite :=
  omap (λ kv, (λ v, {| write_key := kv.1; write_value := v; write_path_index := i |}) <$> written_value kv.2) batch.

(** The batches follow each other in [read_write], one for each path. *)
Fixpoint flat_operations (read_write : read_write_t) (paths : witnessed_t) (i : nat) : WitnessedOperations :=
  match paths with
  | [] => {| reads := []; writes := [] |}
  | (_, leaf_data, size) :: paths' =>
      let rest := flat_operations (drop size read_write) paths' (S i) in
      {| reads := batch_reads leaf_data i (take size read_write) ++ reads rest;
         writes := batch_writes i (take size read_write) ++ writes rest |}
  end.

Definition join_operations (a b : WitnessedOperations) : WitnessedOperations :=
  {| reads := reads a ++ reads b; writes := writes a ++ writes b |}.

Lemma witness_ops_spec leaf_data i batch ops :
  witness_ops leaf_data i ops batch =
  join_operations ops {| reads := batch_reads leaf_data i batch; writes := batch_writes i batch |}.
Proof.
  unfold witness_ops. revert ops. induction batch as [|[k v] batch IH]; intros [rs ws].
  { unfold join_operations, batch_reads, batch_writes. cbn. by rewrite !app_nil_r. }
  cbn [foldl]. rewrite IH. unfold join_operations, batch_reads, batch_writes. cbn [reads writes]. destruct v.
  - rewrite filter_cons_True by done. rewrite fmap_cons. cbn. by rewrite <-?app_assoc.
  - rewrite filter_cons_False by done. cbn. by rewrite <-?app_assoc.
  - rewrite filter_cons_True by done. rewrite fmap_cons. cbn. by rewrite <-?app_assoc.
Qed.

Definition total_size (paths : witnessed_t) : nat := sum_list_with snd paths.

Lemma join_paths_spec read_write paths i offset w start :
  start + total_size paths ≤ length read_write →
  join_paths read_write paths i offset w start =
  Some ({| path_proofs := path_proofs w ++ ((λ p, p.1.1) <$> paths);
           operations := join_operations (operations w) (flat_operations (drop start read_write) paths (i + offset)) |},
        start + total_size paths).
Proof.
  revert i w start. induction paths as [|[[p leaf] size] paths IH]; intros i w start Hs; cbn [join_paths flat_operations].
  - destruct w as [pp [rs ws]]. unfold join_operations. cbn. by rewrite !app_nil_r, Nat.add_0_r.
  - cbn in Hs. rewrite slice_Some by lia. cbn [mbind option_bind]. rewrite IH by (cbn; unfold total_size; lia).
    replace (start + size - start) with size by lia. rewrite witness_ops_spec, drop_drop.
    cbn [path_proofs operations]. rewrite fmap_cons, <-app_assoc. unfold join_operations. cbn [reads writes].
    rewrite <-!app_assoc. do 2 f_equal. unfold total_size. cbn. lia.
Qed.

Lemma flat_operations_app read_write a b i :
  flat_operations read_write (a ++ b) i =
  join_operations (flat_operations read_write a i)
    (flat_operations (drop (total_size a) read_write) b (length a + i)).
Proof.
  revert read_write i. induction a as [|[[p leaf] size] a IH]; intros read_write i.
  - cbn [app flat_operations]. rewrite drop_0. cbn. by destruct (flat_operations read_write b i).
  - cbn [app flat_operations]. rewrite IH, drop_drop. unfold join_operations. cbn [reads writes].
    rewrite <-!app_assoc. by replace (length a + S i) with (length ((p, leaf, size) :: a) + i) by (cbn; lia).
Qed.

Definition paths_of (output : WorkerOutput) : witnessed_t := default [] (out_witnessed_paths output).

Lemma total_size_app a b : total_size (a ++ b) = total_size a + total_size b.
Proof. unfold total_size. induction a as [|x a IH]; cbn; [done|]. lia. Qed.

Lemma join_operations_assoc a b c :
  join_operations (join_operations a b) c = join_operations a (join_operations b c).
Proof. unfold join_operations. cbn. by rewrite !app_assoc. Qed.

(** The state of the loop after some outputs. *)
Definition joined (read_write : read_write_t) (root : option Node) (outputs : list WorkerOutput) : JoinState :=
  let flat := outputs ≫= paths_of in
  {| new_root := root;
     maybe_witness := Some {| path_proofs := (λ p, p.1.1) <$> flat;
                              operations := flat_operations read_write flat 0 |};
     updated_pages := out_updated_pages <$> outputs;
     path_proof_offset := length flat;
     witnessed_start := total_size flat |}.

Lemma join_output_spec read_write root outputs output :
  is_Some (out_witnessed_paths output) →
  total_size ((outputs ++ [output]) ≫= paths_of) ≤ length read_write →
  join_output read_write output (joined read_write root outputs) =
  match root, out_root output with
  | Some _, Some _ => None
  | Some r, None | None, Some r => Some (joined read_write (Some r) (outputs ++ [output]))
  | None, None => Some (joined read_write None (outputs ++ [output]))
  end.
Proof.
  intros [paths Hp] Hs. rewrite bind_app, total_size_app in Hs. cbn in Hs. rewrite app_nil_r in Hs.
  assert (Ep : paths_of output = paths) by (unfold paths_of; by rewrite Hp). rewrite Ep in Hs.
  assert (Hj : ∀ r, (let? (witness, start) := join_paths read_write paths 0 (length (outputs ≫= paths_of))
      {| path_proofs := (λ p, p.1.1) <$> (outputs ≫= paths_of);
         operations := flat_operations read_write (outputs ≫= paths_of) 0 |} (total_size (outputs ≫= paths_of)) in
    Some {| new_root := r; maybe_witness := Some witness;
            updated_pages := (out_updated_pages <$> outputs) ++ [out_updated_pages output];
            path_proof_offset := length (outputs ≫= paths_of) + length paths; witnessed_start := start |}) =
    Some (joined read_write r (outputs ++ [output]))).
  { intros r. rewrite join_paths_spec by done. cbn [mbind option_bind path_proofs operations]. unfold joined.
    rewrite bind_app. cbn [mbind list_bind]. rewrite app_nil_r, Ep.
    change (mjoin (fmap paths_of outputs)) with (outputs ≫= paths_of).
    rewrite total_size_app, length_app, !fmap_app, flat_operations_app. do 3 f_equal. by rewrite Nat.add_0_r. }
  unfold join_output, joined at 1. cbn [new_root maybe_witness updated_pages path_proof_offset witnessed_start].
  rewrite Hp. destruct root as [r|], (out_root output) as [r'|]; cbn [oassert mbind option_bind bool_decide decide]; try done; apply Hj.
Qed.

Lemma join_outputs_spec read_write outputs prev root :
  Forall (λ o, is_Some (out_witnessed_paths o)) outputs →
  total_size ((prev ++ outputs) ≫= paths_of) ≤ length read_write →
  join_outputs read_write outputs (joined read_write root prev) =
  match option_list root ++ omap out_root outputs with
  | [] => Some (joined read_write None (prev ++ outputs))
  | [r] => Some (joined read_write (Some r) (prev ++ outputs))
  | _ => None
  end.
Proof.
  intros Hf. revert prev root. induction Hf as [|o outputs Ho Hf IH]; intros prev root Hs; cbn [join_outputs].
  { rewrite (app_nil_r prev). by destruct root. }
  replace (prev ++ o :: outputs) with ((prev ++ [o]) ++ outputs) in * by (by rewrite <-app_assoc).
  pose proof Hs as Hs'. rewrite (bind_app _ (prev ++ [o])), total_size_app in Hs.
  rewrite join_output_spec; [|exact Ho|lia]. cbn [omap list_omap].
  destruct root as [r|], (out_root o) as [r'|]; cbn [mbind option_bind option_list app]; try done;
    rewrite IH by done; by destruct (omap out_root outputs).
Qed.

(** C22: the witness of an update is cut from the operations by the sizes of the batches, in
    the order in which the outputs of the workers arrive.  When all outputs have
    witnessed paths and the batches are no more than the operations, [join] succeeds
    exactly if one output has a root; the path proofs are those of the outputs one after
    the other, and the operations on the path with an index are those of the consecutive
    piece of the operations with the size of its batch. *)
Theorem join_witness_flat read_write outputs :
  Forall (λ o, is_Some (out_witnessed_paths o)) outputs →
  total_size (outputs ≫= paths_of) ≤ length read_write →
  join read_write true outputs =
  match omap out_root outputs with
  | [root] =>
      Some (root, out_updated_pages <$> outputs,
            Some {| path_proofs := (λ p, p.1.1) <$> (outputs ≫= paths_of);
                    operations := flat_operations read_write (outputs ≫= paths_of) 0 |})
  | _ => None
  end.
Proof.
  intros Hf Hs. unfold join.
  change {| new_root := None; maybe_witness := _; updated_pages := _; path_proof_offset := _; witnessed_start := _ |}
    with (joined read_write None []).
  rewrite join_outputs_spec by done. cbn [option_list app].
  by destruct (omap out_root outputs) as [|r [|]].
Qed.

(** ** Two workers *)

(** Two writes below different children of the root, each handled by its own worker. *)
Definition two_writes : read_write_t :=
  [(toy_key x20, Write (Some (toy_key x01))); (toy_key xc0, Write (Some (toy_key x02)))].

Definition one_path (bit : bool) : witnessed_t :=
  let pos := {| pos_path := toy_key (if bit then x80 else x00); pos_depth := 1; node_index := if bit then 1 else 0 |} in
  [({| wpath_inner := {| siblings := [TERMINATOR]; terminal := TermTerminator pos |}; wpath_path := pos |}, None, 1)].

Definition worker_of (bit : bool) : WorkerOutput :=
  {| out_root := if bit then Some (toy_key x77) else None; out_witnessed_paths := Some (one_path bit);
     out_updated_pages := [] |}.

Lemma join_witness_flat_witness :
  join two_writes true [worker_of false; worker_of true] =
  Some (toy_key x77, [[]; []],
        Some {| path_proofs := (λ p, p.1.1) <$> (one_path false ++ one_path true);
                operations := flat_operations two_writes (one_path false ++ one_path true) 0 |}).
Proof.
  apply (join_witness_flat two_writes [worker_of false; worker_of true]).
  - by repeat constructor.
  - by_compute.
Defined.
