(* ===== verification/WorkerLoop.v ===== *)
(** * The pipelined loop of a worker

    A worker pushes requests ahead of the results it handles, takes the results of
    warmed-up keys and of the seeker in the order of the keys, and skips those that a
    batch already covered.  Under every schedule the loop has the effect of handling one
    batch after the other, and under a schedule that makes progress it ends. *)

From S2P Require Import Prelude Trie PageId Update TriePos PathProof PageDiff Wal BitboxSync PageWalker.
From S2P Require Import PageRegion Worker.

#[local] Open Scope nat_scope.

Lemma key_sorted_lookup {V} (l : list (KeyPath * V)) i j x y :
  key_sorted l → i < j → l !! i = Some x → l !! j = Some y → bytes_lt x.1 y.1.
Proof.
  unfold key_sorted. intros Hs. revert i j. induction Hs as [|z l Hs IH Hz]; intros i j Hij Hi Hj; [done|].
  destruct i as [|i], j as [|j]; try lia; simpl in *.
  - injection Hi as <-. rewrite Forall_lookup in Hz. by apply (Hz j).
  - eapply (IH i j); [lia|done..].
Qed.

(** ** One batch after the other *)

(** The reference: the batch at the index, then the batches after it; [found] gives the
    result for a key. *)
Fixpoint process `{NodeHasher} (read_write : read_write_t) (self : RangeUpdater) (page_set : PageSet)
    (found : KeyPath → Seek) (fuel : nat) (start_index : nat) (st : WorkerState) : option (nat * WorkerState) :=
  match fuel with
  | 0 => None
  | S fuel' =>
      if start_index <? ru_range_end self then
        let? kv := read_write !! start_index in
        let? (end_index, st) :=
          handle_completion read_write self page_set start_index (found kv.1) st in
        process read_write self page_set found fuel' end_index st
      else Some (start_index, st)
  end.

Section loop.
Context `{NodeHasher}.
Context (read_write : read_write_t) (self : RangeUpdater) (page_set : PageSet).
Context (seek : KeyPath → Seek) (warm_ups : KeyPath → option Seek).
Context (Hsorted : key_sorted read_write).

(** The result for a key, from the warm-up or from the seeker. *)
Definition found (k : KeyPath) : Seek := default (seek k) (warm_ups k).

Context (Hkey : ∀ k, seek_key (found k) = k).
Context (Hend : ru_range_end self ≤ length read_write).
Context (Hcontains : ∀ kv, kv ∈ read_write → subtrie_contains (seek_position (found kv.1)) kv.1 = true).

(** ** The invariant of the loop *)

Definition keys_between (a n : nat) : list KeyPath := take n (drop a read_write.*1).

(** [outstanding]: first the requests a batch already covered, then those pushed for
    the indices from [start_index] on. *)
Record loop_inv (st : LoopState) (skipped : list KeyPath) : Prop := {
  li_skips : length skipped = skips st;
  li_before : ∃ a, skipped = keys_between a (skips st) ∧ a + skips st ≤ start_index st;
  li_bound : start_index st + pushes st ≤ length read_write;
  li_range : pushes st = 0 ∨ start_index st + pushes st ≤ ru_range_end self;
  li_requests : requests st =
    filter (λ k, warm_ups k = None) (skipped ++ keys_between (start_index st) (pushes st));
  li_warmed : warmed_up st =
    found <$> filter (λ k, warm_ups k ≠ None) (skipped ++ keys_between (start_index st) (pushes st));
}.

Lemma keys_between_cons a n :
  a < length read_write → ∃ kv, read_write !! a = Some kv ∧ keys_between a (S n) = kv.1 :: keys_between (S a) n.
Proof.
  intros Ha. destruct (lookup_lt_is_Some_2 _ _ Ha) as [kv Hkv]. exists kv. split; [done|].
  unfold keys_between. erewrite drop_S; [done|]. by rewrite list_lookup_fmap, Hkv.
Qed.

Lemma keys_between_snoc a n kv :
  read_write !! (a + n) = Some kv → keys_between a (S n) = keys_between a n ++ [kv.1].
Proof.
  intros Hkv. unfold keys_between. rewrite (take_S_r _ _ kv.1); [done|].
  by rewrite lookup_drop, list_lookup_fmap, Hkv.
Qed.

Lemma keys_between_app a n m : keys_between a (n + m) = keys_between a n ++ keys_between (a + n) m.
Proof. unfold keys_between. by rewrite <-take_take_drop, drop_drop. Qed.

Lemma keys_sorted : StronglySorted bytes_lt read_write.*1.
Proof.
  pose proof Hsorted as Hs. unfold key_sorted in Hs. clear -Hs.
  induction Hs as [|x l Hs IH Hx]; [constructor|]. cbn. constructor; [done|]. by apply Forall_fmap.
Qed.

Lemma outstanding_sorted a n i m :
  a + n ≤ i → StronglySorted bytes_lt (keys_between a n ++ keys_between i m).
Proof.
  intros Ha. eapply StronglySorted_sublist; [|exact keys_sorted].
  rewrite <-(take_drop i (read_write.*1)). apply sublist_app.
  - unfold keys_between. rewrite <-(take_drop a (take i (read_write.*1))).
    apply sublist_inserts_l. replace (take n (drop a (read_write.*1))) with (take n (drop a (take i (read_write.*1)))).
    + apply sublist_take.
    + rewrite skipn_firstn_comm, take_take. f_equal. lia.
  - apply sublist_take.
Qed.

(** The front of the outstanding requests, when it is completed. *)
Lemma take_completion_spec st skipped ready :
  loop_inv st skipped →
  match skipped ++ keys_between (start_index st) (pushes st) with
  | [] => take_completion seek ready st = (None, st)
  | k :: rest =>
      take_completion seek ready st = (None, st) ∧ ready = false ∧ warm_ups k = None ∨
      ∃ st', take_completion seek ready st = (Some (found k), st') ∧
        start_index st' = start_index st ∧ pushes st' = pushes st ∧ skips st' = skips st ∧
        worker_state st' = worker_state st ∧
        requests st' = filter (λ k, warm_ups k = None) rest ∧
        warmed_up st' = found <$> filter (λ k, warm_ups k ≠ None) rest
  end.
Proof.
  intros [Hl (a & Hsk & Ha) _ _ Hreq Hwarm]. pose proof (outstanding_sorted a (skips st) (start_index st) (pushes st) Ha) as Hsort.
  rewrite <-Hsk in Hsort. unfold take_completion.
  destruct (skipped ++ keys_between (start_index st) (pushes st)) as [|k rest].
  { rewrite Hreq, Hwarm. done. }
  apply StronglySorted_inv in Hsort as [_ Hk]. rewrite list.Forall_forall in Hk.
  rewrite filter_cons in Hreq, Hwarm. destruct (warm_ups k) as [s|] eqn:Ew.
  - rewrite decide_False in Hreq by done. rewrite decide_True in Hwarm by done. right.
    rewrite Hwarm. cbn [fmap list_fmap].
    assert (Hc : match requests st with [] => true | k0 :: _ => bytes_ltb (seek_key (found k)) k0 end = true).
    { rewrite Hreq. destruct (filter _ rest) as [|k0 l] eqn:Ef; [done|]. rewrite Hkey. apply bytes_ltb_lt, Hk.
      assert (Hin : k0 ∈ filter (λ k, warm_ups k = None) rest) by (rewrite Ef; left).
      by apply list_elem_of_filter in Hin as [_ ?]. }
    rewrite Hc. eexists. by split_and!.
  - rewrite decide_True in Hreq by done. rewrite decide_False in Hwarm by naive_solver.
    assert (Hc : match warmed_up st with
      | front :: _ => match requests st with [] => true | k0 :: _ => bytes_ltb (seek_key front) k0 end = false
      | [] => True end).
    { rewrite Hwarm, Hreq. destruct (filter (λ k, warm_ups k ≠ None) rest) as [|k0 l] eqn:Ef; [done|]. cbn. rewrite Hkey.
      assert (Hin : k0 ∈ filter (λ k, warm_ups k ≠ None) rest) by (rewrite Ef; left).
      apply list_elem_of_filter in Hin as [_ Hin]. apply Hk in Hin.
      destruct (bytes_ltb k0 k) eqn:E; [|done]. apply bytes_ltb_lt in E.
      destruct (irreflexivity bytes_lt k). by etrans. }
    assert (Hf : found k = seek k) by (unfold found; by rewrite Ew).
    rewrite Hreq. destruct (warmed_up st) as [|front w] eqn:Ewu.
    + destruct ready; [right|by left]. eexists. rewrite Hf. by split_and!.
    + rewrite Hreq in Hc. rewrite Hc. destruct ready; [right|by left]. eexists. rewrite Hf. by split_and!.
Qed.

Lemma find_batch_bound p l : (find_batch p l).1 ≤ length l.
Proof.
  induction l as [|[k v] l IH]; cbn; [lia|]. destruct (subtrie_contains p k); [|cbn; lia].
  destruct (find_batch p l). cbn in *. lia.
Qed.

Lemma handle_completion_index i kv st k st' :
  read_write !! i = Some kv → handle_completion read_write self page_set i (found kv.1) st = Some (k, st') →
  i < k ≤ length read_write.
Proof.
  intros Hkv Hh. unfold handle_completion in Hh. apply bind_Some in Hh as (own & _ & Hh).
  unfold slice_from in Hh. pose proof (lookup_lt_Some _ _ _ Hkv) as Hi.
  rewrite (proj2 (Nat.leb_le _ _)) in Hh by lia. cbn [mbind option_bind] in Hh.
  assert (Hb : 0 < (find_batch (seek_position (found kv.1)) (drop i read_write)).1).
  { rewrite (drop_S _ _ _ Hkv). pose proof (Hcontains kv ltac:(by eapply list_elem_of_lookup_2)) as Hc.
    destruct kv as [key v]. cbn [find_batch fst] in *. rewrite Hc. destruct (find_batch (seek_position (found key)) (drop (S i) read_write)). cbn. lia. }
  pose proof (find_batch_bound (seek_position (found kv.1)) (drop i read_write)) as Hle. rewrite length_drop in Hle.
  destruct (find_batch _ _) as [n wr]. cbn in Hb, Hle. destruct own; cbn [negb] in Hh; [|injection Hh as <- _; lia].
  destruct (match seek_page_id _ with None => _ | Some _ => _ end); [injection Hh as <- _; lia|].
  apply bind_Some in Hh as (ops & _ & Hh). apply bind_Some in Hh as (st2 & _ & Hh). injection Hh as <- _. lia.
Qed.

(** ** Iterations *)

(** The loop stands where handling the rest of the batches gives [res]. *)
Definition on_track (res : nat * WorkerState) (st : LoopState) : Prop :=
  (∃ skipped, loop_inv st skipped) ∧ ∃ fuel, process read_write self page_set found fuel (start_index st) (worker_state st) = Some res.

Definition work_left (st : LoopState) : nat :=
  2 * (ru_range_end self - (start_index st + pushes st)) + skips st + pushes st.

Lemma outstanding_length st skipped :
  loop_inv st skipped →
  length (skipped ++ keys_between (start_index st) (pushes st)) = skips st + pushes st.
Proof.
  intros [Hl _ Hb _ _ _]. rewrite length_app, Hl. unfold keys_between.
  rewrite length_take, length_drop, length_fmap. lia.
Qed.

(** A batch is handled: the results that it covers are skipped from then on. *)
Lemma on_batch_spec res st st1 k rest :
  loop_inv st [] → (∃ fuel, process read_write self page_set found fuel (start_index st) (worker_state st) = Some res) →
  keys_between (start_index st) (pushes st) = k :: rest →
  start_index st1 = start_index st → pushes st1 = pushes st → skips st1 = skips st →
  worker_state st1 = worker_state st → requests st1 = filter (λ k, warm_ups k = None) rest →
  warmed_up st1 = found <$> filter (λ k, warm_ups k ≠ None) rest →
  ∃ st2, on_completion read_write self page_set (Some (found k)) st1 = Some st2 ∧ on_track res st2 ∧
    work_left st2 < work_left st.
Proof.
  intros Hinv (fuel & Hp) Hk E1 E2 E3 E4 E5 E6. pose proof (outstanding_length st [] Hinv) as Hlen.
  pose proof Hinv as [Hl _ Hb Hr _ _]. cbn [app] in Hlen. rewrite Hk in Hlen. cbn [length] in Hlen, Hl.
  destruct (keys_between_cons (start_index st) (pushes st - 1)) as (kv & Hkv & Ek); [lia|].
  replace (S (pushes st - 1)) with (pushes st) in Ek by lia. rewrite Hk in Ek. injection Ek as -> ->.
  destruct fuel as [|fuel]; [done|]. cbn [process] in Hp. rewrite (proj2 (Nat.ltb_lt _ _)) in Hp by lia.
  rewrite Hkv in Hp. cbn [mbind option_bind] in Hp. apply bind_Some in Hp as ([e ws] & Hh & Hp).
  pose proof (handle_completion_index _ _ _ _ _ Hkv Hh) as He.
  unfold on_completion. rewrite E3, <-Hl. change (0 <? 0) with false. cbv iota. rewrite E1, E4, Hh. cbn [mbind option_bind].
  rewrite E2. rewrite (proj2 (Nat.leb_le _ _)) by lia. cbn [oassert mbind option_bind].
  eexists. split; [done|]. split; [|unfold work_left; cbn; lia].
  split; [|by exists fuel]. exists (keys_between (S (start_index st)) (pushes st `min` (e - start_index st) - 1)).
  assert (Hrest : keys_between (S (start_index st)) (pushes st - 1) =
    keys_between (S (start_index st)) (pushes st `min` (e - start_index st) - 1) ++
    keys_between e (pushes st - (e - start_index st))).
  { destruct (decide (e - start_index st ≤ pushes st)).
    - rewrite Nat.min_r by done. replace (pushes st - 1) with
        ((e - start_index st - 1) + (pushes st - (e - start_index st))) by lia.
      rewrite keys_between_app. do 2 f_equal; lia.
    - rewrite Nat.min_l by lia. replace (pushes st - (e - start_index st)) with 0 by lia.
      unfold keys_between at 3. by rewrite take_0, app_nil_r. }
  constructor; cbn [start_index pushes skips requests warmed_up].
  - unfold keys_between. rewrite length_take, length_drop, length_fmap. lia.
  - exists (S (start_index st)). split; [done|lia].
  - lia.
  - lia.
  - by rewrite E5, Hrest.
  - by rewrite E6, Hrest.
Qed.

Lemma completion_spec res st ready c st1 :
  on_track res st → take_completion seek ready st = (c, st1) →
  ∃ st2, on_completion read_write self page_set c st1 = Some st2 ∧ on_track res st2 ∧
    work_left st2 ≤ work_left st ∧
    (ready = true → 0 < skips st + pushes st → work_left st2 < work_left st).
Proof.
  intros [[skipped Hinv] Hp] Ht. pose proof (take_completion_spec st skipped ready Hinv) as Hspec.
  pose proof (outstanding_length st skipped Hinv) as Hlen.
  destruct (skipped ++ keys_between (start_index st) (pushes st)) as [|k rest] eqn:EO.
  { rewrite Hspec in Ht. injection Ht as <- <-. exists st. cbn in Hlen. split_and!; [done| |done|lia].
    split; [by exists skipped|done]. }
  destruct Hspec as [(E & -> & _)|(st' & E & E1 & E2 & E3 & E4 & E5 & E6)]; rewrite Ht in E; injection E as -> ->.
  { exists st. split_and!; [done| |done|done]. split; [by exists skipped|done]. }
  destruct skipped as [|k' skipped].
  - destruct (on_batch_spec res st st' k rest Hinv Hp EO E1 E2 E3 E4 E5 E6) as (st2 & H2 & Hon & Hw).
    exists st2. split_and!; [done|done|lia|done].
  - cbn [app] in EO. injection EO as -> <-. pose proof Hinv as [Hl (a & Ha & Hle) Hb Hr _ _].
    cbn [length] in Hl. unfold on_completion. rewrite (proj2 (Nat.ltb_lt _ _)) by lia.
    eexists. split; [done|]. unfold on_track, work_left. cbn [start_index pushes skips requests warmed_up worker_state].
    rewrite E1, E2, E3, E4. split_and!; [|done|lia|lia]. exists skipped.
    assert (Hcons : ∃ kv, read_write !! a = Some kv ∧ keys_between a (S (skips st - 1)) = kv.1 :: keys_between (S a) (skips st - 1))
      by (apply keys_between_cons; lia).
    destruct Hcons as (kv & _ & Hc). replace (S (skips st - 1)) with (skips st) in Hc by lia.
    rewrite <-Ha in Hc. injection Hc as _ Hc.
    constructor; cbn [start_index pushes skips requests warmed_up]; rewrite ?E1, ?E2; try done; [lia|].
    exists (S a). split; [done|lia].
Qed.

Lemma push_inv st skipped kv st1 :
  loop_inv st skipped → start_index st + pushes st < ru_range_end self →
  read_write !! (start_index st + pushes st) = Some kv →
  start_index st1 = start_index st → pushes st1 = S (pushes st) → skips st1 = skips st →
  requests st1 = requests st ++ (if decide (warm_ups kv.1 = None) then [kv.1] else []) →
  warmed_up st1 = warmed_up st ++ (if decide (warm_ups kv.1 = None) then [] else [found kv.1]) →
  loop_inv st1 skipped.
Proof.
  intros [Hl Ha Hb Hr Hreq Hwarm] Hlt Hkv E1 E2 E3 E4 E5.
  constructor; rewrite ?E1, ?E2, ?E3; try done; [lia|lia|..].
  all: rewrite (keys_between_snoc _ _ _ Hkv), app_assoc, filter_app.
  - by rewrite E4, Hreq.
  - rewrite E5, Hwarm, fmap_app. f_equal. rewrite filter_cons, filter_nil.
    repeat case_decide; naive_solver.
Qed.

Lemma push_work_spec res n st :
  on_track res st →
  ∃ st', push_work read_write self warm_ups n st = Some st' ∧ on_track res st' ∧ work_left st' ≤ work_left st ∧
    (1 ≤ n → start_index st + pushes st < ru_range_end self → work_left st' < work_left st).
Proof.
  revert st. induction n as [|n IH]; intros st Hon; cbn [push_work].
  { exists st. split_and!; [done|done|done|lia]. }
  destruct (Nat.ltb_spec (start_index st + pushes st) (ru_range_end self)) as [Hlt|Hge].
  2: { exists st. split_and!; [done|done|done|lia]. }
  destruct (lookup_lt_is_Some_2 read_write (start_index st + pushes st)) as [kv Hkv]; [lia|].
  rewrite Hkv. cbn [mbind option_bind]. destruct Hon as [[skipped Hinv] Hp].
  destruct (warm_ups kv.1) as [s|] eqn:Ew.
  - set (st1 := {| start_index := start_index st; pushes := _ |}).
    assert (Hon1 : on_track res st1).
    { split; [|done]. exists skipped. eapply push_inv; try done; subst st1; cbn; rewrite decide_False by (by rewrite Ew).
      - by rewrite app_nil_r.
      - unfold found. by rewrite Ew. }
    assert (Hw : work_left st1 < work_left st) by (unfold work_left; subst st1; cbn; lia).
    destruct (512 <=? length (warmed_up st1)).
    + exists st1. split_and!; [done|done|lia|done].
    + destruct (IH st1 Hon1) as (st' & -> & ? & ? & _). exists st'. split_and!; [done|done|lia|lia].
  - set (st1 := {| start_index := start_index st; pushes := _ |}).
    assert (Hon1 : on_track res st1).
    { split; [|done]. exists skipped. eapply push_inv; try done; subst st1; cbn; rewrite decide_True by done.
      - done.
      - by rewrite app_nil_r. }
    assert (Hw : work_left st1 < work_left st) by (unfold work_left; subst st1; cbn; lia).
    destruct (IH st1 Hon1) as (st' & -> & ? & ? & _). exists st'. split_and!; [done|done|lia|lia].
Qed.

(** An iteration, whatever the seeker does. *)
Lemma iteration_spec res p st :
  on_track res st → update_running self st = true →
  ∃ st', update_iteration read_write self page_set seek warm_ups p st = Some st' ∧ on_track res st' ∧
    work_left st' ≤ work_left st ∧
    (completed p = true → blocked p = false → 1 ≤ room p → work_left st' < work_left st).
Proof.
  intros Hon Hrun. unfold update_iteration.
  destruct (take_completion seek (completed p) st) as [c st1] eqn:Et.
  destruct (completion_spec res st (completed p) c st1 Hon Et) as (st2 & E2 & Hon2 & Hw2 & Hw2').
  rewrite E2. cbn [mbind option_bind]. destruct (blocked p).
  { exists st2. by split_and!. }
  destruct (push_work_spec res (room p) st2 Hon2) as (st3 & -> & Hon3 & Hw3 & Hw3').
  exists st3. split_and!; [done|done|lia|]. intros Hc _ Hroom.
  destruct (decide (0 < skips st + pushes st)) as [Hpos|Hz]; [specialize (Hw2' Hc Hpos); lia|].
  destruct Hon as [[skipped Hinv] _]. pose proof (outstanding_length st skipped Hinv) as Hlen.
  destruct (skipped ++ keys_between (start_index st) (pushes st)) eqn:EO; [|cbn in Hlen; lia].
  pose proof (take_completion_spec st skipped (completed p) Hinv) as Hspec. rewrite EO in Hspec.
  rewrite Hspec in Et. injection Et as <- <-.
  injection E2 as <-. unfold update_running in Hrun. rewrite (li_requests _ _ Hinv), EO in Hrun.
  rewrite filter_nil, bool_decide_eq_true_2, orb_false_r in Hrun by done. apply Nat.ltb_lt in Hrun.
  apply Hw3'; lia.
Qed.

Lemma stopped_spec res st : on_track res st → update_running self st = false → worker_state st = res.2.
Proof.
  intros [_ (fuel & Hp)] Hr. apply orb_false_iff in Hr as [Hr _].
  destruct fuel as [|fuel]; [done|]. cbn [process] in Hp. rewrite Hr in Hp. by injection Hp as <-.
Qed.

Lemma loop_safe res schedule st :
  on_track res st →
  (∃ st', update_loop read_write self page_set seek warm_ups schedule st = Some (inl st')) ∨
  update_loop read_write self page_set seek warm_ups schedule st = Some (inr res.2).
Proof.
  revert st. induction schedule as [|p schedule IH]; intros st Hon; cbn [update_loop];
    destruct (update_running self st) eqn:Er; [left; by exists st| | |].
  1, 3: right; by rewrite (stopped_spec res st).
  destruct (iteration_spec res p st Hon Er) as (st' & -> & Hon' & _). by apply IH.
Qed.

(** The seeker makes progress in an iteration. *)
Definition progresses (p : Progress) : Prop := completed p = true ∧ blocked p = false ∧ 1 ≤ room p.

Lemma loop_ends res schedule st :
  on_track res st → Forall progresses schedule → work_left st ≤ length schedule →
  update_loop read_write self page_set seek warm_ups schedule st = Some (inr res.2).
Proof.
  intros Hon Hf. revert st Hon. induction Hf as [|p schedule (Hc & Hb & Hr) Hf IH]; intros st Hon Hw; cbn [update_loop];
    destruct (update_running self st) eqn:Er.
  2, 4: by rewrite (stopped_spec res st).
  - destruct (iteration_spec res {| completed := true; blocked := false; room := 1 |} st Hon Er)
      as (st' & _ & _ & _ & Hlt). cbn [completed blocked room] in Hlt. cbn [length] in Hw.
    specialize (Hlt eq_refl eq_refl ltac:(lia)). lia.
  - destruct (iteration_spec res p st Hon Er) as (st' & -> & Hon' & _ & Hlt). cbn [length] in Hw.
    apply IH; [done|]. specialize (Hlt Hc Hb Hr). lia.
Qed.

Lemma loop_start_on_track res fuel pending witness :
  ru_range_start self ≤ length read_write →
  process read_write self page_set found fuel (ru_range_start self) (worker_state (loop_start self pending witness)) = Some res →
  on_track res (loop_start self pending witness).
Proof.
  intros Hs Hp. split; [|by exists fuel]. exists []. constructor; cbn; try done.
  - exists 0. split; [done|lia].
  - lia.
  - by left.
Qed.

(** C12: the pipelined loop of a worker handles one batch after the other.  Requests are
    pushed ahead, results come from the seeker or from the warm-up, and those that an
    earlier batch covers are skipped.  For strictly sorted keys, each with a result whose
    position lies on its path, if handling the batches one after the other gives a
    result, then under every schedule of the seeker the loop does not panic and, when it
    ends, has exactly that result.  It ends after at most two iterations for each key of
    the range in which the seeker makes progress. *)
Theorem update_loop_sequential fuel res pending witness :
  ru_range_start self ≤ length read_write →
  process read_write self page_set found fuel (ru_range_start self) (worker_state (loop_start self pending witness)) = Some res →
  (∀ schedule, (∃ st, update_loop read_write self page_set seek warm_ups schedule
       (loop_start self pending witness) = Some (inl st)) ∨
     update_loop read_write self page_set seek warm_ups schedule
       (loop_start self pending witness) = Some (inr res.2)) ∧
  (∀ schedule, Forall progresses schedule →
     2 * (ru_range_end self - ru_range_start self) ≤ length schedule →
     update_loop read_write self page_set seek warm_ups schedule
       (loop_start self pending witness) = Some (inr res.2)).
Proof.
  intros Hs Hp. pose proof (loop_start_on_track res fuel pending witness Hs Hp) as Hon.
  split; [intros schedule; by apply loop_safe|]. intros schedule Hf Hl. apply loop_ends; [done..|].
  unfold work_left. cbn [loop_start start_index pushes skips]. lia.
Qed.
End loop.

(** Three keys in two batches, of which the second key was warmed up. *)
Definition sample_operations : read_write_t :=
  [(toy_key x10, Read); (toy_key x20, Write (Some (toy_key x01))); (toy_key xc0, ReadThenWrite None)].

Definition sample_seek (k : KeyPath) : Seek :=
  let bit := default false (head (view_bits k)) in
  {| seek_key := k;
     seek_position := {| pos_path := toy_key (if bit then x80 else x00); pos_depth := 1; node_index := if bit then 1 else 0 |};
     seek_page_id := Some ROOT_PAGE_ID; seek_siblings := [TERMINATOR]; seek_terminal := None |}.

Definition sample_warm_up (k : KeyPath) : option Seek :=
  if bool_decide (k = toy_key x20) then Some (sample_seek k) else None.

Definition sample_updater : RangeUpdater :=
  {| ru_region := default universe (from_page_id_descendants ROOT_PAGE_ID 0 63); ru_page_walker := walker_new TERMINATOR (Some ROOT_PAGE_ID);
     ru_range_start := 0; ru_range_end := 3 |}.

Definition sample_pages : PageSet :=
  {| ps_map := ∅; ps_warm_up_map := None; ps_page_pool := λ _, replicate 4096 x00 |}.

Definition steady : Progress := {| completed := true; blocked := false; room := 1 |}.

Lemma update_loop_sequential_witness :
  ∃ ws, process sample_operations sample_updater sample_pages (found sample_seek sample_warm_up) 4 0
          (worker_state (loop_start sample_updater [] true)) = Some (3, ws) ∧
    length (ws_pending ws) = 2 ∧
    update_loop sample_operations sample_updater sample_pages sample_seek sample_warm_up (replicate 6 steady)
      (loop_start sample_updater [] true) = Some (inr ws).
Proof.
  eexists. split; [vm_compute; reflexivity|]. split; [vm_compute; reflexivity|].
  eapply (proj2 (update_loop_sequential sample_operations sample_updater sample_pages sample_seek sample_warm_up
    ltac:(repeat constructor) _ ltac:(cbn; lia) _ 4 (3, _) [] true ltac:(cbn; lia) ltac:(vm_compute; reflexivity)));
    [apply Forall_replicate; split_and!; cbn; done || lia|cbn; lia].
  Unshelve.
  - intros k. unfold found, sample_warm_up. by case_bool_decide.
  - intros kv Hkv. apply bool_decide_eq_true. revert kv Hkv. apply list.Forall_forall. by_compute.
Defined.
