(* ===== verification/WorkerBatches.v ===== *)
(** * The batches of an update

    The terminals that the keys of an update lead to cut the keys into batches.  This
    file relates the batches that the workers find to the set of pairs after the
    update, and a worker's handling of its batches to a walk over the page tree. *)

From S2P Require Import Prelude Trie PageId Update TrieSpec TriePos PathProof PageDiff Wal BitboxSync.
From S2P Require Import PageWalker PagePaths PageLeaves PageWalkerCorrect PageBuild PageAdvance PageWalk.
From S2P Require Import PageDiffs PageWalkSpec PageRegion Worker WorkerLoop.

#[local] Open Scope nat_scope.

(** ** Updating a part of the keys *)

Section parts.
Context (kvs : ops_t) (Hkvs : block [] kvs).
Context (ops : list (KeyPath * option ValueHash)) (Hops : block [] ops).

(** The operations below one of the paths [Q]. *)
Definition covered (Q : list (list bool)) (k : KeyPath) : Prop := Exists (λ q, q `prefix_of` view_bits k) Q.

#[global] Instance covered_dec Q k : Decision (covered Q k).
Proof. unfold covered. apply _. Defined.

Definition upto (Q : list (list bool)) : ops_t := apply_ops kvs (filter (λ op, covered Q op.1) ops).

Lemma ops_length : Forall (λ op : KeyPath * option ValueHash, length op.1 = 32) ops.
Proof. destruct Hops as [_ Hf]. eapply Forall_impl; [exact Hf|]. by intros op [? _]. Qed.

Lemma apply_ops_value ops' k :
  ops' `sublist_of` ops →
  assoc (apply_ops kvs ops') k = match assoc ops' k with Some o => o | None => assoc kvs k end.
Proof.
  intros Hs. destruct Hops as [Hsort _]. rewrite assoc_apply_ops.
  - rewrite assoc_rev; [done|]. unfold key_sorted in *. by eapply StronglySorted_sublist.
  - done.
  - pose proof ops_length as Hl. rewrite list.Forall_forall in *. intros op Hop. apply Hl. by eapply elem_of_sublist.
Qed.

Lemma upto_block Q : block [] (upto Q).
Proof.
  apply apply_ops_block; [done|]. pose proof ops_length as Hl. rewrite list.Forall_forall in *.
  intros op [_ Hop]%list_elem_of_filter. by apply Hl.
Qed.

Lemma upto_value Q k :
  assoc (upto Q) k = if decide (covered Q k) then assoc (apply_ops kvs ops) k else assoc kvs k.
Proof.
  unfold upto. rewrite apply_ops_value by apply sublist_filter. rewrite (assoc_filter (covered Q)).
  rewrite apply_ops_value by done. destruct (decide (covered Q k)); case_bool_decide; done.
Qed.

Lemma under_value P (l1 l2 : ops_t) :
  block [] l1 → block [] l2 →
  (∀ k, length k = 32 → P `prefix_of` view_bits k → assoc l1 k = assoc l2 k) → under P l1 = under P l2.
Proof.
  intros H1 H2 Hv. apply (block_ext P); [by apply under_block..|]. intros k Hk. rewrite !assoc_under.
  case_bool_decide; [by apply Hv|done].
Qed.

Lemma updated_block : block [] (apply_ops kvs ops).
Proof. apply apply_ops_block; [done|apply ops_length]. Qed.

Lemma under_upto_in Q q P :
  q ∈ Q → q `prefix_of` P → under P (upto Q) = under P (apply_ops kvs ops).
Proof.
  intros Hq Hp. apply under_value; [apply upto_block|apply updated_block|]. intros k _ Hk. rewrite upto_value, decide_True; [done|].
  apply Exists_exists. exists q. split; [done|]. by etrans.
Qed.

Lemma under_upto_out Q P :
  (∀ q, q ∈ Q → ¬ q `prefix_of` P ∧ ¬ P `prefix_of` q) → under P (upto Q) = under P kvs.
Proof.
  intros HQ. apply under_value; [apply upto_block|done|]. intros k _ Hk. rewrite upto_value, decide_False; [done|].
  intros (q & Hq & Hp)%Exists_exists. destruct (HQ q Hq) as [H1 H2].
  by destruct (prefix_weak_total _ _ _ Hp Hk).
Qed.

Lemma upto_nil : upto [] = kvs.
Proof.
  unfold upto. replace (filter _ ops) with (@nil (KeyPath * option ValueHash)); [done|]. symmetry.
  apply filter_none, list.Forall_forall. intros op _ Hc. by apply Exists_nil in Hc.
Qed.

Lemma upto_edited Q q : edited q (upto Q) (upto (Q ++ [q])).
Proof.
  split; [apply upto_block|]. intros P H1 H2. apply under_value; [apply upto_block..|].
  intros k _ Hk. rewrite !upto_value.
  assert (Hc : covered (Q ++ [q]) k ↔ covered Q k).
  { unfold covered. rewrite Exists_app, Exists_cons, Exists_nil. split; [|by left].
    intros [?|[Hp|[]]]; [done|]. by destruct (prefix_weak_total _ _ _ Hp Hk). }
  repeat case_decide; tauto.
Qed.

(** The keys below a terminal: the leaf and the operations give the new pairs. *)
Lemma spliced_under P leaf kvs' :
  block [] kvs' → under P kvs = leaf_pairs leaf →
  (∀ k, P `prefix_of` view_bits k → assoc kvs' k = assoc (apply_ops kvs ops) k) →
  leaf_ops_spliced leaf (under P ops) = under P kvs'.
Proof.
  intros Hb Hu Hv. assert (Hin : leaf_in_block P leaf).
  { pose proof (under_block P kvs Hkvs) as [_ Hf]. rewrite Hu in Hf. destruct leaf as [d|]; [|done].
    cbn in *. by apply Forall_cons in Hf as [[??] _]. }
  apply (block_ext P); [apply leaf_ops_spliced_block; [by apply under_block|done]|by apply under_block|].
  intros k Hk. rewrite (leaf_ops_spliced_assoc P) by (by try apply under_block). rewrite !assoc_under.
  case_bool_decide as Hp.
  - rewrite Hv, apply_ops_value by done. destruct (assoc ops k); [done|].
    transitivity (assoc (under P kvs) k); [|by rewrite assoc_under, bool_decide_eq_true_2].
    rewrite Hu. by destruct leaf.
  - destruct leaf as [d|]; cbn; [|done]. case_bool_decide as E; [|done]. subst k. by destruct Hin.
Qed.
End parts.

(** ** Terminals *)

(** What a seek for [k] in the trie of [kvs] finds: the terminal on the path of the
    key, with the leaf there. *)
Record seek_ok (kvs : ops_t) (k : KeyPath) (s : Seek) : Prop := {
  so_key : seek_key s = k;
  so_pos : pos_ok (seek_position s);
  so_on_path : path (seek_position s) `prefix_of` view_bits k;
  so_terminal : under (path (seek_position s)) kvs = leaf_pairs (seek_terminal s);
  so_live : ∀ l d, (l ++ [d]) `prefix_of` path (seek_position s) → 2 ≤ length (under l kvs);
  so_page : TriePos.page_id (seek_position s) = Some (seek_page_id s);
}.

Lemma leaf_pairs_short leaf : length (leaf_pairs leaf) ≤ 1.
Proof. destruct leaf; cbn; lia. Qed.

(** Terminals are not below each other. *)
Lemma terminal_same kvs k k' s s' :
  seek_ok kvs k s → seek_ok kvs k' s' → path (seek_position s) `prefix_of` view_bits k' →
  path (seek_position s') = path (seek_position s).
Proof.
  intros [_ _ _ Ht Hl _] [_ _ Hp' Ht' Hl' _] Hp.
  pose proof (leaf_pairs_short (seek_terminal s)). pose proof (leaf_pairs_short (seek_terminal s')).
  destruct (prefix_weak_total _ _ _ Hp Hp') as [H1|H1]; apply prefix_proper in H1 as [E|[d Hd]]; [done| |done|].
  - apply Hl' in Hd. rewrite Ht in Hd. lia.
  - apply Hl in Hd. rewrite Ht' in Hd. lia.
Qed.

Section batches.
Context (kvs : ops_t) (Hkvs : block [] kvs).
Context (read_write : read_write_t) (Hrw : block [] read_write).
Context (F : KeyPath → Seek) (Hseek : ∀ kv, kv ∈ read_write → seek_ok kvs kv.1 (F kv.1)).

Definition cell (k : KeyPath) : list bool := path (seek_position (F k)).

Definition headb (i : nat) : bool :=
  match i with
  | 0 => true
  | S j =>
      match read_write !! j, read_write !! S j with
      | Some a, Some b => negb (bool_decide (cell a.1 = cell b.1))
      | _, _ => true
      end
  end.

Lemma cell_same a b :
  a ∈ read_write → b ∈ read_write → cell a.1 `prefix_of` view_bits b.1 → cell b.1 = cell a.1.
Proof. intros Ha Hb. eapply terminal_same; by apply Hseek. Qed.

Lemma cell_on_path a : a ∈ read_write → cell a.1 `prefix_of` view_bits a.1.
Proof. intros Ha. by apply (so_on_path _ _ _ (Hseek a Ha)). Qed.

Lemma key_bits_lt i j a b :
  i < j → read_write !! i = Some a → read_write !! j = Some b → bits_lt (view_bits a.1) (view_bits b.1).
Proof.
  intros Hij Hi Hj. destruct Hrw as [Hs Hf]. pose proof (key_sorted_lookup _ _ _ _ _ Hs Hij Hi Hj) as Hlt.
  rewrite list.Forall_forall in Hf. destruct (Hf a) as [? _]; [by eapply list_elem_of_lookup_2|].
  destruct (Hf b) as [? _]; [by eapply list_elem_of_lookup_2|]. apply bytes_lt_bits in Hlt; [done|congruence].
Qed.

Lemma key_bits_length a : a ∈ read_write → length (view_bits a.1) = 256.
Proof.
  intros Ha. destruct Hrw as [_ Hf]. rewrite list.Forall_forall in Hf. destruct (Hf a Ha) as [E _].
  rewrite length_view_bits. lia.
Qed.

(** The keys with the same terminal are next to each other. *)
Lemma cell_between i j l a b c :
  i ≤ j → j ≤ l → read_write !! i = Some a → read_write !! j = Some b → read_write !! l = Some c →
  cell a.1 = cell c.1 → cell b.1 = cell a.1.
Proof.
  intros Hij Hjl Hi Hj Hl E.
  pose proof (list_elem_of_lookup_2 _ _ _ Hi) as Ha. pose proof (list_elem_of_lookup_2 _ _ _ Hj) as Hb.
  pose proof (list_elem_of_lookup_2 _ _ _ Hl) as Hc. apply cell_same; [done..|].
  destruct (decide (i = j)) as [->|]; [rewrite Hi in Hj; injection Hj as ->; by apply cell_on_path|].
  destruct (decide (j = l)) as [->|]; [rewrite Hj in Hl; injection Hl as ->; rewrite E; by apply cell_on_path|].
  apply (prefix_between _ (view_bits a.1) _ (view_bits c.1)); [by apply cell_on_path| |by eapply key_bits_lt; [|done..]; lia..].
  rewrite E. by apply cell_on_path.
Qed.

Lemma cells_later i j a b :
  i < j → read_write !! i = Some a → read_write !! j = Some b → cell a.1 ≠ cell b.1 →
  later (cell a.1) (cell b.1).
Proof.
  intros Hij Hi Hj Hne. pose proof (list_elem_of_lookup_2 _ _ _ Hi) as Ha. pose proof (list_elem_of_lookup_2 _ _ _ Hj) as Hb.
  pose proof (key_bits_lt i j a b Hij Hi Hj) as Hlt. apply bits_lt_later in Hlt as (c & H0 & H1).
  2: { intros Hp%prefix_full; [|by rewrite !key_bits_length]. rewrite Hp in Hlt.
       unfold bits_lt in Hlt. by rewrite bits_compare_refl in Hlt. }
  assert (Hnot : ∀ x y s t, x ∈ read_write → y ∈ read_write → cell x.1 ≠ cell y.1 →
    (c ++ [s]) `prefix_of` view_bits x.1 → (c ++ [t]) `prefix_of` view_bits y.1 → (c ++ [s]) `prefix_of` cell x.1).
  { intros x y s t Hx Hy Hxy Hs Ht. destruct (prefix_weak_total _ _ _ (cell_on_path x Hx) Hs) as [Hp|Hp]; [|done].
    apply prefix_snoc_cases in Hp as [->|Hp]; [done|]. destruct Hxy. symmetry. apply cell_same; [done..|].
    etrans; [exact Hp|]. by eapply prefix_snoc_l. }
  exists c. split; [by eapply Hnot|by eapply (Hnot b a)].
Qed.
(** ** The batch at an index *)

Definition batch_len (i : nat) : nat :=
  match read_write !! i with
  | Some kv => (find_batch (seek_position (F kv.1)) (drop i read_write)).1
  | None => 0
  end.

Lemma find_batch_spec p (l : read_write_t) :
  find_batch p l =
    (length (take_while (λ kv, subtrie_contains p kv.1) l),
     existsb (λ kv, is_write kv.2) (take_while (λ kv, subtrie_contains p kv.1) l)).
Proof.
  induction l as [|[k v] l IH]; cbn; [done|]. destruct (subtrie_contains p k); [|done]. by rewrite IH.
Qed.

Lemma take_while_spec {A} (f : A → bool) l :
  take (length (take_while f l)) l = take_while f l ∧
  Forall (λ x, f x = true) (take_while f l) ∧
  ∀ x, l !! length (take_while f l) = Some x → f x = false.
Proof.
  induction l as [|y l (IH1 & IH2 & IH3)]; cbn; [by split_and!; [..|intros x Hx]|].
  destruct (f y) eqn:E; cbn; [|by split_and!; [..|intros x [= ->]]].
  split_and!; [by rewrite IH1|by constructor|done].
Qed.

Lemma batch_spec i kv :
  read_write !! i = Some kv →
  0 < batch_len i ∧ i + batch_len i ≤ length read_write ∧
  (∀ j b, i ≤ j < i + batch_len i → read_write !! j = Some b → cell b.1 = cell kv.1) ∧
  (∀ b, read_write !! (i + batch_len i) = Some b → cell b.1 ≠ cell kv.1).
Proof.
  intros Hi. unfold batch_len. rewrite Hi, find_batch_spec. cbn [fst].
  set (f := λ b : KeyPath * KeyReadWrite, subtrie_contains (seek_position (F kv.1)) b.1).
  pose proof (list_elem_of_lookup_2 _ _ _ Hi) as Hin. pose proof (lookup_lt_Some _ _ _ Hi) as Hlt.
  destruct (take_while_spec f (drop i read_write)) as (Ht & Hf & Hstop).
  pose proof (f_equal length Ht) as Hlen. rewrite length_take, length_drop in Hlen.
  split_and!.
  - rewrite (drop_S _ _ _ Hi). cbn [take_while].
    replace (f kv) with true; [cbn; lia|]. symmetry. apply bool_decide_eq_true. by apply cell_on_path.
  - lia.
  - intros j b Hj Hb. apply cell_same; [done|by eapply list_elem_of_lookup_2|].
    rewrite Forall_lookup in Hf. assert (Hfb : f b = true); [|by apply bool_decide_eq_true in Hfb].
    apply (Hf (j - i)). rewrite <-Ht, lookup_take_lt, lookup_drop by lia. by replace (i + (j - i)) with j by lia.
  - intros b Hb E. specialize (Hstop b). rewrite lookup_drop in Hstop. specialize (Hstop Hb).
    apply bool_decide_eq_false in Hstop. destruct Hstop. change (cell kv.1 `prefix_of` view_bits b.1).
    rewrite <-E. apply cell_on_path. by eapply list_elem_of_lookup_2.
Qed.

Lemma headb_next i kv : read_write !! i = Some kv → headb (i + batch_len i) = true.
Proof.
  intros Hi. destruct (batch_spec i kv Hi) as (Hn & Hle & Hin & Hout).
  destruct (i + batch_len i) as [|j] eqn:Ej; [done|]. cbn [headb].
  destruct (read_write !! j) as [a|] eqn:Ha; [|done]. destruct (read_write !! S j) as [b|] eqn:Hb; [|done].
  apply negb_true_iff, bool_decide_eq_false. rewrite (Hin j a) by (lia || done). intros E. by apply (Hout b).
Qed.

Lemma headb_inside i kv j : read_write !! i = Some kv → i < j < i + batch_len i → headb j = false.
Proof.
  intros Hi Hj. destruct (batch_spec i kv Hi) as (Hn & Hle & Hin & _).
  destruct j as [|j]; [lia|]. cbn [headb].
  destruct (lookup_lt_is_Some_2 read_write j ltac:(lia)) as [a Ha].
  destruct (lookup_lt_is_Some_2 read_write (S j) ltac:(lia)) as [b Hb]. rewrite Ha, Hb.
  apply negb_false_iff, bool_decide_eq_true. by rewrite (Hin j a), (Hin (S j) b) by (lia || done).
Qed.

(** The indices in a range at which batches start. *)
Definition heads (j e : nat) : list nat := filter (λ i, headb i = true) (seq j (e - j)).

Lemma heads_batch j e kv :
  read_write !! j = Some kv → j < e →
  heads j e = (if headb j then [j] else []) ++ heads (j + batch_len j) e.
Proof.
  intros Hj He. destruct (batch_spec j kv Hj) as (Hn & _). unfold heads.
  set (m := (batch_len j - 1) `min` (e - j - 1)).
  assert (Hseq : seq j (e - j) = j :: seq (S j) m ++ seq (j + batch_len j) (e - (j + batch_len j))).
  { replace (e - j) with (S (m + (e - (j + batch_len j)))) by lia. cbn [seq]. f_equal.
    rewrite seq_app. f_equal. destruct (decide (j + batch_len j ≤ e)).
    - f_equal. lia.
    - by replace (e - (j + batch_len j)) with 0 by lia. }
  rewrite Hseq, filter_cons, filter_app, (filter_none _ (seq (S j) m)).
  2: { apply list.Forall_forall. intros i Hi%elem_of_seq. rewrite (headb_inside j kv i Hj) by lia. done. }
  cbn [app]. by destruct (headb j).
Qed.

Lemma batch_slice i kv :
  read_write !! i = Some kv → headb i = true →
  take (batch_len i) (drop i read_write) = under (cell kv.1) read_write.
Proof.
  intros Hi Hh. destruct (batch_spec i kv Hi) as (Hn & Hle & Hin & Hout). pose proof (list_elem_of_lookup_2 _ _ _ Hi) as Hkv.
  unfold under. rewrite <-(take_drop i read_write) at 2. rewrite <-(take_drop (batch_len i) (drop i read_write)) at 2.
  rewrite !filter_app, drop_drop, (filter_all _ (take _ (drop _ _))).
  2: { apply Forall_lookup. intros j b Hb. apply lookup_take_Some in Hb as [Hb Hj]. rewrite lookup_drop in Hb.
       rewrite <-(Hin (i + j) b) by (lia || done). apply cell_on_path. by eapply list_elem_of_lookup_2. }
  rewrite (filter_none _ (take _ _)), (filter_none _ (drop _ _)), app_nil_r; [done|..].
  - apply Forall_lookup. intros j b Hb Hp. rewrite lookup_drop in Hb.
    assert (E : cell b.1 = cell kv.1) by (apply cell_same; [done|by eapply list_elem_of_lookup_2|done]).
    destruct (lookup_lt_is_Some_2 read_write (i + batch_len i)) as [x Hx]; [apply lookup_lt_Some in Hb; lia|].
    apply (Hout x Hx). eapply (cell_between i _ (i + batch_len i + j)); [| |exact Hi|exact Hx|exact Hb|done]; lia.
  - apply Forall_lookup. intros j b Hb Hp. apply lookup_take_Some in Hb as [Hb Hj].
    assert (E : cell b.1 = cell kv.1) by (apply cell_same; [done|by eapply list_elem_of_lookup_2|done]).
    destruct i as [|i]; [lia|]. cbn [headb] in Hh. rewrite Hi in Hh.
    destruct (lookup_lt_is_Some_2 read_write i) as [x Hx]; [apply lookup_lt_Some in Hi; lia|]. rewrite Hx in Hh.
    apply negb_true_iff, bool_decide_eq_false in Hh. apply Hh. rewrite <-E.
    eapply (cell_between j i (S i)); [| |exact Hb|exact Hx|exact Hi|done]; lia.
Qed.

(** ** The work of one worker *)

Definition ops : list (KeyPath * option ValueHash) := subtrie_ops read_write.

Lemma subtrie_ops_block P (rw : read_write_t) : block P rw → block P (subtrie_ops rw).
Proof.
  intros Hb. unfold subtrie_ops.
  rewrite (list_omap_ext _ (λ '(k, o), (λ value, (k, value)) <$> written_value o) rw rw).
  - by apply block_omap.
  - apply list.Forall_Forall2_diag, list.Forall_forall. intros [k []] _; done.
Qed.

Lemma ops_block : block [] ops.
Proof. by apply subtrie_ops_block. Qed.

Lemma subtrie_ops_under P : subtrie_ops (under P read_write) = under P ops.
Proof.
  unfold ops, under. clear. induction read_write as [|[k v] l IH]; [done|]. rewrite filter_cons. cbn [fst].
  case_decide as Hp; destruct v; cbn [subtrie_ops omap list_omap]; rewrite ?filter_cons; cbn [fst];
    rewrite ?decide_True, ?decide_False by done; unfold subtrie_ops in IH; cbn in *; by rewrite ?IH.
Qed.

Definition key_of (i : nat) : KeyPath := from_option fst [] (read_write !! i).
Definition found_at (i : nat) : Seek := F (key_of i).
Definition cell_at (i : nat) : list bool := cell (key_of i).
Definition batch_at (i : nat) : read_write_t := take (batch_len i) (drop i read_write).

(** What a worker does for the batch at an index, below the root page and in it. *)
Definition batch_op (i : nat) : walk_op :=
  if existsb (λ kv, is_write kv.2) (batch_at i)
  then OpReplace (seek_position (found_at i)) (leaf_ops_spliced (seek_terminal (found_at i)) (subtrie_ops (batch_at i)))
  else OpAdvance (seek_position (found_at i)).

Definition batch_pending (i : nat) : TriePosition * RootPagePending :=
  (seek_position (found_at i), SubTrie i (i + batch_len i) (seek_terminal (found_at i))).

Section worker.
Context `{NodeHasher}.
Context (self : RangeUpdater) (ps : PageSet).

(** The batches of the range that lie below the root page are those whose pages the
    worker's region contains. *)
Definition sorts_regions : Prop :=
  ∀ i kv, ru_range_start self ≤ i < ru_range_end self → read_write !! i = Some kv →
    match seek_page_id (F kv.1) with
    | None => true
    | Some p => negb (region_contains_exclusive (ru_region self) p)
    end = (length (cell_at i) <=? 6).

Lemma handle_head i kv pending w :
  read_write !! i = Some kv → ru_range_start self ≤ i < ru_range_end self →
  i = ru_range_start self ∨ headb i = true → sorts_regions →
  handle_completion read_write self ps i (F kv.1)
    {| ws_pending := pending; ws_page_walker := w; ws_witnessed_paths := None |} =
  if headb i then
    if length (cell_at i) <=? 6 then
      Some (i + batch_len i, {| ws_pending := pending ++ [batch_pending i]; ws_page_walker := w; ws_witnessed_paths := None |})
    else
      let? w := run_op ps (batch_op i) w in
      Some (i + batch_len i, {| ws_pending := pending; ws_page_walker := w; ws_witnessed_paths := None |})
  else Some (i + batch_len i, {| ws_pending := pending; ws_page_walker := w; ws_witnessed_paths := None |}).
Proof.
  intros Hi Hrange Hhead Hsort. pose proof (lookup_lt_Some _ _ _ Hi) as Hlt.
  destruct (batch_spec i kv Hi) as (Hn & Hle & _).
  assert (Hk : key_of i = kv.1) by (unfold key_of; by rewrite Hi).
  unfold handle_completion.
  assert (Hown : (if negb (i =? ru_range_start self) || (ru_range_start self =? 0) then Some true
    else let? prev := read_write !! (i - 1) in Some (negb (subtrie_contains (seek_position (F kv.1)) prev.1))) = Some (headb i)).
  { destruct (Nat.eqb_spec i (ru_range_start self)) as [E|E]; cbn [negb orb].
    2: { destruct Hhead as [?|Eh]; [done|by rewrite Eh]. }
    destruct (Nat.eqb_spec (ru_range_start self) 0) as [E0|E0]; [replace i with 0 by lia; done|].
    destruct i as [|j]; [lia|]. replace (S j - 1) with j by lia.
    destruct (lookup_lt_is_Some_2 read_write j ltac:(lia)) as [a Ha]. rewrite Ha. cbn [mbind option_bind].
    f_equal. cbn [headb]. rewrite Ha, Hi. f_equal. unfold subtrie_contains. apply bool_decide_ext.
    pose proof (list_elem_of_lookup_2 _ _ _ Ha) as Hain. pose proof (list_elem_of_lookup_2 _ _ _ Hi) as Hkin.
    split; [intros Hp; by apply (cell_same kv a)|]. intros Ec. change (cell kv.1 `prefix_of` view_bits a.1).
    rewrite <-Ec. by apply cell_on_path. }
  rewrite Hown. cbn [mbind option_bind]. unfold slice_from. rewrite (proj2 (Nat.leb_le _ _)) by lia.
  cbn [mbind option_bind]. rewrite find_batch_spec.
  assert (Hlen : length (take_while (λ kv0, subtrie_contains (seek_position (F kv.1)) kv0.1) (drop i read_write)) = batch_len i).
  { unfold batch_len. by rewrite Hi, find_batch_spec. }
  pose proof (take_while_spec (λ kv0 : KeyPath * KeyReadWrite, subtrie_contains (seek_position (F kv.1)) kv0.1) (drop i read_write)) as (Htake & _).
  rewrite Hlen in *. rewrite <-Htake. change (take (batch_len i) (drop i read_write)) with (batch_at i).
  destruct (headb i); [|done]. cbn [negb]. rewrite (Hsort i kv Hrange Hi).
  destruct (length (cell_at i) <=? 6).
  - unfold push_pending_subtrie, batch_pending, found_at. rewrite Hk. done.
  - unfold batch_op, found_at. rewrite Hk. destruct (existsb _ (batch_at i)).
    + rewrite slice_Some by lia. cbn [mbind option_bind]. replace (i + batch_len i - i) with (batch_len i) by lia.
      unfold attempt_advance. cbn [ws_page_walker ws_witnessed_paths ws_pending run_op].
      change (take (batch_len i) (drop i read_write)) with (batch_at i).
      by destruct (advance_and_replace _ _ _ _).
    + cbn [mbind option_bind]. unfold attempt_advance. cbn [ws_page_walker ws_witnessed_paths ws_pending run_op].
      by destruct (advance _ _).
Qed.

Lemma heads_end j e : e ≤ j → heads j e = [].
Proof. intros He. unfold heads. by replace (e - j) with 0 by lia. Qed.

(** All batches that start in a range. *)
Lemma process_spec fuel j pending w w' :
  sorts_regions → ru_range_end self ≤ length read_write → ru_range_start self ≤ j →
  j = ru_range_start self ∨ headb j = true → ru_range_end self - j < fuel →
  run_ops ps (batch_op <$> filter (λ i, 6 < length (cell_at i)) (heads j (ru_range_end self))) w = Some w' →
  ∃ e, process read_write self ps F fuel j
      {| ws_pending := pending; ws_page_walker := w; ws_witnessed_paths := None |} =
    Some (e, {| ws_pending := pending ++
                  (batch_pending <$> filter (λ i, length (cell_at i) ≤ 6) (heads j (ru_range_end self)));
                ws_page_walker := w'; ws_witnessed_paths := None |}).
Proof.
  intros Hsort Hend. revert j pending w. induction fuel as [|fuel IH]; intros j pending w Hs Hj Hf Hrun; [lia|].
  cbn [process]. destruct (Nat.ltb_spec j (ru_range_end self)) as [Hlt|Hge].
  2: { rewrite heads_end in * by lia. injection Hrun as <-. exists j. by rewrite app_nil_r. }
  destruct (lookup_lt_is_Some_2 read_write j ltac:(lia)) as [kv Hkv]. rewrite Hkv. cbn [mbind option_bind].
  destruct (batch_spec j kv Hkv) as (Hn & _). rewrite (heads_batch j _ kv Hkv Hlt) in *.
  rewrite (handle_head j kv) by done. pose proof (headb_next j kv Hkv) as Hnext.
  destruct (headb j) eqn:Eh; cbn [app] in *.
  2: { cbn [mbind option_bind]. apply IH; [lia|by right|lia|done]. }
  rewrite filter_cons in Hrun. rewrite filter_cons. destruct (Nat.leb_spec (length (cell_at j)) 6) as [Hle|Hgt].
  - rewrite decide_False in Hrun by lia. rewrite decide_True by lia. cbn [mbind option_bind].
    destruct (IH (j + batch_len j) (pending ++ [batch_pending j]) w) as [e He]; [lia|by right|lia|done|].
    exists e. by rewrite He, <-app_assoc.
  - rewrite decide_True in Hrun by lia. rewrite decide_False by lia. rewrite fmap_cons in Hrun. cbn [run_ops] in Hrun.
    apply bind_Some in Hrun as (w1 & -> & Hrun). cbn [mbind option_bind]. apply IH; [lia|by right|lia|done].
Qed.
End worker.

(** ** The walk over the batches *)

Section walk.
Context `{NodeHasherLaws, !NodeHasherSized}.

Lemma found_ok i : i < length read_write → seek_ok kvs (key_of i) (found_at i).
Proof.
  intros Hi. destruct (lookup_lt_is_Some_2 _ _ Hi) as [kv Hkv]. unfold found_at, key_of. rewrite Hkv. cbn.
  apply Hseek. by eapply list_elem_of_lookup_2.
Qed.

Lemma cells_sorted i j :
  i < j → j < length read_write → headb j = true → later (cell_at i) (cell_at j).
Proof.
  intros Hij Hj Hh. destruct (lookup_lt_is_Some_2 read_write i ltac:(lia)) as [a Ha].
  destruct (lookup_lt_is_Some_2 read_write j ltac:(lia)) as [b Hb].
  unfold cell_at, key_of. rewrite Ha, Hb. cbn. apply (cells_later i j); [done..|]. intros E.
  destruct j as [|j]; [lia|]. cbn [headb] in Hh. rewrite Hb in Hh.
  destruct (lookup_lt_is_Some_2 read_write j ltac:(lia)) as [x Hx]. rewrite Hx in Hh.
  apply negb_true_iff, bool_decide_eq_false in Hh. apply Hh. rewrite <-E.
  eapply (cell_between i j (S j)); [lia|lia|exact Ha|exact Hx|exact Hb|done].
Qed.

(** What a batch does to the set of pairs, when nothing below its terminal was updated
    before. *)
Lemma batch_at_under i :
  i < length read_write → headb i = true → subtrie_ops (batch_at i) = under (cell_at i) ops.
Proof.
  intros Hi Hh. destruct (lookup_lt_is_Some_2 _ _ Hi) as [kv Hkv]. unfold batch_at.
  rewrite (batch_slice i kv Hkv Hh), subtrie_ops_under. unfold cell_at, key_of. by rewrite Hkv.
Qed.

Lemma spliced_upto Q i :
  i < length read_write → headb i = true → cell_at i ∈ Q →
  leaf_ops_spliced (seek_terminal (found_at i)) (subtrie_ops (batch_at i)) = under (cell_at i) (upto kvs ops Q).
Proof.
  intros Hi Hh HQ. rewrite batch_at_under by done. pose proof (found_ok i Hi) as Hok.
  apply (spliced_under kvs Hkvs ops ops_block); [by apply upto_block, ops_block|apply (so_terminal _ _ _ Hok)|].
  intros k Hk. rewrite upto_value by (done || apply ops_block). rewrite decide_True; [done|].
  apply Exists_exists. by exists (cell_at i).
Qed.

Lemma no_writes (l : read_write_t) : existsb (λ kv, is_write kv.2) l = false → subtrie_ops l = [].
Proof.
  induction l as [|[k v] l IH]; [done|]. cbn. intros [E1 E2]%orb_false_iff. destruct v; [by apply IH|done|done].
Qed.

Lemma batch_op_edit Q i :
  i < length read_write → headb i = true →
  op_edit kvs (upto kvs ops Q) (batch_op i) (upto kvs ops (Q ++ [cell_at i])).
Proof.
  intros Hi Hh. pose proof (found_ok i Hi) as Hok. unfold batch_op. destruct (existsb _ _) eqn:Ew; cbn [op_edit].
  - split_and!.
    + rewrite (so_terminal _ _ _ Hok). apply leaf_pairs_short.
    + apply upto_edited; [done|apply ops_block].
    + apply spliced_upto; [done..|]. apply elem_of_app. right. by apply list_elem_of_singleton.
  - apply no_writes in Ew. rewrite batch_at_under in Ew by done. unfold upto. f_equal.
    apply filter_ext_in, list.Forall_forall. intros op Hop. unfold covered.
    rewrite Exists_app, Exists_cons, Exists_nil. split; [|by left]. intros [?|[Hp|[]]]; [done|].
    assert (Hin : op ∈ under (cell_at i) ops) by (by apply list_elem_of_filter). rewrite Ew in Hin. by apply elem_of_nil in Hin.
Qed.
End walk.

End batches.
