(* ===== verification/WorkerCorrect.v ===== *)
(** * The parallel update is correct

    Every worker updates the pages of its shard, and the last one the root page from the
    roots and the batches that the others handed over.  Together they compute the root and
    the pages of the trie of the updated set of pairs. *)

From S2P Require Import Prelude Trie PageId Update TrieSpec TriePos PathProof PageDiff Wal BitboxSync.
From S2P Require Import PageWalker PagePaths PageLeaves PageWalkerCorrect PageBuild PageAdvance PageWalk.
From S2P Require Import PageDiffs PageWalkSpec PageRegion Worker WorkerLoop WorkerBatches.

#[local] Open Scope nat_scope.

Section update.
Context `{NodeHasherLaws, !NodeHasherSized}.
Context (kvs : ops_t) (Hkvs : block [] kvs).
Context (read_write : read_write_t) (Hrw : block [] read_write).
Context (F : KeyPath → Seek) (Hseek : ∀ kv, kv ∈ read_write → seek_ok kvs kv.1 (F kv.1)).

Abbreviation ops := (ops read_write).
Abbreviation updated := (apply_ops kvs ops).
Abbreviation upto := (upto kvs ops).
Abbreviation cell_at := (cell_at read_write F).
Abbreviation headb := (headb read_write F).
Abbreviation heads := (heads read_write F).
Abbreviation key_of := (key_of read_write).
Abbreviation found_at := (found_at read_write F).
Abbreviation batch_op := (batch_op read_write F).
Abbreviation batch_pending := (batch_pending read_write F).

(** A page set a worker can use: the pages of the trie on the paths to its batches are
    there. *)
Definition pages_ready (ps : PageSet) (hs : list nat) : Prop :=
  (∀ id, page_sized (ps_page_pool ps id)) ∧
  (∀ id page o, page_set_get ps id = Some (page, o) → page_sized page) ∧
  ∀ i k, i ∈ hs → 1 ≤ k → 6 * k < length (cell_at i) → ∃ page origin,
    page_set_get ps (page_lvl (cell_at i) k) = Some (page, origin) ∧
    page_holds kvs (page_lvl (cell_at i) k) page.

Lemma batch_op_path i : path (op_pos (batch_op i)) = cell_at i.
Proof. unfold batch_op. by destruct (existsb _ _). Qed.

Lemma batch_op_pos i : op_pos (batch_op i) = seek_position (found_at i).
Proof. unfold batch_op. by destruct (existsb _ _). Qed.

(** The walk of a worker over its batches below the root page. *)
Lemma walk_heads ps hs Q last :
  pages_ready ps hs → StronglySorted lt hs →
  Forall (λ i, i < length read_write ∧ headb i = true ∧ 6 < length (cell_at i)) hs →
  match last with Some p => ∀ i, i ∈ hs → later (path p) (cell_at i) | None => True end →
  walk_ok (λ T, ∃ i, i ∈ hs ∧ T = cell_at i) kvs 1 ps (Some ROOT_PAGE_ID) last
    (upto Q) (batch_op <$> hs) (upto (Q ++ (cell_at <$> hs))).
Proof.
  intros Hps. assert (Hsub : ∀ hs', (∀ i, i ∈ hs' → i ∈ hs) → StronglySorted lt hs' →
    Forall (λ i, i < length read_write ∧ headb i = true ∧ 6 < length (cell_at i)) hs' →
    ∀ Q last, match last with Some p => ∀ i, i ∈ hs' → later (path p) (cell_at i) | None => True end →
    walk_ok (λ T, ∃ i, i ∈ hs ∧ T = cell_at i) kvs 1 ps (Some ROOT_PAGE_ID) last
      (upto Q) (batch_op <$> hs') (upto (Q ++ (cell_at <$> hs')))).
  { intros hs'. induction hs' as [|i hs' IH]; intros Hin Hs Hf Q' last' Hl; [cbn; rewrite app_nil_r; constructor|].
    apply StronglySorted_inv in Hs as [Hs Hi]. apply Forall_cons in Hf as [(HiN & Hh & H6) Hf].
    pose proof (found_ok kvs read_write F Hseek i HiN) as Hok. rewrite fmap_cons.
    replace (Q' ++ (cell_at <$> i :: hs')) with ((Q' ++ [cell_at i]) ++ (cell_at <$> hs')) by (by rewrite <-app_assoc).
    econstructor; [|by apply batch_op_edit|].
    - constructor.
      + rewrite batch_op_pos. apply (so_pos _ _ _ Hok).
      + rewrite batch_op_path. destruct last'; [|done]. apply Hl. left.
      + rewrite batch_op_path. split; [lia|]. exists 0. by rewrite page_lvl_0.
      + exists i. split; [apply Hin; left|apply batch_op_path].
      + rewrite batch_op_path. apply (so_live _ _ _ Hok).
      + rewrite batch_op_path. intros k Hk Hlt. destruct Hps as (_ & _ & Hpg).
        apply Hpg; [apply Hin; left|lia|lia].
    - apply IH; [intros j Hj; apply Hin; by right|done|done|]. intros j Hj. rewrite batch_op_path.
      rewrite list.Forall_forall in Hi, Hf. destruct (Hf j Hj) as (? & ? & _).
      apply (cells_sorted kvs); try done. by apply Hi. }
  intros Hs Hf Hl. by apply Hsub.
Qed.

(** ** One worker *)

Definition deep (hs : list nat) : list nat := filter (λ i, 6 < length (cell_at i)) hs.
Definition shallow (hs : list nat) : list nat := filter (λ i, length (cell_at i) ≤ 6) hs.
Definition walked (hs : list nat) : list bool → Prop := λ T, ∃ i, i ∈ deep hs ∧ T = cell_at i.

Lemma heads_elem j e i : i ∈ heads j e ↔ headb i = true ∧ j ≤ i < e.
Proof. unfold heads. rewrite list_elem_of_filter, elem_of_seq. lia || (split; intros [? ?]; split; try done; lia). Qed.

Lemma seq_sorted j n : StronglySorted lt (seq j n).
Proof.
  revert j. induction n as [|n IH]; intros j; cbn; [constructor|]. constructor; [apply IH|].
  apply list.Forall_forall. intros i Hi%elem_of_seq. lia.
Qed.

Lemma deep_sorted j e : StronglySorted lt (deep (heads j e)).
Proof.
  eapply StronglySorted_sublist; [|apply (seq_sorted j (e - j))]. unfold deep, heads.
  etrans; apply sublist_filter.
Qed.

Lemma deep_ok j e :
  e ≤ length read_write →
  Forall (λ i, i < length read_write ∧ headb i = true ∧ 6 < length (cell_at i)) (deep (heads j e)).
Proof.
  intros He. apply list.Forall_forall. intros i [H6 Hi]%list_elem_of_filter. apply heads_elem in Hi as [? ?].
  split_and!; [lia|done|done].
Qed.

Definition pending_nodes (rs : list (TriePosition * Node)) : pending_t := (λ r, (r.1, PendingNode r.2)) <$> rs.

Record worker_done (hs : list nat) (ps : PageSet) (w : PageWalker) (rs : list (TriePosition * Node))
    (us : list UpdatedPage) : Prop := {
  wd_conclude : conclude w = Some (ChildPageRoots rs us);
  wd_roots : roots_done (walked hs) kvs (upto (cell_at <$> deep hs)) 1 rs;
  wd_pages : Forall (page_done (walked hs) (upto (cell_at <$> deep hs)) 1 ps) us;
}.

Lemma worker_spec self ps :
  ru_page_walker self = walker_new (nd kvs []) (Some ROOT_PAGE_ID) →
  sorts_regions read_write F self → ru_range_end self ≤ length read_write →
  let hs := heads (ru_range_start self) (ru_range_end self) in
  pages_ready ps (deep hs) →
  ∃ w rs us, worker_done hs ps w rs us ∧
    ∀ fuel, ru_range_end self - ru_range_start self < fuel →
      ∃ e, process read_write self ps F fuel (ru_range_start self)
             (worker_state (loop_start self [] false)) =
           Some (e, {| ws_pending := batch_pending <$> shallow hs; ws_page_walker := w; ws_witnessed_paths := None |}).
Proof.
  intros Hw Hsort Hend hs Hps.
  pose proof (walk_heads ps (deep hs) [] None Hps (deep_sorted _ _) (deep_ok _ _ Hend) I) as Hwalk.
  cbn [app] in Hwalk. rewrite (upto_nil kvs) in Hwalk by apply ops_block, Hrw.
  destruct Hps as (Hpool & Hsized & _).
  destruct (run_ops_spec _ _ _ _ _ _ _ _ _ Hwalk Hpool Hkvs (walker_new (nd kvs []) (Some ROOT_PAGE_ID)))
    as (w & Hrun & Hinv & Hpp); [by apply walk_inv_new|done|done|].
  pose proof (run_ops_tracked ps Hsized Hpool _ _ _ Hrun (walker_new_tracked _ _ _)) as Htr.
  destruct (conclude_spec _ kvs _ 1 ps w Hinv Htr) as (out & Hc & Hout). rewrite Hpp in Hout.
  destruct out as [|rs us]; [done|]. destruct Hout as [Hroots Hpages]. exists w, rs, us.
  split; [by constructor|]. intros fuel Hf. cbn [loop_start worker_state]. rewrite Hw.
  destruct (process_spec kvs read_write F Hseek self ps fuel (ru_range_start self) []
    (walker_new (nd kvs []) (Some ROOT_PAGE_ID)) w Hsort Hend)
    as [e He]; [lia|by left|done|done|]. exists e. exact He.
Qed.

(** ** The sub-tries of a worker *)

Lemma head_exists j :
  j < length read_write → ∃ h, h ≤ j ∧ headb h = true ∧ cell_at h = cell_at j.
Proof.
  induction j as [|j IH]; intros Hj; [by exists 0|]. destruct (headb (S j)) eqn:Eh; [by exists (S j)|].
  destruct (IH ltac:(lia)) as (h & Hle & Hh & Hc). exists h. split_and!; [lia|done|]. rewrite Hc.
  destruct (lookup_lt_is_Some_2 read_write j ltac:(lia)) as [a Ha].
  destruct (lookup_lt_is_Some_2 read_write (S j) ltac:(lia)) as [b Hb].
  cbn [WorkerBatches.headb] in Eh. rewrite Ha, Hb in Eh. apply negb_false_iff, bool_decide_eq_true in Eh.
  unfold cell_at, key_of. rewrite Ha, Hb. done.
Qed.

Lemma cell_at_on_path j : j < length read_write → cell_at j `prefix_of` view_bits (key_of j).
Proof. intros Hj. apply (so_on_path _ _ _ (found_ok kvs read_write F Hseek j Hj)). Qed.

Lemma op_index k o : assoc ops k = Some o → ∃ j, j < length read_write ∧ key_of j = k.
Proof.
  intros Ha%assoc_Some_in. unfold WorkerBatches.ops, subtrie_ops in Ha.
  apply list_elem_of_omap in Ha as ([k' v] & Hin & E). apply list_elem_of_lookup in Hin as [j Hj].
  exists j. split; [by eapply lookup_lt_Some|]. unfold WorkerBatches.key_of. rewrite Hj. cbn. destruct v; by simplify_eq.
Qed.

(** The nodes above a position below the root page have several leaves below them. *)
Lemma live_above i q l :
  i < length read_write → q `prefix_of` cell_at i → length q < length (cell_at i) → l `prefix_of` q →
  2 ≤ length (under l kvs).
Proof.
  intros Hi Hq Hlen Hl. pose proof (found_ok kvs read_write F Hseek i Hi) as Hok.
  assert (Hp : l `prefix_of` cell_at i) by (by etrans).
  apply prefix_proper in Hp as [E|[d Hd]].
  - apply prefix_length in Hl. rewrite E in Hl. lia.
  - by apply (so_live _ _ _ Hok l d).
Qed.

Definition same_child (x y : nat) : Prop := take 6 (view_bits (key_of x)) = take 6 (view_bits (key_of y)).

(** A range of indices that has all keys below a child of the root page or none. *)
Definition range_closed (a b : nat) : Prop :=
  b ≤ length read_write ∧
  ∀ x y, x < length read_write → y < length read_write → same_child x y → a ≤ x < b → a ≤ y < b.

Lemma take_6_prefix (q v : list bool) : q `prefix_of` v → 6 ≤ length q → take 6 v = take 6 q.
Proof. intros [s ->] Hl. by rewrite take_app_le. Qed.

(** A worker has updated all there is to update below a child of the root page that it
    walked. *)
Lemma worker_below a b T k :
  range_closed a b → walked (heads a b) T → take 6 T `prefix_of` view_bits k →
  assoc (upto (cell_at <$> deep (heads a b))) k = assoc updated k.
Proof.
  intros [Hb Hcl] (i & [H6 Hi]%list_elem_of_filter & ->) Hk. apply heads_elem in Hi as [Hh Hi].
  rewrite upto_value by (done || by apply ops_block). destruct (decide (covered _ k)) as [|Hn]; [done|].
  rewrite (apply_ops_value kvs Hkvs ops (ops_block _ Hrw)) by done.
  destruct (assoc ops k) as [o|] eqn:Eo; [exfalso|done].
  destruct (op_index k o Eo) as (j & Hj & <-). destruct (head_exists j Hj) as (h & Hle & Hhh & Hc).
  pose proof (cell_at_on_path j Hj) as Hpj. pose proof (cell_at_on_path h ltac:(lia)) as Hph. rewrite Hc in Hph.
  assert (Hq : take 6 (cell_at i) `prefix_of` cell_at i) by (eexists; symmetry; apply take_drop).
  assert (Hlq : length (take 6 (cell_at i)) = 6) by (rewrite length_take; lia).
  assert (Hqj : take 6 (cell_at i) `prefix_of` cell_at j ∧ 6 < length (cell_at j)).
  { pose proof (so_terminal _ _ _ (found_ok kvs read_write F Hseek j Hj)) as Ht.
    pose proof (leaf_pairs_short (seek_terminal (found_at j))) as Hs. rewrite <-Ht in Hs.
    change (length (under (cell_at j) kvs) ≤ 1) in Hs.
    assert (Hnp : ¬ cell_at j `prefix_of` take 6 (cell_at i)).
    { intros Hp. pose proof (live_above i _ _ ltac:(lia) Hq ltac:(lia) Hp) as Hlive. lia. }
    destruct (prefix_weak_total _ _ _ Hk Hpj) as [Hp|Hp]; [|done]. split; [done|].
    apply prefix_proper in Hp as [E|[d Hd]]; [by rewrite E in Hnp|].
    apply prefix_length in Hd. rewrite length_snoc in Hd. lia. }
  destruct Hqj as [Hqj H6j].
  assert (Hsame : same_child i h).
  { unfold same_child. rewrite (take_6_prefix _ _ (cell_at_on_path i ltac:(lia))) by lia.
    rewrite (take_6_prefix (cell_at j) (view_bits (key_of h))) by (done || lia).
    rewrite (take_6_prefix _ _ Hqj) by lia. by rewrite take_take. }
  apply Hn, Exists_exists. exists (cell_at j). split; [|done]. rewrite <-Hc. apply list_elem_of_fmap_2.
  apply list_elem_of_filter. split; [by rewrite Hc|]. apply heads_elem. split; [done|].
  apply (Hcl i h); [lia|lia|done|lia].
Qed.

(** ** The root page *)

(** What the workers hand over. *)
Inductive item_ok : TriePosition * RootPagePending → Prop :=
| item_batch i :
    i < length read_write → headb i = true → length (cell_at i) ≤ 6 → item_ok (batch_pending i)
| item_node p :
    pos_ok p → length (path p) = 6 → (∀ l, l `prefix_of` path p → 2 ≤ length (under l kvs)) →
    item_ok (p, PendingNode (nd updated (path p))).

Definition item_op (x : TriePosition * RootPagePending) : walk_op :=
  match x.2 with
  | PendingNode node => OpPlace x.1 node
  | SubTrie a b prev_terminal =>
      OpReplace x.1 (leaf_ops_spliced prev_terminal (subtrie_ops (take (b - a) (drop a read_write))))
  end.

Lemma item_op_pos x : op_pos (item_op x) = x.1.
Proof. by destruct x as [p [a b t|n]]. Qed.

Lemma root_page_ops_run ps P w :
  Forall item_ok P → root_page_ops read_write ps P w = run_ops ps (item_op <$> P) w.
Proof.
  intros Hf. revert w. induction Hf as [|x P Hx Hf IH]; intros w; [done|].
  rewrite fmap_cons. cbn [run_ops root_page_ops]. destruct Hx as [i Hi Hh H6|p Hp Hl Hlive].
  - unfold WorkerBatches.batch_pending. destruct (lookup_lt_is_Some_2 _ _ Hi) as [kv Hkv].
    destruct (batch_spec kvs read_write F Hseek i kv Hkv) as (_ & Hle & _).
    rewrite slice_Some by lia. unfold item_op, run_op. cbn [mbind option_bind fst snd].
    destruct (advance_and_replace _ _ _ _); [apply IH|done].
  - unfold item_op, run_op. cbn [fst snd]. destruct (advance_and_place_node _ _ _ _); [apply IH|done].
Qed.

Definition root_ready (ps : PageSet) : Prop :=
  (∀ id, page_sized (ps_page_pool ps id)) ∧
  (∀ id page o, page_set_get ps id = Some (page, o) → page_sized page) ∧
  (2 ≤ length kvs → ∃ page origin, page_set_get ps ROOT_PAGE_ID = Some (page, origin) ∧
     page_holds kvs ROOT_PAGE_ID page).

Definition item_path (x : TriePosition * RootPagePending) : list bool := path x.1.

Lemma item_live x l d : item_ok x → (l ++ [d]) `prefix_of` item_path x → 2 ≤ length (under l kvs).
Proof.
  intros [i Hi Hh H6|p Hp Hl Hlive]; cbn.
  - apply (so_live _ _ _ (found_ok kvs read_write F Hseek i Hi)).
  - intros Hp'. apply Hlive. by eapply prefix_snoc_l.
Qed.

Lemma item_short x : item_ok x → pos_ok x.1 ∧ length (item_path x) ≤ 6.
Proof.
  intros [i Hi Hh H6|p Hp Hl Hlive]; cbn; [|split; [done|unfold item_path; cbn; lia]].
  split; [apply (so_pos _ _ _ (found_ok kvs read_write F Hseek i Hi))|done].
Qed.

Lemma item_edit Q x :
  item_ok x → op_edit kvs (upto Q) (item_op x) (upto (Q ++ [item_path x])).
Proof.
  intros [i Hi Hh H6|p Hp Hl Hlive]; cbn [item_op op_edit fst snd batch_pending item_path].
  - pose proof (found_ok kvs read_write F Hseek i Hi) as Hok. unfold WorkerBatches.batch_pending. cbn. split_and!.
    + rewrite (so_terminal _ _ _ Hok). apply leaf_pairs_short.
    + apply upto_edited; [done|by apply ops_block].
    + replace (i + batch_len read_write F i - i) with (batch_len read_write F i) by lia.
      apply (spliced_upto kvs Hkvs read_write Hrw F Hseek); [done..|]. apply elem_of_app. right. by apply list_elem_of_singleton.
  - split_and!.
    + intros E. by rewrite E in Hl.
    + by rewrite Hl.
    + apply upto_edited; [done|by apply ops_block].
    + unfold nd, sub. rewrite (under_upto_in kvs Hkvs ops (ops_block _ Hrw) _ (path p)); [done| |done].
      apply elem_of_app. right. by apply list_elem_of_singleton.
Qed.

Lemma root_walk ps P Q last :
  root_ready ps → StronglySorted later (item_path <$> P) → Forall item_ok P →
  match last with Some p => Forall (later (path p)) (item_path <$> P) | None => True end →
  walk_ok (λ _, True) kvs 0 ps None last (upto Q) (item_op <$> P) (upto (Q ++ (item_path <$> P))).
Proof.
  intros (Hpool & Hsz & Hroot) Hs Hf. revert Q last Hs. induction Hf as [|x P Hx Hf IH]; intros Q last Hs Hl.
  { cbn. rewrite app_nil_r. constructor. }
  rewrite !fmap_cons in *. apply StronglySorted_inv in Hs as [Hs Hlat].
  replace (Q ++ item_path x :: (item_path <$> P)) with ((Q ++ [item_path x]) ++ (item_path <$> P)) by (by rewrite <-app_assoc).
  destruct (item_short x Hx) as [Hpos H6]. econstructor; [|by apply item_edit|].
  - rewrite item_op_pos. constructor; [done| |done|done|by intros l d; apply item_live|].
    + destruct last; [|done]. by apply Forall_cons in Hl as [? _].
    + intros k _ Hk. fold (item_path x) in Hk |- *. replace k with 0 by lia. rewrite page_lvl_0. apply Hroot.
      destruct (item_path x) as [|d q] eqn:E; [cbn in Hk; lia|].
      rewrite <-(under_nil kvs). apply (item_live x [] d); [done|]. rewrite E. apply prefix_cons, prefix_nil.
  - rewrite item_op_pos. apply IH; [done|]. exact Hlat.
Qed.

Lemma root_spec ps P :
  root_ready ps → StronglySorted later (item_path <$> P) → Forall item_ok P →
  ∃ w us, root_page_ops read_write ps P (walker_new (nd kvs []) None) = Some w ∧
    conclude w = Some (Root (nd (upto (item_path <$> P)) []) us) ∧
    Forall (page_done (λ _, True) (upto (item_path <$> P)) 0 ps) us.
Proof.
  intros Hr Hs Hf. pose proof (root_walk ps P [] None Hr Hs Hf I) as Hwalk. cbn [app] in Hwalk.
  rewrite (upto_nil kvs) in Hwalk by apply ops_block, Hrw. destruct Hr as (Hpool & Hsized & _).
  destruct (run_ops_spec _ _ _ _ _ _ _ _ _ Hwalk Hpool Hkvs (walker_new (nd kvs []) None))
    as (w & Hrun & Hinv & Hpp); [by apply walk_inv_new|done|done|].
  pose proof (run_ops_tracked ps Hsized Hpool _ _ _ Hrun (walker_new_tracked _ _ _)) as Htr.
  destruct (conclude_spec _ kvs _ 0 ps w Hinv Htr) as (out & Hc & Hout). rewrite Hpp in Hout.
  destruct out as [root us|]; [|done]. destruct Hout as [-> Hpages]. exists w, us.
  by rewrite root_page_ops_run.
Qed.

(** ** The list of pending operations *)

Lemma items_incomparable x y :
  item_ok x → item_ok y → item_path x `prefix_of` item_path y → item_path x = item_path y.
Proof.
  assert (Hfew : ∀ i, i < length read_write → length (under (cell_at i) kvs) ≤ 1).
  { intros i Hi. change (length (under (path (seek_position (found_at i))) kvs) ≤ 1).
    rewrite (so_terminal _ _ _ (found_ok kvs read_write F Hseek i Hi)). apply leaf_pairs_short. }
  intros [i Hi Hh H6|p Hp Hl Hlive] [j Hj Hhj H6j|p' Hp' Hl' Hlive']; unfold item_path; cbn [fst batch_pending]; intros Hpre.
  - change (cell_at i `prefix_of` cell_at j) in Hpre. change (cell_at i = cell_at j). symmetry.
    eapply (terminal_same kvs (key_of i) (key_of j)); [by apply found_ok..|].
    etrans; [exact Hpre|by apply cell_at_on_path].
  - pose proof (Nat.le_trans _ _ _ (Hlive' _ Hpre) (Hfew i Hi)). lia.
  - apply prefix_full; [done|]. apply prefix_length in Hpre as Hlen. change (length (path p) = length (cell_at j)).
    change (length (path p) ≤ length (cell_at j)) in Hlen. lia.
  - apply prefix_full; [done|lia].
Qed.

Lemma item_kinds i p :
  i < length read_write → (∀ l, l `prefix_of` path p → 2 ≤ length (under l kvs)) → cell_at i ≠ path p.
Proof.
  intros Hi Hlive E. pose proof (leaf_pairs_short (seek_terminal (found_at i))) as Hs.
  rewrite <-(so_terminal _ _ _ (found_ok kvs read_write F Hseek i Hi)) in Hs.
  change (length (under (cell_at i) kvs) ≤ 1) in Hs. rewrite E in Hs. specialize (Hlive (path p) ltac:(reflexivity)). lia.
Qed.

Lemma heads_inj h h' :
  h < length read_write → h' < length read_write → headb h = true → headb h' = true →
  cell_at h = cell_at h' → h = h'.
Proof.
  intros Hn Hn' Hh Hh' E. destruct (lt_eq_lt_dec h h') as [[Hlt| ->]|Hlt]; [exfalso|done|exfalso].
  - pose proof (cells_sorted kvs read_write Hrw F Hseek h h' Hlt Hn' Hh') as Hl. rewrite E in Hl. by apply later_irrefl in Hl.
  - pose proof (cells_sorted kvs read_write Hrw F Hseek h' h Hlt Hn Hh) as Hl. rewrite E in Hl. by apply later_irrefl in Hl.
Qed.

#[local] Instance by_path_trans : Transitive by_path.
Proof.
  intros x y z. unfold by_path. intros Hxy Hyz Hxz.
  destruct (bits_compare (path x.1) (path y.1)) eqn:E1; [|destruct (bits_compare (path y.1) (path z.1)) eqn:E2|done].
  - apply bits_compare_eq in E1. by rewrite E1 in Hxz.
  - apply bits_compare_eq in E2. by rewrite <-E2, E1 in Hxz.
  - assert (Hlt : bits_lt (path x.1) (path z.1)) by (by transitivity (path y.1)).
    unfold bits_lt in Hlt. by rewrite Hlt in Hxz.
  - done.
Qed.

#[local] Instance by_path_total : Total by_path.
Proof.
  intros x y. unfold by_path. rewrite (bits_compare_antisym (path x.1) (path y.1)).
  destruct (bits_compare (path x.1) (path y.1)); cbn; auto.
Qed.

(** The items in the order of the root walk. *)
Lemma pending_sorted items :
  Forall item_ok items → NoDup (item_path <$> items) →
  StronglySorted later (item_path <$> take_root_pending items).
Proof.
  intros Hok Hnd. pose proof (merge_sort_Permutation by_path items) as Hp.
  fold (take_root_pending items) in Hp. rewrite <-Hp in Hok, Hnd.
  pose proof (StronglySorted_merge_sort by_path items) as Hs. fold (take_root_pending items) in Hs.
  clear Hp. induction Hs as [|x l Hs IH Hx]; [constructor|]. rewrite fmap_cons in *.
  apply NoDup_cons in Hnd as [Hnx Hnd]. apply Forall_cons in Hok as [Hokx Hok]. constructor; [by apply IH|].
  apply list.Forall_forall. intros q (y & -> & Hy)%list_elem_of_fmap. rewrite list.Forall_forall in Hx, Hok.
  assert (Hne : item_path x ≠ item_path y) by (intros E; apply Hnx; rewrite E; by apply list_elem_of_fmap_2).
  apply bits_lt_later; [|intros Hpre; by apply Hne, items_incomparable; [|apply Hok|]].
  specialize (Hx y Hy). unfold by_path, bits_lt in *. fold (item_path x) (item_path y) in Hx.
  destruct (bits_compare (item_path x) (item_path y)) eqn:E; [|done|done].
  by apply bits_compare_eq in E.
Qed.

(** ** All workers *)

Section workers.
Context (n : nat) (lo hi : nat → nat) (ps : nat → PageSet) (w : nat → PageWalker).
Context (rs : nat → list (TriePosition * Node)) (us : nat → list UpdatedPage).
Context (Hclosed : ∀ i, i < n → range_closed (lo i) (hi i)).
Context (Hcover : ∀ x, x < length read_write → ∃ i, i < n ∧ lo i ≤ x < hi i).
Context (Hdisj : ∀ i j x, i < n → j < n → lo i ≤ x < hi i → lo j ≤ x < hi j → i = j).
Context (Hdone : ∀ i, i < n → worker_done (heads (lo i) (hi i)) (ps i) (w i) (rs i) (us i)).

(** What a worker hands over, and what all of them do. *)
Definition items (i : nat) : pending_t :=
  (batch_pending <$> shallow (heads (lo i) (hi i))) ++ pending_nodes (rs i).
Definition all_items : pending_t := seq 0 n ≫= items.

Lemma root_walked i r :
  i < n → r ∈ rs i →
  ∃ h, lo i ≤ h < hi i ∧ h < length read_write ∧ 6 < length (cell_at h) ∧ path r.1 = take 6 (cell_at h) ∧
    walked (heads (lo i) (hi i)) (cell_at h).
Proof.
  intros Hi Hr. destruct (Hdone i Hi) as [_ (Hrs & _ & Hin & _) _]. rewrite list.Forall_forall in Hrs, Hin.
  destruct (Hrs r Hr) as (_ & Hl & _). destruct (Hin r Hr) as (T & (h & Hh & ->) & Hp & Hlt).
  exists h. pose proof Hh as [H6 Hhd]%list_elem_of_filter. apply heads_elem in Hhd as [_ Hhd].
  destruct (Hclosed i Hi) as [Hb _]. split_and!; [lia..|done| |by exists h].
  rewrite (take_6_prefix _ _ Hp), take_ge by lia. done.
Qed.

Lemma items_elem i x :
  i < n → x ∈ items i →
  (∃ h, lo i ≤ h < hi i ∧ h < length read_write ∧ headb h = true ∧ length (cell_at h) ≤ 6 ∧ x = batch_pending h) ∨
  (∃ r, r ∈ rs i ∧ x = (r.1, PendingNode r.2)).
Proof.
  intros Hi [Hx|Hx]%elem_of_app; apply list_elem_of_fmap in Hx as (h & -> & Hh); [left|right; by exists h].
  apply list_elem_of_filter in Hh as [H6 Hh]. apply heads_elem in Hh as [Hh Hr]. destruct (Hclosed i Hi) as [Hb _].
  exists h. split_and!; (lia || done).
Qed.

Lemma worker_under i T P :
  i < n → walked (heads (lo i) (hi i)) T → take 6 T `prefix_of` P →
  under P (upto (cell_at <$> deep (heads (lo i) (hi i)))) = under P updated.
Proof.
  intros Hi HT HP. apply under_value; [by apply upto_block, ops_block|by apply updated_block, ops_block|].
  intros k _ Hk. eapply worker_below; [by apply Hclosed|done|by etrans].
Qed.

Lemma items_ok i x : i < n → x ∈ items i → item_ok x.
Proof.
  intros Hi Hx. destruct (items_elem i x Hi Hx) as [(h & _ & Hn & Hh & H6 & ->)|(r & Hr & ->)]; [by constructor|].
  destruct (root_walked i r Hi Hr) as (h & Hh & Hn & H6 & Hp & Hw).
  destruct (Hdone i Hi) as [_ (Hrs & _) _]. rewrite list.Forall_forall in Hrs. destruct (Hrs r Hr) as (Hpos & Hl & ->).
  assert (E : nd (upto (cell_at <$> deep (heads (lo i) (hi i)))) (path r.1) = nd updated (path r.1)).
  { unfold nd, sub. rewrite (worker_under i (cell_at h)); [done..|]. rewrite Hp. reflexivity. }
  rewrite E. constructor; [done|lia|]. intros l Hlp. apply (live_above h (path r.1)); [done| |lia|done].
  rewrite Hp. eexists. symmetry. apply take_drop.
Qed.

Lemma items_owner i j x y :
  i < n → j < n → x ∈ items i → y ∈ items j → item_path x = item_path y → i = j.
Proof.
  intros Hi Hj Hx Hy E. pose proof (items_ok i x Hi Hx) as Hokx. pose proof (items_ok j y Hj Hy) as Hoky.
  destruct (items_elem i x Hi Hx) as [(h & Hr & Hn & Hh & H6 & ->)|(r & Hr & ->)];
    destruct (items_elem j y Hj Hy) as [(h' & Hr' & Hn' & Hh' & H6' & ->)|(r' & Hr' & ->)].
  - pose proof (heads_inj h h' Hn Hn' Hh Hh' E) as ->. by apply (Hdisj i j h').
  - exfalso. inversion Hoky as [|p Hp Hl Hlive Ep]; subst. by apply (item_kinds h r'.1).
  - exfalso. inversion Hokx as [|p Hp Hl Hlive Ep]; subst. by apply (item_kinds h' r.1).
  - destruct (root_walked i r Hi Hr) as (h & Hb & Hn & H6 & Hp & _).
    destruct (root_walked j r' Hj Hr') as (h' & Hb' & Hn' & H6' & Hp' & _).
    apply (Hdisj i j h'); [done..| |done]. destruct (Hclosed i Hi) as [_ Hcl]. apply (Hcl h h'); [done..| |done].
    unfold same_child. rewrite (take_6_prefix _ _ (cell_at_on_path h Hn)), (take_6_prefix _ _ (cell_at_on_path h' Hn')) by lia.
    by rewrite <-Hp, <-Hp'.
Qed.

Lemma later_NoDup (l : list (list bool)) : StronglySorted later l → NoDup l.
Proof.
  induction 1 as [|q l Hs IH Hq]; [constructor|]. constructor; [|done]. intros Hin.
  rewrite list.Forall_forall in Hq. by apply (later_irrefl q), Hq.
Qed.

Lemma items_NoDup i : i < n → NoDup (item_path <$> items i).
Proof.
  intros Hi. unfold items. rewrite fmap_app. apply NoDup_app. split_and!.
  - rewrite <-list_fmap_compose. apply NoDup_fmap_2_strong.
    + intros h h' Hh Hh' E. destruct (Hclosed i Hi) as [Hb _].
      apply list_elem_of_filter in Hh as [_ Hh], Hh' as [_ Hh']. apply heads_elem in Hh as [Hh ?], Hh' as [Hh' ?].
      apply heads_inj; [lia|lia|done|done|exact E].
    + apply NoDup_filter. unfold heads. apply NoDup_filter, NoDup_seq.
  - intros q (x & -> & Hx)%list_elem_of_fmap (y & E & Hy)%list_elem_of_fmap.
    assert (Hoky : item_ok y) by (apply (items_ok i); [done|]; apply elem_of_app; by right).
    apply list_elem_of_fmap in Hx as (h & -> & Hh). apply list_elem_of_fmap in Hy as (r & -> & Hr).
    inversion Hoky as [|p Hp Hl Hlive Ep]; subst. apply list_elem_of_filter in Hh as [_ Hh].
    apply heads_elem in Hh as [_ Hh]. destruct (Hclosed i Hi) as [Hb _]. apply (item_kinds h r.1); [lia|done|exact E].
  - unfold pending_nodes. rewrite <-list_fmap_compose.
    destruct (Hdone i Hi) as [_ (_ & Hs & _) _]. by apply later_NoDup.
Qed.

Lemma all_items_elem x : x ∈ all_items ↔ ∃ i, i < n ∧ x ∈ items i.
Proof.
  unfold all_items. rewrite list_elem_of_bind. split; intros (i & Hx & Hi); exists i; rewrite elem_of_seq in *;
    (split; [lia|done]) || (split; [done|lia]).
Qed.

Lemma all_items_ok : Forall item_ok all_items ∧ NoDup (item_path <$> all_items).
Proof.
  split.
  - apply list.Forall_forall. intros x (i & Hi & Hx)%all_items_elem. by apply (items_ok i).
  - unfold all_items. replace (item_path <$> (seq 0 n ≫= items)) with (seq 0 n ≫= λ i, item_path <$> items i).
    + apply NoDup_bind; [|intros i Hi%elem_of_seq; apply items_NoDup; lia|apply NoDup_seq].
      intros i j q Hi%elem_of_seq Hj%elem_of_seq (x & -> & Hx)%list_elem_of_fmap (y & E & Hy)%list_elem_of_fmap.
      apply (items_owner i j x y); [lia|lia|done..].
    + induction (seq 0 n) as [|a l IH]; [done|]. rewrite !bind_cons, fmap_app. by f_equal.
Qed.

(** The operations handed over cover all that is left. *)
Lemma upto_items P : (∀ x, x ∈ P ↔ x ∈ all_items) → upto (item_path <$> P) = updated.
Proof.
  intros HP. assert (Hcov : ∀ x k, x ∈ all_items → item_path x `prefix_of` view_bits k → covered (item_path <$> P) k).
  { intros x k Hx Hk. apply Exists_exists. exists (item_path x). split; [by apply list_elem_of_fmap_2, HP|done]. }
  rewrite <-(under_nil updated), <-(under_nil (upto _)).
  apply under_value; [by apply upto_block, ops_block|by apply updated_block, ops_block|]. intros k _ _.
  rewrite upto_value by (done || by apply ops_block). destruct (decide (covered _ k)) as [|Hn]; [done|].
  destruct (assoc ops k) as [o|] eqn:Eo.
  2: { by rewrite (apply_ops_value kvs Hkvs ops (ops_block _ Hrw)), Eo by done. }
  destruct (op_index k o Eo) as (j & Hj & <-). destruct (head_exists j Hj) as (h & Hle & Hh & Hc).
  destruct (Hcover h ltac:(lia)) as (i & Hi & Hr). pose proof (cell_at_on_path j Hj) as Hpj. rewrite <-Hc in Hpj.
  assert (Hhd : h ∈ heads (lo i) (hi i)) by (by apply heads_elem).
  destruct (decide (length (cell_at h) ≤ 6)) as [H6|H6].
  { destruct Hn. apply (Hcov (batch_pending h)); [|exact Hpj]. apply all_items_elem. exists i. split; [done|].
    apply elem_of_app. left. apply list_elem_of_fmap_2. by apply list_elem_of_filter. }
  assert (Hw : walked (heads (lo i) (hi i)) (cell_at h)).
  { exists h. split; [|done]. apply list_elem_of_filter. split; [lia|done]. }
  assert (Hq : take 6 (cell_at h) `prefix_of` view_bits (key_of j)).
  { etrans; [|exact Hpj]. eexists. symmetry. apply take_drop. }
  rewrite <-(worker_below (lo i) (hi i) (cell_at h)) by (done || by apply Hclosed).
  destruct (Hdone i Hi) as [_ (_ & _ & _ & Hkeep) _].
  destruct (decide (take 6 (cell_at h) ∈ (λ r, path r.1) <$> rs i)) as [Hin|Hin].
  { destruct Hn. apply list_elem_of_fmap in Hin as (r & Er & Hr'). apply (Hcov (r.1, PendingNode r.2)).
    - apply all_items_elem. exists i. split; [done|]. apply elem_of_app. right. by apply (list_elem_of_fmap_2 (λ r, (r.1, PendingNode r.2))).
    - unfold item_path. cbn. by rewrite <-Er. }
  specialize (Hkeep (take 6 (cell_at h)) ltac:(rewrite length_take; lia) Hin). apply (f_equal (λ l, assoc l (key_of j))) in Hkeep.
  rewrite !assoc_under, bool_decide_true in Hkeep by done. done.
Qed.

(** The pages of a worker are pages of the updated trie. *)
Lemma worker_page i u :
  i < n → u ∈ us i →
  page_holds updated (up_page_id u) (up_page u) ∧ tracked (ps i) (up_page_id u) (up_page u) (up_diff u).
Proof.
  intros Hi Hu. destruct (Hdone i Hi) as [_ _ Hus]. rewrite list.Forall_forall in Hus.
  destruct (Hus u Hu) as ([Hsz Hh] & (T & r & HT & Hr & Hmod & Hid) & Ht). split; [split; [done|]|done].
  intros l b Hp Hlive. rewrite Hid in Hp. pose proof (Nat.div_mod_eq (length r) 6) as Hdiv.
  pose proof (page_of_region l b r (length r / 6) ltac:(lia) Hp) as Hrl.
  rewrite take_ge in Hrl by lia. rewrite <-Hid in Hp.
  assert (E : ∀ q, l `prefix_of` q → under q (upto (cell_at <$> deep (heads (lo i) (hi i)))) = under q updated).
  { intros q Hq. apply (worker_under i T); [done..|]. etrans; [exact Hr|]. by etrans. }
  rewrite Hh; [|done|by rewrite E]. unfold nd, sub. rewrite E; [done|by eexists].
Qed.
End workers.
End update.
