(* ===== verification/WorkerShards.v ===== *)
(** * The keys of a worker

    A worker handles the keys between the least and the greatest key below the shard of
    pages it was given.  The keys of a shard are told by their first six bits, the index
    of the child of the root page. *)

From S2P Require Import Prelude Trie PageId Update TriePos PathProof PageDiff Wal BitboxSync PageWalker.
From S2P Require Import PagePaths PageRegion Worker WorkerLoop WorkerBatches.

#[local] Open Scope nat_scope.

(** ** Searching a key *)


Lemma search_key_spec key rw :
  key_sorted rw →
  search_key key rw ≤ length rw ∧
  ∀ x kv, rw !! x = Some kv → (x < search_key key rw ↔ bytes_lt kv.1 key).
Proof.
  intros Hs. unfold search_key.
  assert (Hss : search_sorted (λ x : KeyPath * KeyReadWrite, bytes_compare x.1 key) rw).
  { intros i j x y Hij Hx Hy. pose proof (key_sorted_lookup _ _ _ _ _ Hs Hij Hx Hy) as Hlt. split; intros E.
    - change (bytes_lt x.1 key). by transitivity y.1.
    - destruct (bytes_compare y.1 key) eqn:Ey; [|by assert (bytes_lt x.1 key) by (by transitivity y.1); congruence|done].
      apply bytes_compare_eq in Ey. subst key. unfold bytes_lt in Hlt. congruence. }
  pose proof (binary_search_by_spec _ _ Hss) as Hb. destruct (binary_search_by _ rw) as [i|i].
  - destruct Hb as (x & Hx & E). apply bytes_compare_eq in E. subst key. split; [apply lookup_lt_Some in Hx; lia|].
    intros y kv Hy. split; intros Hlt; [by apply (key_sorted_lookup _ _ _ _ _ Hs Hlt Hy Hx)|].
    destruct (decide (y < i)); [done|]. destruct (decide (y = i)) as [->|].
    + simplify_eq. by apply bytes_lt_irrefl in Hlt.
    + assert (Hgt : bytes_lt x.1 kv.1) by (apply (key_sorted_lookup rw i y); [done|lia|done..]).
      by assert (bytes_lt x.1 x.1) as ?%bytes_lt_irrefl by (by transitivity kv.1).
  - destruct Hb as (Hle & Hlo & Hhi). split; [done|]. intros y kv Hy. split; [intros Hlt; by eapply Hlo|].
    intros Hlt. destruct (decide (y < i)); [done|]. unfold bytes_lt in Hlt. rewrite (Hhi y kv) in Hlt; [done|lia|done].
Qed.

(** ** The keys of a shard *)

Lemma zeros_least (s : list bool) : bits_compare (replicate (length s) false) s ≠ Gt.
Proof. unfold bits_compare. induction s as [|[] s IH]; cbn; done. Qed.

Lemma ones_greatest (s : list bool) : bits_compare s (replicate (length s) true) ≠ Gt.
Proof. unfold bits_compare. induction s as [|[] s IH]; cbn; done. Qed.

Lemma child_bits_compare x y :
  (0 ≤ x < 64)%Z → (0 ≤ y < 64)%Z → bits_compare (child_bits x) (child_bits y) = (x ?= y)%Z.
Proof.
  intros Hx Hy. rewrite <-(Z2Nat.id x), <-(Z2Nat.id y) by lia.
  assert (Hall : Forall (λ a, Forall (λ b,
    bits_compare (child_bits (Z.of_nat a)) (child_bits (Z.of_nat b)) = (Z.of_nat a ?= Z.of_nat b)%Z)
    (seq 0 64)) (seq 0 64)) by by_compute.
  rewrite list.Forall_forall in Hall. specialize (Hall (Z.to_nat x) ltac:(apply elem_of_seq; lia)).
  rewrite list.Forall_forall in Hall. apply Hall. apply elem_of_seq. lia.
Qed.

Lemma key_split k : length k = 32 → ∃ s, view_bits k = child_bits (sextet k 0) ++ s ∧ length s = 250.
Proof.
  intros Hk. exists (drop 6 (view_bits k)). rewrite length_drop, length_view_bits. split; [|lia].
  unfold sextet. rewrite child_bits_Z by (rewrite length_take, length_drop, length_view_bits; lia).
  rewrite drop_0. by rewrite take_drop.
Qed.

Definition shard_min (a : Z) : KeyPath := min_key_path {| PageId.path := [a] |}.
Definition shard_max (b : Z) : KeyPath := max_key_path (max_descendant {| PageId.path := [b] |}).

Lemma shard_min_bits a : view_bits (shard_min a) = child_bits a ++ replicate 250 false.
Proof.
  unfold shard_min, min_key_path. rewrite view_bytes_of_bits.
  - unfold page_bits. cbn [PageId.path]. by rewrite bind_cons, app_nil_r.
  - rewrite length_app, length_replicate, length_page_bits. done.
Qed.

Lemma shard_max_bits b : view_bits (shard_max b) = child_bits b ++ replicate 250 true.
Proof.
  unfold shard_max, max_key_path. rewrite view_bytes_of_bits.
  - unfold page_bits, max_descendant. cbn [PageId.path app]. rewrite bind_cons, <-app_assoc. f_equal.
  - rewrite length_app, length_replicate, length_page_bits. done.
Qed.

Lemma shard_min_le a k :
  (0 ≤ a < 64)%Z → length k = 32 → ¬ bytes_lt k (shard_min a) ↔ (a ≤ sextet k 0)%Z.
Proof.
  intros Ha Hk. destruct (key_split k Hk) as (s & Hs & Hl).
  rewrite bytes_lt_bits by (unfold shard_min, min_key_path; by rewrite length_bytes_of_bits).
  unfold bits_lt. rewrite shard_min_bits, Hs, bits_compare_app_same_length by (by rewrite !length_child_bits).
  rewrite child_bits_compare by (apply sextet_range || done). rewrite bits_compare_antisym, <-Hl.
  pose proof (zeros_least s). destruct (Z.compare_spec (sextet k 0) a); [|split; [done|lia]|split; [lia|done]].
  split; [lia|]. intros _. by destruct (bits_compare _ s).
Qed.

Lemma shard_max_ge b k :
  (0 ≤ b < 64)%Z → length k = 32 → k ≠ shard_max b → bytes_lt k (shard_max b) ↔ (sextet k 0 ≤ b)%Z.
Proof.
  intros Hb Hk Hne. destruct (key_split k Hk) as (s & Hs & Hl).
  assert (Hlm : length (shard_max b) = 32) by (unfold shard_max, max_key_path; by rewrite length_bytes_of_bits).
  assert (Hne' : bytes_compare k (shard_max b) ≠ Eq) by (by intros E%bytes_compare_eq).
  unfold bytes_lt. rewrite bytes_compare_bits in * by congruence.
  rewrite shard_max_bits, Hs, bits_compare_app_same_length in * by (by rewrite !length_child_bits).
  rewrite child_bits_compare in * by (apply sextet_range || done). rewrite <-Hl in *.
  pose proof (ones_greatest s). destruct (Z.compare_spec (sextet k 0) b); [|split; [lia|done]|split; [done|lia]].
  split; [lia|]. intros _. by destruct (bits_compare s _).
Qed.

(** ** The range of a worker *)

Lemma shard_bounds n i r c :
  0 < n ≤ 64 → i < n → shard_region_at n i = Some (r, c) →
  ∃ start, shard_range n i = (start, c) ∧ 0 < c ∧ start + c ≤ 64 ∧
    exclusive_min r = {| PageId.path := [Z.of_nat start] |} ∧
    exclusive_max r = max_descendant {| PageId.path := [Z.of_nat (start + c - 1)] |}.
Proof.
  intros Hn Hi Hr. destruct (shard_region_at_spec n i Hn Hi) as (start & count & r' & Erange & Hc & Hb & Eat & Hfr).
  rewrite Hr in Eat. injection Eat as -> ->. exists start.
  apply from_page_id_descendants_spec in Hfr as (_ & _ & -> & _); [done|by split; [vm_compute; lia|constructor]|lia|lia].
Qed.

(** The keys in the range of a worker are those below the children of its shard. *)
Lemma worker_keys n i r c root rw :
  0 < n ≤ 64 → i < n → shard_region_at n i = Some (r, c) → block [] rw →
  max_key_path (exclusive_max r) ∉ rw.*1 →
  let self := RangeUpdater_new root rw r in
  ru_range_end self ≤ length rw ∧
  ∀ x kv, rw !! x = Some kv →
    ru_range_start self ≤ x < ru_range_end self ↔ shard_index_for n (Z.to_nat (sextet kv.1 0)) = Some i.
Proof.
  intros Hn Hi Hr [Hs Hf] Hmax self. destruct (shard_bounds n i r c Hn Hi Hr) as (start & Erange & Hc & Hb & Emin & Emax).
  unfold self, RangeUpdater_new. cbn [ru_range_start ru_range_end].
  rewrite Emin, Emax in *. fold (shard_min (Z.of_nat start)) (shard_max (Z.of_nat (start + c - 1))) in *.
  destruct (search_key_spec (shard_min (Z.of_nat start)) rw Hs) as [_ Hlo].
  destruct (search_key_spec (shard_max (Z.of_nat (start + c - 1))) rw Hs) as [Hle Hhi]. split; [done|].
  intros x kv Hx. specialize (Hlo x kv Hx). specialize (Hhi x kv Hx). rewrite list.Forall_forall in Hf.
  pose proof (list_elem_of_lookup_2 _ _ _ Hx) as Hin. destruct (Hf kv Hin) as [Hk _].
  assert (Hne : kv.1 ≠ shard_max (Z.of_nat (start + c - 1))).
  { intros E. apply Hmax. rewrite <-E. by apply list_elem_of_fmap_2. }
  rewrite (shard_max_ge (Z.of_nat (start + c - 1)) kv.1) in Hhi by (done || lia).
  pose proof (shard_min_le (Z.of_nat start) kv.1 ltac:(lia) Hk) as Hmin. rewrite <-Hlo in Hmin.
  pose proof (sextet_range kv.1 0) as Hr6.
  destruct (shard_index_for_spec n (Z.to_nat (sextet kv.1 0)) Hn ltac:(lia)) as (j & Hj & Hjn & Hiff).
  specialize (Hiff i start c Hi Erange). rewrite Hj. split; [intros [? ?]; f_equal; symmetry; apply Hiff; lia|].
  intros [= ->]. pose proof (proj2 Hiff eq_refl). lia.
Qed.

Lemma page_lvl_first q k :
  6 < length q ≤ 256 → 1 ≤ k ≤ 42 → valid (page_lvl q k) ∧
    ∃ s, page_lvl q k = {| PageId.path := bits_Z (take 6 q) :: s |}.
Proof.
  intros Hq Hk. split.
  - split; cbn [page_lvl PageId.path]; [rewrite length_fmap, length_seq; unfold MAX_PAGE_DEPTH; lia|].
    apply Forall_fmap, list.Forall_forall. intros i _. unfold compose.
    pose proof (bits_Z_range (take 6 (drop (6 * i) q))) as Hr. rewrite length_take in Hr.
    assert (2 ^ Z.of_nat (6 `min` length (drop (6 * i) q)) ≤ 64)%Z; [|lia].
    change 64%Z with (2 ^ 6)%Z. apply Z.pow_le_mono_r; lia.
  - destruct k as [|k]; [lia|]. unfold page_lvl. cbn [seq]. rewrite fmap_cons, drop_0. by eexists.
Qed.

(** A worker's region contains the pages of its keys except the root page. *)
Lemma worker_sorts n i r c root rw kvs F :
  0 < n ≤ 64 → i < n → shard_region_at n i = Some (r, c) → block [] rw →
  max_key_path (exclusive_max r) ∉ rw.*1 → (∀ kv, kv ∈ rw → seek_ok kvs kv.1 (F kv.1)) →
  sorts_regions rw F (RangeUpdater_new root rw r).
Proof.
  intros Hn Hi Hr Hrw Hmax Hseek x kv Hx Hkv. cbn [ru_region RangeUpdater_new].
  destruct (worker_keys n i r c root rw Hn Hi Hr Hrw Hmax) as [_ Hk]. apply (Hk x kv Hkv) in Hx.
  pose proof (Hseek kv (list_elem_of_lookup_2 _ _ _ Hkv)) as Hok. unfold cell_at, cell, key_of. rewrite Hkv. cbn [from_option].
  set (pos := seek_position (F kv.1)) in *. pose proof (so_page _ _ _ Hok) as Hpage. fold pos in Hpage.
  pose proof (so_pos _ _ _ Hok) as Hpos. fold pos in Hpos.
  destruct (decide (path pos = [])) as [E|E].
  { rewrite E. pose proof (length_path pos Hpos) as Hd. rewrite E in Hd. unfold TriePos.page_id, is_root in Hpage.
    rewrite <-Hd in Hpage. by injection Hpage as <-. }
  rewrite (page_id_path pos Hpos E) in Hpage. injection Hpage as Hpage. rewrite <-Hpage.
  destruct (shard_bounds n i r c Hn Hi Hr) as (start & Erange & Hc & Hb & Emin & Emax).
  unfold region_contains_exclusive. rewrite Emin, Emax.
  destruct (Nat.leb_spec (length (path pos)) 6) as [H6|H6].
  { rewrite (page_of_lvl (path pos) 0) by (destruct (path pos); [done|cbn; cbn in H6; lia]). done. }
  pose proof (level_bounds (path pos) E) as Hlev. pose proof (length_path pos Hpos) as Hlen.
  pose proof Hpos as (_ & Hd & _).
  destruct (page_lvl_first (path pos) (level (path pos)) ltac:(lia) ltac:(lia)) as [Hv [s Es]]. fold (page_of (path pos)) in *.
  pose proof (page_le_snoc [] (Z.of_nat start) _ s _ Es) as Elo.
  pose proof (page_le_max [] (Z.of_nat (start + c - 1)) _ s _ Hv ltac:(lia) Es) as Ehi.
  cbn [app] in Elo, Ehi. rewrite Elo, Ehi.
  assert (Esx : sextet kv.1 0 = bits_Z (take 6 (path pos))).
  { unfold sextet. rewrite drop_0. f_equal. destruct (so_on_path _ _ _ Hok) as [t Et]. fold pos in Et.
    rewrite Et. by rewrite take_app_le by lia. }
  rewrite <-Esx. pose proof (sextet_range kv.1 0) as Hr6.
  destruct (shard_index_for_spec n (Z.to_nat (sextet kv.1 0)) Hn ltac:(lia)) as (j & Hj & Hjn & Hiff).
  rewrite Hx in Hj. injection Hj as <-. pose proof (proj2 (Hiff i start c Hi Erange) eq_refl).
  destruct (Z.leb_spec (Z.of_nat start) (sextet kv.1 0)); [|lia].
  by destruct (Z.leb_spec (sextet kv.1 0) (Z.of_nat (start + c - 1))); [|lia].
Qed.

(** ** The greatest key of a shard *)

Lemma shard_max_sextet b : (0 ≤ b < 64)%Z → sextet (shard_max b) 0 = b.
Proof.
  intros Hb. unfold sextet. rewrite shard_max_bits, drop_0, take_app_le, take_ge by (rewrite length_child_bits; lia).
  pose proof (bits_Z_range (child_bits b)) as Hr. rewrite length_child_bits in Hr.
  apply child_bits_inj; [done|done|]. apply child_bits_Z, length_child_bits.
Qed.

(** C39: the greatest key of a shard is in the range of no worker.  The ranges are found by
    binary search, and the end of a range excludes the key that was searched for when
    the operations have it.  An operation on the greatest key below a shard, for the
    last shard the key of all ones, is thus in no range: no worker starts a batch with
    it. *)
Theorem greatest_key_skipped n regs root rw i r c x v :
  0 < n ≤ 64 → shard_regions n = Some regs → block [] rw → regs !! i = Some (r, c) →
  rw !! x = Some (max_key_path (exclusive_max r), v) →
  ∀ j r' c', regs !! j = Some (r', c') →
    let self := RangeUpdater_new root rw r' in ¬ (ru_range_start self ≤ x < ru_range_end self).
Proof.
  intros Hn Hregs [Hs Hf] Hi Hx j r' c' Hj self [Hlo Hhi].
  destruct (shard_regions_spec n Hn) as (regs' & Hr & _ & Hat). rewrite Hregs in Hr. injection Hr as <-.
  apply Hat in Hi as [Hi Hin]. apply Hat in Hj as [Hj Hjn].
  destruct (shard_bounds n i r c Hn Hin Hi) as (start & Erange & Hc & Hb & _ & Emax). rewrite Emax in Hx.
  destruct (shard_bounds n j r' c' Hn Hjn Hj) as (start' & Erange' & Hc' & Hb' & Emin' & Emax').
  unfold self, RangeUpdater_new in Hlo, Hhi. cbn [ru_range_start ru_range_end] in Hlo, Hhi. rewrite Emin' in Hlo. rewrite Emax' in Hhi.
  fold (shard_max (Z.of_nat (start + c - 1))) in Hx. fold (shard_min (Z.of_nat start')) in Hlo.
  fold (shard_max (Z.of_nat (start' + c' - 1))) in Hhi. set (k := shard_max (Z.of_nat (start + c - 1))) in *.
  assert (Hk : length k = 32) by (unfold k, shard_max, max_key_path; by rewrite length_bytes_of_bits).
  assert (Hsx : sextet k 0 = Z.of_nat (start + c - 1)) by (apply shard_max_sextet; lia).
  apply (proj2 (search_key_spec _ _ Hs) x (k, v) Hx) in Hhi. cbn [fst] in Hhi.
  assert (Hmin : ¬ bytes_lt k (shard_min (Z.of_nat start'))).
  { intros Hlt. assert (x < search_key (shard_min (Z.of_nat start')) rw); [|lia]. by apply (proj2 (search_key_spec _ _ Hs) x (k, v) Hx). }
  apply shard_min_le in Hmin; [|lia|done].
  destruct (decide (k = shard_max (Z.of_nat (start' + c' - 1)))) as [E|E].
  { rewrite E in Hhi. by apply bytes_lt_irrefl in Hhi. }
  apply shard_max_ge in Hhi; [|lia|done|done]. rewrite Hsx in *.
  destruct (shard_index_for_spec n (start + c - 1) Hn ltac:(lia)) as (a & _ & Han & Hiff).
  pose proof (proj1 (Hiff i start c Hin Erange) ltac:(lia)) as <-.
  pose proof (proj1 (Hiff j start' c' Hjn Erange') ltac:(lia)) as ->.
  rewrite Erange in Erange'. injection Erange' as <- <-. by destruct E.
Qed.

(** A write to the key of all ones, with one worker: its range is empty, and the update of
    the empty trie leaves it empty. *)
Definition last_key_write : read_write_t := [(replicate 32 xff, Write (Some (toy_key x01)))].
Definition empty_set : PageSet :=
  {| ps_map := ∅; ps_warm_up_map := None; ps_page_pool := λ _, replicate 4096 x00 |}.

Lemma greatest_key_skipped_witness :
  ∃ r c, shard_regions 1 = Some [(r, c)] ∧
    let self := RangeUpdater_new TERMINATOR last_key_write r in
    ¬ (ru_range_start self ≤ 0 < ru_range_end self) ∧
    ∃ ws out, update_loop last_key_write self empty_set (λ k, {| seek_key := k; seek_position := new; seek_page_id := None;
        seek_siblings := []; seek_terminal := None |}) (λ _, None) [] (loop_start self [] false) = Some (inr ws) ∧
      finish_range ws = Some ([], out) ∧
      out_root <$> update_root TERMINATOR last_key_write empty_set None [] out = Some (Some TERMINATOR).
Proof.
  do 2 eexists. split; [vm_compute; reflexivity|]. split.
  - assert (Hb : block [] last_key_write).
    { split; [repeat constructor|]. constructor; [|constructor]. split; [done|apply prefix_nil]. }
    eapply (greatest_key_skipped 1 _ TERMINATOR last_key_write 0 _ _ 0 (Write (Some (toy_key x01))) ltac:(lia) eq_refl Hb)
      with (j := 0); vm_compute; reflexivity.
  - do 2 eexists. split; [vm_compute; reflexivity|]. split; vm_compute; reflexivity.
Defined.
