(* ===== verification/WorkerUpdate.v ===== *)
(** * The update of the merkle trie by parallel workers

    Puts the workers of the shards and the walk of the root page together: whatever the
    schedules of the workers and the order in which they hand over their results, the
    root is that of the updated set of pairs. *)

From S2P Require Import Prelude Trie PageId Update TrieSpec TriePos PathProof PageDiff Wal BitboxSync.
From S2P Require Import PageWalker PagePaths PageLeaves PageWalkerCorrect PageBuild PageAdvance PageWalk.
From S2P Require Import PageDiffs PageWalkSpec PageRegion Worker WorkerLoop WorkerBatches WorkerCorrect.
From S2P Require Import WorkerShards.

#[local] Open Scope nat_scope.

Lemma list_choice {A} (P : nat → A → Prop) n :
  (∀ i, i < n → ∃ x, P i x) → ∃ l, length l = n ∧ ∀ i x, l !! i = Some x → P i x.
Proof.
  induction n as [|n IH]; intros HP; [by exists []|].
  destruct IH as (l & Hl & Hi); [intros i Hi; apply HP; lia|]. destruct (HP n ltac:(lia)) as [x Hx].
  exists (l ++ [x]). rewrite length_snoc. split; [lia|]. intros i y Hy.
  apply lookup_snoc_Some in Hy as [[? Hy]|[-> ->]]; [by apply Hi|by rewrite Hl].
Qed.

Lemma concat_imap_items {A B C} (g : nat → list B) (h : A → C) (l : list A) :
  concat (imap (λ i x, (g i, h x)) l).*1 = seq 0 (length l) ≫= g.
Proof.
  induction l as [|x l IH] using rev_ind; [done|].
  rewrite imap_app, fmap_app, concat_app, IH, length_app, seq_app, bind_app. f_equal. cbn. by rewrite Nat.add_0_r.
Qed.

Section parallel.
Context `{NodeHasherLaws, !NodeHasherSized}.

Lemma nd_nil kvs : nd kvs [] = node_of (trie_at 0 kvs).
Proof. unfold nd, sub. by rewrite under_nil. Qed.

Context (kvs : ops_t) (read_write : read_write_t).
Context (seek : KeyPath → Seek) (warm_ups : KeyPath → option Seek).

Abbreviation F := (found seek warm_ups).
Abbreviation updated := (apply_ops kvs (subtrie_ops read_write)).

Definition updater (r : PageRegion) : RangeUpdater := RangeUpdater_new (nd kvs []) read_write r.
Definition in_range (r : PageRegion) : list nat :=
  seq (ru_range_start (updater r)) (ru_range_end (updater r) - ru_range_start (updater r)).

(** What the update of the trie of [kvs] relies on. *)
Record update_ready (n : nat) (regs : list (PageRegion * nat)) (ps : nat → PageSet)
    (in_memory : option (list u8 * PageWalker.BucketInfo)) : Prop := {
  ur_shards : 0 < n ≤ 64;
  ur_regions : shard_regions n = Some regs;
  ur_kvs : block [] kvs;
  ur_read_write : block [] read_write;
  ur_keys : ∀ k, seek_key (F k) = k;
  ur_seek : ∀ kv, kv ∈ read_write → seek_ok kvs kv.1 (F kv.1);
  ur_max : ∀ i r c, regs !! i = Some (r, c) → max_key_path (exclusive_max r) ∉ read_write.*1;
  ur_pages : ∀ i r c, regs !! i = Some (r, c) → pages_ready kvs read_write F (ps i) (in_range r);
  ur_root : match in_memory with
            | Some (page, _) => page_holds kvs ROOT_PAGE_ID page
            | None => length kvs ≤ 1
            end;
}.

(** A page of the updated trie, with the slots in which it differs from where it came
    from in its diff, up to the exception of [covers] for the slots 0 and 1. *)
Definition page_updated (ps : PageSet) (u : UpdatedPage) : Prop :=
  page_holds updated (up_page_id u) (up_page u) ∧ tracked ps (up_page_id u) (up_page u) (up_diff u).

(** The worker of a region gives [res] under every schedule under which it ends, and it
    ends when the seeker makes progress for long enough. *)
Definition worker_gives (r : PageRegion) (ps : PageSet) (res : pending_t * WorkerOutput) : Prop :=
  (∀ schedule st, update_loop read_write (updater r) ps seek warm_ups schedule (loop_start (updater r) [] false) = Some (inr st) →
     finish_range st = Some res) ∧
  (∀ schedule, update_loop read_write (updater r) ps seek warm_ups schedule (loop_start (updater r) [] false) ≠ None) ∧
  (∀ schedule, Forall progresses schedule → 2 * length (in_range r) ≤ length schedule →
     ∃ st, update_loop read_write (updater r) ps seek warm_ups schedule (loop_start (updater r) [] false) = Some (inr st)).

Section proof.
Context (n : nat) (regs : list (PageRegion * nat)) (ps : nat → PageSet).
Context (in_memory : option (list u8 * PageWalker.BucketInfo)).
Context (Hready : update_ready n regs ps in_memory).

Definition region_at (i : nat) : PageRegion := from_option fst universe (regs !! i).
Definition lo (i : nat) : nat := ru_range_start (updater (region_at i)).
Definition hi (i : nat) : nat := ru_range_end (updater (region_at i)).

Lemma region_at_spec i :
  i < n → ∃ c, regs !! i = Some (region_at i, c) ∧ shard_region_at n i = Some (region_at i, c).
Proof.
  intros Hi. destruct (shard_regions_spec n (ur_shards _ _ _ _ Hready)) as (regs' & Hr & Hl & Hat).
  rewrite (ur_regions _ _ _ _ Hready) in Hr. injection Hr as <-.
  destruct (lookup_lt_is_Some_2 regs i ltac:(lia)) as [[r c] Hrc]. exists c. unfold region_at. rewrite Hrc.
  split; [done|]. by apply Hat.
Qed.

Lemma range_spec i :
  i < n → hi i ≤ length read_write ∧
  ∀ x kv, read_write !! x = Some kv →
    lo i ≤ x < hi i ↔ shard_index_for n (Z.to_nat (sextet kv.1 0)) = Some i.
Proof.
  intros Hi. destruct (region_at_spec i Hi) as (c & Hr & Hat).
  eapply worker_keys; [apply Hready|done|done|apply Hready|by eapply ur_max].
Qed.

Lemma ranges_closed i : i < n → range_closed read_write (lo i) (hi i).
Proof.
  intros Hi. destruct (range_spec i Hi) as [Hle Hin]. split; [done|]. intros x y Hx Hy Hs Hr.
  destruct (lookup_lt_is_Some_2 _ _ Hx) as [a Ha]. destruct (lookup_lt_is_Some_2 _ _ Hy) as [b Hb].
  apply (Hin y b Hb). apply (Hin x a Ha) in Hr. rewrite <-Hr. unfold same_child, key_of in Hs.
  rewrite Ha, Hb in Hs. cbn [from_option fst] in Hs. unfold sextet. rewrite !drop_0. by rewrite Hs.
Qed.

Lemma ranges_cover x : x < length read_write → ∃ i, i < n ∧ lo i ≤ x < hi i.
Proof.
  intros Hx. destruct (lookup_lt_is_Some_2 _ _ Hx) as [kv Hkv]. pose proof (sextet_range kv.1 0) as Hr.
  destruct (shard_index_for_spec n (Z.to_nat (sextet kv.1 0)) (ur_shards _ _ _ _ Hready) ltac:(lia)) as (i & Hi & Hin & _).
  exists i. split; [done|]. by apply (proj2 (range_spec i Hin) x kv Hkv).
Qed.

Lemma ranges_disjoint i j x : i < n → j < n → lo i ≤ x < hi i → lo j ≤ x < hi j → i = j.
Proof.
  intros Hi Hj Hxi Hxj. destruct (range_spec i Hi) as [Hle Hin]. destruct (range_spec j Hj) as [_ Hjn].
  destruct (lookup_lt_is_Some_2 read_write x ltac:(lia)) as [kv Hkv].
  apply (Hin x kv Hkv) in Hxi. apply (Hjn x kv Hkv) in Hxj. congruence.
Qed.

Lemma page_set_sized i :
  i < n → (∀ id, page_sized (ps_page_pool (ps i) id)) ∧
  (∀ id page o, page_set_get (ps i) id = Some (page, o) → page_sized page).
Proof.
  intros Hi. destruct (region_at_spec i Hi) as (c & Hr & _).
  destruct (ur_pages _ _ _ _ Hready i _ c Hr) as (? & ? & _). done.
Qed.

Lemma worker_runs i :
  i < n → ∃ res, worker_done kvs read_write F (heads read_write F (lo i) (hi i)) (ps i) res.1.1 res.1.2 res.2 ∧
    worker_gives (region_at i) (ps i)
      (items read_write F lo hi (λ _, res.1.2) i,
       {| out_root := None; out_witnessed_paths := None; out_updated_pages := res.2 |}).
Proof.
  intros Hi. destruct (region_at_spec i Hi) as (c & Hr & Hat). destruct (range_spec i Hi) as [Hle _].
  pose proof (ur_seek _ _ _ _ Hready) as Hseek. pose proof (ur_read_write _ _ _ _ Hready) as Hrw.
  destruct (worker_spec kvs (ur_kvs _ _ _ _ Hready) read_write Hrw F Hseek (updater (region_at i)) (ps i))
    as (w & rs & us & Hd & Hrun); [done| |done| |].
  { eapply worker_sorts; [apply Hready|done|done|done|by eapply ur_max|done]. }
  { destruct (ur_pages _ _ _ _ Hready i _ c Hr) as (Hpool & Hsz & Hpg). split_and!; [done..|].
    intros j k [_ [_ Hj]%heads_elem]%list_elem_of_filter. apply Hpg. apply elem_of_seq. lia. }
  exists (w, rs, us). split; [done|]. destruct (Hrun (S (hi i - lo i)) ltac:(unfold hi, lo; lia)) as [e He].
  set (res := (e, _)) in He. set (ws := {| ws_pending := _ |}) in res.
  assert (Hfin : finish_range ws = Some (items read_write F lo hi (λ _, rs) i,
    {| out_root := None; out_witnessed_paths := None; out_updated_pages := us |})).
  { unfold finish_range. cbn [ws ws_page_walker ws_witnessed_paths ws_pending].
    rewrite (wd_conclude _ _ _ _ _ _ _ _ Hd). done. }
  pose proof Hrw as [Hsorted _]. pose proof (ur_keys _ _ _ _ Hready) as Hkey.
  assert (Hon : on_track read_write (updater (region_at i)) (ps i) seek warm_ups res (loop_start (updater (region_at i)) [] false)).
  { eapply loop_start_on_track; [done| |exact He]. by apply search_key_spec. }
  assert (Hcont : ∀ kv, kv ∈ read_write → subtrie_contains (seek_position (F kv.1)) kv.1 = true).
  { intros kv Hkv. apply bool_decide_eq_true. apply (so_on_path _ _ _ (Hseek kv Hkv)). }
  split_and!.
  - intros schedule st Hst. destruct (loop_safe _ _ _ _ _ Hsorted Hkey Hle Hcont _ schedule _ Hon) as [[st' E]|E];
      rewrite Hst in E; by simplify_eq.
  - intros schedule. destruct (loop_safe _ _ _ _ _ Hsorted Hkey Hle Hcont _ schedule _ Hon) as [[st' E]|E]; by rewrite E.
  - intros schedule Hp Hl. exists ws. apply (loop_ends _ _ _ _ _ Hsorted Hkey Hle Hcont res); [done..|].
    unfold in_range in Hl. rewrite length_seq in Hl. unfold work_left. cbn [loop_start start_index pushes skips]. lia.
Qed.

Definition root_set (ps : PageSet) : PageSet :=
  match in_memory with
  | Some (root_page, bucket) => page_set_insert ps ROOT_PAGE_ID root_page (Persisted bucket)
  | None => ps
  end.

Lemma root_set_ready i : i < n → root_ready kvs (root_set (ps i)).
Proof.
  intros Hi. destruct (page_set_sized i Hi) as [Hpool Hsz]. pose proof (ur_root _ _ _ _ Hready) as Hroot.
  unfold root_set. destruct in_memory as [[page bucket]|]; [|split_and!; [done..|lia]]. split_and!.
  - done.
  - intros id page' o. unfold page_set_get, page_set_insert. cbn [ps_map ps_warm_up_map].
    destruct (decide (ROOT_PAGE_ID = id)) as [<-|Hne].
    + rewrite lookup_insert_eq. intros [= <- <-]. apply Hroot.
    + rewrite lookup_insert_ne by done. apply Hsz.
  - intros _. exists page, (Persisted bucket). split; [|done]. unfold page_set_get, page_set_insert. cbn [ps_map].
    by rewrite lookup_insert_eq.
Qed.

(** The walk of the root page, on what the workers handed over. *)
Lemma root_runs (l : list (PageWalker * list (TriePosition * Node) * list UpdatedPage)) j pending output :
  let rs := λ i, from_option (λ x, x.1.2) [] (l !! i) in
  length l = n →
  (∀ i x, l !! i = Some x →
     worker_done kvs read_write F (heads read_write F (lo i) (hi i)) (ps i) x.1.1 x.1.2 x.2) →
  j < n → pending ≡ₚ all_items read_write F n lo hi rs →
  ∃ us, update_root (nd kvs []) read_write (ps j) in_memory pending output =
      Some {| out_root := Some (nd updated []); out_witnessed_paths := out_witnessed_paths output;
              out_updated_pages := out_updated_pages output ++ us |} ∧
    Forall (page_updated (root_set (ps j))) us.
Proof.
  intros rs Hl Hdone Hj Hperm. pose proof (ur_kvs _ _ _ _ Hready) as Hkvs. pose proof (ur_read_write _ _ _ _ Hready) as Hrw.
  pose proof (ur_seek _ _ _ _ Hready) as Hseek.
  set (w := λ i, from_option (λ x : _ * _ * list UpdatedPage, x.1.1) (walker_new [] None) (l !! i)).
  set (us := λ i, from_option snd [] (l !! i)).
  assert (Hd : ∀ i, i < n → worker_done kvs read_write F (heads read_write F (lo i) (hi i)) (ps i) (w i) (rs i) (us i)).
  { intros i Hi. destruct (lookup_lt_is_Some_2 l i ltac:(lia)) as [x Hx]. unfold w, rs, us. rewrite Hx. by apply Hdone. }
  destruct (all_items_ok kvs Hkvs read_write Hrw F Hseek n lo hi ps w rs us ranges_closed ranges_disjoint Hd) as [Hok Hnd].
  rewrite <-Hperm in Hok, Hnd. pose proof (pending_sorted kvs read_write F Hseek pending Hok Hnd) as Hs.
  pose proof (merge_sort_Permutation by_path pending) as Hp. fold (take_root_pending pending) in Hp.
  rewrite <-Hp in Hok.
  destruct (root_spec kvs Hkvs read_write Hrw F Hseek (root_set (ps j)) (take_root_pending pending)) as (rw & rus & Hrun & Hc & Hus);
    [by apply root_set_ready|done..|].
  assert (Hall : WorkerBatches.upto kvs (ops read_write) (item_path <$> take_root_pending pending) = updated).
  { apply (upto_items kvs Hkvs read_write Hrw F Hseek n lo hi ps w rs us ranges_closed ranges_cover Hd).
    intros x. by rewrite Hp, Hperm. }
  rewrite Hall in Hc, Hus. exists rus. split.
  - unfold update_root. change (match in_memory with Some (root_page, root_page_bucket) => _ | None => _ end) with (root_set (ps j)).
    rewrite Hrun. cbn [mbind option_bind]. by rewrite Hc.
  - eapply Forall_impl; [exact Hus|]. intros u (Hh & _ & Ht). done.
Qed.
End proof.

(** C1: the parallel update of a session that collects no witness computes the updated
    trie.  The keys are divided among 1 to 64 workers by the shards of the page cache.
    Each worker, under every schedule of its seeker, does not panic, ends once the
    seeker has made enough progress, and its result does not depend on the schedule.
    In whatever order the workers handed over their operations, and whichever is last,
    the walk of the root page succeeds, the new root is that of the trie of the
    updated pairs, and every page of the output holds the nodes of that trie.  Its
    diff has every slot that changed, except that it may miss a slot 0 or 1 that
    became a terminator ([covers]).  Relied on ([update_ready]): sorted keys; seeks
    and warm-ups that find the terminals of the keys in the old trie; page sets with
    the old pages on the way to them; the root page in memory unless the trie has at
    most one pair; no key that is the greatest of a shard. *)
Theorem parallel_update_correct n regs ps in_memory :
  update_ready n regs ps in_memory →
  ∃ results : list (pending_t * WorkerOutput), length results = n ∧
    (∀ i r c res, regs !! i = Some (r, c) → results !! i = Some res →
       worker_gives r (ps i) res ∧ Forall (page_updated (ps i)) (out_updated_pages res.2)) ∧
    ∀ pending j res, pending ≡ₚ concat results.*1 → results !! j = Some res →
      ∃ us, update_root (node_of (trie_at 0 kvs)) read_write (ps j) in_memory pending res.2 =
          Some {| out_root := Some (node_of (trie_at 0 updated)); out_witnessed_paths := None;
                  out_updated_pages := out_updated_pages res.2 ++ us |} ∧
        Forall (page_updated (root_set in_memory (ps j))) us.
Proof.
  intros Hready. destruct (list_choice _ n (worker_runs n regs ps in_memory Hready)) as (l & Hl & Hi).
  set (rs := λ i, from_option (λ x : _ * _ * list UpdatedPage, x.1.2) [] (l !! i)).
  exists (imap (λ i x, (items read_write F (lo regs) (hi regs) rs i,
    {| out_root := None; out_witnessed_paths := None; out_updated_pages := x.2 |})) l).
  rewrite length_imap. split_and!; [done| |].
  - intros i r c res Hr Hres. rewrite list_lookup_imap in Hres. apply fmap_Some in Hres as (x & Hx & ->).
    destruct (Hi i x Hx) as [Hd Hg]. pose proof (lookup_lt_Some _ _ _ Hx) as Hlt.
    destruct (region_at_spec n regs ps in_memory Hready i ltac:(lia)) as (c' & Hr' & _).
    rewrite Hr in Hr'. injection Hr' as Er _. rewrite Er.
    assert (Eit : items read_write F (lo regs) (hi regs) rs i = items read_write F (lo regs) (hi regs) (λ _, x.1.2) i)
      by (unfold items, rs; by rewrite Hx).
    rewrite Eit. split; [exact Hg|].
    apply list.Forall_forall. intros u Hu.
    set (w := λ i, from_option (λ x : _ * _ * list UpdatedPage, x.1.1) (walker_new [] None) (l !! i)).
    eapply (worker_page kvs (ur_kvs _ _ _ _ Hready) read_write (ur_read_write _ _ _ _ Hready) F (ur_seek _ _ _ _ Hready)
      n (lo regs) (hi regs) ps w rs (λ j, from_option snd [] (l !! j))).
    + intros j. by eapply ranges_closed.
    + intros j Hj. destruct (lookup_lt_is_Some_2 l j ltac:(lia)) as [y Hy]. unfold w, rs. rewrite Hy. by apply Hi.
    + lia.
    + by rewrite Hx.
  - intros pending j res Hp Hres. rewrite list_lookup_imap in Hres. apply fmap_Some in Hres as (x & Hx & ->).
    pose proof (lookup_lt_Some _ _ _ Hx) as Hlt.
    destruct (root_runs n regs ps in_memory Hready l j pending
      {| out_root := None; out_witnessed_paths := None; out_updated_pages := x.2 |}) as (us & Hu & Hus); [done| |lia| |].
    + intros i y Hy. by apply Hi.
    + by rewrite Hp, concat_imap_items, Hl.
    + exists us. split; [|done]. rewrite !nd_nil in Hu. exact Hu.
Qed.
End parallel.

(** ** An update by two workers *)

(** Two pairs with eight bits in common; one gets a new value, and a pair is inserted
    in the other half of the trie. *)
Definition near_key : KeyPath := x00 :: x80 :: replicate 30 x00.
Definition old_pairs : ops_t := [(toy_key x00, toy_key x01); (near_key, toy_key x02)].
Definition new_values : read_write_t :=
  [(toy_key x00, Write (Some (toy_key x05))); (toy_key xc0, Write (Some (toy_key x06)))].

Definition split_paths : list (list bool) :=
  seq 0 9 ≫= λ j, [replicate j false ++ [false]; replicate j false ++ [true]].
Definition old_page (id : PageId) : list u8 :=
  foldl (λ page q,
    if bool_decide (page_of q = id) then default page (set_node page (index_of_path q) (nd old_pairs q)) else page)
    (replicate 4096 x00) split_paths.

Definition old_seek (k : KeyPath) : Seek :=
  let bit := default false (head (view_bits k)) in
  let bits := if bit then [true] else replicate 9 false in
  {| seek_key := k; seek_position := default new (from_bitslice bits); seek_page_id := Some (page_of bits);
     seek_siblings := []; seek_terminal := if bit then None else Some {| Trie.key_path := toy_key x00; value_hash := toy_key x01 |} |}.

Definition child_page : PageId := {| PageId.path := [0%Z] |}.
Definition one_page_set (id : PageId) (page : list u8) : PageSet :=
  {| ps_map := {[ id := (page, Persisted (BucketKnown 7)) ]}; ps_warm_up_map := None;
     ps_page_pool := λ _, replicate 4096 x00 |}.
Definition old_set : PageSet := one_page_set child_page (old_page child_page).

Lemma one_page_get id page id' r :
  page_set_get (one_page_set id page) id' = Some r ↔ id' = id ∧ r = (page, Persisted (BucketKnown 7)).
Proof.
  unfold page_set_get, one_page_set. cbn [ps_map ps_warm_up_map].
  destruct (decide (id = id')) as [<-|Hne]; [rewrite lookup_singleton_eq|rewrite lookup_singleton_ne by done; cbn]; naive_solver.
Qed.

Lemma one_page_sized id page :
  page_sized page → ∀ id' page' o, page_set_get (one_page_set id page) id' = Some (page', o) → page_sized page'.
Proof. intros Hp id' page' o [_ [= -> _]]%one_page_get. done. Qed.

Lemma old_live l : 2 ≤ length (under l old_pairs) → ∃ j, j < 9 ∧ l = replicate j false.
Proof.
  intros Hl. unfold under, old_pairs in Hl. rewrite !filter_cons in Hl. cbn [fst] in Hl.
  destruct (decide (l `prefix_of` view_bits (toy_key x00))) as [H1'|], (decide (l `prefix_of` view_bits near_key)) as [H2'|];
    rewrite ?filter_nil in Hl; cbn in Hl; try lia.
  exists (length l). assert (Hlen : length l < 9).
  { destruct (decide (length l < 9)) as [|Hge]; [done|]. exfalso.
    destruct (lookup_lt_is_Some_2 l 8 ltac:(lia)) as [b Hb].
    pose proof (prefix_lookup_Some _ _ _ _ Hb H1') as E1. pose proof (prefix_lookup_Some _ _ _ _ Hb H2') as E2.
    vm_compute in E1, E2. congruence. }
  split; [done|]. destruct H1' as [s Hs]. apply (f_equal (take (length l))) in Hs. rewrite take_app_length in Hs.
  rewrite <-Hs. assert (Hall : Forall (λ j, take j (view_bits (toy_key x00)) = replicate j false) (seq 0 9)) by by_compute.
  rewrite list.Forall_forall in Hall. rewrite Hall by (apply elem_of_seq; lia). by rewrite length_replicate.
Qed.

Lemma old_page_holds id : id ∈ [ROOT_PAGE_ID; child_page] → page_holds old_pairs id (old_page id).
Proof.
  assert (Hall : Forall (λ id, page_sized (old_page id) ∧ Forall (λ j, Forall (λ b, page_of (replicate j false ++ [b]) = id →
    page_slot (old_page id) (index_of_path (replicate j false ++ [b])) = nd old_pairs (replicate j false ++ [b]))
    [false; true]) (seq 0 9)) [ROOT_PAGE_ID; child_page]) by by_compute.
  intros Hid. rewrite list.Forall_forall in Hall. destruct (Hall id Hid) as [Hsz Hs]. split; [done|].
  intros l b Hp (j & Hj & ->)%old_live. rewrite list.Forall_forall in Hs.
  specialize (Hs j ltac:(apply elem_of_seq; lia)). rewrite list.Forall_forall in Hs. apply Hs; [destruct b; [right; left|left]|done].
Qed.

Lemma old_seek_ok kv : kv ∈ new_values → seek_ok old_pairs kv.1 (old_seek kv.1).
Proof.
  intros Hkv. assert (Hlive : ∀ P, (∀ j, j < length P → 2 ≤ length (under (take j P) old_pairs)) →
    ∀ l d, (l ++ [d]) `prefix_of` P → 2 ≤ length (under l old_pairs)).
  { intros P HP l d [s ->]. specialize (HP (length l)). rewrite <-app_assoc, take_app_length in HP. apply HP.
    rewrite length_app. cbn. lia. }
  assert (Hall : Forall (λ kv : KeyPath * KeyReadWrite, pos_ok (seek_position (old_seek kv.1)) ∧
    path (seek_position (old_seek kv.1)) `prefix_of` view_bits kv.1 ∧
    under (path (seek_position (old_seek kv.1))) old_pairs = leaf_pairs (seek_terminal (old_seek kv.1)) ∧
    Forall (λ j, 2 ≤ length (under (take j (path (seek_position (old_seek kv.1)))) old_pairs))
      (seq 0 (length (path (seek_position (old_seek kv.1))))) ∧
    TriePos.page_id (seek_position (old_seek kv.1)) = Some (seek_page_id (old_seek kv.1))) new_values) by by_compute.
  rewrite list.Forall_forall in Hall. destruct (Hall kv Hkv) as (Hp & Hon & Ht & Hl & Hpg). constructor; try done.
  apply Hlive. intros j Hj. rewrite list.Forall_forall in Hl. apply Hl, elem_of_seq. lia.
Qed.

Lemma block_check {V} (l : list (KeyPath * V)) :
  Forall (λ kv : KeyPath * V, length kv.1 = 32) l → key_sorted l → block [] l.
Proof. intros Hl Hs. split; [done|]. eapply Forall_impl; [exact Hl|]. intros kv ?. split; [done|apply prefix_nil]. Qed.

Definition two_regions : list (PageRegion * nat) := default [] (shard_regions 2).

Lemma old_ready :
  update_ready old_pairs new_values old_seek (λ _, None) 2 two_regions (λ _, old_set)
    (Some (old_page ROOT_PAGE_ID, BucketKnown 3)).
Proof.
  assert (Hcell : Forall (λ i, Forall (λ k, 6 * k < length (cell_at new_values (found old_seek (λ _, None)) i) →
      page_lvl (cell_at new_values (found old_seek (λ _, None)) i) k = child_page) [1]) [0; 1] ∧
    Forall (λ i, length (cell_at new_values (found old_seek (λ _, None)) i) ≤ 9) [0; 1]) by by_compute.
  assert (Hrange : Forall (λ rc : PageRegion * nat, Forall (λ i, i < 2) (in_range old_pairs new_values rc.1)) two_regions) by by_compute.
  constructor.
  - lia.
  - by_compute.
  - apply block_check; [by repeat constructor|by repeat constructor].
  - apply block_check; [by repeat constructor|by repeat constructor].
  - done.
  - apply old_seek_ok.
  - intros i r c Hi. assert (Hall : Forall (λ rc : PageRegion * nat, max_key_path (exclusive_max rc.1) ∉ new_values.*1) two_regions) by by_compute.
    rewrite list.Forall_forall in Hall. by apply (Hall (r, c)), (list_elem_of_lookup_2 _ i).
  - intros i r c Hi. split_and!.
    + done.
    + apply one_page_sized. apply (old_page_holds child_page). right. left.
    + intros x k Hx Hk H6. rewrite list.Forall_forall in Hrange. specialize (Hrange _ (list_elem_of_lookup_2 _ _ _ Hi)).
      rewrite list.Forall_forall in Hrange. specialize (Hrange x Hx). destruct Hcell as [Hlvl Hlen].
      rewrite list.Forall_forall in Hlvl, Hlen.
      assert (Hx2 : x ∈ [0; 1]) by (destruct x as [|[|]]; [left|right; left|lia]).
      specialize (Hlen x Hx2). replace k with 1 in * by lia.
      specialize (Hlvl x Hx2). apply Forall_cons in Hlvl as [Hlvl _]. rewrite (Hlvl H6).
      exists (old_page child_page), (Persisted (BucketKnown 7)). split; [by apply one_page_get|].
      apply old_page_holds. right. left.
  - apply old_page_holds. left.
Qed.

Lemma parallel_update_correct_witness :
  ∃ results : list (pending_t * WorkerOutput), length results = 2 ∧
    ∀ pending j res, pending ≡ₚ concat results.*1 → results !! j = Some res →
      ∃ us, update_root (node_of (trie_at 0 old_pairs)) new_values old_set (Some (old_page ROOT_PAGE_ID, BucketKnown 3))
          pending res.2 =
        Some {| out_root := Some (node_of (trie_at 0 [(toy_key x00, toy_key x05); (near_key, toy_key x02);
                                                      (toy_key xc0, toy_key x06)]));
                out_witnessed_paths := None; out_updated_pages := out_updated_pages res.2 ++ us |}.
Proof.
  destruct (parallel_update_correct old_pairs new_values old_seek (λ _, None) 2 two_regions (λ _, old_set)
    (Some (old_page ROOT_PAGE_ID, BucketKnown 3)) old_ready) as (results & Hl & _ & Hroot).
  exists results. split; [done|]. intros pending j res Hp Hj. destruct (Hroot pending j res Hp Hj) as (us & Hu & _).
  exists us. exact Hu.
Defined.
