(* ===== verification/Meta.v ===== *)
(** * The manifest

    Models [nomt/src/store/meta.rs]: the page of metadata that every sync replaces, and
    which is read when the database is opened. *)

From S2P Require Import Prelude.

#[local] Open Scope nat_scope.

Definition MAGIC : list u8 := [x4e; x4f; x4d; x54].
Definition VERSION : Z := 1.
Definition META_SIZE : nat := 64.

Record Meta := {
  magic : list u8;
  version : Z;
  ln_freelist_pn : Z;
  ln_bump : Z;
  bbn_freelist_pn : Z;
  bbn_bump : Z;
  sync_seqn : Z;
  bitbox_num_pages : Z;
  bitbox_seed : list u8;
  rollback_start_live : Z;
  rollback_end_live : Z;
}.

Definition Meta_create_new (seed : list u8) (num_pages : Z) : Meta :=
  {| magic := MAGIC; version := VERSION; ln_freelist_pn := 0; ln_bump := 1; bbn_freelist_pn := 0;
     bbn_bump := 1; sync_seqn := 0; bitbox_num_pages := num_pages; bitbox_seed := seed;
     rollback_start_live := 0; rollback_end_live := 0 |}.

(** ** The codec *)

Definition encode_to (self : Meta) (buf : list u8) : option (list u8) :=
  let? _ := oassert (META_SIZE <=? length buf) in
  let? buf := copy_from_slice buf 0 4 (magic self) in
  let? buf := copy_from_slice buf 4 8 (to_le_bytes 4 (version self)) in
  let? buf := copy_from_slice buf 8 12 (to_le_bytes 4 (ln_freelist_pn self)) in
  let? buf := copy_from_slice buf 12 16 (to_le_bytes 4 (ln_bump self)) in
  let? buf := copy_from_slice buf 16 20 (to_le_bytes 4 (bbn_freelist_pn self)) in
  let? buf := copy_from_slice buf 20 24 (to_le_bytes 4 (bbn_bump self)) in
  let? buf := copy_from_slice buf 24 28 (to_le_bytes 4 (sync_seqn self)) in
  let? buf := copy_from_slice buf 28 32 (to_le_bytes 4 (bitbox_num_pages self)) in
  let? buf := copy_from_slice buf 32 48 (bitbox_seed self) in
  let? buf := copy_from_slice buf 48 56 (to_le_bytes 8 (rollback_start_live self)) in
  copy_from_slice buf 56 64 (to_le_bytes 8 (rollback_end_live self)).

(** [uN::from_le_bytes(buf[a..b].try_into().unwrap())] *)
Definition le_field (buf : list u8) (a b : nat) : option Z :=
  let? bs := slice buf a b in Some (from_le_bytes bs).

Definition meta_decode (buf : list u8) : option Meta :=
  let? _ := oassert (META_SIZE <=? length buf) in
  let? magic := slice buf 0 4 in
  let? version := le_field buf 4 8 in
  let? ln_freelist_pn := le_field buf 8 12 in
  let? ln_bump := le_field buf 12 16 in
  let? bbn_freelist_pn := le_field buf 16 20 in
  let? bbn_bump := le_field buf 20 24 in
  let? sync_seqn := le_field buf 24 28 in
  let? bitbox_num_pages := le_field buf 28 32 in
  let? bitbox_seed := slice buf 32 48 in
  let? rollback_start_live := le_field buf 48 56 in
  let? rollback_end_live := le_field buf 56 64 in
  Some {| magic := magic; version := version; ln_freelist_pn := ln_freelist_pn; ln_bump := ln_bump;
          bbn_freelist_pn := bbn_freelist_pn; bbn_bump := bbn_bump; sync_seqn := sync_seqn;
          bitbox_num_pages := bitbox_num_pages; bitbox_seed := bitbox_seed;
          rollback_start_live := rollback_start_live; rollback_end_live := rollback_end_live |}.

(** ** Validation *)

Inductive MetaError :=
| InvalidMagic (magic : list u8)
| InvalidVersion
| NewerVersion (version : Z)
| HalfNilRange (start end_ : Z).

Definition meta_validate (self : Meta) : outcome (list MetaError) () :=
  let errors := if bool_decide (magic self = MAGIC) then [] else [InvalidMagic (magic self)] in
  let errors := errors ++
    (if (version self <? 1)%Z then [InvalidVersion]
     else if (VERSION <? version self)%Z then [NewerVersion (version self)] else []) in
  let errors := errors ++
    (if xorb (rollback_start_live self =? 0)%Z (rollback_end_live self =? 0)%Z
     then [HalfNilRange (rollback_start_live self) (rollback_end_live self)] else []) in
  match errors with [] => Ok () | _ => Err errors end.

(** ** The file *)

(** The page of the file, as far as it is read; the other bytes of the page written are
    those of a fresh page of the pool. *)
Definition PAGE_SIZE : nat := 4096.

Definition meta_read (file : list u8) : outcome () Meta :=
  if length file <? PAGE_SIZE then Err ()
  else or_panic (let? buf := slice (take PAGE_SIZE file) 0 META_SIZE in meta_decode buf).

Definition meta_write (pool_page : list u8) (self : Meta) (file : list u8) : option (list u8) :=
  let? buf := slice pool_page 0 META_SIZE in
  let? buf := encode_to self buf in
  let page := buf ++ drop META_SIZE pool_page in
  Some (page ++ drop (length page) file).

(** ** Correctness *)

(** The fields fit their widths. *)
Record meta_ok (m : Meta) : Prop := {
  mo_magic : length (magic m) = 4;
  mo_version : is_u32 (version m);
  mo_ln_freelist : is_u32 (ln_freelist_pn m);
  mo_ln_bump : is_u32 (ln_bump m);
  mo_bbn_freelist : is_u32 (bbn_freelist_pn m);
  mo_bbn_bump : is_u32 (bbn_bump m);
  mo_seqn : is_u32 (sync_seqn m);
  mo_pages : is_u32 (bitbox_num_pages m);
  mo_seed : length (bitbox_seed m) = 16;
  mo_start : is_u64 (rollback_start_live m);
  mo_end : is_u64 (rollback_end_live m);
}.

Definition meta_bytes (m : Meta) : list u8 :=
  magic m ++ to_le_bytes 4 (version m) ++ to_le_bytes 4 (ln_freelist_pn m) ++ to_le_bytes 4 (ln_bump m) ++
  to_le_bytes 4 (bbn_freelist_pn m) ++ to_le_bytes 4 (bbn_bump m) ++ to_le_bytes 4 (sync_seqn m) ++
  to_le_bytes 4 (bitbox_num_pages m) ++ bitbox_seed m ++ to_le_bytes 8 (rollback_start_live m) ++
  to_le_bytes 8 (rollback_end_live m).

Lemma length_meta_bytes m : meta_ok m → length (meta_bytes m) = META_SIZE.
Proof. intros Hm. unfold meta_bytes. rewrite !length_app, !length_to_le_bytes, (mo_magic _ Hm), (mo_seed _ Hm). done. Qed.

(** Filling a buffer from the left. *)
Lemma fill_next {A} (pre rest src : list A) a b :
  length pre = a → length src = b - a → a ≤ b → b - a ≤ length rest →
  copy_from_slice (pre ++ rest) a b src = Some ((pre ++ src) ++ drop (b - a) rest).
Proof.
  intros <- Hs Hab Hr. rewrite copy_from_slice_Some by (rewrite ?length_app; lia).
  rewrite take_app_length, drop_app_ge, <-app_assoc by lia. done.
Qed.

Lemma encode_to_spec m buf :
  meta_ok m → META_SIZE ≤ length buf → encode_to m buf = Some (meta_bytes m ++ drop META_SIZE buf).
Proof.
  intros Hm Hlen. unfold encode_to, META_SIZE in *. rewrite (proj2 (Nat.leb_le _ _)) by done. simpl oassert.
  cbn [mbind option_bind]. pose proof (mo_magic _ Hm) as H1. pose proof (mo_seed _ Hm) as H2.
  rewrite (fill_next [] buf _ 0 4) by (rewrite ?length_to_le_bytes; simpl; lia).
  cbn [mbind option_bind].
  do 9 (rewrite fill_next by (rewrite ?length_app, ?length_drop, ?length_to_le_bytes, ?H1, ?H2; simpl; lia);
        cbn [mbind option_bind]).
  rewrite fill_next by (rewrite ?length_app, ?length_drop, ?length_to_le_bytes, ?H1, ?H2; simpl; lia).
  rewrite !drop_drop. unfold meta_bytes. rewrite <-!app_assoc. done.
Qed.

(** Reading a field from where it was put. *)
Lemma slice_skip {A} (x l : list A) a b :
  length x ≤ a → a ≤ b → slice (x ++ l) a b = slice l (a - length x) (b - length x).
Proof.
  intros Ha Hab. unfold slice. rewrite length_app, drop_app_ge by done.
  replace (b - length x - (a - length x)) with (b - a) by lia.
  destruct (Nat.leb_spec a b), (Nat.leb_spec (a - length x) (b - length x)); try lia.
  destruct (Nat.leb_spec b (length x + length l)), (Nat.leb_spec (b - length x) (length l)); try lia; done.
Qed.

Lemma slice_here {A} (x l : list A) b : length x = b → slice (x ++ l) 0 b = Some x.
Proof.
  intros <-. rewrite slice_Some by (rewrite ?length_app; lia). by rewrite drop_0, Nat.sub_0_r, take_app_length.
Qed.

Lemma le_field_here n z l : (0 ≤ z < 256 ^ Z.of_nat n)%Z → le_field (to_le_bytes n z ++ l) 0 n = Some z.
Proof.
  intros Hz. unfold le_field. rewrite slice_here by apply length_to_le_bytes. simpl.
  by rewrite from_to_le_bytes, Z.mod_small.
Qed.

Lemma le_field_skip x l a b :
  length x ≤ a → a ≤ b → le_field (x ++ l) a b = le_field l (a - length x) (b - length x).
Proof. intros Ha Hb. unfold le_field. by rewrite slice_skip. Qed.

Ltac skip_fields H1 H2 :=
  repeat ((first [rewrite slice_skip | rewrite le_field_skip]);
          [|rewrite ?length_to_le_bytes, ?H1, ?H2; simpl; lia..];
          rewrite ?length_to_le_bytes, ?H1, ?H2; cbn [Nat.sub]).

Lemma meta_decode_bytes m rest : meta_ok m → meta_decode (meta_bytes m ++ rest) = Some m.
Proof.
  intros Hm. pose proof (length_meta_bytes _ Hm) as Hlen. destruct Hm as [H1 ? ? ? ? ? ? ? H2 ? ?].
  unfold meta_decode. rewrite (proj2 (Nat.leb_le _ _)) by (rewrite length_app; lia). cbn [oassert mbind option_bind].
  set (buf := meta_bytes m ++ rest).
  assert (slice buf 0 4 = Some (magic m) ∧ le_field buf 4 8 = Some (version m) ∧
    le_field buf 8 12 = Some (ln_freelist_pn m) ∧ le_field buf 12 16 = Some (ln_bump m) ∧
    le_field buf 16 20 = Some (bbn_freelist_pn m) ∧ le_field buf 20 24 = Some (bbn_bump m) ∧
    le_field buf 24 28 = Some (sync_seqn m) ∧ le_field buf 28 32 = Some (bitbox_num_pages m) ∧
    slice buf 32 48 = Some (bitbox_seed m) ∧ le_field buf 48 56 = Some (rollback_start_live m) ∧
    le_field buf 56 64 = Some (rollback_end_live m)) as (-> & -> & -> & -> & -> & -> & -> & -> & -> & -> & ->).
  { subst buf. unfold meta_bytes. rewrite <-!app_assoc.
    split_and!; skip_fields H1 H2; first [by apply le_field_here|by apply slice_here]. }
  by destruct m.
Qed.

Lemma le_field_some buf a b :
  a ≤ b → b ≤ length buf → le_field buf a b = Some (from_le_bytes (take (b - a) (drop a buf))).
Proof. intros. unfold le_field. by rewrite slice_Some. Qed.

Lemma le_field_range n bs : n ≤ length bs → (0 ≤ from_le_bytes (take n bs) < 256 ^ Z.of_nat n)%Z.
Proof. intros H. pose proof (from_le_bytes_range (take n bs)) as Hr. by rewrite length_take_le in Hr. Qed.

Lemma le_field_bytes n bs : n ≤ length bs → to_le_bytes n (from_le_bytes (take n bs)) = take n bs.
Proof. intros H. pose proof (to_from_le_bytes (take n bs)) as Hr. by rewrite length_take_le in Hr. Qed.

(** Every buffer that is long enough is the encoding of one well-formed manifest. *)
Lemma meta_decode_total buf :
  META_SIZE ≤ length buf →
  ∃ m, meta_decode buf = Some m ∧ meta_ok m ∧ meta_bytes m = take META_SIZE buf.
Proof.
  intros Hlen. unfold meta_decode, META_SIZE in *. rewrite (proj2 (Nat.leb_le _ _)) by done.
  cbn [oassert mbind option_bind].
  repeat ((first [rewrite slice_Some by lia|rewrite le_field_some by lia]); cbn [mbind option_bind Nat.sub]).
  eexists. split; [reflexivity|]. split.
  - split; cbn; try (rewrite length_take, length_drop; lia); try (apply le_field_range; rewrite length_drop; lia).
  - unfold meta_bytes. cbn [magic version ln_freelist_pn ln_bump bbn_freelist_pn bbn_bump sync_seqn
      bitbox_num_pages bitbox_seed rollback_start_live rollback_end_live].
    rewrite !le_field_bytes by (rewrite length_drop; lia).
    rewrite drop_0. rewrite !app_assoc. by do 10 (rewrite take_take_drop; cbn [Nat.add]).
Qed.

Lemma meta_write_read m page file :
  meta_ok m → length page = PAGE_SIZE →
  ∃ file', meta_write page m file = Some file' ∧ meta_read file' = Ok m ∧ PAGE_SIZE ≤ length file'.
Proof.
  intros Hm Hpage. pose proof (length_meta_bytes _ Hm) as Hl. unfold PAGE_SIZE, META_SIZE in *.
  unfold meta_write, META_SIZE. rewrite slice_Some by lia. cbn [mbind option_bind]. rewrite drop_0, Nat.sub_0_r.
  rewrite encode_to_spec; [|done|rewrite length_take; unfold META_SIZE; lia]. cbn [mbind option_bind].
  unfold META_SIZE. rewrite (drop_ge (take 64 page)), app_nil_r by (rewrite length_take; lia).
  set (page' := meta_bytes m ++ drop 64 page).
  assert (Hp : length page' = 4096).
  { unfold page'. rewrite length_app, length_drop, Hl, Hpage. done. }
  eexists. split; [reflexivity|]. unfold meta_read, PAGE_SIZE. rewrite length_app, Hp.
  split; [|lia]. rewrite (proj2 (Nat.ltb_ge _ _)) by lia.
  rewrite <-Hp, take_app_length. rewrite slice_Some; [|lia|rewrite Hp; by apply Nat.leb_le].
  cbn [mbind option_bind]. rewrite drop_0. unfold page', META_SIZE. rewrite Nat.sub_0_r, take_app_length' by done.
  rewrite <-(app_nil_r (meta_bytes m)), meta_decode_bytes by done. done.
Qed.

Lemma create_new_ok seed num_pages :
  length seed = 16 → is_u32 num_pages → meta_ok (Meta_create_new seed num_pages).
Proof. intros Hs Hn. by split. Qed.

(** C36: The manifest is a bijection.  A manifest written to the file is the one that is
    read back, whatever the page it is built in held and whatever was in the file; and
    every buffer of the right size decodes to a manifest whose fields have their widths,
    the only one that encodes to these bytes. *)
Theorem meta_codec (page file buf : list u8) (m : Meta) :
  length page = PAGE_SIZE → META_SIZE ≤ length buf → meta_ok m →
  (∃ file', meta_write page m file = Some file' ∧ meta_read file' = Ok m) ∧
  (∃ m', meta_decode buf = Some m' ∧ meta_ok m' ∧ encode_to m' buf = Some buf ∧
     ∀ m'', meta_ok m'' → encode_to m'' buf = Some buf → m'' = m').
Proof.
  intros Hpage Hbuf Hm. split.
  { destruct (meta_write_read m page file Hm Hpage) as (file' & H1 & H2 & _). by exists file'. }
  destruct (meta_decode_total buf Hbuf) as (m' & Hd & Hm' & Hb). exists m'. split_and!; [done|done|..].
  - by rewrite encode_to_spec, Hb, take_drop.
  - intros m'' Hm'' He. rewrite encode_to_spec in He by done. injection He as He.
    rewrite <-He, meta_decode_bytes in Hd by done. congruence.
Qed.

Lemma meta_codec_witness :
  let m := Meta_create_new (replicate 16 x07) 64 in
  (∃ file', meta_write (replicate 4096 x00) m [] = Some file' ∧ meta_read file' = Ok m) ∧
  (∃ m', meta_decode (replicate 64 x01) = Some m' ∧ meta_ok m' ∧
     encode_to m' (replicate 64 x01) = Some (replicate 64 x01) ∧
     ∀ m'', meta_ok m'' → encode_to m'' (replicate 64 x01) = Some (replicate 64 x01) → m'' = m').
Proof.
  apply (meta_codec (replicate 4096 x00) [] (replicate 64 x01)).
  - apply length_replicate.
  - by rewrite length_replicate.
  - by apply create_new_ok.
Defined.
