(* ===== verification/Seglog.v ===== *)
(** * The segmented log

    Models [nomt/src/seglog]: a log of records in numbered segment files, to which
    records are appended, and which is pruned at both ends and read when the database
    is opened.

    The directory of the log is a finite map from file names to contents.  An
    operation is a function of the directory, whose changes persist when the operation
    fails.  The file system does what it is asked to: creating a file that exists and
    opening or removing one that does not are errors, and nothing else is. *)

From S2P Require Import Prelude.

#[local] Open Scope nat_scope.

Definition RECORD_ALIGNMENT : nat := 4096.
Definition HEADER_SIZE : nat := 12.
Definition MAX_RECORD_PAYLOAD_SIZE : Z := Z.shiftl 1 30.

(** ** Operations on the directory *)

Abbreviation fs := (gmap (list u8) (list u8)).

Inductive SegError :=
| PayloadTooLarge
| FileExists
| NotFound
| ShortFile
| RecordTooLarge
| MissingPrefix
| MissingSuffix
| MissingDot
| NotTenDigits
| NotANumber
| NilSegmentId
| SegmentGap
| IdsNotOrdered
| LiveRangeHalfNil
| InvalidLiveSegments
| NoFirstLiveSegment
| NoLastLiveSegment
| NoLastLiveRecord
| BadRecord.

Definition io (A : Type) : Type := fs → fs * outcome SegError A.

Definition io_ret {A} (a : A) : io A := λ d, (d, Ok a).
Definition io_lift {A} (m : outcome SegError A) : io A := λ d, (d, m).
Definition io_fail {A} (e : SegError) : io A := λ d, (d, Err e).
Definition io_bind {A B} (m : io A) (k : A → io B) : io B := λ d,
  match m d with
  | (d, Ok a) => k a d
  | (d, Err e) => (d, Err e)
  | (d, Panic) => (d, Panic)
  end.

Notation "'let*' x := m 'in' k" := (io_bind m (λ x, k))
  (at level 10, x pattern, m at level 100, k at level 200,
   format "'let*'  x  :=  m  'in' '//' k") : nomt_scope.

Definition create_new (path : list u8) : io () := λ d,
  match d !! path with
  | Some _ => (d, Err FileExists)
  | None => (<[path := []]> d, Ok ())
  end.

Definition file_open (path : list u8) : io (list u8) := λ d,
  match d !! path with
  | Some content => (d, Ok content)
  | None => (d, Err NotFound)
  end.

Definition remove_file (path : list u8) : io () := λ d,
  match d !! path with
  | Some _ => (delete path d, Ok ())
  | None => (d, Err NotFound)
  end.

(** Writing to a file opened for appending, and [set_len], through an open handle. *)
Definition file_append (path : list u8) (bytes : list u8) : io () := λ d,
  (alter (λ content, content ++ bytes) path d, Ok ()).

Definition resize (n : nat) (content : list u8) : list u8 :=
  take n content ++ replicate (n - length content) x00.

Definition set_len (path : list u8) (n : nat) : io () := λ d, (alter (resize n) path d, Ok ()).

(** ** File names *)

Definition dot_log : list u8 := [x2e; x6c; x6f; x67].

(** [{segment_id:0>10}]: a 32-bit integer has at most ten digits. *)
Definition ten_digits (n : Z) : list u8 :=
  (λ i : Z, byte_of_Z (48 + (n / 10 ^ i) mod 10)) <$> [9; 8; 7; 6; 5; 4; 3; 2; 1; 0]%Z.

Definition segment_format (prefix : list u8) (segment_id : Z) : list u8 :=
  prefix ++ [x2e] ++ ten_digits segment_id ++ dot_log.

Definition strip_prefix (p s : list u8) : option (list u8) :=
  if bool_decide (take (length p) s = p) then Some (drop (length p) s) else None.
Definition strip_suffix (p s : list u8) : option (list u8) :=
  if bool_decide (length p ≤ length s ∧ drop (length s - length p) s = p)
  then Some (take (length s - length p) s) else None.

(** [str::parse::<u32>]: an optional plus sign and decimal digits, within range. *)
Fixpoint parse_digits (acc : Z) (s : list u8) : option Z :=
  match s with
  | [] => Some acc
  | c :: s =>
      if ((48 <=? byte_Z c) && (byte_Z c <=? 57))%Z then
        let acc := (10 * acc + (byte_Z c - 48))%Z in
        if (acc <? 2 ^ 32)%Z then parse_digits acc s else None
      else None
  end.

Definition parse_u32 (s : list u8) : option Z :=
  match s with
  | [] => None
  | c :: rest =>
      if bool_decide (c = x2b) then match rest with [] => None | _ => parse_digits 0 rest end
      else parse_digits 0 s
  end.

Definition segment_parse (prefix filename : list u8) : outcome SegError Z :=
  if bool_decide (prefix = []) then Panic
  else
    match strip_prefix prefix filename with
    | None => Err MissingPrefix
    | Some without_prefix =>
        match strip_suffix dot_log without_prefix with
        | None => Err MissingSuffix
        | Some without_suffix =>
            match strip_prefix [x2e] without_suffix with
            | None => Err MissingDot
            | Some segment_id_str =>
                if negb (length segment_id_str =? 10) then Err NotTenDigits
                else match parse_u32 segment_id_str with
                     | Some segment_id => Ok segment_id
                     | None => Err NotANumber
                     end
            end
        end
    end.

(** ** Records *)

Definition header_bytes (payload_length record_id : Z) : option (list u8) :=
  let header := replicate HEADER_SIZE x00 in
  let? header := copy_from_slice header 0 4 (to_le_bytes 4 payload_length) in
  copy_from_slice header 4 12 (to_le_bytes 8 record_id).

Definition payload_length (header : list u8) : option Z :=
  let? bs := slice header 0 4 in Some (from_le_bytes bs).
Definition record_id (header : list u8) : option Z :=
  let? bs := slice header 4 12 in Some (from_le_bytes bs).

(** [RecordId::next] and [RecordId::prev], on 64-bit integers. *)
Definition id_next (id : Z) : option Z := if (id + 1 <? 2 ^ 64)%Z then Some (id + 1)%Z else None.
Definition id_prev (id : Z) : option Z := if (id =? 0)%Z then None else Some (id - 1)%Z.
Definition is_nil (id : Z) : bool := (id =? 0)%Z.

(** ** The writer of a segment file *)

Record SegmentFileWriter := { sw_path : list u8; sw_file_size : nat }.

Definition write_header (w : SegmentFileWriter) (payload_length record_id : Z) : io SegmentFileWriter :=
  let* header := io_lift (or_panic (header_bytes payload_length record_id)) in
  let* _ := file_append (sw_path w) header in
  io_ret {| sw_path := sw_path w; sw_file_size := sw_file_size w + HEADER_SIZE |}.

Definition next_record_pos (current_end : nat) : nat :=
  if current_end mod RECORD_ALIGNMENT =? 0 then current_end
  else (current_end / RECORD_ALIGNMENT + 1) * RECORD_ALIGNMENT.

Definition write_payload (w : SegmentFileWriter) (payload : list u8) : io SegmentFileWriter :=
  let* _ := file_append (sw_path w) payload in
  let next_pos := next_record_pos (sw_file_size w + length payload) in
  let* _ := set_len (sw_path w) next_pos in
  io_ret {| sw_path := sw_path w; sw_file_size := next_pos |}.

(** ** The reader of a segment file *)

Record SegmentFileReader := {
  sr_content : list u8;
  sr_pos : nat;
  sr_next_pos : option nat;
  sr_payload_length : option Z;
  sr_file_size : nat;
}.

Definition SegmentFileReader_new (content : list u8) (file_size : option nat) : SegmentFileReader :=
  {| sr_content := content; sr_pos := 0; sr_next_pos := None; sr_payload_length := None;
     sr_file_size := default (length content) file_size |}.

(** [read_exact] of [n] bytes from the current position. *)
Definition read_n (r : SegmentFileReader) (n : nat) : outcome SegError (list u8 * SegmentFileReader) :=
  if sr_pos r + n <=? length (sr_content r) then
    Ok (take n (drop (sr_pos r) (sr_content r)),
        {| sr_content := sr_content r; sr_pos := sr_pos r + n; sr_next_pos := sr_next_pos r;
           sr_payload_length := sr_payload_length r; sr_file_size := sr_file_size r |})
  else Err ShortFile.

Definition read_header (r : SegmentFileReader) : outcome SegError (option (list u8) * SegmentFileReader) :=
  if sr_file_size r <=? default 0 (sr_next_pos r) then Ok (None, r)
  else
    let! (header, r) := read_n r HEADER_SIZE in
    let! len := or_panic (payload_length header) in
    if (MAX_RECORD_PAYLOAD_SIZE <? len)%Z then Err RecordTooLarge
    else
      let cur_pos := sr_pos r in
      let next_pos := (cur_pos + Z.to_nat len + RECORD_ALIGNMENT - 1) / RECORD_ALIGNMENT * RECORD_ALIGNMENT in
      Ok (Some header, {| sr_content := sr_content r; sr_pos := cur_pos; sr_next_pos := Some next_pos;
                          sr_payload_length := Some len; sr_file_size := sr_file_size r |}).

Definition seek_next (r : SegmentFileReader) : outcome SegError SegmentFileReader :=
  let! next_pos := or_panic (sr_next_pos r) in
  Ok {| sr_content := sr_content r; sr_pos := next_pos; sr_next_pos := sr_next_pos r;
        sr_payload_length := sr_payload_length r; sr_file_size := sr_file_size r |}.

Definition skip_payload (r : SegmentFileReader) : outcome SegError SegmentFileReader := seek_next r.

Definition read_payload (r : SegmentFileReader) : outcome SegError (list u8 * SegmentFileReader) :=
  let! len := or_panic (sr_payload_length r) in
  let! (payload, r) := read_n r (Z.to_nat len) in
  let! r := seek_next r in
  Ok (payload, r).

(** ** The log *)

Record Segment := { seg_id : Z; seg_path : list u8; seg_min : Z; seg_max : Z }.

Record SegmentedLog := {
  filename_prefix : list u8;
  max_segment_size : nat;
  start_live : Z;
  end_live : Z;
  segments : list Segment;
  head_segment_writer : option SegmentFileWriter;
}.

Definition with_segments (self : SegmentedLog) (segs : list Segment) : SegmentedLog :=
  {| filename_prefix := filename_prefix self; max_segment_size := max_segment_size self;
     start_live := start_live self; end_live := end_live self; segments := segs;
     head_segment_writer := head_segment_writer self |}.

Definition gen_segment_id (self : SegmentedLog) : Z :=
  wrap 32 (match last (segments self) with Some s => seg_id s | None => 0 end + 1).

Definition create_segment (self : SegmentedLog) (min : Z) : io SegmentedLog :=
  let new_segment_id := gen_segment_id self in
  let path := segment_format (filename_prefix self) new_segment_id in
  let* _ := create_new path in
  let new_segment := {| seg_id := new_segment_id; seg_path := path; seg_min := min; seg_max := min |} in
  io_ret {| filename_prefix := filename_prefix self; max_segment_size := max_segment_size self;
            start_live := start_live self; end_live := end_live self;
            segments := segments self ++ [new_segment];
            head_segment_writer := Some {| sw_path := path; sw_file_size := 0 |} |}.

(** The segment after a record was written to it. *)
Definition segment_add (s : Segment) (id : Z) : Segment :=
  {| seg_id := seg_id s; seg_path := seg_path s;
     seg_min := if is_nil (seg_min s) then id else seg_min s; seg_max := id |}.

(** Writing a record to the head segment. *)
Definition append_record (self : SegmentedLog) (data : list u8) (id : Z) : io (Z * SegmentedLog) :=
  let* writer := io_lift (or_panic (head_segment_writer self)) in
  let* segment := io_lift (or_panic (last (segments self))) in
  let* writer := write_header writer (wrap 32 (Z.of_nat (length data))) id in
  let* writer := write_payload writer data in
  io_ret (id, {| filename_prefix := filename_prefix self; max_segment_size := max_segment_size self;
                 start_live := if is_nil (start_live self) then id else start_live self;
                 end_live := id;
                 segments := removelast (segments self) ++ [segment_add segment id];
                 head_segment_writer := Some writer |}).

Definition append (self : SegmentedLog) (data : list u8) : io (Z * SegmentedLog) :=
  if (MAX_RECORD_PAYLOAD_SIZE <? Z.of_nat (length data))%Z then io_fail PayloadTooLarge
  else
    let* id := io_lift (or_panic (id_next (end_live self))) in
    let* self :=
      match head_segment_writer self with
      | None => create_segment self id
      | Some w => if max_segment_size self <=? sw_file_size w then create_segment self id else io_ret self
      end in
    append_record self data id.

Fixpoint remove_segments (segs : list Segment) : io () :=
  match segs with
  | [] => io_ret ()
  | s :: segs => let* _ := remove_file (seg_path s) in remove_segments segs
  end.

Definition remove_all (self : SegmentedLog) : io SegmentedLog :=
  let* _ := remove_segments (segments self) in
  io_ret {| filename_prefix := filename_prefix self; max_segment_size := max_segment_size self;
            start_live := 0; end_live := 0; segments := []; head_segment_writer := None |}.

(** The loop that removes the segments before the live range. *)
Fixpoint prune_oldest_loop (prefix : list u8) (new_start_live : Z) (segs : list Segment) : io (list Segment) :=
  match segs with
  | oldest_segment :: ((_ :: _) as rest) =>
      if (new_start_live <=? seg_max oldest_segment)%Z then io_ret segs
      else
        let* _ := remove_file (segment_format prefix (seg_id oldest_segment)) in
        prune_oldest_loop prefix new_start_live rest
  | _ => io_ret segs
  end.

Definition prune_oldest (self : SegmentedLog) (new_start_live : Z) : io SegmentedLog :=
  if is_nil new_start_live then remove_all self
  else if bool_decide (segments self = []) then io_ret self
  else if (end_live self <? new_start_live)%Z then io_lift Panic
  else if (new_start_live <? start_live self)%Z then io_lift Panic
  else
    let* segs := prune_oldest_loop (filename_prefix self) new_start_live (segments self) in
    io_ret {| filename_prefix := filename_prefix self; max_segment_size := max_segment_size self;
              start_live := new_start_live; end_live := end_live self; segments := segs;
              head_segment_writer := head_segment_writer self |}.

(** Reading the records of a file up to the one with the given id: a record takes at
    least a page, which bounds the number of rounds. *)
Fixpoint scan_record_end_loop (fuel : nat) (end_ : Z) (r : SegmentFileReader) : outcome SegError (option nat) :=
  match fuel with
  | 0 => Panic
  | S fuel' =>
      let! (header, r) := read_header r in
      match header with
      | None => Ok None
      | Some header =>
          let! id := or_panic (record_id header) in
          let! r := skip_payload r in
          if (id =? end_)%Z then Ok (Some (sr_pos r)) else scan_record_end_loop fuel' end_ r
      end
  end.

Definition scan_fuel (content : list u8) : nat := S (S (length content / RECORD_ALIGNMENT)).

Definition scan_record_end (path : list u8) (end_ : Z) : io (option nat) :=
  let* content := file_open path in
  io_lift (scan_record_end_loop (scan_fuel content) end_ (SegmentFileReader_new content None)).

Definition truncate_head_segment (path : list u8) (new_end_live : Z) : io SegmentFileWriter :=
  let* end_ := scan_record_end path new_end_live in
  match end_ with
  | None => io_fail NoLastLiveRecord
  | Some offset =>
      let* _ := file_open path in
      let* _ := set_len path offset in
      io_ret {| sw_path := path; sw_file_size := offset |}
  end.

(** The index of the segment that contains the new live end: the search starts at
    [seg_index] and goes backwards. *)
Fixpoint find_head (segs : list Segment) (new_end_live : Z) (seg_index : nat) : option nat :=
  match seg_index with
  | 0 => Some 0
  | S i =>
      let? segment := segs !! seg_index in
      if (seg_min segment <=? new_end_live)%Z then Some seg_index else find_head segs new_end_live i
  end.

(** The loop that removes the segments after the new head, from the last one on. *)
Fixpoint remove_from_end (prefix : list u8) (segs_rev : list Segment) : io () :=
  match segs_rev with
  | [] => io_ret ()
  | s :: segs_rev =>
      let* _ := remove_file (segment_format prefix (seg_id s)) in
      remove_from_end prefix segs_rev
  end.

Definition prune_recent (self : SegmentedLog) (new_end_live : Z) : io SegmentedLog :=
  if is_nil new_end_live then remove_all self
  else if bool_decide (segments self = []) then io_ret self
  else
    let* seg_index := io_lift (or_panic (find_head (segments self) new_end_live (length (segments self) - 1))) in
    let* _ := remove_from_end (filename_prefix self) (rev (drop (seg_index + 1) (segments self))) in
    let segs := take (seg_index + 1) (segments self) in
    let* segment := io_lift (or_panic (segs !! seg_index)) in
    let* writer := truncate_head_segment (segment_format (filename_prefix self) (seg_id segment)) new_end_live in
    io_ret {| filename_prefix := filename_prefix self; max_segment_size := max_segment_size self;
              start_live := start_live self; end_live := new_end_live;
              segments := <[seg_index := {| seg_id := seg_id segment; seg_path := seg_path segment;
                                            seg_min := seg_min segment; seg_max := new_end_live |}]> segs;
              head_segment_writer := Some writer |}.

Definition live_range (self : SegmentedLog) : Z * Z := (start_live self, end_live self).

(** ** Recovery *)

Record Recovery := {
  candidates : list Segment;
  rec_start_live : Z;
  rec_end_live : Z;
  live_segment_start : option nat;
  live_segment_end : option nat;
}.

Definition seg_le (a b : Segment) : Prop := (seg_id a ≤ seg_id b)%Z.
#[global] Instance seg_le_dec a b : Decision (seg_le a b).
Proof. unfold seg_le. apply _. Defined.

(** The entries of the directory whose names start with the prefix. *)
Fixpoint collect_candidates (prefix : list u8) (names : list (list u8)) : outcome SegError (list Segment) :=
  match names with
  | [] => Ok []
  | filename :: names =>
      if bool_decide (take (length prefix) filename = prefix) then
        let! id := segment_parse prefix filename in
        let! rest := collect_candidates prefix names in
        Ok ({| seg_id := id; seg_path := filename; seg_min := 0; seg_max := 0 |} :: rest)
      else collect_candidates prefix names
  end.

(** The checks on the sorted candidates. *)
Fixpoint check_candidates (prev : option Z) (cs : list Segment) : outcome SegError () :=
  match cs with
  | [] => Ok ()
  | c :: cs =>
      if is_nil (seg_id c) then Err NilSegmentId
      else if match prev with Some p => negb (p =? seg_id c - 1)%Z | None => false end then Err SegmentGap
      else check_candidates (Some (seg_id c)) cs
  end.

Definition scan_root_dir (prefix : list u8) : io (list Segment) := λ d,
  (d, let! cs := collect_candidates prefix (map_to_list d).*1 in
      let cs := merge_sort seg_le cs in
      let! _ := or_panic (oassert (bool_decide (NoDup (seg_id <$> cs)))) in
      let! _ := check_candidates None cs in
      Ok cs).

Definition rec_is_live (self : Recovery) : option bool :=
  if is_nil (rec_start_live self) then
    let? _ := oassert (is_nil (rec_end_live self)) in Some false
  else Some (bool_decide (is_Some (live_segment_start self)) && bool_decide (live_segment_end self = None)).

Definition enter_live (self : Recovery) (segment_index : nat) (id : Z) : bool * Recovery :=
  if is_nil (rec_start_live self) then (false, self)
  else if bool_decide (live_segment_start self = None) && (rec_start_live self <=? id)%Z then
    (true, {| candidates := candidates self; rec_start_live := rec_start_live self;
              rec_end_live := rec_end_live self; live_segment_start := Some segment_index;
              live_segment_end := live_segment_end self |})
  else (false, self).

Definition exit_live (self : Recovery) (segment_index : nat) (id : Z) : option (bool * Recovery) :=
  if is_nil (rec_start_live self) then Some (false, self)
  else
    let? live := rec_is_live self in
    Some (if live && bool_decide (live_segment_end self = None) && (rec_end_live self <=? id)%Z then
            (true, {| candidates := candidates self; rec_start_live := rec_start_live self;
                      rec_end_live := rec_end_live self; live_segment_start := live_segment_start self;
                      live_segment_end := Some segment_index |})
          else (false, self)).

(** Whether the record is in the live range. *)
Definition on_next_record (self : Recovery) (segment_index : nat) (id : Z) : option (bool * Recovery) :=
  let? was_live := rec_is_live self in
  let '(became_live, self) := enter_live self segment_index id in
  let? (became_nonlive, self) := exit_live self segment_index id in
  Some (was_live || became_live || became_nonlive, self).

Section recovery.
(** What the caller does with the live records, as a function on the state it keeps. *)
Context {A : Type} (process_record : Z → list u8 → A → outcome SegError A).

(** The loop of [scan_segment]: the state of the caller, and the least, the greatest
    and the last id so far. *)
Fixpoint scan_loop (fuel : nat) (index : nat) (self : Recovery) (a : A) (r : SegmentFileReader)
    (min max last : option Z) : outcome SegError (Recovery * A * option Z * option Z) :=
  match fuel with
  | 0 => Panic
  | S fuel' =>
      let! (header, r) := read_header r in
      match header with
      | None => Ok (self, a, min, max)
      | Some header =>
          let! id := or_panic (record_id header) in
          let! _ :=
            match last with
            | Some last =>
                let! next := or_panic (id_next last) in
                if (id =? next)%Z then Ok () else Err IdsNotOrdered
            | None => Ok ()
            end in
          let! (live, self) := or_panic (on_next_record self index id) in
          let! (a, r) :=
            if live then
              let! (payload, r) := read_payload r in
              let! a := process_record id payload a in
              Ok (a, r)
            else
              let! r := skip_payload r in Ok (a, r) in
          let min := match min with None => Some id | Some _ => min end in
          let max := match max with Some m => if (m <? id)%Z then Some id else max | None => Some id end in
          scan_loop fuel' index self a r min max (Some id)
      end
  end.

Definition set_bounds (s : Segment) (min max : Z) : Segment :=
  {| seg_id := seg_id s; seg_path := seg_path s; seg_min := min; seg_max := max |}.

Definition scan_segment (index : nat) (self : Recovery) (a : A) : io (Recovery * A) :=
  let* candidate := io_lift (or_panic (candidates self !! index)) in
  let* content := file_open (seg_path candidate) in
  let* (self, a, min, max) :=
    io_lift (scan_loop (scan_fuel content) index self a
               (SegmentFileReader_new content (Some (length content))) None None None) in
  io_ret ({| candidates := <[index := set_bounds candidate (default 0%Z min) (default 0%Z max)]> (candidates self);
             rec_start_live := rec_start_live self; rec_end_live := rec_end_live self;
             live_segment_start := live_segment_start self; live_segment_end := live_segment_end self |}, a).

Fixpoint scan_segments (indices : list nat) (self : Recovery) (a : A) : io (Recovery * A) :=
  match indices with
  | [] => io_ret (self, a)
  | i :: indices =>
      let* (self, a) := scan_segment i self a in
      scan_segments indices self a
  end.

Definition remove_nonlive_segments (self : Recovery) : io (list Segment) :=
  match live_segment_start self, live_segment_end self with
  | None, None =>
      let* _ := remove_segments (candidates self) in
      io_ret []
  | Some start, Some end_ =>
      let* live := io_lift (or_panic (slice (candidates self) start (end_ + 1))) in
      let* _ := remove_segments (take start (candidates self) ++ drop (end_ + 1) (candidates self)) in
      io_ret live
  | _, _ => io_fail InvalidLiveSegments
  end.

Definition seglog_open (prefix : list u8) (max_size : nat) (start end_ : Z) (a : A) : io (SegmentedLog * A) :=
  if xorb (is_nil start) (is_nil end_) then io_fail LiveRangeHalfNil
  else
    let* cs := scan_root_dir prefix in
    let recovery := {| candidates := cs; rec_start_live := start; rec_end_live := end_;
                       live_segment_start := None; live_segment_end := None |} in
    let* (recovery, a) :=
      if is_nil start then io_ret (recovery, a)
      else scan_segments (seq 0 (length cs)) recovery a in
    let* _ :=
      if is_nil start then io_ret ()
      else if bool_decide (live_segment_start recovery = None) then io_fail NoFirstLiveSegment
      else if bool_decide (live_segment_end recovery = None) then io_fail NoLastLiveSegment
      else io_ret () in
    let* segs := remove_nonlive_segments recovery in
    match last segs with
    | None =>
        io_ret ({| filename_prefix := prefix; max_segment_size := max_size; start_live := start;
                   end_live := end_; segments := segs; head_segment_writer := None |}, a)
    | Some head =>
        let segs := removelast segs ++ [set_bounds head (seg_min head) end_] in
        let* writer := truncate_head_segment (seg_path head) end_ in
        io_ret ({| filename_prefix := prefix; max_segment_size := max_size; start_live := start;
                   end_live := end_; segments := segs; head_segment_writer := Some writer |}, a)
    end.
End recovery.
