(* ===== verification/SeglogFiles.v ===== *)
(** * The files of the segmented log

    The contents of segment files as lists of records, reading and scanning them,
    their names, and the directory that has them.  These are the lemmas on which the
    correctness of the log rests. *)

From S2P Require Import Prelude Seglog.

#[local] Open Scope nat_scope.

(** ** What a segment file contains *)

Abbreviation record := (Z * list u8)%type.

Definition record_bytes (rc : record) : list u8 :=
  resize (next_record_pos (HEADER_SIZE + length rc.2))
    (to_le_bytes 4 (Z.of_nat (length rc.2)) ++ to_le_bytes 8 rc.1 ++ rc.2).

Definition segment_bytes (rs : list record) : list u8 := concat (record_bytes <$> rs).

Definition record_ok (rc : record) : Prop :=
  is_u64 rc.1 ∧ (Z.of_nat (length rc.2) ≤ MAX_RECORD_PAYLOAD_SIZE)%Z.

Lemma align_pos : RECORD_ALIGNMENT ≠ 0.
Proof. done. Qed.

Lemma next_record_pos_spec n :
  n ≤ next_record_pos n ∧ next_record_pos n < n + RECORD_ALIGNMENT ∧
  next_record_pos n mod RECORD_ALIGNMENT = 0.
Proof.
  unfold next_record_pos. pose proof (Nat.div_mod n RECORD_ALIGNMENT align_pos) as Hn.
  pose proof (Nat.mod_upper_bound n RECORD_ALIGNMENT align_pos) as Hm.
  destruct (Nat.eqb_spec (n mod RECORD_ALIGNMENT) 0) as [E|E].
  - split_and!; [lia|unfold RECORD_ALIGNMENT; lia|done].
  - rewrite Nat.Div0.mod_mul. split_and!; [nia|nia|done].
Qed.

Lemma aligned_unique n a b :
  n ≤ a → a < n + RECORD_ALIGNMENT → a mod RECORD_ALIGNMENT = 0 →
  n ≤ b → b < n + RECORD_ALIGNMENT → b mod RECORD_ALIGNMENT = 0 → a = b.
Proof.
  intros H1 H2 H3 H4 H5 H6. pose proof align_pos.
  apply Nat.Div0.mod_divides in H3 as [x ->]. apply Nat.Div0.mod_divides in H6 as [y ->].
  destruct (Nat.lt_trichotomy x y) as [Hl|[->|Hl]]; [|done|].
  - pose proof (Nat.mul_le_mono_l _ _ RECORD_ALIGNMENT Hl). lia.
  - pose proof (Nat.mul_le_mono_l _ _ RECORD_ALIGNMENT Hl). lia.
Qed.

(** The position the reader computes, for a record that starts on a page boundary. *)
Lemma reader_next_pos p n :
  p mod RECORD_ALIGNMENT = 0 →
  (p + n + RECORD_ALIGNMENT - 1) / RECORD_ALIGNMENT * RECORD_ALIGNMENT = p + next_record_pos n.
Proof.
  intros Hp. pose proof align_pos as Ha. destruct (next_record_pos_spec n) as (H1 & H2 & H3).
  pose proof (Nat.div_mod (p + n + RECORD_ALIGNMENT - 1) RECORD_ALIGNMENT Ha) as Hd.
  pose proof (Nat.mod_upper_bound (p + n + RECORD_ALIGNMENT - 1) RECORD_ALIGNMENT Ha) as Hm.
  apply (aligned_unique (p + n)); [lia|lia|apply Nat.Div0.mod_mul|lia|lia|].
  rewrite Nat.Div0.add_mod, Hp, H3. reflexivity.
Qed.

Lemma length_resize n c : length (resize n c) = n.
Proof. unfold resize. rewrite length_app, length_take, length_replicate. lia. Qed.

Lemma resize_ge n c : length c ≤ n → resize n c = c ++ replicate (n - length c) x00.
Proof. intros H. unfold resize. by rewrite take_ge. Qed.

Lemma resize_le n c : n ≤ length c → resize n c = take n c.
Proof. intros H. unfold resize. replace (n - length c) with 0 by lia. by rewrite app_nil_r. Qed.

Lemma resize_app p n c : resize (length p + n) (p ++ c) = p ++ resize n c.
Proof.
  unfold resize. rewrite length_app, take_app_add.
  replace (length p + n - (length p + length c)) with (n - length c) by lia. by rewrite app_assoc.
Qed.

Lemma length_record_bytes rc : length (record_bytes rc) = next_record_pos (HEADER_SIZE + length rc.2).
Proof. apply length_resize. Qed.

Lemma record_bytes_app rc :
  ∃ pad, record_bytes rc = (to_le_bytes 4 (Z.of_nat (length rc.2)) ++ to_le_bytes 8 rc.1) ++ rc.2 ++ pad.
Proof.
  unfold record_bytes. destruct (next_record_pos_spec (HEADER_SIZE + length rc.2)) as (H1 & _).
  rewrite resize_ge; [eexists; by rewrite <-!app_assoc|].
  rewrite !length_app, !length_to_le_bytes. unfold HEADER_SIZE in *. lia.
Qed.

Lemma record_bytes_pos rc : RECORD_ALIGNMENT ≤ length (record_bytes rc).
Proof.
  rewrite length_record_bytes. destruct (next_record_pos_spec (HEADER_SIZE + length rc.2)) as (H1 & _ & H3).
  pose proof align_pos. apply Nat.Div0.mod_divides in H3 as [[|x] Hx]; unfold HEADER_SIZE in *; nia.
Qed.

Lemma record_bytes_aligned rc : length (record_bytes rc) mod RECORD_ALIGNMENT = 0.
Proof. rewrite length_record_bytes. apply next_record_pos_spec. Qed.

Lemma segment_bytes_cons rc rs : segment_bytes (rc :: rs) = record_bytes rc ++ segment_bytes rs.
Proof. done. Qed.

Lemma segment_bytes_one rc : segment_bytes [rc] = record_bytes rc.
Proof. apply app_nil_r. Qed.

Lemma segment_bytes_app rs rs' : segment_bytes (rs ++ rs') = segment_bytes rs ++ segment_bytes rs'.
Proof. unfold segment_bytes. by rewrite fmap_app, concat_app. Qed.

Lemma segment_bytes_aligned rs : length (segment_bytes rs) mod RECORD_ALIGNMENT = 0.
Proof.
  induction rs as [|rc rs IH]; [done|].
  by rewrite segment_bytes_cons, length_app, Nat.Div0.add_mod, record_bytes_aligned, IH.
Qed.

Lemma segment_bytes_length rs : length rs * RECORD_ALIGNMENT ≤ length (segment_bytes rs).
Proof.
  induction rs as [|rc rs IH]; [simpl; lia|]. rewrite segment_bytes_cons, length_app.
  pose proof (record_bytes_pos rc). cbn [length]. rewrite Nat.mul_succ_l. lia.
Qed.

Lemma header_bytes_spec len id :
  header_bytes len id = Some (to_le_bytes 4 len ++ to_le_bytes 8 id).
Proof. done. Qed.

Lemma payload_length_spec rc pad :
  record_ok rc →
  payload_length (to_le_bytes 4 (Z.of_nat (length rc.2)) ++ pad) = Some (Z.of_nat (length rc.2)).
Proof.
  intros [_ Hl]. unfold payload_length. rewrite slice_Some; [|lia|rewrite length_app, length_to_le_bytes; lia].
  cbn [mbind option_bind]. rewrite drop_0. rewrite take_app_length' by (by rewrite length_to_le_bytes).
  rewrite from_to_le_bytes, Z.mod_small; [done|]. unfold MAX_RECORD_PAYLOAD_SIZE in Hl.
  change (Z.shiftl 1 30) with (2 ^ 30)%Z in Hl. lia.
Qed.

Lemma record_id_spec len id : is_u64 id → record_id (to_le_bytes 4 len ++ to_le_bytes 8 id) = Some id.
Proof.
  intros Hi. unfold record_id. rewrite slice_Some; [|lia|rewrite length_app, !length_to_le_bytes; lia].
  cbn [mbind option_bind]. rewrite drop_app_length' by (by rewrite length_to_le_bytes).
  rewrite take_ge by (rewrite length_to_le_bytes; lia).
  rewrite from_to_le_bytes, Z.mod_small; [done|]. unfold is_u64 in Hi. lia.
Qed.

(** ** Reading records *)

(** The reader stands after [pre] and before [rest]. *)
Record at_bytes (r : SegmentFileReader) (pre rest : list u8) : Prop := {
  ab_content : sr_content r = pre ++ rest;
  ab_pos : sr_pos r = length pre;
  ab_next : default 0 (sr_next_pos r) = length pre;
  ab_size : sr_file_size r = length (pre ++ rest);
  ab_aligned : length pre mod RECORD_ALIGNMENT = 0;
}.

Definition header_of (rc : record) : list u8 :=
  to_le_bytes 4 (Z.of_nat (length rc.2)) ++ to_le_bytes 8 rc.1.

Lemma length_header_of rc : length (header_of rc) = HEADER_SIZE.
Proof. unfold header_of. by rewrite length_app, !length_to_le_bytes. Qed.

Lemma at_bytes_new content size :
  default (length content) size = length content → at_bytes (SegmentFileReader_new content size) [] content.
Proof. intros Hs. by split. Qed.

Lemma read_header_end r : sr_file_size r ≤ default 0 (sr_next_pos r) → read_header r = Ok (None, r).
Proof. intros H. unfold read_header. by rewrite (proj2 (Nat.leb_le _ _)). Qed.

Lemma at_bytes_end r pre : at_bytes r pre [] → read_header r = Ok (None, r).
Proof.
  intros [H1 H2 H3 H4 H5]. apply read_header_end. rewrite H3, H4, app_nil_r. done.
Qed.

Lemma read_header_at r pre rc rest :
  record_ok rc → at_bytes r pre (header_of rc ++ rest) →
  ∃ r1, read_header r = Ok (Some (header_of rc), r1) ∧
    sr_content r1 = sr_content r ∧ sr_file_size r1 = sr_file_size r ∧
    sr_pos r1 = length pre + HEADER_SIZE ∧ sr_payload_length r1 = Some (Z.of_nat (length rc.2)) ∧
    sr_next_pos r1 = Some (length (pre ++ record_bytes rc)).
Proof.
  intros Hrc [H1 H2 H3 H4 H5]. unfold read_header. rewrite H3, H4, length_app.
  pose proof (length_header_of rc) as Hh.
  rewrite (proj2 (Nat.leb_gt _ _)) by (rewrite length_app, Hh; unfold HEADER_SIZE; lia).
  unfold read_n. rewrite H1, H2, (proj2 (Nat.leb_le _ _)) by (rewrite !length_app, Hh; lia).
  rewrite drop_app_length, take_app_length' by done. cbn [obind].
  unfold header_of at 1. rewrite payload_length_spec by done. cbn [or_panic obind].
  rewrite (proj2 (Z.ltb_ge _ _)) by apply Hrc. eexists. split; [reflexivity|]. simpl.
  split_and!; [congruence|by rewrite H4, length_app|done|done|]. f_equal. rewrite Nat2Z.id.
  rewrite length_app, length_record_bytes, <-(reader_next_pos (length pre) (HEADER_SIZE + length rc.2)) by done.
  by rewrite !Nat.add_assoc.
Qed.

(** A whole record. *)
Lemma read_record r pre rc rest :
  record_ok rc → at_bytes r pre (record_bytes rc ++ rest) →
  ∃ r1 r2, read_header r = Ok (Some (header_of rc), r1) ∧
    skip_payload r1 = Ok r2 ∧ read_payload r1 = Ok (rc.2, r2) ∧
    at_bytes r2 (pre ++ record_bytes rc) rest.
Proof.
  intros Hrc Hat. destruct (record_bytes_app rc) as [pad Hpad]. fold (header_of rc) in Hpad.
  pose proof Hat as Hat'. rewrite Hpad, <-!app_assoc in Hat'.
  destruct (read_header_at _ _ _ _ Hrc Hat') as (r1 & Hr & Hc & Hs & Hp & Hl & Hn).
  exists r1, {| sr_content := sr_content r1; sr_pos := length (pre ++ record_bytes rc);
                sr_next_pos := sr_next_pos r1; sr_payload_length := sr_payload_length r1;
                sr_file_size := sr_file_size r1 |}.
  destruct Hat as [H1 H2 H3 H4 H5]. split_and!; [done| | |].
  - unfold skip_payload, seek_next. by rewrite Hn.
  - unfold read_payload. rewrite Hl. cbn [or_panic obind]. rewrite Nat2Z.id. unfold read_n.
    rewrite Hp, Hc, H1, Hpad, <-!app_assoc.
    rewrite (proj2 (Nat.leb_le _ _)) by (rewrite !length_app, length_header_of; lia).
    cbn [obind]. unfold seek_next. cbn [sr_next_pos sr_content sr_payload_length sr_file_size].
    rewrite Hn. cbn [or_panic obind]. do 2 f_equal.
    + rewrite (app_assoc pre), drop_app_length' by (by rewrite length_app, length_header_of).
      by rewrite take_app_length.
    + by rewrite Hl, Hpad.
  - split; cbn [sr_content sr_pos sr_next_pos sr_file_size]; [|done|by rewrite Hn| |].
    + by rewrite Hc, H1, <-app_assoc.
    + by rewrite Hs, H4, <-app_assoc.
    + by rewrite length_app, Nat.Div0.add_mod, H5, record_bytes_aligned.
Qed.

(** The beginning of a record that was not completed: at least its header. *)
Lemma read_torn r pre rc n :
  record_ok rc → HEADER_SIZE ≤ n → at_bytes r pre (take n (record_bytes rc)) →
  ∃ r1 r2, read_header r = Ok (Some (header_of rc), r1) ∧
    skip_payload r1 = Ok r2 ∧ read_header r2 = Ok (None, r2).
Proof.
  intros Hrc Hn Hat. destruct (record_bytes_app rc) as [pad Hpad]. fold (header_of rc) in Hpad.
  pose proof Hat as [_ _ _ Hsize _]. pose proof (length_take (record_bytes rc) n) as Hlt.
  rewrite Hpad, take_app, take_ge in Hat by (by rewrite length_header_of).
  destruct (read_header_at _ _ _ _ Hrc Hat) as (r1 & Hr & Hc & Hs & Hp & Hl & Hnx).
  exists r1, {| sr_content := sr_content r1; sr_pos := length (pre ++ record_bytes rc);
                sr_next_pos := sr_next_pos r1; sr_payload_length := sr_payload_length r1;
                sr_file_size := sr_file_size r1 |}.
  split_and!; [done| |].
  - unfold skip_payload, seek_next. by rewrite Hnx.
  - apply read_header_end. simpl. rewrite Hnx, Hs, Hsize. simpl. rewrite !length_app, Hlt. lia.
Qed.

(** ** Scanning *)

(** The state of the recovery before the record [n], the records scanned so far being
    those from [r0] on, when the first live one is in segment [si] and the last one in
    segment [ei]. *)
Record rec_state (start end_ r0 n : Z) (si ei : nat) (self : Recovery) : Prop := {
  rs_start : rec_start_live self = start;
  rs_end : rec_end_live self = end_;
  rs_live_start : live_segment_start self = if (Z.max start r0 <? n)%Z then Some si else None;
  rs_live_end : live_segment_end self = if (end_ <? n)%Z then Some ei else None;
}.

Lemma on_next_record_spec start end_ r0 n si ei self index :
  (0 < start ≤ end_)%Z → (r0 ≤ end_)%Z → (r0 ≤ n)%Z → rec_state start end_ r0 n si ei self →
  ((n = Z.max start r0 → index = si) ∧ (n = end_ → index = ei)) →
  ∃ self', on_next_record self index n = Some (bool_decide (start ≤ n ≤ end_)%Z, self') ∧
    rec_state start end_ r0 (n + 1) si ei self' ∧ candidates self' = candidates self.
Proof.
  intros Hse Hr0 Hn [H1 H2 H3 H4] [Hsi Hei]. destruct self as [cs s e ls le]. simpl in *. subst s e ls le.
  assert (Hnil : (start =? 0)%Z = false) by (apply Z.eqb_neq; lia).
  unfold on_next_record, exit_live, enter_live, rec_is_live, is_nil. simpl. rewrite Hnil. simpl.
  destruct (Z.ltb_spec (Z.max start r0) n) as [Hst|Hst], (Z.ltb_spec end_ n) as [He|He]; try lia;
    simpl; [| |destruct (Z.leb_spec start n) as [Hs|Hs]]; simpl; rewrite Hnil; simpl.
  - rewrite bool_decide_eq_false_2 by lia. eexists. split_and!; [reflexivity| |done].
    split; simpl; [done|done| |]; by rewrite (proj2 (Z.ltb_lt _ _)) by lia.
  - rewrite bool_decide_eq_true_2 by lia. destruct (Z.leb_spec end_ n); eexists;
      (split_and!; [reflexivity| |done]); split; simpl; try done; try (by rewrite (proj2 (Z.ltb_lt _ _)) by lia).
    + rewrite (proj2 (Z.ltb_lt _ _)), Hei by lia. done.
    + by rewrite (proj2 (Z.ltb_ge _ _)) by lia.
  - rewrite bool_decide_eq_true_2, Hsi by lia. destruct (Z.leb_spec end_ n); eexists;
      (split_and!; [reflexivity| |done]); split; simpl; try done; try (by rewrite (proj2 (Z.ltb_lt _ _)) by lia).
    + rewrite (proj2 (Z.ltb_lt _ _)) by lia. f_equal. rewrite <-Hsi by lia. apply Hei. lia.
    + by rewrite (proj2 (Z.ltb_ge _ _)) by lia.
  - rewrite bool_decide_eq_false_2 by lia. eexists. split_and!; [reflexivity| |done].
    split; simpl; [done|done| |]; by rewrite (proj2 (Z.ltb_ge _ _)) by lia.
Qed.

(** The record ids from [n] on. *)
Definition ids_from (n : Z) (rs : list record) : Prop := rs.*1 = seqZ n (Z.of_nat (length rs)).

Lemma ids_from_cons n rc rs : ids_from n (rc :: rs) ↔ rc.1 = n ∧ ids_from (n + 1) rs.
Proof.
  unfold ids_from. rewrite fmap_cons. cbn [length]. rewrite Nat2Z.inj_succ, seqZ_cons by lia.
  rewrite Z.pred_succ. change (Z.succ n) with (n + 1)%Z. split; [by intros [= -> ->]|by intros [-> ->]].
Qed.

Lemma ids_from_app n rs rs' :
  ids_from n (rs ++ rs') ↔ ids_from n rs ∧ ids_from (n + Z.of_nat (length rs)) rs'.
Proof.
  revert n. induction rs as [|rc rs IH]; intros n; simpl app.
  - unfold ids_from at 2. simpl. rewrite Z.add_0_r. naive_solver.
  - rewrite !ids_from_cons, IH. cbn [length]. rewrite Nat2Z.inj_succ.
    replace (n + 1 + Z.of_nat (length rs))%Z with (n + Z.succ (Z.of_nat (length rs)))%Z by lia. tauto.
Qed.

Lemma ids_from_elem n rs id : ids_from n rs → id ∈ rs.*1 ↔ (n ≤ id < n + Z.of_nat (length rs))%Z.
Proof. unfold ids_from. intros ->. apply elem_of_seqZ. Qed.

Lemma ids_from_pos n rs : ids_from n rs → (0 < n)%Z → Forall (λ rc : record, (0 < rc.1)%Z) rs.
Proof.
  intros Hids Hn. apply Forall_forall. intros rc Hrc.
  assert (rc.1 ∈ rs.*1) as H%(ids_from_elem _ _ _ Hids) by (by apply list_elem_of_fmap_2). lia.
Qed.

Definition first_id (rs : list record) : option Z := fst <$> head rs.
Definition last_id (rs : list record) : option Z := fst <$> last rs.

Lemma last_id_from n rs : ids_from n rs → rs ≠ [] → last_id rs = Some (n + Z.of_nat (length rs) - 1)%Z.
Proof.
  destruct rs as [|rc rs _] using rev_ind; [done|]. intros [_ H]%ids_from_app _.
  apply ids_from_cons in H as [H _]. unfold last_id. rewrite last_snoc, length_app. simpl. f_equal. lia.
Qed.

(** A segment file: its whole records, and what a crash left of one more. *)
Record sfile := { sf_id : Z; sf_records : list record; sf_torn : list u8 }.

Definition file_bytes (f : sfile) : list u8 := segment_bytes (sf_records f) ++ sf_torn f.

(** The bytes after the whole records: none, or the beginning of the record [next],
    which is not live, with at least its header. *)
Definition torn_ok (next end_ : Z) (torn : list u8) : Prop :=
  torn = [] ∨
  ∃ rc n, record_ok rc ∧ HEADER_SIZE ≤ n ∧ torn = take n (record_bytes rc) ∧ rc.1 = next ∧ (end_ < next)%Z.

Definition all_records (files : list sfile) : list record := files ≫= sf_records.

(** The files of a log, whose records are those from [n] on. *)
Fixpoint files_from (end_ n : Z) (files : list sfile) : Prop :=
  match files with
  | [] => True
  | f :: rest =>
      Forall record_ok (sf_records f) ∧ ids_from n (sf_records f) ∧
      torn_ok (n + Z.of_nat (length (sf_records f))) end_ (sf_torn f) ∧
      (rest = [] ∨ sf_torn f = []) ∧ files_from end_ (n + Z.of_nat (length (sf_records f))) rest
  end.

(** The segment of a file, as found in the directory and as known after the scan. *)
Definition candidate_of (prefix : list u8) (f : sfile) : Segment :=
  {| seg_id := sf_id f; seg_path := segment_format prefix (sf_id f); seg_min := 0; seg_max := 0 |}.

Definition scanned (prefix : list u8) (f : sfile) (s : Segment) : Prop :=
  seg_id s = sf_id f ∧ seg_path s = segment_format prefix (sf_id f) ∧
  (sf_records f ≠ [] → Some (seg_min s) = first_id (sf_records f)) ∧
  (sf_torn f = [] → seg_max s = default 0%Z (last_id (sf_records f))).

(** The live records. *)
Definition live_records (start end_ : Z) (rs : list record) : list record :=
  filter (λ rc : record, (start ≤ rc.1 ≤ end_)%Z) rs.

Section scanning.
Context {A : Type} (process_record : Z → list u8 → A → outcome SegError A).

Fixpoint process_all (rs : list record) (a : A) : outcome SegError A :=
  match rs with
  | [] => Ok a
  | rc :: rs => let! a := process_record rc.1 rc.2 a in process_all rs a
  end.

Lemma process_all_app rs rs' a :
  process_all (rs ++ rs') a = let! a := process_all rs a in process_all rs' a.
Proof.
  revert a. induction rs as [|rc rs IH]; intros a; [done|]. simpl.
  destruct (process_record _ _ _); simpl; auto.
Qed.

Context (start end_ r0 : Z) (si ei : nat).
Hypothesis live_range_ok : (0 < start ≤ end_)%Z.
Hypothesis first_ok : (r0 ≤ end_)%Z.

(** The segment of the first and of the last live record. *)
Definition live_index (index : nat) (n : Z) : Prop :=
  (n = Z.max start r0 → index = si) ∧ (n = end_ → index = ei).

Lemma scan_loop_records rs index n self r pre tail min last :
  Forall record_ok rs → ids_from n rs → (r0 ≤ n)%Z → Forall (λ rc, live_index index rc.1) rs →
  rec_state start end_ r0 n si ei self → at_bytes r pre (segment_bytes rs ++ tail) →
  (last = None ∨ last = Some (n - 1)%Z) →
  ∃ self' r', rec_state start end_ r0 (n + Z.of_nat (length rs)) si ei self' ∧
    candidates self' = candidates self ∧ at_bytes r' (pre ++ segment_bytes rs) tail ∧
    ∀ fuel a, scan_loop process_record (length rs + fuel) index self a r min last last =
      let! a := process_all (live_records start end_ rs) a in
      scan_loop process_record fuel index self' a r' (match min with Some _ => min | None => first_id rs end)
        (match last_id rs with Some i => Some i | None => last end)
        (match last_id rs with Some i => Some i | None => last end).
Proof.
  intros Hok. revert n self r pre min last.
  induction Hok as [|rc rs Hrc Hok IH]; intros n self r pre min last Hids Hn Hix Hst Hat Hlast.
  { exists self, r. rewrite Z.add_0_r, app_nil_r. split_and!; try done. intros fuel a. simpl.
    by destruct min. }
  apply ids_from_cons in Hids as [Hid Hids]. apply Forall_cons_1 in Hix as [Hix1 Hix].
  rewrite segment_bytes_cons, <-app_assoc in Hat.
  destruct (read_record _ _ _ _ Hrc Hat) as (r1 & r2 & Hh & Hskip & Hread & Hat2).
  rewrite Hid in Hix1.
  destruct (on_next_record_spec _ _ _ _ _ _ _ index live_range_ok first_ok Hn Hst Hix1) as (self1 & Hnx & Hst1 & Hc1).
  destruct (IH (n + 1)%Z self1 r2 (pre ++ record_bytes rc) (match min with Some _ => min | None => Some n end) (Some n))
    as (self' & r' & Hst' & Hc' & Hat' & Hloop); [done|lia|done|done|done|right; f_equal; lia|].
  exists self', r'. split_and!.
  - cbn [length]. rewrite Nat2Z.inj_succ. by replace (n + Z.succ (Z.of_nat (length rs)))%Z
      with (n + 1 + Z.of_nat (length rs))%Z by lia.
  - congruence.
  - by rewrite segment_bytes_cons, app_assoc.
  - intros fuel a. cbn [length Nat.add scan_loop]. rewrite Hh. cbn [obind].
    unfold header_of. rewrite record_id_spec by apply Hrc. cbn [or_panic obind]. rewrite Hid.
    assert (Hord : match last with
      | Some last0 => let! next := or_panic (id_next last0) in if (n =? next)%Z then Ok () else Err IdsNotOrdered
      | None => Ok () end = Ok (E := SegError) ()).
    { destruct Hlast as [->| ->]; [done|]. destruct Hrc as [[? ?] _]. unfold id_next.
      rewrite (proj2 (Z.ltb_lt _ _)) by lia. simpl. by rewrite (proj2 (Z.eqb_eq _ _)) by lia. }
    rewrite Hord. cbn [obind]. rewrite Hnx. cbn [or_panic obind].
    assert (Hmax : match last with Some m => if (m <? n)%Z then Some n else last | None => Some n end = Some n).
    { destruct Hlast as [->| ->]; [done|]. by rewrite (proj2 (Z.ltb_lt _ _)) by lia. }
    rewrite Hmax. unfold live_records. rewrite filter_cons, Hid.
    assert (Hmin : match min with Some _ => min | None => first_id (rc :: rs) end =
      match (match min with Some _ => min | None => Some n end) with
      | Some _ => match min with Some _ => min | None => Some n end | None => first_id rs end).
    { destruct min; [done|]. unfold first_id. simpl. by rewrite Hid. }
    assert (Hl : match last_id (rc :: rs) with Some i => Some i | None => last end =
                 match last_id rs with Some i => Some i | None => Some n end).
    { unfold last_id. rewrite last_cons. destruct (list.last rs); simpl; [done|]. by rewrite Hid. }
    rewrite Hmin, Hl. unfold live_records in Hloop.
    case_bool_decide as Hlive; [rewrite decide_True by done|rewrite decide_False by done].
    + rewrite Hread. cbn [obind process_all]. rewrite Hid.
      destruct (process_record n rc.2 a) as [a1|e|]; cbn [obind]; [apply Hloop|done|done].
    + rewrite Hskip. cbn [obind]. apply Hloop.
Qed.

Lemma scan_file f index n self :
  Forall record_ok (sf_records f) → ids_from n (sf_records f) → (r0 ≤ n)%Z →
  Forall (λ rc, live_index index rc.1) (sf_records f) →
  torn_ok (n + Z.of_nat (length (sf_records f))) end_ (sf_torn f) →
  rec_state start end_ r0 n si ei self →
  ∃ self' n' min max, rec_state start end_ r0 n' si ei self' ∧ candidates self' = candidates self ∧
    (n + Z.of_nat (length (sf_records f)) ≤ n')%Z ∧
    (sf_torn f = [] → n' = n + Z.of_nat (length (sf_records f)))%Z ∧
    (sf_records f ≠ [] → min = first_id (sf_records f)) ∧ (sf_torn f = [] → max = last_id (sf_records f)) ∧
    ∀ a, scan_loop process_record (scan_fuel (file_bytes f)) index self a
           (SegmentFileReader_new (file_bytes f) (Some (length (file_bytes f)))) None None None =
      let! a := process_all (live_records start end_ (sf_records f)) a in Ok (self', a, min, max).
Proof.
  intros Hok Hids Hn Hix Htorn Hst. set (rs := sf_records f) in *. set (torn := sf_torn f) in *.
  destruct (scan_loop_records rs index n self (SegmentFileReader_new (file_bytes f) (Some (length (file_bytes f))))
              [] torn None None) as (self1 & r1 & Hst1 & Hc1 & Hat1 & Hloop); [done..|by apply at_bytes_new|by left|].
  assert (Hfuel : ∃ k, scan_fuel (file_bytes f) = length rs + S (S k)).
  { exists (length (file_bytes f) / RECORD_ALIGNMENT - length rs). unfold scan_fuel.
    assert (length rs ≤ length (file_bytes f) / RECORD_ALIGNMENT); [|lia].
    apply Nat.div_le_lower_bound; [done|]. unfold file_bytes. rewrite length_app.
    pose proof (segment_bytes_length rs). fold rs. lia. }
  destruct Hfuel as [k ->]. simpl app in Hat1.
  destruct Htorn as [Ht|(rc & m & Hrc & Hm & Ht & Hnext & Hgt)].
  - exists self1, (n + Z.of_nat (length rs))%Z, (first_id rs), (last_id rs). split_and!; try done.
    intros a. rewrite Hloop. destruct (process_all _ a) as [a1|e|]; cbn [obind]; [|done|done].
    rewrite Ht in Hat1. cbn [scan_loop]. rewrite (at_bytes_end _ _ Hat1). cbn [obind].
    by destruct (last_id rs).
  - rewrite Ht in Hat1. destruct (read_torn _ _ _ _ Hrc Hm Hat1) as (r2 & r3 & Hh & Hskip & Hend).
    assert (Hn1 : (r0 ≤ n + Z.of_nat (length rs))%Z) by lia.
    destruct (on_next_record_spec _ _ _ _ _ _ _ index live_range_ok first_ok Hn1 Hst1) as (self2 & Hnx & Hst2 & Hc2).
    { unfold live_index. split; lia. }
    rewrite bool_decide_eq_false_2 in Hnx by lia. set (n1 := (n + Z.of_nat (length rs))%Z) in *.
    exists self2, (n1 + 1)%Z, (match first_id rs with Some i => Some i | None => Some n1 end), (Some n1).
    assert (Htne : torn ≠ []).
    { rewrite Ht. intros E. apply (f_equal length) in E. rewrite length_take in E.
      pose proof (record_bytes_pos rc). unfold HEADER_SIZE, RECORD_ALIGNMENT in *. simpl length in E. lia. }
    split_and!; [done|congruence|lia|done| |done|].
    { intros Hne. destruct rs as [|x rs']; [done|]. done. }
    intros a. rewrite Hloop. destruct (process_all _ a) as [a1|e|]; cbn [obind]; [|done|done].
    cbn [scan_loop]. rewrite Hh. cbn [obind]. unfold header_of. rewrite record_id_spec by apply Hrc.
    cbn [or_panic obind]. rewrite Hnext.
    assert (Hl : last_id rs = None ∨ last_id rs = Some (n1 - 1)%Z).
    { destruct (decide (rs = [])) as [->|Hne]; [by left|]. right. by rewrite (last_id_from n). }
    assert (Hord : match match last_id rs with Some i => Some i | None => None end with
      | Some last0 => let! next := or_panic (id_next last0) in if (n1 =? next)%Z then Ok () else Err IdsNotOrdered
      | None => Ok () end = Ok (E := SegError) ()).
    { destruct Hrc as [[? ?] _]. destruct Hl as [->| ->]; [done|]. unfold id_next.
      rewrite (proj2 (Z.ltb_lt _ _)) by lia. simpl. by rewrite (proj2 (Z.eqb_eq _ _)) by lia. }
    rewrite Hord. cbn [obind]. rewrite Hnx. cbn [or_panic obind]. rewrite Hskip. cbn [obind].
    rewrite Hend. cbn [obind]. do 2 f_equal; [by destruct (first_id rs)|].
    destruct Hl as [->| ->]; [done|]. by rewrite (proj2 (Z.ltb_lt _ _)) by lia.
Qed.

Lemma scan_segments_spec (prefix : list u8) d files before behind n self :
  files_from end_ n files → (r0 ≤ n)%Z →
  (∀ f, f ∈ files → d !! segment_format prefix (sf_id f) = Some (file_bytes f)) →
  (∀ i f rc, files !! i = Some f → rc ∈ sf_records f → live_index (length before + i) rc.1) →
  rec_state start end_ r0 n si ei self → candidates self = before ++ (candidate_of prefix <$> files) ++ behind →
  ∃ self' n' after, rec_state start end_ r0 n' si ei self' ∧
    (n + Z.of_nat (length (all_records files)) ≤ n')%Z ∧
    (Forall (λ f, sf_torn f = []) files → n' = (n + Z.of_nat (length (all_records files)))%Z) ∧
    candidates self' = before ++ after ++ behind ∧ Forall2 (scanned prefix) files after ∧
    ∀ a, scan_segments process_record (seq (length before) (length files)) self a d =
      (d, let! a := process_all (live_records start end_ (all_records files)) a in Ok (self', a)).
Proof.
  revert before n self. induction files as [|f files IH]; intros before n self Hff Hn Hd Hix Hst Hc.
  { exists self, n, []. rewrite Hc. split_and!; try done; simpl; lia. }
  destruct Hff as (Hok & Hids & Htorn & Hrest & Hff).
  assert (Hix0 : Forall (λ rc, live_index (length before) rc.1) (sf_records f)).
  { apply Forall_forall. intros rc Hrc. specialize (Hix 0 f rc eq_refl Hrc). by rewrite Nat.add_0_r in Hix. }
  destruct (scan_file f (length before) n self Hok Hids Hn Hix0 Htorn Hst)
    as (self1 & n1 & min & max & Hst1 & Hc1 & Hle1 & Heq1 & Hmin & Hmax & Hloop).
  set (c := set_bounds (candidate_of prefix f) (default 0%Z min) (default 0%Z max)).
  set (self2 := {| candidates := before ++ c :: (candidate_of prefix <$> files) ++ behind;
                   rec_start_live := rec_start_live self1; rec_end_live := rec_end_live self1;
                   live_segment_start := live_segment_start self1; live_segment_end := live_segment_end self1 |}).
  assert (Hst2 : rec_state start end_ r0 n1 si ei self2) by (by destruct Hst1).
  assert (Hseg : ∀ a, scan_segment process_record (length before) self a d =
    (d, let! a := process_all (live_records start end_ (sf_records f)) a in Ok (self2, a))).
  { intros a. unfold scan_segment, io_bind, io_lift, io_ret, file_open.
    rewrite Hc, lookup_app_r, Nat.sub_diag, fmap_cons by lia.
    cbn [app lookup list_lookup or_panic candidate_of seg_path]. rewrite (Hd f) by left. rewrite Hloop.
    destruct (process_all _ a) as [a1|e|]; [|done|done]. cbn [obind]. do 3 f_equal. subst self2. f_equal.
    rewrite Hc1, Hc. rewrite insert_app_r_alt, Nat.sub_diag by lia. done. }
  assert (Hscan : scanned prefix f c).
  { split_and!; [done|done| |].
    - intros Hne. simpl. rewrite (Hmin Hne). unfold first_id. by destruct (sf_records f).
    - intros Ht. simpl. by rewrite (Hmax Ht). }
  assert (Hn1 : files = [] ∨ n1 = (n + Z.of_nat (length (sf_records f)))%Z) by (destruct Hrest; auto).
  assert (Hff1 : files_from end_ n1 files) by (destruct Hn1 as [->| ->]; done).
  destruct (IH (before ++ [c]) n1 self2) as (self' & n' & after & Hst' & Hle' & Heq' & Hc' & Hf2 & Hrun); try done.
  - lia.
  - intros g Hg. apply Hd. by right.
  - intros i g rc Hi Hrc. specialize (Hix (S i) g rc Hi Hrc). rewrite length_app. simpl.
    by replace (length before + 1 + i) with (length before + S i) by lia.
  - simpl. by rewrite <-app_assoc.
  - exists self', n', (c :: after). split_and!; [done| | | |by constructor|].
    + unfold all_records in *. rewrite bind_cons, length_app. lia.
    + intros [Ht Hts]%Forall_cons_1. rewrite Heq' by done. rewrite Heq1 by done.
      unfold all_records. rewrite bind_cons, length_app. lia.
    + by rewrite Hc', <-app_assoc.
    + intros a. cbn [length seq scan_segments]. unfold io_bind. rewrite Hseg.
      unfold all_records, live_records. rewrite bind_cons, filter_app, process_all_app.
      destruct (process_all _ a) as [a1|e|]; cbn [obind]; [|done|done].
      specialize (Hrun a1). rewrite length_app, Nat.add_1_r in Hrun. apply Hrun.
Qed.
End scanning.

(** ** File names *)

Lemma parse_digit_step n i j rest :
  (0 ≤ n < 2 ^ 32)%Z → (0 ≤ i)%Z → j = (i + 1)%Z →
  parse_digits (n / 10 ^ j) (byte_of_Z (48 + (n / 10 ^ i) mod 10) :: rest) =
    parse_digits (n / 10 ^ i) rest.
Proof.
  intros Hn Hi ->. cbn [parse_digits]. rewrite byte_Z_of_Z.
  pose proof (Z.mod_pos_bound (n / 10 ^ i) 10 ltac:(lia)) as Hm. rewrite (Z.mod_small _ 256) by lia.
  rewrite (proj2 (Z.leb_le _ _)), (proj2 (Z.leb_le _ _)) by lia. cbn [andb].
  assert (Hacc : (10 * (n / 10 ^ (i + 1)) + (48 + (n / 10 ^ i) mod 10 - 48))%Z = (n / 10 ^ i)%Z).
  { rewrite Z.pow_add_r, <-Z.div_div by lia. change (10 ^ 1)%Z with 10%Z.
    pose proof (Z.div_mod (n / 10 ^ i) 10 ltac:(lia)). lia. }
  rewrite Hacc. assert (n / 10 ^ i ≤ n)%Z.
  { apply Z.div_le_upper_bound; [lia|]. pose proof (Z.pow_pos_nonneg 10 i). nia. }
  by rewrite (proj2 (Z.ltb_lt _ _)) by lia.
Qed.

Lemma parse_ten_digits n : (0 ≤ n < 2 ^ 32)%Z → parse_u32 (ten_digits n) = Some n.
Proof.
  intros Hn. assert (H0 : parse_digits 0 (ten_digits n) = Some n).
  { unfold ten_digits. cbn [fmap list_fmap].
    assert (E : (n / 10 ^ 10 = 0)%Z) by (apply Z.div_small; lia). rewrite <-E at 1.
    rewrite (parse_digit_step n 9 10), (parse_digit_step n 8 9), (parse_digit_step n 7 8),
      (parse_digit_step n 6 7), (parse_digit_step n 5 6), (parse_digit_step n 4 5), (parse_digit_step n 3 4),
      (parse_digit_step n 2 3), (parse_digit_step n 1 2), (parse_digit_step n 0 1) by lia.
    cbn [parse_digits]. f_equal. apply Z.div_1_r. }
  unfold parse_u32. unfold ten_digits in *. cbn [fmap list_fmap] in *.
  rewrite bool_decide_eq_false_2; [done|]. intros E. apply (f_equal byte_Z) in E.
  rewrite byte_Z_of_Z in E. pose proof (Z.mod_pos_bound (n / 10 ^ 9) 10 ltac:(lia)) as Hm.
  rewrite Z.mod_small in E by lia. change (byte_Z x2b) with 43%Z in E. lia.
Qed.

Lemma segment_parse_format prefix id :
  prefix ≠ [] → (0 ≤ id < 2 ^ 32)%Z → segment_parse prefix (segment_format prefix id) = Ok id.
Proof.
  intros Hp Hid. unfold segment_parse, segment_format, strip_prefix. rewrite bool_decide_eq_false_2 by done.
  rewrite take_app_length, bool_decide_eq_true_2, drop_app_length by done.
  unfold strip_suffix. rewrite app_assoc.
  assert (Hl : length (([x2e] ++ ten_digits id) ++ dot_log) - length dot_log = length ([x2e] ++ ten_digits id)).
  { rewrite length_app. lia. }
  rewrite Hl, drop_app_length, take_app_length, bool_decide_eq_true_2; [|rewrite length_app; split; [lia|done]].
  cbn [app length]. rewrite bool_decide_eq_true_2 by done. cbn [drop]. rewrite drop_0.
  replace (length (ten_digits id) =? 10) with true by done. cbn [negb]. by rewrite parse_ten_digits.
Qed.

Lemma segment_format_inj prefix i j :
  prefix ≠ [] → (0 ≤ i < 2 ^ 32)%Z → (0 ≤ j < 2 ^ 32)%Z →
  segment_format prefix i = segment_format prefix j → i = j.
Proof.
  intros Hp Hi Hj E. apply (f_equal (segment_parse prefix)) in E.
  rewrite !segment_parse_format in E by done. congruence.
Qed.

(** Segment ids are numbered from [i] on. *)
Fixpoint seg_ids_from (i : Z) (files : list sfile) : Prop :=
  match files with
  | [] => True
  | f :: rest => sf_id f = i ∧ seg_ids_from (i + 1) rest
  end.

Definition ids_ok (i : Z) (files : list sfile) : Prop :=
  seg_ids_from i files ∧ (0 < i)%Z ∧ (i + Z.of_nat (length files) ≤ 2 ^ 32)%Z.

(** The files of the directory whose names start with the prefix are those of the log. *)
Record dir_ok (prefix : list u8) (d : fs) (files : list sfile) : Prop := {
  do_has : ∀ f, f ∈ files → d !! segment_format prefix (sf_id f) = Some (file_bytes f);
  do_only : ∀ name, is_Some (d !! name) → take (length prefix) name = prefix →
    ∃ f, f ∈ files ∧ name = segment_format prefix (sf_id f);
}.

Lemma seg_ids_elem i files f :
  seg_ids_from i files → f ∈ files → (i ≤ sf_id f < i + Z.of_nat (length files))%Z.
Proof.
  revert i. induction files as [|g files IH]; intros i; [by intros _ ?%not_elem_of_nil|].
  intros [Hg Hs] [->|Hf]%elem_of_cons; cbn [length]; [lia|]. pose proof (IH _ Hs Hf). lia.
Qed.

Lemma ids_ok_u32 i files f : ids_ok i files → f ∈ files → (0 < sf_id f < 2 ^ 32)%Z.
Proof. intros (Hs & Hi & Hb) Hf. pose proof (seg_ids_elem _ _ _ Hs Hf). lia. Qed.

Lemma seg_ids_inj i files f g :
  seg_ids_from i files → f ∈ files → g ∈ files → sf_id f = sf_id g → f = g.
Proof.
  revert i. induction files as [|x files IH]; intros i; [by intros _ ?%not_elem_of_nil|].
  intros [Hx Hs] [->|Hf]%elem_of_cons [->|Hg]%elem_of_cons E; [done| | |by eapply IH].
  - pose proof (seg_ids_elem _ _ _ Hs Hg). lia.
  - pose proof (seg_ids_elem _ _ _ Hs Hf). lia.
Qed.

Lemma seg_ids_nodup i files : seg_ids_from i files → NoDup (sf_id <$> files).
Proof.
  revert i. induction files as [|x files IH]; intros i; [constructor|].
  intros [Hx Hs]. rewrite fmap_cons. constructor; [|by eapply IH].
  intros (f & E & Hf)%list_elem_of_fmap. pose proof (seg_ids_elem _ _ _ Hs Hf). lia.
Qed.

Lemma nodup_fmap_of {A B} (f : A → B) l : NoDup (f <$> l) → NoDup l.
Proof. apply NoDup_fmap_1. Qed.

Lemma format_take prefix id : take (length prefix) (segment_format prefix id) = prefix.
Proof. unfold segment_format. by rewrite take_app_length. Qed.

(** The names of the directory are parsed into the segments of the log. *)
Lemma collect_candidates_spec prefix i files names :
  prefix ≠ [] → ids_ok i files →
  (∀ name, name ∈ names → take (length prefix) name = prefix →
     ∃ f, f ∈ files ∧ name = segment_format prefix (sf_id f)) →
  NoDup names →
  ∃ cs, collect_candidates prefix names = Ok cs ∧ NoDup cs ∧
    ∀ s, s ∈ cs ↔ ∃ f, f ∈ files ∧ segment_format prefix (sf_id f) ∈ names ∧ s = candidate_of prefix f.
Proof.
  intros Hp Hids. induction names as [|name names IH]; intros Honly Hnd.
  { exists []. split_and!; [done|constructor|]. intros s. rewrite elem_of_nil. split; [done|].
    by intros (f & _ & ?%elem_of_nil & _). }
  apply NoDup_cons in Hnd as [Hnn Hnd]. destruct IH as (cs & Hcs & Hndc & Hel); [|done|].
  { intros n Hn. apply Honly. by right. }
  cbn [collect_candidates]. case_bool_decide as Hpre.
  - destruct (Honly name) as (f & Hf & ->); [left|done|].
    pose proof (ids_ok_u32 _ _ _ Hids Hf). rewrite segment_parse_format by (done || lia). cbn [obind].
    rewrite Hcs. cbn [obind]. eexists. split; [reflexivity|]. fold (candidate_of prefix f). split.
    + constructor; [|done]. rewrite Hel. intros (g & Hg & Hin & E). injection E as E _.
      rewrite <-E in Hin. done.
    + intros s. rewrite elem_of_cons, Hel. split.
      * intros [->|(g & Hg & Hin & ->)]; [exists f; split_and!; [done|left|done]|].
        exists g. split_and!; [done|by right|done].
      * intros (g & Hg & [E|Hin]%elem_of_cons & ->); [left|right; by exists g].
        apply segment_format_inj in E; [|done|pose proof (ids_ok_u32 _ _ _ Hids Hg); lia|lia].
        by rewrite (seg_ids_inj i files g f) by (done || apply Hids).
  - exists cs. split_and!; [done|done|]. intros s. rewrite Hel. split.
    + intros (g & Hg & Hin & ->). exists g. split_and!; [done|by right|done].
    + intros (g & Hg & [E|Hin]%elem_of_cons & ->); [|by exists g].
      destruct Hpre. rewrite <-E. apply format_take.
Qed.

Lemma candidates_sorted prefix i files :
  seg_ids_from i files → StronglySorted seg_le (candidate_of prefix <$> files).
Proof.
  revert i. induction files as [|f files IH]; intros i; [constructor|]. intros [Hf Hs].
  rewrite fmap_cons. constructor; [by eapply IH|]. apply Forall_forall.
  intros s (g & -> & Hg)%list_elem_of_fmap. unfold seg_le. simpl.
  pose proof (seg_ids_elem _ _ _ Hs Hg). lia.
Qed.

#[global] Instance seg_le_total : Total seg_le.
Proof. intros a b. unfold seg_le. lia. Qed.
#[global] Instance seg_le_trans : Transitive seg_le.
Proof. intros a b c. unfold seg_le. lia. Qed.

Lemma check_candidates_spec prefix i files prev :
  seg_ids_from i files → (0 < i)%Z → (prev = None ∨ prev = Some (i - 1)%Z) →
  check_candidates prev (candidate_of prefix <$> files) = Ok ().
Proof.
  revert i prev. induction files as [|f files IH]; intros i prev; [done|]. intros [Hf Hs] Hi Hprev.
  rewrite fmap_cons. cbn [check_candidates candidate_of seg_id]. rewrite Hf. unfold is_nil.
  rewrite (proj2 (Z.eqb_neq _ _)) by lia.
  destruct Hprev as [->| ->]; [|rewrite Z.eqb_refl; cbn [negb]];
    (apply (IH (i + 1)%Z); [done|lia|right; f_equal; lia]).
Qed.

Lemma scan_root_dir_spec prefix i d files :
  prefix ≠ [] → ids_ok i files → dir_ok prefix d files →
  scan_root_dir prefix d = (d, Ok (candidate_of prefix <$> files)).
Proof.
  intros Hp Hids [Hhas Honly]. unfold scan_root_dir. f_equal.
  destruct (collect_candidates_spec prefix i files (map_to_list d).*1) as (cs & -> & Hnd & Hel); try done.
  { intros name ([n c] & -> & Hin%elem_of_map_to_list)%list_elem_of_fmap. apply Honly. by exists c. }
  { apply NoDup_fst_map_to_list. }
  cbn [obind]. cbv zeta. destruct Hids as (Hs & Hi & Hb).
  assert (Hperm : cs ≡ₚ candidate_of prefix <$> files).
  { apply NoDup_Permutation; [done| |].
    - apply (NoDup_fmap_1 seg_id). rewrite <-list_fmap_compose. by eapply seg_ids_nodup.
    - intros s. rewrite Hel, list_elem_of_fmap. split; [naive_solver|]. intros (f & -> & Hf). exists f.
      split_and!; [done| |done]. apply list_elem_of_fmap. exists (segment_format prefix (sf_id f), file_bytes f).
      split; [done|]. by apply elem_of_map_to_list, Hhas. }
  assert (Heq : merge_sort seg_le cs = candidate_of prefix <$> files).
  { apply (StronglySorted_unique_strong seg_le).
    - intros x y Hx Hy H1 H2. rewrite merge_sort_Permutation, Hperm in Hx.
      apply list_elem_of_fmap in Hx as (f & -> & Hf), Hy as (g & -> & Hg). unfold seg_le in *. simpl in *.
      by rewrite (seg_ids_inj i files f g) by (done || lia).
    - apply (StronglySorted_merge_sort seg_le).
    - by eapply candidates_sorted.
    - by rewrite merge_sort_Permutation. }
  rewrite Heq. rewrite bool_decide_eq_true_2; [|rewrite <-list_fmap_compose; by eapply seg_ids_nodup].
  cbn [oassert or_panic obind]. rewrite (check_candidates_spec _ i) by auto. done.
Qed.

(** ** Removing and truncating files *)

(** The directories agree on the files that are not of the log. *)
Definition others_same (prefix : list u8) (d d' : fs) : Prop :=
  ∀ name, take (length prefix) name ≠ prefix → d' !! name = d !! name.

Lemma others_same_trans prefix d1 d2 d3 :
  others_same prefix d1 d2 → others_same prefix d2 d3 → others_same prefix d1 d3.
Proof. intros H1 H2 name Hn. by rewrite H2, H1. Qed.

Lemma format_apart prefix i files f g :
  prefix ≠ [] → ids_ok i files → f ∈ files → g ∈ files → f ≠ g →
  segment_format prefix (sf_id f) ≠ segment_format prefix (sf_id g).
Proof.
  intros Hp Hids Hf Hg Hne E.
  pose proof (ids_ok_u32 _ _ _ Hids Hf). pose proof (ids_ok_u32 _ _ _ Hids Hg).
  apply segment_format_inj in E; [|done|lia|lia]. destruct Hids as (Hs & _).
  by apply Hne, (seg_ids_inj i files f g Hs).
Qed.

(** Removing a file. *)
Lemma remove_file_spec prefix i files d f rest :
  prefix ≠ [] → ids_ok i files → (∀ g, g ∈ f :: rest → g ∈ files) → f ∉ rest →
  dir_ok prefix d (f :: rest) →
  ∃ d', remove_file (segment_format prefix (sf_id f)) d = (d', Ok ()) ∧
    dir_ok prefix d' rest ∧ others_same prefix d d'.
Proof.
  intros Hp Hids Hsub Hnot [Hhas Honly]. unfold remove_file. rewrite (Hhas f) by left.
  assert (Hne : ∀ g, g ∈ rest → segment_format prefix (sf_id f) ≠ segment_format prefix (sf_id g)).
  { intros g Hg. apply (format_apart _ i files); [done|done|apply Hsub; left|apply Hsub; by right|congruence]. }
  eexists. split; [reflexivity|]. split; [split|].
  - intros g Hg. rewrite lookup_delete_ne by auto. apply Hhas. by right.
  - intros name [c Hc] Hpre. apply lookup_delete_Some in Hc as [Hn Hc].
    destruct (Honly name) as (g & [->|Hg]%elem_of_cons & ->); [by exists c|done|done|]. by exists g.
  - intros name Hn. apply lookup_delete_ne. intros <-. destruct Hn. apply format_take.
Qed.

Lemma remove_segments_spec prefix i files d (gone kept : list sfile) segs :
  prefix ≠ [] → ids_ok i files → NoDup (gone ++ kept) → (∀ f, f ∈ gone ++ kept → f ∈ files) →
  dir_ok prefix d (gone ++ kept) →
  Forall2 (λ f s, seg_path s = segment_format prefix (sf_id f)) gone segs →
  ∃ d', remove_segments segs d = (d', Ok ()) ∧ dir_ok prefix d' kept ∧ others_same prefix d d'.
Proof.
  intros Hp Hids. revert d segs. induction gone as [|f gone IH]; intros d segs Hnd Hsub Hdir Hf2.
  { inversion Hf2; subst. exists d. split_and!; [done|done|]. by intros ?. }
  inversion Hf2 as [|? s ? segs' Hpath Hf2']; subst. simpl in Hnd. apply NoDup_cons in Hnd as [Hn Hnd].
  destruct (remove_file_spec prefix i files d f (gone ++ kept)) as (d1 & Hrem & Hdir1 & Hoth1); try done.
  cbn [remove_segments]. unfold io_bind. rewrite Hpath, Hrem.
  destruct (IH d1 segs') as (d' & -> & Hd' & Hoth'); [done| |done|done|].
  { intros g Hg. apply Hsub. by right. }
  exists d'. split_and!; [done|done|]. by eapply others_same_trans.
Qed.

Definition truncate_file (end_ : Z) (f : sfile) : sfile :=
  {| sf_id := sf_id f; sf_records := filter (λ rc : record, (rc.1 ≤ end_)%Z) (sf_records f); sf_torn := [] |}.

Lemma scan_record_end_at rs1 rc rest r pre :
  Forall record_ok (rs1 ++ [rc]) → Forall (λ x : record, x.1 ≠ rc.1) rs1 →
  at_bytes r pre (segment_bytes (rs1 ++ [rc]) ++ rest) →
  ∀ fuel, scan_record_end_loop (length rs1 + S fuel) rc.1 r =
    Ok (Some (length pre + length (segment_bytes (rs1 ++ [rc])))).
Proof.
  intros Hok Hne. revert r pre. induction Hne as [|x rs1 Hx Hne IH]; intros r pre Hat fuel.
  - apply Forall_cons_1 in Hok as [Hrc _]. rewrite app_nil_l, segment_bytes_cons, <-app_assoc in Hat.
    destruct (read_record _ _ _ _ Hrc Hat) as (r1 & r2 & Hh & Hskip & _ & Hat2).
    cbn [length Nat.add scan_record_end_loop]. rewrite Hh. cbn [obind]. unfold header_of.
    rewrite record_id_spec by apply Hrc. cbn [or_panic obind]. rewrite Hskip. cbn [obind].
    rewrite Z.eqb_refl, (ab_pos _ _ _ Hat2), app_nil_l, segment_bytes_cons, !length_app. simpl. do 2 f_equal. lia.
  - apply Forall_cons_1 in Hok as [Hrc Hok]. cbn [app] in Hat. rewrite segment_bytes_cons, <-app_assoc in Hat.
    destruct (read_record _ _ _ _ Hrc Hat) as (r1 & r2 & Hh & Hskip & _ & Hat2).
    cbn [length Nat.add scan_record_end_loop]. rewrite Hh. cbn [obind]. unfold header_of.
    rewrite record_id_spec by apply Hrc. cbn [or_panic obind]. rewrite Hskip. cbn [obind].
    rewrite (proj2 (Z.eqb_neq _ _)) by done. rewrite (IH Hok _ _ Hat2).
    cbn [app]. rewrite segment_bytes_cons, !length_app. do 2 f_equal. lia.
Qed.

(** The records up to [end_] are a prefix of those of a file. *)
Lemma ids_split n rs end_ :
  ids_from n rs → end_ ∈ rs.*1 →
  ∃ rs1 rc rs2, rs = rs1 ++ rc :: rs2 ∧ rc.1 = end_ ∧ Forall (λ x : record, x.1 ≠ rc.1) rs1 ∧
    filter (λ rc : record, (rc.1 ≤ end_)%Z) rs = rs1 ++ [rc].
Proof.
  revert n. induction rs as [|x rs IH]; intros n; [by intros _ ?%not_elem_of_nil|].
  intros [Hx Hids]%ids_from_cons Hin. rewrite fmap_cons in Hin. destruct (decide (x.1 = end_)) as [He|He].
  - exists [], x, rs. split_and!; [done|done|constructor|]. rewrite filter_cons, decide_True by lia.
    rewrite filter_none; [done|]. apply Forall_forall. intros y Hy.
    assert (y.1 ∈ rs.*1) as Hy'%(ids_from_elem _ _ _ Hids) by (by apply list_elem_of_fmap_2). lia.
  - apply elem_of_cons in Hin as [?|Hin]; [congruence|].
    destruct (IH _ Hids Hin) as (rs1 & rc & rs2 & -> & Hrc & Hne & Hf).
    assert (end_ ∈ (rs1 ++ rc :: rs2).*1) as Hin'%(ids_from_elem _ _ _ Hids) by done.
    exists (x :: rs1), rc, rs2. split_and!; [done|done|constructor; [congruence|done]|].
    rewrite filter_cons, decide_True by lia. cbn [app]. by rewrite Hf.
Qed.

Lemma truncate_head_spec prefix i d files fs1 f fs2 n end_ :
  prefix ≠ [] → ids_ok i files → (∀ g, g ∈ fs1 ++ f :: fs2 → g ∈ files) → NoDup (fs1 ++ f :: fs2) →
  dir_ok prefix d (fs1 ++ f :: fs2) →
  Forall record_ok (sf_records f) → ids_from n (sf_records f) → end_ ∈ (sf_records f).*1 →
  ∃ d', truncate_head_segment (segment_format prefix (sf_id f)) end_ d =
      (d', Ok {| sw_path := segment_format prefix (sf_id f);
                 sw_file_size := length (file_bytes (truncate_file end_ f)) |}) ∧
    dir_ok prefix d' (fs1 ++ truncate_file end_ f :: fs2) ∧ others_same prefix d d'.
Proof.
  intros Hp Hids Hsub Hnd [Hhas Honly] Hok Hn Hin.
  destruct (ids_split _ _ _ Hn Hin) as (rs1 & rc & rs2 & Hrs & Hrc & Hne & Hfilter).
  assert (Hf : f ∈ fs1 ++ f :: fs2) by set_solver. pose proof (Hhas f Hf) as Hc.
  assert (Hbytes : file_bytes f = segment_bytes (rs1 ++ [rc]) ++ segment_bytes rs2 ++ sf_torn f).
  { unfold file_bytes. rewrite Hrs. change (rc :: rs2) with ([rc] ++ rs2).
    by rewrite (app_assoc rs1), segment_bytes_app, <-!app_assoc. }
  assert (Htr : file_bytes (truncate_file end_ f) = segment_bytes (rs1 ++ [rc])).
  { unfold file_bytes. simpl. by rewrite Hfilter, app_nil_r. }
  assert (Hscan : scan_record_end (segment_format prefix (sf_id f)) end_ d =
    (d, Ok (Some (length (segment_bytes (rs1 ++ [rc])))))).
  { unfold scan_record_end, io_bind, file_open, io_lift. rewrite Hc. f_equal.
    assert (Hfuel : ∃ k, scan_fuel (file_bytes f) = length rs1 + S k).
    { exists (S (length (file_bytes f) / RECORD_ALIGNMENT) - length rs1). unfold scan_fuel.
      assert (length rs1 ≤ length (file_bytes f) / RECORD_ALIGNMENT); [|lia].
      apply Nat.div_le_lower_bound; [done|]. rewrite Hbytes, !length_app, segment_bytes_app, length_app.
      pose proof (segment_bytes_length rs1). lia. }
    destruct Hfuel as [k ->]. rewrite <-Hrc.
    apply (scan_record_end_at rs1 rc (segment_bytes rs2 ++ sf_torn f) _ []); [|done|].
    - rewrite Hrs in Hok. change (rc :: rs2) with ([rc] ++ rs2) in Hok. rewrite app_assoc in Hok.
      by apply Forall_app in Hok as [? _].
    - rewrite <-Hbytes. by apply at_bytes_new. }
  unfold truncate_head_segment, io_bind. rewrite Hscan. unfold file_open. rewrite Hc.
  unfold set_len, io_ret. rewrite Htr. eexists. split; [reflexivity|].
  assert (Hres : resize (length (segment_bytes (rs1 ++ [rc]))) (file_bytes f) = segment_bytes (rs1 ++ [rc])).
  { rewrite resize_le, Hbytes, take_app_length; [done|]. rewrite Hbytes, length_app. lia. }
  assert (Hapart : ∀ g, g ∈ fs1 ++ fs2 → segment_format prefix (sf_id f) ≠ segment_format prefix (sf_id g)).
  { intros g Hg. apply (format_apart _ i files); [done|done|by apply Hsub|apply Hsub; set_solver|].
    intros ->. apply NoDup_app in Hnd as (_ & Hd1 & Hd2). apply NoDup_cons in Hd2 as [Hd2 _].
    apply elem_of_app in Hg as [Hg|Hg]; [|done]. apply (Hd1 g Hg). left. }
  split; [split|].
  - intros g [Hg|[->|Hg]%elem_of_cons]%elem_of_app.
    + rewrite lookup_alter_ne by (apply Hapart; set_solver). apply Hhas. set_solver.
    + cbn [truncate_file sf_id]. rewrite lookup_alter_eq, Hc, Htr. cbn [fmap option_fmap option_map]. by rewrite Hres.
    + rewrite lookup_alter_ne by (apply Hapart; set_solver). apply Hhas. set_solver.
  - intros name [c Hname] Hpre. destruct (Honly name) as (g & Hg & ->); [|done|].
    { destruct (decide (segment_format prefix (sf_id f) = name)) as [<-|Hnn]; [by rewrite Hc|].
      rewrite lookup_alter_ne in Hname by done. by exists c. }
    apply elem_of_app in Hg as [Hg|[->|Hg]%elem_of_cons];
      [exists g; set_solver|exists (truncate_file end_ f); set_solver|exists g; set_solver].
  - intros name Hn'. apply lookup_alter_ne. intros <-. destruct Hn'. apply format_take.
Qed.
