(* ===== verification/SeglogCorrect.v ===== *)
(** * Correctness of the segmented log

    The relation between the log in memory and the files of its directory, what every
    operation does to it, and that opening the log gives back its live records, also
    after a crash. *)

From S2P Require Import Prelude Seglog SeglogFiles.

#[local] Open Scope nat_scope.

(** ** The log and its files *)

(** All records are whole and no file is empty. *)
Definition whole (f : sfile) : Prop := sf_torn f = [] ∧ sf_records f ≠ [].

Definition segment_of (prefix : list u8) (f : sfile) : Segment :=
  {| seg_id := sf_id f; seg_path := segment_format prefix (sf_id f);
     seg_min := default 0%Z (first_id (sf_records f)); seg_max := default 0%Z (last_id (sf_records f)) |}.

Definition writer_of (prefix : list u8) (f : sfile) : SegmentFileWriter :=
  {| sw_path := segment_format prefix (sf_id f); sw_file_size := length (file_bytes f) |}.

(** The log in memory describes the files [files] of the directory [d]. *)
Record log_ok (log : SegmentedLog) (d : fs) (files : list sfile) : Prop := {
  lo_prefix : filename_prefix log ≠ [];
  lo_ids : ∃ i, ids_ok i files;
  lo_dir : dir_ok (filename_prefix log) d files;
  lo_records : ∃ n, (0 < n)%Z ∧ ids_from n (all_records files);
  lo_fits : Forall record_ok (all_records files);
  lo_whole : Forall whole files;
  lo_segments : segments log = segment_of (filename_prefix log) <$> files;
  lo_writer : head_segment_writer log = writer_of (filename_prefix log) <$> last files;
  lo_end : end_live log = default 0%Z (last_id (all_records files));
  lo_start : files ≠ [] → (0 < start_live log)%Z;
  lo_nil : files = [] → start_live log = 0%Z;
}.

Lemma all_records_app a b : all_records (a ++ b) = all_records a ++ all_records b.
Proof. apply bind_app. Qed.

Lemma all_records_cons f b : all_records (f :: b) = sf_records f ++ all_records b.
Proof. done. Qed.

Lemma elem_of_all_records rc files : rc ∈ all_records files ↔ ∃ f, rc ∈ sf_records f ∧ f ∈ files.
Proof. apply list_elem_of_bind. Qed.

Lemma files_from_records end_ n files :
  files_from end_ n files → ids_from n (all_records files) ∧ Forall record_ok (all_records files).
Proof.
  revert n. induction files as [|f files IH]; intros n; [by repeat constructor|].
  intros (Hok & Hids & _ & _ & Hff). destruct (IH _ Hff) as [H1 H2].
  rewrite all_records_cons. split; [by apply ids_from_app|by apply Forall_app].
Qed.

Lemma files_from_torn end_ n a f b : files_from end_ n (a ++ f :: b) → b ≠ [] → sf_torn f = [].
Proof.
  revert n. induction a as [|g a IH]; intros n; simpl.
  - intros (_ & _ & _ & [->|?] & _); [done|done].
  - intros (_ & _ & _ & _ & Hff). by eapply IH.
Qed.

Lemma log_files_from log d files end_ n :
  log_ok log d files → ids_from n (all_records files) → files_from end_ n files.
Proof.
  intros Hlog. pose proof (lo_fits _ _ _ Hlog) as Hfit. pose proof (lo_whole _ _ _ Hlog) as Hw. clear Hlog.
  revert n. induction Hw as [|f files [Ht Hne] Hw IH]; intros n Hids; [done|].
  rewrite all_records_cons in Hids, Hfit. apply ids_from_app in Hids as [H1 H2].
  apply Forall_app in Hfit as [H3 H4]. split_and!; [done|done|by left|by right|by apply IH].
Qed.

Lemma files_from_lookup end_ n a f b :
  files_from end_ n (a ++ f :: b) → ∃ m, ids_from m (sf_records f) ∧ Forall record_ok (sf_records f).
Proof.
  intros [Hids Hok]%files_from_records. rewrite all_records_app, all_records_cons in Hids, Hok.
  apply ids_from_app in Hids as [_ Hids]. apply ids_from_app in Hids as [Hids _].
  apply Forall_app in Hok as [_ Hok]. apply Forall_app in Hok as [Hok _]. by eexists.
Qed.

(** Records of earlier files have smaller ids. *)
Lemma files_order n a f b g c x y :
  ids_from n (all_records (a ++ f :: b ++ g :: c)) →
  x ∈ (sf_records f).*1 → y ∈ (sf_records g).*1 → (x < y)%Z.
Proof.
  rewrite all_records_app, all_records_cons, all_records_app, all_records_cons.
  intros [_ H]%ids_from_app Hx Hy. apply ids_from_app in H as [Hf H].
  apply ids_from_app in H as [_ H]. apply ids_from_app in H as [Hg _].
  apply (ids_from_elem _ _ _ Hf) in Hx. apply (ids_from_elem _ _ _ Hg) in Hy. lia.
Qed.

Lemma file_index n files i j f g x y :
  ids_from n (all_records files) → files !! i = Some f → files !! j = Some g →
  x ∈ (sf_records f).*1 → y ∈ (sf_records g).*1 → (x ≤ y)%Z → i ≤ j.
Proof.
  intros Hids Hi Hj Hx Hy Hle. destruct (Nat.le_gt_cases i j) as [|Hlt]; [done|]. exfalso.
  pose proof (lookup_lt_Some _ _ _ Hi) as Hil.
  rewrite <-(take_drop_middle _ _ _ Hj) in Hids. set (k := i - S j).
  assert (Hk : drop (S j) files !! k = Some f).
  { rewrite lookup_drop. replace (S j + k) with i by lia. done. }
  rewrite <-(take_drop_middle _ _ _ Hk) in Hids.
  pose proof (files_order _ _ _ _ _ _ _ _ Hids Hy Hx). lia.
Qed.

Lemma find_file n files id :
  ids_from n (all_records files) → (n ≤ id < n + Z.of_nat (length (all_records files)))%Z →
  ∃ i f, files !! i = Some f ∧ id ∈ (sf_records f).*1.
Proof.
  intros Hids Hid%(ids_from_elem _ _ _ Hids). apply list_elem_of_fmap in Hid as (rc & -> & Hrc).
  apply elem_of_all_records in Hrc as (f & Hrc & Hf). apply list_elem_of_lookup in Hf as [i Hi].
  exists i, f. split; [done|]. by apply list_elem_of_fmap_2.
Qed.

Lemma seg_ids_from_app i a b :
  seg_ids_from i (a ++ b) ↔ seg_ids_from i a ∧ seg_ids_from (i + Z.of_nat (length a)) b.
Proof.
  revert i. induction a as [|f a IH]; intros i; simpl.
  - rewrite Z.add_0_r. tauto.
  - rewrite IH. replace (i + 1 + Z.of_nat (length a))%Z with (i + Z.pos (Pos.of_succ_nat (length a)))%Z by lia.
    tauto.
Qed.

(** The id of the last segment. *)
Definition head_id (files : list sfile) : Z := default 0%Z (sf_id <$> last files).

Lemma head_id_prefix i fi f f' rest :
  sf_id f' = sf_id f → ids_ok i (fi ++ f :: rest) → (head_id (fi ++ [f']) ≤ head_id (fi ++ f :: rest))%Z.
Proof.
  intros Hid (Hs & _). unfold head_id. rewrite last_snoc, last_app_cons, last_cons. simpl. rewrite Hid.
  apply seg_ids_from_app in Hs as [_ [Hf Hs]].
  destruct (last rest) as [g|] eqn:Hg; [|done]. simpl. apply last_Some_elem_of in Hg.
  pose proof (seg_ids_elem _ _ _ Hs Hg). lia.
Qed.

Lemma dir_ok_perm prefix d files files' : files ≡ₚ files' → dir_ok prefix d files → dir_ok prefix d files'.
Proof.
  intros Hp [H1 H2]. split.
  - intros f. rewrite <-Hp. apply H1.
  - intros name Hn Hpre. setoid_rewrite <-Hp. by apply H2.
Qed.

Lemma seg_ids_nodup_files i files : seg_ids_from i files → NoDup files.
Proof. intros H. eapply NoDup_fmap_1, seg_ids_nodup, H. Qed.

(** ** Opening *)

Section opening.
Context {A : Type} (process_record : Z → list u8 → A → outcome SegError A).

(** The scan finds the segments of the first and the last live record. *)
Lemma scan_all prefix i d files start end_ r0 si ei fe :
  prefix ≠ [] → ids_ok i files → dir_ok prefix d files → files_from end_ r0 files →
  (0 < start ≤ end_)%Z → (r0 ≤ end_)%Z →
  (∃ fs, files !! si = Some fs ∧ Z.max start r0 ∈ (sf_records fs).*1) →
  files !! ei = Some fe → end_ ∈ (sf_records fe).*1 →
  ∃ after, Forall2 (scanned prefix) files after ∧
    ∀ a, scan_segments process_record (seq 0 (length files))
        {| candidates := candidate_of prefix <$> files; rec_start_live := start; rec_end_live := end_;
           live_segment_start := None; live_segment_end := None |} a d =
      (d, let! a := process_all process_record (live_records start end_ (all_records files)) a in
          Ok ({| candidates := after; rec_start_live := start; rec_end_live := end_;
                 live_segment_start := Some si; live_segment_end := Some ei |}, a)).
Proof.
  intros Hp Hids Hdir Hff Hrange Hr0 (fs & Hsi & Hmax) Hei Hend.
  destruct (files_from_records _ _ _ Hff) as [Hall _].
  assert (Hst : rec_state start end_ r0 r0 si ei {| candidates := candidate_of prefix <$> files;
    rec_start_live := start; rec_end_live := end_; live_segment_start := None; live_segment_end := None |}).
  { split; simpl; [done|done| |]; by rewrite (proj2 (Z.ltb_ge _ _)) by lia. }
  match type of Hst with rec_state _ _ _ _ _ _ ?s => set (self0 := s) in * end.
  destruct (scan_segments_spec process_record start end_ r0 si ei Hrange Hr0 prefix d files [] [] r0 self0 Hff
              (Z.le_refl r0) (do_has _ _ _ Hdir)) as (self & n' & after & [S1 S2 S3 S4] & Hn' & _ & Hc & Hf2 & Hrun); [|exact Hst|by rewrite app_nil_r|].
  all: rewrite ?app_nil_r in *.
  { intros j f rc Hj Hrc. assert (Hin : rc.1 ∈ (sf_records f).*1) by (by apply list_elem_of_fmap_2). simpl.
    split; intros E; rewrite E in Hin; apply Nat.le_antisymm;
      (eapply file_index; [exact Hall|eassumption|eassumption|eassumption|eassumption|lia]). }
  exists after. split; [done|]. intros a. simpl length in Hrun. rewrite Hrun. f_equal.
  assert (end_ < r0 + Z.of_nat (length (all_records files)))%Z.
  { assert (end_ ∈ (all_records files).*1) as H%(ids_from_elem _ _ _ Hall); [|lia].
    apply list_elem_of_fmap in Hend as (rc & -> & Hrc). apply list_elem_of_fmap_2.
    apply elem_of_all_records. exists fe. split; [done|]. by eapply list_elem_of_lookup_2. }
  destruct self as [cs s e ls le]. simpl in *. subst cs s e ls le.
  rewrite !(proj2 (Z.ltb_lt _ _)) by lia. done.
Qed.

Lemma remove_nonlive_spec prefix i d files fa fb fe fc sa sb se sc start end_ :
  prefix ≠ [] → ids_ok i files → dir_ok prefix d files → files = fa ++ fb ++ fe :: fc →
  Forall2 (scanned prefix) fa sa → Forall2 (scanned prefix) fc sc →
  ∃ d', remove_nonlive_segments {| candidates := sa ++ sb ++ se :: sc; rec_start_live := start;
            rec_end_live := end_; live_segment_start := Some (length sa);
            live_segment_end := Some (length sa + length sb) |} d = (d', Ok (sb ++ [se])) ∧
    dir_ok prefix d' (fb ++ [fe]) ∧ others_same prefix d d'.
Proof.
  intros Hp Hids Hdir Hsplit Hfa Hfc. unfold remove_nonlive_segments. cbn [live_segment_start live_segment_end candidates].
  assert (Hcs : sa ++ sb ++ se :: sc = sa ++ (sb ++ [se]) ++ sc) by (by rewrite <-app_assoc).
  rewrite Hcs, slice_Some; [|lia|rewrite !length_app; simpl; lia].
  rewrite drop_app_length, take_app_length' by (rewrite length_app; simpl; lia).
  rewrite take_app_length, (app_assoc sa), drop_app_length' by (rewrite !length_app; simpl; lia).
  unfold io_bind, io_lift. cbn [or_panic].
  assert (Hperm : files ≡ₚ (fa ++ fc) ++ fb ++ [fe]).
  { rewrite Hsplit, <-app_assoc. f_equiv.
    change (fe :: fc) with ([fe] ++ fc). rewrite app_assoc. apply Permutation_app_comm. }
  assert (Hs : seg_ids_from i files) by apply Hids.
  destruct (remove_segments_spec prefix i files d (fa ++ fc) (fb ++ [fe]) (sa ++ sc)) as (d' & -> & Hd' & Hoth); try done.
  - rewrite <-Hperm. by eapply seg_ids_nodup_files.
  - intros f. by rewrite <-Hperm.
  - by eapply dir_ok_perm.
  - apply Forall2_app; (eapply Forall2_impl; [eassumption|]); by intros ? ? (_ & ? & _).
  - by exists d'.
Qed.

(** The log after opening. *)
Lemma opened_log_ok prefix max_size i d files fa fb fe fc sb se start end_ r0 :
  prefix ≠ [] → ids_ok i files → files_from end_ r0 files → files = fa ++ fb ++ fe :: fc →
  Forall (λ f, sf_records f ≠ []) (removelast files) → (0 < r0)%Z → (0 < start ≤ end_)%Z →
  end_ ∈ (sf_records fe).*1 → Forall2 (scanned prefix) fb sb → scanned prefix fe se →
  dir_ok prefix d (fb ++ [truncate_file end_ fe]) →
  log_ok {| filename_prefix := prefix; max_segment_size := max_size; start_live := start; end_live := end_;
            segments := sb ++ [set_bounds se (seg_min se) end_];
            head_segment_writer := Some (writer_of prefix (truncate_file end_ fe)) |}
    d (fb ++ [truncate_file end_ fe]).
Proof.
  intros Hp Hids Hff Hsplit Hne Hr0 Hrange Hend Hfb (Hid & Hpath & Hmin & _) Hdir.
  destruct (files_from_records _ _ _ Hff) as [Hall Hok].
  assert (Hwb : Forall whole fb).
  { apply Forall_forall. intros f Hf. apply list_elem_of_split in Hf as (b1 & b2 & ->). split.
    - apply (files_from_torn end_ r0 (fa ++ b1) f (b2 ++ fe :: fc)); [|by destruct b2].
      rewrite Hsplit in Hff. by rewrite <-!app_assoc in Hff |- *.
    - rewrite Forall_forall in Hne. apply Hne. rewrite Hsplit.
      rewrite (app_assoc fa), removelast_app by done. set_solver. }
  rewrite Hsplit, !all_records_app, all_records_cons in Hall, Hok.
  apply ids_from_app in Hall as [_ Hall]. apply Forall_app in Hok as [_ Hok].
  apply ids_from_app in Hall as [Hallb Hall]. apply Forall_app in Hok as [Hokb Hok].
  apply ids_from_app in Hall as [Halle _]. apply Forall_app in Hok as [Hoke _].
  destruct (ids_split _ _ _ Halle Hend) as (rs1 & rc & rs2 & Hrs & Hrc & _ & Hfilter).
  destruct Hids as (Hs & Hi & Hb). rewrite Hsplit in Hs, Hb. rewrite !length_app in Hb. simpl length in Hb.
  apply seg_ids_from_app in Hs as [_ Hs].
  assert (Hrec : all_records (fb ++ [truncate_file end_ fe]) = all_records fb ++ rs1 ++ [rc]).
  { rewrite all_records_app. f_equal. unfold all_records. simpl. by rewrite app_nil_r. }
  assert (Hoke' : Forall record_ok (rs1 ++ [rc])).
  { rewrite Hrs in Hoke. change (rc :: rs2) with ([rc] ++ rs2) in Hoke. rewrite app_assoc in Hoke.
    by apply Forall_app in Hoke as [? _]. }
  assert (Hle : ids_from (r0 + Z.of_nat (length (all_records fa)) + Z.of_nat (length (all_records fb))) (rs1 ++ [rc])).
  { rewrite Hrs in Halle. change (rc :: rs2) with ([rc] ++ rs2) in Halle. rewrite app_assoc in Halle.
    by apply ids_from_app in Halle as [? _]. }
  split; cbn [filename_prefix segments head_segment_writer start_live end_live].
  - done.
  - exists (i + Z.of_nat (length fa))%Z. split_and!; [|lia|rewrite length_app; simpl; lia].
    apply seg_ids_from_app in Hs as [H1 H2]. apply seg_ids_from_app. split; [done|]. by destruct H2.
  - done.
  - eexists. split; [|rewrite Hrec; apply ids_from_app; split; [exact Hallb|exact Hle]]. lia.
  - rewrite Hrec. by apply Forall_app.
  - apply Forall_app. split; [done|]. constructor; [|constructor]. split; [done|]. simpl.
    rewrite Hfilter. by destruct rs1.
  - rewrite fmap_app. f_equal.
    + clear -Hfb Hwb. induction Hfb as [|f s fb sb (E1 & E2 & E3 & E4) Hfb IH]; [done|].
      apply Forall_cons_1 in Hwb as [[Ht Hn] Hwb]. rewrite fmap_cons, <-IH by done. f_equal.
      destruct s as [sid spath smin smax]. unfold segment_of. simpl in *. specialize (E3 Hn). specialize (E4 Ht).
      rewrite <-E3, E1, E2, E4. done.
    + cbn [fmap list_fmap]. f_equal. unfold set_bounds, segment_of. cbn [truncate_file sf_id sf_records].
      rewrite Hfilter, Hid, Hpath. f_equal.
      * assert (sf_records fe ≠ []) as Hn by (rewrite Hrs; by destruct rs1). specialize (Hmin Hn).
        rewrite Hrs in Hmin. unfold first_id in *. destruct rs1; simpl in *; congruence.
      * unfold last_id. by rewrite last_snoc.
  - by rewrite last_snoc.
  - rewrite Hrec, app_assoc. unfold last_id. by rewrite last_snoc.
  - lia.
  - by destruct fb.
Qed.

(** What is removed is not live. *)
Lemma live_records_kept files fa fb fe fc start end_ r0 :
  ids_from r0 (all_records files) → files = fa ++ fb ++ fe :: fc →
  Z.max start r0 ∈ (all_records (fb ++ fe :: fc)).*1 → end_ ∈ (sf_records fe).*1 →
  live_records start end_ (all_records files) =
  live_records start end_ (all_records (fb ++ [truncate_file end_ fe])).
Proof.
  intros Hall -> Hmax Hend. rewrite all_records_app in Hall |- *.
  apply ids_from_app in Hall as [Ha Hall]. apply (ids_from_elem _ _ _ Hall) in Hmax.
  rewrite !all_records_app, !all_records_cons in *. apply ids_from_app in Hall as [Hb Hall].
  apply ids_from_app in Hall as [He Hc]. apply (ids_from_elem _ _ _ He) in Hend.
  unfold live_records. rewrite !filter_app.
  rewrite (filter_none _ (all_records fa)), (filter_none _ (all_records fc)).
  - rewrite app_nil_l, app_nil_r. f_equal. cbn [truncate_file sf_records all_records].
    rewrite app_nil_r, list_filter_filter. apply filter_ext_in, Forall_forall. intros rc _. lia.
  - apply Forall_forall. intros rc Hrc.
    assert (rc.1 ∈ (all_records fc).*1) as H%(ids_from_elem _ _ _ Hc) by (by apply list_elem_of_fmap_2). lia.
  - apply Forall_forall. intros rc Hrc.
    assert (rc.1 ∈ (all_records fa).*1) as H%(ids_from_elem _ _ _ Ha) by (by apply list_elem_of_fmap_2). lia.
Qed.

(** What is kept is a suffix of the records up to the last live one. *)
Lemma records_kept files fa fb fe fc end_ r0 :
  ids_from r0 (all_records files) → files = fa ++ fb ++ fe :: fc → end_ ∈ (sf_records fe).*1 →
  filter (λ rc : record, (rc.1 ≤ end_)%Z) (all_records files) =
  all_records fa ++ all_records (fb ++ [truncate_file end_ fe]).
Proof.
  intros Hall -> Hend. rewrite app_assoc, all_records_app, all_records_cons in *.
  apply ids_from_app in Hall as [Hab Hall]. apply ids_from_app in Hall as [He Hc].
  apply (ids_from_elem _ _ _ He) in Hend.
  rewrite (all_records_app fb [_]), (app_assoc (all_records fa)), <-(all_records_app fa fb).
  rewrite !filter_app, (filter_all _ (all_records (fa ++ fb))), (filter_none _ (all_records fc)).
  - by f_equal.
  - apply Forall_forall. intros rc Hrc.
    assert (rc.1 ∈ (all_records fc).*1) as H%(ids_from_elem _ _ _ Hc) by (by apply list_elem_of_fmap_2). lia.
  - apply Forall_forall. intros rc Hrc.
    assert (rc.1 ∈ (all_records (fa ++ fb)).*1) as H%(ids_from_elem _ _ _ Hab) by (by apply list_elem_of_fmap_2). lia.
Qed.

Lemma seglog_open_spec prefix max_size i d files start end_ r0 a a' :
  prefix ≠ [] → ids_ok i files → dir_ok prefix d files → files_from end_ r0 files →
  Forall (λ f, sf_records f ≠ []) (removelast files) →
  (0 < start ≤ end_)%Z → (0 < r0 ≤ end_)%Z → (end_ < r0 + Z.of_nat (length (all_records files)))%Z →
  process_all process_record (live_records start end_ (all_records files)) a = Ok a' →
  ∃ d' log files', seglog_open process_record prefix max_size start end_ a d = (d', Ok (log, a')) ∧
    log_ok log d' files' ∧ start_live log = start ∧ end_live log = end_ ∧
    filename_prefix log = prefix ∧ max_segment_size log = max_size ∧
    live_records start end_ (all_records files') = live_records start end_ (all_records files) ∧
    (∃ gone, filter (λ rc : record, (rc.1 ≤ end_)%Z) (all_records files) = gone ++ all_records files') ∧
    (head_id files' ≤ head_id files)%Z ∧ others_same prefix d d'.
Proof.
  intros Hp Hids Hdir Hff Hne Hrange [Hr0 Hr0e] Hend Hproc.
  destruct (files_from_records _ _ _ Hff) as [Hall Hok].
  destruct (find_file _ _ (Z.max start r0) Hall ltac:(lia)) as (si & fs & Hsi & Hmax).
  destruct (find_file _ _ end_ Hall ltac:(lia)) as (ei & fe & Hei & Hend').
  assert (Hle : si ≤ ei) by (eapply file_index; [exact Hall|exact Hsi|exact Hei|exact Hmax|exact Hend'|lia]).
  destruct (scan_all prefix i d files start end_ r0 si ei fe) as (after & Hf2 & Hscan); try done; [by exists fs|].
  pose proof (lookup_lt_Some _ _ _ Hei) as Heil.
  set (fa := take si files). set (fb := drop si (take ei files)). set (fc := drop (S ei) files).
  assert (Hsplit : files = fa ++ fb ++ fe :: fc).
  { rewrite <-(take_drop_middle _ _ _ Hei) at 1. unfold fa, fb.
    rewrite <-(take_drop si (take ei files)) at 1. rewrite take_take, Nat.min_l by lia. by rewrite <-app_assoc. }
  assert (Hla : length fa = si) by (unfold fa; rewrite length_take; lia).
  assert (Hlb : length fb = ei - si) by (unfold fb; rewrite length_drop, length_take; lia).
  clearbody fa fb fc. rewrite Hsplit in Hf2.
  apply Forall2_app_inv_l in Hf2 as (sa & ? & Hfa & Hf2 & ->).
  apply Forall2_app_inv_l in Hf2 as (sb & ? & Hfb & Hf2 & ->).
  apply Forall2_cons_inv_l in Hf2 as (se & sc & Hfe & Hfc & ->).
  pose proof (Forall2_length _ _ _ Hfa) as Hlsa. pose proof (Forall2_length _ _ _ Hfb) as Hlsb.
  destruct (remove_nonlive_spec prefix i d files fa fb fe fc sa sb se sc start end_) as (d1 & Hrem & Hd1 & Hoth1); try done.
  assert (∃ m, ids_from m (sf_records fe) ∧ Forall record_ok (sf_records fe)) as (m & Hm & Hoke).
  { rewrite Hsplit, app_assoc in Hff. by eapply files_from_lookup. }
  destruct (truncate_head_spec prefix i d1 files fb fe [] m end_) as (d2 & Htr & Hd2 & Hoth2); try done.
  { intros g Hg. rewrite Hsplit. set_solver. }
  { destruct Hids as (Hs & _). rewrite Hsplit in Hs. apply seg_ids_from_app in Hs as [_ Hs].
    change (fe :: fc) with ([fe] ++ fc) in Hs. rewrite app_assoc in Hs. apply seg_ids_from_app in Hs as [Hs _].
    by eapply seg_ids_nodup_files. }
  exists d2. eexists. exists (fb ++ [truncate_file end_ fe]). split.
  { unfold seglog_open. unfold is_nil. rewrite !(proj2 (Z.eqb_neq _ 0)) by lia. cbn [xorb].
    unfold io_bind. rewrite (scan_root_dir_spec prefix i d files) by done. rewrite length_fmap, Hscan, Hproc.
    cbn [obind live_segment_start live_segment_end]. rewrite !bool_decide_eq_false_2 by done. unfold io_ret.
    replace ei with (length sa + length sb) by lia. replace si with (length sa) by lia.
    rewrite Hrem, last_snoc, removelast_last.
    destruct Hfe as (_ & -> & _). rewrite Htr. reflexivity. }
  split_and!; try done.
  - by eapply (opened_log_ok prefix max_size i d2 files fa fb fe fc sb se start end_ r0).
  - symmetry. eapply (live_records_kept files fa fb fe fc start end_ r0); try done.
    assert (fs ∈ fb ++ fe :: fc) as Hfs.
    { apply list_elem_of_lookup_2 with 0. rewrite Hsplit, lookup_app_r, <-Hla, Nat.sub_diag in Hsi by lia. done. }
    apply list_elem_of_fmap in Hmax as (rc & -> & Hrc). apply list_elem_of_fmap_2.
    apply elem_of_all_records. by exists fs.
  - exists (all_records fa). by eapply records_kept.
  - rewrite Hsplit in Hids |- *. rewrite app_assoc in Hids |- *.
    pose proof (head_id_prefix i (fa ++ fb) fe (truncate_file end_ fe) fc eq_refl Hids) as H.
    unfold head_id in *. by rewrite !last_snoc in *.
  - by eapply others_same_trans.
Qed.
End opening.

(** ** Appending *)

Lemma next_record_pos_add p n :
  p mod RECORD_ALIGNMENT = 0 → next_record_pos (p + n) = p + next_record_pos n.
Proof.
  intros Hp. destruct (next_record_pos_spec n) as (H1 & H2 & H3).
  destruct (next_record_pos_spec (p + n)) as (H4 & H5 & H6).
  apply (aligned_unique (p + n)); [done|done|done|lia|lia|].
  by rewrite Nat.Div0.add_mod, Hp, H3.
Qed.

(** Writing a record at the end of a file of whole records. *)
Lemma write_record_spec path d c (rc : record) :
  d !! path = Some c → length c mod RECORD_ALIGNMENT = 0 → record_ok rc →
  io_bind (write_header {| sw_path := path; sw_file_size := length c |} (wrap 32 (Z.of_nat (length rc.2))) rc.1)
    (λ w, write_payload w rc.2) d =
  (<[path := c ++ record_bytes rc]> d,
   Ok {| sw_path := path; sw_file_size := length (c ++ record_bytes rc) |}).
Proof.
  intros Hc Ha [_ Hl]. assert (Hw : wrap 32 (Z.of_nat (length rc.2)) = Z.of_nat (length rc.2)).
  { unfold wrap. apply Z.mod_small. change MAX_RECORD_PAYLOAD_SIZE with (2 ^ 30)%Z in Hl. lia. }
  rewrite Hw. unfold io_bind, write_header, write_payload, io_bind, io_lift, io_ret, file_append, set_len.
  rewrite header_bytes_spec. cbn [or_panic sw_path sw_file_size].
  rewrite <-Nat.add_assoc, next_record_pos_add by done.
  rewrite length_app, length_record_bytes. f_equal. apply map_eq. intros name.
  destruct (decide (path = name)) as [<-|Hne].
  - rewrite !lookup_alter_eq, Hc, lookup_insert_eq. cbn [fmap option_fmap option_map]. f_equal.
    rewrite <-!app_assoc, resize_app. done.
  - by rewrite !lookup_alter_ne, lookup_insert_ne.
Qed.

Definition add_record (f : sfile) (rc : record) : sfile :=
  {| sf_id := sf_id f; sf_records := sf_records f ++ [rc]; sf_torn := [] |}.

Lemma dir_ok_replace prefix i d files fi f f' c :
  prefix ≠ [] → ids_ok i files → files = fi ++ [f] → sf_id f' = sf_id f → file_bytes f' = c →
  dir_ok prefix d files →
  dir_ok prefix (<[segment_format prefix (sf_id f) := c]> d) (fi ++ [f']) ∧
  others_same prefix d (<[segment_format prefix (sf_id f) := c]> d).
Proof.
  intros Hp Hids -> Hid <- [Hhas Honly].
  assert (Hne : ∀ g, g ∈ fi → segment_format prefix (sf_id f) ≠ segment_format prefix (sf_id g)).
  { intros g Hg. apply (format_apart prefix i (fi ++ [f])); [done|done|set_solver|set_solver|]. intros ->.
    destruct Hids as (Hs & _). apply seg_ids_nodup_files in Hs. apply NoDup_app in Hs as (_ & Hs & _).
    apply (Hs g Hg). left. }
  split; [split|].
  - intros g [Hg| ->%list_elem_of_singleton]%elem_of_app.
    + rewrite lookup_insert_ne by auto. apply Hhas. set_solver.
    + by rewrite Hid, lookup_insert_eq.
  - intros name [c' Hc] Hpre. destruct (decide (segment_format prefix (sf_id f) = name)) as [<-|Hn].
    + exists f'. rewrite Hid. set_solver.
    + rewrite lookup_insert_ne in Hc by done. destruct (Honly name) as (g & Hg & ->); [by exists c'|done|].
      apply elem_of_app in Hg as [Hg| ->%list_elem_of_singleton]; [|done]. exists g. set_solver.
  - intros name Hn. apply lookup_insert_ne. intros <-. destruct Hn. apply format_take.
Qed.

(** The log after a record was written to its last file. *)
Lemma appended_log_ok log d files fi f rc d' start' :
  log_ok log d files → files = fi ++ [f] → record_ok rc → rc.1 = (end_live log + 1)%Z → (0 < start')%Z →
  dir_ok (filename_prefix log) d' (fi ++ [add_record f rc]) →
  log_ok {| filename_prefix := filename_prefix log; max_segment_size := max_segment_size log;
            start_live := start'; end_live := rc.1;
            segments := removelast (segments log) ++ [segment_add (segment_of (filename_prefix log) f) rc.1];
            head_segment_writer := Some {| sw_path := segment_format (filename_prefix log) (sf_id f);
                                           sw_file_size := length (file_bytes f ++ record_bytes rc) |} |}
    d' (fi ++ [add_record f rc]) ∧
  all_records (fi ++ [add_record f rc]) = all_records files ++ [rc].
Proof.
  intros [Hp (i & Hs & Hi & Hb) Hdir (n & Hn & Hids) Hfit Hw Hsegs Hwr Hend Hst Hnil] -> Hrc Hid Hst' Hdir'.
  apply Forall_app in Hw as [Hwi [[Htorn Hne] _]%Forall_cons_1].
  assert (Hrec : all_records (fi ++ [add_record f rc]) = all_records (fi ++ [f]) ++ [rc]).
  { rewrite !all_records_app. unfold all_records. simpl. by rewrite !app_nil_r, app_assoc. }
  assert (Hlast : last_id (all_records (fi ++ [f])) = Some (n + Z.of_nat (length (all_records (fi ++ [f]))) - 1)%Z).
  { apply last_id_from; [done|]. rewrite all_records_app. unfold all_records at 2. simpl. rewrite app_nil_r.
    intros [_ ?]%app_eq_nil. done. }
  split; [|done]. split; cbn [filename_prefix segments head_segment_writer start_live end_live].
  - done.
  - exists i. split_and!; [|done|by rewrite length_app in Hb |- *].
    apply seg_ids_from_app in Hs as [H1 [H2 _]]. apply seg_ids_from_app. done.
  - done.
  - exists n. split; [done|]. rewrite Hrec. apply ids_from_app. split; [done|]. apply ids_from_cons.
    split; [|done]. rewrite Hid, Hend, Hlast. simpl. lia.
  - rewrite Hrec. apply Forall_app. split; [done|]. by constructor.
  - apply Forall_app. split; [done|]. constructor; [|constructor]. split; [done|]. simpl. by destruct (sf_records f).
  - rewrite Hsegs, !fmap_app. cbn [fmap list_fmap]. rewrite removelast_last. f_equal. f_equal.
    unfold segment_add, segment_of. cbn [seg_id seg_path seg_min seg_max add_record sf_id sf_records]. f_equal.
    + destruct (sf_records f) as [|x rs] eqn:E; [done|].
      apply ids_from_pos in Hids; [|done]. rewrite Forall_forall in Hids.
      assert (0 < x.1)%Z.
      { apply Hids. rewrite all_records_app, elem_of_app. right. unfold all_records. simpl. rewrite E. set_solver. }
      unfold is_nil, first_id. simpl. by rewrite (proj2 (Z.eqb_neq x.1 0)) by lia.
    + unfold last_id. by rewrite last_snoc.
  - rewrite last_snoc. simpl. f_equal. unfold writer_of. simpl. f_equal. unfold file_bytes. simpl.
    by rewrite Htorn, !app_nil_r, segment_bytes_app, segment_bytes_one.
  - rewrite Hrec. unfold last_id. by rewrite last_snoc.
  - done.
  - by destruct fi.
Qed.

Lemma file_bytes_one i rc : file_bytes {| sf_id := i; sf_records := [rc]; sf_torn := [] |} = record_bytes rc.
Proof. unfold file_bytes. cbn [sf_records sf_torn]. by rewrite app_nil_r, segment_bytes_one. Qed.

Lemma dir_ok_create prefix i d files f :
  prefix ≠ [] → ids_ok i (files ++ [f]) → dir_ok prefix d files →
  d !! segment_format prefix (sf_id f) = None ∧
  dir_ok prefix (<[segment_format prefix (sf_id f) := file_bytes f]> d) (files ++ [f]) ∧
  others_same prefix d (<[segment_format prefix (sf_id f) := file_bytes f]> d).
Proof.
  intros Hp Hids [Hhas Honly].
  assert (Hne : ∀ g, g ∈ files → segment_format prefix (sf_id f) ≠ segment_format prefix (sf_id g)).
  { intros g Hg. apply (format_apart prefix i (files ++ [f])); [done|done|set_solver|set_solver|]. intros ->.
    destruct Hids as (Hs & _). apply seg_ids_nodup_files in Hs. apply NoDup_app in Hs as (_ & Hs & _).
    apply (Hs g Hg). left. }
  split_and!.
  - apply eq_None_not_Some. intros Hsome. destruct (Honly _ Hsome) as (g & Hg & E); [apply format_take|].
    by apply (Hne g Hg).
  - split.
    + intros g [Hg| ->%list_elem_of_singleton]%elem_of_app; [|by rewrite lookup_insert_eq].
      rewrite lookup_insert_ne by auto. by apply Hhas.
    + intros name [c' Hc] Hpre. destruct (decide (segment_format prefix (sf_id f) = name)) as [<-|Hn].
      * exists f. set_solver.
      * rewrite lookup_insert_ne in Hc by done. destruct (Honly name) as (g & Hg & ->); [by exists c'|done|].
        exists g. set_solver.
  - intros name Hn. apply lookup_insert_ne. intros <-. destruct Hn. apply format_take.
Qed.

(** The log after a record was written to a new file. *)
Lemma created_log_ok log d files id' rc d' start' :
  log_ok log d files → (∃ i, ids_ok i (files ++ [{| sf_id := id'; sf_records := [rc]; sf_torn := [] |}])) →
  record_ok rc → rc.1 = (end_live log + 1)%Z → (0 < rc.1)%Z → (0 < start')%Z →
  dir_ok (filename_prefix log) d' (files ++ [{| sf_id := id'; sf_records := [rc]; sf_torn := [] |}]) →
  let path := segment_format (filename_prefix log) id' in
  log_ok {| filename_prefix := filename_prefix log; max_segment_size := max_segment_size log;
            start_live := start'; end_live := rc.1;
            segments := segments log ++
              [segment_add {| seg_id := id'; seg_path := path; seg_min := rc.1; seg_max := rc.1 |} rc.1];
            head_segment_writer := Some {| sw_path := path; sw_file_size := length (record_bytes rc) |} |}
    d' (files ++ [{| sf_id := id'; sf_records := [rc]; sf_torn := [] |}]) ∧
  all_records (files ++ [{| sf_id := id'; sf_records := [rc]; sf_torn := [] |}]) = all_records files ++ [rc].
Proof.
  intros [Hp _ Hdir (n & Hn & Hids) Hfit Hw Hsegs Hwr Hend Hst Hnil] Hi Hrc Hid Hpos Hst' Hdir' path.
  split; [|by rewrite all_records_app].
  split; cbn [filename_prefix segments head_segment_writer start_live end_live].
  - done.
  - done.
  - done.
  - destruct (decide (all_records files = [])) as [Hnil'|Hne].
    + exists rc.1. split; [done|]. rewrite all_records_app, Hnil'. by apply ids_from_cons.
    + exists n. split; [done|]. rewrite all_records_app. apply ids_from_app. split; [done|].
      apply ids_from_cons. split; [|done]. rewrite Hid, Hend, (last_id_from n) by done.
      cbn [from_option]. unfold id. lia.
  - rewrite all_records_app. apply Forall_app. split; [done|]. by constructor.
  - apply Forall_app. split; [done|]. by constructor.
  - rewrite Hsegs, fmap_app. f_equal. cbn [fmap list_fmap]. f_equal. unfold segment_add, segment_of, is_nil. simpl.
    by rewrite (proj2 (Z.eqb_neq rc.1 0)) by lia.
  - rewrite last_snoc. cbn [fmap option_fmap option_map]. unfold writer_of. by rewrite file_bytes_one.
  - rewrite all_records_app. unfold last_id. unfold all_records at 2. simpl. by rewrite last_snoc.
  - done.
  - by destruct files.
Qed.

(** There is a segment id left for one more file. *)
Definition segment_id_left (files : list sfile) : Prop := (head_id files + 1 < 2 ^ 32)%Z.

Lemma gen_segment_id_spec log d files :
  log_ok log d files → segment_id_left files → gen_segment_id log = (head_id files + 1)%Z.
Proof.
  intros Hlog Hleft. unfold gen_segment_id, wrap, segment_id_left, head_id in *.
  rewrite (lo_segments _ _ _ Hlog), fmap_last. destruct (last files) as [f|] eqn:E; [|done].
  destruct (lo_ids _ _ _ Hlog) as [i Hids]. apply last_Some_elem_of in E.
  pose proof (ids_ok_u32 _ _ _ Hids E). simpl in *. rewrite Z.mod_small; lia.
Qed.

Lemma next_segment_id log d files rc :
  log_ok log d files → segment_id_left files →
  ∃ i, ids_ok i (files ++ [{| sf_id := gen_segment_id log; sf_records := [rc]; sf_torn := [] |}]).
Proof.
  intros Hlog Hleft. destruct (lo_ids _ _ _ Hlog) as (i & Hs & Hi & Hb).
  rewrite (gen_segment_id_spec log d files) by done. unfold segment_id_left, head_id in *.
  destruct files as [|f fi _] using rev_ind.
  { exists 1%Z. split_and!; [done|lia|simpl; lia]. }
  rewrite last_snoc in *. cbn [fmap option_fmap option_map from_option] in *. unfold id in *.
  apply seg_ids_from_app in Hs as [H1 [H2 _]]. rewrite length_app in Hb. simpl in Hb.
  exists i. split_and!; [|done|rewrite !length_app; simpl; lia].
  apply seg_ids_from_app. split; [by apply seg_ids_from_app|]. simpl. split; [|done].
  rewrite length_app. simpl. lia.
Qed.

(** What appending the record [rc] does. *)
Definition appended (log : SegmentedLog) (d : fs) (files : list sfile) (rc : record)
    (res : fs * outcome SegError (Z * SegmentedLog)) : Prop :=
  ∃ d' log' files', res = (d', Ok (rc.1, log')) ∧ log_ok log' d' files' ∧
    all_records files' = all_records files ++ [rc] ∧
    start_live log' = (if is_nil (start_live log) then rc.1 else start_live log) ∧
    end_live log' = rc.1 ∧ filename_prefix log' = filename_prefix log ∧
    max_segment_size log' = max_segment_size log ∧ (head_id files' ≤ head_id files + 1)%Z ∧
    others_same (filename_prefix log) d d'.

Section append.
Context (log : SegmentedLog) (d : fs) (files : list sfile) (rc : record).
Hypothesis Hlog : log_ok log d files.
Hypothesis Hrc : record_ok rc.
Hypothesis Hid : rc.1 = (end_live log + 1)%Z.

Lemma append_id_pos : (0 < rc.1)%Z.
Proof.
  rewrite Hid, (lo_end _ _ _ Hlog). destruct (lo_records _ _ _ Hlog) as (n & Hn & Hids).
  destruct (decide (all_records files = [])) as [->|Hne]; [done|]. rewrite (last_id_from n) by done.
  cbn [from_option]. unfold id. lia.
Qed.

Lemma append_start_pos : (0 < if is_nil (start_live log) then rc.1 else start_live log)%Z.
Proof.
  unfold is_nil. destruct (Z.eqb_spec (start_live log) 0); [apply append_id_pos|].
  destruct (decide (files = [])) as [E|E]; [by apply (lo_nil _ _ _ Hlog) in E|by apply (lo_start _ _ _ Hlog)].
Qed.

Lemma append_create :
  segment_id_left files →
  appended log d files rc ((let* self := create_segment log rc.1 in append_record self rc.2 rc.1) d).
Proof.
  intros Hleft. pose proof (lo_prefix _ _ _ Hlog) as Hp. pose proof (lo_dir _ _ _ Hlog) as Hdir.
  destruct (next_segment_id log d files rc Hlog Hleft) as [i Hids].
  destruct (dir_ok_create _ i d files _ Hp Hids Hdir) as (Hnone & Hd1 & Hoth). rewrite file_bytes_one in *.
  cbn [sf_id] in *. set (path := segment_format (filename_prefix log) (gen_segment_id log)) in *.
  pose proof (write_record_spec path (<[path := []]> d) [] rc (lookup_insert_eq _ _ _) eq_refl Hrc) as Hwr.
  cbn [app] in Hwr. rewrite insert_insert_eq in Hwr. unfold io_bind in Hwr.
  destruct (created_log_ok log d files (gen_segment_id log) rc (<[path := record_bytes rc]> d)
    _ Hlog (ex_intro _ i Hids) Hrc Hid append_id_pos append_start_pos Hd1) as [Hok' Hall'].
  eexists. do 2 eexists. split.
  { unfold create_segment, create_new, append_record, io_bind. fold path. rewrite Hnone. unfold io_ret, io_lift.
    cbn [segments head_segment_writer filename_prefix max_segment_size start_live end_live].
    rewrite last_snoc, removelast_last. cbn [or_panic].
    destruct (write_header _ _ _ _) as [d1 [w|e|]]; [|discriminate Hwr|discriminate Hwr].
    rewrite Hwr. reflexivity. }
  split; [exact Hok'|]. split_and!; try done. unfold head_id at 1. rewrite last_snoc. simpl.
  by rewrite (gen_segment_id_spec log d files).
Qed.

Lemma append_head w :
  head_segment_writer log = Some w → appended log d files rc (append_record log rc.2 rc.1 d).
Proof.
  intros Hw. pose proof (lo_prefix _ _ _ Hlog) as Hp. pose proof (lo_dir _ _ _ Hlog) as Hdir.
  pose proof (lo_writer _ _ _ Hlog) as Hwr. rewrite Hw in Hwr.
  destruct (last files) as [f|] eqn:Hlast; [|done]. injection Hwr as ->.
  apply last_Some in Hlast as [fi Hfiles].
  destruct (lo_ids _ _ _ Hlog) as [i Hids]. set (path := segment_format (filename_prefix log) (sf_id f)).
  assert (Hwhole : whole f).
  { pose proof (lo_whole _ _ _ Hlog) as H. rewrite Hfiles in H. by apply Forall_app in H as [_ [? _]%Forall_cons_1]. }
  assert (Hc : d !! path = Some (file_bytes f)) by (apply (do_has _ _ _ Hdir); rewrite Hfiles; set_solver).
  assert (Hal : length (file_bytes f) mod RECORD_ALIGNMENT = 0).
  { unfold file_bytes. destruct Hwhole as [-> _]. rewrite app_nil_r. apply segment_bytes_aligned. }
  pose proof (write_record_spec path d (file_bytes f) rc Hc Hal Hrc) as Hwrite. unfold io_bind in Hwrite.
  destruct (dir_ok_replace _ i d files fi f (add_record f rc) (file_bytes f ++ record_bytes rc) Hp Hids Hfiles eq_refl)
    as [Hd1 Hoth]; [|done|].
  { unfold file_bytes. destruct Hwhole as [-> _]. simpl. by rewrite !app_nil_r, segment_bytes_app, segment_bytes_one. }
  destruct (appended_log_ok log d files fi f rc _ _ Hlog Hfiles Hrc Hid append_start_pos Hd1) as [Hok' Hall'].
  eexists. do 2 eexists. split.
  { unfold append_record, io_bind. rewrite Hw. unfold io_lift, io_ret. cbn [or_panic writer_of sw_path sw_file_size].
    assert (Hls : last (segments log) = Some (segment_of (filename_prefix log) f)).
    { by rewrite (lo_segments _ _ _ Hlog), fmap_last, Hfiles, last_snoc. }
    rewrite Hls. cbn [or_panic]. fold path.
    destruct (write_header _ _ _ _) as [d1 [w|e|]]; [|discriminate Hwrite|discriminate Hwrite].
    rewrite Hwrite. reflexivity. }
  split; [exact Hok'|]. split_and!; try done. unfold head_id. rewrite Hfiles, !last_snoc. simpl. lia.
Qed.
End append.

Lemma append_spec log d files data :
  log_ok log d files → (Z.of_nat (length data) ≤ MAX_RECORD_PAYLOAD_SIZE)%Z →
  (end_live log + 1 < 2 ^ 64)%Z → segment_id_left files →
  appended log d files ((end_live log + 1)%Z, data) (append log data d).
Proof.
  intros Hlog Hsize Hid Hleft. set (rc := ((end_live log + 1)%Z, data) : record).
  assert (Hrc : record_ok rc).
  { pose proof (append_id_pos log d files rc Hlog eq_refl). split; [split; simpl in *; lia|done]. }
  unfold append. rewrite (proj2 (Z.ltb_ge _ _)) by done. unfold id_next. rewrite (proj2 (Z.ltb_lt _ _)) by done.
  pose proof (append_create log d files rc Hlog Hrc eq_refl Hleft) as Hcreate.
  unfold io_bind at 1, io_lift at 1. cbn [or_panic].
  destruct (head_segment_writer log) as [w|] eqn:Hw; [|exact Hcreate].
  destruct (max_segment_size log <=? sw_file_size w); [exact Hcreate|].
  apply (append_head log d files rc Hlog Hrc eq_refl w Hw).
Qed.

(** ** Pruning *)

(** The log without its oldest files. *)
Lemma suffix_log_ok log d gone files d' start' :
  log_ok log d (gone ++ files) → files ≠ [] → dir_ok (filename_prefix log) d' files → (0 < start')%Z →
  log_ok {| filename_prefix := filename_prefix log; max_segment_size := max_segment_size log;
            start_live := start'; end_live := end_live log;
            segments := segment_of (filename_prefix log) <$> files;
            head_segment_writer := head_segment_writer log |} d' files.
Proof.
  intros [Hp (i & Hs & Hi & Hb) Hdir (n & Hn & Hids) Hfit Hw Hsegs Hwr Hend Hst Hnil] Hne Hdir' Hst'.
  rewrite all_records_app in Hids, Hfit, Hend. apply ids_from_app in Hids as [H1 H2].
  apply Forall_app in Hfit as [_ Hfit]. apply Forall_app in Hw as [_ Hw].
  assert (Hrec : all_records files ≠ []).
  { destruct files as [|f files]; [done|]. apply Forall_cons_1 in Hw as [[_ Hf] _]. rewrite all_records_cons.
    by intros [? _]%app_eq_nil. }
  split; cbn [filename_prefix segments head_segment_writer start_live end_live]; try done.
  - exists (i + Z.of_nat (length gone))%Z. apply seg_ids_from_app in Hs as [_ Hs]. rewrite length_app in Hb.
    split_and!; [done|lia|lia].
  - exists (n + Z.of_nat (length (all_records gone)))%Z. split; [lia|done].
  - rewrite Hwr, last_app. destruct (last files) eqn:E; [done|]. by apply last_None in E.
  - rewrite Hend. unfold last_id. rewrite last_app. destruct (last (all_records files)) eqn:E; [done|].
    by apply last_None in E.
Qed.

Lemma prune_oldest_loop_spec prefix i d all files new_start n :
  prefix ≠ [] → ids_ok i all → (∀ f, f ∈ files → f ∈ all) → NoDup files → dir_ok prefix d files →
  ids_from n (all_records files) → Forall whole files → files ≠ [] →
  (new_start ≤ default 0 (last_id (all_records files)))%Z →
  ∃ d' gone kept, prune_oldest_loop prefix new_start (segment_of prefix <$> files) d =
      (d', Ok (segment_of prefix <$> kept)) ∧
    files = gone ++ kept ∧ kept ≠ [] ∧ dir_ok prefix d' kept ∧ others_same prefix d d' ∧
    Forall (λ rc : record, (rc.1 < new_start)%Z) (all_records gone).
Proof.
  intros Hp Hids. revert d n. induction files as [|f files IH]; intros d n Hsub Hnd Hdir Hn Hw Hne Hlast; [done|].
  destruct files as [|g files].
  { exists d, [], [f]. by split_and!. }
  rewrite fmap_cons. rewrite (fmap_cons _ g). cbn [prune_oldest_loop].
  destruct (Z.leb_spec new_start (seg_max (segment_of prefix f))) as [Hle|Hgt].
  { exists d, [], (f :: g :: files). by split_and!. }
  apply NoDup_cons in Hnd as [Hnot Hnd]. apply Forall_cons_1 in Hw as [[_ Hf] Hw].
  rewrite all_records_cons in Hn, Hlast. apply ids_from_app in Hn as [Hn1 Hn2].
  destruct (remove_file_spec prefix i all d f (g :: files)) as (d1 & Hrem & Hd1 & Hoth1); try done.
  unfold io_bind. cbn [segment_of seg_id]. rewrite Hrem.
  assert (Hrec : all_records (g :: files) ≠ []).
  { apply Forall_cons_1 in Hw as [[_ Hg] _]. rewrite all_records_cons. by intros [? _]%app_eq_nil. }
  destruct (IH d1 (n + Z.of_nat (length (sf_records f)))%Z) as (d' & gone & kept & Hrun & Hsplit & Hk & Hd' & Hoth' & Hall);
    try done.
  { intros h Hh. apply Hsub. by right. }
  { revert Hlast. unfold last_id. rewrite last_app. destruct (last (all_records (g :: files))) eqn:E; [done|].
    by apply last_None in E. }
  exists d', (f :: gone), kept. split_and!; [exact Hrun|by rewrite Hsplit|done|done|by eapply others_same_trans|].
  rewrite all_records_cons. apply Forall_app. split; [|done]. apply Forall_forall. intros rc Hrc.
  assert (rc.1 ∈ (sf_records f).*1) as H%(ids_from_elem _ _ _ Hn1) by (by apply list_elem_of_fmap_2).
  simpl in Hgt. rewrite (last_id_from n) in Hgt by done. cbn [from_option] in Hgt. unfold id in Hgt. lia.
Qed.

Lemma prune_oldest_spec log d files new_start :
  log_ok log d files → files ≠ [] → (0 < new_start ≤ end_live log)%Z → (start_live log ≤ new_start)%Z →
  ∃ d' log' gone kept, prune_oldest log new_start d = (d', Ok log') ∧ log_ok log' d' kept ∧
    files = gone ++ kept ∧ start_live log' = new_start ∧ end_live log' = end_live log ∧
    filename_prefix log' = filename_prefix log ∧ max_segment_size log' = max_segment_size log ∧
    Forall (λ rc : record, (rc.1 < new_start)%Z) (all_records gone) ∧ others_same (filename_prefix log) d d'.
Proof.
  intros Hlog Hne Hnew Hstart. pose proof (lo_end _ _ _ Hlog) as Hend.
  destruct (lo_ids _ _ _ Hlog) as [i Hids], (lo_records _ _ _ Hlog) as (n & Hn & Hrec).
  destruct (prune_oldest_loop_spec (filename_prefix log) i d files files new_start n)
    as (d' & gone & kept & Hrun & Hsplit & Hk & Hd' & Hoth & Hall); try (apply Hlog || done).
  { destruct Hids as (Hs & _). by eapply seg_ids_nodup_files. }
  { rewrite <-Hend. lia. }
  rewrite Hsplit in Hlog. pose proof (suffix_log_ok log d gone kept d' new_start Hlog Hk Hd' ltac:(lia)) as Hok'.
  exists d'. eexists. exists gone, kept. split; [|split; [exact Hok'|by split_and!]].
  unfold prune_oldest, is_nil. rewrite (proj2 (Z.eqb_neq _ _)) by lia.
  rewrite bool_decide_eq_false_2.
  2: { rewrite (lo_segments _ _ _ Hlog), <-Hsplit. by destruct files. }
  rewrite (proj2 (Z.ltb_ge _ _)), (proj2 (Z.ltb_ge _ _)) by lia.
  unfold io_bind. rewrite (lo_segments _ _ _ Hlog), <-Hsplit, Hrun. done.
Qed.

Lemma remove_from_end_segments prefix segs d :
  Forall (λ s, seg_path s = segment_format prefix (seg_id s)) segs →
  remove_from_end prefix segs d = remove_segments segs d.
Proof.
  intros H. revert d. induction H as [|s segs Hs H IH]; intros d; [done|].
  cbn [remove_from_end remove_segments]. unfold io_bind. rewrite Hs.
  destruct (remove_file _ d) as [d' [[]|e|]]; [apply IH|done|done].
Qed.

Lemma segments_of_paths prefix files :
  Forall2 (λ f s, seg_path s = segment_format prefix (sf_id f)) files (segment_of prefix <$> files).
Proof. induction files as [|f files IH]; constructor; [done|exact IH]. Qed.

Lemma fmap_rev {X Y} (g : X → Y) l : rev (g <$> l) = g <$> rev l.
Proof. induction l as [|x l IH]; [done|]. rewrite fmap_cons. cbn [rev]. by rewrite IH, fmap_app. Qed.

(** All files are removed. *)
Lemma remove_all_spec log d files :
  log_ok log d files →
  ∃ d' log', remove_all log d = (d', Ok log') ∧ log_ok log' d' [] ∧ live_range log' = (0, 0)%Z ∧
    filename_prefix log' = filename_prefix log ∧ max_segment_size log' = max_segment_size log ∧
    others_same (filename_prefix log) d d'.
Proof.
  intros Hlog. destruct (lo_ids _ _ _ Hlog) as [i Hids]. pose proof Hids as (Hs & _).
  destruct (remove_segments_spec (filename_prefix log) i files d files [] (segments log))
    as (d' & Hrem & Hd' & Hoth).
  - apply Hlog.
  - done.
  - rewrite app_nil_r. by eapply seg_ids_nodup_files.
  - intros f. by rewrite app_nil_r.
  - rewrite app_nil_r. apply Hlog.
  - rewrite (lo_segments _ _ _ Hlog). apply segments_of_paths.
  - exists d'. eexists. unfold remove_all, io_bind. rewrite Hrem. split; [reflexivity|]. split; [|done].
    split; simpl; try done.
    + apply Hlog.
    + by exists 1%Z.
    + by exists 1%Z.
Qed.

(** The log up to the record [new_end] of the file [f]. *)
Lemma truncated_log_ok log d fi f rest d' new_end :
  log_ok log d (fi ++ f :: rest) → new_end ∈ (sf_records f).*1 →
  dir_ok (filename_prefix log) d' (fi ++ [truncate_file new_end f]) →
  log_ok {| filename_prefix := filename_prefix log; max_segment_size := max_segment_size log;
            start_live := start_live log; end_live := new_end;
            segments := (segment_of (filename_prefix log) <$> fi) ++
              [set_bounds (segment_of (filename_prefix log) f) (seg_min (segment_of (filename_prefix log) f)) new_end];
            head_segment_writer := Some (writer_of (filename_prefix log) (truncate_file new_end f)) |}
    d' (fi ++ [truncate_file new_end f]) ∧
  all_records (fi ++ [truncate_file new_end f]) =
    filter (λ rc : record, (rc.1 ≤ new_end)%Z) (all_records (fi ++ f :: rest)).
Proof.
  intros [Hp (i & Hs & Hi & Hb) Hdir (n & Hn & Hids) Hfit Hw Hsegs Hwr Hend Hst Hnil] Hin Hdir'.
  rewrite all_records_app, all_records_cons in Hids, Hfit.
  apply ids_from_app in Hids as [Hid1 Hids]. apply ids_from_app in Hids as [Hid2 Hid3].
  apply Forall_app in Hfit as [Hf1 Hfit]. apply Forall_app in Hfit as [Hf2 _].
  apply Forall_app in Hw as [Hw1 [[Ht Hne] _]%Forall_cons_1].
  destruct (ids_split _ _ _ Hid2 Hin) as (rs1 & rc & rs2 & Hrs & Hrc & _ & Hfilter).
  pose proof (proj1 (ids_from_elem _ _ _ Hid2) Hin) as Hrange.
  assert (Hrec : all_records (fi ++ [truncate_file new_end f]) = all_records fi ++ rs1 ++ [rc]).
  { rewrite all_records_app. f_equal. unfold all_records. simpl. by rewrite app_nil_r. }
  assert (Hpre : ∀ P : list record → Prop, (∀ a b, P (a ++ b) → P a) → P (sf_records f) → P (rs1 ++ [rc])).
  { intros P HP. rewrite Hrs. change (rc :: rs2) with ([rc] ++ rs2). rewrite app_assoc. apply HP. }
  split.
  - split; cbn [filename_prefix segments head_segment_writer start_live end_live]; try done.
    + exists i. apply seg_ids_from_app in Hs as [H1 [H2 _]]. rewrite length_app in Hb. simpl in Hb.
      split_and!; [|done|rewrite length_app; simpl; lia]. by apply seg_ids_from_app.
    + exists n. split; [done|]. rewrite Hrec. apply ids_from_app. split; [done|].
      apply Hpre; [|done]. by intros a b [? _]%ids_from_app.
    + rewrite Hrec. apply Forall_app. split; [done|]. apply Hpre; [|done]. by intros a b [? _]%Forall_app.
    + apply Forall_app. split; [done|]. constructor; [|constructor]. split; [done|]. simpl. rewrite Hfilter.
      by destruct rs1.
    + rewrite fmap_app. f_equal. cbn [fmap list_fmap]. f_equal. unfold set_bounds, segment_of.
      cbn [truncate_file sf_id sf_records seg_id seg_path seg_min seg_max]. rewrite Hfilter. f_equal.
      * rewrite Hrs. by destruct rs1.
      * unfold last_id. by rewrite last_snoc.
    + by rewrite last_snoc.
    + rewrite Hrec, app_assoc. unfold last_id. by rewrite last_snoc.
    + intros _. apply Hst. by destruct fi.
    + by destruct fi.
  - rewrite Hrec, all_records_app, all_records_cons, !filter_app, Hfilter. rewrite filter_all, (filter_none _ (all_records rest)).
    + by rewrite app_nil_r.
    + apply Forall_forall. intros x Hx.
      assert (x.1 ∈ (all_records rest).*1) as H%(ids_from_elem _ _ _ Hid3) by (by apply list_elem_of_fmap_2). lia.
    + apply Forall_forall. intros x Hx.
      assert (x.1 ∈ (all_records fi).*1) as H%(ids_from_elem _ _ _ Hid1) by (by apply list_elem_of_fmap_2). lia.
Qed.

Lemma find_head_spec prefix fi f rest n new_end k :
  ids_from n (all_records (fi ++ f :: rest)) → Forall whole (fi ++ f :: rest) →
  new_end ∈ (sf_records f).*1 → length fi + k < length (fi ++ f :: rest) →
  find_head (segment_of prefix <$> fi ++ f :: rest) new_end (length fi + k) = Some (length fi).
Proof.
  intros Hids Hw Hin. induction k as [|k IH]; intros Hk.
  - rewrite Nat.add_0_r. destruct (length fi) as [|m] eqn:E; [done|]. cbn [find_head]. rewrite <-E.
    rewrite list_lookup_fmap, lookup_app_r, Nat.sub_diag by lia. cbn [lookup list_lookup fmap option_fmap option_map mbind option_bind].
    apply Forall_app in Hw as [_ [[_ Hne] _]%Forall_cons_1].
    rewrite all_records_app, all_records_cons in Hids. apply ids_from_app in Hids as [_ Hids].
    apply ids_from_app in Hids as [Hids _]. apply (ids_from_elem _ _ _ Hids) in Hin.
    destruct (sf_records f) as [|x rs] eqn:Ef; [done|]. apply ids_from_cons in Hids as [Hx _].
    unfold segment_of, first_id. rewrite Ef. simpl. rewrite (proj2 (Z.leb_le _ _)) by lia. done.
  - rewrite Nat.add_succ_r. cbn [find_head].
    destruct (lookup_lt_is_Some_2 (fi ++ f :: rest) (S (length fi + k))) as [g Hg]; [lia|].
    rewrite list_lookup_fmap, Hg. cbn [fmap option_fmap option_map mbind option_bind].
    assert (Hgr : g ∈ rest).
    { rewrite lookup_app_r in Hg by lia. replace (S (length fi + k) - length fi) with (S k) in Hg by lia.
      by eapply list_elem_of_lookup_2. }
    apply list_elem_of_split in Hgr as (r1 & r2 & ->).
    assert (Hwg : whole g) by (rewrite Forall_forall in Hw; apply Hw; set_solver). destruct Hwg as [_ Hgne].
    destruct (sf_records g) as [|x rs] eqn:Eg; [done|].
    assert (new_end < x.1)%Z.
    { eapply (files_order n fi f r1 g r2); [done|done|]. rewrite Eg. set_solver. }
    cbn [segment_of seg_min]. rewrite Eg. simpl. rewrite (proj2 (Z.leb_gt _ _)) by lia. apply IH. lia.
Qed.

Lemma prune_recent_spec log d files new_end :
  log_ok log d files → new_end ∈ (all_records files).*1 →
  ∃ d' log' files', prune_recent log new_end d = (d', Ok log') ∧ log_ok log' d' files' ∧
    all_records files' = filter (λ rc : record, (rc.1 ≤ new_end)%Z) (all_records files) ∧
    start_live log' = start_live log ∧ end_live log' = new_end ∧
    filename_prefix log' = filename_prefix log ∧ max_segment_size log' = max_segment_size log ∧
    (head_id files' ≤ head_id files)%Z ∧ others_same (filename_prefix log) d d'.
Proof.
  intros Hlog Hin. destruct (lo_ids _ _ _ Hlog) as [i Hids], (lo_records _ _ _ Hlog) as (n & Hn & Hrec).
  pose proof (proj1 (ids_from_elem _ _ _ Hrec) Hin) as Hrange.
  apply list_elem_of_fmap in Hin as (rc & -> & Hrc). apply elem_of_all_records in Hrc as (f & Hrc & Hf).
  apply list_elem_of_split in Hf as (fi & rest & Hfiles).
  assert (Hin : rc.1 ∈ (sf_records f).*1) by (by apply list_elem_of_fmap_2).
  pose proof (lo_prefix _ _ _ Hlog) as Hp. pose proof (lo_dir _ _ _ Hlog) as Hdir.
  set (prefix := filename_prefix log) in *. pose proof Hids as (Hs & _). apply seg_ids_nodup_files in Hs.
  assert (Hperm : files ≡ₚ rev rest ++ fi ++ [f]).
  { rewrite Hfiles. change (f :: rest) with ([f] ++ rest). rewrite app_assoc, Permutation_app_comm.
    apply Permutation_app_tail, Permutation_rev. }
  destruct (remove_segments_spec prefix i files d (rev rest) (fi ++ [f]) (rev (segment_of prefix <$> rest)))
    as (d1 & Hrem & Hd1 & Hoth1); try done.
  { by rewrite <-Hperm. }
  { intros g. by rewrite <-Hperm. }
  { by eapply dir_ok_perm. }
  { rewrite fmap_rev. apply segments_of_paths. }
  assert (∃ m, ids_from m (sf_records f) ∧ Forall record_ok (sf_records f)) as (m & Hm & Hok).
  { eapply (files_from_lookup (rc.1)). rewrite <-Hfiles. by eapply log_files_from. }
  destruct (truncate_head_spec prefix i d1 files fi f [] m rc.1) as (d2 & Htr & Hd2 & Hoth2); try done.
  { intros g Hg. rewrite Hfiles. set_solver. }
  { rewrite Hfiles in Hs. change (f :: rest) with ([f] ++ rest) in Hs. rewrite app_assoc in Hs.
    by apply NoDup_app in Hs as [? _]. }
  rewrite Hfiles in Hlog. destruct (truncated_log_ok log d fi f rest d2 rc.1 Hlog Hin Hd2) as [Hok' Hall'].
  exists d2. eexists. exists (fi ++ [truncate_file rc.1 f]). rewrite Hfiles.
  split; [|split; [exact Hok'|split_and!; try done; [|by eapply others_same_trans]]].
  2: { apply (head_id_prefix i); [done|]. by rewrite <-Hfiles. }
  unfold prune_recent, is_nil. rewrite (proj2 (Z.eqb_neq _ _)) by lia. rewrite (lo_segments _ _ _ Hlog).
  rewrite bool_decide_eq_false_2 by (by destruct fi). fold prefix.
  rewrite length_fmap, length_app. cbn [length].
  replace (length fi + S (length rest) - 1) with (length fi + length rest) by lia.
  rewrite (find_head_spec prefix fi f rest n rc.1 (length rest));
    [|by rewrite Hfiles in Hrec|apply Hlog|done|rewrite length_app; simpl; lia].
  unfold io_bind, io_lift, io_ret. cbn [or_panic].
  rewrite fmap_app, fmap_cons, Nat.add_1_r.
  rewrite drop_app, (drop_ge (segment_of prefix <$> fi)), length_fmap by (rewrite length_fmap; lia).
  replace (S (length fi) - length fi) with 1 by lia. cbn [drop app]. rewrite drop_0.
  rewrite remove_from_end_segments, Hrem.
  2: { apply Forall_rev, Forall_fmap, Forall_true. done. }
  rewrite take_app, take_ge, length_fmap by (rewrite length_fmap; lia).
  replace (S (length fi) - length fi) with 1 by lia. cbn [take firstn].
  rewrite lookup_app_r, length_fmap, Nat.sub_diag by (rewrite length_fmap; lia).
  cbn [lookup list_lookup or_panic segment_of seg_id]. rewrite Htr.
  rewrite insert_app_r_alt, length_fmap, Nat.sub_diag by (rewrite length_fmap; lia). reflexivity.
Qed.

(** ** Consequences *)

Lemma log_end_nil log d files : log_ok log d files → files = [] ↔ end_live log = 0%Z.
Proof.
  intros Hlog. rewrite (lo_end _ _ _ Hlog). split; [by intros ->|].
  destruct (lo_records _ _ _ Hlog) as (n & Hn & Hids). destruct files as [|f files]; [done|].
  assert (all_records (f :: files) ≠ []).
  { pose proof (lo_whole _ _ _ Hlog) as [[_ Hf] _]%Forall_cons_1. rewrite all_records_cons.
    by intros [? _]%app_eq_nil. }
  rewrite (last_id_from n) by done. destruct (all_records (f :: files)); [done|].
  cbn [from_option length]. unfold id. lia.
Qed.

Lemma log_end_ids log d files n :
  log_ok log d files → files ≠ [] → ids_from n (all_records files) →
  end_live log = (n + Z.of_nat (length (all_records files)) - 1)%Z.
Proof.
  intros Hlog Hne Hids. pose proof (log_end_nil _ _ _ Hlog) as Hnil. rewrite (lo_end _ _ _ Hlog) in *.
  destruct (decide (all_records files = [])) as [E|E]; [|by rewrite (last_id_from n)].
  rewrite E in Hnil. naive_solver.
Qed.

Lemma log_ids_le log d files n rc :
  log_ok log d files → ids_from n (all_records files) → rc ∈ all_records files → (n ≤ rc.1 ≤ end_live log)%Z.
Proof.
  intros Hlog Hids Hrc. assert (files ≠ []) as Hne by (by intros ->; apply not_elem_of_nil in Hrc).
  rewrite (log_end_ids _ _ _ n Hlog Hne Hids).
  apply (list_elem_of_fmap_2 fst), (ids_from_elem _ _ _ Hids) in Hrc. lia.
Qed.

(** The first record that is kept is not after the first live one. *)
Lemma live_first_le n n' rs rs' start end_ :
  ids_from n rs → ids_from n' rs' → (start ≤ end_)%Z → (n ≤ end_)%Z → (end_ < n + Z.of_nat (length rs))%Z →
  live_records start end_ rs' = live_records start end_ rs → (n' ≤ Z.max start n)%Z.
Proof.
  intros Hn Hn' Hs He Hl Hkept.
  assert (Z.max start n ∈ rs'.*1) as Hin; [|apply (ids_from_elem _ _ _ Hn') in Hin; lia].
  assert (Z.max start n ∈ rs.*1) as (rc & Hrc & Hin)%list_elem_of_fmap by (apply (ids_from_elem _ _ _ Hn); lia).
  rewrite Hrc. apply list_elem_of_fmap_2. assert (rc ∈ live_records start end_ rs) as Hlive
    by (apply list_elem_of_filter; split; [lia|done]).
  rewrite <-Hkept in Hlive. by apply list_elem_of_filter in Hlive as [_ Hlive].
Qed.

(** Records with consecutive ids, up to a given one, and the live ones among them. *)
Lemma filter_ids_le n rs end_ :
  ids_from n rs → filter (λ rc : record, (rc.1 ≤ end_)%Z) rs = take (Z.to_nat (end_ - n + 1)) rs.
Proof.
  revert n. induction rs as [|rc rs IH]; intros n; [by rewrite take_nil|].
  intros [Hid Hids]%ids_from_cons. rewrite filter_cons. case_decide.
  - rewrite (IH _ Hids). replace (Z.to_nat (end_ - n + 1)) with (S (Z.to_nat (end_ - (n + 1) + 1))) by lia. done.
  - replace (Z.to_nat (end_ - n + 1)) with 0 by lia. rewrite (IH _ Hids).
    by replace (Z.to_nat (end_ - (n + 1) + 1)) with 0 by lia.
Qed.

Lemma filter_ids_ge n rs start :
  ids_from n rs → filter (λ rc : record, (start ≤ rc.1)%Z) rs = drop (Z.to_nat (start - n)) rs.
Proof.
  revert n. induction rs as [|rc rs IH]; intros n; [by rewrite drop_nil|].
  intros [Hid Hids]%ids_from_cons. rewrite filter_cons, (IH _ Hids). case_decide.
  - replace (Z.to_nat (start - n)) with 0 by lia. by replace (Z.to_nat (start - (n + 1))) with 0 by lia.
  - by replace (Z.to_nat (start - n)) with (S (Z.to_nat (start - (n + 1)))) by lia.
Qed.

Lemma live_records_ids n rs start end_ :
  ids_from n rs →
  live_records start end_ rs = drop (Z.to_nat (start - n)) (take (Z.to_nat (end_ - n + 1)) rs).
Proof.
  intros Hids. rewrite <-(filter_ids_le _ _ _ Hids).
  assert (ids_from n (filter (λ rc : record, (rc.1 ≤ end_)%Z) rs)) as Hids'.
  { rewrite (filter_ids_le _ _ _ Hids). rewrite <-(take_drop (Z.to_nat (end_ - n + 1)) rs) in Hids.
    by apply ids_from_app in Hids as [? _]. }
  rewrite <-(filter_ids_ge _ _ _ Hids'), list_filter_filter. apply list_filter_iff. intros rc. lia.
Qed.

(** Opening the log with an empty live range removes what is left of it. *)
Lemma seglog_open_nil {A} (process_record : Z → list u8 → A → outcome SegError A) prefix max_size i d files a :
  prefix ≠ [] → ids_ok i files → dir_ok prefix d files →
  ∃ d' log, seglog_open process_record prefix max_size 0 0 a d = (d', Ok (log, a)) ∧ log_ok log d' [] ∧
    filename_prefix log = prefix ∧ max_segment_size log = max_size ∧ others_same prefix d d'.
Proof.
  intros Hp Hids Hdir. pose proof Hids as (Hs & _).
  destruct (remove_segments_spec prefix i files d files [] (candidate_of prefix <$> files)) as (d' & Hrem & Hd' & Hoth);
    rewrite ?app_nil_r; try done.
  - by eapply seg_ids_nodup_files.
  - by apply Forall2_fmap_r, Forall_Forall2_diag, Forall_true.
  - exists d'. eexists. split.
    { unfold seglog_open, io_bind. cbn [is_nil Z.eqb xorb].
      rewrite (scan_root_dir_spec prefix i d files) by done. unfold io_ret. cbn.
      unfold io_bind. rewrite Hrem. reflexivity. }
    split; [|done]. split; try done.
    + by exists 1%Z.
    + by exists 1%Z.
Qed.

(** ** Live ranges before the first record *)

Lemma scan_record_end_missing rs end_ r pre :
  Forall record_ok rs → Forall (λ x : record, x.1 ≠ end_) rs → at_bytes r pre (segment_bytes rs) →
  ∀ fuel, scan_record_end_loop (length rs + S fuel) end_ r = Ok None.
Proof.
  intros Hok Hne. revert r pre. induction Hne as [|x rs Hx Hne IH]; intros r pre Hat fuel.
  - cbn [length Nat.add scan_record_end_loop]. by rewrite (at_bytes_end _ _ Hat).
  - apply Forall_cons_1 in Hok as [Hrc Hok]. rewrite segment_bytes_cons in Hat.
    destruct (read_record _ _ _ _ Hrc Hat) as (r1 & r2 & Hh & Hskip & _ & Hat2).
    cbn [length Nat.add scan_record_end_loop]. rewrite Hh. cbn [obind]. unfold header_of.
    rewrite record_id_spec by apply Hrc. cbn [or_panic obind]. rewrite Hskip. cbn [obind].
    rewrite (proj2 (Z.eqb_neq _ _)) by done. by apply (IH Hok _ _ Hat2).
Qed.

Lemma scan_fuel_records f rs : file_bytes f = segment_bytes rs → ∃ k, scan_fuel (file_bytes f) = length rs + S (S k).
Proof.
  intros Hb. exists (length (file_bytes f) / RECORD_ALIGNMENT - length rs). unfold scan_fuel.
  assert (length rs ≤ length (file_bytes f) / RECORD_ALIGNMENT); [|lia].
  apply Nat.div_le_lower_bound; [done|]. rewrite Hb. pose proof (segment_bytes_length rs). lia.
Qed.

(** A file that does not have the record up to which it is to be cut. *)
Lemma truncate_head_missing prefix d f n end_ :
  d !! segment_format prefix (sf_id f) = Some (file_bytes f) → whole f → Forall record_ok (sf_records f) →
  ids_from n (sf_records f) → (end_ < n)%Z →
  truncate_head_segment (segment_format prefix (sf_id f)) end_ d = (d, Err NoLastLiveRecord).
Proof.
  intros Hc [Ht _] Hok Hids Hlt. assert (Hb : file_bytes f = segment_bytes (sf_records f)) by (unfold file_bytes; by rewrite Ht, app_nil_r).
  unfold truncate_head_segment, scan_record_end, io_bind, file_open, io_lift. rewrite Hc.
  destruct (scan_fuel_records f _ Hb) as [k ->].
  rewrite (scan_record_end_missing (sf_records f) end_ _ []); [done|done| |rewrite <-Hb; by apply at_bytes_new].
  apply Forall_forall. intros rc Hrc E.
  assert (rc.1 ∈ (sf_records f).*1) as H%(ids_from_elem _ _ _ Hids) by (by apply list_elem_of_fmap_2). lia.
Qed.

(** Pruning to a record before the first one removes all segments but the first, and fails. *)
Lemma prune_recent_missing log d f rest n new_end :
  log_ok log d (f :: rest) → ids_from n (all_records (f :: rest)) → (0 < new_end < n)%Z →
  ∃ d', prune_recent log new_end d = (d', Err NoLastLiveRecord) ∧ dir_ok (filename_prefix log) d' [f].
Proof.
  intros Hlog Hrec Hlt. destruct (lo_ids _ _ _ Hlog) as [i Hids]. pose proof Hids as (Hs & _). apply seg_ids_nodup_files in Hs.
  set (prefix := filename_prefix log). pose proof (lo_whole _ _ _ Hlog) as Hw.
  assert (Hperm : f :: rest ≡ₚ rev rest ++ [f]).
  { change (f :: rest) with ([f] ++ rest). rewrite Permutation_app_comm. apply Permutation_app_tail, Permutation_rev. }
  destruct (remove_segments_spec prefix i (f :: rest) d (rev rest) [f] (rev (segment_of prefix <$> rest)))
    as (d1 & Hrem & Hd1 & _); try done.
  { apply Hlog. } { by rewrite <-Hperm. } { intros g. by rewrite <-Hperm. }
  { eapply dir_ok_perm; [done|apply Hlog]. } { rewrite fmap_rev. apply segments_of_paths. }
  assert (Hhead : ∀ j, j < length (f :: rest) → find_head (segment_of prefix <$> f :: rest) new_end j = Some 0).
  { induction j as [|j IH]; intros Hj; [done|]. cbn [find_head].
    destruct (lookup_lt_is_Some_2 (f :: rest) (S j)) as [g Hg]; [done|]. rewrite list_lookup_fmap, Hg.
    cbn [fmap option_fmap option_map mbind option_bind segment_of seg_min].
    assert (Hin : g ∈ f :: rest) by (by eapply list_elem_of_lookup_2). rewrite Forall_forall in Hw. destruct (Hw g Hin) as [_ Hne].
    destruct (sf_records g) as [|x rs] eqn:Eg; [done|].
    assert (x.1 ∈ (all_records (f :: rest)).*1) as Hx%(ids_from_elem _ _ _ Hrec).
    { apply list_elem_of_fmap_2, elem_of_all_records. exists g. rewrite Eg. split; [left|done]. }
    unfold first_id. simpl. rewrite (proj2 (Z.leb_gt _ _)) by lia. apply IH. simpl in *. lia. }
  exists d1. split; [|done]. unfold prune_recent, is_nil. rewrite (proj2 (Z.eqb_neq _ _)) by lia. rewrite (lo_segments _ _ _ Hlog).
  fold prefix. rewrite bool_decide_eq_false_2 by done. rewrite length_fmap, Hhead by (simpl; lia).
  unfold io_bind, io_lift, io_ret. cbn [or_panic Nat.add fmap list_fmap drop take lookup list_lookup firstn skipn]. rewrite drop_0.
  rewrite remove_from_end_segments, Hrem.
  2: { apply Forall_rev, Forall_fmap, Forall_true. done. }
  cbn [segment_of seg_id]. rewrite all_records_cons in Hrec. apply ids_from_app in Hrec as [Hrec _].
  pose proof (lo_fits _ _ _ Hlog) as Hfit. rewrite all_records_cons in Hfit. apply Forall_app in Hfit as [Hfit _].
  rewrite (truncate_head_missing prefix d1 f n new_end); try done; [apply (do_has _ _ _ Hd1); left|by apply Forall_cons_1 in Hw as [? _]|lia].
Qed.

Section missing.
Context {A : Type} (process_record : Z → list u8 → A → outcome SegError A).

Lemma on_first_after cs start z n :
  (0 < start ≤ z)%Z → (z < n)%Z →
  on_next_record {| candidates := cs; rec_start_live := start; rec_end_live := z; live_segment_start := None; live_segment_end := None |} 0 n =
    Some (true, {| candidates := cs; rec_start_live := start; rec_end_live := z; live_segment_start := Some 0; live_segment_end := Some 0 |}).
Proof.
  intros Hs Hz. unfold on_next_record, exit_live, enter_live, rec_is_live, is_nil. simpl. rewrite (proj2 (Z.eqb_neq start 0)) by lia. simpl.
  rewrite (proj2 (Z.leb_le start n)) by lia. simpl. rewrite (proj2 (Z.eqb_neq start 0)) by lia. simpl. by rewrite (proj2 (Z.leb_le z n)) by lia.
Qed.

Lemma scan_missing f rc rs n start z a a' self :
  file_bytes f = segment_bytes (rc :: rs) → Forall record_ok (rc :: rs) → ids_from n (rc :: rs) → (0 < start ≤ z)%Z → (z < n)%Z →
  rec_start_live self = start → rec_end_live self = z → live_segment_start self = None → live_segment_end self = None →
  process_record n rc.2 a = Ok a' →
  ∃ self' min max, scan_loop process_record (scan_fuel (file_bytes f)) 0 self a
      (SegmentFileReader_new (file_bytes f) (Some (length (file_bytes f)))) None None None = Ok (self', a', min, max) ∧
    candidates self' = candidates self ∧ live_segment_start self' = Some 0 ∧ live_segment_end self' = Some 0 ∧
    rec_start_live self' = start ∧ rec_end_live self' = z.
Proof.
  intros Hb Hok Hids Hst Hz H1 H2 H3 H4 Ha. apply Forall_cons_1 in Hok as [Hrc Hok]. apply ids_from_cons in Hids as [Hid Hids].
  destruct self as [cs s e ls le]. cbn [rec_start_live rec_end_live live_segment_start live_segment_end candidates] in *. subst s e ls le.
  assert (Hat : at_bytes (SegmentFileReader_new (file_bytes f) (Some (length (file_bytes f)))) [] (record_bytes rc ++ segment_bytes rs ++ [])).
  { rewrite app_nil_r, <-segment_bytes_cons, <-Hb. by apply at_bytes_new. }
  destruct (read_record _ _ _ _ Hrc Hat) as (r1 & r2 & Hh & _ & Hread & Hat2).
  set (self1 := {| candidates := cs; rec_start_live := start; rec_end_live := z; live_segment_start := Some 0; live_segment_end := Some 0 |}).
  destruct (scan_loop_records process_record start z z 0 0 ltac:(lia) ltac:(lia) rs 0 (n + 1) self1 r2 ([] ++ record_bytes rc) []
    (Some n) (Some n)) as (self2 & r3 & [Hs1 Hs2 Hs3 Hs4] & Hc & Hat3 & Hloop); [done|done|lia| | |done|right; f_equal; lia|].
  { apply Forall_forall. intros x Hx. assert (x.1 ∈ rs.*1) as H%(ids_from_elem _ _ _ Hids) by (by apply list_elem_of_fmap_2).
    split; lia. }
  { split; simpl; [done|done|by rewrite (proj2 (Z.ltb_lt _ _)) by lia..]. }
  assert (Hlive : live_records start z rs = []).
  { apply filter_none, Forall_forall. intros x Hx. assert (x.1 ∈ rs.*1) as H%(ids_from_elem _ _ _ Hids) by (by apply list_elem_of_fmap_2). lia. }
  destruct (scan_fuel_records f (rc :: rs) Hb) as [k ->]. cbn [length Nat.add scan_loop]. rewrite Hh. cbn [obind].
  unfold header_of. rewrite record_id_spec by apply Hrc. cbn [or_panic obind]. rewrite Hid.
  rewrite on_first_after by done. cbn [or_panic obind]. rewrite Hread. cbn [obind]. rewrite Ha. cbn [obind]. rewrite Hloop, Hlive. cbn [process_all obind].
  cbn [scan_loop]. rewrite (at_bytes_end _ _ Hat3). cbn [obind]. eexists _, _, _. split; [reflexivity|].
  rewrite (proj2 (Z.ltb_lt _ _)) in Hs3 by lia. rewrite (proj2 (Z.ltb_lt _ _)) in Hs4 by lia. by split_and!.
Qed.

(** Opening with a live range that ends before the first record fails. *)
Lemma seglog_open_missing prefix max_size i d f rc rs n start z a a' :
  prefix ≠ [] → ids_ok i [f] → dir_ok prefix d [f] → whole f → sf_records f = rc :: rs → Forall record_ok (sf_records f) →
  ids_from n (sf_records f) → (0 < start ≤ z)%Z → (z < n)%Z → process_record n rc.2 a = Ok a' →
  ∃ d', seglog_open process_record prefix max_size start z a d = (d', Err NoLastLiveRecord).
Proof.
  intros Hp Hi Hd [Ht Hne] Hrs Hok Hids Hst Hz Ha. pose proof (do_has _ _ _ Hd f ltac:(left)) as Hc.
  assert (Hb : file_bytes f = segment_bytes (rc :: rs)) by (unfold file_bytes; by rewrite Ht, app_nil_r, Hrs).
  set (self0 := {| candidates := candidate_of prefix <$> [f]; rec_start_live := start; rec_end_live := z;
                   live_segment_start := None; live_segment_end := None |}).
  destruct (scan_missing f rc rs n start z a a' self0) as (self1 & mn & mx & Hrun & Hcd & Hs & He & _); try done; [by rewrite <-Hrs..|].
  exists d. unfold seglog_open, is_nil. rewrite (proj2 (Z.eqb_neq start 0)), (proj2 (Z.eqb_neq z 0)) by lia. cbn [xorb].
  unfold io_bind at 1. rewrite (scan_root_dir_spec prefix i _ _ Hp Hi Hd). fold self0. cbn [fmap list_fmap length seq scan_segments].
  unfold io_bind, scan_segment, io_bind, io_lift, file_open. cbn [self0 candidates fmap list_fmap lookup list_lookup or_panic candidate_of seg_path].
  rewrite Hc. fold self0. change (candidate_of prefix <$> [f]) with (candidates self0) in Hcd.
  rewrite Hrun. cbn [io_ret]. unfold io_ret. cbn [live_segment_start live_segment_end]. rewrite Hs, He, Hcd.
  cbn [self0 candidates]. rewrite !bool_decide_eq_false_2 by done. unfold remove_nonlive_segments, io_bind, io_lift. cbn [live_segment_start live_segment_end candidates].
  cbn [Nat.add fmap list_fmap insert list_insert candidate_of set_bounds]. unfold slice. cbn [Nat.leb length andb Nat.sub drop take skipn firstn or_panic app].
  cbn [remove_segments io_ret last]. unfold io_ret. cbn [seg_path removelast app set_bounds].
  cbn [candidate_of seg_path]. by rewrite (truncate_head_missing prefix d f n z).
Qed.
End missing.
