(* ===== verification/SeglogSpec.v ===== *)
(** * The abstract log

    What the segmented log promises to its user: a list of live records with
    consecutive ids.  The log on disk refines it, and reading the log back gives the
    live records. *)

From S2P Require Import Prelude Seglog SeglogFiles SeglogCorrect.

#[local] Open Scope nat_scope.

(** The live range and the records in it. *)
Record alog := { al_start : Z; al_end : Z; al_records : list record }.

Definition alog_empty : alog := {| al_start := 0; al_end := 0; al_records := [] |}.

Inductive log_op :=
| OAppend (data : list u8)
| OPruneOldest (new_start_live : Z)
| OPruneRecent (new_end_live : Z)
| OReopen.

(** What an operation asks of its caller: a payload is at most 1 GiB, and the id given to a
    pruning is zero or in the live range, unless the log is empty. *)
Definition op_ok (al : alog) (op : log_op) : Prop :=
  match op with
  | OAppend data => (Z.of_nat (length data) ≤ MAX_RECORD_PAYLOAD_SIZE)%Z
  | OPruneOldest id | OPruneRecent id => id = 0%Z ∨ al_end al = 0%Z ∨ (al_start al ≤ id ≤ al_end al)%Z
  | OReopen => True
  end.

Definition op_spec (al : alog) (op : log_op) : alog :=
  match op with
  | OAppend data =>
      let id := (al_end al + 1)%Z in
      {| al_start := if is_nil (al_start al) then id else al_start al; al_end := id;
         al_records := al_records al ++ [(id, data)] |}
  | OPruneOldest id =>
      if is_nil id then alog_empty
      else if is_nil (al_end al) then al
      else {| al_start := id; al_end := al_end al;
              al_records := filter (λ rc : record, (id ≤ rc.1)%Z) (al_records al) |}
  | OPruneRecent id =>
      if is_nil id then alog_empty
      else if is_nil (al_end al) then al
      else {| al_start := al_start al; al_end := id;
              al_records := filter (λ rc : record, (rc.1 ≤ id)%Z) (al_records al) |}
  | OReopen => al
  end.

(** What the user sees: the record appended, with its id, and the records read. *)
Definition op_seen (al : alog) (op : log_op) : list record :=
  match op with
  | OAppend data => [((al_end al + 1)%Z, data)]
  | OPruneOldest _ | OPruneRecent _ => []
  | OReopen => al_records al
  end.

Fixpoint ops_ok (al : alog) (ops : list log_op) : Prop :=
  match ops with
  | [] => True
  | op :: ops => op_ok al op ∧ ops_ok (op_spec al op) ops
  end.

Fixpoint ops_seen (al : alog) (ops : list log_op) : list (list record) :=
  match ops with
  | [] => []
  | op :: ops => op_seen al op :: ops_seen (op_spec al op) ops
  end.

(** The log on disk, operation by operation: when it is reopened, the live range is the
    one that was stored elsewhere, and the records read are collected. *)
Definition collect (id : Z) (payload : list u8) (read : list record) : outcome SegError (list record) :=
  Ok (read ++ [(id, payload)]).

Definition log_exec (log : SegmentedLog) (op : log_op) : io (SegmentedLog * list record) :=
  match op with
  | OAppend data => let* (id, log) := append log data in io_ret (log, [(id, data)])
  | OPruneOldest id => let* log := prune_oldest log id in io_ret (log, [])
  | OPruneRecent id => let* log := prune_recent log id in io_ret (log, [])
  | OReopen =>
      let '(start, end_) := live_range log in
      seglog_open collect (filename_prefix log) (max_segment_size log) start end_ []
  end.

Fixpoint log_run (log : SegmentedLog) (ops : list log_op) : io (SegmentedLog * list (list record)) :=
  match ops with
  | [] => io_ret (log, [])
  | op :: ops =>
      let* (log, seen) := log_exec log op in
      let* (log, rest) := log_run log ops in
      io_ret (log, seen :: rest)
  end.

(** ** Refinement *)

(** The log and the directory represent [al], after [k] operations. *)
Definition represents (k : Z) (log : SegmentedLog) (d : fs) (al : alog) : Prop :=
  ∃ files, log_ok log d files ∧ start_live log = al_start al ∧ end_live log = al_end al ∧
    al_records al = live_records (al_start al) (al_end al) (all_records files) ∧
    (files ≠ [] → ∃ n, ids_from n (all_records files) ∧ (0 < n ≤ al_start al)%Z ∧ (al_start al ≤ al_end al)%Z) ∧
    (al_end al ≤ k)%Z ∧ (head_id files ≤ k)%Z.

Lemma represents_empty k log d : log_ok log d [] → (0 ≤ k)%Z → represents k log d alog_empty.
Proof.
  intros Hlog Hk. exists []. split_and!; try done.
  - by apply (lo_nil _ _ _ Hlog).
  - by rewrite (lo_end _ _ _ Hlog).
Qed.

Lemma represents_mono k k' log d al : (k ≤ k')%Z → represents k log d al → represents k' log d al.
Proof. intros Hk (files & H1 & H2 & H3 & H4 & H5 & H6 & H7). exists files. split_and!; try done; lia. Qed.

Lemma represents_nil k log d al : represents k log d al → al_end al = 0%Z → log_ok log d [] ∧ segments log = [].
Proof.
  intros (files & Hlog & _ & Hend & _) Hz. assert (files = []) as ->.
  { apply (log_end_nil _ _ _ Hlog). lia. }
  split; [done|]. by rewrite (lo_segments _ _ _ Hlog).
Qed.

(** What an operation does when the log represents [al]. *)
Definition step_ok (k : Z) (log : SegmentedLog) (d : fs) (al : alog) (op : log_op) : Prop :=
  ∃ d' log', log_exec log op d = (d', Ok (log', op_seen al op)) ∧ represents (k + 1) log' d' (op_spec al op) ∧
    filename_prefix log' = filename_prefix log ∧ max_segment_size log' = max_segment_size log ∧
    others_same (filename_prefix log) d d'.

Lemma append_refines k log d al data :
  represents k log d al → (k + 1 < 2 ^ 32)%Z → op_ok al (OAppend data) → step_ok k log d al (OAppend data).
Proof.
  intros (files & Hlog & Hst & Hend & Hrecs & Hlive & Hk1 & Hk2) Hk Hsize.
  destruct (append_spec log d files data) as
    (d' & log' & files' & Hrun & Hlog' & Hall & Hst' & Hend' & Hpre & Hmax & Hhead & Hoth); try done.
  { lia. } { unfold segment_id_left. lia. }
  exists d', log'. split_and!; [|..|done|done|done].
  { simpl. unfold io_bind. rewrite Hrun. simpl. by rewrite Hend. }
  rewrite Hst, Hend in *. exists files'. simpl in Hst', Hend'. simpl. split_and!; try done; [|idtac|lia|lia].
  - rewrite Hall, Hrecs. unfold live_records. rewrite filter_app. symmetry. f_equal.
    + apply filter_ext_in, Forall_forall. intros rc Hrc.
      assert (Hne : files ≠ []) by (by intros ->; apply not_elem_of_nil in Hrc).
      destruct (Hlive Hne) as (n & Hids & Hn & Hle). pose proof (log_ids_le _ _ _ _ _ Hlog Hids Hrc).
      unfold is_nil. rewrite (proj2 (Z.eqb_neq _ _)) by lia. lia.
    + apply filter_all, Forall_singleton. simpl. unfold is_nil. destruct (Z.eqb_spec (al_start al) 0) as [?|Hnz]; [lia|].
      destruct (decide (files = [])) as [->|Hne]; [by pose proof (lo_nil _ _ _ Hlog eq_refl); lia|].
      destruct (Hlive Hne) as (n & _ & _ & ?). lia.
  - intros _. rewrite Hall. destruct (decide (files = [])) as [->|Hne].
    + pose proof (lo_nil _ _ _ Hlog eq_refl) as Hz. rewrite Hst in Hz.
      pose proof (proj1 (log_end_nil _ _ _ Hlog) eq_refl) as Hz'. rewrite Hend in Hz'.
      exists 1%Z. rewrite Hz, Hz'. split_and!; simpl; [|lia..]. by apply ids_from_cons.
    + destruct (Hlive Hne) as (n & Hids & Hn & Hle). exists n. unfold is_nil.
      rewrite (proj2 (Z.eqb_neq _ _)) by lia. split_and!; [|lia..]. apply ids_from_app. split; [done|].
      apply ids_from_cons. split; [|done]. simpl. rewrite <-Hend, (log_end_ids log d files n) by done. lia.
Qed.

Lemma prune_oldest_refines k log d al new_start :
  represents k log d al → (0 ≤ k)%Z → op_ok al (OPruneOldest new_start) →
  step_ok k log d al (OPruneOldest new_start).
Proof.
  intros Hrep Hk0 Hok. unfold step_ok. simpl. unfold is_nil.
  destruct (Z.eqb_spec new_start 0) as [->|Hnz].
  { destruct Hrep as (files & Hlog & _). destruct (remove_all_spec log d files Hlog)
      as (d' & log' & Hrun & Hlog' & _ & Hpre & Hmax & Hoth).
    exists d', log'. split_and!; try done; [by unfold io_bind; setoid_rewrite Hrun|].
    apply represents_empty; [done|lia]. }
  destruct (Z.eqb_spec (al_end al) 0) as [Hz|Hez].
  { destruct (represents_nil _ _ _ _ Hrep Hz) as [_ Hsegs]. exists d, log.
    split_and!; try done; [|by eapply (represents_mono k); [lia|]].
    unfold io_bind, prune_oldest, is_nil. by rewrite (proj2 (Z.eqb_neq _ _)), bool_decide_eq_true_2. }
  destruct Hrep as (files & Hlog & Hst & Hend & Hrecs & Hlive & Hk1 & Hk2).
  destruct Hok as [?|[?|Hrange]]; [done|done|].
  assert (Hne : files ≠ []) by (intros E; apply (log_end_nil _ _ _ Hlog) in E; lia).
  destruct (Hlive Hne) as (n & Hids & Hn & Hle).
  destruct (prune_oldest_spec log d files new_start) as
    (d' & log' & gone & kept & Hrun & Hlog' & Hsplit & Hst' & Hend' & Hpre & Hmax & Hgone & Hoth); try done; [lia|lia|].
  assert (Hkne : kept ≠ []) by (intros E; apply (log_end_nil _ _ _ Hlog') in E; lia).
  exists d', log'. split_and!; try done; [by unfold io_bind; rewrite Hrun|]. exists kept. simpl.
  rewrite Hsplit, all_records_app in Hids, Hrecs. apply ids_from_app in Hids as [Hig Hik].
  split_and!; try done; [by rewrite Hend'| | |lia|].
  - rewrite Hrecs. unfold live_records. rewrite list_filter_filter, filter_app, filter_none.
    + simpl. apply list_filter_iff. intros rc. lia.
    + eapply Forall_impl; [exact Hgone|]. intros rc. simpl. lia.
  - intros _. exists (n + Z.of_nat (length (all_records gone)))%Z. split_and!; [done|lia| |lia].
    destruct (decide (all_records gone = [])) as [->|Hg]; [simpl; lia|].
    assert (n + Z.of_nat (length (all_records gone)) - 1 ∈ (all_records gone).*1)%Z as Hin.
    { apply (ids_from_elem _ _ _ Hig). destruct (all_records gone); [done|simpl; lia]. }
    apply list_elem_of_fmap in Hin as (rc & Hrc & Hin). rewrite Forall_forall in Hgone. specialize (Hgone _ Hin).
    simpl in Hgone. lia.
  - revert Hk2. rewrite Hsplit. unfold head_id. rewrite last_app.
    destruct (last kept) eqn:E; [simpl; lia|by apply last_None in E].
Qed.

Lemma prune_recent_refines k log d al new_end :
  represents k log d al → (0 ≤ k)%Z → op_ok al (OPruneRecent new_end) →
  step_ok k log d al (OPruneRecent new_end).
Proof.
  intros Hrep Hk0 Hok. unfold step_ok. simpl. unfold is_nil.
  destruct (Z.eqb_spec new_end 0) as [->|Hnz].
  { destruct Hrep as (files & Hlog & _). destruct (remove_all_spec log d files Hlog)
      as (d' & log' & Hrun & Hlog' & _ & Hpre & Hmax & Hoth).
    exists d', log'. split_and!; try done; [by unfold io_bind; setoid_rewrite Hrun|].
    apply represents_empty; [done|lia]. }
  destruct (Z.eqb_spec (al_end al) 0) as [Hz|Hez].
  { destruct (represents_nil _ _ _ _ Hrep Hz) as [_ Hsegs]. exists d, log.
    split_and!; try done; [|by eapply (represents_mono k); [lia|]].
    unfold io_bind, prune_recent, is_nil. by rewrite (proj2 (Z.eqb_neq _ _)), bool_decide_eq_true_2. }
  destruct Hrep as (files & Hlog & Hst & Hend & Hrecs & Hlive & Hk1 & Hk2).
  destruct Hok as [?|[?|Hrange]]; [done|done|].
  assert (Hne : files ≠ []) by (intros E; apply (log_end_nil _ _ _ Hlog) in E; lia).
  destruct (Hlive Hne) as (n & Hids & Hn & Hle). pose proof (log_end_ids _ _ _ _ Hlog Hne Hids) as Hlen.
  destruct (prune_recent_spec log d files new_end) as
    (d' & log' & files' & Hrun & Hlog' & Hall & Hst' & Hend' & Hpre & Hmax & Hhead & Hoth); try done.
  { apply (ids_from_elem _ _ _ Hids). lia. }
  exists d', log'. split_and!; try done; [by unfold io_bind; rewrite Hrun|]. exists files'. simpl.
  split_and!; try done; [by rewrite Hst'| | |lia|lia].
  - rewrite Hall, Hrecs. unfold live_records. rewrite !list_filter_filter. apply list_filter_iff. intros rc. lia.
  - intros _. exists n. split_and!; [|lia..].
    destruct (ids_split n (all_records files) new_end) as (rs1 & rc & rs2 & Hrs & _ & _ & Hf); [done|..].
    { apply (ids_from_elem _ _ _ Hids). lia. }
    rewrite Hall, Hf. rewrite Hrs in Hids. change (rc :: rs2) with ([rc] ++ rs2) in Hids.
    rewrite app_assoc in Hids. by apply ids_from_app in Hids as [? _].
Qed.

Lemma process_collect rs read : process_all collect rs read = Ok (read ++ rs).
Proof.
  revert read. induction rs as [|[id data] rs IH]; intros read; simpl; [by rewrite app_nil_r|].
  rewrite IH. by rewrite <-app_assoc.
Qed.

Lemma reopen_refines k log d al : represents k log d al → (0 ≤ k)%Z → step_ok k log d al OReopen.
Proof.
  intros (files & Hlog & Hst & Hend & Hrecs & Hlive & Hk1 & Hk2) Hk0. unfold step_ok, live_range. simpl.
  pose proof (lo_prefix _ _ _ Hlog) as Hp. destruct (lo_ids _ _ _ Hlog) as [i Hids].
  pose proof (lo_dir _ _ _ Hlog) as Hdir. rewrite Hst, Hend.
  destruct (decide (files = [])) as [->|Hne].
  { pose proof (lo_nil _ _ _ Hlog eq_refl) as Hz. pose proof (proj1 (log_end_nil _ _ _ Hlog) eq_refl) as Hz'.
    rewrite Hst in Hz. rewrite Hend in Hz'. destruct al as [s e rs]. simpl in *. subst rs.
    clear Hst Hend. subst s e.
    destruct (seglog_open_nil collect _ (max_segment_size log) i d [] [] Hp Hids Hdir)
      as (d' & log' & Hrun & Hlog' & Hpre & Hmax & Hoth).
    exists d', log'. split_and!; [exact Hrun| |done..]. apply represents_empty; [done|lia]. }
  destruct (Hlive Hne) as (n & Hn & Hn0 & Hle). pose proof (log_end_ids _ _ _ _ Hlog Hne Hn) as Hlen.
  destruct (seglog_open_spec collect (filename_prefix log) (max_segment_size log) i d files (al_start al) (al_end al) n
    [] (al_records al)) as (d' & log' & files' & Hrun & Hlog' & Hst' & Hend' & Hpre & Hmax & Hkept & _ & Hhead & Hoth);
    try done; [by eapply log_files_from| |lia..|by rewrite process_collect, Hrecs|].
  { pose proof (lo_whole _ _ _ Hlog) as Hw. apply Forall_forall. intros f Hf. rewrite Forall_forall in Hw.
    apply Hw. destruct files as [|g fi _] using rev_ind; [done|]. rewrite removelast_last in Hf. set_solver. }
  exists d', log'. split_and!; try done. exists files'. split_and!; [done|done|done|by rewrite Hkept| |lia|lia].
  intros _. destruct (lo_records _ _ _ Hlog') as (n' & Hn0' & Hn'). exists n'. split_and!; [done|done| |done].
  enough (n' ≤ Z.max (al_start al) n)%Z by lia.
  eapply (live_first_le n n' _ _ (al_start al) (al_end al)); [done|done|lia..|done].
Qed.

Lemma step_refines k log d al op :
  represents k log d al → (0 ≤ k)%Z → (k + 1 < 2 ^ 32)%Z → op_ok al op → step_ok k log d al op.
Proof.
  intros Hrep Hk0 Hk. destruct op; auto using append_refines, prune_oldest_refines, prune_recent_refines, reopen_refines.
Qed.

Lemma run_refines k log d al ops :
  represents k log d al → (0 ≤ k)%Z → (k + Z.of_nat (length ops) < 2 ^ 32)%Z → ops_ok al ops →
  ∃ d' log', log_run log ops d = (d', Ok (log', ops_seen al ops)) ∧
    represents (k + Z.of_nat (length ops)) log' d' (foldl op_spec al ops) ∧
    filename_prefix log' = filename_prefix log ∧ others_same (filename_prefix log) d d'.
Proof.
  revert k log d al. induction ops as [|op ops IH]; intros k log d al Hrep Hk0 Hk Hok.
  { exists d, log. split_and!; [done| |done|done]. simpl. by rewrite Z.add_0_r. }
  destruct Hok as [Hop Hok]. cbn [length] in *.
  destruct (step_refines k log d al op) as (d1 & log1 & Hrun & Hrep1 & Hpre & _ & Hoth); [done|lia|lia|done|].
  destruct (IH (k + 1)%Z log1 d1 (op_spec al op)) as (d' & log' & Hrun' & Hrep' & Hpre' & Hoth'); [done|lia|lia|done|].
  exists d', log'. split_and!.
  - simpl. unfold io_bind. by rewrite Hrun, Hrun'.
  - simpl. by replace (k + Z.of_nat (S (length ops)))%Z with (k + 1 + Z.of_nat (length ops))%Z by lia.
  - congruence.
  - rewrite Hpre in Hoth'. by eapply others_same_trans.
Qed.

(** From a directory without files of the log. *)
Lemma run_from_empty prefix max_size d ops :
  prefix ≠ [] → (∀ name, is_Some (d !! name) → take (length prefix) name ≠ prefix) →
  (Z.of_nat (length ops) < 2 ^ 32)%Z → ops_ok alog_empty ops →
  ∃ log d' log', seglog_open collect prefix max_size 0 0 [] d = (d, Ok (log, [])) ∧
    log_run log ops d = (d', Ok (log', ops_seen alog_empty ops)) ∧
    represents (Z.of_nat (length ops)) log' d' (foldl op_spec alog_empty ops) ∧
    filename_prefix log' = prefix ∧ others_same prefix d d'.
Proof.
  intros Hp Hd Hlen Hok. assert (Hdir : dir_ok prefix d []).
  { split; [by intros f ?%not_elem_of_nil|]. intros name Hs Ht. by apply Hd in Ht. }
  assert (Hids : ids_ok 1 []) by done.
  destruct (seglog_open_nil collect prefix max_size 1 d [] [] Hp Hids Hdir) as (d0 & log & Hopen & Hlog & Hpre & _ & _).
  assert (d0 = d) as ->.
  { revert Hopen. unfold seglog_open, io_bind. cbn [is_nil Z.eqb xorb].
    rewrite (scan_root_dir_spec prefix 1 d []) by done. cbn. by intros [= ->]. }
  destruct (run_refines 0 log d alog_empty ops) as (d' & log' & Hrun & Hrep & Hpre' & Hoth); [|lia|lia|done|].
  { by apply represents_empty. }
  exists log, d', log'. rewrite Hpre in *. by split_and!.
Qed.

(** ** Crashes *)

Lemma scan_segments_app {A} (process_record : Z → list u8 → A → outcome SegError A) l1 l2 self a d :
  scan_segments process_record (l1 ++ l2) self a d =
  (let* (self, a) := scan_segments process_record l1 self a in scan_segments process_record l2 self a) d.
Proof.
  revert self a d. induction l1 as [|i l1 IH]; intros self a d; [done|]. simpl. unfold io_bind at 1 3.
  unfold io_bind at 1. destruct (scan_segment process_record i self a d) as [d1 [[self1 a1]|e|]]; [|done..]. apply IH.
Qed.

(** What can be left of a header when the bytes of an append reached the disk in part. *)
Definition torn_header (torn : list u8) : Prop :=
  0 < length torn < HEADER_SIZE ∨ ∃ m, HEADER_SIZE ≤ m ∧ torn = replicate m x00.

Lemma read_short r pre torn :
  at_bytes r pre torn → 0 < length torn < HEADER_SIZE → read_header r = Err ShortFile.
Proof.
  intros [H1 H2 H3 H4 H5] Hlen. unfold read_header, read_n. rewrite H3, H4, H1, H2.
  rewrite (proj2 (Nat.leb_gt _ _)) by (rewrite length_app; lia).
  by rewrite (proj2 (Nat.leb_gt _ _)) by (rewrite length_app; lia).
Qed.

Lemma scan_torn_header {A} (process_record : Z → list u8 → A → outcome SegError A) fuel index self a r pre torn min max last :
  at_bytes r pre torn → torn_header torn → (0 < last < 2 ^ 64 - 1)%Z →
  ∃ e, scan_loop process_record (S fuel) index self a r min max (Some last) = Err e.
Proof.
  intros Hat [Hlen|(m & Hm & ->)] Hlast.
  { exists ShortFile. cbn [scan_loop]. by rewrite (read_short r pre torn). }
  assert (Hz : replicate m x00 = header_of (0%Z, []) ++ replicate (m - HEADER_SIZE) x00).
  { change (header_of (0%Z, [])) with (replicate HEADER_SIZE x00). rewrite <-replicate_add. f_equal. lia. }
  rewrite Hz in Hat. destruct (read_header_at r pre (0%Z, []) _ ltac:(by split) Hat) as (r1 & Hr & _).
  exists IdsNotOrdered. cbn [scan_loop]. rewrite Hr. cbn [obind].
  unfold header_of. rewrite record_id_spec by done. cbn [or_panic obind fst]. unfold id_next.
  rewrite (proj2 (Z.ltb_lt _ _)) by lia. cbn [or_panic obind]. by rewrite (proj2 (Z.eqb_neq _ _)) by lia.
Qed.

Lemma files_from_app_l end_ n a b : files_from end_ n (a ++ b) → Forall whole a → files_from end_ n a.
Proof.
  revert n. induction a as [|f a IH]; intros n; [done|]. intros (H1 & H2 & H3 & H4 & H5) [Hf Ha]%Forall_cons_1.
  split_and!; [done|done|done|right; apply Hf|by apply IH].
Qed.

Section torn.
Context (log : SegmentedLog) (d : fs) (fi : list sfile) (f : sfile) (n start end_ : Z) (torn : list u8).
Hypothesis Hlog : log_ok log d (fi ++ [f]).
Hypothesis Hids : ids_from n (all_records (fi ++ [f])).
Hypothesis Hstart : (0 < n ≤ start)%Z ∧ (start ≤ end_ < 2 ^ 64 - 1)%Z.
Hypothesis Hend : end_live log = end_.
Hypothesis Htorn : torn_header torn.

(** The head segment with the torn header, and the directory that has it. *)
Definition torn_file : sfile := {| sf_id := sf_id f; sf_records := sf_records f; sf_torn := torn |}.
Definition torn_dir : fs := <[segment_format (filename_prefix log) (sf_id f) := file_bytes f ++ torn]> d.

Lemma torn_dir_ok : dir_ok (filename_prefix log) torn_dir (fi ++ [torn_file]).
Proof.
  destruct (lo_ids _ _ _ Hlog) as [i Hi].
  apply (dir_ok_replace _ i d (fi ++ [f])); [apply Hlog|done|done|done| |apply Hlog].
  pose proof (lo_whole _ _ _ Hlog) as [_ [[Ht _] _]%Forall_cons_1]%Forall_app.
  unfold file_bytes. simpl. by rewrite Ht, app_nil_r.
Qed.

Lemma scan_torn_file si ei self read :
  Forall (λ rc : record, live_index start end_ n si ei (length fi) rc.1) (sf_records f) →
  rec_state start end_ n (n + Z.of_nat (length (all_records fi))) si ei self →
  ∃ e, scan_loop collect (scan_fuel (file_bytes torn_file)) (length fi) self read
    (SegmentFileReader_new (file_bytes torn_file) (Some (length (file_bytes torn_file)))) None None None = Err e.
Proof.
  intros Hix Hst. pose proof Hids as Hids'. rewrite all_records_app in Hids'. apply ids_from_app in Hids' as [_ Hf].
  simpl in Hf. rewrite app_nil_r in Hf. set (m := (n + Z.of_nat (length (all_records fi)))%Z) in *.
  pose proof (lo_fits _ _ _ Hlog) as Hok. rewrite all_records_app in Hok. apply Forall_app in Hok as [_ Hok].
  simpl in Hok. rewrite app_nil_r in Hok.
  pose proof (lo_whole _ _ _ Hlog) as [_ [[_ Hne] _]%Forall_cons_1]%Forall_app.
  destruct (scan_loop_records collect start end_ n si ei ltac:(lia) ltac:(lia) (sf_records f) (length fi) m self
    (SegmentFileReader_new (file_bytes torn_file) (Some (length (file_bytes torn_file)))) [] torn None None)
    as (self1 & r1 & _ & _ & Hat & Hloop); try done; [lia|by left|].
  assert (∃ k, scan_fuel (file_bytes torn_file) = length (sf_records f) + S k) as [k ->].
  { exists (S (length (file_bytes torn_file) / RECORD_ALIGNMENT) - length (sf_records f)). unfold scan_fuel.
    assert (length (sf_records f) ≤ length (file_bytes torn_file) / RECORD_ALIGNMENT); [|lia].
    apply Nat.div_le_lower_bound; [done|]. unfold file_bytes. rewrite length_app. simpl sf_records.
    pose proof (segment_bytes_length (sf_records f)). lia. }
  rewrite Hloop, process_collect. cbn [obind]. rewrite (last_id_from m) by done.
  apply (scan_torn_header collect k _ _ _ _ _ _ _ _ _ Hat Htorn).
  pose proof (log_end_ids _ _ _ n Hlog ltac:(by destruct fi) Hids) as Hl. rewrite Hend in Hl.
  rewrite all_records_app, length_app in Hl. simpl in Hl. rewrite app_nil_r in Hl.
  destruct (sf_records f); [done|]. simpl in *. lia.
Qed.

Lemma open_torn max_size : ∃ e,
  seglog_open collect (filename_prefix log) max_size start end_ [] torn_dir = (torn_dir, Err e).
Proof.
  destruct (lo_ids _ _ _ Hlog) as [i Hi]. set (prefix := filename_prefix log).
  pose proof (lo_whole _ _ _ Hlog) as [Hw _]%Forall_app. pose proof (lo_prefix _ _ _ Hlog) as Hp.
  assert (Hi' : ids_ok i (fi ++ [torn_file])).
  { destruct Hi as (Hs & ? & Hb). apply seg_ids_from_app in Hs as [H1 [H2 _]]. 
    split_and!; [|done|by rewrite length_app in *]. apply seg_ids_from_app. by split_and!. }
  pose proof (log_end_ids _ _ _ n Hlog ltac:(by destruct fi) Hids) as Hl. rewrite Hend in Hl.
  destruct (find_file _ _ start Hids ltac:(lia)) as (si & f1 & Hsi & Hin1).
  destruct (find_file _ _ end_ Hids ltac:(lia)) as (ei & f2 & Hei & Hin2).
  assert (Hix : ∀ j g rc, (fi ++ [f]) !! j = Some g → rc ∈ sf_records g → live_index start end_ n si ei j rc.1).
  { intros j g rc Hj Hrc. assert (Hin : rc.1 ∈ (sf_records g).*1) by (by apply list_elem_of_fmap_2).
    split; intros E; rewrite ?Z.max_l in E by lia; rewrite E in Hin; apply Nat.le_antisymm;
      (eapply file_index; [exact Hids|eassumption|eassumption|eassumption|eassumption|lia]). }
  set (self0 := {| candidates := candidate_of prefix <$> (fi ++ [torn_file]); rec_start_live := start;
    rec_end_live := end_; live_segment_start := None; live_segment_end := None |}).
  destruct (scan_segments_spec collect start end_ n si ei ltac:(lia) ltac:(lia) prefix torn_dir fi []
    [candidate_of prefix torn_file] n self0) as (self1 & n1 & after & Hst & _ & Hn1 & Hc & Hf2 & Hrun).
  - apply (files_from_app_l _ _ _ [f]); [|done]. by eapply log_files_from.
  - done.
  - intros g Hg. apply (do_has _ _ _ torn_dir_ok). set_solver.
  - intros j g rc Hj Hrc. apply (Hix j g); [by apply lookup_app_l_Some|done].
  - split; simpl; [done|done| |]; by rewrite (proj2 (Z.ltb_ge _ _)) by lia.
  - subst self0. simpl. by rewrite fmap_app.
  - rewrite Hn1 in Hst by (eapply Forall_impl; [exact Hw|]; by intros ? [? _]).
    destruct (scan_torn_file si ei self1 (live_records start end_ (all_records fi))) as [e He]; [|done|].
    { apply Forall_forall. intros rc Hrc. apply (Hix (length fi) f); [|done].
      by rewrite lookup_app_r, Nat.sub_diag by lia. }
    exists e. unfold seglog_open, is_nil. rewrite !(proj2 (Z.eqb_neq _ 0)) by lia. cbn [xorb].
    unfold io_bind at 1. rewrite (scan_root_dir_spec prefix i _ _ Hp Hi' torn_dir_ok). fold self0.
    unfold io_bind at 1. rewrite length_fmap, length_app, seq_app, scan_segments_app.
    unfold io_bind at 1. cbn [length] in Hrun. rewrite Hrun, process_collect. cbn [obind app Nat.add length seq scan_segments].
    unfold io_bind at 1, scan_segment. unfold io_bind at 1, io_lift at 1.
    rewrite Hc. cbn [app]. rewrite (Forall2_length _ _ _ Hf2), lookup_app_r, Nat.sub_diag by lia.
    cbn [lookup list_lookup or_panic]. unfold io_bind at 1, file_open. cbn [candidate_of seg_path].
    pose proof (do_has _ _ _ torn_dir_ok torn_file) as Hfile. fold prefix in Hfile.
    rewrite Hfile by set_solver. unfold io_bind, io_lift.
    rewrite <-(Forall2_length _ _ _ Hf2), He. done.
Qed.
End torn.

(** ** Correctness *)

(** C9: The segmented log refines the abstract log.  From a directory without files of
    the log, whose prefix is not empty, let fewer than 2^32 appends, prunings at both ends and reopenings be run for
    which [ops_ok] holds: a payload is at most [MAX_RECORD_PAYLOAD_SIZE], 1 GiB, and an id
    given to a pruning is zero, which removes everything, or in the live range, unless the
    log is empty.  Then every operation succeeds, appended records get consecutive ids, and
    reopening the log reads exactly the live records, in order; the live range of the log is
    the abstract one, and the other files of the directory are not touched. *)
Theorem seglog_refinement prefix max_size d ops :
  prefix ≠ [] → (∀ name, is_Some (d !! name) → take (length prefix) name ≠ prefix) →
  (Z.of_nat (length ops) < 2 ^ 32)%Z → ops_ok alog_empty ops →
  let al := foldl op_spec alog_empty ops in
  ∃ log d' log', seglog_open collect prefix max_size 0 0 [] d = (d, Ok (log, [])) ∧
    log_run log ops d = (d', Ok (log', ops_seen alog_empty ops)) ∧
    live_range log' = (al_start al, al_end al) ∧ others_same prefix d d'.
Proof.
  intros Hp Hd Hlen Hok al.
  destruct (run_from_empty prefix max_size d ops Hp Hd Hlen Hok) as (log & d' & log' & H1 & H2 & Hrep & _ & Hoth).
  exists log, d', log'. split_and!; [done|done| |done].
  destruct Hrep as (files & _ & Hst & Hend & _). unfold live_range. by rewrite Hst, Hend.
Qed.

Lemma max_payload : MAX_RECORD_PAYLOAD_SIZE = (2 ^ 30)%Z.
Proof. done. Qed.

(** Appends to two segments, prunings at both ends, and reopenings: a page is more than
    the maximum size of a segment, so every record starts one. *)
Definition example_prefix : list u8 := [x72; x6c].
Definition example_ops : list log_op :=
  [OAppend [x01]; OAppend [x02; x03]; OAppend []; OReopen; OPruneOldest 2; OAppend [x04]; OPruneRecent 3; OReopen].

Lemma seglog_refinement_witness :
  ∃ log d' log', seglog_open collect example_prefix 64 0 0 [] ∅ = (∅, Ok (log, [])) ∧
    log_run log example_ops ∅ = (d', Ok (log', [[(1%Z, [x01])]; [(2%Z, [x02; x03])]; [(3%Z, [])];
      [(1%Z, [x01]); (2%Z, [x02; x03]); (3%Z, [])]; []; [(4%Z, [x04])]; []; [(2%Z, [x02; x03]); (3%Z, [])]])) ∧
    live_range log' = (2, 3)%Z ∧ others_same example_prefix ∅ d'.
Proof.
  apply (seglog_refinement example_prefix 64 ∅ example_ops); [done| |done|].
  - intros name [? H]. by rewrite lookup_empty in H.
  - simpl. rewrite !max_payload. lia.
Defined.

(** C14: Recovery after a crash.  The segment files hold the records from [r0] on; after
    the live ones there can be whole records of an append that was not committed, more
    segments, and a torn record with a complete header at the end of the last file.
    Opening the log with the committed live range reads exactly the live records, and
    gives a log that represents them, on which all operations work again. *)
Theorem seglog_recovery prefix max_size i d files start end_ r0 k :
  prefix ≠ [] → ids_ok i files → dir_ok prefix d files → files_from end_ r0 files →
  Forall (λ f, sf_records f ≠ []) (removelast files) → (0 < r0 ≤ start)%Z → (start ≤ end_)%Z →
  (end_ < r0 + Z.of_nat (length (all_records files)))%Z → (end_ ≤ k)%Z → (head_id files ≤ k)%Z →
  let read := live_records start end_ (all_records files) in
  ∃ d' log, seglog_open collect prefix max_size start end_ [] d = (d', Ok (log, read)) ∧
    represents k log d' {| al_start := start; al_end := end_; al_records := read |} ∧ others_same prefix d d'.
Proof.
  intros Hp Hids Hdir Hff Hne Hr0 Hse Hend Hk Hhead read.
  destruct (seglog_open_spec collect prefix max_size i d files start end_ r0 [] read) as
    (d' & log & files' & Hrun & Hlog & Hst & He & Hpre & Hmax & Hkept & _ & Hhead' & Hoth); try done;
    [lia..|by rewrite process_collect|].
  exists d', log. split_and!; [done| |done]. exists files'. simpl. split_and!; try done; [|lia].
  intros _. destruct (lo_records _ _ _ Hlog) as (n & Hn0 & Hn). exists n. split_and!; [done|done| |done].
  destruct (files_from_records _ _ _ Hff) as [Hall _].
  enough (n ≤ Z.max start r0)%Z by lia.
  eapply (live_first_le r0 n _ _ start end_); [done|done|lia..|done].
Qed.

(** Two segments: the record 2 is live, the records 3 and 4 are not, and 4 is torn. *)
Definition example_files : list sfile :=
  [{| sf_id := 7; sf_records := [(1%Z, [x01]); (2%Z, [x02; x03])]; sf_torn := [] |};
   {| sf_id := 8; sf_records := [(3%Z, [])]; sf_torn := take 14 (record_bytes (4%Z, [x05; x06; x07])) |}].

Definition dir_of (prefix : list u8) (files : list sfile) : fs :=
  list_to_map ((λ f, (segment_format prefix (sf_id f), file_bytes f)) <$> files).

Lemma dir_of_ok prefix i files : prefix ≠ [] → ids_ok i files → dir_ok prefix (dir_of prefix files) files.
Proof.
  intros Hp Hids. split.
  - intros f Hf. apply elem_of_list_to_map_1.
    + rewrite <-list_fmap_compose. apply NoDup_fmap_2_strong.
      * intros x y Hx Hy E. destruct (decide (sf_id x = sf_id y)) as [Eid|Hne].
        { destruct Hids as (Hs & _). by apply (seg_ids_inj i files). }
        destruct (format_apart prefix i files x y Hp Hids Hx Hy); [congruence|done].
      * destruct Hids as (Hs & _). by eapply seg_ids_nodup_files.
    + apply list_elem_of_fmap. by exists f.
  - intros name [c Hc%elem_of_list_to_map_2] _. apply list_elem_of_fmap in Hc as (f & E & Hf).
    exists f. split; [done|]. by apply (f_equal fst) in E.
Qed.

Lemma seglog_recovery_witness :
  let read := [(2%Z, [x02; x03])] in
  ∃ d' log, seglog_open collect example_prefix 64 2 2 [] (dir_of example_prefix example_files) = (d', Ok (log, read)) ∧
    represents 8 log d' {| al_start := 2; al_end := 2; al_records := read |} ∧ others_same example_prefix (dir_of example_prefix example_files) d'.
Proof.
  apply (seglog_recovery example_prefix 64 7 (dir_of example_prefix example_files) example_files 2 2 1 8); try done.
  - by apply (dir_of_ok _ 7).
  - assert (Forall record_ok (all_records example_files)) as Hok by (by repeat (apply Forall_cons_2; [by split|])).
    unfold example_files in Hok. rewrite all_records_cons in Hok. apply Forall_app in Hok as [Hok1 Hok2].
    split_and!; [done|done|by left|by right|]. split_and!; [done|done| |by left|done].
    right. exists (4%Z, [x05; x06; x07]), 14. split_and!; try done. unfold HEADER_SIZE. lia.
  - by apply Forall_singleton.
Defined.

(** C37: An append that is interrupted before its header is complete makes the log
    unreadable.  When one to eleven bytes of the header reached the head segment, or when
    the segment grew by a page whose bytes did not reach the disk and read as
    zeros, opening the log with its live range fails, although all live records are
    intact and the torn bytes follow the last of them. *)
Theorem seglog_torn_header prefix max_size d ops torn :
  prefix ≠ [] → (∀ name, is_Some (d !! name) → take (length prefix) name ≠ prefix) →
  (Z.of_nat (length ops) < 2 ^ 32)%Z → ops_ok alog_empty ops →
  let al := foldl op_spec alog_empty ops in
  al_end al ≠ 0%Z → torn_header torn →
  ∃ log d' log' path content e, seglog_open collect prefix max_size 0 0 [] d = (d, Ok (log, [])) ∧
    log_run log ops d = (d', Ok (log', ops_seen alog_empty ops)) ∧
    d' !! path = Some content ∧ sw_path <$> head_segment_writer log' = Some path ∧
    let crashed := <[path := content ++ torn]> d' in
    seglog_open collect prefix max_size (al_start al) (al_end al) [] crashed = (crashed, Err e).
Proof.
  intros Hp Hd Hlen Hok al Hnz Htorn.
  destruct (run_from_empty prefix max_size d ops Hp Hd Hlen Hok) as (log & d' & log' & H1 & H2 & Hrep & Hpre & _).
  destruct Hrep as (files & Hlog & Hst & Hend & _ & Hlive & Hk & _). fold al in Hst, Hend, Hlive, Hk.
  destruct files as [|f fi _] using rev_ind.
  { by rewrite <-Hend, (proj1 (log_end_nil _ _ _ Hlog) eq_refl) in Hnz. }
  destruct (Hlive ltac:(by destruct fi)) as (n & Hids & Hn & Hle).
  destruct (open_torn log' d' fi f n (al_start al) (al_end al) torn Hlog Hids ltac:(lia) Hend Htorn max_size) as [e He].
  exists log, d', log', (segment_format prefix (sf_id f)), (file_bytes f), e. split_and!; [done|done|..].
  - rewrite <-Hpre. apply (do_has _ _ _ (lo_dir _ _ _ Hlog)). set_solver.
  - by rewrite (lo_writer _ _ _ Hlog), last_snoc, Hpre.
  - unfold torn_dir in He. by rewrite Hpre in He.
Qed.

Lemma seglog_torn_header_witness :
  ∃ log d' log' path content e, seglog_open collect example_prefix 64 0 0 [] ∅ = (∅, Ok (log, [])) ∧
    log_run log [OAppend [x01]] ∅ = (d', Ok (log', [[(1%Z, [x01])]])) ∧
    d' !! path = Some content ∧ sw_path <$> head_segment_writer log' = Some path ∧
    let crashed := <[path := content ++ [x02; x00]]> d' in
    seglog_open collect example_prefix 64 1 1 [] crashed = (crashed, Err e).
Proof.
  apply (seglog_torn_header example_prefix 64 ∅ [OAppend [x01]] [x02; x00]); [done| |done| |done|].
  - intros name [? H]. by rewrite lookup_empty in H.
  - simpl. rewrite max_payload. lia.
  - left. unfold HEADER_SIZE. simpl. lia.
Defined.
