(* ===== verification/Rollback.v ===== *)
(** * The rollback log and the store

    Models [nomt/src/rollback/mod.rs], the order of a sync in [nomt/src/store/sync.rs],
    opening the store in [nomt/src/store/mod.rs], and [Nomt::rollback] and the commits of
    [nomt/src/lib.rs] as far as they concern the rollback log.

    The b-tree of values is an interface: what the store relies on is that a sync leaves
    the tree of the current manifest intact and makes the new tree reachable from the
    manifest to be written.  A process can crash before and after the manifest is
    written; what is left is the directory, the manifest and the pages of the tree. *)

From S2P Require Import Prelude Trie PageId Delta Overlay Meta Seglog SeglogFiles SeglogCorrect.

#[local] Open Scope nat_scope.

Abbreviation values := (gmap KeyPath (list u8)).

(** ** The log in memory *)

Record InMemory := { im_log : list (Z * Delta); pending_truncate : option Z }.

Definition InMemory_new : InMemory := {| im_log := []; pending_truncate := None |}.

Definition push_recent (self : InMemory) (record_id : Z) (delta : Delta) : InMemory :=
  {| im_log := im_log self ++ [(record_id, delta)]; pending_truncate := pending_truncate self |}.

Definition pop_recent (self : InMemory) : option (Z * Delta) * InMemory :=
  (last (im_log self), {| im_log := removelast (im_log self); pending_truncate := pending_truncate self |}).

Definition pop_oldest (self : InMemory) : option (Z * Delta) * InMemory :=
  (head (im_log self), {| im_log := tail (im_log self); pending_truncate := pending_truncate self |}).

Definition total_len (self : InMemory) : nat := length (im_log self).

Record Rollback := { in_memory : InMemory; seglog : SegmentedLog; max_rollback_log_len : nat }.

Definition with_memory (self : Rollback) (m : InMemory) : Rollback :=
  {| in_memory := m; seglog := seglog self; max_rollback_log_len := max_rollback_log_len self |}.
Definition with_seglog (self : Rollback) (s : SegmentedLog) : Rollback :=
  {| in_memory := in_memory self; seglog := s; max_rollback_log_len := max_rollback_log_len self |}.

Record WriteoutData := {
  wd_start_live : Z;
  wd_end_live : Z;
  prune_to_new_start_live : option Z;
  prune_to_new_end_live : option Z;
}.

Definition log_prefix : list u8 := [x72; x6f; x6c; x6c; x62; x61; x63; x6b].

Section rollback.
(** The maximum size of a segment, 64 MiB in the program, and the order in which the
    entries of a hash map are visited. *)
Context (MAX_SEGMENT_SIZE : nat).
Context (iter : gmap KeyPath (option (list u8)) → list (KeyPath * option (list u8))).

(** What [read] does with a record. *)
Definition on_record (record_id : Z) (payload : list u8) (m : InMemory) : outcome SegError InMemory :=
  match decode_delta (Cursor_new payload) with
  | Ok (delta, _) => Ok (push_recent m record_id delta)
  | Err _ => Err BadRecord
  | Panic => Panic
  end.

Definition rollback_read (max_len : nat) (start_active end_active : Z) : io Rollback :=
  let* (log, m) := seglog_open on_record log_prefix MAX_SEGMENT_SIZE start_active end_active InMemory_new in
  io_ret {| in_memory := m; seglog := log; max_rollback_log_len := max_len |}.

Definition rollback_commit (self : Rollback) (delta : Delta) : io Rollback :=
  let delta_bytes := encode_entries (iter (priors delta)) in
  let* (record_id, log) := append (seglog self) delta_bytes in
  io_ret (with_memory (with_seglog self log) (push_recent (in_memory self) record_id delta)).

(** The loop of [truncate]. *)
Fixpoint truncate_loop (n : nat) (m : InMemory) (traceback : gmap KeyPath (option (list u8)))
    (earliest : option Z) : option (InMemory * gmap KeyPath (option (list u8)) * option Z) :=
  match n with
  | 0 => Some (m, traceback, earliest)
  | S n' =>
      let '(popped, m) := pop_recent m in
      let? (record_id, delta) := popped in
      let traceback := foldl (λ t kv, <[kv.1 := kv.2]> t) traceback (iter (priors delta)) in
      truncate_loop n' m traceback (Some record_id)
  end.

Definition truncate (self : Rollback) (n : nat) :
    option (option (gmap KeyPath (option (list u8))) * Rollback) :=
  let? _ := oassert (0 <? n) in
  if total_len (in_memory self) <? n then Some (None, self)
  else
    let? (m, traceback, earliest) := truncate_loop n (in_memory self) ∅ None in
    let? earliest_record_id := earliest in
    let? new_end_live := id_prev earliest_record_id in
    Some (Some traceback, with_memory self {| im_log := im_log m; pending_truncate := Some new_end_live |}).

Definition writeout_start (self : Rollback) : option (WriteoutData * Rollback) :=
  let '(start_live, end_live) := live_range (seglog self) in
  match pending_truncate (in_memory self) with
  | Some pending =>
      Some ({| wd_start_live := Z.min start_live pending; wd_end_live := pending;
               prune_to_new_start_live := None; prune_to_new_end_live := Some pending |},
            with_memory self {| im_log := im_log (in_memory self); pending_truncate := None |})
  | None =>
      let? (prune_to, m) :=
        if max_rollback_log_len self <? total_len (in_memory self) then
          let '(popped, m) := pop_oldest (in_memory self) in
          let? (record_id, _) := popped in
          let? next := id_next record_id in
          Some (Some next, m)
        else Some (None, in_memory self) in
      Some ({| wd_start_live := start_live; wd_end_live := end_live;
               prune_to_new_start_live := prune_to; prune_to_new_end_live := None |},
            with_memory self m)
  end.

Definition writeout_end (self : Rollback) (new_start_live new_end_live : option Z) : io Rollback :=
  let* log := match new_start_live with Some s => prune_oldest (seglog self) s | None => io_ret (seglog self) end in
  let* log := match new_end_live with Some e => prune_recent log e | None => io_ret log end in
  io_ret (with_seglog self log).

(** ** The delta of a session *)

(** [ReverseDeltaBuilder::finalize]: [tentative] are the priors the worker has loaded
    when it was joined, and [load] is what it loads afterwards. *)
Fixpoint finalize_loop (actuals : list (KeyPath * KeyReadWrite)) (tentative final : gmap KeyPath (option (list u8)))
    (lookups : list KeyPath) : gmap KeyPath (option (list u8)) * list KeyPath :=
  match actuals with
  | [] => (final, lookups)
  | (path, read_write) :: actuals =>
      match read_write with
      | Read _ => finalize_loop actuals tentative final lookups
      | Write _ =>
          match tentative !! path with
          | Some value => finalize_loop actuals (delete path tentative) (<[path := value]> final) lookups
          | None => finalize_loop actuals tentative final (lookups ++ [path])
          end
      | ReadThenWrite prior _ => finalize_loop actuals tentative (<[path := prior]> final) lookups
      end
  end.

Definition finalize (load : KeyPath → option (list u8)) (tentative : gmap KeyPath (option (list u8)))
    (actuals : list (KeyPath * KeyReadWrite)) : Delta :=
  let '(final_priors, lookups) := finalize_loop actuals tentative ∅ [] in
  let fresh_priors := foldl (λ m k, <[k := load k]> m) ∅ lookups in
  {| priors := foldl (λ m kv, <[kv.1 := kv.2]> m) final_priors (map_to_list fresh_priors) |}.
End rollback.

(** ** Restoring values *)

(** The values with the prior values of a delta put back. *)
Definition restore (p : gmap KeyPath (option (list u8))) (s : values) : values :=
  merge (λ prior v, match prior with Some o => o | None => v end) p s.

Lemma lookup_restore p s k : restore p s !! k = match p !! k with Some o => o | None => s !! k end.
Proof. unfold restore. rewrite lookup_merge. unfold diag_None. by destruct (p !! k), (s !! k). Qed.

Lemma restore_empty s : restore ∅ s = s.
Proof. apply map_eq. intros k. by rewrite lookup_restore, lookup_empty. Qed.

Lemma restore_union p q s : restore (p ∪ q) s = restore p (restore q s).
Proof.
  apply map_eq. intros k. rewrite !lookup_restore, lookup_union. by destruct (p !! k), (q !! k).
Qed.

(** The transaction of a session, applied to the values. *)
Definition apply_change (s : values) (kv : KeyPath * ValueChange) : values :=
  match as_option kv.2 with Some v => <[kv.1 := v]> s | None => delete kv.1 s end.
Definition apply_tx (tx : list (KeyPath * ValueChange)) (s : values) : values := foldl apply_change s tx.

Lemma apply_tx_other tx s k : k ∉ tx.*1 → apply_tx tx s !! k = s !! k.
Proof.
  unfold apply_tx. revert s. induction tx as [|[k' c] tx IH]; intros s; [done|].
  rewrite fmap_cons, not_elem_of_cons. intros [Hne Hk]. simpl. rewrite IH by done. unfold apply_change. simpl in *.
  destruct (as_option c); [by rewrite lookup_insert_ne by congruence|by rewrite lookup_delete_ne by congruence].
Qed.

Lemma apply_tx_in tx s k c : NoDup tx.*1 → (k, c) ∈ tx → apply_tx tx s !! k = as_option c.
Proof.
  unfold apply_tx. revert s. induction tx as [|[k' c'] tx IH]; intros s; [by intros _ ?%not_elem_of_nil|].
  rewrite fmap_cons, NoDup_cons. intros [Hk' Hnd] [[= -> ->]|Hin]%elem_of_cons; [|by apply IH].
  cbn [foldl]. fold (apply_tx tx (apply_change s (k', c'))). rewrite apply_tx_other by done.
  unfold apply_change. simpl. destruct (as_option c'); [apply lookup_insert_eq|apply lookup_delete_eq].
Qed.

(** ** The delta of a session *)

(** The keys a session writes. *)
Definition written (actuals : list (KeyPath * KeyReadWrite)) : list KeyPath :=
  omap (λ a : KeyPath * KeyReadWrite, match a.2 with Read _ => None | _ => Some a.1 end) actuals.

(** The priors the user says to have read are those of the store. *)
Definition reads_ok (load : KeyPath → option (list u8)) (actuals : list (KeyPath * KeyReadWrite)) : Prop :=
  Forall (λ a : KeyPath * KeyReadWrite,
    match a.2 with ReadThenWrite prior _ => prior = load a.1 | _ => True end) actuals.

(** The priors are the values of the given keys. *)
Definition loaded (load : KeyPath → option (list u8)) (m : gmap KeyPath (option (list u8))) : Prop :=
  ∀ k v, m !! k = Some v → v = load k.

Lemma loaded_insert load m k : loaded load m → loaded load (<[k := load k]> m).
Proof. intros Hm k' v. rewrite lookup_insert_Some. naive_solver. Qed.

Lemma loaded_delete load m k : loaded load m → loaded load (delete k m).
Proof. intros Hm k' v [_ Hk]%lookup_delete_Some. by apply Hm. Qed.

Lemma finalize_loop_spec load actuals tentative final lookups :
  loaded load tentative → loaded load final → reads_ok load actuals →
  ∃ final' lookups', finalize_loop actuals tentative final lookups = (final', lookups') ∧ loaded load final' ∧
    ∀ k, (is_Some (final' !! k) ∨ k ∈ lookups') ↔ (is_Some (final !! k) ∨ k ∈ lookups ∨ k ∈ written actuals).
Proof.
  revert tentative final lookups. induction actuals as [|[path rw] actuals IH]; intros tentative final lookups Ht Hf Hr.
  { exists final, lookups. split_and!; [done|done|]. intros k. simpl. set_solver. }
  apply Forall_cons_1 in Hr as [Hp Hr]. unfold written. simpl. destruct rw as [v|v|prior v]; simpl in *.
  - destruct (IH tentative final lookups Ht Hf Hr) as (f' & l' & Hrun & Hl & Hk). by exists f', l'.
  - destruct (tentative !! path) as [value|] eqn:E.
    + rewrite (Ht _ _ E). destruct (IH (delete path tentative) (<[path := load path]> final) lookups)
        as (f' & l' & Hrun & Hl & Hk); [by apply loaded_delete|by apply loaded_insert|done|].
      exists f', l'. split_and!; [done|done|]. intros k. rewrite Hk, elem_of_cons, lookup_insert_is_Some'. naive_solver.
    + destruct (IH tentative final (lookups ++ [path]) Ht Hf Hr) as (f' & l' & Hrun & Hl & Hk).
      exists f', l'. split_and!; [done|done|]. intros k. rewrite Hk, elem_of_cons, elem_of_app, list_elem_of_singleton. naive_solver.
  - subst prior. destruct (IH tentative (<[path := load path]> final) lookups)
      as (f' & l' & Hrun & Hl & Hk); [done|by apply loaded_insert|done|].
    exists f', l'. split_and!; [done|done|]. intros k. rewrite Hk, elem_of_cons, lookup_insert_is_Some'. naive_solver.
Qed.

(** Inserting the entries of a map, in whatever order. *)
Lemma foldl_insert_map {V} (l : list (KeyPath * V)) (m0 m : gmap KeyPath V) :
  l ≡ₚ map_to_list m → foldl (λ t kv, <[kv.1 := kv.2]> t) m0 l = m ∪ m0.
Proof.
  intros Hl. assert (Hnd : NoDup l.*1) by (rewrite Hl; apply NoDup_fst_map_to_list).
  rewrite <-(list_to_map_to_list m), <-(list_to_map_proper _ _ Hnd Hl). clear Hl. revert m0.
  induction l as [|[k v] l IH]; intros m0; simpl; [by rewrite (left_id_L ∅ (∪))|].
  apply NoDup_cons in Hnd as [Hk Hnd]. rewrite (IH Hnd), <-insert_union_r, insert_union_l; [done|].
  by apply not_elem_of_list_to_map_1.
Qed.

Lemma load_all (load : KeyPath → option (list u8)) (lookups : list KeyPath) (m : gmap KeyPath (option (list u8))) k :
  foldl (λ m k, <[k := load k]> m) m lookups !! k =
  if bool_decide (k ∈ lookups) then Some (load k) else m !! k.
Proof.
  revert m. induction lookups as [|k' lookups IH]; intros m; [done|]. simpl. rewrite IH.
  destruct (decide (k ∈ lookups)); [by rewrite !bool_decide_eq_true_2 by set_solver|].
  rewrite (bool_decide_eq_false_2 (k ∈ lookups)) by done. destruct (decide (k = k')) as [->|Hne].
  - by rewrite lookup_insert_eq, bool_decide_eq_true_2 by set_solver.
  - by rewrite lookup_insert_ne, bool_decide_eq_false_2 by set_solver.
Qed.

Lemma finalize_spec load tentative actuals :
  loaded load tentative → reads_ok load actuals →
  ∀ k, priors (finalize load tentative actuals) !! k =
    if bool_decide (k ∈ written actuals) then Some (load k) else None.
Proof.
  intros Ht Hr k. destruct (finalize_loop_spec load actuals tentative ∅ []) as (final & lookups & Hrun & Hl & Hk);
    [done|by intros ? ? ?%lookup_empty_Some|done|].
  unfold finalize. rewrite Hrun. simpl. rewrite (foldl_insert_map _ _ _ (reflexivity _)), lookup_union, load_all, lookup_empty.
  assert (Hw : k ∈ written actuals ↔ is_Some (final !! k) ∨ k ∈ lookups).
  { rewrite Hk, lookup_empty. split; [by right; right|].
    intros [[? [=]]|[?%not_elem_of_nil|?]]; [done|done]. }
  clear Hk. destruct (decide (k ∈ lookups)).
  { rewrite !bool_decide_eq_true_2; [by destruct (final !! k)|by apply Hw; right|done]. }
  rewrite (bool_decide_eq_false_2 (k ∈ lookups)) by done. rewrite (left_id_L None (∪)).
  destruct (final !! k) as [v|] eqn:E.
  - rewrite bool_decide_eq_true_2; [by rewrite (Hl _ _ E)|]. apply Hw. left. by exists v.
  - rewrite bool_decide_eq_false_2; [done|]. rewrite Hw. by intros [[? [=]]|?].
Qed.

Section transactions.
Context (hash_value : list u8 → ValueHash).

Lemma as_change v : as_option (change_from_option hash_value v) = v.
Proof. destruct v as [v|]; [|done]. simpl. unfold change_insert. by destruct (_ <? _). Qed.

Lemma value_tx_keys actuals : (value_tx hash_value actuals).*1 = written actuals.
Proof.
  unfold value_tx, written. induction actuals as [|[k [v|v|p v]] actuals IH]; [done|exact IH|..]; by apply (f_equal (cons k)).
Qed.

(** The delta of a session undoes it. *)
Lemma restore_delta (s : values) tentative actuals :
  loaded (λ k, s !! k) tentative → reads_ok (λ k, s !! k) actuals →
  restore (priors (finalize (λ k, s !! k) tentative actuals)) (apply_tx (value_tx hash_value actuals) s) = s.
Proof.
  intros Ht Hr. apply map_eq. intros k. rewrite lookup_restore, finalize_spec by done.
  destruct (decide (k ∈ written actuals)); [by rewrite bool_decide_eq_true_2|].
  rewrite bool_decide_eq_false_2 by done. apply apply_tx_other. by rewrite value_tx_keys.
Qed.

(** The session that puts the values of a traceback back. *)
Definition traceback_actuals (traceback : gmap KeyPath (option (list u8))) : list (KeyPath * KeyReadWrite) :=
  (λ kv : KeyPath * option (list u8), (kv.1, Write kv.2)) <$> ord_entries traceback.

Lemma sorted_actuals_ok (l : list (KeyPath * option (list u8))) :
  StronglySorted (λ a b : KeyPath * option (list u8), bytes_lt a.1 b.1) l →
  actuals_sorted ((λ kv : KeyPath * option (list u8), (kv.1, Write kv.2)) <$> l) = true.
Proof.
  induction 1 as [|a l Hl IH Ha]; [done|]. destruct l as [|b l]; [done|].
  apply Forall_cons_1 in Ha as [Ha _]. apply andb_true_intro. split; [|exact IH].
  unfold bytes_ltb. simpl. by rewrite Ha.
Qed.

Lemma traceback_sorted traceback : actuals_sorted (traceback_actuals traceback) = true.
Proof. apply sorted_actuals_ok, ord_entries_sorted. Qed.

Lemma traceback_tx traceback :
  value_tx hash_value (traceback_actuals traceback) =
  (λ kv : KeyPath * option (list u8), (kv.1, change_from_option hash_value kv.2)) <$> ord_entries traceback.
Proof.
  unfold traceback_actuals, value_tx. induction (ord_entries traceback) as [|kv l IH]; [done|].
  by apply (f_equal (cons (kv.1, change_from_option hash_value kv.2))).
Qed.

Lemma apply_traceback traceback s :
  apply_tx (value_tx hash_value (traceback_actuals traceback)) s = restore traceback s.
Proof.
  rewrite traceback_tx. apply map_eq. intros k. rewrite lookup_restore.
  set (tx := _ <$> ord_entries traceback).
  assert (Hkeys : tx.*1 = (ord_entries traceback).*1) by (unfold tx; by rewrite <-list_fmap_compose).
  destruct (traceback !! k) as [o|] eqn:E.
  - rewrite (apply_tx_in tx s k (change_from_option hash_value o)); [apply as_change| |].
    + rewrite Hkeys. unfold ord_entries. rewrite merge_sort_Permutation. apply NoDup_fst_map_to_list.
    + apply list_elem_of_fmap. exists (k, o). split; [done|]. by apply elem_of_ord_entries.
  - apply apply_tx_other. rewrite Hkeys. intros ([k' o] & Ek & Hin)%list_elem_of_fmap. simpl in Ek. subst k'.
    apply elem_of_ord_entries in Hin. congruence.
Qed.
End transactions.

(** ** Truncating the log *)

(** The deltas lead from each state back to the one before; the newest come first. *)
Fixpoint undoes (deltas : list Delta) (states : list values) : Prop :=
  match deltas, states with
  | [], [_] => True
  | d :: deltas, s :: ((s' :: _) as states) => restore (priors d) s = s' ∧ undoes deltas states
  | _, _ => False
  end.

Lemma undoes_length deltas states : undoes deltas states → length states = S (length deltas).
Proof.
  revert states. induction deltas as [|d deltas IH]; intros [|s [|s' states]]; try done.
  intros [_ H]. simpl. by rewrite <-(IH _ H).
Qed.

Lemma undoes_drop n deltas states : n ≤ length deltas → undoes deltas states → undoes (drop n deltas) (drop n states).
Proof.
  revert deltas states. induction n as [|n IH]; intros deltas states Hn Hu; [by rewrite !drop_0|].
  destruct deltas as [|d deltas]; [simpl in Hn; lia|]. destruct states as [|s [|s' states]]; try done.
  destruct Hu as [_ Hu]. apply IH; [simpl in Hn; lia|done].
Qed.

(** The deltas with their record ids. *)
Definition numbered (deltas : list Delta) : list (Z * Delta) := imap (λ i d, (Z.of_nat i + 1, d)%Z) deltas.

Lemma numbered_snoc deltas d : numbered (deltas ++ [d]) = numbered deltas ++ [(Z.of_nat (length deltas) + 1, d)%Z].
Proof. unfold numbered. rewrite imap_app. simpl. by rewrite Nat.add_0_r. Qed.

Lemma length_numbered deltas : length (numbered deltas) = length deltas.
Proof. apply length_imap. Qed.

Lemma numbered_take n deltas : numbered (take n deltas) = take n (numbered deltas).
Proof.
  revert deltas. induction n as [|n IH] using nat_ind; [done|]. intros deltas.
  destruct (decide (n < length deltas)) as [Hn|Hn].
  - destruct (lookup_lt_is_Some_2 _ _ Hn) as [d Hd]. rewrite (take_S_r _ _ _ Hd), numbered_snoc, IH.
    rewrite length_take_le by lia. erewrite take_S_r; [done|]. unfold numbered.
    rewrite list_lookup_imap, Hd. done.
  - rewrite !take_ge; [done|rewrite length_numbered; lia|lia].
Qed.

Section truncation.
Context (iter : gmap KeyPath (option (list u8)) → list (KeyPath * option (list u8))).
Hypothesis iter_perm : ∀ m, iter m ≡ₚ map_to_list m.

Lemma truncate_loop_spec n m t earliest deltas states a s0 :
  im_log m = drop a (numbered deltas) → a + n ≤ length deltas →
  undoes (rev deltas) states → head states = Some (restore t s0) →
  ∃ traceback, truncate_loop iter n m t earliest =
      Some ({| im_log := drop a (numbered (take (length deltas - n) deltas)); pending_truncate := pending_truncate m |},
            traceback, match n with 0 => earliest | _ => Some (Z.of_nat (length deltas - n) + 1)%Z end) ∧
    states !! n = Some (restore traceback s0).
Proof.
  revert m t earliest deltas states. induction n as [|n IH]; intros m t earliest deltas states Hm Ha Hu Hs.
  { exists t. rewrite Nat.sub_0_r, take_ge, <-Hm by lia. split; [by destruct m|]. by rewrite head_lookup in Hs. }
  destruct deltas as [|d deltas _] using rev_ind; [simpl in Ha; lia|].
  rewrite length_app in Ha. simpl in Ha. rewrite rev_app_distr in Hu. cbn [rev app] in Hu.
  destruct states as [|s [|s' states]]; [done|done|]. destruct Hu as [Hd Hu]. injection Hs as ->.
  rewrite numbered_snoc, drop_app_le in Hm by (rewrite length_numbered; lia).
  cbn [truncate_loop pop_recent]. rewrite Hm, last_snoc, removelast_last. cbn [mbind option_bind].
  rewrite (foldl_insert_map _ _ _ (iter_perm _)).
  destruct (IH {| im_log := drop a (numbered deltas); pending_truncate := pending_truncate m |}
    (priors d ∪ t) (Some (Z.of_nat (length deltas) + 1)%Z) deltas (s' :: states)) as (tb & Hrun & Htb);
    [done|lia|done|by rewrite restore_union, Hd|].
  exists tb. rewrite length_app. cbn [length]. replace (length deltas + 1 - S n) with (length deltas - n) by lia.
  rewrite take_app_le by lia. split; [|done]. rewrite Hrun. destruct n; [|done]. by rewrite Nat.sub_0_r.
Qed.

Lemma truncate_spec (rb : Rollback) n deltas states a s0 :
  im_log (in_memory rb) = drop a (numbered deltas) → 0 < n → a + n ≤ length deltas →
  undoes (rev deltas) states → head states = Some s0 →
  ∃ traceback, truncate iter rb n = Some (Some traceback,
      with_memory rb {| im_log := drop a (numbered (take (length deltas - n) deltas));
                        pending_truncate := Some (Z.of_nat (length deltas - n)) |}) ∧
    states !! n = Some (restore traceback s0).
Proof.
  intros Hm Hn Ha Hu Hs.
  destruct (truncate_loop_spec n (in_memory rb) ∅ None deltas states a s0) as (tb & Hrun & Htb); try done.
  { by rewrite restore_empty. }
  exists tb. split; [|done]. unfold truncate. rewrite (proj2 (Nat.ltb_lt 0 n)) by done. cbn [oassert mbind option_bind].
  unfold total_len. rewrite (proj2 (Nat.ltb_ge _ _)) by (rewrite Hm, length_drop, length_numbered; lia).
  rewrite Hrun. cbn [mbind option_bind]. destruct n; [lia|]. cbn [mbind option_bind]. unfold id_prev.
  rewrite (proj2 (Z.eqb_neq _ _)) by lia. cbn [mbind option_bind im_log]. by rewrite Z.add_simpl_r.
Qed.
End truncation.
