(* ===== verification/Store.v ===== *)
(** * The store: opening, syncing, committing and rolling back

    Models the parts of [nomt/src/store/mod.rs], [nomt/src/store/sync.rs] and
    [nomt/src/lib.rs] that bring the manifest, the rollback log and the tree of values
    together, and shows that rolling back restores the values of an earlier commit,
    across restarts and crashes. *)

From S2P Require Import Prelude Trie PageId Delta Overlay Meta Seglog SeglogFiles SeglogCorrect Rollback.

#[local] Open Scope nat_scope.

(** ** The tree of values *)

(** The fields of the manifest from which the tree is opened. *)
Record BeatreeMeta := { bm_ln_freelist_pn : Z; bm_ln_bump : Z; bm_bbn_freelist_pn : Z; bm_bbn_bump : Z }.

(** What the store uses of the tree: the values that the pages of the tree hold, and a
    sync, which writes pages and says what the manifest is to hold. *)
Class Beatree := {
  bt_disk : Type;
  bt_values : bt_disk → BeatreeMeta → values;
  bt_sync : bt_disk → BeatreeMeta → list (KeyPath * ValueChange) → bt_disk * BeatreeMeta;
}.

(** What the tree promises: a sync applies the changes, and the pages it writes are not
    those of the tree it started from. *)
Class BeatreeLaws `{Beatree} : Prop := {
  bt_sync_new d m tx d' m' : bt_sync d m tx = (d', m') → bt_values d' m' = apply_tx tx (bt_values d m);
  bt_sync_old d m tx d' m' : bt_sync d m tx = (d', m') → bt_values d' m = bt_values d m;
  bt_sync_u32 d m tx d' m' : bt_sync d m tx = (d', m') →
    is_u32 (bm_ln_freelist_pn m') ∧ is_u32 (bm_ln_bump m') ∧
    is_u32 (bm_bbn_freelist_pn m') ∧ is_u32 (bm_bbn_bump m');
}.

Inductive PanicOnSyncMode := PostWal | PostMeta.

Inductive StoreError :=
| MetaIo
| MetaInvalid (errors : list MetaError)
| LogFailed (e : SegError)
| NotEnoughLogged.

Section store.
Context `{Beatree}.
Context (MAX_SEGMENT_SIZE : nat).
Context (iter : gmap KeyPath (option (list u8)) → list (KeyPath * option (list u8))).
Context (hash_value : list u8 → ValueHash).

(** What is on the disk. *)
Record Disk := { dk_dir : fs; dk_meta : list u8; dk_tree : bt_disk }.

(** The store in memory. *)
Record Store := {
  st_rollback : Rollback;
  st_sync_seqn : Z;
  st_num_pages : Z;
  st_seed : list u8;
  st_tree : BeatreeMeta;
}.

Definition log_outcome {A} (r : outcome SegError A) : outcome StoreError A :=
  match r with Ok a => Ok a | Err e => Err (LogFailed e) | Panic => Panic end.

Definition with_dir (k : Disk) (d : fs) : Disk := {| dk_dir := d; dk_meta := dk_meta k; dk_tree := dk_tree k |}.

Definition store_open (max_len : nat) (k : Disk) : Disk * outcome StoreError Store :=
  match meta_read (dk_meta k) with
  | Err _ => (k, Err MetaIo)
  | Panic => (k, Panic)
  | Ok meta =>
      match meta_validate meta with
      | Err errors => (k, Err (MetaInvalid errors))
      | Panic => (k, Panic)
      | Ok _ =>
          let '(d, r) := rollback_read MAX_SEGMENT_SIZE max_len
                           (rollback_start_live meta) (rollback_end_live meta) (dk_dir k) in
          (with_dir k d,
           let! rollback := log_outcome r in
           Ok {| st_rollback := rollback; st_sync_seqn := sync_seqn meta;
                 st_num_pages := bitbox_num_pages meta; st_seed := bitbox_seed meta;
                 st_tree := {| bm_ln_freelist_pn := ln_freelist_pn meta; bm_ln_bump := ln_bump meta;
                               bm_bbn_freelist_pn := bbn_freelist_pn meta; bm_bbn_bump := bbn_bump meta |} |})
      end
  end.

(** The manifest of a sync. *)
Definition new_meta (st : Store) (seqn : Z) (tree : BeatreeMeta) (wd : WriteoutData) : Meta :=
  {| magic := MAGIC; version := VERSION; ln_freelist_pn := bm_ln_freelist_pn tree;
     ln_bump := bm_ln_bump tree; bbn_freelist_pn := bm_bbn_freelist_pn tree;
     bbn_bump := bm_bbn_bump tree; sync_seqn := seqn; bitbox_num_pages := st_num_pages st;
     bitbox_seed := st_seed st; rollback_start_live := wd_start_live wd; rollback_end_live := wd_end_live wd |}.

(** A sync that panics stands for a crash: what is on the disk stays.  The crash points are
    the two of [PanicOnSyncMode], before and after the manifest is written; the sync of the
    page table is modelled in [BitboxSync.v], and the flag that poisons a store whose sync
    has failed is left out.  [pool_page] is the page the manifest is built in. *)
Definition store_sync (panic_on_sync : option PanicOnSyncMode) (pool_page : list u8)
    (tx : list (KeyPath * ValueChange)) (st : Store) (k : Disk) : Disk * outcome StoreError Store :=
  if (2 ^ 32 <=? st_sync_seqn st + 1)%Z then (k, Panic)
  else
    let seqn := (st_sync_seqn st + 1)%Z in
    let '(tree, tree_meta) := bt_sync (dk_tree k) (st_tree st) tx in
    let k := {| dk_dir := dk_dir k; dk_meta := dk_meta k; dk_tree := tree |} in
    match writeout_start (st_rollback st) with
    | None => (k, Panic)
    | Some (wd, rollback) =>
        match panic_on_sync with
        | Some PostWal => (k, Panic)
        | _ =>
            match meta_write pool_page (new_meta st seqn tree_meta wd) (dk_meta k) with
            | None => (k, Panic)
            | Some file =>
                let k := {| dk_dir := dk_dir k; dk_meta := file; dk_tree := dk_tree k |} in
                match panic_on_sync with
                | Some PostMeta => (k, Panic)
                | _ =>
                    let '(d, r) := writeout_end rollback (prune_to_new_start_live wd)
                                     (prune_to_new_end_live wd) (dk_dir k) in
                    (with_dir k d,
                     let! rollback := log_outcome r in
                     Ok {| st_rollback := rollback; st_sync_seqn := seqn; st_num_pages := st_num_pages st;
                           st_seed := st_seed st; st_tree := tree_meta |})
                end
            end
        end
    end.

Definition with_rollback (st : Store) (rb : Rollback) : Store :=
  {| st_rollback := rb; st_sync_seqn := st_sync_seqn st; st_num_pages := st_num_pages st;
     st_seed := st_seed st; st_tree := st_tree st |}.

(** What a look-up finds. *)
Definition load_value (st : Store) (k : Disk) (key : KeyPath) : option (list u8) :=
  bt_values (dk_tree k) (st_tree st) !! key.

(** Finishing a session and committing it: [preserved] are the keys for which the session
    asked to preserve the prior value. *)
Definition session_commit (mode : option PanicOnSyncMode) (pool_page : list u8) (preserved : list KeyPath)
    (actuals : list (KeyPath * KeyReadWrite)) (st : Store) (k : Disk) : Disk * outcome StoreError Store :=
  if negb (actuals_sorted actuals) then (k, Panic)
  else
    let load := load_value st k in
    let tentative := foldl (λ m key, <[key := load key]> m) ∅ preserved in
    let delta := finalize load tentative actuals in
    match rollback_commit iter (st_rollback st) delta (dk_dir k) with
    | (d, Ok rb) => store_sync mode pool_page (value_tx hash_value actuals) (with_rollback st rb) (with_dir k d)
    | (d, Err e) => (with_dir k d, Err (LogFailed e))
    | (d, Panic) => (with_dir k d, Panic)
    end.

Definition nomt_rollback (mode : option PanicOnSyncMode) (pool_page : list u8) (n : nat) (st : Store) (k : Disk) :
    Disk * outcome StoreError Store :=
  if n =? 0 then (k, Ok st)
  else
    match truncate iter (st_rollback st) n with
    | None => (k, Panic)
    | Some (None, _) => (k, Err NotEnoughLogged)
    | Some (Some traceback, rb) =>
        let actuals := traceback_actuals traceback in
        if negb (actuals_sorted actuals) then (k, Panic)
        else store_sync mode pool_page (value_tx hash_value actuals) (with_rollback st rb) k
    end.

(** ** Runs *)

Inductive op :=
| OpCommit (mode : option PanicOnSyncMode) (pool_page : list u8) (preserved : list KeyPath)
    (actuals : list (KeyPath * KeyReadWrite))
| OpRollback (mode : option PanicOnSyncMode) (pool_page : list u8) (n : nat)
| OpReopen.

(** An operation that does not crash returns, and after a crash the store is opened. *)
Definition reopen (max_len : nat) (k : Disk) : option (Store * Disk) :=
  match store_open max_len k with (k, Ok st) => Some (st, k) | _ => None end.

Definition after_op (max_len : nat) (mode : option PanicOnSyncMode) (r : Disk * outcome StoreError Store) :
    option (Store * Disk) :=
  match r, mode with
  | (k, Ok st), None => Some (st, k)
  | (k, Panic), Some _ => reopen max_len k
  | _, _ => None
  end.

Definition exec (max_len : nat) (o : op) (s : Store * Disk) : option (Store * Disk) :=
  let '(st, k) := s in
  match o with
  | OpCommit mode page preserved actuals => after_op max_len mode (session_commit mode page preserved actuals st k)
  | OpRollback mode page n => after_op max_len mode (nomt_rollback mode page n st k)
  | OpReopen => reopen max_len k
  end.

Fixpoint run (max_len : nat) (ops : list op) (s : Store * Disk) : option (Store * Disk) :=
  match ops with
  | [] => Some s
  | o :: ops => s ← exec max_len o s; run max_len ops s
  end.
End store.
