(* ===== verification/StoreCorrect.v ===== *)
(** * Correctness of the store with its rollback log

    The invariant that ties the values of the tree, the manifest, the deltas in memory
    and the records on disk together, and that every operation, restart and crash keeps
    it. *)

From S2P Require Import Prelude Trie PageId Delta Overlay Meta Seglog SeglogFiles SeglogCorrect Rollback.
From S2P Require Import Store.

#[local] Open Scope nat_scope.

Section correct.
Context `{BeatreeLaws}.
Context (MAX_SEGMENT_SIZE : nat).
Context (iter : gmap KeyPath (option (list u8)) → list (KeyPath * option (list u8))).
Hypothesis iter_perm : ∀ m, iter m ≡ₚ map_to_list m.
Context (hash_value : list u8 → ValueHash).
Context (max_len : nat).

(** ** The records of the log *)

Definition delta_bytes (d : Delta) : list u8 := encode_entries (iter (priors d)).

Definition log_records (deltas : list Delta) : list record :=
  prod_map id delta_bytes <$> numbered deltas.

(** A delta that can be stored: its keys have 32 bytes and its record is not too large. *)
Definition delta_fits (d : Delta) : Prop :=
  map_Forall (λ k _, length k = 32) (priors d) ∧
  (Z.of_nat (length (delta_bytes d)) ≤ MAX_RECORD_PAYLOAD_SIZE)%Z.

Lemma concat_fmap_length {A B} (f : A → list B) l : length (concat (f <$> l)) = sum_list (length ∘ f <$> l).
Proof. induction l as [|x l IH]; [done|]. simpl. rewrite length_app. f_equal. exact IH. Qed.

Lemma sum_list_elem n l : n ∈ l → n ≤ sum_list l.
Proof. induction 1; simpl; lia. Qed.

Lemma sum_list_length c l : Forall (λ n, c ≤ n) l → c * length l ≤ sum_list l.
Proof. induction 1; simpl; lia. Qed.

(** The record of a delta has room for the keys and the values. *)
Lemma encode_entries_size entries :
  Forall (λ e : KeyPath * option (list u8), length e.1 = 32) entries →
  length entries ≤ length (encode_entries entries) ∧
  ∀ k v, (k, Some v) ∈ entries → length v ≤ length (encode_entries entries).
Proof.
  intros Hk. unfold encode_entries, encode_erase, encode_reinstate. rewrite !length_app.
  split.
  - pose proof (Permutation_length (split_entries entries)) as Hl. rewrite length_app, !length_fmap in Hl.
    assert (length (to_erase entries) ≤ length (concat (to_erase entries))) as H1.
    { rewrite <-(list_fmap_id (to_erase entries)) at 2. rewrite concat_fmap_length.
      pose proof (sum_list_length 1 (length ∘ id <$> to_erase entries)) as H2. rewrite length_fmap in H2.
      rewrite Nat.mul_1_l in H2. apply H2. apply Forall_fmap, Forall_forall. intros k Hin%to_erase_elem.
      rewrite Forall_forall in Hk. apply Hk in Hin. simpl in *. unfold id. lia. }
    assert (length (to_reinstate entries) ≤
      length (concat ((λ kv : KeyPath * list u8, kv.1 ++ u32_len kv.2 ++ kv.2) <$> to_reinstate entries))) as H2.
    { rewrite concat_fmap_length.
      match goal with |- _ ≤ sum_list (?f <$> _) =>
        pose proof (sum_list_length 1 (f <$> to_reinstate entries)) as H3 end.
      rewrite length_fmap, Nat.mul_1_l in H3. apply H3. apply Forall_fmap, Forall_true. intros kv. unfold compose.
      rewrite !length_app. unfold u32_len. rewrite length_to_le_bytes. lia. }
    lia.
  - intros k v Hin%to_reinstate_elem. apply (list_elem_of_fmap_2 (λ kv : KeyPath * list u8, kv.1 ++ u32_len kv.2 ++ kv.2)) in Hin.
    apply (list_elem_of_fmap_2 length), sum_list_elem in Hin. rewrite <-list_fmap_compose, <-concat_fmap_length in Hin.
    rewrite !length_app in Hin. cbn [fst snd] in Hin. lia.
Qed.

Lemma delta_fits_ok d : delta_fits d → delta_ok (iter (priors d)).
Proof.
  intros [Hk Hs]. assert (Hlen : Forall (λ e : KeyPath * option (list u8), length e.1 = 32) (iter (priors d))).
  { apply Forall_forall. intros [k o] Hin. rewrite iter_perm, elem_of_map_to_list in Hin. by eapply (Hk k). }
  destruct (encode_entries_size _ Hlen) as [H1 H2]. unfold delta_bytes in Hs.
  change MAX_RECORD_PAYLOAD_SIZE with (2 ^ 30)%Z in Hs.
  split; [unfold u32_sized, is_u32; lia|]. rewrite Forall_forall in Hlen |- *. intros [k [v|]] Hin; (split; [by apply Hlen|]); [|done].
  unfold u32_sized, is_u32. simpl. specialize (H2 _ _ Hin). lia.
Qed.

(** Reading the record of a delta. *)
Lemma on_record_spec id d m : delta_fits d → on_record id (delta_bytes d) m = Ok (push_recent m id d).
Proof.
  intros Hd. unfold on_record, delta_bytes.
  destruct (decode_encode_at (iter (priors d)) (Cursor_new (encode_entries (iter (priors d)))) [])
    as (r & -> & _); [by apply delta_fits_ok| | |].
  - rewrite iter_perm. apply NoDup_fst_map_to_list.
  - split; [simpl; lia|]. simpl. by rewrite app_nil_r.
  - do 2 f_equal. destruct d as [p]. f_equal. simpl.
    rewrite (list_to_map_proper _ (map_to_list p)); [apply list_to_map_to_list| |apply iter_perm].
    rewrite iter_perm. apply NoDup_fst_map_to_list.
Qed.

Lemma read_records (ds : list (Z * Delta)) m :
  Forall (λ x : Z * Delta, delta_fits x.2) ds →
  process_all on_record (prod_map id delta_bytes <$> ds) m =
    Ok {| im_log := im_log m ++ ds; pending_truncate := pending_truncate m |}.
Proof.
  intros Hds. revert m. induction Hds as [|[id d] ds Hd Hds IH]; intros m; simpl.
  { rewrite app_nil_r. by destruct m. }
  simpl in Hd. rewrite on_record_spec by done. simpl. rewrite IH. simpl. by rewrite <-app_assoc.
Qed.

Lemma length_log_records deltas : length (log_records deltas) = length deltas.
Proof. unfold log_records. by rewrite length_fmap, length_numbered. Qed.

Lemma log_records_snoc deltas d :
  log_records (deltas ++ [d]) = log_records deltas ++ [(Z.of_nat (length deltas) + 1, delta_bytes d)%Z].
Proof. unfold log_records. by rewrite numbered_snoc, fmap_app. Qed.

Lemma log_records_take n deltas : log_records (take n deltas) = take n (log_records deltas).
Proof. unfold log_records. by rewrite numbered_take, fmap_take. Qed.

Lemma log_records_ids deltas : ids_from 1 (log_records deltas).
Proof.
  induction deltas as [|d deltas IH] using rev_ind; [done|]. rewrite log_records_snoc.
  apply ids_from_app. split; [done|]. apply ids_from_cons. split; [|done]. rewrite length_log_records. simpl. lia.
Qed.

Lemma log_records_drop_ids m deltas :
  m ≤ length deltas → ids_from (Z.of_nat m + 1) (drop m (log_records deltas)).
Proof.
  intros Hm. pose proof (log_records_ids deltas) as Hids. rewrite <-(take_drop m (log_records deltas)) in Hids.
  apply ids_from_app in Hids as [_ Hids]. rewrite length_take_le in Hids by (by rewrite length_log_records).
  by rewrite Z.add_comm in Hids.
Qed.

(** The live ones among the records from [m] on. *)
Lemma live_log_records m deltas start (e : nat) :
  m ≤ e ≤ length deltas →
  live_records start (Z.of_nat e) (drop m (log_records deltas)) =
  prod_map id delta_bytes <$> drop (Z.to_nat (start - 1) `max` m) (numbered (take e deltas)).
Proof.
  intros Hm. rewrite (live_records_ids (Z.of_nat m + 1)) by (apply log_records_drop_ids; lia).
  replace (Z.to_nat (Z.of_nat e - (Z.of_nat m + 1) + 1)) with (e - m) by lia.
  rewrite take_drop_commute, drop_drop. replace (m + (e - m)) with e by lia.
  rewrite <-log_records_take. unfold log_records. rewrite fmap_drop. f_equal. f_equal. lia.
Qed.

Lemma records_up_to m deltas (e : nat) :
  m ≤ e ≤ length deltas →
  filter (λ rc : record, (rc.1 ≤ Z.of_nat e)%Z) (drop m (log_records deltas)) = drop m (log_records (take e deltas)).
Proof.
  intros Hm. rewrite (filter_ids_le (Z.of_nat m + 1)) by (apply log_records_drop_ids; lia).
  replace (Z.to_nat (Z.of_nat e - (Z.of_nat m + 1) + 1)) with (e - m) by lia.
  rewrite take_drop_commute, log_records_take. do 2 f_equal. lia.
Qed.

(** ** The invariant *)

(** The files of the log hold the records of the deltas from [m] on.  [cnt] bounds the
    ids in use. *)
Definition log_view (cnt : Z) (log : SegmentedLog) (dir : fs) (deltas : list Delta) (m : nat) : Prop :=
  ∃ files, log_ok log dir files ∧ filename_prefix log = log_prefix ∧
    all_records files = drop m (log_records deltas) ∧ (m < length deltas ∨ deltas = [] ∧ m = 0) ∧
    (head_id files ≤ cnt)%Z ∧ (Z.of_nat (length deltas) ≤ cnt)%Z ∧ Forall delta_fits deltas.

Definition meta_tree (meta : Meta) : BeatreeMeta :=
  {| bm_ln_freelist_pn := ln_freelist_pn meta; bm_ln_bump := ln_bump meta;
     bm_bbn_freelist_pn := bbn_freelist_pn meta; bm_bbn_bump := bbn_bump meta |}.

Definition meta_good (cnt : Z) (meta : Meta) (file : list u8) : Prop :=
  meta_read file = Ok meta ∧ meta_ok meta ∧ meta_validate meta = Ok () ∧ (sync_seqn meta ≤ cnt)%Z.

(** What is on the disk represents the history [h] of values, newest first, of which
    [depth] commits can be rolled back. *)
Definition disk_ok (h : list values) (depth : nat) (cnt : Z) (k : Disk) : Prop :=
  ∃ log deltas m meta e, log_view cnt log (dk_dir k) deltas m ∧ meta_good cnt meta (dk_meta k) ∧
    rollback_end_live meta = Z.of_nat e ∧ e ≤ length deltas ∧ undoes (rev (take e deltas)) h ∧
    (e ≠ 0 → m < e ∧ (rollback_start_live meta ≤ Z.of_nat e)%Z) ∧
    depth ≤ e - (Z.to_nat (rollback_start_live meta - 1) `max` m) ∧
    head h = Some (bt_values (dk_tree k) (meta_tree meta)).

(** So does the store in memory. *)
Definition sys_ok (h : list values) (depth : nat) (cnt : Z) (st : Store) (k : Disk) : Prop :=
  ∃ deltas m a meta, let rb := st_rollback st in
    log_view cnt (seglog rb) (dk_dir k) deltas m ∧ meta_good cnt meta (dk_meta k) ∧
    rollback_end_live meta = Z.of_nat (length deltas) ∧ undoes (rev deltas) h ∧
    in_memory rb = {| im_log := drop a (numbered deltas); pending_truncate := None |} ∧
    m ≤ a ∧ depth ≤ length deltas - a ∧ max_rollback_log_len rb = max_len ∧
    (start_live (seglog rb) ≤ Z.of_nat a + 1)%Z ∧ (rollback_start_live meta ≤ Z.of_nat a + 1)%Z ∧
    (a < length deltas ∨ deltas = [] ∧ a = 0) ∧
    st_sync_seqn st = sync_seqn meta ∧ st_num_pages st = bitbox_num_pages meta ∧
    st_seed st = bitbox_seed meta ∧ st_tree st = meta_tree meta ∧
    head h = Some (bt_values (dk_tree k) (meta_tree meta)).

Lemma validate_range meta :
  meta_validate meta = Ok () → (rollback_start_live meta = 0 ↔ rollback_end_live meta = 0)%Z.
Proof.
  unfold meta_validate. destruct (bool_decide _); [|done]. simpl.
  destruct (version meta <? 1)%Z; [done|]. destruct (VERSION <? version meta)%Z; [done|]. simpl.
  destruct (Z.eqb_spec (rollback_start_live meta) 0), (Z.eqb_spec (rollback_end_live meta) 0); simpl; naive_solver.
Qed.

(** ** Opening *)

Lemma log_view_end cnt log dir deltas m :
  log_view cnt log dir deltas m → end_live log = Z.of_nat (length deltas).
Proof.
  intros (files & Hlog & _ & Hrec & Hm & _). destruct (decide (files = [])) as [->|Hne].
  - destruct Hm as [Hm|[-> _]]; [|by rewrite (lo_end _ _ _ Hlog)].
    apply (f_equal length) in Hrec. rewrite length_drop, length_log_records in Hrec. simpl in Hrec. lia.
  - assert (Hids : ids_from (Z.of_nat m + 1) (all_records files)).
    { rewrite Hrec. apply log_records_drop_ids. destruct Hm as [?|[-> _]]; [lia|].
      rewrite drop_ge in Hrec by (simpl; lia). pose proof (lo_whole _ _ _ Hlog) as Hw.
      destruct files as [|f files]; [done|]. apply Forall_cons_1 in Hw as [[_ Hf] _].
      by apply app_eq_nil in Hrec as [? _]. }
    rewrite (log_end_ids _ _ _ _ Hlog Hne Hids), Hrec, length_drop, length_log_records.
    destruct Hm as [Hm|[-> _]]; [lia|]. pose proof (lo_whole _ _ _ Hlog) as Hw.
    rewrite drop_ge in Hrec by (simpl; lia). destruct files as [|f files]; [done|].
    apply Forall_cons_1 in Hw as [[_ Hf] _]. by apply app_eq_nil in Hrec as [? _].
Qed.

(** The log that is opened when nothing is live. *)
Lemma log_view_nil cnt log dir : log_ok log dir [] → filename_prefix log = log_prefix → (0 ≤ cnt)%Z →
  log_view cnt log dir [] 0.
Proof. intros Hlog Hp Hc. exists []. split_and!; try done. by right. Qed.

Lemma rollback_read_nil cnt log dir deltas m :
  log_view cnt log dir deltas m →
  ∃ dir' log', rollback_read MAX_SEGMENT_SIZE max_len 0 0 dir =
      (dir', Ok {| in_memory := InMemory_new; seglog := log'; max_rollback_log_len := max_len |}) ∧
    log_ok log' dir' [] ∧ filename_prefix log' = log_prefix.
Proof.
  intros (files & Hlog & Hp & _). destruct (lo_ids _ _ _ Hlog) as [i Hids].
  pose proof (lo_dir _ _ _ Hlog) as Hdir. rewrite Hp in Hdir.
  destruct (seglog_open_nil on_record log_prefix MAX_SEGMENT_SIZE i dir files InMemory_new)
    as (dir' & log' & Hrun & Hlog' & Hp' & _); [done|done|done|].
  exists dir', log'. unfold rollback_read, io_bind. by rewrite Hrun.
Qed.

Lemma rollback_read_spec cnt log dir deltas m start e :
  log_view cnt log dir deltas m → m < e ≤ length deltas → (0 < start ≤ Z.of_nat e)%Z →
  let a := Z.to_nat (start - 1) `max` m in
  ∃ dir' log' m', rollback_read MAX_SEGMENT_SIZE max_len start (Z.of_nat e) dir =
      (dir', Ok {| in_memory := {| im_log := drop a (numbered (take e deltas)); pending_truncate := None |};
                   seglog := log'; max_rollback_log_len := max_len |}) ∧
    log_view cnt log' dir' (take e deltas) m' ∧ m' ≤ a ∧ start_live log' = start.
Proof.
  intros (files & Hlog & Hp & Hrec & Hm & Hhead & Hlen & Hfit) He Hstart a.
  assert (Hids : ids_from (Z.of_nat m + 1) (all_records files)).
  { rewrite Hrec. apply log_records_drop_ids. lia. }
  assert (Hl : length (all_records files) = length deltas - m) by (by rewrite Hrec, length_drop, length_log_records).
  destruct (lo_ids _ _ _ Hlog) as [i Hi]. pose proof (lo_dir _ _ _ Hlog) as Hdir. rewrite Hp in Hdir.
  pose proof (live_log_records m deltas start e ltac:(lia)) as Hlive. rewrite <-Hrec in Hlive. fold a in Hlive.
  assert (Hfit' : Forall (λ x : Z * Delta, delta_fits x.2) (drop a (numbered (take e deltas)))).
  { apply Forall_drop. rewrite numbered_take. apply Forall_take. apply Forall_forall. intros x Hx.
    unfold numbered in Hx. apply elem_of_lookup_imap in Hx as (j & d & -> & Hd). simpl.
    rewrite Forall_forall in Hfit. apply Hfit. by eapply list_elem_of_lookup_2. }
  destruct (seglog_open_spec on_record log_prefix MAX_SEGMENT_SIZE i dir files start (Z.of_nat e) (Z.of_nat m + 1)
    InMemory_new {| im_log := drop a (numbered (take e deltas)); pending_truncate := None |})
    as (dir' & log' & files' & Hrun & Hlog' & Hst & Hend & Hp' & _ & Hkept & (gone & Hgone) & Hhead' & _); try done.
  { by eapply log_files_from. }
  { pose proof (lo_whole _ _ _ Hlog) as Hw. apply Forall_forall. intros f Hf. rewrite Forall_forall in Hw.
    apply Hw. destruct files as [|g fi _] using rev_ind; [done|]. rewrite removelast_last in Hf. set_solver. }
  { lia. }
  { lia. }
  { rewrite Hlive, read_records by done. done. }
  rewrite Hrec, records_up_to in Hgone by lia.
  assert (Hg : all_records files' = drop (m + length gone) (log_records (take e deltas))).
  { by rewrite <-drop_drop, Hgone, drop_app_length. }
  assert (Hne : all_records files' ≠ []).
  { intros E. destruct (decide (files' = [])) as [->|Hne].
    - pose proof (proj1 (log_end_nil _ _ _ Hlog') eq_refl). lia.
    - pose proof (lo_whole _ _ _ Hlog') as Hw. destruct files' as [|f files']; [done|].
      apply Forall_cons_1 in Hw as [[_ Hf] _]. rewrite all_records_cons in E. by apply app_eq_nil in E as [? _]. }
  assert (Hm' : m + length gone < e).
  { apply Nat.nle_gt. intros Hge. apply Hne. rewrite Hg, drop_ge; [done|].
    rewrite length_log_records, length_take. lia. }
  exists dir', log', (m + length gone). split_and!; [| | |done].
  - unfold rollback_read, io_bind. by rewrite Hrun.
  - exists files'. split_and!; try done; [left; rewrite length_take; lia|lia|rewrite length_take; lia|by apply Forall_take].
  - assert (Hids' : ids_from (Z.of_nat (m + length gone) + 1) (all_records files')).
    { rewrite Hg. apply log_records_drop_ids. rewrite length_take. lia. }
    pose proof (live_first_le _ _ _ _ start (Z.of_nat e) Hids Hids' ltac:(lia) ltac:(lia) ltac:(lia) Hkept). lia.
Qed.

Lemma store_open_ok h depth cnt k :
  disk_ok h depth cnt k → (0 ≤ cnt)%Z →
  ∃ k' st, store_open MAX_SEGMENT_SIZE max_len k = (k', Ok st) ∧ sys_ok h depth cnt st k'.
Proof.
  intros (log & deltas & m & meta & e & Hlog & (Hread & Hok & Hval & Hseq) & Hend & He & Hu & Hrange & Hdepth & Hhead) Hc.
  unfold store_open. rewrite Hread, Hval, Hend. pose proof (validate_range _ Hval) as Hnil.
  destruct (decide (e = 0)) as [->|Hne].
  - destruct (rollback_read_nil _ _ _ _ _ Hlog) as (dir' & log' & Hrun & Hlog' & Hp').
    rewrite (proj2 Hnil) by done. change (Z.of_nat 0) with 0%Z. rewrite Hrun. eexists _, _. split; [reflexivity|].
    exists [], 0, 0, meta. cbn [st_rollback seglog dk_dir with_dir dk_meta in_memory max_rollback_log_len].
    pose proof (lo_nil _ _ _ Hlog' eq_refl). pose proof (proj2 Hnil Hend).
    split_and!; try (done || lia || (simpl; lia)); [by apply log_view_nil|by right].
  - destruct (Hrange Hne) as [Hm Hs].
    assert (Hs0 : (0 < rollback_start_live meta)%Z) by (pose proof (mo_start _ Hok) as [? _]; lia).
    destruct (rollback_read_spec _ _ _ _ _ (rollback_start_live meta) e Hlog) as (dir' & log' & m' & Hrun & Hlog' & Hm' & Hst);
      [lia|lia|]. rewrite Hrun. eexists _, _. split; [reflexivity|].
    exists (take e deltas), m', (Z.to_nat (rollback_start_live meta - 1) `max` m), meta.
    cbn [st_rollback seglog dk_dir with_dir dk_meta in_memory max_rollback_log_len].
    rewrite length_take_le by lia. split_and!; try done; lia.
Qed.

Lemma sys_disk_ok h depth cnt st k : sys_ok h depth cnt st k → disk_ok h depth cnt k.
Proof.
  intros (deltas & m & a & meta & Hlog & Hmeta & Hend & Hu & _ & Hma & Hdepth & _ & _ & Hs & Hlt & _ & _ & _ & _ & Hhead).
  exists (seglog (st_rollback st)), deltas, m, meta, (length deltas). rewrite take_ge by lia.
  split_and!; try done; [|lia]. intros Hne. destruct Hlt as [?|[-> _]]; [lia|done].
Qed.

Lemma reopen_ok h depth cnt st k :
  sys_ok h depth cnt st k → (0 ≤ cnt)%Z →
  ∃ s', exec MAX_SEGMENT_SIZE iter hash_value max_len OpReopen (st, k) = Some s' ∧ sys_ok h depth cnt s'.1 s'.2.
Proof.
  intros Hsys%sys_disk_ok Hc. destruct (store_open_ok _ _ _ _ Hsys Hc) as (k' & st' & Hrun & Hsys').
  exists (st', k'). split; [|done]. simpl. unfold reopen. by rewrite Hrun.
Qed.

(** ** Committing *)

Lemma log_view_nil_iff cnt log dir deltas m : log_view cnt log dir deltas m → start_live log = 0%Z ↔ deltas = [].
Proof.
  intros Hv. pose proof (log_view_end _ _ _ _ _ Hv) as Hend. destruct Hv as (files & Hlog & _).
  pose proof (log_end_nil _ _ _ Hlog) as Hnil. rewrite Hend in Hnil. split.
  - intros Hz. apply nil_length_inv. destruct (decide (files = [])) as [E|E]; [apply Hnil in E; lia|].
    apply (lo_start _ _ _ Hlog) in E. lia.
  - intros ->. apply (lo_nil _ _ _ Hlog). by apply Hnil.
Qed.

Lemma log_view_start cnt log dir deltas m : log_view cnt log dir deltas m → deltas ≠ [] → (0 < start_live log)%Z.
Proof.
  intros Hv Hne. pose proof (log_view_end _ _ _ _ _ Hv) as Hend. destruct Hv as (files & Hlog & _).
  apply (lo_start _ _ _ Hlog). intros E. apply (log_end_nil _ _ _ Hlog) in E. destruct deltas; [done|].
  simpl in Hend. lia.
Qed.

Lemma rollback_commit_spec cnt rb dir deltas m d :
  log_view cnt (seglog rb) dir deltas m → delta_fits d → (cnt + 1 < 2 ^ 32)%Z →
  ∃ dir' log', rollback_commit iter rb d dir =
      (dir', Ok (with_memory (with_seglog rb log')
                   (push_recent (in_memory rb) (Z.of_nat (length deltas) + 1) d))) ∧
    log_view (cnt + 1) log' dir' (deltas ++ [d]) m ∧
    start_live log' = if decide (deltas = []) then 1%Z else start_live (seglog rb).
Proof.
  intros Hv Hd Hc. pose proof (log_view_end _ _ _ _ _ Hv) as Hend. pose proof (log_view_nil_iff _ _ _ _ _ Hv) as Hnil.
  destruct Hv as (files & Hlog & Hp & Hrec & Hm & Hhead & Hlen & Hfit).
  destruct (append_spec (seglog rb) dir files (delta_bytes d))
    as (dir' & log' & files' & Hrun & Hlog' & Hall & Hst & _ & Hp' & _ & Hhead' & _).
  - done.
  - apply Hd.
  - lia.
  - unfold segment_id_left. lia.
  - rewrite Hend in *. cbn [fst] in *. exists dir', log'. split_and!.
    + unfold rollback_commit, io_bind. fold (delta_bytes d). by rewrite Hrun.
    + exists files'. rewrite length_app. cbn [length]. split_and!; try done; [congruence| | |lia|lia|].
      * rewrite Hall, Hrec, log_records_snoc, drop_app_le; [done|].
        rewrite length_log_records. destruct Hm as [?|[-> ->]]; simpl; lia.
      * left. destruct Hm as [?|[-> ->]]; simpl; lia.
      * apply Forall_app. by split; [|apply Forall_singleton].
    + rewrite Hst. unfold is_nil. destruct (decide (deltas = [])) as [->|Hne].
      * by rewrite (proj2 Hnil).
      * rewrite (proj2 (Z.eqb_neq _ _)); [done|]. by rewrite Hnil.
Qed.

(** The manifest of a sync. *)
Lemma new_meta_good cnt st meta page file tree wd :
  meta_ok meta → (sync_seqn meta ≤ cnt)%Z → (cnt + 1 < 2 ^ 32)%Z →
  st_sync_seqn st = sync_seqn meta → st_num_pages st = bitbox_num_pages meta → st_seed st = bitbox_seed meta →
  is_u32 (bm_ln_freelist_pn tree) ∧ is_u32 (bm_ln_bump tree) ∧
    is_u32 (bm_bbn_freelist_pn tree) ∧ is_u32 (bm_bbn_bump tree) →
  is_u64 (wd_start_live wd) → is_u64 (wd_end_live wd) → (wd_start_live wd = 0 ↔ wd_end_live wd = 0)%Z →
  length page = PAGE_SIZE →
  let meta' := new_meta st (st_sync_seqn st + 1) tree wd in
  ∃ file', meta_write page meta' file = Some file' ∧ meta_good (cnt + 1) meta' file' ∧
    meta_tree meta' = tree.
Proof.
  intros Hok Hseq Hc E1 E2 E3 (T1 & T2 & T3 & T4) Hs He Hnil Hpage meta'.
  assert (Hok' : meta_ok meta').
  { pose proof (mo_seqn _ Hok) as [? ?]. split; try done; subst meta'; simpl; rewrite ?E1, ?E2, ?E3; try apply Hok.
    unfold is_u32. lia. }
  destruct (meta_write_read meta' page file Hok' Hpage) as (file' & Hw & Hr & _).
  exists file'. split_and!; [done| |by destruct tree]. split_and!; [done|done| |].
  - unfold meta_validate. simpl.
    destruct (Z.eqb_spec (wd_start_live wd) 0), (Z.eqb_spec (wd_end_live wd) 0); simpl; naive_solver.
  - simpl. rewrite E1. lia.
Qed.

Lemma meta_good_mono cnt cnt' meta file : (cnt ≤ cnt')%Z → meta_good cnt meta file → meta_good cnt' meta file.
Proof. intros Hc (H1 & H2 & H3 & H4). split_and!; try done. lia. Qed.

Lemma log_view_mono cnt cnt' log dir deltas m :
  (cnt ≤ cnt')%Z → log_view cnt log dir deltas m → log_view cnt' log dir deltas m.
Proof. intros Hc (files & H1 & H2 & H3 & H4 & H5 & H6 & H7). exists files. split_and!; try done; lia. Qed.

(** The next operation starts from the log that an append left. *)
Definition appended_ok (cnt : Z) (rb : Rollback) (dir : fs) (deltas : list Delta) (m a : nat) : Prop :=
  log_view cnt (seglog rb) dir deltas m ∧ m ≤ a < length deltas ∧ max_rollback_log_len rb = max_len ∧
  in_memory rb = {| im_log := drop a (numbered deltas); pending_truncate := None |} ∧
  (start_live (seglog rb) ≤ Z.of_nat a + 1)%Z.

(** What the sync after an append will prune. *)
Definition to_prune (deltas : list Delta) (a : nat) : option Z :=
  if max_len <? length deltas - a then Some (Z.of_nat a + 2)%Z else None.

Lemma numbered_lookup deltas (i : nat) x : numbered deltas !! i = Some x → x.1 = (Z.of_nat i + 1)%Z.
Proof. unfold numbered. rewrite list_lookup_imap. by intros (d & _ & ->)%fmap_Some. Qed.

Lemma writeout_start_commit cnt rb dir deltas m a :
  appended_ok cnt rb dir deltas m a → (cnt < 2 ^ 32)%Z →
  ∃ rb', writeout_start rb =
      Some ({| wd_start_live := start_live (seglog rb); wd_end_live := Z.of_nat (length deltas);
               prune_to_new_start_live := to_prune deltas a; prune_to_new_end_live := None |}, rb') ∧
    seglog rb' = seglog rb ∧ max_rollback_log_len rb' = max_len ∧
    in_memory rb' = {| im_log := drop (if max_len <? length deltas - a then S a else a) (numbered deltas);
                       pending_truncate := None |}.
Proof.
  intros (Hv & Ha & Hmax & Hmem & Hst) Hc. pose proof (log_view_end _ _ _ _ _ Hv) as Hend.
  assert (Hlen : (Z.of_nat (length deltas) ≤ cnt)%Z) by (by destruct Hv as (? & _ & _ & _ & _ & _ & ? & _)).
  unfold writeout_start, live_range, to_prune. rewrite Hend, Hmem, Hmax. cbn [pending_truncate]. unfold total_len.
  cbn [im_log]. rewrite length_drop, length_numbered.
  destruct (max_len <? length deltas - a).
  - destruct (lookup_lt_is_Some_2 (numbered deltas) a) as [x Hx]; [rewrite length_numbered; lia|].
    cbn [pop_oldest im_log pending_truncate]. rewrite (drop_S _ _ _ Hx). destruct x as [id d].
    apply numbered_lookup in Hx. simpl in Hx. subst id. cbn [head tail mbind option_bind]. unfold id_next.
    rewrite (proj2 (Z.ltb_lt _ _)) by lia. cbn [mbind option_bind].
    replace (Z.of_nat a + 1 + 1)%Z with (Z.of_nat a + 2)%Z by lia. eexists. split; [reflexivity|]. done.
  - cbn [mbind option_bind]. eexists. split; [reflexivity|]. done.
Qed.

(** Pruning after the manifest was written. *)
Lemma writeout_end_commit cnt rb dir deltas m a rb' :
  appended_ok cnt rb dir deltas m a → 0 < max_len → seglog rb' = seglog rb →
  ∃ dir' log' m', writeout_end rb' (to_prune deltas a) None dir = (dir', Ok (with_seglog rb' log')) ∧
    let a' := if max_len <? length deltas - a then S a else a in
    log_view cnt log' dir' deltas m' ∧ m' ≤ a' < length deltas ∧ (start_live log' ≤ Z.of_nat a' + 1)%Z.
Proof.
  intros (Hv & Ha & _ & _ & Hst) Hmax Hlog'. unfold writeout_end, to_prune. rewrite Hlog'.
  destruct (Nat.ltb_spec max_len (length deltas - a)) as [Hlt|Hge].
  2: { exists dir, (seglog rb), m. split_and!; try done; lia. }
  pose proof (log_view_end _ _ _ _ _ Hv) as Hend. destruct Hv as (files & Hlog & Hp & Hrec & Hm & Hhead & Hlen & Hfit).
  assert (Hids : ids_from (Z.of_nat m + 1) (all_records files)) by (rewrite Hrec; apply log_records_drop_ids; lia).
  destruct (prune_oldest_spec (seglog rb) dir files (Z.of_nat a + 2)) as
    (dir' & log' & gone & kept & Hrun & Hlog2 & Hsplit & Hst' & Hend' & Hp' & _ & Hgone & _); try done.
  { intros E. apply (log_end_nil _ _ _ Hlog) in E. lia. } { lia. } { lia. }
  rewrite Hsplit, all_records_app in Hrec, Hids. apply ids_from_app in Hids as [Hig _].
  assert (Hg : m + length (all_records gone) ≤ S a).
  { destruct (decide (all_records gone = [])) as [->|Hne]; [simpl; lia|].
    assert (Z.of_nat m + Z.of_nat (length (all_records gone)) ∈ (all_records gone).*1)%Z as Hin.
    { apply (ids_from_elem _ _ _ Hig). destruct (all_records gone); [done|simpl; lia]. }
    apply list_elem_of_fmap in Hin as (rc & Hrc & Hin). rewrite Forall_forall in Hgone. specialize (Hgone _ Hin). lia. }
  exists dir', log', (m + length (all_records gone)). split_and!; [| |lia..].
  { unfold io_bind. by rewrite Hrun. }
  exists kept. split_and!; try done; [congruence|by rewrite <-drop_drop, <-Hrec, drop_app_length|left; lia|].
  revert Hhead. rewrite Hsplit. unfold head_id. rewrite last_app.
  destruct (last kept) eqn:E; [done|]. apply last_None in E. subst kept.
  pose proof (proj1 (log_end_nil _ _ _ Hlog2) eq_refl). lia.
Qed.

(** What a sync leaves, depending on where it crashes. *)
Definition sync_leaves (mode : option PanicOnSyncMode) (h h' : list values) (depth depth' : nat) (cnt : Z)
    (r : Disk * outcome StoreError Store) : Prop :=
  match mode with
  | None => ∃ k st, r = (k, Ok st) ∧ sys_ok h' depth' cnt st k
  | Some PostWal => ∃ k, r = (k, Panic) ∧ disk_ok h depth cnt k
  | Some PostMeta => ∃ k, r = (k, Panic) ∧ disk_ok h' depth' cnt k
  end.

(** The store in memory agrees with the manifest. *)
Definition agrees (st : Store) (meta : Meta) : Prop :=
  st_sync_seqn st = sync_seqn meta ∧ st_num_pages st = bitbox_num_pages meta ∧
  st_seed st = bitbox_seed meta ∧ st_tree st = meta_tree meta.

Lemma store_sync_commit cnt st k deltas d m a meta h depth tx mode page :
  let s := bt_values (dk_tree k) (meta_tree meta) in
  appended_ok (cnt + 1) (st_rollback st) (dk_dir k) (deltas ++ [d]) m a →
  meta_good cnt meta (dk_meta k) → agrees st meta → (cnt + 1 < 2 ^ 32)%Z → (mode = None → 0 < max_len) → length page = PAGE_SIZE →
  rollback_end_live meta = Z.of_nat (length deltas) → (rollback_start_live meta ≤ Z.of_nat a + 1)%Z →
  (a < length deltas ∨ deltas = [] ∧ a = 0) → (deltas ≠ [] → m < length deltas) → depth ≤ length deltas - a →
  head h = Some s → undoes (rev deltas) h → restore (priors d) (apply_tx tx s) = s →
  sync_leaves mode h (apply_tx tx s :: h) depth (S depth `min` max_len) (cnt + 1) (store_sync mode page tx st k).
Proof.
  intros s Happ Hmeta (E1 & E2 & E3 & E4) Hc Hmax Hpage Hend Hstart Ha Hm Hdepth Hhead Hu Hd.
  pose proof Happ as (Hv & Hma & _). rewrite length_app in Hma. cbn [length] in Hma.
  destruct Hmeta as (Hread & Hok & Hval & Hseq).
  assert (Hu' : undoes (rev (deltas ++ [d])) (apply_tx tx s :: h)).
  { rewrite rev_app_distr. destruct h as [|s0 h]; [done|]. injection Hhead as ->. by split. }
  assert (Hst : (0 < start_live (seglog (st_rollback st)))%Z) by (eapply log_view_start; [done|by destruct deltas]).
  destruct (writeout_start_commit _ _ _ _ _ _ Happ Hc) as (rb' & Hws & Hlog' & Hmax' & Hmem').
  rewrite length_app in Hws, Hmem'. cbn [length] in Hws, Hmem'.
  destruct (bt_sync (dk_tree k) (st_tree st) tx) as [tree' tm'] eqn:Hbt.
  pose proof (bt_sync_new _ _ _ _ _ Hbt) as Hnew. pose proof (bt_sync_old _ _ _ _ _ Hbt) as Hold.
  rewrite E4 in Hnew, Hold. fold s in Hnew, Hold.
  assert (Hst' : (start_live (seglog (st_rollback st)) ≤ Z.of_nat a + 1)%Z) by apply Happ.
  destruct (new_meta_good cnt st meta page (dk_meta k) tm'
    {| wd_start_live := start_live (seglog (st_rollback st)); wd_end_live := Z.of_nat (length deltas + 1);
       prune_to_new_start_live := to_prune (deltas ++ [d]) a; prune_to_new_end_live := None |})
    as (file' & Hwrite & Hgood' & Htree'); try done.
  { by eapply bt_sync_u32. }
  { assert (Z.of_nat (length (deltas ++ [d])) ≤ cnt + 1)%Z by (by destruct Hv as (? & _ & _ & _ & _ & _ & ? & _)).
    rewrite length_app in *. simpl in *. unfold is_u64. lia. }
  { assert (Z.of_nat (length (deltas ++ [d])) ≤ cnt + 1)%Z by (by destruct Hv as (? & _ & _ & _ & _ & _ & ? & _)).
    rewrite length_app in *. simpl in *. unfold is_u64. lia. }
  { simpl. lia. }
  unfold store_sync. rewrite (proj2 (Z.leb_gt _ _)) by lia. rewrite Hbt, Hws. cbn [dk_meta dk_dir dk_tree].
  destruct mode as [[]|]; cbn [sync_leaves].
  - eexists. split; [reflexivity|]. exists (seglog (st_rollback st)), (deltas ++ [d]), m, meta, (length deltas).
    rewrite take_app_length, length_app. cbn [length dk_dir dk_meta dk_tree].
    split_and!; try done; [by eapply (meta_good_mono cnt); [lia|]|lia| |lia|by rewrite Hold].
    intros Hne. assert (deltas ≠ []) as Hne' by (by intros ->). specialize (Hm Hne').
    destruct Ha as [?|[? _]]; [lia|done].
  - rewrite Hwrite. eexists. split; [reflexivity|].
    exists (seglog (st_rollback st)), (deltas ++ [d]), m, (new_meta st (st_sync_seqn st + 1) tm'
      {| wd_start_live := start_live (seglog (st_rollback st)); wd_end_live := Z.of_nat (length deltas + 1);
         prune_to_new_start_live := to_prune (deltas ++ [d]) a; prune_to_new_end_live := None |}), (length deltas + 1).
    rewrite length_app. cbn [length dk_dir dk_meta dk_tree]. rewrite take_ge by (rewrite length_app; simpl; lia).
    cbn [new_meta rollback_start_live rollback_end_live wd_start_live].
    split_and!; try done; [lia|lia|]. by rewrite <-Hnew, <-Htree'.
  - rewrite Hwrite. cbn [dk_dir dk_meta prune_to_new_start_live prune_to_new_end_live].
    destruct (writeout_end_commit _ _ _ _ _ _ rb' Happ (Hmax eq_refl) Hlog') as (dir' & log' & m' & Hwe & Hv' & Hm' & Hs').
    rewrite Hwe. cbn [log_outcome obind]. eexists _, _. split; [reflexivity|].
    rewrite length_app in Hm', Hs'. cbn [length] in Hm', Hs'.
    eexists (deltas ++ [d]), m', _, _. cbn [st_rollback with_seglog seglog in_memory max_rollback_log_len dk_dir dk_meta dk_tree with_dir
      st_sync_seqn st_num_pages st_seed st_tree].
    split_and!; [exact Hv'|exact Hgood'|by rewrite length_app|exact Hu'|exact Hmem'|..]; try done.
    + lia.
    + specialize (Hmax eq_refl). rewrite length_app. cbn [length]. destruct (Nat.ltb_spec max_len (length deltas + 1 - a)); lia.
    + simpl. destruct (max_len <? length deltas + 1 - a); lia.
    + specialize (Hmax eq_refl). left. rewrite length_app. simpl. lia.
    + by rewrite Htree', Hnew.
Qed.

(** A delta does not depend on what was loaded before the session was finished. *)
Lemma finalize_tentative load tentative actuals :
  loaded load tentative → reads_ok load actuals → finalize load tentative actuals = finalize load ∅ actuals.
Proof.
  intros Ht Hr. destruct (finalize load tentative actuals) as [p] eqn:E1, (finalize load ∅ actuals) as [q] eqn:E2.
  f_equal. apply map_eq. intros k. change p with (priors {| priors := p |}). change q with (priors {| priors := q |}).
  rewrite <-E1, <-E2, !finalize_spec; [done|by intros ? ? ?%lookup_empty_Some|done..].
Qed.

Lemma session_commit_ok h s depth cnt st k mode page preserved actuals :
  sys_ok h depth cnt st k → head h = Some s → actuals_sorted actuals = true →
  reads_ok (λ key, s !! key) actuals → delta_fits (finalize (λ key, s !! key) ∅ actuals) →
  length page = PAGE_SIZE → (cnt + 1 < 2 ^ 32)%Z → (mode = None → 0 < max_len) →
  sync_leaves mode h (apply_tx (value_tx hash_value actuals) s :: h) depth (S depth `min` max_len) (cnt + 1)
    (session_commit iter hash_value mode page preserved actuals st k).
Proof.
  intros (deltas & m & a & meta & Hv & Hmeta & Hend & Hu & Hmem & Hma & Hdepth & Hmax & Hs & Hms & Ha & E1 & E2 & E3 & E4 & Hhead)
    Hs0 Hsorted Hr Hfit Hpage Hc Hmax1.
  assert (Es : s = bt_values (dk_tree k) (meta_tree meta)) by congruence.
  unfold session_commit. rewrite Hsorted. cbn [negb].
  assert (Hload : load_value st k = λ key, s !! key) by (unfold load_value; by rewrite E4, Es). rewrite Hload.
  assert (Hten : loaded (λ key, s !! key) (foldl (λ m key, <[key := s !! key]> m) ∅ preserved)).
  { intros key v. rewrite load_all, lookup_empty. destruct (bool_decide _); congruence. }
  rewrite (finalize_tentative _ _ _ Hten Hr). set (d := finalize (λ key, s !! key) ∅ actuals) in *.
  destruct (rollback_commit_spec cnt (st_rollback st) (dk_dir k) deltas m d Hv Hfit Hc) as (dir' & log' & Hrun & Hv' & Hst').
  rewrite Hrun. rewrite Es. apply (store_sync_commit cnt _ (with_dir k dir') deltas d m a meta); try done.
  - unfold appended_ok. cbn [with_rollback st_rollback with_memory with_seglog seglog in_memory max_rollback_log_len].
    rewrite length_app. cbn [length]. split_and!; try done; [destruct Ha as [?|[-> ->]]; simpl; lia| |].
    + rewrite Hmem. unfold push_recent. cbn [im_log pending_truncate].
      rewrite numbered_snoc, drop_app_le; [done|]. rewrite length_numbered. destruct Ha as [?|[-> ->]]; simpl; lia.
    + rewrite Hst'. destruct (decide _); lia.
  - intros Hne. destruct Hv as (? & _ & _ & _ & [?|[? _]] & _); done.
  - cbn [dk_tree with_dir]. rewrite <-Es. apply restore_delta; [by intros ? ? ?%lookup_empty_Some|done].
Qed.

(** ** Rolling back *)

(** The range of the manifest, and what is left of the log, when the deltas after the first
    [e] are rolled back. *)
Lemma writeout_end_truncate cnt rb rb' dir deltas m a e :
  log_view cnt (seglog rb) dir deltas m → m ≤ a → a < e ∨ e = 0 → e ≤ length deltas →
  (start_live (seglog rb) ≤ Z.of_nat a + 1)%Z → seglog rb' = seglog rb → (0 ≤ cnt)%Z →
  ∃ dir' log' m', writeout_end rb' None (Some (Z.of_nat e)) dir = (dir', Ok (with_seglog rb' log')) ∧
    let a' := if decide (e = 0) then 0 else a in
    log_view cnt log' dir' (take e deltas) m' ∧ m' ≤ a' ∧ (start_live log' ≤ Z.of_nat a' + 1)%Z.
Proof.
  intros (files & Hlog & Hp & Hrec & Hm & Hhead & Hlen & Hfit) Hma He Hle Hst Hlog' Hc.
  unfold writeout_end. rewrite Hlog'. destruct (decide (e = 0)) as [->|Hne].
  - destruct (remove_all_spec (seglog rb) dir files Hlog) as (dir' & log' & Hrun & Hlog2 & _ & Hp' & _).
    exists dir', log', 0. split; [by unfold io_bind, io_ret, prune_recent; change (is_nil (Z.of_nat 0)) with true; cbv iota; rewrite Hrun|].
    split_and!; [apply log_view_nil; [done|congruence|done]|done|].
    rewrite (lo_nil _ _ _ Hlog2 eq_refl). lia.
  - assert (Hids : ids_from (Z.of_nat m + 1) (all_records files)) by (rewrite Hrec; apply log_records_drop_ids; lia).
    destruct (prune_recent_spec (seglog rb) dir files (Z.of_nat e)) as
      (dir' & log' & files' & Hrun & Hlog2 & Hall & Hst' & Hend' & Hp' & _ & Hhead' & _); [done| |].
    { apply (ids_from_elem _ _ _ Hids). rewrite Hrec, length_drop, length_log_records. lia. }
    exists dir', log', m. split; [unfold io_bind, io_ret; by rewrite Hrun|].
    split_and!; [|lia|by rewrite Hst'].
    exists files'. rewrite length_take. split_and!; try done; [congruence| |left; lia|lia|lia|by apply Forall_take].
    rewrite Hall, Hrec. apply records_up_to. lia.
Qed.

Lemma rev_take_drop {A} n (l : list A) : rev (take (length l - n) l) = drop n (rev l).
Proof. symmetry. apply skipn_rev. Qed.

Lemma store_sync_rollback cnt st k deltas m a meta h depth tx mode page (e : nat) :
  let s := bt_values (dk_tree k) (meta_tree meta) in
  let rb := st_rollback st in
  log_view cnt (seglog rb) (dk_dir k) deltas m → max_rollback_log_len rb = max_len →
  in_memory rb = {| im_log := drop a (numbered (take e deltas)); pending_truncate := Some (Z.of_nat e) |} →
  (start_live (seglog rb) ≤ Z.of_nat a + 1)%Z → (rollback_start_live meta ≤ Z.of_nat a + 1)%Z →
  meta_good cnt meta (dk_meta k) → agrees st meta → (0 ≤ cnt)%Z → (cnt + 1 < 2 ^ 32)%Z → length page = PAGE_SIZE →
  rollback_end_live meta = Z.of_nat (length deltas) → m ≤ a → a < length deltas → a < e ∨ e = 0 ∧ a = 0 →
  e < length deltas → depth ≤ length deltas - a → head h = Some s → undoes (rev deltas) h →
  let n := length deltas - e in
  h !! n = Some (apply_tx tx s) →
  sync_leaves mode h (drop n h) depth (depth - n) (cnt + 1) (store_sync mode page tx st k).
Proof.
  intros s rb Hv Hmax Hmem Hst Hms Hmeta (E1 & E2 & E3 & E4) Hc0 Hc Hpage Hend Hma Hal Hae Hel Hdepth Hhead Hu n Hn.
  destruct Hmeta as (Hread & Hok & Hval & Hseq).
  assert (Hs0 : (0 < start_live (seglog rb))%Z) by (eapply log_view_start; [done|by destruct deltas; simpl in *; [lia|]]).
  assert (Hlen : (Z.of_nat (length deltas) ≤ cnt)%Z) by (by destruct Hv as (? & _ & _ & _ & _ & _ & ? & _)).
  destruct (bt_sync (dk_tree k) (st_tree st) tx) as [tree' tm'] eqn:Hbt.
  pose proof (bt_sync_new _ _ _ _ _ Hbt) as Hnew. pose proof (bt_sync_old _ _ _ _ _ Hbt) as Hold.
  rewrite E4 in Hnew, Hold. fold s in Hnew, Hold.
  set (wd := {| wd_start_live := Z.min (start_live (seglog rb)) (Z.of_nat e); wd_end_live := Z.of_nat e;
                prune_to_new_start_live := None; prune_to_new_end_live := Some (Z.of_nat e) |}).
  destruct (new_meta_good cnt st meta page (dk_meta k) tm' wd) as (file' & Hwrite & Hgood' & Htree'); try done.
  { by eapply bt_sync_u32. }
  { unfold is_u64, wd. cbn [wd_start_live]. lia. }
  { unfold is_u64, wd. cbn [wd_end_live]. lia. }
  { unfold wd. cbn [wd_start_live wd_end_live]. lia. }
  assert (Hu' : undoes (rev (take e deltas)) (drop n h)).
  { replace e with (length deltas - n) by lia. rewrite rev_take_drop. apply undoes_drop; [rewrite length_rev; lia|done]. }
  assert (Hhead' : head (drop n h) = Some (apply_tx tx s)) by (by rewrite head_lookup, lookup_drop, Nat.add_0_r).
  unfold store_sync. rewrite (proj2 (Z.leb_gt _ _)) by lia. rewrite Hbt. unfold writeout_start, live_range.
  fold rb. rewrite Hmem. cbn [pending_truncate dk_meta dk_dir dk_tree im_log]. fold wd.
  destruct mode as [[]|]; cbn [sync_leaves].
  - eexists. split; [reflexivity|]. exists (seglog rb), deltas, m, meta, (length deltas). rewrite take_ge by lia.
    cbn [dk_dir dk_meta dk_tree].
    split_and!; try done; [by eapply (log_view_mono cnt); [lia|]|by eapply (meta_good_mono cnt); [lia|]|lia|lia|by rewrite Hold].
  - rewrite Hwrite. eexists. split; [reflexivity|].
    exists (seglog rb), deltas, m, (new_meta st (st_sync_seqn st + 1) tm' wd), e. cbn [dk_dir dk_meta dk_tree].
    split_and!; try done; [by eapply (log_view_mono cnt); [lia|]|lia|subst wd; simpl; lia|subst wd; simpl; lia|].
    by rewrite Hhead', Htree', Hnew.
  - rewrite Hwrite. cbn [dk_dir dk_meta]. unfold wd at 1 2. cbn [prune_to_new_start_live prune_to_new_end_live].
    destruct (writeout_end_truncate (cnt + 1) rb (with_memory rb {| im_log := drop a (numbered (take e deltas)); pending_truncate := None |})
      (dk_dir k) deltas m a e) as (dir' & log' & m' & Hwe & Hv' & Hm' & Hs'); try done; try lia.
    { by eapply (log_view_mono cnt); [lia|]. }
    rewrite Hwe. cbn [log_outcome obind]. eexists _, _. split; [reflexivity|].
    eexists (take e deltas), m', (if decide (e = 0) then 0 else a), _.
    cbn [st_rollback with_seglog with_memory seglog in_memory max_rollback_log_len dk_dir dk_meta dk_tree with_dir
      st_sync_seqn st_num_pages st_seed st_tree].
    split_and!; [exact Hv'|exact Hgood'|by rewrite length_take_le by lia|exact Hu'|..]; try done.
    + destruct (decide (e = 0)) as [->|]; [|done]. change (numbered (take 0 deltas)) with (@nil (Z * Delta)). by rewrite !drop_nil.
    + rewrite length_take_le by lia. destruct (decide (e = 0)); lia.
    + subst wd. simpl. destruct (decide (e = 0)); lia.
    + rewrite length_take_le by lia. destruct (decide (e = 0)) as [->|]; [by right|left; lia].
    + by rewrite Hhead', Htree', Hnew.
Qed.

Lemma nomt_rollback_ok h depth cnt st k mode page n :
  sys_ok h depth cnt st k → 0 < n → n < depth ∨ n = depth ∧ length h = S depth →
  length page = PAGE_SIZE → (0 ≤ cnt)%Z → (cnt + 1 < 2 ^ 32)%Z →
  sync_leaves mode h (drop n h) depth (depth - n) (cnt + 1) (nomt_rollback iter hash_value mode page n st k).
Proof.
  intros (deltas & m & a & meta & Hv & Hmeta & Hend & Hu & Hmem & Hma & Hdepth & Hmax & Hs & Hms & Ha & E1 & E2 & E3 & E4 & Hhead)
    Hn Hnd Hpage Hc0 Hc.
  pose proof (undoes_length _ _ Hu) as Hlh. rewrite length_rev in Hlh.
  set (s := bt_values (dk_tree k) (meta_tree meta)) in *.
  destruct (truncate_spec iter iter_perm (st_rollback st) n deltas h a s) as (tb & Htr & Htb);
    [by rewrite Hmem|done|lia|done|done|].
  unfold nomt_rollback. rewrite (proj2 (Nat.eqb_neq _ _)) by lia. rewrite Htr, traceback_sorted. cbn [negb].
  replace n with (length deltas - (length deltas - n)) at 1 2 by lia.
  apply (store_sync_rollback cnt _ k deltas m a meta); try done; try lia.
  replace (length deltas - (length deltas - n)) with n by lia. by rewrite apply_traceback.
Qed.

Lemma sys_ok_mono h depth cnt cnt' st k : (cnt ≤ cnt')%Z → sys_ok h depth cnt st k → sys_ok h depth cnt' st k.
Proof.
  intros Hc (deltas & m & a & meta & H1 & H2 & H3). exists deltas, m, a, meta.
  split; [by eapply log_view_mono|]. split; [by eapply meta_good_mono|done].
Qed.

(** ** Rolling back to before the first segment *)

(** The log of a store that has lost the record before its oldest delta: the segment with
    that record was removed. *)
Definition first_segment_at (rb : Rollback) (id : Z) : Prop :=
  seg_min <$> head (segments (seglog rb)) = Some id ∧ fst <$> head (im_log (in_memory rb)) = Some id.

Lemma first_segment_view cnt rb dir deltas m a id :
  log_view cnt (seglog rb) dir deltas m → im_log (in_memory rb) = drop a (numbered deltas) → first_segment_at rb id →
  id = (Z.of_nat a + 1)%Z ∧ m = a ∧ a < length deltas ∧
  ∃ f rest rc rs, log_ok (seglog rb) dir (f :: rest) ∧ all_records (f :: rest) = drop m (log_records deltas) ∧ sf_records f = rc :: rs.
Proof.
  intros (files & Hlog & _ & Hrec & Hm & _) Hmem [Hseg Hfirst]. rewrite Hmem in Hfirst. rewrite head_lookup, lookup_drop, Nat.add_0_r in Hfirst.
  destruct (numbered deltas !! a) as [x|] eqn:Hx; [|done]. injection Hfirst as Hfirst. pose proof (numbered_lookup _ _ _ Hx) as Hid.
  apply lookup_lt_Some in Hx. rewrite length_numbered in Hx.
  rewrite (lo_segments _ _ _ Hlog) in Hseg. destruct files as [|f rest]; [done|]. cbn in Hseg. injection Hseg as Hseg.
  pose proof (lo_whole _ _ _ Hlog) as [[_ Hne] _]%Forall_cons_1. destruct (sf_records f) as [|rc rs] eqn:Ef; [done|].
  assert (Hids : ids_from (Z.of_nat m + 1) (all_records (f :: rest))) by (rewrite Hrec; apply log_records_drop_ids; lia).
  rewrite all_records_cons, Ef in Hids. cbn [app] in Hids. apply ids_from_cons in Hids as [Hrc _]. cbn in Hseg.
  split_and!; [lia|lia|done|]. by exists f, rest, rc, rs.
Qed.

(** Opening the log of the first segment with a range that ends before its records. *)
Lemma rollback_read_missing cnt rb dir deltas a f rest rc rs d1 start :
  log_view cnt (seglog rb) dir deltas a → log_ok (seglog rb) dir (f :: rest) →
  all_records (f :: rest) = drop a (log_records deltas) → sf_records f = rc :: rs → a < length deltas → 0 < a →
  dir_ok log_prefix d1 [f] → (0 < start ≤ Z.of_nat a)%Z →
  ∃ d2, rollback_read MAX_SEGMENT_SIZE max_len start (Z.of_nat a) d1 = (d2, Err NoLastLiveRecord).
Proof.
  intros Hv Hlog Hrec Ef Hlt Ha Hd1 Hst. destruct (lo_ids _ _ _ Hlog) as [i (Hi & Hi0 & Hib)].
  assert (Hids : ids_from (Z.of_nat a + 1) (all_records (f :: rest))) by (rewrite Hrec; apply log_records_drop_ids; lia).
  rewrite all_records_cons in Hids. apply ids_from_app in Hids as [Hids _].
  pose proof (lo_fits _ _ _ Hlog) as Hfit. rewrite all_records_cons in Hfit. apply Forall_app in Hfit as [Hfit _].
  destruct (lookup_lt_is_Some_2 deltas a Hlt) as [δ Hδ].
  assert (Hrc : rc = ((Z.of_nat a + 1)%Z, delta_bytes δ)).
  { rewrite all_records_cons, Ef in Hrec. apply (f_equal head) in Hrec. cbn in Hrec. symmetry in Hrec.
    rewrite head_lookup, lookup_drop, Nat.add_0_r in Hrec. unfold log_records, numbered in Hrec.
    rewrite list_lookup_fmap, list_lookup_imap, Hδ in Hrec. cbn in Hrec. by injection Hrec as <-. }
  assert (Hfits : delta_fits δ).
  { destruct Hv as (? & _ & _ & _ & _ & _ & _ & Hf). rewrite Forall_forall in Hf. apply Hf. by eapply list_elem_of_lookup_2. }
  destruct (seglog_open_missing on_record log_prefix MAX_SEGMENT_SIZE i d1 f rc rs (Z.of_nat a + 1) start (Z.of_nat a)
    InMemory_new (push_recent InMemory_new (Z.of_nat a + 1) δ)) as (d2 & Hd2); try done.
  - split_and!; [|done|simpl in *; lia]. by destruct Hi as [? _].
  - by pose proof (lo_whole _ _ _ Hlog) as [? _]%Forall_cons_1.
  - lia.
  - rewrite Hrc. cbn [snd]. by apply on_record_spec.
  - exists d2. unfold rollback_read, io_bind. by rewrite Hd2.
Qed.

Lemma rollback_all_fails h depth cnt st k page id :
  sys_ok h depth cnt st k → first_segment_at (st_rollback st) id → (1 < id)%Z →
  length page = PAGE_SIZE → (0 ≤ cnt)%Z → (cnt + 1 < 2 ^ 32)%Z →
  ∃ k' k'', nomt_rollback iter hash_value None page (total_len (in_memory (st_rollback st))) st k =
      (k', Err (LogFailed NoLastLiveRecord)) ∧
    store_open MAX_SEGMENT_SIZE max_len k' = (k'', Err (LogFailed NoLastLiveRecord)).
Proof.
  intros (deltas & m & a & meta & Hv & Hmeta & Hend & Hu & Hmem & Hma & Hdepth & Hmax & Hs & Hms & Ha & E1 & E2 & E3 & E4 & Hhead)
    Hat Hid Hpage Hc0 Hc.
  set (rb := st_rollback st) in *. set (s := bt_values (dk_tree k) (meta_tree meta)) in *.
  destruct (first_segment_view cnt rb (dk_dir k) deltas m a id Hv) as (-> & -> & Hlt & f & rest & rc & rs & Hlog & Hrec & Ef);
    [by rewrite Hmem|done|].
  assert (Hlen : (Z.of_nat (length deltas) ≤ cnt)%Z) by (by destruct Hv as (? & _ & _ & _ & _ & _ & ? & _)).
  assert (Hs0 : (0 < start_live (seglog rb))%Z) by (eapply log_view_start; [done|by destruct deltas; simpl in *; [lia|]]).
  assert (Hn : total_len (in_memory rb) = length deltas - a) by (unfold total_len; rewrite Hmem; cbn [im_log]; by rewrite length_drop, length_numbered).
  destruct (truncate_spec iter iter_perm rb (length deltas - a) deltas h a s) as (tb & Htr & _); [by rewrite Hmem|lia|lia|done|done|].
  replace (length deltas - (length deltas - a)) with a in Htr by lia.
  destruct Hmeta as (Hread & Hok & Hval & Hseq).
  destruct (bt_sync (dk_tree k) (st_tree st) (value_tx hash_value (traceback_actuals tb))) as [tree' tm'] eqn:Hbt.
  set (wd := {| wd_start_live := Z.min (start_live (seglog rb)) (Z.of_nat a); wd_end_live := Z.of_nat a;
                prune_to_new_start_live := None; prune_to_new_end_live := Some (Z.of_nat a) |}).
  set (st' := with_rollback st (with_memory rb {| im_log := drop a (numbered (take a deltas)); pending_truncate := Some (Z.of_nat a) |})).
  destruct (new_meta_good cnt st' meta page (dk_meta k) tm' wd) as (file' & Hwrite & (Hread' & _ & Hval' & _) & _); try done.
  { by eapply bt_sync_u32. } { unfold is_u64, wd. cbn [wd_start_live]. lia. } { unfold is_u64, wd. cbn [wd_end_live]. lia. }
  { unfold wd. cbn [wd_start_live wd_end_live]. lia. }
  assert (Hids : ids_from (Z.of_nat a + 1) (all_records (f :: rest))) by (rewrite Hrec; apply log_records_drop_ids; lia).
  destruct (prune_recent_missing (seglog rb) (dk_dir k) f rest (Z.of_nat a + 1) (Z.of_nat a) Hlog Hids) as (d1 & Hprune & Hd1); [lia|].
  assert (Hpre : filename_prefix (seglog rb) = log_prefix) by (by destruct Hv as (? & _ & ? & _)). rewrite Hpre in Hd1.
  set (k' := {| dk_dir := d1; dk_meta := file'; dk_tree := tree' |}).
  destruct (rollback_read_missing cnt rb (dk_dir k) deltas a f rest rc rs d1 (wd_start_live wd)) as (d2 & Hopen); try done;
    [lia|subst wd; cbn [wd_start_live]; lia|].
  exists k', (with_dir k' d2). split.
  - unfold nomt_rollback. rewrite Hn, (proj2 (Nat.eqb_neq _ _)) by lia. fold rb. rewrite Htr, traceback_sorted. cbn [negb]. fold st'.
    unfold store_sync. rewrite (proj2 (Z.leb_gt _ _)) by (cbn [st' with_rollback st_sync_seqn]; lia).
    change (st_tree st') with (st_tree st). rewrite Hbt. unfold writeout_start, live_range.
    cbn [st' with_rollback st_rollback with_memory in_memory pending_truncate seglog im_log dk_meta dk_dir dk_tree]. fold rb st' wd. rewrite Hwrite.
    unfold writeout_end, io_bind, io_ret. cbn [wd prune_to_new_start_live prune_to_new_end_live seglog with_memory with_rollback st_rollback st' dk_dir]. rewrite Hprune. done.
  - unfold store_open. cbn [k' dk_meta dk_dir]. rewrite Hread', Hval'. change (rollback_start_live _) with (wd_start_live wd).
    change (rollback_end_live _) with (Z.of_nat a). rewrite Hopen. done.
Qed.

(** ** A log that keeps nothing *)

Lemma writeout_end_zero cnt rb dir d rb' :
  appended_ok cnt rb dir [d] 0 0 → max_len = 0 → seglog rb' = seglog rb →
  writeout_end rb' (to_prune [d] 0) None dir = (dir, Panic).
Proof.
  intros (Hv & _ & _ & _ & Hst) Hmax Hlog'. pose proof (log_view_end _ _ _ _ _ Hv) as Hend.
  assert (Hne : segments (seglog rb) ≠ []).
  { destruct Hv as (files & Hlog & _). rewrite (lo_segments _ _ _ Hlog). intros ->%fmap_nil_inv.
    pose proof (proj1 (log_end_nil _ _ _ Hlog) eq_refl). simpl in *; lia. }
  unfold writeout_end, to_prune, io_bind. rewrite Hmax, Hlog'. cbn [length Nat.sub Nat.ltb Nat.leb]. unfold prune_oldest.
  rewrite bool_decide_eq_false_2 by done. rewrite Hend. done.
Qed.

(** A commit with an empty log stops where a crash after the manifest would. *)
Lemma commit_zero h s depth cnt st k page preserved actuals :
  sys_ok h depth cnt st k → max_len = 0 → im_log (in_memory (st_rollback st)) = [] → head h = Some s →
  reads_ok (λ key, s !! key) actuals → delta_fits (finalize (λ key, s !! key) ∅ actuals) → (cnt + 1 < 2 ^ 32)%Z →
  session_commit iter hash_value None page preserved actuals st k =
  session_commit iter hash_value (Some PostMeta) page preserved actuals st k.
Proof.
  intros (deltas & m & a & meta & Hv & Hmeta & Hend & Hu & Hmem & Hma & Hdepth & Hmax & Hs & Hms & Ha & E1 & E2 & E3 & E4 & Hhead)
    Hzero Himl Hs0 Hr Hfit Hc.
  assert (Es : s = bt_values (dk_tree k) (meta_tree meta)) by congruence.
  assert (deltas = [] ∧ a = 0) as [-> ->].
  { destruct Ha as [Ha|]; [|done]. rewrite Hmem in Himl. apply (f_equal length) in Himl. cbn [im_log length] in Himl.
    rewrite length_drop, length_numbered in Himl. lia. }
  assert (m = 0) as -> by lia. unfold session_commit. destruct (negb _); [done|].
  assert (Hload : load_value st k = λ key, s !! key) by (unfold load_value; by rewrite E4, Es). rewrite Hload.
  assert (Hten : loaded (λ key, s !! key) (foldl (λ m key, <[key := s !! key]> m) ∅ preserved)).
  { intros key v. rewrite load_all, lookup_empty. destruct (bool_decide _); congruence. }
  rewrite (finalize_tentative _ _ _ Hten Hr). set (d := finalize (λ key, s !! key) ∅ actuals) in *.
  destruct (rollback_commit_spec cnt (st_rollback st) (dk_dir k) [] 0 d Hv Hfit Hc) as (dir' & log' & Hrun & Hv' & Hst').
  rewrite Hrun. rewrite decide_True in Hst' by done. set (rb := with_memory _ _).
  assert (Happ : appended_ok (cnt + 1) rb dir' [d] 0 0).
  { unfold appended_ok, rb. cbn [with_memory with_seglog seglog in_memory max_rollback_log_len length]. rewrite Hmem.
    split_and!; try done; simpl; lia. }
  destruct (writeout_start_commit _ _ _ _ _ _ Happ Hc) as (rb' & Hws & Hlog' & _).
  unfold store_sync. cbn [with_rollback st_rollback st_sync_seqn st_tree]. destruct (_ <=? _)%Z; [done|].
  destruct (bt_sync _ _ _) as [tree tm]. rewrite Hws. destruct (meta_write _ _ _); [|done].
  cbn [prune_to_new_start_live prune_to_new_end_live dk_dir with_dir]. by rewrite (writeout_end_zero _ _ _ _ _ Happ Hzero Hlog').
Qed.
End correct.
