(* ===== verification/StoreSpec.v ===== *)
(** * Rolling back, across restarts and crashes

    The specification of the store with its rollback log, a history of values, and the
    theorem that the store refines it. *)

From S2P Require Import Prelude Trie PageId Delta Overlay Meta Seglog SeglogFiles SeglogCorrect Rollback.
From S2P Require Import Store StoreCorrect.

#[local] Open Scope nat_scope.

(** The values after the commits so far, newest first, and how many of these commits can
    be rolled back. *)
Record history := { h_states : list values; h_depth : nat }.

Definition current (h : history) : values := default ∅ (head (h_states h)).

Section spec.
Context `{BeatreeLaws}.
Context (MAX_SEGMENT_SIZE : nat).
Context (iter : gmap KeyPath (option (list u8)) → list (KeyPath * option (list u8))).
Hypothesis iter_perm : ∀ m, iter m ≡ₚ map_to_list m.
Context (hash_value : list u8 → ValueHash).
Context (max_len : nat).

(** What an operation asks of its caller.  The writes of a commit are sorted, the priors it
    gives are those it has read, and its delta can be stored in a record.  A rollback goes
    back by less than the depth, so that it leaves a delta in the log, or by the depth when
    no delta was ever dropped, that is, to the very beginning. *)
Definition op_ok (h : history) (o : op) : Prop :=
  match o with
  | OpCommit _ page _ actuals =>
      actuals_sorted actuals = true ∧ reads_ok (λ key, current h !! key) actuals ∧
      delta_fits iter (finalize (λ key, current h !! key) ∅ actuals) ∧ length page = PAGE_SIZE
  | OpRollback _ page n =>
      0 < n ∧ (n < h_depth h ∨ n = h_depth h ∧ length (h_states h) = S (h_depth h)) ∧ length page = PAGE_SIZE
  | OpReopen => True
  end.

(** A commit or a rollback that crashes before the manifest is written did not happen. *)
Definition op_spec (h : history) (o : op) : history :=
  match o with
  | OpCommit (Some PostWal) _ _ _ | OpRollback (Some PostWal) _ _ | OpReopen => h
  | OpCommit _ _ _ actuals =>
      {| h_states := apply_tx (value_tx hash_value actuals) (current h) :: h_states h;
         h_depth := S (h_depth h) `min` max_len |}
  | OpRollback _ _ n => {| h_states := drop n (h_states h); h_depth := h_depth h - n |}
  end.

Fixpoint ops_ok (h : history) (ops : list op) : Prop :=
  match ops with
  | [] => True
  | o :: ops => op_ok h o ∧ ops_ok (op_spec h o) ops
  end.

#[global] Instance reads_ok_dec load actuals : Decision (reads_ok load actuals).
Proof.
  unfold reads_ok. apply Forall_dec. intros [k [v|v|prior v]]; simpl; apply _.
Defined.

#[global] Instance delta_fits_dec d : Decision (delta_fits iter d).
Proof. unfold delta_fits. apply _. Defined.

#[global] Instance op_ok_dec h o : Decision (op_ok h o).
Proof. destruct o; simpl; apply _. Defined.

#[global] Instance ops_ok_dec h ops : Decision (ops_ok h ops).
Proof.
  revert h. induction ops as [|o ops IH]; intros h; simpl; [apply _|]. apply and_dec; [apply _|apply IH].
Defined.

(** ** Refinement *)

Definition refines (h : history) (cnt : Z) (s : Store * Disk) : Prop :=
  sys_ok iter max_len (h_states h) (h_depth h) cnt s.1 s.2.

Lemma refines_head h cnt s : refines h cnt s → head (h_states h) = Some (current h).
Proof.
  intros (deltas & m & a & meta & _ & _ & _ & Hu & _). apply undoes_length in Hu.
  unfold current. by destruct (h_states h).
Qed.

Lemma refines_load h cnt st k : refines h cnt (st, k) → ∀ key, load_value st k key = current h !! key.
Proof.
  intros Hr key. pose proof (refines_head _ _ _ Hr) as Hh.
  destruct Hr as (deltas & m & a & meta & _ & _ & _ & _ & _ & _ & _ & _ & _ & _ & _ & _ & _ & _ & E & Hhead).
  unfold load_value. simpl in *. rewrite E. congruence.
Qed.

(** After the operation, or after opening the store again. *)
Lemma sync_leaves_exec mode h h' depth depth' cnt r :
  sync_leaves iter max_len mode h h' depth depth' cnt r → (0 ≤ cnt)%Z →
  ∃ st k, after_op MAX_SEGMENT_SIZE max_len mode r = Some (st, k) ∧
    match mode with Some PostWal => sys_ok iter max_len h depth cnt st k | _ => sys_ok iter max_len h' depth' cnt st k end.
Proof.
  intros Hl Hc. destruct mode as [[]|]; simpl in Hl.
  - destruct Hl as (k & -> & Hd).
    destruct (store_open_ok MAX_SEGMENT_SIZE iter iter_perm max_len _ _ _ _ Hd Hc) as (k' & st & Hrun & Hs). exists st, k'. simpl. unfold reopen. by rewrite Hrun.
  - destruct Hl as (k & -> & Hd).
    destruct (store_open_ok MAX_SEGMENT_SIZE iter iter_perm max_len _ _ _ _ Hd Hc) as (k' & st & Hrun & Hs). exists st, k'. simpl. unfold reopen. by rewrite Hrun.
  - destruct Hl as (k & st & -> & Hs). by exists st, k.
Qed.

Lemma exec_refines h cnt s o :
  refines h cnt s → op_ok h o → (0 ≤ cnt)%Z → (cnt + 1 < 2 ^ 32)%Z → 0 < max_len →
  ∃ s', exec MAX_SEGMENT_SIZE iter hash_value max_len o s = Some s' ∧ refines (op_spec h o) (cnt + 1) s'.
Proof.
  intros Hr Hok Hc0 Hc Hmax. pose proof (refines_head _ _ _ Hr) as Hh. destruct s as [st k].
  destruct o as [mode page preserved actuals|mode page n|].
  - destruct Hok as (Hs & Hread & Hfit & Hpage).
    pose proof (session_commit_ok iter hash_value max_len (h_states h) (current h) (h_depth h) cnt st k mode page
      preserved actuals Hr Hh Hs Hread Hfit Hpage Hc (λ _, Hmax)) as Hl.
    destruct (sync_leaves_exec _ _ _ _ _ _ _ Hl ltac:(lia)) as (st' & k' & Hrun & Hsys).
    exists (st', k'). split; [exact Hrun|]. by destruct mode as [[]|].
  - destruct Hok as (Hn & Hd & Hpage).
    pose proof (nomt_rollback_ok iter iter_perm hash_value max_len (h_states h) (h_depth h) cnt st k mode page n
      Hr Hn Hd Hpage Hc0 Hc) as Hl.
    destruct (sync_leaves_exec _ _ _ _ _ _ _ Hl ltac:(lia)) as (st' & k' & Hrun & Hsys).
    exists (st', k'). split; [exact Hrun|]. by destruct mode as [[]|].
  - destruct (reopen_ok MAX_SEGMENT_SIZE iter iter_perm hash_value max_len _ _ _ _ _ Hr Hc0) as (s' & Hrun & Hsys).
    exists s'. split; [done|]. by eapply sys_ok_mono; [|exact Hsys]; lia.
Qed.

Lemma store_run_refines h cnt s ops :
  refines h cnt s → ops_ok h ops → (0 ≤ cnt)%Z → (cnt + Z.of_nat (length ops) < 2 ^ 32)%Z → 0 < max_len →
  ∃ s', run MAX_SEGMENT_SIZE iter hash_value max_len ops s = Some s' ∧
    refines (foldl op_spec h ops) (cnt + Z.of_nat (length ops)) s'.
Proof.
  revert h cnt s. induction ops as [|o ops IH]; intros h cnt s Hr Hok Hc0 Hc Hmax.
  { exists s. split; [done|]. simpl. by rewrite Z.add_0_r. }
  destruct Hok as [Ho Hok]. cbn [length] in *.
  destruct (exec_refines h cnt s o Hr Ho) as (s1 & Hrun & Hr1); [done|lia|done|].
  destruct (IH _ _ _ Hr1 Hok) as (s' & Hrun' & Hr'); [lia|lia|done|].
  exists s'. split; [simpl; by rewrite Hrun|]. simpl.
  by replace (cnt + Z.of_nat (S (length ops)))%Z with (cnt + 1 + Z.of_nat (length ops))%Z by lia.
Qed.

(** A new database: no files of the log, and a new manifest. *)
Record fresh (k : Disk) (seed : list u8) (num_pages : Z) : Prop := {
  fr_dir : ∀ name, is_Some (dk_dir k !! name) → take (length log_prefix) name ≠ log_prefix;
  fr_meta : meta_read (dk_meta k) = Ok (Meta_create_new seed num_pages);
  fr_seed : length seed = 16;
  fr_pages : is_u32 num_pages;
}.

Lemma fresh_disk_ok k seed num_pages :
  fresh k seed num_pages →
  disk_ok iter [bt_values (dk_tree k) (meta_tree (Meta_create_new seed num_pages))] 0 0 k.
Proof.
  intros [Hdir Hmeta Hseed Hpages].
  set (log := {| filename_prefix := log_prefix; max_segment_size := MAX_SEGMENT_SIZE; start_live := 0; end_live := 0;
                 segments := []; head_segment_writer := None |}).
  assert (Hlog : log_ok log (dk_dir k) []).
  { split; try done; [by exists 1%Z| |by exists 1%Z]. split; [by intros f ?%not_elem_of_nil|].
    intros name Hs Ht. by apply Hdir in Ht. }
  exists log, [], 0, (Meta_create_new seed num_pages), 0. split_and!; try done.
  by apply log_view_nil.
Qed.

(** C8: Rolling back restores the values of an earlier commit.  From a new database,
    with a maximum length of the log that is not zero, run fewer than 2^32 commits,
    rollbacks and restarts, where a commit or a rollback may crash just before or just
    after the manifest is written, such that [ops_ok] holds: the writes of a commit
    are sorted, the reads it reports are true, and its delta fits a record; a rollback
    goes back by less than the depth, or by the depth if no delta was ever dropped.
    The depth grows by one with a commit, up to the maximum, and shrinks by what is
    rolled back.  Then every operation and reopening succeeds, and the store has the
    values of the history: a commit adds a state, a rollback of [n] goes back by [n]
    states, and what crashes before the manifest did not happen.  The deltas go
    through their records on disk, and segments are pruned.  Crashes inside an append
    or the syncs of other parts are not covered, nor is a rollback of a whole pruned
    log ([rollback_all_unopenable]). *)
Theorem rollback_refinement k0 seed num_pages ops :
  fresh k0 seed num_pages → 0 < max_len → (Z.of_nat (length ops) < 2 ^ 32)%Z →
  let h0 := {| h_states := [bt_values (dk_tree k0) (meta_tree (Meta_create_new seed num_pages))]; h_depth := 0 |} in
  ops_ok h0 ops →
  ∃ k st st' k', store_open MAX_SEGMENT_SIZE max_len k0 = (k, Ok st) ∧
    run MAX_SEGMENT_SIZE iter hash_value max_len ops (st, k) = Some (st', k') ∧
    ∀ key, load_value st' k' key = current (foldl op_spec h0 ops) !! key.
Proof.
  intros Hf Hmax Hlen h0 Hok.
  destruct (store_open_ok MAX_SEGMENT_SIZE iter iter_perm max_len _ _ _ _ (fresh_disk_ok _ _ _ Hf)) as (k & st & Hopen & Hsys); [done|].
  destruct (store_run_refines h0 0 (st, k) ops) as ([st' k'] & Hrun & Hr); [done|done|done|lia|done|].
  exists k, st, st', k'. split_and!; [done|done|]. by eapply refines_load.
Qed.
(** C38: Rolling back all deltas of the log can lose the database.  From a new database
    and after any operations as in [rollback_refinement], when the oldest delta in memory
    is the first record of the first segment file and is not the first record ever
    written, so that the segment of the record before it was removed, rolling back as many commits as there are deltas, which [truncate]
    accepts, fails after the manifest was written, and opening the store again fails with
    the same error.  It does not depend on the size of segments, the tree or the values. *)
Theorem rollback_all_unopenable k0 seed num_pages ops k st0 st k1 page id :
  fresh k0 seed num_pages → 0 < max_len → (Z.of_nat (length ops) + 1 < 2 ^ 32)%Z →
  ops_ok {| h_states := [bt_values (dk_tree k0) (meta_tree (Meta_create_new seed num_pages))]; h_depth := 0 |} ops →
  store_open MAX_SEGMENT_SIZE max_len k0 = (k, Ok st0) →
  run MAX_SEGMENT_SIZE iter hash_value max_len ops (st0, k) = Some (st, k1) →
  first_segment_at (st_rollback st) id → (1 < id)%Z → length page = PAGE_SIZE →
  ∃ k' k'', nomt_rollback iter hash_value None page (total_len (in_memory (st_rollback st))) st k1 =
      (k', Err (LogFailed NoLastLiveRecord)) ∧
    store_open MAX_SEGMENT_SIZE max_len k' = (k'', Err (LogFailed NoLastLiveRecord)).
Proof.
  intros Hf Hmax Hlen Hok Hopen Hrun Hat Hid Hpage.
  destruct (store_open_ok MAX_SEGMENT_SIZE iter iter_perm max_len _ _ _ _ (fresh_disk_ok _ _ _ Hf)) as (k' & st' & Hopen' & Hsys); [done|].
  rewrite Hopen in Hopen'. injection Hopen' as <- <-.
  destruct (λ H, store_run_refines _ 0 (st0, k) ops H Hok) as ([st2 k2] & Hrun' & Hr); [exact Hsys|done|lia|done|].
  rewrite Hrun in Hrun'. injection Hrun' as <- <-.
  eapply rollback_all_fails; [done|exact Hr|done..|lia|lia].
Qed.

(** With a maximum length of zero, the first commit panics after the manifest was written:
    it did not return, and the next start finds its values. *)
Lemma commit_keeps_nothing k0 seed num_pages page preserved actuals :
  fresh k0 seed num_pages → max_len = 0 →
  let s := bt_values (dk_tree k0) (meta_tree (Meta_create_new seed num_pages)) in
  op_ok {| h_states := [s]; h_depth := 0 |} (OpCommit None page preserved actuals) →
  ∃ k st k' st' k'', store_open MAX_SEGMENT_SIZE max_len k0 = (k, Ok st) ∧
    session_commit iter hash_value None page preserved actuals st k = (k', Panic) ∧
    store_open MAX_SEGMENT_SIZE max_len k' = (k'', Ok st') ∧
    ∀ key, load_value st' k'' key = apply_tx (value_tx hash_value actuals) s !! key.
Proof.
  intros Hf Hmax s (Hs & Hread & Hfit & Hpage).
  destruct (store_open_ok MAX_SEGMENT_SIZE iter iter_perm max_len _ _ _ _ (fresh_disk_ok _ _ _ Hf)) as (k & st & Hopen & Hsys); [done|].
  assert (Hempty : im_log (in_memory (st_rollback st)) = []).
  { destruct Hsys as (deltas & m & a & meta & _ & _ & _ & Hu & Hmem & _). apply undoes_length in Hu. rewrite length_rev in Hu.
    destruct deltas; [|simpl in Hu; lia]. rewrite Hmem. cbn. by rewrite drop_nil. }
  pose proof (session_commit_ok iter hash_value max_len _ s 0 0 st k (Some PostMeta) page preserved actuals Hsys eq_refl Hs Hread Hfit
    Hpage eq_refl ltac:(done)) as (k' & Hrun & Hd).
  destruct (store_open_ok MAX_SEGMENT_SIZE iter iter_perm max_len _ _ _ _ Hd) as (k'' & st' & Hopen' & Hsys'); [lia|].
  exists k, st, k', st', k''. split_and!; [done| |done|].
  - by rewrite (commit_zero iter hash_value max_len _ s _ _ _ _ page preserved actuals Hsys Hmax Hempty eq_refl Hread Hfit eq_refl).
  - by apply (refines_load {| h_states := apply_tx (value_tx hash_value actuals) s :: [s]; h_depth := 1 `min` max_len |} (0 + 1)).
Qed.
End spec.

(** ** An instance *)

(** A tree with two copies of the values: a sync writes the one that is not in use. *)
Definition slot (m : BeatreeMeta) : bool := (bm_ln_freelist_pn m =? 0)%Z.

#[local] Instance two_slots : Beatree := {|
  bt_disk := values * values;
  bt_values d m := if slot m then d.1 else d.2;
  bt_sync d m tx :=
    let v := apply_tx tx (if slot m then d.1 else d.2) in
    if slot m then ((d.1, v), {| bm_ln_freelist_pn := 1; bm_ln_bump := 1; bm_bbn_freelist_pn := 0; bm_bbn_bump := 1 |})
    else ((v, d.2), {| bm_ln_freelist_pn := 0; bm_ln_bump := 1; bm_bbn_freelist_pn := 0; bm_bbn_bump := 1 |});
|}.

#[local] Instance two_slots_laws : BeatreeLaws.
Proof.
  split; intros d m tx d' m'; simpl; destruct (slot m); by intros [= <- <-].
Qed.

Definition key (b : u8) : KeyPath := replicate 32 b.
Definition example_page : list u8 := replicate 4096 x00.
Definition example_hash (_ : list u8) : ValueHash := replicate 32 x00.
Definition example_meta : list u8 :=
  default [] (meta_write example_page (Meta_create_new (replicate 16 x07) 64) []).
Definition example_disk : Disk := {| dk_dir := ∅; dk_meta := example_meta; dk_tree := (∅, ∅) |}.

Definition write (b v : u8) : KeyPath * KeyReadWrite := (key b, Write (Some [v])).

Lemma example_fresh : fresh example_disk (replicate 16 x07) 64.
Proof.
  split; [|by vm_compute|done|done]. intros name [c Hn]. by destruct (lookup_empty_Some (M := gmap (list u8)) name c).
Qed.

(** Two commits, a commit that crashes before the manifest is written, a third commit, and
    a rollback of the last one that crashes after the manifest is written. *)
Definition example_ops : list op :=
  [OpCommit None example_page [] [write x01 x10];
   OpCommit None example_page [key x01] [write x01 x11; write x02 x12];
   OpCommit (Some PostWal) example_page [] [write x03 x13];
   OpReopen;
   OpCommit None example_page [] [(key x01, ReadThenWrite (Some [x11]) None)];
   OpRollback (Some PostMeta) example_page 1].

Lemma rollback_refinement_witness :
  ∃ k st st' k', store_open 64 2 example_disk = (k, Ok st) ∧
    run 64 map_to_list example_hash 2 example_ops (st, k) = Some (st', k') ∧
    ∀ k0, load_value st' k' k0 =
      current (foldl (op_spec example_hash 2) {| h_states := [∅]; h_depth := 0 |} example_ops) !! k0.
Proof.
  apply (rollback_refinement 64 map_to_list (λ m, reflexivity _) example_hash 2 example_disk (replicate 16 x07) 64 example_ops).
  - apply example_fresh.
  - lia.
  - by vm_compute.
  - by_compute.
Defined.

(** The example for [rollback_all_unopenable]: two commits, of which the log keeps one, in
    segments of a single record. *)
Definition two_commits : list op :=
  [OpCommit None example_page [] [write x01 x10]; OpCommit None example_page [] [write x01 x11]].

Definition opened : option (Store * Disk) := reopen 64 1 example_disk.

#[global] Instance first_segment_at_dec rb id : Decision (first_segment_at rb id).
Proof. unfold first_segment_at. apply _. Defined.

Lemma rollback_all_unopenable_witness :
  ∃ st0 k st k1 k' k'', store_open 64 1 example_disk = (k, Ok st0) ∧
    run 64 map_to_list example_hash 1 two_commits (st0, k) = Some (st, k1) ∧
    total_len (in_memory (st_rollback st)) = 1 ∧
    nomt_rollback map_to_list example_hash None example_page (total_len (in_memory (st_rollback st))) st k1 =
      (k', Err (LogFailed NoLastLiveRecord)) ∧
    store_open 64 1 k' = (k'', Err (LogFailed NoLastLiveRecord)).
Proof.
  assert (Hc : match opened with
    | Some s =>
        match run 64 map_to_list example_hash 1 two_commits s with
        | Some (st, _) => bool_decide (total_len (in_memory (st_rollback st)) = 1 ∧ first_segment_at (st_rollback st) 2)
        | None => false
        end
    | None => false
    end = true) by (vm_compute; reflexivity).
  unfold opened, reopen in Hc. destruct (store_open 64 1 example_disk) as [k [st0|e|]] eqn:Hopen; [|discriminate Hc..].
  destruct (run _ _ _ _ _ _) as [[st k1]|] eqn:Hrun; [|discriminate Hc]. apply bool_decide_eq_true_1 in Hc as [Hlen Hat].
  destruct (rollback_all_unopenable 64 map_to_list (λ m, reflexivity _) example_hash 1 example_disk (replicate 16 x07) 64
    two_commits k st0 st k1 example_page 2 example_fresh) as (k' & k'' & H1 & H2);
    [lia|by vm_compute|by_compute|exact Hopen|exact Hrun|exact Hat|lia|by vm_compute|].
  exists st0, k, st, k1, k', k''. split_and!; [reflexivity|exact Hrun|exact Hlen|exact H1|exact H2].
Defined.
